(* ===== verification/_CoqProject ===== *)
-Q . S2P
Prelude.v
Measure.v
RpcCodec.v
VfsTypes.v
RpcAuth.v
NfsProcedures.v
NfsCodec.v
RpcRecord.v
Reply.v
Handles.v
Replay.v
Limits.v
Vfs.v
Connection.v
Mount.v
Execute.v
RpcNames.v
Builder.v
Serving.v
Contracts.v
Mounting.v
Calls.v
Service.v
Pipeline.v
Delivery.v
Promise.v
Drain.v
Wiring.v
Portmapper.v
Lifecycle.v
Serve.v
Tracker.v
Xdr.v
LegacyMessage.v
LegacyNfs.v
Free.v
LegacyVfs.v
LegacyHandlers.v
LegacyReplies.v
LegacyBehaviour.v
LegacyRpc.v
LegacyServer.v
LegacyTcp.v
LegacyListener.v
LegacyListenerSpec.v
LegacyStarvation.v
DemoFs.v
DemoFsLaws.v
DemoFsSpec.v
MirrorMap.v
MirrorFs.v
MirrorFsSpec.v
FsUtil.v
FuzzNfs.v
FuzzReplay.v
Certification.v
MirrorWindows.v
