(* ===== verification/Prelude.v ===== *)
(** * nfsembed: a verification development

    nfsembed is an embeddable NFSv3/MOUNTv3 server: an application supplies a
    virtual file system and the crate serves it over ONC RPC. Paths below are
    relative to the crate root ([src/server/connection.rs] and so on).

    ** How the program fits together

    A TCP connection carries records ([rpc/record.rs]). Each record is an RPC
    call: a header with credentials ([rpc/auth.rs]) decoded by the XDR codec
    ([rpc/codec.rs]), then arguments. [dispatch_record] ([server/connection.rs])
    admits the call, asks the replay cache ([replay/cache.rs]) whether it is new,
    running or already answered, and runs a new one in a task of its own:
    [execute_request] dispatches by program to the NFS handlers, the MOUNT
    handlers or the portmapper. NFS arguments are decoded by
    [nfs3/procedures/mod.rs], results encoded by [nfs3/codec.rs]; objects travel
    as authenticated handles ([handles/codec.rs]). The reply ([rpc/reply.rs]) is
    checked against the limits ([server/limits.rs]), stored for replay and
    written back. [server/builder.rs] and [server/mod.rs] configure and start a
    server; [server/portmapper.rs] is an optional second endpoint. Each
    connection runs a reader, a processor and a writer task; [run]
    ([server/mod.rs]) accepts connections and performs the shutdown that a
    [ServerHandle] ([server/handle.rs]) requests.

    ** Files

    Models, each with the lemmas that belong to it:
    - [Prelude]: results, machine integers, big-endian bytes, list lengths in
      [Z], automation ([zbool], [zdec], [case_in], the hint databases).
    - [Measure]: weights of finite maps, for termination measures.
    - [RpcCodec]: [rpc/codec.rs]. [Decoder], [Encoder]; [Format] describes what a
      reader accepts as a relation between values and bytes (class [Implements]);
      [Emit] what a writer appends (class [Emits]).
    - [VfsTypes]: [vfs/types.rs], [vfs/context.rs], [vfs/capabilities.rs],
      [nfs3/types.rs]: the data exchanged with backends.
    - [RpcAuth]: [rpc/auth.rs].
    - [NfsProcedures], [NfsCodec]: [nfs3/procedures/mod.rs], [nfs3/dispatch.rs],
      [nfs3/codec.rs]: arguments and results of all 22 procedures, READDIR
      truncation.
    - [RpcRecord]: [rpc/record.rs]: fragment reader (plain and budgeted), writers
      over a transport with partial and vectored writes.
    - [Reply]: [rpc/reply.rs].
    - [Handles]: [handles/codec.rs].
    - [Replay]: [replay/cache.rs], as functions per lock section and as a step
      relation over leases, waiters and a clock.
    - [Limits]: [server/limits.rs], [server/config.rs].
    - [Vfs]: the backend trait of [vfs/mod.rs] as operations with typed
      responses, the program monad [prog] over backend and mount-table effects
      ([Ret], [Do], [Panic]), its interpreter [run] and its weakest precondition
      [wp]; the mount table.
    - [Connection]: the NFS handlers and reply builders of
      [server/connection.rs]; [Mount]: MOUNT and in-band portmapper
      ([mount3/], [portmap/]); [Execute]: admission and execution of one call;
      [Builder]: [server/builder.rs] and the start state of [server/mod.rs],
      with the class [ServerReady], which is what the handlers rely on.
    - [Service]: [dispatch_record] with replay cache, tasks and backend as a
      transition system.
    - [Pipeline]: the reader, processor and writer tasks of a connection
      ([serve_connection] to [connection_writer]), their queues and byte budgets,
      against the interface [Dispatcher].
    - [Portmapper]: [server/portmapper.rs], sockets, dispatch and connections.
    - [Lifecycle]: [run], [start_inner] and [ExecutionTracker] of
      [server/mod.rs], [ServerHandle] of [server/handle.rs], the loop of
      [run_portmapper] and the request tasks of [connection_processor], which spawn
      the executions, as one transition system of task sets and phases.
    - [Serve]: [serve] and [serve_with_portmapper] of [server/mod.rs], which refine
      a server started with a handle.
    - The demo server, an earlier implementation: [Tracker], its retransmission
      detection ([transaction_tracker.rs]) with a reference; [Xdr], its XDR trait
      ([xdr.rs]) with the laws of its instances (class [Lawful]);
      [LegacyMessage] ([rpc/message_legacy.rs]) and [LegacyNfs] ([nfs.rs]), its
      messages and NFS types; [Free], programs over effects with their runs and
      weakest precondition; [LegacyVfs] ([vfs/legacy.rs]), the [NFSFileSystem]
      trait as effects, its provided methods as the class [Provided];
      [LegacyHandlers] ([nfs_handlers.rs], [write_counter.rs]), one program per
      procedure; [LegacyRpc] ([rpcwire.rs], [mount_handlers.rs],
      [portmap_handlers.rs], [mount.rs], [context.rs]), a record from its bytes to
      its reply; [LegacyServer], all tasks with the shared tracker; [LegacyTcp]
      ([tcp.rs]), binding and the export name; [LegacyListener] ([tcp.rs],
      [rpcwire.rs]), the accept loop and the tasks of every connection with their
      pipe, queue and shared permits.
    - [RpcNames]: [rpc/message.rs] and the procedure names of traces.
    - Backends of [NfsServer]: [DemoFs], the in-memory file system of
      [examples/demo.rs], with its mutex and the memory of its files; [MirrorMap] and [MirrorFs], the mirror of
      a host directory of [examples/mirrorfs.rs] (unix build): the table of paths,
      and each request as a program over host calls and locked sections;
      [MirrorWindows], its component checks, comparisons and sizes on Windows.
    - [FsUtil]: [fs_util.rs], host metadata for the demo server (unix build).
    - [FuzzNfs], [FuzzReplay]: targets of [fuzz/fuzz_targets] with their
      assertions; [Certification]: [examples/certification_server.rs], its serving
      loop and the proxies that lose a reply.

    Theorems about the models of several files are in [Serving] (NFS requests),
    [Contracts] (single procedures), [Mounting] (MOUNT), [Calls] (one record),
    [LegacyReplies] (the replies of the demo server are those of RFC 1813, and it
    fails where arguments break off),
    [LegacyBehaviour] (what its procedures do), [DemoFsLaws] and [DemoFsSpec] (the
    tree of the demo file system and what clients see of it), [MirrorFsSpec]
    (interleaved requests of the mirror stay inside its directory),
    [LegacyListenerSpec] and [LegacyStarvation] (permits, deliveries and the
    progress of the demo server's listener),
    [Delivery] (invariants of a connection), [Promise] (the contract [observe]
    that a connection refines), [Drain] (a connection ends after shutdown) and
    [Wiring] (the server of [Service] implements [Dispatcher], so that the
    theorems on connections hold of the real [dispatch_record]).

    ** What is shown

    - Codecs: opaque data, credentials, NFS arguments, records and handles are
      accepted exactly in their canonical form and round-trip; optimised paths
      (segmented READ replies, incremental READDIR truncation, the budgeted
      reader, listing pre-checks) equal their references.
    - Limits: validated limits let every reply through; replies fit; the replay
      cache and the mount table stay within their bounds.
    - Authority: every backend call is made for an admitted call, under its
      principal, on an object named by a handle this server issued for that
      export, with valid names.
    - Exactly-once behaviour: a lease performs at most one state change, a
      retransmission of a running call waits and gets that call's reply, a
      completed one is replayed until its reply expires or is evicted, a replayed
      reply is genuine, executions never get stuck.
    - Connections: the tasks of a connection refine the client's contract: every
      record is answered at most once, with its own transaction identifier, and
      exactly once on a connection that ends without error; queues, request tasks
      and buffered bytes stay within their budgets in every interleaving (records
      that outlive their permit are bounded separately); after a shutdown request a
      connection ends within [remaining] steps of its own.
    - Lifecycle: both listeners together keep the connection limit; the shutdown
      sequence ends, within [effort] steps and two for each late arrival, waiting
      only for what it has told to stop, and leaves nothing running that was not;
      the executions that an aborted request task can still spawn meanwhile are
      accounted for ([straggled]); [wait] reports the result once; [serve] is a
      started server with such a handle.
    - Demo server: its tracker refines a map that remembers each transaction from
      arrival until a retention period after completion, so that no transaction
      is executed twice; every message is read back as it was written; a record
      has one outcome, silence only when the tracker knows its transaction, failure
      only when it cannot be read, a call one reply of the right type and at most
      one change. Its listener conserves connection permits and record bytes, reads
      the records its peers send and hands genuine replies to the socket, in every
      interleaving; but a connection whose socket takes no more bytes can stop it.
    - Demo file system: its tree stays well formed and it keeps answering until the
      memory for a file cannot be had; what
      was written is read, what was created is found, a directory is listed
      completely.
    - Mirror: its tables refine one injective map from numbers to paths, for any
      iteration order of hash maps; the paths it gives to the host stay below the
      mirrored directory, assuming that the host creates nothing under a dot name
      and lists none ([polite]). On Windows exactly the ordinary components are
      accepted as names, so that this holds of every name.
    - Tests: the assertions of the fuzz targets hold for every input; the
      certification proxies keep back the first reply to a WRITE and no other; what
      else is lost was being written when its proxy ended.
    - Procedures: WRITE, READ, ACCESS, FSINFO, READDIR and MNT keep their
      contracts against arbitrary backends.
    - Configuration: [build] accepts exactly the servable configurations, and a
      started server satisfies [ServerReady].

    ** Modelling decisions

    Bytes are [Byte.byte], machine integers [Z] with the width and the checked,
    saturating or wrapping behaviour of the source written out ([usize] has 64
    bits). Fallible code returns [result]; a handler that could panic would
    contain [Panic]. HMAC-SHA-256 (32 output bytes), SHA-256, the random source,
    [Vec] capacities, the allocator and the clock are parameters; the backend is
    an arbitrary function of its operation and state. Recursion is structural,
    or uses fuel equal to the length of the list being consumed ([chunks],
    [make_room], the segment cursor), which the lemmas on those functions show to
    be enough. A task that is cut off (deadline, shutdown, failed permit) may be
    cut off at any of its steps.

    ** Not modelled

    The Windows build of [fs_util.rs], and of [examples/mirrorfs.rs] the calls that
    open, rename by handle and set permissions on that system (the theorems on the
    path map are for the unix comparison); the four fuzz targets that only call a
    decoder, and the calls by which the others also decode their raw input and drop
    the result; the test file systems of [tests/]; the [main] functions of the demo
    and the mirror; log output other than its name tables; socket options;
    allocation failure inside [read_array], and in the demo file system other than
    for the bytes of its files; panics of spawned tasks other than as
    an end of the task; clocks, beyond the fact that every wait with a deadline
    can end. *)
From stdpp Require Export base list strings option countable.
From Stdlib Require Export ZArith Lia.
From Stdlib Require Import Strings.Byte.

#[global] Open Scope Z_scope.

Abbreviation byte := Byte.byte.

#[global] Instance byte_eq_dec : EqDecision byte := Byte.byte_eq_dec.
#[global] Instance byte_countable : Countable byte :=
  inj_countable Byte.to_N Byte.of_N Byte.of_to_N.

(** ** Results: Rust's [Result<A, E>] with [?] as monadic bind *)

Inductive result (E A : Type) : Type :=
| Ok (a : A)
| Err (e : E).
Arguments Ok {E A} a.
Arguments Err {E A} e.

#[global] Instance result_ret {E} : MRet (result E) := fun A a => Ok a.
#[global] Instance result_bind {E} : MBind (result E) :=
  fun A B f r => match r with Ok a => f a | Err e => Err e end.
#[global] Instance result_fmap {E} : FMap (result E) :=
  fun A B f r => match r with Ok a => Ok (f a) | Err e => Err e end.

Definition map_err {E F A} (f : E -> F) (r : result E A) : result F A :=
  match r with Ok a => Ok a | Err e => Err (f e) end.

Definition ok {E A} (r : result E A) : option A :=
  match r with Ok a => Some a | Err _ => None end.

Definition ok_or {E A} (o : option A) (e : E) : result E A :=
  match o with Some a => Ok a | None => Err e end.

Definition is_ok {E A} (r : result E A) : bool :=
  match r with Ok _ => true | Err _ => false end.

(** ** Machine integers

    [u8]..[u64] and [usize] are [Z] kept in range; the operations the sources
    use are written out with their overflow behaviour. [usize] is 64 bits. *)

Definition u16_max : Z := 0xffff.
Definition u32_max : Z := 0xffffffff.
Definition u64_max : Z := 0xffffffffffffffff.
Definition usize_max : Z := 0xffffffffffffffff.
(** No Rust allocation, slice or vector exceeds [isize::MAX] bytes. *)
Definition isize_max : Z := 0x7fffffffffffffff.

Definition u32_range (z : Z) : Prop := 0 <= z <= u32_max.
Definition u64_range (z : Z) : Prop := 0 <= z <= u64_max.

Definition checked_add (a b : Z) : option Z :=
  if a + b <=? usize_max then Some (a + b) else None.
Definition saturating_add (a b : Z) : Z := Z.min usize_max (a + b).
Definition saturating_sub (a b : Z) : Z := Z.max 0 (a - b).
Definition saturating_mul (a b : Z) : Z := Z.min usize_max (a * b).
Definition div_ceil (a b : Z) : Z :=
  if 0 <? a mod b then a / b + 1 else a / b.
Definition u32_try_from (z : Z) : option Z :=
  if z <=? u32_max then Some z else None.
(** [x as u32] *)
Definition as_u32 (z : Z) : Z := z mod 2 ^ 32.
Definition u64_wrapping_add (a b : Z) : Z := (a + b) mod 2 ^ 64.
Definition u32_of_bool (b : bool) : Z := if b then 1 else 0.
Definition clamp (lo hi x : Z) : Z := if x <? lo then lo else if hi <? x then hi else x.

Definition zlen {A} (l : list A) : Z := Z.of_nat (length l).

(** [&l[lo..hi]] for bounds already checked. *)
Definition slice {A} (lo hi : Z) (l : list A) : list A :=
  take (Z.to_nat (hi - lo)) (drop (Z.to_nat lo) l).

Definition zeros (n : Z) : list byte := replicate (Z.to_nat n) Byte.x00.

(** ** Bytes and big-endian integers *)

Definition byte_val (b : byte) : Z := Z.of_N (Byte.to_N b).
Definition byte_of (z : Z) : byte :=
  default Byte.x00 (Byte.of_N (Z.to_N (z mod 256))).

(** [to_be_bytes] of an [n]-byte unsigned integer. *)
Fixpoint be_bytes (n : nat) (z : Z) : list byte :=
  match n with
  | O => []
  | S n' => be_bytes n' (z / 256) ++ [byte_of z]
  end.

(** [from_be_bytes] *)
Definition be_value (l : list byte) : Z :=
  fold_left (fun acc b => acc * 256 + byte_val b) l 0.

(** Reading a two's-complement [i32] back from its unsigned value. *)
Definition i32_of_u32 (z : Z) : Z := if z <? 2 ^ 31 then z else z - 2 ^ 32.

(** ** Automation *)

Create HintDb nfs.
Create HintDb codec.
Create Rewrite HintDb zlen.

(** Case-split the scrutinee of every [match]/[if] in a hypothesis or goal. *)
Ltac case_in H :=
  match type of H with
  | context [match ?x with _ => _ end] => destruct x eqn:?; simplify_eq/=
  end.
Ltac case_goal :=
  match goal with
  | |- context [match ?x with _ => _ end] => destruct x eqn:?; simplify_eq/=
  end.

(** Turn boolean comparisons of integers in the context into propositions. *)
Ltac zbool :=
  repeat match goal with
  | H : (_ <? _) = true |- _ => apply Z.ltb_lt in H
  | H : (_ <? _) = false |- _ => apply Z.ltb_ge in H
  | H : (_ <=? _) = true |- _ => apply Z.leb_le in H
  | H : (_ <=? _) = false |- _ => apply Z.leb_gt in H
  | H : (_ =? _) = true |- _ => apply Z.eqb_eq in H
  | H : (_ =? _) = false |- _ => apply Z.eqb_neq in H
  | H : (_ && _) = true |- _ => apply andb_true_iff in H; destruct H
  | H : (_ || _) = false |- _ => apply orb_false_iff in H; destruct H
  | H : negb _ = true |- _ => apply negb_true_iff in H
  | H : negb _ = false |- _ => apply negb_false_iff in H
  end.

(** Decide a boolean comparison that [lia] can settle. *)
Ltac zdec :=
  repeat match goal with
  | |- context [?a <? ?b] =>
      first [ rewrite (proj2 (Z.ltb_lt a b)) by lia
            | rewrite (proj2 (Z.ltb_ge a b)) by lia ]
  | |- context [?a <=? ?b] =>
      first [ rewrite (proj2 (Z.leb_le a b)) by lia
            | rewrite (proj2 (Z.leb_gt a b)) by lia ]
  | |- context [?a =? ?b] =>
      first [ rewrite (proj2 (Z.eqb_eq a b)) by lia
            | rewrite (proj2 (Z.eqb_neq a b)) by lia ]
  end.

(** ** Generic lemmas *)

Lemma bind_ok {E A B} (r : result E A) (f : A -> result E B) b :
  (r ≫= f) = Ok b <-> exists a, r = Ok a /\ f a = Ok b.
Proof.
  destruct r as [a|e]; simpl.
  - split; [by exists a|]. by intros (a' & [= <-] & H).
  - split; [done|]. by intros (a' & [=] & _).
Qed.

Lemma zlen_nonneg {A} (l : list A) : 0 <= zlen l.
Proof. unfold zlen; lia. Qed.

Lemma zlen_app {A} (l1 l2 : list A) : zlen (l1 ++ l2) = zlen l1 + zlen l2.
Proof. unfold zlen. rewrite length_app. lia. Qed.

Lemma zlen_nil {A} : zlen (@nil A) = 0.
Proof. reflexivity. Qed.

Lemma zlen_cons {A} (x : A) l : zlen (x :: l) = 1 + zlen l.
Proof. unfold zlen. simpl. lia. Qed.

Lemma zlen_nil_inv {A} (l : list A) : zlen l = 0 -> l = [].
Proof. destruct l; [done|]. rewrite zlen_cons. pose proof (zlen_nonneg l). lia. Qed.

Lemma zlen_zeros n : 0 <= n -> zlen (zeros n) = n.
Proof. intros. unfold zlen, zeros. rewrite length_replicate. lia. Qed.

Lemma zlen_drop {A} (n : Z) (l : list A) :
  0 <= n <= zlen l -> zlen (drop (Z.to_nat n) l) = zlen l - n.
Proof. unfold zlen. rewrite length_drop. lia. Qed.

Lemma zlen_take {A} (n : Z) (l : list A) :
  0 <= n <= zlen l -> zlen (take (Z.to_nat n) l) = n.
Proof. unfold zlen. rewrite length_take. lia. Qed.

Lemma to_nat_zlen {A} (l : list A) : Z.to_nat (zlen l) = length l.
Proof. unfold zlen. lia. Qed.

Lemma take_zlen_app {A} (l1 l2 : list A) : take (Z.to_nat (zlen l1)) (l1 ++ l2) = l1.
Proof. rewrite to_nat_zlen. apply take_app_length. Qed.

Lemma drop_zlen_app {A} (l1 l2 : list A) : drop (Z.to_nat (zlen l1)) (l1 ++ l2) = l2.
Proof. rewrite to_nat_zlen. apply drop_app_length. Qed.

#[export] Hint Rewrite @zlen_app @zlen_nil @zlen_cons : zlen.

(** Normalise lengths of concatenations and record that they are non-negative. *)
Ltac zlen_pos :=
  repeat match goal with
  | |- context [zlen ?l] =>
      lazymatch goal with
      | _ : 0 <= zlen l |- _ => fail
      | _ => pose proof (zlen_nonneg l)
      end
  | _ : context [zlen ?l] |- _ =>
      lazymatch goal with
      | _ : 0 <= zlen l |- _ => fail
      | _ => pose proof (zlen_nonneg l)
      end
  end.
Ltac zlen_lia := autorewrite with zlen in *; zlen_pos; lia.

(** *** Big-endian encoding is a bijection on its range *)

Lemma byte_val_range b : 0 <= byte_val b < 256.
Proof.
  unfold byte_val. pose proof (Byte.to_N_bounded b). lia.
Qed.

Lemma byte_val_of z : byte_val (byte_of z) = z mod 256.
Proof.
  unfold byte_val, byte_of.
  pose proof (Z.mod_pos_bound z 256 ltac:(lia)).
  destruct (Byte.of_N (Z.to_N (z mod 256))) as [b|] eqn:E; simpl.
  - apply Byte.to_of_N in E. rewrite E. lia.
  - apply Byte.of_N_None_iff in E. lia.
Qed.

Lemma byte_val_inj b1 b2 : byte_val b1 = byte_val b2 -> b1 = b2.
Proof.
  unfold byte_val. intros H.
  assert (Byte.to_N b1 = Byte.to_N b2) as E by lia.
  pose proof (Byte.of_to_N b1) as H1. rewrite E, Byte.of_to_N in H1. congruence.
Qed.

Lemma byte_of_val b : byte_of (byte_val b) = b.
Proof.
  apply byte_val_inj. rewrite byte_val_of. pose proof (byte_val_range b).
  by rewrite Z.mod_small.
Qed.

Lemma byte_of_mod z : byte_of (z mod 256) = byte_of z.
Proof. apply byte_val_inj. rewrite !byte_val_of. apply Z.mod_mod. lia. Qed.

Lemma length_be_bytes n z : length (be_bytes n z) = n.
Proof.
  revert z. induction n as [|n IH]; intros z; simpl; [done|].
  rewrite length_app, IH. simpl. lia.
Qed.

Lemma zlen_be_bytes n z : zlen (be_bytes n z) = Z.of_nat n.
Proof. unfold zlen. by rewrite length_be_bytes. Qed.
#[export] Hint Rewrite zlen_be_bytes : zlen.

Lemma be_value_snoc l b : be_value (l ++ [b]) = be_value l * 256 + byte_val b.
Proof. unfold be_value. by rewrite fold_left_app. Qed.

Lemma be_value_bound l : 0 <= be_value l < 256 ^ zlen l.
Proof.
  induction l as [|b l IH] using rev_ind; [done|].
  rewrite be_value_snoc, zlen_app.
  pose proof (byte_val_range b). pose proof (zlen_nonneg l).
  change (zlen [b]) with 1. rewrite Z.pow_add_r, Z.pow_1_r by lia. nia.
Qed.

Lemma be_value_be_bytes n z :
  0 <= z < 256 ^ Z.of_nat n -> be_value (be_bytes n z) = z.
Proof.
  revert z. induction n as [|n IH]; intros z Hz.
  - simpl in *. unfold be_value; simpl. lia.
  - cbn [be_bytes]. rewrite be_value_snoc, IH, byte_val_of.
    + pose proof (Z.div_mod z 256). lia.
    + rewrite Nat2Z.inj_succ, Z.pow_succ_r in Hz by lia.
      split; [apply Z.div_pos; lia|]. apply Z.div_lt_upper_bound; lia.
Qed.

Lemma be_bytes_be_value l : be_bytes (length l) (be_value l) = l.
Proof.
  induction l as [|b l IH] using rev_ind; [done|].
  rewrite length_app, Nat.add_comm. cbn [length Nat.add be_bytes].
  pose proof (byte_val_range b).
  rewrite be_value_snoc. f_equal.
  - rewrite Z.div_add_l, Z.div_small, Z.add_0_r by lia. exact IH.
  - f_equal. rewrite <- byte_of_mod.
    rewrite Z.add_comm, Z.mod_add, byte_of_mod by lia. apply byte_of_val.
Qed.

Lemma be_value_inj l1 l2 :
  length l1 = length l2 -> be_value l1 = be_value l2 -> l1 = l2.
Proof.
  intros Hl Hv. rewrite <- (be_bytes_be_value l1), <- (be_bytes_be_value l2).
  by rewrite Hl, Hv.
Qed.

Lemma be_value_u32 l : length l = 4%nat -> u32_range (be_value l).
Proof.
  intros Hl. pose proof (be_value_bound l) as H. unfold zlen in H. rewrite Hl in H.
  unfold u32_range, u32_max. change (256 ^ Z.of_nat 4) with 4294967296 in H. lia.
Qed.

Lemma be_value_u64 l : length l = 8%nat -> u64_range (be_value l).
Proof.
  intros Hl. pose proof (be_value_bound l) as H. unfold zlen in H. rewrite Hl in H.
  unfold u64_range, u64_max. change (256 ^ Z.of_nat 8) with 18446744073709551616 in H. lia.
Qed.

Lemma be_value_be4 z : u32_range z -> be_value (be_bytes 4 z) = z.
Proof.
  intros Hz. apply be_value_be_bytes. unfold u32_range, u32_max in Hz.
  change (256 ^ Z.of_nat 4) with 4294967296. lia.
Qed.

Lemma be_value_be8 z : u64_range z -> be_value (be_bytes 8 z) = z.
Proof.
  intros Hz. apply be_value_be_bytes. unfold u64_range, u64_max in Hz.
  change (256 ^ Z.of_nat 8) with 18446744073709551616. lia.
Qed.

Lemma div_ceil_le a b n : 0 < b -> 0 <= a -> div_ceil a b <= n <-> a <= b * n.
Proof.
  intros Hb Ha. unfold div_ceil.
  pose proof (Z.mod_pos_bound a b Hb). pose proof (Z.div_mod a b ltac:(lia)).
  destruct (0 <? a mod b) eqn:E; zbool; nia.
Qed.

#[global] Arguments be_bytes : simpl never.
#[global] Arguments be_value : simpl never.
#[global] Arguments zeros : simpl never.
#[global] Arguments zlen : simpl never.
#[global] Opaque be_bytes be_value.
