(* ===== verification/Measure.v ===== *)
(** * Weights of finite maps

    The termination measures of [Drain] and [Lifecycle] add up a weight for each
    entry of a task set. *)
From S2P Require Import Prelude.
From stdpp Require Import list gmap.

Section Weight.
Context {A : Type} (f : A -> nat).
Implicit Type m : gmap nat A.
#[local] Open Scope nat_scope.

Definition weight m : nat := map_fold (fun _ a n => f a + n) 0 m.

Lemma weight_empty : weight ∅ = 0.
Proof. apply map_fold_empty. Qed.

Lemma weight_insert m i a : m !! i = None -> weight (<[i := a]> m) = f a + weight m.
Proof. intros Hi. unfold weight. rewrite map_fold_insert_L; [done|intros; lia|done]. Qed.

Lemma weight_delete m i a : m !! i = Some a -> weight m = f a + weight (delete i m).
Proof. intros Hi. rewrite <- (insert_delete_id m i a Hi) at 1. apply weight_insert, lookup_delete_eq. Qed.

Lemma weight_replace m i a b : m !! i = Some a -> weight (<[i := b]> m) + f a = f b + weight m.
Proof.
  intros Hi. rewrite <- insert_delete_eq, weight_insert by apply lookup_delete_eq. rewrite (weight_delete m i a Hi). lia.
Qed.

(** Relabelling entries of equal weight. *)
Lemma weight_fmap (g : A -> A) m : (forall a, f (g a) = f a) -> weight (g <$> m) = weight m.
Proof.
  intros Hg. induction m as [|i a m Hi IH] using map_ind; [by rewrite fmap_empty|].
  rewrite fmap_insert, !weight_insert; [by rewrite Hg, IH|done|by rewrite lookup_fmap, Hi].
Qed.

Lemma weight_filter P `{!forall x : nat * A, Decision (P x)} m : weight (filter P m) <= weight m.
Proof.
  induction m as [|i a m Hi IH] using map_ind; [by rewrite map_filter_empty|].
  rewrite weight_insert by done. destruct (decide (P (i, a))) as [Hp|Hp].
  - rewrite map_filter_insert_True, weight_insert; [lia| |done]. apply map_lookup_filter_None. by left.
  - rewrite map_filter_insert_False by done. rewrite delete_id by done. lia.
Qed.
End Weight.
