(* ===== verification/RpcCodec.v ===== *)
(** * [src/rpc/codec.rs]: the bounded XDR decoder and encoder

    [Decoder] is a cursor over a byte slice; every read either advances the
    cursor or returns a [DecodeError]. [Encoder] is an append-only byte buffer.
    The second half of the file states what each reader accepts as a {i format}
    (a relation between values and byte strings) and what each writer emits. *)
From S2P Require Import Prelude.

Inductive DecodeError : Type :=
| Truncated
| InvalidBoolean (value : Z)
| InvalidDiscriminant (kind : string) (value : Z)
| LimitExceeded (field : string) (actual limit : Z)
| InvalidPadding
| TrailingBytes
| Overflow.

#[global] Instance DecodeError_eq_dec : EqDecision DecodeError.
Proof. solve_decision. Defined.

Inductive EncodeError : Type :=
| TooLarge (size : Z)
| InvalidTime (seconds nanoseconds : Z).

#[global] Instance EncodeError_eq_dec : EqDecision EncodeError.
Proof. solve_decision. Defined.

(** ** The decoder *)
Module Decoder.

Record decoder : Type := mk { input : list byte; position : Z }.

Definition new (input : list byte) : decoder := mk input 0.

Definition remaining (d : decoder) : Z :=
  saturating_sub (zlen (input d)) (position d).

(** A fallible read; the cursor is only observed after a success. *)
Definition reader (A : Type) : Type := decoder -> result DecodeError (A * decoder).

#[global] Instance reader_ret : MRet reader := fun A a d => Ok (a, d).
#[global] Instance reader_bind : MBind reader :=
  fun A B f p d => match p d with Ok (a, d') => f a d' | Err e => Err e end.
Definition fail {A} (e : DecodeError) : reader A := fun _ => Err e.

(** [self.input.get(self.position..end)] after the checked addition. *)
Definition take (count : Z) : reader (list byte) := fun d =>
  match checked_add (position d) count with
  | None => Err Overflow
  | Some fin =>
      if (position d <=? fin) && (fin <=? zlen (input d)) then
        Ok (slice (position d) fin (input d), mk (input d) fin)
      else Err Truncated
  end.

Definition read_u32 : reader Z := b ← take 4; mret (be_value b).
Definition read_i32 : reader Z := b ← take 4; mret (i32_of_u32 (be_value b)).
Definition read_u64 : reader Z := b ← take 8; mret (be_value b).

Definition read_bool : reader bool :=
  value ← read_u32;
  if value =? 0 then mret false
  else if value =? 1 then mret true
  else fail (InvalidBoolean value).

Definition read_enum {T} (kind : string) (convert : Z -> option T) : reader T :=
  value ← read_u32;
  match convert value with
  | Some t => mret t
  | None => fail (InvalidDiscriminant kind value)
  end.

Definition read_fixed (n : Z) : reader (list byte) := take n.

Definition read_length (field : string) (limit : Z) : reader Z :=
  length ← read_u32;
  if limit <? length then fail (LimitExceeded field length limit)
  else mret length.

(** [(4usize.wrapping_sub(length & 3)) & 3] *)
Definition padding_of (length : Z) : Z := Z.land (4 - Z.land length 3) 3.

Definition read_opaque_slice (field : string) (limit : Z) : reader (list byte) :=
  length ← read_length field limit;
  value ← take length;
  pad ← take (padding_of length);
  if existsb (fun b => negb (Byte.eqb b Byte.x00)) pad then fail InvalidPadding
  else mret value.

Definition read_opaque (field : string) (limit : Z) : reader (list byte) :=
  read_opaque_slice field limit.

Definition read_string (field : string) (limit : Z) : reader (list byte) :=
  read_opaque field limit.

(** [for _ in 0..length { result.push(decode(self)?) }] *)
Fixpoint read_times {T} (n : nat) (decode : reader T) : reader (list T) :=
  match n with
  | O => mret []
  | S n' => x ← decode; xs ← read_times n' decode; mret (x :: xs)
  end.

(** The [try_reserve_exact] failure of the source (allocator exhaustion) is not
    modelled: the reservation is at most [limit] elements. *)
Definition read_array {T} (field : string) (limit : Z) (decode : reader T)
    : reader (list T) :=
  length ← read_length field limit;
  read_times (Z.to_nat length) decode.

Definition finish (d : decoder) : result DecodeError unit :=
  if position d =? zlen (input d) then Ok () else Err TrailingBytes.

(** The pattern [let mut decoder = Decoder::new(input); ...; decoder.finish()?;]
    of every whole-buffer decode. *)
Definition decode_all {A} (p : reader A) (l : list byte) : result DecodeError A :=
  match p (new l) with
  | Ok (a, d) => match finish d with Ok _ => Ok a | Err e => Err e end
  | Err e => Err e
  end.

End Decoder.

(** ** The encoder *)
Module Encoder.

Record encoder : Type := mk { output : list byte }.

Definition new : encoder := mk [].
(** The capacity is an allocation hint only. *)
Definition with_capacity (capacity : Z) : encoder := mk [].

Definition write_u32 (value : Z) (e : encoder) : encoder :=
  mk (output e ++ be_bytes 4 value).
Definition write_u64 (value : Z) (e : encoder) : encoder :=
  mk (output e ++ be_bytes 8 value).
Definition write_bool (value : bool) (e : encoder) : encoder :=
  write_u32 (u32_of_bool value) e.
Definition write_fixed (value : list byte) (e : encoder) : encoder :=
  mk (output e ++ value).
Definition len (e : encoder) : Z := zlen (output e).
Definition is_empty (e : encoder) : bool := len e =? 0.

(** [Vec::resize(n, 0)] *)
Definition resize (n : Z) (l : list byte) : list byte :=
  take (Z.to_nat n) l ++ zeros (n - zlen l).

Definition write_opaque (value : list byte) (e : encoder) : result EncodeError encoder :=
  match u32_try_from (zlen value) with
  | None => Err (TooLarge (zlen value))
  | Some length =>
      let padding := (4 - zlen value mod 4) mod 4 in
      match (l1 ← checked_add (zlen (output e)) 4;
             l2 ← checked_add l1 (zlen value);
             checked_add l2 padding) with
      | None => Err (TooLarge (zlen value))
      | Some final_length =>
          let e1 := write_u32 length e in
          Ok (mk (resize final_length (output e1 ++ value)))
      end
  end.

Definition into_bytes (e : encoder) : list byte := output e.

(** A step of an encoding function: [encoder.write_x(..)] or [encode_x(encoder, ..)?]. *)
Definition writer : Type := encoder -> result EncodeError encoder.
Definition done_writing : writer := fun e => Ok e.
Definition andthen (f g : writer) : writer := fun e => e1 ← f e; g e1.
Definition put_u32 (value : Z) : writer := fun e => Ok (write_u32 value e).
Definition put_u64 (value : Z) : writer := fun e => Ok (write_u64 value e).
Definition put_bool (value : bool) : writer := fun e => Ok (write_bool value e).
Definition put_fixed (value : list byte) : writer := fun e => Ok (write_fixed value e).

End Encoder.

Infix "+>" := Encoder.andthen (at level 59, right associativity).

(** ** What a reader accepts

    A {i format} relates a value to the byte strings that represent it. A reader
    implements a format when, on a well-formed cursor, it accepts exactly the
    representations: it consumes one when the input continues with it, and
    whatever it accepts was a representation. *)
Module Format.
Import Decoder.

(** Positions lie inside the slice, and no slice exceeds [isize::MAX]. *)
Definition wf (d : decoder) : Prop :=
  0 <= position d <= zlen (input d) /\ zlen (input d) <= isize_max.

Definition rest (d : decoder) : list byte := drop (Z.to_nat (position d)) (input d).

Definition advance (n : Z) (d : decoder) : decoder := mk (input d) (position d + n).

Definition format (A : Type) : Type := A -> list byte -> Prop.

Class Implements {A} (p : reader A) (F : format A) : Prop := {
  implements_complete d a bs tail :
    wf d -> rest d = bs ++ tail -> F a bs -> p d = Ok (a, advance (zlen bs) d);
  implements_sound d a d' :
    wf d -> p d = Ok (a, d') ->
    exists bs tail, rest d = bs ++ tail /\ F a bs /\ d' = advance (zlen bs) d
}.

Lemma wf_new l : zlen l <= isize_max -> wf (new l).
Proof. unfold wf; simpl. zlen_lia. Qed.

Lemma rest_new l : rest (new l) = l.
Proof. done. Qed.

Lemma zlen_rest d : wf d -> zlen (rest d) = zlen (input d) - position d.
Proof. intros [? _]. unfold rest. by rewrite zlen_drop. Qed.

Lemma advance_wf d bs tail : wf d -> rest d = bs ++ tail -> wf (advance (zlen bs) d).
Proof.
  intros Hwf Hr. pose proof (zlen_rest d Hwf) as Hl. rewrite Hr in Hl.
  destruct Hwf. unfold wf, advance; simpl. zlen_lia.
Qed.

Lemma rest_advance d bs tail :
  wf d -> rest d = bs ++ tail -> rest (advance (zlen bs) d) = tail.
Proof.
  intros [Hp _] Hr. unfold rest, advance in *; simpl.
  rewrite Z2Nat.inj_add by (pose proof (zlen_nonneg bs); lia).
  rewrite <- drop_drop, Hr. apply drop_zlen_app.
Qed.

Lemma advance_advance m n d : advance n (advance m d) = advance (m + n) d.
Proof. unfold advance; simpl. f_equal. lia. Qed.

Lemma advance_0 d : advance 0 d = d.
Proof. destruct d. unfold advance; simpl. f_equal. lia. Qed.

Lemma take_app d bs tail :
  wf d -> rest d = bs ++ tail -> take (zlen bs) d = Ok (bs, advance (zlen bs) d).
Proof.
  intros Hwf Hr. pose proof (zlen_rest d Hwf) as Hl. rewrite Hr in Hl.
  destruct Hwf as [? Hm]. unfold take, checked_add, isize_max, usize_max in *.
  autorewrite with zlen in Hl. zlen_pos. zdec. simpl. unfold slice.
  replace (position d + zlen bs - position d) with (zlen bs) by lia.
  unfold rest in Hr. by rewrite Hr, take_zlen_app.
Qed.

Lemma take_inv n d v d' :
  wf d -> 0 <= n -> take n d = Ok (v, d') ->
  exists tail, rest d = v ++ tail /\ zlen v = n /\ d' = advance n d.
Proof.
  intros Hwf Hn H. pose proof (zlen_rest d Hwf) as Hl.
  unfold take in H. destruct (checked_add _ _) as [fin|] eqn:E; [|done].
  unfold checked_add in E. case_in E. case_in H. zbool.
  exists (drop (Z.to_nat n) (rest d)).
  unfold slice. replace (position d + n - position d) with n by lia.
  fold (rest d). rewrite take_drop. split_and!; [done| |done].
  apply zlen_take. lia.
Qed.

(** A read past the end is [Truncated]; the position arithmetic never overflows
    on a well-formed cursor and a 32-bit count. *)
Lemma take_truncated n d :
  wf d -> 0 <= n <= u32_max -> zlen (rest d) < n -> take n d = Err Truncated.
Proof.
  intros Hwf Hn Hr. rewrite (zlen_rest d Hwf) in Hr. destruct Hwf.
  unfold take, checked_add, isize_max, usize_max, u32_max in *. zdec.
  by rewrite andb_comm.
Qed.

(** *** Formats and their combinators *)

Definition fixed (n : Z) : format (list byte) := fun v bs => bs = v /\ zlen v = n.
Definition u32 : format Z := fun z bs => u32_range z /\ bs = be_bytes 4 z.
Definition u64 : format Z := fun z bs => u64_range z /\ bs = be_bytes 8 z.
Definition boolean : format bool := fun b bs => bs = be_bytes 4 (u32_of_bool b).
Definition pure {A} (a : A) : format A := fun a' bs => a' = a /\ bs = [].
Definition none {A} : format A := fun _ _ => False.
Definition seq {A B} (F : format A) (G : A -> format B) : format B :=
  fun b bs => exists a bs1 bs2, bs = bs1 ++ bs2 /\ F a bs1 /\ G a b bs2.

(** A value with one representation. *)
Definition exact {A} (P : A -> Prop) (bytes : A -> list byte) : format A :=
  fun a bs => P a /\ bs = bytes a.

Definition xdr_padding (n : Z) : Z := (4 - n mod 4) mod 4.
(** The XDR representation of a variable-length opaque. *)
Definition opaque_bytes (v : list byte) : list byte :=
  be_bytes 4 (zlen v) ++ v ++ zeros (xdr_padding (zlen v)).
Definition opaque (limit : Z) : format (list byte) := fun v bs =>
  zlen v <= limit /\ zlen v <= u32_max /\ bs = opaque_bytes v.
Fixpoint many {T} (n : nat) (F : format T) : format (list T) :=
  match n with
  | O => pure []
  | S n' => seq F (fun x => seq (many n' F) (fun xs => pure (x :: xs)))
  end.
Definition array {T} (limit : Z) (F : format T) : format (list T) :=
  seq u32 (fun n => if limit <? n then none else many (Z.to_nat n) F).

Lemma padding_of_spec n : 0 <= n -> padding_of n = xdr_padding n.
Proof.
  intros Hn. unfold padding_of, xdr_padding.
  change 3 with (Z.ones 2). rewrite !Z.land_ones by lia. done.
Qed.

Lemma xdr_padding_range n : 0 <= xdr_padding n <= 3.
Proof. unfold xdr_padding. pose proof (Z.mod_pos_bound (4 - n mod 4) 4). lia. Qed.

Lemma zlen_opaque_bytes v :
  zlen (opaque_bytes v) = 4 + zlen v + xdr_padding (zlen v).
Proof.
  unfold opaque_bytes. pose proof (xdr_padding_range (zlen v)).
  autorewrite with zlen. rewrite zlen_zeros; lia.
Qed.

#[global] Instance implements_ret {A} (a : A) : Implements (mret a) (pure a).
Proof.
  split.
  - intros d a' bs tail _ _ [-> ->]. by rewrite zlen_nil, advance_0.
  - intros d a' d' _ [= <- <-]. exists [], (rest d).
    split_and!; [done|done|]. by rewrite zlen_nil, advance_0.
Qed.

#[global] Instance implements_fail {A} (e : DecodeError) : Implements (fail e) (@none A).
Proof. by split. Qed.

#[global] Instance implements_bind {A B} (p : reader A) (k : A -> reader B) F G :
  Implements p F -> (forall a, Implements (k a) (G a)) ->
  Implements (p ≫= k) (seq F G).
Proof.
  intros Hp Hk. split.
  - intros d b bs tail Hwf Hr (a & bs1 & bs2 & -> & HF & HG).
    rewrite <- app_assoc in Hr.
    unfold mbind, reader_bind.
    rewrite (implements_complete d a bs1 _ Hwf Hr HF).
    rewrite (implements_complete (advance (zlen bs1) d) b bs2 tail); [|by eapply advance_wf|by eapply rest_advance|done].
    by rewrite advance_advance, zlen_app.
  - intros d b d' Hwf H. unfold mbind, reader_bind in H.
    destruct (p d) as [[a d1]|] eqn:E; [|done].
    destruct (implements_sound _ _ _ Hwf E) as (bs1 & tail1 & Hr & HF & ->).
    destruct (implements_sound _ _ _ (advance_wf _ _ _ Hwf Hr) H)
      as (bs2 & tail2 & Hr2 & HG & ->).
    rewrite (rest_advance _ _ _ Hwf Hr) in Hr2. subst tail1.
    exists (bs1 ++ bs2), tail2. split_and!.
    + by rewrite <- app_assoc.
    + by exists a, bs1, bs2.
    + by rewrite advance_advance, zlen_app.
Qed.

#[global] Instance implements_if {A} (c : bool) (p q : reader A) F G :
  Implements p F -> Implements q G ->
  Implements (if c then p else q) (if c then F else G).
Proof. by destruct c. Qed.

Lemma implements_weaken {A} (p : reader A) (F G : format A) :
  Implements p F -> (forall a bs, F a bs <-> G a bs) -> Implements p G.
Proof.
  intros [Hc Hs] HFG. split.
  - intros. eapply Hc; eauto. by apply HFG.
  - intros d a d' Hwf H. destruct (Hs _ _ _ Hwf H) as (bs & tail & ? & ? & ?).
    exists bs, tail. split_and!; auto. by apply HFG.
Qed.

#[global] Instance implements_take n :
  0 <= n -> Implements (take n) (fixed n).
Proof.
  intros Hn. split.
  - intros d v bs tail Hwf Hr [-> <-]. by eapply take_app.
  - intros d v d' Hwf H. destruct (take_inv _ _ _ _ Hwf Hn H) as (tail & Hr & Hl & ->).
    exists v, tail. by rewrite Hl.
Qed.

Lemma seq_fixed_pure {B} n (f : list byte -> B) b bs :
  seq (fixed n) (fun v => pure (f v)) b bs <-> zlen bs = n /\ b = f bs.
Proof.
  split.
  - intros (v & bs1 & bs2 & -> & [-> <-] & [-> ->]). by rewrite app_nil_r.
  - intros [<- ->]. exists bs, bs, []. by rewrite app_nil_r.
Qed.

Lemma u32_spec z bs : zlen bs = 4 /\ z = be_value bs <-> u32 z bs.
Proof.
  split.
  - intros [Hl ->]. assert (length bs = 4%nat) as Hn by (unfold zlen in Hl; lia).
    split; [by apply be_value_u32|]. rewrite <- Hn. by rewrite be_bytes_be_value.
  - intros [Hz ->]. by rewrite zlen_be_bytes, be_value_be4.
Qed.

Lemma u64_spec z bs : zlen bs = 8 /\ z = be_value bs <-> u64 z bs.
Proof.
  split.
  - intros [Hl ->]. assert (length bs = 8%nat) as Hn by (unfold zlen in Hl; lia).
    split; [by apply be_value_u64|]. rewrite <- Hn. by rewrite be_bytes_be_value.
  - intros [Hz ->]. by rewrite zlen_be_bytes, be_value_be8.
Qed.

#[global] Instance implements_read_u32 : Implements read_u32 u32.
Proof.
  eapply implements_weaken; [apply implements_bind; [by apply implements_take|]; intros; apply implements_ret|].
  intros z bs. rewrite seq_fixed_pure. apply u32_spec.
Qed.

#[global] Instance implements_read_u64 : Implements read_u64 u64.
Proof.
  eapply implements_weaken; [apply implements_bind; [by apply implements_take|]; intros; apply implements_ret|].
  intros z bs. rewrite seq_fixed_pure. apply u64_spec.
Qed.

#[global] Instance implements_read_bool : Implements read_bool boolean.
Proof.
  eapply implements_weaken; [unfold read_bool; apply _|].
  intros b bs. split.
  - intros (v & bs1 & bs2 & -> & [Hv ->] & H).
    destruct (v =? 0) eqn:E0; zbool; subst.
    { destruct H as [-> ->]. by rewrite app_nil_r. }
    destruct (v =? 1) eqn:E1; zbool; subst; [|done].
    destruct H as [-> ->]. by rewrite app_nil_r.
  - intros ->. exists (u32_of_bool b), (be_bytes 4 (u32_of_bool b)), [].
    rewrite app_nil_r. by destruct b.
Qed.

Lemma nonzero_pad_false pad :
  existsb (fun b => negb (Byte.eqb b Byte.x00)) pad = false <->
  pad = zeros (zlen pad).
Proof.
  unfold zeros. rewrite to_nat_zlen. induction pad as [|b pad IH]; simpl; [done|].
  rewrite orb_false_iff, IH, negb_false_iff. split.
  - intros [Hb Hp]. f_equal; [|done]. by apply Byte.byte_dec_bl.
  - intros [= -> Hp]. split; [done|]. done.
Qed.

Lemma implements_read_length field limit :
  Implements (read_length field limit)
    (fun n bs => u32 n bs /\ n <= limit).
Proof.
  eapply implements_weaken; [unfold read_length; apply _|].
  intros n bs. split.
  - intros (v & bs1 & bs2 & -> & Hv & H). destruct (limit <? v) eqn:E; [done|].
    destruct H as [-> ->]. rewrite app_nil_r. zbool. done.
  - intros [Hu Hl]. exists n, bs, []. rewrite app_nil_r. zdec. done.
Qed.

#[global] Instance implements_read_opaque_slice field limit :
  Implements (read_opaque_slice field limit) (opaque limit).
Proof.
  assert (forall n : Z, Implements
    (value ← take (Z.max 0 n); pad ← take (Z.max 0 (padding_of n));
     if existsb (fun b => negb (Byte.eqb b Byte.x00)) pad then fail InvalidPadding else mret value)
    (seq (fixed (Z.max 0 n)) (fun value => seq (fixed (Z.max 0 (padding_of n)))
      (fun pad => if existsb (fun b => negb (Byte.eqb b Byte.x00)) pad then none else pure value)))) as Hk.
  { intros n. apply implements_bind; [apply implements_take; lia|]. intros v.
    apply implements_bind; [apply implements_take; lia|]. intros pad. apply _. }
  assert (forall n, 0 <= n -> Z.max 0 n = n) as Hmax by lia.
  assert (forall n, 0 <= padding_of n) as Hpad.
  { intros n. unfold padding_of. apply Z.land_nonneg. lia. }
  split.
  - intros d v bs tail Hwf Hr (Hl & Hu & ->). unfold opaque_bytes in Hr.
    pose proof (zlen_nonneg v). pose proof (xdr_padding_range (zlen v)).
    unfold read_opaque_slice.
    rewrite <- app_assoc in Hr.
    unfold mbind at 1, reader_bind at 1.
    destruct (implements_read_length field limit) as [Hc _].
    rewrite (Hc d (zlen v) (be_bytes 4 (zlen v)) _ Hwf Hr) by (repeat split; lia).
    destruct (Hk (zlen v)) as [Hc' _].
    rewrite !Hmax in Hc' by (auto; lia).
    rewrite (Hc' (advance (zlen (be_bytes 4 (zlen v))) d) v (v ++ zeros (xdr_padding (zlen v))) tail).
    + rewrite advance_advance. f_equal. f_equal. unfold opaque_bytes.
      by rewrite !zlen_app.
    + by eapply advance_wf.
    + eapply rest_advance; eauto.
    + exists v, v, (zeros (xdr_padding (zlen v))). split; [done|]. split; [done|].
      exists (zeros (xdr_padding (zlen v))), (zeros (xdr_padding (zlen v))), [].
      rewrite app_nil_r, (proj2 (nonzero_pad_false _)) by (rewrite zlen_zeros; [done|lia]).
      unfold fixed. rewrite zlen_zeros, padding_of_spec by lia. done.
  - intros d v d' Hwf H. unfold read_opaque_slice in H.
    unfold mbind at 1, reader_bind at 1 in H.
    destruct (read_length field limit d) as [[n d1]|] eqn:E; [|done].
    destruct (implements_read_length field limit) as [_ Hs].
    destruct (Hs _ _ _ Hwf E) as (bs1 & tail1 & Hr & [[Hu ->] Hn] & ->).
    destruct (Hk n) as [_ Hs']. rewrite !Hmax in Hs' by (auto; unfold u32_range in Hu; lia).
    destruct (Hs' _ _ _ (advance_wf _ _ _ Hwf Hr) H) as (bs2 & tail2 & Hr2 & HG & ->).
    rewrite (rest_advance _ _ _ Hwf Hr) in Hr2. subst tail1.
    destruct HG as (v' & b1 & b2 & -> & [-> Hv'] & pad & b3 & b4 & -> & [-> Hp] & Hz).
    destruct (existsb _ _) eqn:Ez; [done|]. destruct Hz as [<- ->].
    apply nonzero_pad_false in Ez. unfold u32_range in Hu.
    rewrite Hp, padding_of_spec in Ez by lia. rewrite <- Hv' in *.
    exists (opaque_bytes v), tail2. unfold opaque_bytes. rewrite app_nil_r, Ez in *.
    split_and!; [by rewrite Hr, !app_assoc| unfold opaque; split_and!; [lia|lia|done] |].
    rewrite advance_advance. by rewrite !zlen_app.
Qed.

#[global] Instance implements_read_opaque field limit :
  Implements (read_opaque field limit) (opaque limit).
Proof. apply implements_read_opaque_slice. Qed.

#[global] Instance implements_read_string field limit :
  Implements (read_string field limit) (opaque limit).
Proof. apply implements_read_opaque_slice. Qed.

#[global] Instance implements_read_fixed n :
  0 <= n -> Implements (read_fixed n) (fixed n).
Proof. apply implements_take. Qed.

#[global] Instance implements_read_times {T} n (p : reader T) F :
  Implements p F -> Implements (read_times n p) (many n F).
Proof. intros Hp. induction n; simpl; apply _. Qed.

#[global] Instance implements_read_array {T} field limit (p : reader T) F :
  Implements p F -> Implements (read_array field limit p) (array limit F).
Proof.
  intros Hp. eapply implements_weaken.
  - unfold read_array. apply implements_bind; [apply implements_read_length|].
    intros n. apply implements_read_times. apply Hp.
  - intros l bs. unfold array. split.
    + intros (n & b1 & b2 & -> & [Hu Hn] & Hm). exists n, b1, b2. zdec. done.
    + intros (n & b1 & b2 & -> & Hu & Hm). destruct (limit <? n) eqn:E; [done|].
      zbool. exists n, b1, b2. done.
Qed.

(** Bijection between accepted inputs and representations. *)
Lemma decode_all_iff {A} (p : reader A) F `{!Implements p F} l a :
  zlen l <= isize_max -> decode_all p l = Ok a <-> F a l.
Proof.
  intros Hl. pose proof (wf_new l Hl) as Hwf. unfold decode_all. split.
  - destruct (p (new l)) as [[a' d]|] eqn:E; [|done].
    destruct (implements_sound _ _ _ Hwf E) as (bs & tail & Hr & HF & ->).
    unfold finish, advance; simpl.
    destruct (_ =? _) eqn:Ef; [|done]. zbool. intros [= ->].
    rewrite rest_new in Hr. subst l. rewrite zlen_app in Ef.
    assert (tail = []) as -> by (apply zlen_nil_inv; lia). by rewrite app_nil_r.
  - intros HF. rewrite (implements_complete (new l) a l [] Hwf) by (rewrite ?app_nil_r; done).
    unfold finish, advance; simpl. by rewrite Z.eqb_refl.
Qed.

(** A successful read keeps the cursor well-formed on the same slice. *)
Lemma reader_wf {A} (p : reader A) F `{!Implements p F} d a d' :
  wf d -> p d = Ok (a, d') -> wf d' /\ input d' = input d.
Proof.
  intros Hwf H. destruct (implements_sound _ _ _ Hwf H) as (bs & tail & Hr & _ & ->).
  split; [by eapply advance_wf|done].
Qed.

(** The zero-copy range of an opaque just read. *)
Lemma read_opaque_slice_range field limit d v d' :
  wf d -> read_opaque_slice field limit d = Ok (v, d') ->
  position d + 4 + zlen v <= zlen (input d) /\
  slice (position d + 4) (position d + 4 + zlen v) (input d) = v.
Proof.
  intros Hwf H. destruct (implements_sound _ _ _ Hwf H) as (bs & tail & Hr & (_ & _ & ->) & ->).
  pose proof (zlen_rest d Hwf) as Hl. rewrite Hr in Hl. unfold opaque_bytes in *.
  destruct Hwf as [Hp _]. split; [zlen_lia|].
  unfold slice. replace (position d + 4 + zlen v - (position d + 4)) with (zlen v) by lia.
  rewrite Z2Nat.inj_add, <- drop_drop by lia. fold (rest d). rewrite Hr.
  rewrite <- !app_assoc.
  change (Z.to_nat 4) with (length (be_bytes 4 (zlen v))). rewrite drop_app_length.
  apply take_zlen_app.
Qed.

(** *** Building and taking apart sequences of formats *)

Lemma seq_intro {A B} (F : format A) (G : A -> format B) a b bs1 bs2 :
  G a b bs2 -> F a bs1 -> seq F G b (bs1 ++ bs2).
Proof. intros. by exists a, bs1, bs2. Qed.

Lemma seq_intro_last {A B} (F : format A) (G : A -> format B) a b bs :
  G a b [] -> F a bs -> seq F G b bs.
Proof. intros. exists a, bs, []. by rewrite app_nil_r. Qed.

Lemma many_u32 n l bs :
  many n u32 l bs <->
  length l = n /\ Forall u32_range l /\ bs = concat (map (be_bytes 4) l).
Proof.
  revert l bs. induction n as [|n IH]; intros l bs; simpl.
  - split.
    + intros [-> ->]. done.
    + intros (Hl & _ & ->). apply nil_length_inv in Hl. by subst.
  - split.
    + intros (x & b1 & b2 & -> & [Hx ->] & xs & b3 & b4 & -> & Hm & [-> ->]).
      apply IH in Hm as (<- & Hf & ->). rewrite app_nil_r. cbn [map concat length]. by auto.
    + intros (Hl & Hf & ->). destruct l as [|x xs]; [done|].
      apply list.Forall_cons_1 in Hf as [Hx Hf]. cbn [map concat].
      apply seq_intro with (a:=x); [|done].
      rewrite <- (app_nil_r (concat _)). apply seq_intro with (a:=xs); [done|].
      apply IH. simpl in Hl. auto with lia.
Qed.

(** The representation of a counted array of [u32]. *)
Definition array_u32_bytes (l : list Z) : list byte :=
  be_bytes 4 (zlen l) ++ concat (map (be_bytes 4) l).

Lemma array_u32 limit l bs :
  limit <= u32_max ->
  array limit u32 l bs <->
  zlen l <= limit /\ Forall u32_range l /\ bs = array_u32_bytes l.
Proof.
  intros Hlim. split.
  - intros (n & b1 & b2 & -> & [Hn ->] & H). destruct (limit <? n) eqn:E; [done|].
    zbool. apply many_u32 in H as (Hl & Hf & ->).
    assert (zlen l = n) as <- by (unfold zlen, u32_range in *; lia). done.
  - intros (Hl & Hf & ->). apply seq_intro with (a:=zlen l).
    + zdec. apply many_u32. by rewrite to_nat_zlen.
    + pose proof (zlen_nonneg l). split; [unfold u32_range; lia|done].
Qed.

(** Take a [seq] hypothesis apart into its component equations. *)
Ltac fmt_destruct :=
  repeat match goal with
  | H : seq _ _ _ _ |- _ => destruct H as (? & ? & ? & -> & ? & ?)
  | H : pure _ _ _ |- _ => destruct H as [-> ->]
  | H : none _ _ |- _ => destruct H
  | H : boolean _ _ |- _ => unfold boolean in H; subst
  | H : u32 _ _ |- _ => destruct H as [? ->]
  | H : u64 _ _ |- _ => destruct H as [? ->]
  | H : fixed _ _ _ |- _ => destruct H as [-> ?]
  | H : exact _ _ _ _ |- _ => destruct H as [? ->]
  | H : opaque _ _ _ |- _ => destruct H as (? & ? & ->)
  end.

(** Prove a [seq] of formats of right-nested concatenated bytes. *)
Ltac fmt_build :=
  match goal with
  | |- seq _ _ _ (_ ++ _) => eapply seq_intro; [fmt_build|fmt_build]
  | |- seq _ _ _ _ => eapply seq_intro_last; [fmt_build|fmt_build]
  | |- pure _ _ _ => split; reflexivity
  | |- u32 _ (be_bytes _ ?z) => refine (conj (_ : u32_range z) eq_refl)
  | |- u64 _ (be_bytes _ ?z) => refine (conj (_ : u64_range z) eq_refl)
  | |- boolean _ _ => reflexivity
  | |- exact _ _ _ _ => refine (conj _ eq_refl)
  | |- fixed _ _ ?v => refine (conj eq_refl (_ : zlen v = _))
  | |- opaque _ _ (opaque_bytes ?v) =>
      refine (conj (_ : zlen v <= _) (conj (_ : zlen v <= _) eq_refl))
  | _ => idtac
  end.

End Format.

(** ** What a writer emits

    [Emits f P bs]: the writer [f] succeeds exactly when [P] holds (and the
    buffer can grow), and then appends exactly [bs]. *)
Module Emit.
Import Encoder.

Class Emits (f : writer) (P : Prop) (bs : list byte) : Prop := {
  emits_ok e : P -> zlen (output e) + zlen bs <= usize_max -> f e = Ok (mk (output e ++ bs));
  emits_inv e e' : f e = Ok e' -> P /\ e' = mk (output e ++ bs);
  emits_mono e e' e1 :
    f e = Ok e' -> zlen (output e1) <= zlen (output e) -> f e1 = Ok (mk (output e1 ++ bs))
}.

Lemma encoder_eta e : mk (output e) = e.
Proof. by destruct e. Qed.

Lemma emits_done : Emits (fun e => Ok e) True [].
Proof.
  split; intros; simplify_eq; by rewrite app_nil_r, encoder_eta.
Qed.

Lemma emits_seq (f g : writer) P Q bs1 bs2 :
  Emits f P bs1 -> Emits g Q bs2 ->
  Emits (fun e => e1 ← f e; g e1) (P /\ Q) (bs1 ++ bs2).
Proof.
  intros Hf Hg. split.
  - intros e [HP HQ] Hl. rewrite zlen_app in Hl. pose proof (zlen_nonneg bs2).
    simpl. rewrite (emits_ok e) by (auto; lia). simpl.
    rewrite emits_ok by (simpl; rewrite ?zlen_app; auto; lia).
    simpl. by rewrite app_assoc.
  - intros e e' H. apply bind_ok in H as (e1 & H1 & H2).
    apply emits_inv in H1 as [HP ->]. apply emits_inv in H2 as [HQ ->].
    simpl. by rewrite app_assoc.
  - intros e e' e1 H Hl. apply bind_ok in H as (e2 & H1 & H2).
    rewrite (emits_mono _ _ _ H1 Hl). simpl. apply emits_inv in H1 as [_ ->].
    rewrite (emits_mono _ _ _ H2) by (simpl; rewrite !zlen_app; lia).
    simpl. by rewrite app_assoc.
Qed.

(** Infallible writes in front of a writer. *)
Lemma emits_then (w : encoder -> encoder) (g : writer) Q bs1 bs2 :
  (forall e, w e = mk (output e ++ bs1)) -> Emits g Q bs2 ->
  Emits (fun e => g (w e)) Q (bs1 ++ bs2).
Proof.
  intros Hw Hg. split.
  - intros e HQ Hl. rewrite zlen_app in Hl. rewrite Hw.
    rewrite emits_ok by (simpl; rewrite ?zlen_app; auto; lia). simpl. by rewrite app_assoc.
  - intros e e' H. rewrite Hw in H. apply emits_inv in H as [? ->]. simpl. by rewrite app_assoc.
  - intros e e' e1 H Hl. rewrite Hw in *. erewrite (emits_mono _ _ _ H).
    + simpl. by rewrite app_assoc.
    + simpl. rewrite !zlen_app. lia.
Qed.

(** Infallible writes at the end. *)
Lemma emits_total (w : encoder -> encoder) bs :
  (forall e, w e = mk (output e ++ bs)) -> Emits (fun e => Ok (w e)) True bs.
Proof. intros Hw. split; intros; rewrite Hw in *; by simplify_eq. Qed.

Lemma emits_iff (f : writer) P Q bs bs' :
  Emits f P bs -> (P <-> Q) -> bs = bs' -> Emits f Q bs'.
Proof.
  intros [H1 H2 H3] HPQ ->. split; [|intros e e' H; destruct (H2 _ _ H); by rewrite <- HPQ|done].
  intros. apply H1; [by apply HPQ|done].
Qed.

(** Appending is independent of what the buffer already holds. *)
Lemma emits_new (f : writer) P bs e e' :
  Emits f P bs -> f e = Ok e' -> f new = Ok (mk bs).
Proof.
  intros Hf H. rewrite (emits_mono _ _ new H); [done|].
  simpl. apply zlen_nonneg.
Qed.

Lemma emits_len (f : writer) P bs e e' :
  Emits f P bs -> f e = Ok e' -> len e' = len e + zlen bs.
Proof. intros Hf H. apply emits_inv in H as [_ ->]. unfold len; simpl. apply zlen_app. Qed.

#[global] Instance emits_done_writing : Emits done_writing True [].
Proof. apply emits_done. Qed.

#[global] Instance emits_andthen (f g : writer) P Q bs1 bs2 :
  Emits f P bs1 -> Emits g Q bs2 -> Emits (f +> g) (P /\ Q) (bs1 ++ bs2).
Proof. apply emits_seq. Qed.

#[global] Instance emits_put_u32 v : Emits (put_u32 v) True (be_bytes 4 v).
Proof. by apply emits_total. Qed.
#[global] Instance emits_put_u64 v : Emits (put_u64 v) True (be_bytes 8 v).
Proof. by apply emits_total. Qed.
#[global] Instance emits_put_bool v : Emits (put_bool v) True (be_bytes 4 (u32_of_bool v)).
Proof. by apply emits_total. Qed.
#[global] Instance emits_put_fixed v : Emits (put_fixed v) True v.
Proof. by apply emits_total. Qed.

#[global] Instance emits_write_opaque v :
  Emits (write_opaque v) (zlen v <= u32_max) (Format.opaque_bytes v).
Proof.
  assert (forall e l, l = zlen (output e) + zlen (Format.opaque_bytes v) ->
    resize l (output (write_u32 (zlen v) e) ++ v) = output e ++ Format.opaque_bytes v) as Hrs.
  { intros e l ->. unfold resize, write_u32; simpl.
    rewrite Format.zlen_opaque_bytes. pose proof (Format.xdr_padding_range (zlen v)).
    rewrite take_ge.
    - unfold Format.opaque_bytes. rewrite <- !app_assoc. do 3 f_equal.
      autorewrite with zlen. f_equal. lia.
    - apply Nat2Z.inj_le. rewrite Z2Nat.id by (zlen_pos; lia).
      fold (zlen ((output e ++ be_bytes 4 (zlen v)) ++ v)).
      autorewrite with zlen. lia. }
  assert (forall e e', write_opaque v e = Ok e' <->
    zlen v <= u32_max /\ zlen (output e) + zlen (Format.opaque_bytes v) <= usize_max /\
    e' = mk (output e ++ Format.opaque_bytes v)) as Hw.
  { intros e e'. unfold write_opaque, u32_try_from.
    pose proof (zlen_nonneg v). pose proof (zlen_nonneg (output e)).
    rewrite Format.zlen_opaque_bytes. pose proof (Format.xdr_padding_range (zlen v)) as Hp.
    fold (Format.xdr_padding (zlen v)).
    destruct (zlen v <=? u32_max) eqn:E; zbool; [|split; [done|lia]].
    unfold checked_add.
    destruct (zlen (output e) + 4 <=? usize_max) eqn:E1; zbool; cbn [mbind option_bind]; [|split; [done|lia]].
    destruct (zlen (output e) + 4 + zlen v <=? usize_max) eqn:E2; zbool; cbn [mbind option_bind]; [|split; [done|lia]].
    destruct (_ <=? usize_max) eqn:E3 in |- *; zbool; [|split; [done|lia]].
    rewrite Hrs by (rewrite Format.zlen_opaque_bytes; lia).
    split; [intros [= <-]; split_and!; [done|lia|done]|]. intros (_ & _ & ->). done. }
  split.
  - intros e HP Hl. by apply Hw.
  - intros e e' H. apply Hw in H as (? & _ & ->). done.
  - intros e e' e1 H Hl. apply Hw in H as (? & ? & ->). apply Hw. split_and!; [done|lia|done].
Qed.

#[global] Typeclasses Opaque andthen put_u32 put_u64 put_bool put_fixed write_opaque done_writing.

End Emit.

(** ** Round trips *)
Section RoundTrip.
Import Decoder Format Emit.

(** Variable-length opaques. On a well-formed cursor the bounded reader
    accepts a value exactly when the input continues with the bytes the encoder
    writes for it (length, contents, zero padding) and the value is within the
    limit; it then consumes exactly those bytes. Non-zero padding, a short input
    and a length above the limit are refused. *)
Lemma opaque_roundtrip field limit d v d' :
  wf d ->
  read_opaque field limit d = Ok (v, d') <->
  zlen v <= limit /\ exists bs tail,
    Encoder.write_opaque v Encoder.new = Ok (Encoder.mk bs) /\ rest d = bs ++ tail /\ d' = advance (zlen bs) d.
Proof.
  intros Hwf.
  assert (forall bs, Encoder.write_opaque v Encoder.new = Ok (Encoder.mk bs) <->
    zlen v <= u32_max /\ bs = opaque_bytes v) as Hw.
  { intros bs. pose proof (emits_write_opaque v) as He. split.
    - intros H. apply (@emits_inv _ _ _ He) in H as [? [= ->]]. done.
    - intros [Hv ->]. apply (@emits_ok _ _ _ He Encoder.new Hv). simpl.
      rewrite zlen_opaque_bytes. pose proof (xdr_padding_range (zlen v)). unfold u32_max, usize_max in *.
      change (zlen []) with 0. lia. }
  split.
  - intros H. destruct (implements_sound d v d' Hwf H) as (bs & tail & Hr & (Hl & Hu & Hb) & ->).
    split; [done|]. exists bs, tail. by rewrite Hw.
  - intros (Hl & bs & tail & Hb & Hr & ->). apply Hw in Hb as [Hu ->].
    apply (implements_complete d v (opaque_bytes v) tail Hwf Hr). done.
Qed.

(** A length over its limit is refused from the length word alone: whatever
    follows it, nothing after the four length bytes is read, and the error names
    the field, the length and the limit. *)
Lemma oversized_length_refused field limit n d tail :
  wf d -> u32_range n -> limit < n -> rest d = be_bytes 4 n ++ tail ->
  read_opaque field limit d = Err (LimitExceeded field n limit) /\
  forall T (decode : reader T), read_array field limit decode d = Err (LimitExceeded field n limit).
Proof.
  intros Hwf Hn Hl Hr.
  assert (read_u32 d = Ok (n, advance (zlen (be_bytes 4 n)) d)) as H4
    by (apply (implements_complete d n _ tail Hwf Hr); done).
  assert (read_length field limit d = Err (LimitExceeded field n limit)) as H.
  { unfold read_length, mbind, reader_bind. rewrite H4. by zdec. }
  unfold read_opaque, read_opaque_slice, read_array, mbind, reader_bind. by rewrite H.
Qed.

End RoundTrip.
