(* ===== verification/VfsTypes.v ===== *)
(** * [src/vfs/types.rs], [src/vfs/context.rs], [src/vfs/capabilities.rs],
      [src/nfs3/types.rs]: the backend-facing data model

    Object identity, names, attributes, mutation results, backend errors and the
    wire status each error maps to. *)
From S2P Require Import Prelude.

(** An NFS object: backend identifier and generation. *)
Record ObjectKey : Type := mkObjectKey { file_id : Z; generation : Z }.
#[global] Instance ObjectKey_eq_dec : EqDecision ObjectKey.
Proof. solve_decision. Defined.

Definition ObjectKey_wf (o : ObjectKey) : Prop :=
  u64_range (file_id o) /\ u64_range (generation o).

(** Backend errors. *)
Module NfsError.
Inductive t : Type :=
| Permission | NotFound | Io | NoDeviceOrAddress | Access | Exists | CrossDevice
| NoDevice | NotDirectory | IsDirectory | Invalid | FileTooLarge | NoSpace | ReadOnly
| TooManyLinks | NameTooLong | NotEmpty | Quota | Stale | Remote | NotSynchronized
| BadCookie | NotSupported | TooSmall | ServerFault | BadType | Jukebox.
#[global] Instance t_eq_dec : EqDecision t.
Proof. solve_decision. Defined.
End NfsError.

(** Path components: [NfsName] wraps bytes that passed [new]. *)
Module NfsName.
Record t : Type := mk { as_bytes : list byte }.
#[global] Instance t_eq_dec : EqDecision t.
Proof. solve_decision. Defined.

Definition MAX_LEN : Z := 255.
Definition slash : byte := Byte.x2f.

Definition contains (b : byte) (l : list byte) : bool := existsb (Byte.eqb b) l.

Definition new (value : list byte) : result NfsError.t t :=
  if MAX_LEN <? zlen value then Err NfsError.NameTooLong
  else if (zlen value =? 0) || contains slash value || contains Byte.x00 value
  then Err NfsError.Invalid
  else Ok (mk value).

Definition valid (n : t) : Prop :=
  1 <= zlen (as_bytes n) <= MAX_LEN /\
  (slash ∉ as_bytes n) /\ (Byte.x00 ∉ as_bytes n).
End NfsName.

Module FileType.
Inductive t : Type :=
| Regular | Directory | BlockDevice | CharacterDevice | Symlink | Socket | Fifo.
#[global] Instance t_eq_dec : EqDecision t.
Proof. solve_decision. Defined.
End FileType.

Record DeviceNumber : Type := mkDeviceNumber { major : Z; minor : Z }.
#[global] Instance DeviceNumber_eq_dec : EqDecision DeviceNumber.
Proof. solve_decision. Defined.
Definition DeviceNumber_default : DeviceNumber := mkDeviceNumber 0 0.

Record NfsTime : Type := mkNfsTime { seconds : Z; nanoseconds : Z }.
#[global] Instance NfsTime_eq_dec : EqDecision NfsTime.
Proof. solve_decision. Defined.
Definition NfsTime_default : NfsTime := mkNfsTime 0 0.

Record FileAttributes : Type := mkFileAttributes {
  file_type : FileType.t;
  fa_mode : Z;
  links : Z;
  fa_uid : Z;
  fa_gid : Z;
  fa_size : Z;
  used : Z;
  device : option DeviceNumber;
  fs_id : Z;
  fa_file_id : Z;
  access_time : NfsTime;
  modify_time : NfsTime;
  change_time : NfsTime
}.
#[global] Instance FileAttributes_eq_dec : EqDecision FileAttributes.
Proof. solve_decision. Defined.

Inductive SetTime : Type := ServerTime | ClientTime (time : NfsTime).
#[global] Instance SetTime_eq_dec : EqDecision SetTime.
Proof. solve_decision. Defined.

Record SetAttributes : Type := mkSetAttributes {
  sa_mode : option Z;
  sa_uid : option Z;
  sa_gid : option Z;
  sa_size : option Z;
  sa_access_time : option SetTime;
  sa_modify_time : option SetTime
}.
#[global] Instance SetAttributes_eq_dec : EqDecision SetAttributes.
Proof. solve_decision. Defined.
Definition SetAttributes_default : SetAttributes :=
  mkSetAttributes None None None None None None.

Record WccAttributes : Type := mkWccAttributes {
  wcc_size : Z;
  wcc_modify_time : NfsTime;
  wcc_change_time : NfsTime
}.
#[global] Instance WccAttributes_eq_dec : EqDecision WccAttributes.
Proof. solve_decision. Defined.

Record MutationResult (T : Type) : Type := mkMutationResult {
  value : T;
  before : option WccAttributes;
  after : option FileAttributes
}.
Arguments mkMutationResult {T} _ _ _.
Arguments value {T} _.
Arguments before {T} _.
Arguments after {T} _.

(** [nfs3::types::WccData] *)
Record WccData : Type := mkWccData {
  wcc_before : option WccAttributes;
  wcc_after : option FileAttributes
}.
#[global] Instance WccData_eq_dec : EqDecision WccData.
Proof. solve_decision. Defined.
Definition WccData_default : WccData := mkWccData None None.

Inductive CreateMode : Type :=
| Unchecked
| Guarded
| Exclusive (verifier : list byte).
#[global] Instance CreateMode_eq_dec : EqDecision CreateMode.
Proof. solve_decision. Defined.

Record CreatedObject : Type := mkCreatedObject {
  object : ObjectKey;
  co_attributes : option FileAttributes
}.

Module WriteStability.
Inductive t : Type := Unstable | DataSync | FileSync.
#[global] Instance t_eq_dec : EqDecision t.
Proof. solve_decision. Defined.
End WriteStability.

(** [vfs::WriteResult]: what the backend reports for a write. *)
Record BackendWriteResult : Type := mkBackendWriteResult {
  count : Z;
  committed : WriteStability.t
}.

(** [ReadBytesResult]: [Bytes] is its byte content. *)
Record ReadBytesResult : Type := mkReadBytesResult {
  rb_data : list byte;
  rb_eof : bool;
  rb_attributes : option FileAttributes
}.

Record DirectoryEntry : Type := mkDirectoryEntry {
  de_object : ObjectKey;
  de_file_id : Z;
  de_name : NfsName.t;
  de_cookie : Z;
  de_attributes : option FileAttributes
}.

Record ReadDirectoryPage : Type := mkReadDirectoryPage {
  page_verifier : list byte;
  page_entries : list DirectoryEntry;
  page_eof : bool
}.

Record FsStat : Type := mkFsStat {
  total_bytes : Z;
  free_bytes : Z;
  available_bytes : Z;
  total_files : Z;
  free_files : Z;
  available_files : Z;
  invariant_seconds : Z
}.

Record FsInfo : Type := mkFsInfo {
  max_read : Z;
  preferred_read : Z;
  read_multiple : Z;
  max_write : Z;
  preferred_write : Z;
  write_multiple : Z;
  preferred_readdir : Z;
  max_file_size : Z;
  time_granularity : NfsTime
}.

Record PathConf : Type := mkPathConf {
  max_links : Z;
  max_name_length : Z;
  no_truncation : bool;
  chown_restricted : bool;
  case_insensitive : bool;
  case_preserving : bool
}.

Module NodeType.
Inductive t : Type :=
| BlockDevice (major minor : Z)
| CharacterDevice (major minor : Z)
| Socket
| Fifo.
#[global] Instance t_eq_dec : EqDecision t.
Proof. solve_decision. Defined.
End NodeType.

(** ** Request context *)

(** [std::net::IpAddr] and [SocketAddr], addresses as unsigned integers. *)
Inductive IpAddr : Type := V4 (bits : Z) | V6 (bits : Z).
#[global] Instance IpAddr_eq_dec : EqDecision IpAddr.
Proof. solve_decision. Defined.
#[global] Instance IpAddr_countable : Countable IpAddr :=
  inj_countable
    (fun a => match a with V4 z => inl z | V6 z => inr z end)
    (fun s => match s with inl z => Some (V4 z) | inr z => Some (V6 z) end)
    (fun a => match a with V4 _ => eq_refl | V6 _ => eq_refl end).

Record SocketAddr : Type := mkSocketAddr { ip : IpAddr; port : Z }.
#[global] Instance SocketAddr_eq_dec : EqDecision SocketAddr.
Proof. solve_decision. Defined.
#[global] Instance SocketAddr_countable : Countable SocketAddr :=
  inj_countable (fun a => (ip a, port a)) (fun p => Some (mkSocketAddr p.1 p.2))
    (fun a => match a with mkSocketAddr _ _ => eq_refl end).

(** [ExportId(pub u32)] *)
Definition ExportId : Type := Z.

Module Principal.
Inductive t : Type :=
| Anonymous
| AuthSys (uid gid : Z) (supplementary_gids : list Z) (machine_name : list byte).
#[global] Instance t_eq_dec : EqDecision t.
Proof. solve_decision. Defined.
End Principal.

Record RequestContext : Type := mkRequestContext {
  principal : Principal.t;
  client_addr : SocketAddr;
  export_id : ExportId
}.

Record VfsCapabilities : Type := mkVfsCapabilities {
  read_only : bool;
  hard_links : bool;
  symbolic_links : bool;
  mknod : bool;
  homogeneous : bool;
  can_set_time : bool
}.

Definition READ_ONLY : VfsCapabilities := mkVfsCapabilities true false false false true false.
Definition READ_WRITE : VfsCapabilities := mkVfsCapabilities false true true true true true.

(** [VirtualFileSystem::unsupported_mutation], the default of every mutation. *)
Definition unsupported_mutation (capabilities : VfsCapabilities) : NfsError.t :=
  if read_only capabilities then NfsError.ReadOnly else NfsError.NotSupported.

(** ** Wire status *)
Module NfsStatus.
Inductive t : Type :=
| Ok | Permission | NotFound | Io | NoDeviceOrAddress | Access | Exists | CrossDevice
| NoDevice | NotDirectory | IsDirectory | Invalid | FileTooLarge | NoSpace | ReadOnly
| TooManyLinks | NameTooLong | NotEmpty | Quota | Stale | Remote | BadHandle
| NotSynchronized | BadCookie | NotSupported | TooSmall | ServerFault | BadType | Jukebox.
#[global] Instance t_eq_dec : EqDecision t.
Proof. solve_decision. Defined.

(** [status as u32] *)
Definition code (s : t) : Z :=
  match s with
  | Ok => 0 | Permission => 1 | NotFound => 2 | Io => 5 | NoDeviceOrAddress => 6
  | Access => 13 | Exists => 17 | CrossDevice => 18 | NoDevice => 19
  | NotDirectory => 20 | IsDirectory => 21 | Invalid => 22 | FileTooLarge => 27
  | NoSpace => 28 | ReadOnly => 30 | TooManyLinks => 31 | NameTooLong => 63
  | NotEmpty => 66 | Quota => 69 | Stale => 70 | Remote => 71 | BadHandle => 10001
  | NotSynchronized => 10002 | BadCookie => 10003 | NotSupported => 10004
  | TooSmall => 10005 | ServerFault => 10006 | BadType => 10007 | Jukebox => 10008
  end.

Definition from_code (value : Z) : option t :=
  match value with
  | 0 => Some Ok | 1 => Some Permission | 2 => Some NotFound | 5 => Some Io
  | 6 => Some NoDeviceOrAddress | 13 => Some Access | 17 => Some Exists
  | 18 => Some CrossDevice | 19 => Some NoDevice | 20 => Some NotDirectory
  | 21 => Some IsDirectory | 22 => Some Invalid | 27 => Some FileTooLarge
  | 28 => Some NoSpace | 30 => Some ReadOnly | 31 => Some TooManyLinks
  | 63 => Some NameTooLong | 66 => Some NotEmpty | 69 => Some Quota | 70 => Some Stale
  | 71 => Some Remote | 10001 => Some BadHandle | 10002 => Some NotSynchronized
  | 10003 => Some BadCookie | 10004 => Some NotSupported | 10005 => Some TooSmall
  | 10006 => Some ServerFault | 10007 => Some BadType | 10008 => Some Jukebox
  | _ => None
  end.

(** [impl From<NfsError> for NfsStatus] *)
Definition from_error (e : NfsError.t) : t :=
  match e with
  | NfsError.Permission => Permission | NfsError.NotFound => NotFound
  | NfsError.Io => Io | NfsError.NoDeviceOrAddress => NoDeviceOrAddress
  | NfsError.Access => Access | NfsError.Exists => Exists
  | NfsError.CrossDevice => CrossDevice | NfsError.NoDevice => NoDevice
  | NfsError.NotDirectory => NotDirectory | NfsError.IsDirectory => IsDirectory
  | NfsError.Invalid => Invalid | NfsError.FileTooLarge => FileTooLarge
  | NfsError.NoSpace => NoSpace | NfsError.ReadOnly => ReadOnly
  | NfsError.TooManyLinks => TooManyLinks | NfsError.NameTooLong => NameTooLong
  | NfsError.NotEmpty => NotEmpty | NfsError.Quota => Quota | NfsError.Stale => Stale
  | NfsError.Remote => Remote | NfsError.NotSynchronized => NotSynchronized
  | NfsError.BadCookie => BadCookie | NfsError.NotSupported => NotSupported
  | NfsError.TooSmall => TooSmall | NfsError.ServerFault => ServerFault
  | NfsError.BadType => BadType | NfsError.Jukebox => Jukebox
  end.

Lemma from_code_code s : from_code (code s) = Some s.
Proof. by destruct s. Qed.

Lemma code_u32 s : u32_range (code s).
Proof. destruct s; unfold u32_range, u32_max; simpl; lia. Qed.
End NfsStatus.

Lemma contains_spec b l : NfsName.contains b l = true <-> b ∈ l.
Proof.
  unfold NfsName.contains. rewrite existsb_exists. split.
  - intros (x & Hx & Heq). apply Byte.byte_dec_bl in Heq. subst.
    by apply list_elem_of_In.
  - intros Hb. exists b. split; [by apply list_elem_of_In|]. by apply Byte.byte_dec_lb.
Qed.

Lemma NfsName_new_ok l n :
  NfsName.new l = Ok n <-> NfsName.as_bytes n = l /\ NfsName.valid n.
Proof.
  unfold NfsName.new, NfsName.valid. pose proof (zlen_nonneg l).
  destruct (NfsName.MAX_LEN <? zlen l) eqn:E; zbool.
  { split; [done|]. intros [<- [? _]]. lia. }
  destruct (_ || _) eqn:E2.
  - split; [done|]. intros [<- (Hl & H1 & H2)].
    apply orb_true_iff in E2 as [E2|E2]; [|by apply contains_spec in E2].
    apply orb_true_iff in E2 as [E2|E2]; [zbool; lia|by apply contains_spec in E2].
  - zbool. split.
    + intros [= <-]. simpl. split_and!; [done|lia|lia| |];
        rewrite <- contains_spec; congruence.
    + intros [Hn _]. destruct n; simpl in *. congruence.
Qed.
