(* ===== verification/RpcAuth.v ===== *)
(** * [src/rpc/auth.rs]: RPC credentials *)
From S2P Require Import Prelude RpcCodec VfsTypes.
Import Decoder.

Definition AUTH_NONE : Z := 0.
Definition AUTH_SYS : Z := 1.
Definition MAX_MACHINE_NAME : Z := 255.
Definition MAX_GROUPS : Z := 16.

Definition read_auth_sys : reader Principal.t :=
  _stamp ← read_u32;
  machine_name ← read_string "AUTH_SYS machine name" MAX_MACHINE_NAME;
  uid ← read_u32;
  gid ← read_u32;
  supplementary_gids ← read_array "AUTH_SYS groups" MAX_GROUPS read_u32;
  mret (Principal.AuthSys uid gid supplementary_gids machine_name).

Definition decode_principal (flavor : Z) (body : list byte) : result DecodeError Principal.t :=
  if flavor =? AUTH_NONE then
    if zlen body =? 0 then Ok Principal.Anonymous else Err TrailingBytes
  else if flavor =? AUTH_SYS then decode_all read_auth_sys body
  else Err (InvalidDiscriminant "authentication flavor" flavor).

(** The RFC 1057 representation of an AUTH_SYS body. *)
Definition auth_sys_bytes (stamp uid gid : Z) (gids : list Z) (name : list byte) : list byte :=
  be_bytes 4 stamp ++ Format.opaque_bytes name ++ be_bytes 4 uid ++ be_bytes 4 gid ++
  Format.array_u32_bytes gids.

Lemma read_auth_sys_iff body p :
  zlen body <= isize_max ->
  decode_all read_auth_sys body = Ok p <->
  exists stamp uid gid gids name,
    p = Principal.AuthSys uid gid gids name /\
    body = auth_sys_bytes stamp uid gid gids name /\
    u32_range stamp /\ u32_range uid /\ u32_range gid /\
    Forall u32_range gids /\ zlen gids <= MAX_GROUPS /\ zlen name <= MAX_MACHINE_NAME.
Proof.
  intros Hl. rewrite (Format.decode_all_iff read_auth_sys _ body p Hl). split.
  - intros H. Format.fmt_destruct.
    match goal with H : Format.array _ _ _ _ |- _ => apply Format.array_u32 in H as (? & ? & ->) end.
    2: { unfold MAX_GROUPS, u32_max; lia. }
    do 5 eexists. split; [done|]. unfold auth_sys_bytes. by rewrite app_nil_r.
  - intros (stamp & uid & gid & gids & name & -> & -> & ? & ? & ? & ? & Hg & Hn).
    unfold auth_sys_bytes. pose proof (zlen_nonneg name).
    Format.fmt_build; try done.
    + apply Format.array_u32; [unfold MAX_GROUPS, u32_max; lia|done].
    + unfold MAX_MACHINE_NAME, u32_max in *. lia.
Qed.

(** Credentials are accepted exactly in their canonical form. AUTH_NONE is
    accepted only with an empty body and yields the anonymous principal; AUTH_SYS
    is accepted exactly when the body is the XDR form of a stamp, a machine name
    of at most 255 bytes, two identifiers and at most 16 groups, with nothing left
    over, and yields those identifiers; every other flavor is refused. *)
Lemma decode_principal_exact flavor body p :
  zlen body <= isize_max ->
  decode_principal flavor body = Ok p <->
  (flavor = AUTH_NONE /\ body = [] /\ p = Principal.Anonymous) \/
  (flavor = AUTH_SYS /\ exists stamp uid gid gids name,
    p = Principal.AuthSys uid gid gids name /\ body = auth_sys_bytes stamp uid gid gids name /\
    u32_range stamp /\ u32_range uid /\ u32_range gid /\
    Forall u32_range gids /\ zlen gids <= MAX_GROUPS /\ zlen name <= MAX_MACHINE_NAME).
Proof.
  intros Hl. unfold decode_principal. destruct (flavor =? AUTH_NONE) eqn:E1; zbool.
  - destruct (zlen body =? 0) eqn:E2; zbool.
    + apply zlen_nil_inv in E2 as ->. split; [intros [= <-]; by left|].
      intros [(_ & _ & ->)|[? _]]; [done|]. by subst.
    + split; [done|]. intros [(_ & -> & _)|[? _]]; [by destruct E2|by subst].
  - destruct (flavor =? AUTH_SYS) eqn:E2; zbool.
    + rewrite (read_auth_sys_iff body p Hl). split; [by right|]. by intros [[? _]|[_ ?]].
    + split; [done|]. by intros [[? _]|[? _]].
Qed.

