(* ===== verification/NfsProcedures.v ===== *)
(** * [src/nfs3/procedures/mod.rs], [src/nfs3/dispatch.rs]: NFSv3 procedures

    Argument types, the argument decoder, and the result unions. The decoder is
    shown to accept exactly the canonical XDR representation of well-formed
    arguments. *)
From S2P Require Import Prelude RpcCodec VfsTypes.
Import Decoder.

(** ** Procedure numbers *)
Module Procedure.
Inductive t : Type :=
| Null | GetAttr | SetAttr | Lookup | Access | ReadLink | Read | Write | Create | Mkdir
| Symlink | Mknod | Remove | Rmdir | Rename | Link | ReadDir | ReadDirPlus | FsStat
| FsInfo | PathConf | Commit.

Definition from_wire (value : Z) : option t :=
  match value with
  | 0 => Some Null | 1 => Some GetAttr | 2 => Some SetAttr | 3 => Some Lookup
  | 4 => Some Access | 5 => Some ReadLink | 6 => Some Read | 7 => Some Write
  | 8 => Some Create | 9 => Some Mkdir | 10 => Some Symlink | 11 => Some Mknod
  | 12 => Some Remove | 13 => Some Rmdir | 14 => Some Rename | 15 => Some Link
  | 16 => Some ReadDir | 17 => Some ReadDirPlus | 18 => Some FsStat | 19 => Some FsInfo
  | 20 => Some PathConf | 21 => Some Commit | _ => None
  end.
End Procedure.

(** ** Arguments *)

Definition FileHandle : Type := list byte.

Record ObjectArgs : Type := mkObjectArgs { oa_object : FileHandle }.

Record DirectoryOperationArgs : Type := mkDirectoryOperationArgs {
  directory : FileHandle;
  name : list byte
}.

Record SetAttrArgs : Type := mkSetAttrArgs {
  sar_object : FileHandle;
  sar_attributes : SetAttributes;
  guard : option NfsTime
}.

Record AccessArgs : Type := mkAccessArgs { aa_object : FileHandle; requested : Z }.

Record ReadArgs : Type := mkReadArgs {
  ra_object : FileHandle;
  ra_offset : Z;
  ra_count : Z
}.

(** [WriteArgs] and [WriteRequest] have the same fields; the latter's data is a
    zero-copy slice of the record, here the same byte content. *)
Record WriteArgs : Type := mkWriteArgs {
  wa_object : FileHandle;
  wa_offset : Z;
  wa_count : Z;
  wa_requested : WriteStability.t;
  wa_data : list byte
}.

Record CreateArgs : Type := mkCreateArgs {
  ca_target : DirectoryOperationArgs;
  ca_mode : CreateMode;
  ca_attributes : SetAttributes
}.

Record MkdirArgs : Type := mkMkdirArgs {
  mka_target : DirectoryOperationArgs;
  mka_attributes : SetAttributes
}.

Record SymlinkArgs : Type := mkSymlinkArgs {
  sla_target : DirectoryOperationArgs;
  sla_attributes : SetAttributes;
  sla_path : list byte
}.

Record MknodArgs : Type := mkMknodArgs {
  mna_target : DirectoryOperationArgs;
  node_type : NodeType.t;
  mna_attributes : SetAttributes
}.

Record RenameArgs : Type := mkRenameArgs {
  rename_from : DirectoryOperationArgs;
  rename_to : DirectoryOperationArgs
}.

Record LinkArgs : Type := mkLinkArgs {
  la_object : FileHandle;
  la_target : DirectoryOperationArgs
}.

Record ReadDirArgs : Type := mkReadDirArgs {
  rda_directory : FileHandle;
  rda_cookie : Z;
  rda_verifier : list byte;
  rda_count : Z
}.

Record ReadDirPlusArgs : Type := mkReadDirPlusArgs {
  rdp_directory : FileHandle;
  rdp_cookie : Z;
  rdp_verifier : list byte;
  rdp_directory_count : Z;
  rdp_max_count : Z
}.

Record CommitArgs : Type := mkCommitArgs {
  cma_object : FileHandle;
  cma_offset : Z;
  cma_count : Z
}.

Module NfsArguments.
Inductive t : Type :=
| Null
| GetAttr (a : ObjectArgs)
| SetAttr (a : SetAttrArgs)
| Lookup (a : DirectoryOperationArgs)
| Access (a : AccessArgs)
| ReadLink (a : ObjectArgs)
| Read (a : ReadArgs)
| Write (a : WriteArgs)
| Create (a : CreateArgs)
| Mkdir (a : MkdirArgs)
| Symlink (a : SymlinkArgs)
| Mknod (a : MknodArgs)
| Remove (a : DirectoryOperationArgs)
| Rmdir (a : DirectoryOperationArgs)
| Rename (a : RenameArgs)
| Link (a : LinkArgs)
| ReadDir (a : ReadDirArgs)
| ReadDirPlus (a : ReadDirPlusArgs)
| FsStat (a : ObjectArgs)
| FsInfo (a : ObjectArgs)
| PathConf (a : ObjectArgs)
| Commit (a : CommitArgs).
End NfsArguments.

(** ** Decoding *)

Definition decode_handle : reader FileHandle := read_opaque "NFS file handle" 64.

Definition decode_object_args : reader ObjectArgs :=
  object ← decode_handle; mret (mkObjectArgs object).

Definition decode_directory_operation : reader DirectoryOperationArgs :=
  directory ← decode_handle;
  name ← read_string "NFS filename" 1024;
  mret (mkDirectoryOperationArgs directory name).

Definition decode_time : reader NfsTime :=
  seconds ← read_u32;
  nanoseconds ← read_u32;
  if 999999999 <? nanoseconds then fail (InvalidDiscriminant "nanoseconds" nanoseconds)
  else mret (mkNfsTime seconds nanoseconds).

(** [decoder.read_bool()?.then(|| decode).transpose()?] *)
Definition read_optional {A} (p : reader A) : reader (option A) :=
  present ← read_bool;
  if (present : bool) then x ← p; mret (Some x) else mret None.

Definition decode_set_time : reader (option SetTime) :=
  value ← read_u32;
  if value =? 0 then mret None
  else if value =? 1 then mret (Some ServerTime)
  else if value =? 2 then time ← decode_time; mret (Some (ClientTime time))
  else fail (InvalidDiscriminant "set time" value).

Definition decode_set_attributes : reader SetAttributes :=
  mode ← read_optional read_u32;
  uid ← read_optional read_u32;
  gid ← read_optional read_u32;
  size ← read_optional read_u64;
  access_time ← decode_set_time;
  modify_time ← decode_set_time;
  mret (mkSetAttributes mode uid gid size access_time modify_time).

Definition decode_stability : reader WriteStability.t :=
  value ← read_u32;
  if value =? 0 then mret WriteStability.Unstable
  else if value =? 1 then mret WriteStability.DataSync
  else if value =? 2 then mret WriteStability.FileSync
  else fail (InvalidDiscriminant "write stability" value).

Definition decode_create_mode : reader CreateMode :=
  value ← read_u32;
  if value =? 0 then mret Unchecked
  else if value =? 1 then mret Guarded
  else if value =? 2 then verifier ← read_fixed 8; mret (Exclusive verifier)
  else fail (InvalidDiscriminant "CREATE mode" value).

Definition is_exclusive (m : CreateMode) : bool :=
  match m with Exclusive _ => true | _ => false end.

(** The node body follows the attributes on the wire. *)
Definition decode_node (kind : Z) : reader NodeType.t :=
  if kind =? 3 then major ← read_u32; minor ← read_u32; mret (NodeType.BlockDevice major minor)
  else if kind =? 4 then
    major ← read_u32; minor ← read_u32; mret (NodeType.CharacterDevice major minor)
  else if kind =? 6 then mret NodeType.Socket
  else if kind =? 7 then mret NodeType.Fifo
  else fail (InvalidDiscriminant "MKNOD type" kind).

(** The [match procedure] of [NfsArguments::decode]. *)
Definition decode_body (procedure max_variable_size : Z) : reader NfsArguments.t :=
  match procedure with
  | 0 => mret NfsArguments.Null
  | 1 => a ← decode_object_args; mret (NfsArguments.GetAttr a)
  | 2 =>
      object ← decode_handle;
      attributes ← decode_set_attributes;
      guard ← read_optional decode_time;
      mret (NfsArguments.SetAttr (mkSetAttrArgs object attributes guard))
  | 3 => a ← decode_directory_operation; mret (NfsArguments.Lookup a)
  | 4 =>
      object ← decode_handle;
      requested ← read_u32;
      mret (NfsArguments.Access (mkAccessArgs object requested))
  | 5 => a ← decode_object_args; mret (NfsArguments.ReadLink a)
  | 6 =>
      object ← decode_handle;
      offset ← read_u64;
      count ← read_u32;
      mret (NfsArguments.Read (mkReadArgs object offset count))
  | 7 =>
      object ← decode_handle;
      offset ← read_u64;
      count ← read_u32;
      requested ← decode_stability;
      data ← read_opaque "WRITE data" max_variable_size;
      mret (NfsArguments.Write (mkWriteArgs object offset count requested data))
  | 8 =>
      target ← decode_directory_operation;
      mode ← decode_create_mode;
      attributes ← (if is_exclusive mode then mret SetAttributes_default
                    else decode_set_attributes);
      mret (NfsArguments.Create (mkCreateArgs target mode attributes))
  | 9 =>
      target ← decode_directory_operation;
      attributes ← decode_set_attributes;
      mret (NfsArguments.Mkdir (mkMkdirArgs target attributes))
  | 10 =>
      target ← decode_directory_operation;
      attributes ← decode_set_attributes;
      path ← read_string "symlink target" max_variable_size;
      mret (NfsArguments.Symlink (mkSymlinkArgs target attributes path))
  | 11 =>
      target ← decode_directory_operation;
      kind ← read_u32;
      attributes ← decode_set_attributes;
      node ← decode_node kind;
      mret (NfsArguments.Mknod (mkMknodArgs target node attributes))
  | 12 => a ← decode_directory_operation; mret (NfsArguments.Remove a)
  | 13 => a ← decode_directory_operation; mret (NfsArguments.Rmdir a)
  | 14 =>
      from ← decode_directory_operation;
      to ← decode_directory_operation;
      mret (NfsArguments.Rename (mkRenameArgs from to))
  | 15 =>
      object ← decode_handle;
      target ← decode_directory_operation;
      mret (NfsArguments.Link (mkLinkArgs object target))
  | 16 =>
      directory ← decode_handle;
      cookie ← read_u64;
      verifier ← read_fixed 8;
      count ← read_u32;
      mret (NfsArguments.ReadDir (mkReadDirArgs directory cookie verifier count))
  | 17 =>
      directory ← decode_handle;
      cookie ← read_u64;
      verifier ← read_fixed 8;
      directory_count ← read_u32;
      max_count ← read_u32;
      mret (NfsArguments.ReadDirPlus
              (mkReadDirPlusArgs directory cookie verifier directory_count max_count))
  | 18 => a ← decode_object_args; mret (NfsArguments.FsStat a)
  | 19 => a ← decode_object_args; mret (NfsArguments.FsInfo a)
  | 20 => a ← decode_object_args; mret (NfsArguments.PathConf a)
  | 21 =>
      object ← decode_handle;
      offset ← read_u64;
      count ← read_u32;
      mret (NfsArguments.Commit (mkCommitArgs object offset count))
  | value => fail (InvalidDiscriminant "NFS procedure" value)
  end.

(** [NfsArguments::decode] *)
Definition decode (procedure : Z) (input : list byte) (max_variable_size : Z)
    : result DecodeError NfsArguments.t :=
  decode_all (decode_body procedure max_variable_size) input.

(** [WriteRequest::decode]: the data is re-sliced from the record. *)
Definition decode_write_request (input : list byte) (max_variable_size : Z)
    : result DecodeError WriteArgs :=
  '(object, d1) ← decode_handle (new input);
  '(offset, d2) ← read_u64 d1;
  '(count, d3) ← read_u32 d2;
  '(requested, d4) ← decode_stability d3;
  let data_prefix := position d4 in
  '(data, d5) ← read_opaque_slice "WRITE data" max_variable_size d4;
  let data_len := zlen data in
  _ ← finish d5;
  data_start ← ok_or (checked_add data_prefix 4) Overflow;
  data_end ← ok_or (checked_add data_start data_len) Overflow;
  Ok (mkWriteArgs object offset count requested (slice data_start data_end input)).

(** [usize::try_from(count).ok() != Some(data_len)] *)
Definition validate_write_count (count data_len : Z) : result NfsStatus.t unit :=
  if count =? data_len then Ok () else Err NfsStatus.Invalid.

Definition WriteArgs_validate (a : WriteArgs) : result NfsStatus.t unit :=
  validate_write_count (wa_count a) (zlen (wa_data a)).

(** ** Canonical representation of arguments (RFC 1813) *)

Definition option_bytes {A} (f : A -> list byte) (o : option A) : list byte :=
  match o with None => be_bytes 4 0 | Some x => be_bytes 4 1 ++ f x end.
Definition option_wf {A} (P : A -> Prop) (o : option A) : Prop :=
  match o with None => True | Some x => P x end.

Definition time_wf (t : NfsTime) : Prop :=
  u32_range (seconds t) /\ 0 <= nanoseconds t <= 999999999.
Definition time_bytes (t : NfsTime) : list byte :=
  be_bytes 4 (seconds t) ++ be_bytes 4 (nanoseconds t).

Definition handle_wf (h : FileHandle) : Prop := zlen h <= 64.

Definition dirop_wf (a : DirectoryOperationArgs) : Prop :=
  handle_wf (directory a) /\ zlen (name a) <= 1024.
Definition dirop_bytes (a : DirectoryOperationArgs) : list byte :=
  Format.opaque_bytes (directory a) ++ Format.opaque_bytes (name a).

Definition set_time_wf (o : option SetTime) : Prop :=
  match o with Some (ClientTime t) => time_wf t | _ => True end.
Definition set_time_bytes (o : option SetTime) : list byte :=
  match o with
  | None => be_bytes 4 0
  | Some ServerTime => be_bytes 4 1
  | Some (ClientTime t) => be_bytes 4 2 ++ time_bytes t
  end.

Definition set_attributes_wf (a : SetAttributes) : Prop :=
  option_wf u32_range (sa_mode a) /\ option_wf u32_range (sa_uid a) /\
  option_wf u32_range (sa_gid a) /\ option_wf u64_range (sa_size a) /\
  set_time_wf (sa_access_time a) /\ set_time_wf (sa_modify_time a).
Definition set_attributes_bytes (a : SetAttributes) : list byte :=
  option_bytes (be_bytes 4) (sa_mode a) ++ option_bytes (be_bytes 4) (sa_uid a) ++
  option_bytes (be_bytes 4) (sa_gid a) ++ option_bytes (be_bytes 8) (sa_size a) ++
  set_time_bytes (sa_access_time a) ++ set_time_bytes (sa_modify_time a).

Definition stability_code (s : WriteStability.t) : Z :=
  match s with
  | WriteStability.Unstable => 0 | WriteStability.DataSync => 1 | WriteStability.FileSync => 2
  end.

Definition create_mode_wf (m : CreateMode) : Prop :=
  match m with Exclusive v => zlen v = 8 | _ => True end.
Definition create_mode_bytes (m : CreateMode) : list byte :=
  match m with
  | Unchecked => be_bytes 4 0
  | Guarded => be_bytes 4 1
  | Exclusive v => be_bytes 4 2 ++ v
  end.

Definition node_kind (n : NodeType.t) : Z :=
  match n with
  | NodeType.BlockDevice _ _ => 3 | NodeType.CharacterDevice _ _ => 4
  | NodeType.Socket => 6 | NodeType.Fifo => 7
  end.
Definition node_wf (n : NodeType.t) : Prop :=
  match n with
  | NodeType.BlockDevice a b | NodeType.CharacterDevice a b => u32_range a /\ u32_range b
  | _ => True
  end.
Definition node_bytes (n : NodeType.t) : list byte :=
  match n with
  | NodeType.BlockDevice a b | NodeType.CharacterDevice a b => be_bytes 4 a ++ be_bytes 4 b
  | _ => []
  end.

Definition procedure_of (a : NfsArguments.t) : Z :=
  match a with
  | NfsArguments.Null => 0 | NfsArguments.GetAttr _ => 1 | NfsArguments.SetAttr _ => 2
  | NfsArguments.Lookup _ => 3 | NfsArguments.Access _ => 4 | NfsArguments.ReadLink _ => 5
  | NfsArguments.Read _ => 6 | NfsArguments.Write _ => 7 | NfsArguments.Create _ => 8
  | NfsArguments.Mkdir _ => 9 | NfsArguments.Symlink _ => 10 | NfsArguments.Mknod _ => 11
  | NfsArguments.Remove _ => 12 | NfsArguments.Rmdir _ => 13 | NfsArguments.Rename _ => 14
  | NfsArguments.Link _ => 15 | NfsArguments.ReadDir _ => 16
  | NfsArguments.ReadDirPlus _ => 17 | NfsArguments.FsStat _ => 18
  | NfsArguments.FsInfo _ => 19 | NfsArguments.PathConf _ => 20 | NfsArguments.Commit _ => 21
  end.

Definition arguments_bytes (a : NfsArguments.t) : list byte :=
  match a with
  | NfsArguments.Null => []
  | NfsArguments.GetAttr x | NfsArguments.ReadLink x | NfsArguments.FsStat x
  | NfsArguments.FsInfo x | NfsArguments.PathConf x => Format.opaque_bytes (oa_object x)
  | NfsArguments.SetAttr x =>
      Format.opaque_bytes (sar_object x) ++ set_attributes_bytes (sar_attributes x) ++
      option_bytes time_bytes (guard x)
  | NfsArguments.Lookup x | NfsArguments.Remove x | NfsArguments.Rmdir x => dirop_bytes x
  | NfsArguments.Access x => Format.opaque_bytes (aa_object x) ++ be_bytes 4 (requested x)
  | NfsArguments.Read x =>
      Format.opaque_bytes (ra_object x) ++ be_bytes 8 (ra_offset x) ++ be_bytes 4 (ra_count x)
  | NfsArguments.Write x =>
      Format.opaque_bytes (wa_object x) ++ be_bytes 8 (wa_offset x) ++ be_bytes 4 (wa_count x) ++
      be_bytes 4 (stability_code (wa_requested x)) ++ Format.opaque_bytes (wa_data x)
  | NfsArguments.Create x =>
      dirop_bytes (ca_target x) ++ create_mode_bytes (ca_mode x) ++
      (if is_exclusive (ca_mode x) then [] else set_attributes_bytes (ca_attributes x))
  | NfsArguments.Mkdir x => dirop_bytes (mka_target x) ++ set_attributes_bytes (mka_attributes x)
  | NfsArguments.Symlink x =>
      dirop_bytes (sla_target x) ++ set_attributes_bytes (sla_attributes x) ++
      Format.opaque_bytes (sla_path x)
  | NfsArguments.Mknod x =>
      dirop_bytes (mna_target x) ++ be_bytes 4 (node_kind (node_type x)) ++
      set_attributes_bytes (mna_attributes x) ++ node_bytes (node_type x)
  | NfsArguments.Rename x => dirop_bytes (rename_from x) ++ dirop_bytes (rename_to x)
  | NfsArguments.Link x => Format.opaque_bytes (la_object x) ++ dirop_bytes (la_target x)
  | NfsArguments.ReadDir x =>
      Format.opaque_bytes (rda_directory x) ++ be_bytes 8 (rda_cookie x) ++ rda_verifier x ++
      be_bytes 4 (rda_count x)
  | NfsArguments.ReadDirPlus x =>
      Format.opaque_bytes (rdp_directory x) ++ be_bytes 8 (rdp_cookie x) ++ rdp_verifier x ++
      be_bytes 4 (rdp_directory_count x) ++ be_bytes 4 (rdp_max_count x)
  | NfsArguments.Commit x =>
      Format.opaque_bytes (cma_object x) ++ be_bytes 8 (cma_offset x) ++ be_bytes 4 (cma_count x)
  end.

Definition arguments_wf (max : Z) (a : NfsArguments.t) : Prop :=
  match a with
  | NfsArguments.Null => True
  | NfsArguments.GetAttr x | NfsArguments.ReadLink x | NfsArguments.FsStat x
  | NfsArguments.FsInfo x | NfsArguments.PathConf x => handle_wf (oa_object x)
  | NfsArguments.SetAttr x =>
      handle_wf (sar_object x) /\ set_attributes_wf (sar_attributes x) /\ option_wf time_wf (guard x)
  | NfsArguments.Lookup x | NfsArguments.Remove x | NfsArguments.Rmdir x => dirop_wf x
  | NfsArguments.Access x => handle_wf (aa_object x) /\ u32_range (requested x)
  | NfsArguments.Read x =>
      handle_wf (ra_object x) /\ u64_range (ra_offset x) /\ u32_range (ra_count x)
  | NfsArguments.Write x =>
      handle_wf (wa_object x) /\ u64_range (wa_offset x) /\ u32_range (wa_count x) /\
      zlen (wa_data x) <= max /\ zlen (wa_data x) <= u32_max
  | NfsArguments.Create x =>
      dirop_wf (ca_target x) /\ create_mode_wf (ca_mode x) /\
      (if is_exclusive (ca_mode x) then ca_attributes x = SetAttributes_default
       else set_attributes_wf (ca_attributes x))
  | NfsArguments.Mkdir x => dirop_wf (mka_target x) /\ set_attributes_wf (mka_attributes x)
  | NfsArguments.Symlink x =>
      dirop_wf (sla_target x) /\ set_attributes_wf (sla_attributes x) /\
      zlen (sla_path x) <= max /\ zlen (sla_path x) <= u32_max
  | NfsArguments.Mknod x =>
      dirop_wf (mna_target x) /\ set_attributes_wf (mna_attributes x) /\ node_wf (node_type x)
  | NfsArguments.Rename x => dirop_wf (rename_from x) /\ dirop_wf (rename_to x)
  | NfsArguments.Link x => handle_wf (la_object x) /\ dirop_wf (la_target x)
  | NfsArguments.ReadDir x =>
      handle_wf (rda_directory x) /\ u64_range (rda_cookie x) /\ zlen (rda_verifier x) = 8 /\
      u32_range (rda_count x)
  | NfsArguments.ReadDirPlus x =>
      handle_wf (rdp_directory x) /\ u64_range (rdp_cookie x) /\ zlen (rdp_verifier x) = 8 /\
      u32_range (rdp_directory_count x) /\ u32_range (rdp_max_count x)
  | NfsArguments.Commit x =>
      handle_wf (cma_object x) /\ u64_range (cma_offset x) /\ u32_range (cma_count x)
  end.

(** *** Each sub-decoder implements its format *)
Section Implementations.
Import Format.

Lemma handle_max h : handle_wf h -> zlen h <= u32_max.
Proof. unfold handle_wf, u32_max. lia. Qed.
Hint Resolve handle_max : core.

#[local] Instance implements_handle :
  Implements decode_handle (exact handle_wf opaque_bytes).
Proof.
  eapply implements_weaken; [apply implements_read_opaque|].
  intros h bs. unfold opaque, exact. split; [by intros (?&_&->)|]. intros [? ->]. by auto.
Qed.

#[local] Instance implements_object_args :
  Implements decode_object_args (exact (fun a => handle_wf (oa_object a))
                                       (fun a => opaque_bytes (oa_object a))).
Proof.
  eapply implements_weaken; [unfold decode_object_args; apply _|].
  intros [h] bs. split.
  - intros H. fmt_destruct. by rewrite app_nil_r.
  - intros [? ->]. fmt_build. done.
Qed.

#[local] Instance implements_dirop :
  Implements decode_directory_operation (exact dirop_wf dirop_bytes).
Proof.
  eapply implements_weaken; [unfold decode_directory_operation; apply _|].
  intros [dir n] bs. split.
  - intros H. fmt_destruct. simplify_eq. rewrite app_nil_r. done.
  - intros [[? ?] ->]. unfold dirop_bytes; simpl in *. fmt_build; simpl; auto.
    unfold u32_max; lia.
Qed.

#[local] Instance implements_time : Implements decode_time (exact time_wf time_bytes).
Proof.
  eapply implements_weaken; [unfold decode_time; apply _|].
  intros [s n] bs. split.
  - intros H. fmt_destruct. case_in H1; fmt_destruct. zbool. simplify_eq.
    rewrite app_nil_r. unfold exact, time_wf, u32_range in *; simpl. by auto with lia.
  - intros [[? ?] ->]. unfold time_bytes; simpl in *.
    rewrite <- (app_nil_r (be_bytes 4 n)).
    eapply seq_intro; [eapply seq_intro|]; [|fmt_build..].
    + simpl. zdec. done.
    + unfold u32_range, u32_max; lia.
    + done.
Qed.

#[local] Instance implements_optional {A} (p : reader A) P bytes :
  Implements p (exact P bytes) ->
  Implements (read_optional p) (exact (option_wf P) (option_bytes bytes)).
Proof.
  intros Hp. eapply implements_weaken.
  { unfold read_optional. apply implements_bind; [apply _|]. intros present.
    eapply implements_if; [apply _|apply (implements_ret None)]. }
  intros o bs. split.
  - intros (b & b1 & b2 & -> & -> & H). destruct b; fmt_destruct; simpl;
      rewrite app_nil_r; unfold exact; by auto.
  - intros [Hw ->]. destruct o as [x|]; simpl in *.
    + eapply (seq_intro _ _ true); [|done].
      rewrite <- (app_nil_r (bytes x)). eapply seq_intro; [done|]. done.
    + rewrite <- (app_nil_r (be_bytes 4 0)). by eapply (seq_intro _ _ false).
Qed.

#[local] Instance implements_u32_exact : Implements read_u32 (exact u32_range (be_bytes 4)).
Proof. apply implements_read_u32. Qed.
#[local] Instance implements_u64_exact : Implements read_u64 (exact u64_range (be_bytes 8)).
Proof. apply implements_read_u64. Qed.

(** A discriminant followed by its arm. *)
Lemma u32_const_range n : 0 <= n <= 16 -> u32_range n.
Proof. unfold u32_range, u32_max; lia. Qed.

#[local] Instance implements_set_time :
  Implements decode_set_time (exact set_time_wf set_time_bytes).
Proof.
  eapply implements_weaken; [unfold decode_set_time; apply _|].
  intros o bs. split.
  - intros (v & b1 & b2 & -> & [Hv ->] & H). repeat case_in H; zbool; subst;
      fmt_destruct; simpl; rewrite app_nil_r; unfold exact; by auto.
  - intros [Hw ->]. destruct o as [[|t]|]; simpl.
    + rewrite <- (app_nil_r (be_bytes 4 1)).
      eapply (seq_intro _ _ 1); [done|]. by split; [apply u32_const_range|].
    + eapply (seq_intro _ _ 2); [|by split; [apply u32_const_range|]]. simpl.
      fmt_build. done.
    + rewrite <- (app_nil_r (be_bytes 4 0)).
      eapply (seq_intro _ _ 0); [done|]. by split; [apply u32_const_range|].
Qed.

#[local] Instance implements_set_attributes :
  Implements decode_set_attributes (exact set_attributes_wf set_attributes_bytes).
Proof.
  eapply implements_weaken; [unfold decode_set_attributes; apply _|].
  intros [m u g s at' mt] bs. split.
  - intros H. fmt_destruct. simplify_eq. rewrite app_nil_r. split; [|done]. done.
  - intros [(?&?&?&?&?&?) ->]. unfold set_attributes_bytes; simpl in *. fmt_build; done.
Qed.

#[local] Instance implements_stability :
  Implements decode_stability (exact (fun _ => True) (fun s => be_bytes 4 (stability_code s))).
Proof.
  eapply implements_weaken; [unfold decode_stability; apply _|].
  intros o bs. split.
  - intros (v & b1 & b2 & -> & [Hv ->] & H). repeat case_in H; zbool; subst;
      fmt_destruct; simpl; rewrite app_nil_r; unfold exact; by auto.
  - intros [_ ->]. rewrite <- (app_nil_r (be_bytes _ _)).
    eapply (seq_intro _ _ (stability_code o));
      [by destruct o|split; [|done]; by destruct o; apply u32_const_range].
Qed.

#[local] Instance implements_verifier : Implements (read_fixed 8) (fixed 8).
Proof. apply implements_read_fixed. lia. Qed.

#[local] Instance implements_create_mode :
  Implements decode_create_mode (exact create_mode_wf create_mode_bytes).
Proof.
  eapply implements_weaken; [unfold decode_create_mode; apply _|].
  intros o bs. split.
  - intros (v & b1 & b2 & -> & [Hv ->] & H). repeat case_in H; zbool; subst;
      fmt_destruct; simpl; rewrite app_nil_r; unfold exact; by auto.
  - intros [Hw ->]. destruct o as [| |v]; simpl in *.
    + rewrite <- (app_nil_r (be_bytes 4 0)).
      eapply (seq_intro _ _ 0); [done|]. by split; [apply u32_const_range|].
    + rewrite <- (app_nil_r (be_bytes 4 1)).
      eapply (seq_intro _ _ 1); [done|]. by split; [apply u32_const_range|].
    + eapply (seq_intro _ _ 2); [|by split; [apply u32_const_range|]]. simpl.
      fmt_build. done.
Qed.

#[local] Instance implements_node kind :
  Implements (decode_node kind)
    (exact (fun n => node_kind n = kind /\ node_wf n) node_bytes).
Proof.
  eapply implements_weaken; [unfold decode_node; apply _|].
  intros o bs. split.
  - intros H. repeat case_in H; zbool; subst;
      fmt_destruct; simpl; rewrite ?app_nil_r; unfold exact; by auto.
  - intros [[<- Hw] ->]. destruct o as [a b|a b| |]; simpl in *; destruct_and?; fmt_build; done.
Qed.

#[local] Instance implements_create_attributes mode :
  Implements (if is_exclusive mode then mret SetAttributes_default else decode_set_attributes)
    (exact (fun a => if is_exclusive mode then a = SetAttributes_default else set_attributes_wf a)
           (fun a => if is_exclusive mode then [] else set_attributes_bytes a)).
Proof.
  destruct (is_exclusive mode); [|apply _].
  eapply implements_weaken; [apply implements_ret|]. intros a bs. done.
Qed.

(** The representation relation of one procedure's arguments. *)
Definition arguments_format (procedure max : Z) : format NfsArguments.t :=
  fun a bs => procedure_of a = procedure /\ arguments_wf max a /\ bs = arguments_bytes a.

Ltac solve_arguments :=
  eapply implements_weaken; [apply _|];
  intros a bs; split;
  [ intros H; fmt_destruct; unfold arguments_format; simpl; rewrite ?app_nil_r; by auto 10
  | intros (Hp & Hw & ->); destruct a as [|[]|[]|[]|[]|[]|[]|[]|[]|[]|[]|[]|[]|[]|[]|[]|[]|[]|[]|[]|[]|[]];
    try discriminate Hp; simpl in *; destruct_and?; fmt_build; auto ].

Lemma procedure_cases (P : Z -> Prop) :
  Forall P [0;1;2;3;4;5;6;7;8;9;10;11;12;13;14;15;16;17;18;19;20;21] ->
  forall procedure, 0 <= procedure <= 21 -> P procedure.
Proof.
  intros HP procedure Hp. rewrite List.Forall_forall in HP. apply HP. simpl. lia.
Qed.

Lemma implements_decode_body procedure max :
  0 <= procedure <= 21 -> Implements (decode_body procedure max) (arguments_format procedure max).
Proof.
  revert procedure. apply procedure_cases.
  repeat apply Forall_cons_2; [..|apply Forall_nil_2]; cbn [decode_body].
  all: try solve [solve_arguments].
  (* MKNOD: the discriminant and its arm are separated by the attributes. *)
  eapply implements_weaken; [apply _|].
  intros a bs; split.
  - intros H; fmt_destruct. destruct_and!. subst. unfold arguments_format; simpl.
    rewrite app_nil_r. by auto.
  - intros (Hp & Hw & ->). destruct a as [| | | | | | | | | | |[dir n attrs]| | | | | | | | | |];
      try discriminate Hp; simpl in *; destruct_and?. fmt_build; auto.
    by destruct n; apply u32_const_range.
Qed.


(** Decoding accepts exactly the canonical bytes of well-formed arguments. *)
Lemma decode_iff procedure input max a :
  zlen input <= isize_max ->
  decode procedure input max = Ok a <->
  procedure_of a = procedure /\ arguments_wf max a /\ input = arguments_bytes a.
Proof.
  intros Hl. assert (0 <= procedure_of a <= 21) as Hpa by (destruct a; simpl; lia).
  destruct (decide (0 <= procedure <= 21)) as [Hp|Hp].
  - pose proof (implements_decode_body procedure max Hp).
    unfold decode. 
    apply (decode_all_iff (decode_body procedure max) (arguments_format procedure max) input a Hl).
  - split; [|intros (? & _); lia].
    assert (decode_body procedure max = fail (InvalidDiscriminant "NFS procedure" procedure)) as E.
    { destruct procedure as [|p|p]; [lia| |done].
      do 5 (destruct p as [p|p|]; try done; try lia). }
    unfold decode, decode_all. by rewrite E.
Qed.

(** The zero-copy WRITE decoder agrees with the generic one. *)
Lemma decode_write_request_eq input max :
  zlen input <= isize_max ->
  decode 7 input max = NfsArguments.Write <$> decode_write_request input max.
Proof.
  intros Hl. pose proof (wf_new input Hl) as Hwf.
  assert (input = Decoder.input (new input)) as Hin by done.
  unfold decode, decode_all, decode_write_request. cbn [decode_body].
  set (d := new input) in *. clearbody d. unfold mbind, reader_bind, result_bind.
  destruct (decode_handle d) as [[object d1]|] eqn:E1; [|done].
  destruct (reader_wf _ _ _ _ _ Hwf E1) as [Hwf1 Hi1].
  destruct (read_u64 d1) as [[offset d2]|] eqn:E2; [|done].
  destruct (reader_wf _ _ _ _ _ Hwf1 E2) as [Hwf2 Hi2].
  destruct (read_u32 d2) as [[count d3]|] eqn:E3; [|done].
  destruct (reader_wf _ _ _ _ _ Hwf2 E3) as [Hwf3 Hi3].
  destruct (decode_stability d3) as [[requested d4]|] eqn:E4; [|done].
  destruct (reader_wf _ _ _ _ _ Hwf3 E4) as [Hwf4 Hi4].
  unfold read_opaque.
  destruct (read_opaque_slice "WRITE data" max d4) as [[data d5]|] eqn:E5; [|done].
  destruct (read_opaque_slice_range _ _ _ _ _ Hwf4 E5) as [Hb Hs].
  cbn [mret reader_ret]. unfold mret, reader_ret. destruct (finish d5); [|done].
  assert (Decoder.input d4 = input) as Hd4 by congruence. rewrite Hd4 in *.
  unfold checked_add, isize_max, usize_max in *. destruct Hwf4 as [? _].
  pose proof (zlen_nonneg data). zdec. simpl. zdec. simpl. by rewrite Hs.
Qed.


(** C21: argument decoding is exact. For every procedure number and byte string,
    decoding succeeds with [a] exactly when [a] is a well-formed argument of that
    procedure (sizes, enumerations, nanoseconds and string limits checked) and the
    bytes are its canonical XDR form, with nothing left over; and the zero-copy
    WRITE decoder the server uses agrees with the generic one on every input. *)
Theorem nfs_arguments_exact procedure input max a :
  zlen input <= isize_max ->
  (decode procedure input max = Ok a <->
   procedure_of a = procedure /\ arguments_wf max a /\ input = arguments_bytes a) /\
  decode 7 input max = NfsArguments.Write <$> decode_write_request input max.
Proof. intros Hl. split; [by apply decode_iff|by apply decode_write_request_eq]. Qed.

Lemma nfs_arguments_exact_witness :
  decode 1 (arguments_bytes (NfsArguments.GetAttr (mkObjectArgs [Byte.x07]))) 64 =
    Ok (NfsArguments.GetAttr (mkObjectArgs [Byte.x07])).
Proof.
  apply (nfs_arguments_exact 1 _ 64); [by vm_compute|]. split_and!; [done| |done]. by vm_compute.
Defined.
End Implementations.
