(* ===== verification/NfsCodec.v ===== *)
(** * [src/nfs3/codec.rs] and the result unions of [src/nfs3/procedures/mod.rs]

    Result types, their XDR encoders, and READDIR truncation. *)
From S2P Require Import Prelude RpcCodec VfsTypes NfsProcedures.
Import Encoder.

(** ** Result unions *)

Module GetAttrResult.
Inductive t : Type := Ok (attributes : FileAttributes) | Err (status : NfsStatus.t).
End GetAttrResult.

Module SetAttrResult.
Inductive t : Type := Ok (object_wcc : WccData) | Err (status : NfsStatus.t) (object_wcc : WccData).
End SetAttrResult.

Module RenameResult.
Inductive t : Type :=
| Ok (from_directory_wcc to_directory_wcc : WccData)
| Err (status : NfsStatus.t) (from_directory_wcc to_directory_wcc : WccData).
End RenameResult.

Module ReadLinkResult.
Inductive t : Type :=
| Ok (attributes : option FileAttributes) (path : list byte)
| Err (status : NfsStatus.t) (attributes : option FileAttributes).
End ReadLinkResult.

Module LookupResult.
Inductive t : Type :=
| Ok (object_handle : list byte) (object_attributes directory_attributes : option FileAttributes)
| Err (status : NfsStatus.t) (directory_attributes : option FileAttributes).
End LookupResult.

Module AccessResult.
Inductive t : Type :=
| Ok (attributes : option FileAttributes) (access : Z)
| Err (status : NfsStatus.t) (attributes : option FileAttributes).
End AccessResult.

Module ReadResult.
Inductive t : Type :=
| Ok (attributes : option FileAttributes) (data : list byte) (eof : bool)
| Err (status : NfsStatus.t) (attributes : option FileAttributes).
End ReadResult.

Module WriteResult.
Inductive t : Type :=
| Ok (file_wcc : WccData) (count : Z) (committed : WriteStability.t) (verifier : list byte)
| Err (status : NfsStatus.t) (file_wcc : WccData).
End WriteResult.

Module CreateResult.
Inductive t : Type :=
| Ok (object_handle : option (list byte)) (object_attributes : option FileAttributes)
     (directory_wcc : WccData)
| Err (status : NfsStatus.t) (directory_wcc : WccData).
End CreateResult.

Module WccResult.
Inductive t : Type := Ok (object_wcc : WccData) | Err (status : NfsStatus.t) (object_wcc : WccData).
End WccResult.

Module LinkResult.
Inductive t : Type :=
| Ok (object_attributes : option FileAttributes) (directory_wcc : WccData)
| Err (status : NfsStatus.t) (object_attributes : option FileAttributes) (directory_wcc : WccData).
End LinkResult.

Module ReadDirEntryExtension.
Inductive t : Type :=
| Basic
| Plus (attributes : option FileAttributes) (handle : option (list byte)).
End ReadDirEntryExtension.

Record ReadDirEntry : Type := mkReadDirEntry {
  rde_file_id : Z;
  rde_name : list byte;
  rde_cookie : Z;
  rde_extension : ReadDirEntryExtension.t
}.

Module ReadDirResult.
Inductive t : Type :=
| Ok (directory_attributes : option FileAttributes) (verifier : list byte)
     (entries : list ReadDirEntry) (eof : bool)
| Err (status : NfsStatus.t) (directory_attributes : option FileAttributes).
End ReadDirResult.

Module FsStatResult.
Inductive t : Type :=
| Ok (attributes : option FileAttributes) (info : FsStat)
| Err (status : NfsStatus.t) (attributes : option FileAttributes).
End FsStatResult.

Module FsInfoResult.
Inductive t : Type :=
| Ok (attributes : option FileAttributes) (info : FsInfo) (properties : Z)
| Err (status : NfsStatus.t) (attributes : option FileAttributes).
End FsInfoResult.

Module PathConfResult.
Inductive t : Type :=
| Ok (attributes : option FileAttributes) (info : PathConf)
| Err (status : NfsStatus.t) (attributes : option FileAttributes).
End PathConfResult.

Module CommitResult.
Inductive t : Type :=
| Ok (file_wcc : WccData) (verifier : list byte)
| Err (status : NfsStatus.t) (file_wcc : WccData).
End CommitResult.

(** ** Encoding helpers *)

Definition encode_time (time : NfsTime) : writer := fun e =>
  match u32_try_from (seconds time) with
  | None => Err (InvalidTime (seconds time) (nanoseconds time))
  | Some s =>
      if 999999999 <? nanoseconds time then
        Err (InvalidTime (seconds time) (nanoseconds time))
      else (put_u32 s +> put_u32 (nanoseconds time)) e
  end.

Definition file_type_code (t : FileType.t) : Z :=
  match t with
  | FileType.Regular => 1 | FileType.Directory => 2 | FileType.BlockDevice => 3
  | FileType.CharacterDevice => 4 | FileType.Symlink => 5 | FileType.Socket => 6
  | FileType.Fifo => 7
  end.

(** Device numbers are only reported for device nodes. *)
Definition wire_device (a : FileAttributes) : DeviceNumber :=
  match file_type a with
  | FileType.BlockDevice | FileType.CharacterDevice => default DeviceNumber_default (device a)
  | _ => DeviceNumber_default
  end.

Definition encode_attributes (a : FileAttributes) : writer :=
  put_u32 (file_type_code (file_type a)) +>
  put_u32 (fa_mode a) +>
  put_u32 (links a) +>
  put_u32 (fa_uid a) +>
  put_u32 (fa_gid a) +>
  put_u64 (fa_size a) +>
  put_u64 (used a) +>
  put_u32 (major (wire_device a)) +>
  put_u32 (minor (wire_device a)) +>
  put_u64 (fs_id a) +>
  put_u64 (fa_file_id a) +>
  encode_time (access_time a) +>
  encode_time (modify_time a) +>
  encode_time (change_time a).

(** [encoder.write_bool(o.is_some()); if let Some(x) = o { f(x)? }] *)
Definition encode_option {A} (f : A -> writer) (o : option A) : writer :=
  match o with
  | None => put_bool false
  | Some x => put_bool true +> f x
  end.

Definition encode_post_attributes (o : option FileAttributes) : writer :=
  encode_option encode_attributes o.

Definition encode_wcc_attributes (w : WccAttributes) : writer :=
  put_u64 (wcc_size w) +> encode_time (wcc_modify_time w) +> encode_time (wcc_change_time w).

Definition encode_wcc (w : WccData) : writer :=
  encode_option encode_wcc_attributes (wcc_before w) +> encode_post_attributes (wcc_after w).

Definition encode_stability (s : WriteStability.t) : Z :=
  match s with
  | WriteStability.Unstable => 0
  | WriteStability.DataSync => 1
  | WriteStability.FileSync => 2
  end.

Definition put_status (s : NfsStatus.t) : writer := put_u32 (NfsStatus.code s).

(** [encoder.write_u32(u32::try_from(n).map_err(|_| EncodeError::TooLarge(n))?)] *)
Definition put_length (n : Z) : writer := fun e =>
  match u32_try_from n with
  | None => Err (TooLarge n)
  | Some n => put_u32 n e
  end.

Definition encode_readdir_entry (entry : ReadDirEntry) : writer :=
  put_bool true +>
  put_u64 (rde_file_id entry) +>
  write_opaque (rde_name entry) +>
  put_u64 (rde_cookie entry) +>
  match rde_extension entry with
  | ReadDirEntryExtension.Basic => done_writing
  | ReadDirEntryExtension.Plus attributes handle =>
      encode_post_attributes attributes +> encode_option write_opaque handle
  end.

Fixpoint encode_entries (entries : list ReadDirEntry) : writer :=
  match entries with
  | [] => done_writing
  | entry :: entries => encode_readdir_entry entry +> encode_entries entries
  end.

(** ** The [EncodeNfsResult] trait *)

Class EncodeNfsResult (T : Type) : Type := encode_result : T -> writer.

#[global] Instance encode_getattr : EncodeNfsResult GetAttrResult.t := fun r =>
  match r with
  | GetAttrResult.Ok attributes => put_status NfsStatus.Ok +> encode_attributes attributes
  | GetAttrResult.Err status => put_status status
  end.

#[global] Instance encode_lookup : EncodeNfsResult LookupResult.t := fun r =>
  match r with
  | LookupResult.Ok object_handle object_attributes directory_attributes =>
      put_status NfsStatus.Ok +> write_opaque object_handle +>
      encode_post_attributes object_attributes +> encode_post_attributes directory_attributes
  | LookupResult.Err status directory_attributes =>
      put_status status +> encode_post_attributes directory_attributes
  end.

#[global] Instance encode_access : EncodeNfsResult AccessResult.t := fun r =>
  match r with
  | AccessResult.Ok attributes access =>
      put_status NfsStatus.Ok +> encode_post_attributes attributes +> put_u32 access
  | AccessResult.Err status attributes => put_status status +> encode_post_attributes attributes
  end.

#[global] Instance encode_read : EncodeNfsResult ReadResult.t := fun r =>
  match r with
  | ReadResult.Ok attributes data eof =>
      put_status NfsStatus.Ok +> encode_post_attributes attributes +>
      put_length (zlen data) +>
      put_bool eof +> write_opaque data
  | ReadResult.Err status attributes => put_status status +> encode_post_attributes attributes
  end.

#[global] Instance encode_write : EncodeNfsResult WriteResult.t := fun r =>
  match r with
  | WriteResult.Ok file_wcc count committed verifier =>
      put_status NfsStatus.Ok +> encode_wcc file_wcc +> put_u32 count +>
      put_u32 (encode_stability committed) +> put_fixed verifier
  | WriteResult.Err status file_wcc => put_status status +> encode_wcc file_wcc
  end.

#[global] Instance encode_create : EncodeNfsResult CreateResult.t := fun r =>
  match r with
  | CreateResult.Ok object_handle object_attributes directory_wcc =>
      put_status NfsStatus.Ok +> encode_option write_opaque object_handle +>
      encode_post_attributes object_attributes +> encode_wcc directory_wcc
  | CreateResult.Err status directory_wcc => put_status status +> encode_wcc directory_wcc
  end.

#[global] Instance encode_wcc_result : EncodeNfsResult WccResult.t := fun r =>
  match r with
  | WccResult.Ok object_wcc => put_status NfsStatus.Ok +> encode_wcc object_wcc
  | WccResult.Err status object_wcc => put_status status +> encode_wcc object_wcc
  end.

#[global] Instance encode_link : EncodeNfsResult LinkResult.t := fun r =>
  match r with
  | LinkResult.Ok object_attributes directory_wcc =>
      put_status NfsStatus.Ok +> encode_post_attributes object_attributes +>
      encode_wcc directory_wcc
  | LinkResult.Err status object_attributes directory_wcc =>
      put_status status +> encode_post_attributes object_attributes +> encode_wcc directory_wcc
  end.

#[global] Instance encode_readdir : EncodeNfsResult ReadDirResult.t := fun r =>
  match r with
  | ReadDirResult.Ok directory_attributes verifier entries eof =>
      put_status NfsStatus.Ok +> encode_post_attributes directory_attributes +>
      put_fixed verifier +> encode_entries entries +> put_bool false +> put_bool eof
  | ReadDirResult.Err status directory_attributes =>
      put_status status +> encode_post_attributes directory_attributes
  end.

#[global] Instance encode_fsstat : EncodeNfsResult FsStatResult.t := fun r =>
  match r with
  | FsStatResult.Ok attributes info =>
      put_status NfsStatus.Ok +> encode_post_attributes attributes +>
      put_u64 (total_bytes info) +> put_u64 (free_bytes info) +>
      put_u64 (available_bytes info) +> put_u64 (total_files info) +>
      put_u64 (free_files info) +> put_u64 (available_files info) +>
      put_u32 (invariant_seconds info)
  | FsStatResult.Err status attributes => put_status status +> encode_post_attributes attributes
  end.

#[global] Instance encode_pathconf : EncodeNfsResult PathConfResult.t := fun r =>
  match r with
  | PathConfResult.Ok attributes info =>
      put_status NfsStatus.Ok +> encode_post_attributes attributes +>
      put_u32 (max_links info) +> put_u32 (max_name_length info) +>
      put_bool (no_truncation info) +> put_bool (chown_restricted info) +>
      put_bool (case_insensitive info) +> put_bool (case_preserving info)
  | PathConfResult.Err status attributes => put_status status +> encode_post_attributes attributes
  end.

#[global] Instance encode_commit : EncodeNfsResult CommitResult.t := fun r =>
  match r with
  | CommitResult.Ok file_wcc verifier =>
      put_status NfsStatus.Ok +> encode_wcc file_wcc +> put_fixed verifier
  | CommitResult.Err status file_wcc => put_status status +> encode_wcc file_wcc
  end.

#[global] Instance encode_setattr : EncodeNfsResult SetAttrResult.t := fun r =>
  match r with
  | SetAttrResult.Ok object_wcc => put_status NfsStatus.Ok +> encode_wcc object_wcc
  | SetAttrResult.Err status object_wcc => put_status status +> encode_wcc object_wcc
  end.

#[global] Instance encode_rename : EncodeNfsResult RenameResult.t := fun r =>
  match r with
  | RenameResult.Ok from_directory_wcc to_directory_wcc =>
      put_status NfsStatus.Ok +> encode_wcc from_directory_wcc +> encode_wcc to_directory_wcc
  | RenameResult.Err status from_directory_wcc to_directory_wcc =>
      put_status status +> encode_wcc from_directory_wcc +> encode_wcc to_directory_wcc
  end.

#[global] Instance encode_readlink : EncodeNfsResult ReadLinkResult.t := fun r =>
  match r with
  | ReadLinkResult.Ok attributes path =>
      put_status NfsStatus.Ok +> encode_post_attributes attributes +> write_opaque path
  | ReadLinkResult.Err status attributes => put_status status +> encode_post_attributes attributes
  end.

#[global] Instance encode_fsinfo : EncodeNfsResult FsInfoResult.t := fun r =>
  match r with
  | FsInfoResult.Ok attributes info properties =>
      put_status NfsStatus.Ok +> encode_post_attributes attributes +>
      put_u32 (max_read info) +> put_u32 (preferred_read info) +> put_u32 (read_multiple info) +>
      put_u32 (max_write info) +> put_u32 (preferred_write info) +>
      put_u32 (write_multiple info) +> put_u32 (preferred_readdir info) +>
      put_u64 (max_file_size info) +> encode_time (time_granularity info) +> put_u32 properties
  | FsInfoResult.Err status attributes => put_status status +> encode_post_attributes attributes
  end.

(** ** READDIR truncation *)

(** The [while encoded_size > max_size] loop; [rev_entries] is the entry vector
    from its end, so [entries.pop()] takes its head. *)
Fixpoint truncate_loop (rev_entries : list ReadDirEntry) (encoded_size max_size : Z) (eof : bool)
    : result EncodeError (bool * (list ReadDirEntry * bool)) :=
  if encoded_size <=? max_size then Ok (true, (rev_entries, eof))
  else match rev_entries with
       | [] => Ok (false, ([], eof))
       | removed :: rest =>
           removed_encoder ← encode_readdir_entry removed new;
           truncate_loop rest (saturating_sub encoded_size (len removed_encoder)) max_size false
       end.

(** Returns the Boolean of the source and the updated result. *)
Definition truncate_readdir_result (r : ReadDirResult.t) (max_size : Z)
    : result EncodeError (bool * ReadDirResult.t) :=
  encoder ← encode_result r new;
  let encoded_size := saturating_sub (len encoder) 4 in
  if encoded_size <=? max_size then Ok (true, r)
  else match r with
       | ReadDirResult.Err _ _ => Ok (false, r)
       | ReadDirResult.Ok attributes verifier entries eof =>
           '(fits, (rev_entries, eof')) ← truncate_loop (rev entries) encoded_size max_size eof;
           Ok (fits, ReadDirResult.Ok attributes verifier (rev rev_entries) eof')
       end.

(** [truncate_readdir_result_reference]: re-encode after every removal. *)
Fixpoint reference_loop (attributes : option FileAttributes) (verifier : list byte)
    (rev_entries : list ReadDirEntry) (max_size : Z) (eof : bool)
    : result EncodeError (bool * ReadDirResult.t) :=
  let r := ReadDirResult.Ok attributes verifier (rev rev_entries) eof in
  encoder ← encode_result r new;
  if saturating_sub (len encoder) 4 <=? max_size then Ok (true, r)
  else match rev_entries with
       | [] => Ok (false, r)
       | _ :: rest => reference_loop attributes verifier rest max_size false
       end.

Definition truncate_readdir_result_reference (r : ReadDirResult.t) (max_size : Z)
    : result EncodeError (bool * ReadDirResult.t) :=
  match r with
  | ReadDirResult.Ok attributes verifier entries eof =>
      reference_loop attributes verifier (rev entries) max_size eof
  | ReadDirResult.Err _ _ =>
      encoder ← encode_result r new;
      if saturating_sub (len encoder) 4 <=? max_size then Ok (true, r) else Ok (false, r)
  end.

(** ** What the encoders emit *)
Section Emission.
Import Emit.

Definition time_ok (t : NfsTime) : Prop :=
  seconds t <= u32_max /\ nanoseconds t <= 999999999.

Definition attributes_ok (a : FileAttributes) : Prop :=
  time_ok (access_time a) /\ time_ok (modify_time a) /\ time_ok (change_time a).

Definition attributes_bytes (a : FileAttributes) : list byte :=
  be_bytes 4 (file_type_code (file_type a)) ++ be_bytes 4 (fa_mode a) ++
  be_bytes 4 (links a) ++ be_bytes 4 (fa_uid a) ++ be_bytes 4 (fa_gid a) ++
  be_bytes 8 (fa_size a) ++ be_bytes 8 (used a) ++
  be_bytes 4 (major (wire_device a)) ++ be_bytes 4 (minor (wire_device a)) ++
  be_bytes 8 (fs_id a) ++ be_bytes 8 (fa_file_id a) ++
  time_bytes (access_time a) ++ time_bytes (modify_time a) ++ time_bytes (change_time a).

Definition wcc_attributes_ok (w : WccAttributes) : Prop :=
  time_ok (wcc_modify_time w) /\ time_ok (wcc_change_time w).

Definition wcc_attributes_bytes (w : WccAttributes) : list byte :=
  be_bytes 8 (wcc_size w) ++ time_bytes (wcc_modify_time w) ++ time_bytes (wcc_change_time w).

Definition wcc_ok (w : WccData) : Prop :=
  option_wf wcc_attributes_ok (wcc_before w) /\ option_wf attributes_ok (wcc_after w).

Definition wcc_bytes (w : WccData) : list byte :=
  option_bytes wcc_attributes_bytes (wcc_before w) ++ option_bytes attributes_bytes (wcc_after w).

#[global] Instance emits_time t : Emits (encode_time t) (time_ok t) (time_bytes t).
Proof.
  pose proof (emits_andthen _ _ _ _ _ _ (emits_put_u32 (seconds t)) (emits_put_u32 (nanoseconds t))) as H.
  unfold encode_time, u32_try_from, time_ok. split.
  - intros e [H1 H2] Hl. zdec. by apply H.
  - intros e e' He. destruct (seconds t <=? u32_max) eqn:E1; [|done].
    destruct (999999999 <? nanoseconds t) eqn:E2; [done|]. zbool.
    apply H in He as [_ ->]. done.
  - intros e e' e1 He Hl. destruct (seconds t <=? u32_max) eqn:E1; [|done].
    destruct (999999999 <? nanoseconds t) eqn:E2; [done|]. exact (@emits_mono _ _ _ H _ _ _ He Hl).
Qed.

#[global] Instance emits_option {A} (f : A -> writer) P bytes o :
  (forall x, Emits (f x) (P x) (bytes x)) ->
  Emits (encode_option f o) (option_wf P o) (option_bytes bytes o).
Proof.
  intros Hf. destruct o as [x|]; simpl; [|apply emits_put_bool].
  eapply emits_iff; [apply _|tauto|done].
Qed.

#[global] Instance emits_attributes a :
  Emits (encode_attributes a) (attributes_ok a) (attributes_bytes a).
Proof. eapply emits_iff; [unfold encode_attributes; apply _|unfold attributes_ok; tauto|done]. Qed.

#[global] Instance emits_post_attributes o :
  Emits (encode_post_attributes o) (option_wf attributes_ok o) (option_bytes attributes_bytes o).
Proof. unfold encode_post_attributes. apply _. Qed.

#[global] Instance emits_wcc_attributes w :
  Emits (encode_wcc_attributes w) (wcc_attributes_ok w) (wcc_attributes_bytes w).
Proof. eapply emits_iff; [unfold encode_wcc_attributes; apply _|unfold wcc_attributes_ok; tauto|done]. Qed.

#[global] Instance emits_wcc w : Emits (encode_wcc w) (wcc_ok w) (wcc_bytes w).
Proof. unfold encode_wcc. apply _. Qed.

#[global] Instance emits_status s : Emits (put_status s) True (be_bytes 4 (NfsStatus.code s)).
Proof. apply emits_put_u32. Qed.

#[global] Instance emits_put_length n : Emits (put_length n) (n <= u32_max) (be_bytes 4 n).
Proof.
  unfold put_length, u32_try_from. split; intros *.
  - intros H _. by zdec.
  - destruct (_ <=? _) eqn:E; [|done]. zbool. by intros [= <-].
  - destruct (_ <=? _) eqn:E; [|done]. by intros _ _.
Qed.

#[global] Typeclasses Opaque encode_time encode_attributes put_status put_length encode_option
  encode_post_attributes encode_wcc_attributes encode_wcc encode_readdir_entry encode_entries.

(** *** Sizes *)

Lemma zlen_time_bytes t : zlen (time_bytes t) = 8.
Proof. unfold time_bytes. by autorewrite with zlen. Qed.
#[local] Hint Rewrite zlen_time_bytes : zlen.

Lemma zlen_attributes_bytes a : zlen (attributes_bytes a) = 84.
Proof. unfold attributes_bytes. by autorewrite with zlen. Qed.
#[local] Hint Rewrite zlen_attributes_bytes : zlen.

Lemma zlen_wcc_attributes_bytes w : zlen (wcc_attributes_bytes w) = 24.
Proof. unfold wcc_attributes_bytes. by autorewrite with zlen. Qed.
#[local] Hint Rewrite zlen_wcc_attributes_bytes : zlen.

Lemma zlen_option_bytes {A} (f : A -> list byte) o n :
  0 <= n -> (forall x, zlen (f x) <= n) -> 4 <= zlen (option_bytes f o) <= 4 + n.
Proof.
  intros Hn Hf. destruct o as [x|]; simpl; autorewrite with zlen; [|lia].
  specialize (Hf x). pose proof (zlen_nonneg (f x)). lia.
Qed.

Lemma zlen_post_bytes o : 4 <= zlen (option_bytes attributes_bytes o) <= 88.
Proof. apply (zlen_option_bytes _ _ 84); [lia|]. intros. by rewrite zlen_attributes_bytes. Qed.

Lemma zlen_wcc_bytes w : 8 <= zlen (wcc_bytes w) <= 116.
Proof.
  unfold wcc_bytes. rewrite zlen_app.
  pose proof (zlen_option_bytes wcc_attributes_bytes (wcc_before w) 24 ltac:(lia)
    (fun x => Z.eq_le_incl _ _ (zlen_wcc_attributes_bytes x))).
  pose proof (zlen_post_bytes (wcc_after w)). lia.
Qed.

(** A handle of at most 64 bytes takes at most 68 bytes on the wire. *)
Lemma zlen_opaque_64 h : zlen h <= 64 -> zlen (Format.opaque_bytes h) <= 68.
Proof.
  intros Hh. rewrite Format.zlen_opaque_bytes. unfold Format.xdr_padding.
  pose proof (zlen_nonneg h). pose proof (Z.div_mod (zlen h) 4 ltac:(lia)).
  pose proof (Z.mod_pos_bound (zlen h) 4 ltac:(lia)).
  destruct (decide (zlen h mod 4 = 0)) as [E|E].
  - rewrite E. change ((4 - 0) mod 4) with 0. lia.
  - rewrite Z.mod_small by lia. lia.
Qed.

(** *** READDIR entries *)

Definition extension_ok (x : ReadDirEntryExtension.t) : Prop :=
  match x with
  | ReadDirEntryExtension.Basic => True
  | ReadDirEntryExtension.Plus attributes handle =>
      option_wf attributes_ok attributes /\ option_wf (fun h => zlen h <= u32_max) handle
  end.
Definition extension_bytes (x : ReadDirEntryExtension.t) : list byte :=
  match x with
  | ReadDirEntryExtension.Basic => []
  | ReadDirEntryExtension.Plus attributes handle =>
      option_bytes attributes_bytes attributes ++ option_bytes Format.opaque_bytes handle
  end.
Definition entry_ok (x : ReadDirEntry) : Prop :=
  zlen (rde_name x) <= u32_max /\ extension_ok (rde_extension x).
Definition entry_bytes (x : ReadDirEntry) : list byte :=
  be_bytes 4 1 ++ be_bytes 8 (rde_file_id x) ++ Format.opaque_bytes (rde_name x) ++
  be_bytes 8 (rde_cookie x) ++ extension_bytes (rde_extension x).
Definition entries_bytes (l : list ReadDirEntry) : list byte := concat (map entry_bytes l).

#[global] Instance emits_entry x :
  Emits (encode_readdir_entry x) (entry_ok x) (entry_bytes x).
Proof.
  unfold encode_readdir_entry, entry_ok, entry_bytes.
  destruct (rde_extension x); simpl; (eapply emits_iff; [apply _|tauto|done]).
Qed.

#[global] Instance emits_entries l :
  Emits (encode_entries l) (Forall entry_ok l) (entries_bytes l).
Proof.
  induction l as [|x l IH].
  - eapply emits_iff; [apply emits_done_writing| |done]. split; auto using Forall_nil_2.
  - simpl. eapply emits_iff; [apply _| |done].
    split; [intros []; by apply Forall_cons_2|apply Forall_cons_1].
Qed.

Definition readdir_header_bytes (attributes : option FileAttributes) (verifier : list byte) : list byte :=
  be_bytes 4 (NfsStatus.code NfsStatus.Ok) ++ option_bytes attributes_bytes attributes ++ verifier.

Lemma emits_readdir_ok attributes verifier entries eof :
  Emits (encode_result (ReadDirResult.Ok attributes verifier entries eof))
    (option_wf attributes_ok attributes /\ Forall entry_ok entries)
    (readdir_header_bytes attributes verifier ++ entries_bytes entries ++
     be_bytes 4 0 ++ be_bytes 4 (u32_of_bool eof)).
Proof.
  eapply emits_iff; [unfold encode_result; simpl; apply _|tauto|].
  unfold readdir_header_bytes. by rewrite <- !app_assoc.
Qed.

Lemma zlen_readdir_header attributes verifier :
  4 <= zlen (readdir_header_bytes attributes verifier).
Proof. unfold readdir_header_bytes. zlen_lia. Qed.

Lemma encode_entries_app l1 l2 e :
  encode_entries (l1 ++ l2) e = (encode_entries l1 +> encode_entries l2) e.
Proof.
  revert e. induction l1 as [|y l IH]; intros e; [done|]. simpl.
  unfold andthen. destruct (encode_readdir_entry y e); simpl; [|done]. apply IH.
Qed.

Lemma andthen_ok (f g : writer) e e' :
  (f +> g) e = Ok e' <-> exists e1, f e = Ok e1 /\ g e1 = Ok e'.
Proof. apply bind_ok. Qed.

(** Dropping the last entry of an encodable listing keeps it encodable. *)
Lemma readdir_prefix_ok attributes verifier l x eof eof' e :
  encode_result (ReadDirResult.Ok attributes verifier (l ++ [x]) eof) new = Ok e ->
  exists e', encode_result (ReadDirResult.Ok attributes verifier l eof') new = Ok e' /\
  encode_readdir_entry x new = Ok (mk (entry_bytes x)) /\
  len e = len e' + zlen (entry_bytes x).
Proof.
  intros H. pose proof (emits_len _ _ _ _ _ (emits_readdir_ok _ _ _ _) H) as Hlen.
  assert (exists e', encode_result (ReadDirResult.Ok attributes verifier l eof') new = Ok e' /\
    exists e1 e2, encode_readdir_entry x e1 = Ok e2) as (e' & He' & e1 & e2 & Hx).
  { unfold encode_result in *. simpl in *.
    apply andthen_ok in H as (e1 & H1 & H). apply andthen_ok in H as (e2 & H2 & H).
    apply andthen_ok in H as (e3 & H3 & H). apply andthen_ok in H as (e4 & H4 & H).
    rewrite encode_entries_app in H4. apply andthen_ok in H4 as (e5 & H5 & H6).
    simpl in H6. apply andthen_ok in H6 as (e6 & H6 & _).
    eexists. split; [|by exists e5, e6].
    repeat (apply andthen_ok; eexists; split; [eassumption|]).
    apply andthen_ok. by eexists. }
  exists e'. split_and!; [done|exact (emits_new _ _ _ _ _ (emits_entry x) Hx)|].
  rewrite Hlen, (emits_len _ _ _ _ _ (emits_readdir_ok _ _ _ _) He').
  unfold entries_bytes. rewrite map_app, concat_app. simpl. rewrite app_nil_r.
  autorewrite with zlen. lia.
Qed.

(** The running size the optimised loop keeps is the size the reference
    recomputes. *)
Lemma truncate_loop_reference attributes verifier rev_entries max_size eof e :
  encode_result (ReadDirResult.Ok attributes verifier (rev rev_entries) eof) new = Ok e ->
  reference_loop attributes verifier rev_entries max_size eof =
  ('(fits, (rest, eof')) ← truncate_loop rev_entries (saturating_sub (len e) 4) max_size eof;
   Ok (fits, ReadDirResult.Ok attributes verifier (rev rest) eof')).
Proof.
  revert eof e. induction rev_entries as [|x l IH]; intros eof e He.
  - cbn [reference_loop truncate_loop]. rewrite He. simpl. by destruct (_ <=? _).
  - cbn [reference_loop truncate_loop]. rewrite He. cbn [mbind result_bind].
    destruct (_ <=? _) eqn:E; [done|].
    cbn [rev] in He. destruct (readdir_prefix_ok _ _ _ _ _ false _ He) as (e' & He' & Hx & Hlen).
    rewrite (IH _ _ He'), Hx. cbn [mbind result_bind]. do 2 f_equal.
    unfold saturating_sub, len at 3. simpl.
    pose proof (emits_len _ _ _ _ _ (emits_readdir_ok _ _ _ _) He') as Hl.
    rewrite !zlen_app in Hl. pose proof (zlen_readdir_header attributes verifier).
    unfold len at 1 in Hl. simpl in Hl. zlen_pos. lia.
Qed.
End Emission.

Lemma truncate_readdir_reference r max_size :
  truncate_readdir_result r max_size = truncate_readdir_result_reference r max_size.
Proof.
  unfold truncate_readdir_result, truncate_readdir_result_reference.
  destruct r as [attributes verifier entries eof|status attributes];
    [|destruct (encode_result _ new); simpl; [by destruct (_ <=? _)|done]].
  destruct (encode_result (ReadDirResult.Ok attributes verifier entries eof) new) as [e|err] eqn:E.
  - rewrite (truncate_loop_reference attributes verifier (rev entries) max_size eof e) by (by rewrite rev_involutive).
    cbn [mbind result_bind]. destruct (_ <=? max_size) eqn:Es; [|done].
    destruct (rev entries) as [|x l] eqn:Er; cbn [truncate_loop]; rewrite Es; cbn [mbind result_bind].
    + apply (f_equal (@rev _)) in Er. rewrite rev_involutive in Er. by rewrite Er.
    + by rewrite <- Er, rev_involutive.
  - destruct (rev entries) as [|x l] eqn:Er; cbn [reference_loop];
      rewrite <- Er, rev_involutive, E; done.
Qed.

(** What the reference keeps is a prefix that fits. *)
Lemma reference_loop_fits attributes verifier rev_entries max_size eof r :
  reference_loop attributes verifier rev_entries max_size eof = Ok (true, r) ->
  exists kept dropped eof' e, rev rev_entries = kept ++ dropped /\ r = ReadDirResult.Ok attributes verifier kept eof' /\
    encode_result r new = Ok e /\ saturating_sub (len e) 4 <= max_size.
Proof.
  revert eof. induction rev_entries as [|x l IH]; intros eof H; cbn [reference_loop] in H;
    apply bind_ok in H as (e & He & H); destruct (_ <=? _) eqn:Es in H; zbool.
  - injection H as <-. by exists [], [], eof, e.
  - done.
  - injection H as <-. exists (rev (x :: l)), [], eof, e. by rewrite app_nil_r.
  - destruct (IH _ H) as (kept & dropped & eof' & e' & Hk & Hr). exists kept, (dropped ++ [x]), eof', e'.
    cbn [rev]. by rewrite Hk, app_assoc.
Qed.

(** C23: the incremental READDIR truncation is the reference truncation. For
    every result and every size limit, the loop that keeps a running size and
    re-encodes only removed entries returns the same flag, the same entries and
    end-of-file marker, and the same encoding error, as re-encoding the whole
    reply after each removal. *)
Theorem truncate_readdir_result_equiv r max_size :
  truncate_readdir_result r max_size = truncate_readdir_result_reference r max_size.
Proof. apply truncate_readdir_reference. Qed.
