(* ===== verification/RpcRecord.v ===== *)
(** * [src/rpc/record.rs]: RPC record marking over a byte stream

    Reading assembles bounded fragments into one record; writing splits a record
    (contiguous, or held in three segments) into fragments and pushes them
    through a writer that may accept any prefix of what it is offered. *)
From Stdlib Require Import Strings.Byte.
From S2P Require Import Prelude.

Inductive IoErrorKind : Type := UnexpectedEof | ConnectionReset | WriteZero | OtherIo.
#[global] Instance IoErrorKind_eq_dec : EqDecision IoErrorKind.
Proof. solve_decision. Defined.

Record RecordLimits : Type := mkRecordLimits {
  max_record_size : Z;
  max_fragment_size : Z;
  max_fragments : Z
}.

Inductive RecordError : Type :=
| Io (kind : IoErrorKind)
| FragmentTooLarge (actual limit : Z)
| RecordTooLarge (limit : Z)
| TooManyFragments (limit : Z)
| EmptyFragment
| BudgetClosed.
#[global] Instance RecordError_eq_dec : EqDecision RecordError.
Proof. solve_decision. Defined.

Definition LAST_BIT : Z := 0x80000000.
Definition LENGTH_MASK : Z := 0x7fffffff.

(** ** Reading *)

(** The bytes a peer delivers before the stream ends with an I/O error. *)
Record stream : Type := mkStream { s_bytes : list byte; s_end : IoErrorKind }.

Definition read_exact (n : Z) (s : stream) : result RecordError (list byte * stream) :=
  if n <=? zlen (s_bytes s) then
    Ok (take (Z.to_nat n) (s_bytes s), mkStream (drop (Z.to_nat n) (s_bytes s)) (s_end s))
  else Err (Io (s_end s)).

Definition stream_read_u32 (s : stream) : result RecordError (Z * stream) :=
  '(b, s') ← read_exact 4 s; Ok (be_value b, s').

(** A growing vector: contents and allocated capacity. *)
Record buffer : Type := mkBuffer { contents : list byte; capacity : Z }.

Section Reading.
(** The allocator: the capacity granted for a request, or failure. *)
Context (alloc : Z -> option Z).

Definition reserve_record (record : buffer) (required limit : Z) : result RecordError buffer :=
  if required <=? capacity record then Ok record
  else
    let target := Z.min (Z.max (saturating_mul (capacity record) 2) required) limit in
    let additional := saturating_sub target (zlen (contents record)) in
    match alloc (zlen (contents record) + additional) with
    | Some granted => Ok (mkBuffer (contents record) granted)
    | None => Err (RecordTooLarge limit)
    end.

(** The checks and the body read of one fragment whose header is [header]. *)
Definition read_fragment (limits : RecordLimits) (header : Z) (record : buffer) (s : stream)
    : result RecordError (bool * buffer * stream) :=
  let last := negb (Z.land header LAST_BIT =? 0) in
  let length := Z.land header LENGTH_MASK in
  if (length =? 0) && negb last then Err EmptyFragment
  else if max_fragment_size limits <? length then
    Err (FragmentTooLarge length (max_fragment_size limits))
  else match checked_add (zlen (contents record)) length with
  | None => Err (RecordTooLarge (max_record_size limits))
  | Some new_length =>
      if max_record_size limits <? new_length then Err (RecordTooLarge (max_record_size limits))
      else
        record ← reserve_record record new_length (max_record_size limits);
        '(body, s') ← read_exact length s;
        Ok (last, mkBuffer (contents record ++ body) (capacity record), s')
  end.

(** [for fragment_index in 0..limits.max_fragments]; [n] iterations are left. *)
Fixpoint read_fragments (n : nat) (fragment_index : Z) (limits : RecordLimits)
    (record : buffer) (s : stream) : result RecordError (list byte * stream) :=
  match n with
  | O => Err (TooManyFragments (max_fragments limits))
  | S n' =>
      '(header, s1) ← stream_read_u32 s;
      '(last, record', s2) ← read_fragment limits header record s1;
      if (last : bool) then Ok (contents record', s2)
      else if fragment_index + 1 =? max_fragments limits then
        Err (TooManyFragments (max_fragments limits))
      else read_fragments n' (fragment_index + 1) limits record' s2
  end.

Definition read_record (limits : RecordLimits) (s : stream)
    : result RecordError (list byte * stream) :=
  read_fragments (Z.to_nat (max_fragments limits)) 0 limits (mkBuffer [] 0) s.

(** *** Aggregate byte budget *)

(** [tokio::sync::Semaphore] as the source uses it. *)
Record semaphore : Type := mkSemaphore { permits : Z; closed : bool }.

(** The outcome of awaiting: finished, or parked until permits are released. *)
Inductive awaited (A : Type) : Type := Ready (a : A) | Pending.
Arguments Ready {A} a.
Arguments Pending {A}.

(** [acquire_many_owned(n)] *)
Definition acquire_many (n : Z) (sem : semaphore) : awaited (result RecordError semaphore) :=
  if closed sem then Ready (Err BudgetClosed)
  else if n <=? permits sem then Ready (Ok (mkSemaphore (permits sem - n) (closed sem)))
  else Pending.

(** The loop of [read_record_budgeted]: the header is already read. *)
Fixpoint read_fragments_budgeted (n : nat) (fragment_index : Z) (limits : RecordLimits)
    (header : Z) (record : buffer) (s : stream) : result RecordError (list byte * stream) :=
  match n with
  | O => Err (TooManyFragments (max_fragments limits))
  | S n' =>
      '(last, record', s2) ← read_fragment limits header record s;
      if (last : bool) then Ok (contents record', s2)
      else if fragment_index + 1 =? max_fragments limits then
        Err (TooManyFragments (max_fragments limits))
      else
        '(header', s3) ← stream_read_u32 s2;
        read_fragments_budgeted n' (fragment_index + 1) limits header' record' s3
  end.

(** On success the returned semaphore no longer holds the record's reservation;
    on an error the reservation has been dropped. *)
Definition read_record_budgeted (limits : RecordLimits) (sem : semaphore) (s : stream)
    : awaited (result RecordError (list byte * stream) * semaphore) :=
  match stream_read_u32 s with
  | Err e => Ready (Err e, sem)
  | Ok (header, s1) =>
      let first_length := Z.land header LENGTH_MASK in
      if (first_length =? 0) && (Z.land header LAST_BIT =? 0) then Ready (Err EmptyFragment, sem)
      else if max_fragment_size limits <? first_length then
        Ready (Err (FragmentTooLarge first_length (max_fragment_size limits)), sem)
      else if max_record_size limits <? first_length then
        Ready (Err (RecordTooLarge (max_record_size limits)), sem)
      else match u32_try_from (max_record_size limits) with
      | None => Ready (Err (RecordTooLarge u32_max), sem)
      | Some reservation =>
          match acquire_many reservation sem with
          | Pending => Pending
          | Ready (Err e) => Ready (Err e, sem)
          | Ready (Ok sem') =>
              match read_fragments_budgeted (Z.to_nat (max_fragments limits)) 0 limits
                      header (mkBuffer [] 0) s1 with
              | Ok r => Ready (Ok r, sem')
              | Err e => Ready (Err e, sem)
              end
          end
      end
  end.
End Reading.
Arguments Ready {A} a.
Arguments Pending {A}.

(** ** Writing *)

(** What the transport does with the next write call. *)
Inductive write_step : Type := Accept (n : Z) | FailWith (kind : IoErrorKind).

(** An asynchronous writer: bytes already sent, whether it takes vectored
    writes, and its future behaviour (everything is accepted once the plan is
    used up). *)
Record sink : Type := mkSink { written : list byte; vectored : bool; plan : list write_step }.

Definition sink_m : Type := sink -> result RecordError unit * sink.
Definition sink_then (f g : sink_m) : sink_m := fun k =>
  match f k with
  | (Ok _, k') => g k'
  | (Err e, k') => (Err e, k')
  end.

(** [AsyncWriteExt::write_all]: retry until the buffer is consumed. *)
Fixpoint write_all_plan (p : list write_step) (buf out : list byte)
    : result RecordError unit * (list byte * list write_step) :=
  if zlen buf =? 0 then (Ok (), (out, p))
  else match p with
  | [] => (Ok (), (out ++ buf, []))
  | FailWith kind :: p' => (Err (Io kind), (out, p'))
  | Accept n :: p' =>
      let n := Z.max 0 (Z.min n (zlen buf)) in
      if n =? 0 then (Err (Io WriteZero), (out, p'))
      else write_all_plan p' (drop (Z.to_nat n) buf) (out ++ take (Z.to_nat n) buf)
  end.

Definition write_all (buf : list byte) : sink_m := fun k =>
  let '(r, (out, p)) := write_all_plan (plan k) buf (written k) in
  (r, mkSink out (vectored k) p).

(** [IoSlice::advance_slices] *)
Fixpoint advance_slices (slices : list (list byte)) (n : Z) : list (list byte) :=
  match slices with
  | [] => []
  | b :: rest => if zlen b <=? n then advance_slices rest (n - zlen b)
                 else drop (Z.to_nat n) b :: rest
  end.

(** The vectored loop of [write_all_slices]. *)
Fixpoint write_vectored_plan (p : list write_step) (slices : list (list byte)) (out : list byte)
    : result RecordError unit * (list byte * list write_step) :=
  match slices with
  | [] => (Ok (), (out, p))
  | _ =>
      let total := concat slices in
      match p with
      | [] =>
          if zlen total =? 0 then (Err (Io WriteZero), (out, []))
          else (Ok (), (out ++ total, []))
      | FailWith kind :: p' => (Err (Io kind), (out, p'))
      | Accept n :: p' =>
          let n := Z.max 0 (Z.min n (zlen total)) in
          if n =? 0 then (Err (Io WriteZero), (out, p'))
          else write_vectored_plan p' (advance_slices slices n) (out ++ take (Z.to_nat n) total)
      end
  end.

Fixpoint write_each (slices : list (list byte)) : sink_m :=
  match slices with
  | [] => fun k => (Ok (), k)
  | b :: rest => sink_then (write_all b) (write_each rest)
  end.

Definition write_all_slices (slices : list (list byte)) : sink_m := fun k =>
  if vectored k then
    let '(r, (out, p)) := write_vectored_plan (plan k) slices (written k) in
    (r, mkSink out (vectored k) p)
  else write_each slices k.

Definition fragment_header (length : Z) (last : bool) : list byte :=
  be_bytes 4 (Z.lor length (if last then LAST_BIT else 0)).

(** [record.chunks(n)] *)
Fixpoint chunks_fuel (fuel : nat) (n : Z) (l : list byte) : list (list byte) :=
  match fuel with
  | O => []
  | S fuel' =>
      if zlen l =? 0 then []
      else take (Z.to_nat n) l :: chunks_fuel fuel' n (drop (Z.to_nat n) l)
  end.
Definition chunks (n : Z) (l : list byte) : list (list byte) := chunks_fuel (length l) n l.

Fixpoint write_chunks (fragments : list (list byte)) : sink_m :=
  match fragments with
  | [] => fun k => (Ok (), k)
  | fragment :: rest =>
      let fin := match rest with [] => true | _ => false end in
      if LENGTH_MASK <? zlen fragment then
        fun k => (Err (FragmentTooLarge (zlen fragment) LENGTH_MASK), k)
      else sink_then (write_all_slices [fragment_header (zlen fragment) fin; fragment])
                     (write_chunks rest)
  end.

Definition write_fragments (record : list byte) (max_fragment_size : Z) : sink_m :=
  if max_fragment_size =? 0 then fun k => (Err (FragmentTooLarge (zlen record) 0), k)
  else if zlen record =? 0 then write_all (be_bytes 4 LAST_BIT)
  else write_chunks (chunks max_fragment_size record).

Definition validate_record_length (length : Z) (limits : RecordLimits) : result RecordError unit :=
  if max_record_size limits <? length then Err (RecordTooLarge (max_record_size limits))
  else
    let fragment_count :=
      if length =? 0 then 1
      else if max_fragment_size limits =? 0 then usize_max
      else div_ceil length (max_fragment_size limits) in
    if max_fragments limits <? fragment_count then Err (TooManyFragments (max_fragments limits))
    else if max_fragment_size limits =? 0 then Err (FragmentTooLarge length 0)
    else Ok ().

Definition validate_record (record : list byte) (limits : RecordLimits) : result RecordError unit :=
  validate_record_length (zlen record) limits.

Definition write_record_limited (record : list byte) (limits : RecordLimits) : sink_m := fun k =>
  match validate_record record limits with
  | Err e => (Err e, k)
  | Ok _ => write_fragments record (max_fragment_size limits) k
  end.

Definition write_record (record : list byte) (max_fragment_size : Z) : sink_m :=
  write_record_limited record (mkRecordLimits usize_max max_fragment_size usize_max).

(** *** Segmented records *)

(** The persistent cursor: segment index and offset inside it. *)
Record cursor : Type := mkCursor { segment_index : nat; segment_offset : Z }.

(** [while index < segments.len() && offset == segments[index].len()] *)
Fixpoint skip_exhausted (fuel : nat) (segments : list (list byte)) (c : cursor) : cursor :=
  match fuel, segments !! segment_index c with
  | S fuel', Some segment =>
      if segment_offset c =? zlen segment
      then skip_exhausted fuel' segments (mkCursor (S (segment_index c)) 0)
      else c
  | _, _ => c
  end.

(** The inner gathering loop. [slots] entries of the four-slice array are free;
    writing past them would panic, which is [None]. *)
Fixpoint gather (slots : nat) (segments : list (list byte)) (total_length : Z) (c : cursor)
    (remaining_fragment : Z) : option (result RecordError (list (list byte))) :=
  if remaining_fragment =? 0 then Some (Ok [])
  else
    let c := skip_exhausted (length segments) segments c in
    match segments !! segment_index c with
    | None => Some (Err (RecordTooLarge total_length))
    | Some segment =>
        let n := Z.min remaining_fragment (zlen segment - segment_offset c) in
        match slots with
        | O => None
        | S slots' =>
            match gather slots' segments total_length (mkCursor (segment_index c) (segment_offset c + n))
                    (remaining_fragment - n) with
            | Some (Ok slices) =>
                Some (Ok (slice (segment_offset c) (segment_offset c + n) segment :: slices))
            | other => other
            end
        end
    end.

(** [advance_segments]: indexing past the last segment panics ([None]). *)
Fixpoint advance_segments (fuel : nat) (segments : list (list byte)) (c : cursor) (count : Z)
    : option cursor :=
  if count =? 0 then Some c
  else match fuel with
  | O => None
  | S fuel' =>
      let c := skip_exhausted (length segments) segments c in
      match segments !! segment_index c with
      | None => None
      | Some segment =>
          let n := Z.min (zlen segment - segment_offset c) count in
          advance_segments fuel' segments (mkCursor (segment_index c) (segment_offset c + n))
            (count - n)
      end
  end.

(** [while remaining_total > 0]; [None] is a panic or a loop that never ends. *)
Fixpoint segmented_loop (fuel : nat) (segments : list (list byte)) (total_length : Z) (c : cursor)
    (remaining_total max_fragment_size : Z) (k : sink)
    : option (result RecordError unit * sink) :=
  if remaining_total =? 0 then Some (Ok (), k)
  else match fuel with
  | O => None
  | S fuel' =>
      let fragment_length := Z.min remaining_total max_fragment_size in
      if LENGTH_MASK <? fragment_length then
        Some (Err (FragmentTooLarge fragment_length LENGTH_MASK), k)
      else
        let last := fragment_length =? remaining_total in
        match gather 3 segments total_length c fragment_length with
        | None => None
        | Some (Err e) => Some (Err e, k)
        | Some (Ok slices) =>
            match write_all_slices (fragment_header fragment_length last :: slices) k with
            | (Err e, k') => Some (Err e, k')
            | (Ok _, k') =>
                match advance_segments (S (length segments)) segments c fragment_length with
                | None => None
                | Some c' =>
                    segmented_loop fuel' segments total_length c' (remaining_total - fragment_length)
                      max_fragment_size k'
                end
            end
        end
  end.

Definition write_segmented_fragments (segments : list (list byte)) (total_length max_fragment_size : Z)
    (k : sink) : option (result RecordError unit * sink) :=
  if total_length =? 0 then Some (write_all (be_bytes 4 LAST_BIT) k)
  else segmented_loop (Z.to_nat total_length) segments total_length (mkCursor 0 0) total_length
         max_fragment_size k.

(** [segments.iter().try_fold(0, |length, segment| length.checked_add(segment.len()))] *)
Fixpoint segments_length (segments : list (list byte)) (length : Z) : option Z :=
  match segments with
  | [] => Some length
  | segment :: rest => length' ← checked_add length (zlen segment); segments_length rest length'
  end.

Definition write_record_segments_limited (segments : list (list byte)) (limits : RecordLimits)
    (k : sink) : option (result RecordError unit * sink) :=
  match segments_length segments 0 with
  | None => Some (Err (RecordTooLarge (max_record_size limits)), k)
  | Some length =>
      match validate_record_length length limits with
      | Err e => Some (Err e, k)
      | Ok _ => write_segmented_fragments segments length (max_fragment_size limits) k
      end
  end.

(** ** The record-marking format *)

(** The bytes of a list of fragments; the last one carries the final bit. *)
Fixpoint frames (cs : list (list byte)) : list byte :=
  match cs with
  | [] => []
  | c :: rest =>
      fragment_header (zlen c) (match rest with [] => true | _ => false end) ++ c ++ frames rest
  end.

(** The framing the writers produce. *)
Definition framed (max_fragment_size : Z) (record : list byte) : list byte :=
  if zlen record =? 0 then be_bytes 4 LAST_BIT else frames (chunks max_fragment_size record).

(** Fragment lists the reader accepts. *)
Fixpoint nonempty_but_last (cs : list (list byte)) : Prop :=
  match cs with
  | [] => True
  | [_] => True
  | c :: rest => c <> [] /\ nonempty_but_last rest
  end.

Definition fragments_ok (limits : RecordLimits) (cs : list (list byte)) : Prop :=
  cs <> [] /\ zlen cs <= max_fragments limits /\
  Forall (fun c => zlen c <= max_fragment_size limits /\ zlen c <= LENGTH_MASK) cs /\
  nonempty_but_last cs /\ zlen (concat cs) <= max_record_size limits.

(** *** Headers *)

Lemma land_small_last n : 0 <= n <= LENGTH_MASK -> Z.land n LAST_BIT = 0.
Proof.
  intros Hn. apply Z.bits_inj'. intros i Hi. rewrite Z.land_spec, Z.bits_0.
  change LAST_BIT with (2 ^ 31). rewrite Z.pow2_bits_eqb by lia.
  destruct (31 =? i) eqn:E; [|by rewrite andb_false_r]. zbool. subst i.
  rewrite andb_true_r, Z.testbit_odd, Z.shiftr_div_pow2 by lia.
  unfold LENGTH_MASK in Hn. change (2 ^ 31) with 2147483648.
  by rewrite Z.div_small by lia.
Qed.

Lemma land_mask n : 0 <= n <= LENGTH_MASK -> Z.land n LENGTH_MASK = n.
Proof.
  intros Hn. change LENGTH_MASK with (Z.ones 31). rewrite Z.land_ones by lia.
  apply Z.mod_small. unfold LENGTH_MASK in Hn. change (2 ^ 31) with 2147483648. lia.
Qed.

Lemma lor_last n : 0 <= n <= LENGTH_MASK -> Z.lor n LAST_BIT = n + LAST_BIT.
Proof.
  intros Hn. pose proof (land_small_last n Hn).
  rewrite Z.add_nocarry_lxor, Z.lxor_lor; done.
Qed.

Lemma header_fields n (last : bool) :
  0 <= n <= LENGTH_MASK ->
  let h := Z.lor n (if last then LAST_BIT else 0) in
  u32_range h /\ Z.land h LENGTH_MASK = n /\ negb (Z.land h LAST_BIT =? 0) = last.
Proof.
  intros Hn. destruct last; simpl.
  - split_and!.
    + rewrite lor_last by done. unfold LENGTH_MASK, LAST_BIT, u32_range, u32_max in *. lia.
    + rewrite Z.land_lor_distr_l, land_mask by done. apply Z.lor_0_r.
    + rewrite Z.land_lor_distr_l, land_small_last by done. done.
  - rewrite Z.lor_0_r. split_and!.
    + unfold LENGTH_MASK, u32_range, u32_max in *. lia.
    + by apply land_mask.
    + by rewrite land_small_last.
Qed.

(** Every 32-bit header is its length and its final bit. *)
Lemma header_decompose h :
  u32_range h ->
  0 <= Z.land h LENGTH_MASK <= LENGTH_MASK /\
  h = Z.lor (Z.land h LENGTH_MASK) (if negb (Z.land h LAST_BIT =? 0) then LAST_BIT else 0).
Proof.
  intros Hh. unfold u32_range, u32_max in Hh.
  destruct (decide (h < LAST_BIT)) as [Hs|Hs].
  - assert (0 <= h <= LENGTH_MASK) as Hn by (unfold LENGTH_MASK, LAST_BIT in *; lia).
    rewrite land_small_last, land_mask by done. simpl. rewrite Z.lor_0_r. done.
  - assert (exists n, 0 <= n <= LENGTH_MASK /\ h = Z.lor n LAST_BIT) as (n & Hn & ->).
    { exists (h - LAST_BIT).
      assert (0 <= h - LAST_BIT <= LENGTH_MASK) by (unfold LENGTH_MASK, LAST_BIT in *; lia).
      split; [done|]. rewrite lor_last by done. lia. }
    destruct (header_fields n true Hn) as (_ & -> & ->). done.
Qed.

Lemma zlen_fragment_header n last : zlen (fragment_header n last) = 4.
Proof. unfold fragment_header. by autorewrite with zlen. Qed.
#[export] Hint Rewrite zlen_fragment_header : zlen.

(** *** Streams *)

Lemma read_exact_app n s bs tail :
  s_bytes s = bs ++ tail -> zlen bs = n ->
  read_exact n s = Ok (bs, mkStream tail (s_end s)).
Proof.
  intros Hs <-. unfold read_exact. rewrite Hs. autorewrite with zlen. zlen_pos. zdec.
  by rewrite take_zlen_app, drop_zlen_app.
Qed.

Lemma read_exact_inv n s bs s' :
  0 <= n -> read_exact n s = Ok (bs, s') ->
  zlen bs = n /\ s_bytes s = bs ++ s_bytes s' /\ s_end s' = s_end s.
Proof.
  unfold read_exact. intros Hn H. destruct (n <=? zlen (s_bytes s)) eqn:E; [|done].
  zbool. simplify_eq. simpl. rewrite take_drop. split_and!; [|done|done].
  apply zlen_take. lia.
Qed.

Lemma stream_read_u32_header n (last : bool) s tail :
  0 <= n <= LENGTH_MASK -> s_bytes s = fragment_header n last ++ tail ->
  stream_read_u32 s = Ok (Z.lor n (if last then LAST_BIT else 0), mkStream tail (s_end s)).
Proof.
  intros Hn Hs. unfold stream_read_u32.
  rewrite (read_exact_app 4 s _ tail Hs) by apply zlen_fragment_header.
  simpl. unfold fragment_header. rewrite be_value_be4; [done|]. by apply header_fields.
Qed.

Lemma stream_read_u32_inv s h s' :
  stream_read_u32 s = Ok (h, s') ->
  u32_range h /\ s_bytes s = be_bytes 4 h ++ s_bytes s' /\ s_end s' = s_end s.
Proof.
  unfold stream_read_u32. intros H. apply bind_ok in H as ([b s1] & H1 & [= <- <-]).
  apply read_exact_inv in H1 as (Hl & Hs & He); [|lia].
  assert (length b = 4%nat) as Hb by (unfold zlen in Hl; lia).
  split_and!; [by apply be_value_u32| |done].
  rewrite Hs, <- Hb. by rewrite be_bytes_be_value.
Qed.

(** *** The reader accepts exactly the well-formed fragment lists *)
Section ReaderSpec.
Context (alloc : Z -> option Z).

Lemma read_fragment_inv limits h record s last record' s' :
  u32_range h -> read_fragment alloc limits h record s = Ok (last, record', s') ->
  exists c, h = Z.lor (zlen c) (if last then LAST_BIT else 0) /\
    zlen c <= LENGTH_MASK /\ zlen c <= max_fragment_size limits /\
    (last = false -> c <> []) /\ contents record' = contents record ++ c /\
    zlen (contents record') <= max_record_size limits /\
    s_bytes s = c ++ s_bytes s' /\ s_end s' = s_end s.
Proof.
  intros Hh H. destruct (header_decompose h Hh) as [Hm Hd]. revert H Hd.
  unfold read_fragment. set (l := negb (Z.land h LAST_BIT =? 0)). intros H Hd.
  destruct (_ && _) eqn:E1; [done|]. destruct (_ <? _) eqn:E2 in H; [done|].
  destruct (checked_add _ _) as [nl|] eqn:E3; [|done].
  destruct (_ <? _) eqn:E4 in H; [done|].
  apply bind_ok in H as (rb & Hr & H). apply bind_ok in H as ([body s1] & Hb & [= -> <- <-]).
  assert (contents rb = contents record) as Hc.
  { unfold reserve_record in Hr. repeat case_in Hr; done. }
  apply read_exact_inv in Hb as (Hl & Hs & He); [|lia].
  unfold checked_add in E3. case_in E3. zbool.
  exists body. rewrite Hl. simpl. rewrite Hc, zlen_app, Hl.
  split_and!; try done; try lia.
  intros Hlast ->. rewrite Hlast in E1. change (zlen []) with 0 in Hl.
  rewrite <- Hl in E1. done.
Qed.

Lemma read_fragments_sound n idx limits record s r s' :
  0 <= idx -> idx + Z.of_nat n <= max_fragments limits ->
  read_fragments alloc n idx limits record s = Ok (r, s') ->
  exists cs, cs <> [] /\ zlen cs <= Z.of_nat n /\
    Forall (fun c => zlen c <= max_fragment_size limits /\ zlen c <= LENGTH_MASK) cs /\
    nonempty_but_last cs /\ r = contents record ++ concat cs /\
    zlen r <= max_record_size limits /\
    s_bytes s = frames cs ++ s_bytes s' /\ s_end s' = s_end s.
Proof.
  revert idx record s. induction n as [|n IH]; intros idx record s Hi Hn H; [done|].
  cbn [read_fragments] in H.
  apply bind_ok in H as ([h s1] & Hh & H).
  apply stream_read_u32_inv in Hh as (Hu & Hs & He).
  apply bind_ok in H as ([[last record'] s2] & Hf & H).
  apply read_fragment_inv in Hf as (c & Hd & Hm & Hmf & Hne & Hc & Hlen & Hs1 & He1); [|done].
  destruct last.
  - injection H as <- <-. exists [c]. split_and!; try done.
    + rewrite zlen_cons, zlen_nil. lia.
    + by apply Forall_singleton.
    + simpl. by rewrite app_nil_r.
    + simpl. unfold fragment_header. rewrite Hs, Hd, Hs1, app_nil_r. by rewrite <- !app_assoc.
    + congruence.
  - destruct (_ =? _) eqn:E; [done|]. zbool.
    apply IH in H as (cs & Hcs & Hl & Hall & Hnl & Hr & Hb & Hs2 & He2); [|lia|lia].
    exists (c :: cs). destruct cs as [|c2 cs]; [done|]. split_and!; try done.
    + rewrite zlen_cons. lia.
    + by apply Forall_cons_2.
    + split; [by apply Hne|done].
    + rewrite Hr, Hc. cbn [concat]. by rewrite <- !app_assoc.
    + change (frames (c :: c2 :: cs)) with (fragment_header (zlen c) false ++ c ++ frames (c2 :: cs)).
      unfold fragment_header. rewrite Hs, Hd, Hs1, Hs2. by rewrite <- !app_assoc.
    + congruence.
Qed.

(** The allocator grants requests up to the record limit. *)
Definition alloc_grants (limit : Z) : Prop :=
  forall n, n <= limit -> exists c, alloc n = Some c.

Lemma read_fragment_complete limits c (last : bool) record s tail :
  alloc_grants (max_record_size limits) -> max_record_size limits <= usize_max ->
  zlen c <= LENGTH_MASK -> zlen c <= max_fragment_size limits -> (last = false -> c <> []) ->
  zlen (contents record ++ c) <= max_record_size limits ->
  s_bytes s = c ++ tail ->
  exists record', contents record' = contents record ++ c /\
  read_fragment alloc limits (Z.lor (zlen c) (if last then LAST_BIT else 0)) record s =
    Ok (last, record', mkStream tail (s_end s)).
Proof.
  intros Ha Hu Hm Hmf Hne Hlen Hs. pose proof (zlen_nonneg c). rewrite zlen_app in Hlen.
  destruct (header_fields (zlen c) last ltac:(lia)) as (_ & E1 & E2).
  unfold read_fragment. rewrite E1, E2.
  assert ((zlen c =? 0) && negb last = false) as ->.
  { destruct last; [by rewrite andb_false_r|]. rewrite andb_true_r. apply Z.eqb_neq.
    intros Hz. apply zlen_nil_inv in Hz. by apply Hne. }
  unfold checked_add. zdec.
  assert (exists rb, reserve_record alloc record (zlen (contents record) + zlen c)
            (max_record_size limits) = Ok rb /\ contents rb = contents record) as (rb & -> & Hc).
  { unfold reserve_record. destruct (_ <=? capacity record); [by eexists|].
    edestruct (Ha (zlen (contents record) +
      saturating_sub (Z.min (Z.max (saturating_mul (capacity record) 2)
        (zlen (contents record) + zlen c)) (max_record_size limits)) (zlen (contents record))))
      as [g ->]; [|by eexists].
    unfold saturating_sub. lia. }
  simpl. rewrite (read_exact_app _ _ _ _ Hs eq_refl). simpl.
  eexists. split; [|done]. simpl. by rewrite Hc.
Qed.

Lemma read_fragments_complete n idx limits record s cs tail :
  alloc_grants (max_record_size limits) -> max_record_size limits <= usize_max ->
  idx + Z.of_nat n = max_fragments limits -> cs <> [] -> zlen cs <= Z.of_nat n ->
  Forall (fun c => zlen c <= max_fragment_size limits /\ zlen c <= LENGTH_MASK) cs ->
  nonempty_but_last cs -> zlen (contents record ++ concat cs) <= max_record_size limits ->
  s_bytes s = frames cs ++ tail ->
  read_fragments alloc n idx limits record s =
    Ok (contents record ++ concat cs, mkStream tail (s_end s)).
Proof.
  intros Ha Hu. revert n idx record s. induction cs as [|c cs IH]; [done|].
  intros n idx record s Hn _ Hl Hall Hnl Hlen Hs.
  rewrite zlen_cons in Hl. pose proof (zlen_nonneg cs).
  destruct n as [|n]; [lia|]. cbn [read_fragments].
  apply Forall_cons_1 in Hall as [[Hmf Hm] Hall].
  cbn [frames] in Hs. rewrite <- !app_assoc in Hs.
  pose proof (zlen_nonneg c).
  rewrite (stream_read_u32_header (zlen c) _ s _ (conj H0 Hm) Hs). cbn [mbind result_bind].
  cbn [concat] in Hlen. rewrite app_assoc in Hlen.
  pose proof (zlen_nonneg (concat cs)).
  edestruct (read_fragment_complete limits c (match cs with [] => true | _ => false end) record
    (mkStream (c ++ frames cs ++ tail) (s_end s)) (frames cs ++ tail)) as (record' & Hc & ->); try done.
  { intros Hcs. destruct cs; [done|]. by apply Hnl. }
  { rewrite zlen_app in Hlen. lia. }
  cbn [mbind result_bind]. destruct cs as [|c2 cs].
  - cbn [concat frames app]. by rewrite Hc, app_nil_r.
  - rewrite zlen_cons in Hl. pose proof (zlen_nonneg cs). zdec. simpl s_end.
    rewrite IH; try done; try (rewrite ?zlen_cons; lia).
    + rewrite Hc. cbn [concat]. by rewrite <- !app_assoc.
    + by destruct Hnl.
    + by rewrite Hc.
Qed.

Lemma read_record_spec limits s r s' :
  alloc_grants (max_record_size limits) ->
  0 <= max_fragments limits -> max_record_size limits <= usize_max ->
  read_record alloc limits s = Ok (r, s') <->
  exists cs, fragments_ok limits cs /\ r = concat cs /\
    s_bytes s = frames cs ++ s_bytes s' /\ s_end s' = s_end s.
Proof.
  intros Ha Hf Hm. unfold read_record. split.
  - intros H. apply read_fragments_sound in H as (cs & ? & ? & ? & ? & -> & ? & ? & ?); [|lia|lia].
    exists cs. simpl in *. rewrite Z2Nat.id in * by done. done.
  - intros (cs & (Hne & Hl & Hall & Hnl & Hlen) & -> & Hs & He).
    rewrite (read_fragments_complete _ _ _ _ _ cs (s_bytes s')); try done.
    + destruct s'; simpl in *. by subst.
    + lia.
    + by rewrite Z2Nat.id.
Qed.

(** C19: the reader accepts exactly the record-marking language. It returns the
    record [r] if and only if the stream starts with the framing of some list of
    fragments that respects the three limits (fragment size, number of fragments,
    record size) and whose only possibly empty fragment is the last one, and [r]
    is the concatenation of those fragments; precisely these bytes are consumed. *)
Theorem read_record_iff limits s r s' :
  alloc_grants (max_record_size limits) ->
  0 <= max_fragments limits -> max_record_size limits <= usize_max ->
  read_record alloc limits s = Ok (r, s') <->
  exists cs, fragments_ok limits cs /\ r = concat cs /\
    s_bytes s = frames cs ++ s_bytes s' /\ s_end s' = s_end s.
Proof. apply read_record_spec. Qed.
End ReaderSpec.

Lemma read_record_iff_witness :
  read_record Some (mkRecordLimits 8 2 4) (mkStream (frames [[x01; x02]; []]) UnexpectedEof) =
    Ok ([x01; x02], mkStream [] UnexpectedEof).
Proof.
  apply (read_record_iff Some (mkRecordLimits 8 2 4));
    [intros n _; by exists n|simpl; lia|done|].
  exists [[x01; x02]; []]. split_and!; try done.
  split_and!; try done. repeat constructor; vm_compute; congruence.
Defined.

(** *** The budgeted reader *)
Section BudgetSpec.
Context (alloc : Z -> option Z).

Lemma read_fragments_budgeted_eq n idx limits record s h s1 :
  idx + Z.of_nat (S n) = max_fragments limits ->
  stream_read_u32 s = Ok (h, s1) ->
  read_fragments alloc (S n) idx limits record s =
  read_fragments_budgeted alloc (S n) idx limits h record s1.
Proof.
  revert idx record s h s1. induction n as [|n IH]; intros idx record s h s1 Hi Hh.
  - cbn [read_fragments read_fragments_budgeted]. rewrite Hh. cbn [mbind result_bind].
    destruct (read_fragment _ _ _ _ _) as [[[last r] s2]|e]; [|done]. cbn [mbind result_bind].
    destruct last; [done|].
    by replace (idx + 1 =? max_fragments limits) with true by (symmetry; apply Z.eqb_eq; lia).
  - remember (S n) as m. cbn [read_fragments read_fragments_budgeted]. rewrite Hh.
    cbn [mbind result_bind].
    destruct (read_fragment _ _ _ _ _) as [[[last r] s2]|e]; [|done]. cbn [mbind result_bind].
    destruct last; [done|]. destruct (idx + 1 =? _) eqn:E; [done|].
    destruct (stream_read_u32 s2) as [[h2 s3]|e] eqn:E2.
    + cbn [mbind result_bind]. apply IH; [lia|done].
    + subst m. cbn [read_fragments]. by rewrite E2.
Qed.

(** The outcome of a budgeted read whose whole reservation is available. *)
Definition budgeted (limits : RecordLimits) (sem : semaphore)
    (r : result RecordError (list byte * stream)) : result RecordError (list byte * stream) * semaphore :=
  match r with
  | Ok r => (Ok r, mkSemaphore (permits sem - max_record_size limits) false)
  | Err e => (Err e, sem)
  end.

(** The budgeted reader with and without enough permits. *)
Lemma read_budgeted_cases limits sem s :
  1 <= max_fragments limits -> 0 <= max_record_size limits <= u32_max -> closed sem = false ->
  (max_record_size limits <= permits sem ->
   read_record_budgeted alloc limits sem s = Ready (budgeted limits sem (read_record alloc limits s))) /\
  (permits sem < max_record_size limits ->
   read_record_budgeted alloc limits sem s = Pending \/
   exists e, read_record_budgeted alloc limits sem s = Ready (Err e, sem)).
Proof.
  intros Hf Hm Hc. unfold read_record, read_record_budgeted.
  destruct (Z.to_nat (max_fragments limits)) as [|n] eqn:En; [lia|].
  destruct (stream_read_u32 s) as [[h s1]|e] eqn:Eh;
    [|split; [by cbn [read_fragments]; rewrite Eh|eauto]].
  rewrite (read_fragments_budgeted_eq n 0 limits (mkBuffer [] 0) s h s1) by (lia || done).
  destruct ((Z.land h LENGTH_MASK =? 0) && (Z.land h LAST_BIT =? 0)) eqn:E1.
  { split; [|eauto]. cbn [read_fragments_budgeted]. unfold read_fragment. by rewrite negb_involutive, E1. }
  destruct (max_fragment_size limits <? Z.land h LENGTH_MASK) eqn:E2.
  { split; [|eauto]. cbn [read_fragments_budgeted]. unfold read_fragment. by rewrite negb_involutive, E1, E2. }
  destruct (max_record_size limits <? Z.land h LENGTH_MASK) eqn:E3.
  { split; [|eauto]. cbn [read_fragments_budgeted]. unfold read_fragment. rewrite negb_involutive, E1, E2.
    unfold checked_add. change (zlen (contents (mkBuffer [] 0)) + Z.land h LENGTH_MASK) with (Z.land h LENGTH_MASK).
    destruct (_ <=? usize_max); [|done]. by rewrite E3. }
  unfold u32_try_from, acquire_many. rewrite Hc. zdec. split; intros Hp; zdec; [|by left].
  by destruct (read_fragments_budgeted _ _ _ _ _ _ _).
Qed.

(** The aggregate byte budget is transparent. With a full reservation
    available the budgeted reader behaves exactly like the plain reader, errors
    included, and charges the worst-case record size only for a record it
    returns. Without one it never returns a record: it reports an error found in
    the first header, or parks without having read a byte of any fragment body. *)
Lemma read_record_budgeted_eq limits sem s :
  1 <= max_fragments limits -> 0 <= max_record_size limits <= u32_max -> closed sem = false ->
  (max_record_size limits <= permits sem ->
   read_record_budgeted alloc limits sem s = Ready (budgeted limits sem (read_record alloc limits s))) /\
  (permits sem < max_record_size limits ->
   read_record_budgeted alloc limits sem s = Pending \/
   exists e, read_record_budgeted alloc limits sem s = Ready (Err e, sem)).
Proof. apply read_budgeted_cases. Qed.
End BudgetSpec.

(** *** Writers send exactly the framing *)

Definition benign (p : list write_step) : Prop :=
  Forall (fun st => match st with Accept n => 1 <= n | FailWith _ => False end) p.

(** A writer step sends [bs]: on success exactly [bs] has been appended whatever
    partial writes the transport made, and it succeeds on a transport that
    always makes progress. *)
Record Sends (f : sink_m) (bs : list byte) : Prop := {
  sends_exact k k' : f k = (Ok (), k') ->
    written k' = written k ++ bs /\ vectored k' = vectored k;
  sends_live k : benign (plan k) -> exists k', f k = (Ok (), k') /\ benign (plan k')
}.

Lemma sends_nil : Sends (fun k => (Ok (), k)) [].
Proof. split; [intros k k' [= <-]; by rewrite app_nil_r|]. eauto. Qed.

Lemma sends_then f g bs1 bs2 :
  Sends f bs1 -> Sends g bs2 -> Sends (sink_then f g) (bs1 ++ bs2).
Proof.
  intros Hf Hg. unfold sink_then. split.
  - intros k k' H. destruct (f k) as [[[]|e] k1] eqn:E; [|done].
    apply Hf in E as [E1 E2]. apply Hg in H as [-> ->]. by rewrite E1, E2, app_assoc.
  - intros k Hb. destruct (sends_live _ _ Hf k Hb) as (k1 & -> & Hb1).
    by apply (sends_live _ _ Hg).
Qed.

Lemma write_all_plan_spec p buf out r out' p' :
  write_all_plan p buf out = (r, (out', p')) ->
  (r = Ok () -> out' = out ++ buf) /\ (benign p -> r = Ok () /\ benign p').
Proof.
  revert buf out. induction p as [|st p IH]; intros buf out H; simpl in H.
  - destruct (zlen buf =? 0) eqn:E; simplify_eq; [|done].
    zbool. apply zlen_nil_inv in E. subst. by rewrite app_nil_r.
  - destruct (zlen buf =? 0) eqn:E; simplify_eq.
    { zbool. apply zlen_nil_inv in E. subst. by rewrite app_nil_r. }
    zbool. pose proof (zlen_nonneg buf). destruct st as [n|kind].
    + destruct (_ =? 0) eqn:E0 in H; zbool; simplify_eq.
      * split; [done|]. intros Hb. apply Forall_cons_1 in Hb as [Hb _]. lia.
      * apply IH in H as [H1 H2]. split.
        -- intros Hr. rewrite (H1 Hr), <- app_assoc. by rewrite take_drop.
        -- intros Hb. apply H2. by apply Forall_cons_1 in Hb as [_ ?].
    + simplify_eq. split; [done|]. intros Hb. by apply Forall_cons_1 in Hb as [? _].
Qed.

Lemma sends_write_all buf : Sends (write_all buf) buf.
Proof.
  unfold write_all. split.
  - intros k k' H. destruct (write_all_plan _ _ _) as [r [out p]] eqn:E. simplify_eq. simpl.
    apply write_all_plan_spec in E as [E _]. by rewrite E.
  - intros k Hb. destruct (write_all_plan _ _ _) as [r [out p]] eqn:E.
    apply write_all_plan_spec in E as [_ E]. destruct (E Hb) as [-> ?]. eauto.
Qed.

Lemma sends_write_each slices : Sends (write_each slices) (concat slices).
Proof.
  induction slices as [|b l IH]; [apply sends_nil|]. by apply sends_then; [apply sends_write_all|].
Qed.

Lemma concat_advance_slices slices n :
  0 <= n -> concat (advance_slices slices n) = drop (Z.to_nat n) (concat slices).
Proof.
  revert n. induction slices as [|b l IH]; intros n Hn; simpl; [by rewrite drop_nil|].
  pose proof (zlen_nonneg b). destruct (zlen b <=? n) eqn:E; zbool.
  - rewrite IH by lia. rewrite drop_app_ge by (unfold zlen in *; lia).
    f_equal. unfold zlen in *. lia.
  - simpl. rewrite drop_app_le by (unfold zlen in *; lia). done.
Qed.

(** Slices left over after an advance hold at least one byte. *)
Lemma advance_slices_nonempty slices n :
  0 <= n -> advance_slices slices n <> [] -> 0 < zlen (concat (advance_slices slices n)).
Proof.
  revert n. induction slices as [|b l IH]; intros n Hn; simpl; [done|].
  destruct (zlen b <=? n) eqn:E; zbool; [intros; apply IH; [lia|done]|].
  intros _. simpl. rewrite zlen_app, zlen_drop by lia. pose proof (zlen_nonneg (concat l)). lia.
Qed.

Lemma write_vectored_plan_spec p slices out r out' p' :
  (slices <> [] -> 0 < zlen (concat slices)) ->
  write_vectored_plan p slices out = (r, (out', p')) ->
  (r = Ok () -> out' = out ++ concat slices) /\ (benign p -> r = Ok () /\ benign p').
Proof.
  revert slices out. induction p as [|st p IH]; intros slices out Hne H;
    (destruct slices as [|b l]; [simpl in H; simplify_eq; by rewrite app_nil_r|]);
    specialize (Hne ltac:(done)); cbn [write_vectored_plan] in H.
  - destruct (_ =? 0) eqn:E; zbool; [lia|]. by simplify_eq.
  - destruct st as [n|kind].
    + destruct (_ =? 0) eqn:E0 in H; zbool; simplify_eq.
      * split; [done|]. intros Hb. apply Forall_cons_1 in Hb as [Hb _]. lia.
      * apply IH in H as [H1 H2]; [|apply advance_slices_nonempty; lia]. split.
        -- intros Hr. rewrite (H1 Hr), concat_advance_slices, <- app_assoc by lia.
           by rewrite take_drop.
        -- intros Hb. apply H2. by apply Forall_cons_1 in Hb as [_ ?].
    + simplify_eq. split; [done|]. intros Hb. by apply Forall_cons_1 in Hb as [? _].
Qed.

Lemma sends_write_all_slices slices :
  (slices <> [] -> 0 < zlen (concat slices)) ->
  Sends (write_all_slices slices) (concat slices).
Proof.
  intros Hne. unfold write_all_slices. split.
  - intros k k' H. destruct (vectored k) eqn:Ev.
    + destruct (write_vectored_plan _ _ _) as [r [out p]] eqn:E. simplify_eq. simpl.
      apply write_vectored_plan_spec in E as [E _]; [|done]. by rewrite E.
    + apply sends_write_each in H as [H1 H2]. by rewrite H1, H2, Ev.
  - intros k Hb. destruct (vectored k) eqn:Ev; [|by apply (sends_live _ _ (sends_write_each slices))].
    destruct (write_vectored_plan _ _ _) as [r [out p]] eqn:E.
    apply write_vectored_plan_spec in E as [_ E]; [|done]. destruct (E Hb) as [-> ?]. eauto.
Qed.

(** One fragment: header, then slices of its body. *)
Lemma sends_fragment n last slices :
  Sends (write_all_slices (fragment_header n last :: slices)) (fragment_header n last ++ concat slices).
Proof. apply (sends_write_all_slices (_ :: _)). intros _. cbn [concat]. zlen_lia. Qed.

Lemma sends_write_chunks cs :
  Forall (fun c => zlen c <= LENGTH_MASK) cs -> Sends (write_chunks cs) (frames cs).
Proof.
  induction cs as [|c cs IH]; intros Hc; [apply sends_nil|].
  apply Forall_cons_1 in Hc as [Hc Hcs]. cbn [write_chunks frames].
  replace (LENGTH_MASK <? zlen c) with false by (symmetry; apply Z.ltb_ge; lia).
  rewrite app_assoc. apply sends_then; [|by apply IH].
  pose proof (sends_fragment (zlen c) (match cs with [] => true | _ => false end) [c]) as H.
  cbn [concat] in H. by rewrite app_nil_r in H.
Qed.

Lemma chunks_fuel_bound fuel n l :
  0 <= n -> Forall (fun c => zlen c <= n) (chunks_fuel fuel n l).
Proof.
  intros Hn. revert l. induction fuel as [|fuel IH]; intros l; simpl; [apply Forall_nil_2|].
  destruct (_ =? 0); [apply Forall_nil_2|]. apply Forall_cons_2; [|apply IH].
  unfold zlen. rewrite length_take. lia.
Qed.

Lemma sends_write_fragments record n :
  0 < n <= LENGTH_MASK -> Sends (write_fragments record n) (framed n record).
Proof.
  intros Hn. unfold write_fragments, framed.
  replace (n =? 0) with false by (symmetry; apply Z.eqb_neq; lia).
  destruct (_ =? 0); [apply sends_write_all|]. apply sends_write_chunks.
  eapply Forall_impl; [|apply (chunks_fuel_bound _ n); lia]. simpl. lia.
Qed.

(** *** Segments *)

(** The bytes a cursor still has to deliver. *)
Definition cursor_rest (segments : list (list byte)) (c : cursor) : list byte :=
  match segments !! segment_index c with
  | Some segment => drop (Z.to_nat (segment_offset c)) segment ++ concat (drop (S (segment_index c)) segments)
  | None => []
  end.

Definition cursor_wf (segments : list (list byte)) (c : cursor) : Prop :=
  0 <= segment_offset c /\
  forall segment, segments !! segment_index c = Some segment -> segment_offset c <= zlen segment.

Lemma cursor_rest_next segments i segment :
  segments !! i = Some segment ->
  cursor_rest segments (mkCursor i (zlen segment)) = cursor_rest segments (mkCursor (S i) 0).
Proof.
  intros Hs. unfold cursor_rest; simpl. rewrite Hs, to_nat_zlen, drop_all. simpl.
  destruct (segments !! S i) as [s2|] eqn:E.
  - by rewrite (drop_S _ _ _ E).
  - rewrite drop_ge; [done|]. by apply lookup_ge_None.
Qed.

Lemma skip_exhausted_spec fuel segments c :
  (length segments <= segment_index c + fuel)%nat -> cursor_wf segments c ->
  let c' := skip_exhausted fuel segments c in
  cursor_rest segments c' = cursor_rest segments c /\ cursor_wf segments c' /\
  (segment_index c <= segment_index c')%nat /\
  (forall segment, segments !! segment_index c' = Some segment -> segment_offset c' < zlen segment) /\
  (forall segment, segments !! segment_index c = Some segment -> segment_offset c = zlen segment ->
     (S (segment_index c) <= segment_index c')%nat).
Proof.
  revert c. induction fuel as [|fuel IH]; intros c Hf Hwf.
  - simpl. assert (segments !! segment_index c = None) as Hn by (apply lookup_ge_None; lia).
    split_and!; try done; intros s; by rewrite Hn.
  - simpl. destruct (segments !! segment_index c) as [s|] eqn:Es;
      [|split_and!; try done; intros s; by rewrite Es].
    destruct (segment_offset c =? zlen s) eqn:E; zbool.
    + destruct (IH (mkCursor (S (segment_index c)) 0)) as (H1 & H2 & H3 & H4 & H5).
      { simpl. lia. }
      { split; simpl; [lia|]. intros. apply zlen_nonneg. }
      simpl in *. split_and!; try done; try lia.
      rewrite H1. destruct c as [i o]; simpl in *. subst o. symmetry. by apply cursor_rest_next.
    + destruct Hwf as [Hw1 Hw2]. split_and!; try done.
      * intros s' Hs'. simplify_eq. specialize (Hw2 _ Es). lia.
      * intros s' Hs' Ho. simplify_eq.
Qed.

Section Cursors.
Context (segments : list (list byte)).

(** The head of a normalised cursor with bytes left. *)
Lemma cursor_nonempty c :
  cursor_wf segments c -> 0 < zlen (cursor_rest segments c) ->
  let c' := skip_exhausted (length segments) segments c in
  exists segment, segments !! segment_index c' = Some segment /\
    0 <= segment_offset c' < zlen segment /\
    cursor_rest segments c = drop (Z.to_nat (segment_offset c')) segment ++
                             concat (drop (S (segment_index c')) segments).
Proof.
  intros Hwf Hl c'.
  destruct (skip_exhausted_spec (length segments) segments c ltac:(lia) Hwf) as (H1 & [H2 _] & _ & H4 & _).
  fold c' in H1, H2, H4. rewrite <- H1 in Hl |- *. unfold cursor_rest in *.
  destruct (segments !! segment_index c') as [s|] eqn:Es; [|done].
  exists s. split_and!; [done|done| |done]. by apply H4.
Qed.

(** Moving a normalised cursor by [n] bytes of its segment. *)
Lemma cursor_step c n :
  cursor_wf segments c -> 0 < zlen (cursor_rest segments c) ->
  let c' := skip_exhausted (length segments) segments c in
  forall segment, segments !! segment_index c' = Some segment ->
  0 < n <= zlen segment - segment_offset c' ->
  let c2 := mkCursor (segment_index c') (segment_offset c' + n) in
  cursor_wf segments c2 /\
  cursor_rest segments c2 = drop (Z.to_nat n) (cursor_rest segments c) /\
  slice (segment_offset c') (segment_offset c' + n) segment = take (Z.to_nat n) (cursor_rest segments c) /\
  (n = zlen segment - segment_offset c' ->
   (segment_index c' < segment_index (skip_exhausted (length segments) segments c2))%nat).
Proof.
  intros Hwf Hl c' segment Hs Hn c2.
  destruct (cursor_nonempty c Hwf Hl) as (s & Hs' & Ho & Hr). fold c' in Hs', Ho, Hr.
  rewrite Hs in Hs'. injection Hs' as <-.
  assert (cursor_wf segments c2) as Hwf2.
  { split; simpl; [lia|]. intros s' Hs'. simplify_eq. lia. }
  assert (zlen (drop (Z.to_nat (segment_offset c')) segment) = zlen segment - segment_offset c') as Hd
    by (apply zlen_drop; lia).
  split_and!; [done|..].
  - rewrite Hr. unfold cursor_rest, c2; simpl. rewrite Hs.
    rewrite drop_app_le by (unfold zlen in *; lia). rewrite drop_drop. do 2 f_equal. lia.
  - rewrite Hr, take_app_le by (unfold zlen in *; lia). unfold slice. do 2 f_equal. lia.
  - intros Hfull.
    destruct (skip_exhausted_spec (length segments) segments c2 ltac:(lia) Hwf2) as (_ & _ & _ & _ & H5).
    apply (H5 segment); [done|]. simpl. lia.
Qed.

Lemma gather_spec slots total c n :
  cursor_wf segments c -> 0 <= n <= zlen (cursor_rest segments c) ->
  (length segments <= segment_index (skip_exhausted (length segments) segments c) + slots)%nat ->
  exists slices, gather slots segments total c n = Some (Ok slices) /\
    concat slices = take (Z.to_nat n) (cursor_rest segments c).
Proof.
  revert c n. induction slots as [|slots IH]; intros c n Hwf Hn Hs.
  all: cbn [gather]; destruct (n =? 0) eqn:E0; zbool; [subst; by exists []|].
  all: destruct (cursor_nonempty c Hwf ltac:(lia)) as (s & Hs' & Ho & Hr).
  { apply lookup_lt_Some in Hs'. lia. }
  set (c' := skip_exhausted (length segments) segments c) in *. rewrite Hs'.
  set (m := Z.min n (zlen s - segment_offset c')). assert (0 < m <= zlen s - segment_offset c' /\ m <= n) as [Hm Hmn] by (unfold m; lia).
  assert (m <> n -> m = zlen s - segment_offset c') as Hfull by (unfold m; lia). clearbody m.
  destruct (cursor_step c m Hwf ltac:(lia) s Hs' Hm) as (Hwf2 & Hr2 & Hsl & Hnext).
  fold c' in Hwf2, Hr2, Hsl, Hnext, Hs, Hs', Ho.
  destruct (decide (m = n)) as [Em|Em].
  - replace (n - m) with 0 by lia.
    destruct slots; cbn [gather]; (eexists; split; [done|]); cbn [concat];
      by rewrite app_nil_r, Hsl, Em.
  - destruct (IH (mkCursor (segment_index c') (segment_offset c' + m)) (n - m)) as (sl & -> & Hc).
    + done.
    + rewrite Hr2, zlen_drop by lia. lia.
    + specialize (Hnext ltac:(lia)). lia.
    + eexists. split; [done|]. cbn [concat]. rewrite Hsl, Hc, Hr2.
      rewrite <- (take_drop (Z.to_nat m) (take (Z.to_nat n) _)). f_equal.
      * rewrite take_take. f_equal. lia.
      * rewrite skipn_firstn_comm. f_equal. lia.
Qed.

Lemma advance_segments_spec fuel c n :
  cursor_wf segments c -> 0 <= n <= zlen (cursor_rest segments c) ->
  (length segments <= segment_index (skip_exhausted (length segments) segments c) + fuel)%nat ->
  exists c', advance_segments fuel segments c n = Some c' /\ cursor_wf segments c' /\
    cursor_rest segments c' = drop (Z.to_nat n) (cursor_rest segments c).
Proof.
  revert c n. induction fuel as [|fuel IH]; intros c n Hwf Hn Hs.
  all: cbn [advance_segments]; destruct (n =? 0) eqn:E0; zbool; [subst; by exists c|].
  all: destruct (cursor_nonempty c Hwf ltac:(lia)) as (s & Hs' & Ho & Hr).
  { apply lookup_lt_Some in Hs'. lia. }
  set (c' := skip_exhausted (length segments) segments c) in *. rewrite Hs'.
  set (m := Z.min (zlen s - segment_offset c') n). assert (0 < m <= zlen s - segment_offset c' /\ m <= n) as [Hm Hmn] by (unfold m; lia).
  assert (m <> n -> m = zlen s - segment_offset c') as Hfull by (unfold m; lia). clearbody m.
  destruct (cursor_step c m Hwf ltac:(lia) s Hs' Hm) as (Hwf2 & Hr2 & _ & Hnext).
  fold c' in Hwf2, Hr2, Hnext.
  destruct (decide (m = n)) as [Em|Em].
  - replace (n - m) with 0 by lia. rewrite Em in *.
    destruct fuel; cbn [advance_segments]; by eexists.
  - destruct (IH (mkCursor (segment_index c') (segment_offset c' + m)) (n - m)) as (c3 & -> & Hw3 & Hr3).
    + done.
    + rewrite Hr2, zlen_drop by lia. lia.
    + specialize (Hnext ltac:(lia)). lia.
    + eexists. split_and!; [done|done|]. rewrite Hr3, Hr2, drop_drop. f_equal. lia.
Qed.

(** The segmented writer terminates without panicking and sends the framing of
    the concatenated segments. *)
Lemma segmented_loop_spec fuel total c max :
  (length segments <= 3)%nat -> 0 < max <= LENGTH_MASK -> cursor_wf segments c ->
  (length (cursor_rest segments c) <= fuel)%nat ->
  exists f, Sends f (frames (chunks_fuel fuel max (cursor_rest segments c))) /\
    forall k, segmented_loop fuel segments total c (zlen (cursor_rest segments c)) max k = Some (f k).
Proof.
  intros H3 Hmax. revert c. induction fuel as [|fuel IH]; intros c Hwf Hf.
  { assert (zlen (cursor_rest segments c) = 0) as -> by (unfold zlen; lia).
    eexists. split; [apply sends_nil|]. done. }
  cbn [segmented_loop chunks_fuel]. destruct (zlen (cursor_rest segments c) =? 0) eqn:E0.
  { eexists. split; [apply sends_nil|]. done. }
  zbool. set (r := cursor_rest segments c) in *. pose proof (zlen_nonneg r).
  set (n := Z.min (zlen r) max). replace (LENGTH_MASK <? n) with false by (symmetry; apply Z.ltb_ge; lia).
  destruct (gather_spec 3 total c n Hwf ltac:(fold r; lia) ltac:(lia)) as (slices & Hg & Hc).
  destruct (advance_segments_spec (S (length segments)) c n Hwf ltac:(fold r; lia) ltac:(lia))
    as (c' & Ha & Hwf' & Hr').
  fold r in Hc, Hr'.
  assert (zlen (cursor_rest segments c') = zlen r - n) as Hl' by (rewrite Hr'; apply zlen_drop; lia).
  destruct (IH c' Hwf') as (f & Hsends & Hloop). { unfold zlen in *. lia. }
  exists (sink_then (write_all_slices (fragment_header n (n =? zlen r) :: slices)) f). split.
  - assert (take (Z.to_nat max) r = take (Z.to_nat n) r) as Ht.
    { destruct (decide (max <= zlen r)); [by replace n with max by lia|].
      rewrite !take_ge; [done|unfold zlen in *; lia..]. }
    assert (drop (Z.to_nat max) r = drop (Z.to_nat n) r) as Hd.
    { destruct (decide (max <= zlen r)); [by replace n with max by lia|].
      rewrite !drop_ge; [done|unfold zlen in *; lia..]. }
    rewrite Ht, Hd. cbn [frames]. rewrite zlen_take, app_assoc by lia. rewrite Hr' in Hsends.
    apply sends_then; [|done].
    replace (match chunks_fuel fuel max (drop (Z.to_nat n) r) with [] => true | _ => false end)
      with (n =? zlen r); [rewrite <- Hc; apply sends_fragment|].
    destruct (n =? zlen r) eqn:E; zbool.
    + rewrite E, to_nat_zlen, drop_all. by destruct fuel.
    + destruct fuel as [|fuel]; [unfold zlen in *; lia|]. cbn [chunks_fuel].
      rewrite <- Hr', Hl'. replace (zlen r - n =? 0) with false by (symmetry; apply Z.eqb_neq; lia). done.
  - intros k. rewrite Hg. unfold sink_then.
    destruct (write_all_slices _ k) as [[[]|e] k1]; [|done].
    rewrite Ha, <- Hl'. apply Hloop.
Qed.
End Cursors.

(** *** What the writers send is what the reader accepts *)

Definition fragments_of (n : Z) (record : list byte) : list (list byte) :=
  if zlen record =? 0 then [[]] else chunks n record.

Lemma framed_frames n record : framed n record = frames (fragments_of n record).
Proof.
  unfold framed, fragments_of. destruct (_ =? 0); [|done]. cbn [frames app].
  rewrite app_nil_r. reflexivity.
Qed.

Lemma chunks_fuel_spec fuel n l :
  0 < n -> (length l <= fuel)%nat ->
  concat (chunks_fuel fuel n l) = l /\ Forall (.≠ []) (chunks_fuel fuel n l) /\
  n * zlen (chunks_fuel fuel n l) < zlen l + n.
Proof.
  intros Hn. revert l. induction fuel as [|fuel IH]; intros l Hl.
  { destruct l; [|simpl in Hl; lia]. split_and!; try done. zlen_lia. }
  cbn [chunks_fuel]. pose proof (zlen_nonneg l). destruct (zlen l =? 0) eqn:E; zbool.
  { apply zlen_nil_inv in E as ->. split_and!; try done. zlen_lia. }
  destruct (IH (drop (Z.to_nat n) l)) as (H1 & H2 & H3).
  { rewrite length_drop. unfold zlen in *. lia. }
  split_and!.
  - cbn [concat]. by rewrite H1, take_drop.
  - apply Forall_cons_2; [|done]. intros Hc. apply (f_equal length) in Hc.
    rewrite length_take in Hc. unfold zlen in *. simpl in Hc. lia.
  - rewrite zlen_cons. destruct (decide (n <= zlen l)).
    + rewrite zlen_drop in H3 by lia. lia.
    + rewrite drop_ge in H3 |- * by (unfold zlen in *; lia). destruct fuel; simpl; zlen_lia.
Qed.

Lemma nonempty_all_but_last cs : Forall (.≠ []) cs -> nonempty_but_last cs.
Proof. induction 1 as [|c cs Hc Hcs IH]; [done|]. by destruct cs. Qed.

Lemma fragments_of_ok limits record :
  max_fragment_size limits <= LENGTH_MASK -> 0 <= max_fragment_size limits ->
  validate_record record limits = Ok () ->
  fragments_ok limits (fragments_of (max_fragment_size limits) record) /\
  concat (fragments_of (max_fragment_size limits) record) = record.
Proof.
  unfold validate_record, validate_record_length, fragments_of, fragments_ok.
  intros Hm H0 H. destruct (_ <? zlen record) eqn:E1 in H; [done|].
  destruct (_ <? _) eqn:E2 in H; [done|]. destruct (max_fragment_size limits =? 0) eqn:E3; [done|].
  zbool. pose proof (zlen_nonneg record). destruct (zlen record =? 0) eqn:E4; zbool.
  { apply zlen_nil_inv in E4 as ->. split; [|done].
    split_and!; try done. apply Forall_singleton. change (zlen []) with 0. lia. }
  unfold chunks.
  destruct (chunks_fuel_spec (length record) (max_fragment_size limits) record ltac:(lia) ltac:(lia))
    as (Hcc & Hne & Hcnt).
  pose proof (chunks_fuel_bound (length record) (max_fragment_size limits) record ltac:(lia)) as Hb.
  rewrite Hcc. split; [|done]. split_and!; try done.
  - intros Hn. rewrite Hn in Hcc. simpl in Hcc. by subst record.
  - apply div_ceil_le in E2; [nia|lia|lia].
  - eapply Forall_impl; [|apply Hb]. simpl. lia.
  - by apply nonempty_all_but_last.
Qed.

Lemma segments_length_spec segments n :
  0 <= n -> n + zlen (concat segments) <= usize_max ->
  segments_length segments n = Some (n + zlen (concat segments)).
Proof.
  revert n. induction segments as [|s l IH]; intros n Hn Hl; cbn [segments_length concat] in *.
  { f_equal. zlen_lia. }
  rewrite zlen_app in *. pose proof (zlen_nonneg s). pose proof (zlen_nonneg (concat l)).
  unfold checked_add. zdec. simpl. rewrite IH by lia. f_equal. lia.
Qed.

Lemma segmented_fragments_spec segments max :
  (length segments <= 3)%nat -> 0 < max <= LENGTH_MASK ->
  exists f, Sends f (framed max (concat segments)) /\
    forall k, write_segmented_fragments segments (zlen (concat segments)) max k = Some (f k).
Proof.
  intros H3 Hmax. unfold write_segmented_fragments, framed.
  destruct (zlen (concat segments) =? 0).
  { eexists. split; [apply sends_write_all|done]. }
  assert (cursor_rest segments (mkCursor 0 0) = concat segments) as Hr.
  { unfold cursor_rest. destruct segments as [|s l]; simpl; [done|]. by rewrite drop_0. }
  rewrite to_nat_zlen. unfold chunks. rewrite <- Hr. apply segmented_loop_spec; try done.
  split; simpl; [lia|]. intros. apply zlen_nonneg.
Qed.

(** The writer of a record is live and exact. *)
Definition delivers (f : sink -> option (result RecordError unit * sink)) (bs : list byte) : Prop :=
  exists g, Sends g bs /\ forall k, f k = Some (g k).

Lemma validated_fragment_size limits n :
  validate_record_length n limits = Ok () -> max_fragment_size limits <> 0.
Proof. unfold validate_record_length. intros H. repeat case_in H; zbool; congruence. Qed.

(** The contiguous writer sends the framing. *)
Lemma sends_write_record_limited record limits :
  0 <= max_fragment_size limits <= LENGTH_MASK -> validate_record record limits = Ok () ->
  Sends (write_record_limited record limits) (framed (max_fragment_size limits) record).
Proof.
  intros Hm Hv. pose proof (validated_fragment_size _ _ Hv).
  destruct (sends_write_fragments record (max_fragment_size limits) ltac:(lia)) as [H1 H2].
  split; intros k; unfold write_record_limited; rewrite Hv; [apply H1|apply H2].
Qed.

(** Sending a reply held in at most three segments never panics, and puts
    on the wire exactly the framing of the concatenated record, in fragments of
    the configured size: the same bytes the contiguous writer sends. This holds
    for every pattern of partial and vectored writes of the transport, and the
    send completes on a transport that always makes progress. *)
Lemma segments_deliver segments limits :
  (length segments <= 3)%nat -> zlen (concat segments) <= usize_max ->
  0 <= max_fragment_size limits <= LENGTH_MASK ->
  validate_record (concat segments) limits = Ok () ->
  delivers (write_record_segments_limited segments limits)
    (framed (max_fragment_size limits) (concat segments)) /\
  Sends (write_record_limited (concat segments) limits)
    (framed (max_fragment_size limits) (concat segments)).
Proof.
  intros H3 Hl Hm Hv. unfold validate_record in Hv. pose proof (validated_fragment_size _ _ Hv). split.
  - unfold delivers, write_record_segments_limited.
    rewrite segments_length_spec, Z.add_0_l, Hv by lia. apply segmented_fragments_spec; [done|lia].
  - by apply sends_write_record_limited.
Qed.

(** A framed record is read back whole. *)
Lemma read_framed alloc limits record tail e :
  alloc_grants alloc (max_record_size limits) -> max_record_size limits <= usize_max ->
  0 <= max_fragments limits -> 0 <= max_fragment_size limits <= LENGTH_MASK ->
  validate_record record limits = Ok () ->
  read_record alloc limits (mkStream (framed (max_fragment_size limits) record ++ tail) e) =
    Ok (record, mkStream tail e).
Proof.
  intros Ha Hu Hf Hm Hv.
  destruct (fragments_of_ok limits record ltac:(lia) ltac:(lia) Hv) as [(H1 & H2 & H3 & H4 & H5) H6].
  unfold read_record. rewrite framed_frames,
    (read_fragments_complete alloc _ _ _ _ _ (fragments_of (max_fragment_size limits) record) tail Ha Hu); try done.
  - simpl. by rewrite H6.
  - rewrite Z2Nat.id by lia. lia.
  - by rewrite Z2Nat.id by lia.
Qed.

(** A record the sender accepts survives the wire: whatever follows it on
    the stream, the reader with the same limits returns exactly that record and
    leaves the following bytes unread. *)
Lemma record_roundtrip alloc limits record tail e :
  alloc_grants alloc (max_record_size limits) -> max_record_size limits <= usize_max ->
  0 <= max_fragments limits -> 0 <= max_fragment_size limits <= LENGTH_MASK ->
  validate_record record limits = Ok () ->
  read_record alloc limits (mkStream (framed (max_fragment_size limits) record ++ tail) e) =
    Ok (record, mkStream tail e).
Proof. apply read_framed. Qed.

