(* ===== verification/Reply.v ===== *)
(** * [src/rpc/reply.rs]: encoded replies

    A reply is one contiguous buffer, or a protocol prefix followed by a shared
    payload and XDR padding. The replay cache asks for storage whose complete
    allocation is known ([replay_storage]). *)
From Stdlib Require Import Strings.Byte.
From S2P Require Import Prelude.

Definition XDR_PADDING : list byte := [x00; x00; x00].

Inductive ReplyStorage : Type :=
| Contiguous (bytes : list byte)
| Segmented (prefix payload : list byte) (padding len : Z).

Record EncodedReply : Type := mkEncodedReply {
  storage : ReplyStorage;
  retained_bytes : option Z
}.

(** [None]: the [assert!] or the [expect] of the constructor panics. *)
Definition segmented (prefix payload : list byte) (padding : Z) : option EncodedReply :=
  if zlen XDR_PADDING <? padding then None
  else
    len1 ← checked_add (zlen prefix) (zlen payload);
    len ← checked_add len1 padding;
    Some (mkEncodedReply (Segmented prefix payload padding len) None).

Definition len (r : EncodedReply) : Z :=
  match storage r with
  | Contiguous bytes => zlen bytes
  | Segmented _ _ _ len => len
  end.

Definition is_empty (r : EncodedReply) : bool := len r =? 0.

Definition segments (r : EncodedReply) : list (list byte) :=
  match storage r with
  | Contiguous bytes => [bytes; []; []]
  | Segmented prefix payload padding _ => [prefix; payload; slice 0 padding XDR_PADDING]
  end.

Definition prefix (r : EncodedReply) : list byte :=
  match storage r with
  | Contiguous bytes => bytes
  | Segmented prefix _ _ _ => prefix
  end.

Definition replay_storage_requires_copy (r : EncodedReply) : bool :=
  match retained_bytes r with None => true | Some _ => false end.

Definition into_bytes (r : EncodedReply) : list byte :=
  match storage r with
  | Contiguous bytes => bytes
  | Segmented prefix payload padding _ =>
      fold_left (fun output segment => output ++ segment)
        [prefix; payload; slice 0 padding XDR_PADDING] []
  end.

(** [From<Bytes>] *)
Definition from_bytes (value : list byte) : EncodedReply := mkEncodedReply (Contiguous value) None.

(** [From<Vec<u8>>]: a vector is its contents and its capacity. *)
Definition from_vec (value : list byte) (capacity : Z) : EncodedReply :=
  mkEncodedReply (Contiguous value) (Some capacity).

Section Compaction.
(** [Vec::with_capacity]: the capacity the allocator grants for a request. *)
Context (with_capacity : Z -> Z).

Definition compact_bytes (input : list byte) : list byte * Z := (input, with_capacity (zlen input)).

Definition replay_storage (r : EncodedReply) : EncodedReply * Z :=
  match retained_bytes r with
  | Some retained => (r, retained)
  | None =>
      match storage r with
      | Contiguous bytes =>
          let '(bytes, retained) := compact_bytes bytes in
          (mkEncodedReply (Contiguous bytes) (Some retained), retained)
      | Segmented prefix payload padding len =>
          let '(prefix, prefix_bytes) := compact_bytes prefix in
          let '(payload, payload_bytes) := compact_bytes payload in
          let retained := Z.max len (saturating_add prefix_bytes payload_bytes) in
          (mkEncodedReply (Segmented prefix payload padding len) (Some retained), retained)
      end
  end.
End Compaction.

(** [PartialEq]: equal lengths, then the flattened segments byte by byte. *)
Definition eqb (a b : EncodedReply) : bool :=
  (len a =? len b) && bool_decide (concat (segments a) = concat (segments b)).

(** ** The wire view *)

Definition wire (r : EncodedReply) : list byte := concat (segments r).

(** What every constructor establishes. *)
Definition reply_wf (r : EncodedReply) : Prop :=
  match storage r with
  | Contiguous bytes => from_option (fun c => zlen bytes <= c) True (retained_bytes r)
  | Segmented prefix payload padding l =>
      0 <= padding <= 3 /\ l = zlen prefix + zlen payload + padding /\
      from_option (fun c => l <= c) True (retained_bytes r)
  end.

Lemma zlen_padding n : 0 <= n <= 3 -> zlen (slice 0 n XDR_PADDING) = n.
Proof. intros Hn. unfold slice. rewrite Z.sub_0_r, drop_0. by apply zlen_take. Qed.

Lemma len_wire r : reply_wf r -> len r = zlen (wire r).
Proof.
  unfold reply_wf, len, wire, segments. destruct (storage r) as [b|p q n l]; cbn [concat].
  - by rewrite app_nil_r.
  - intros (Hn & -> & _). rewrite app_nil_r, !zlen_app, zlen_padding by done. lia.
Qed.

Lemma into_bytes_wire r : into_bytes r = wire r.
Proof.
  unfold into_bytes, wire, segments.
  destruct (storage r); cbn [concat fold_left app]; by rewrite ?app_nil_r, <- ?app_assoc.
Qed.

Lemma length_segments r : length (segments r) = 3%nat.
Proof. unfold segments. by destruct (storage r). Qed.

Lemma segmented_wf p q n r :
  0 <= n -> segmented p q n = Some r ->
  reply_wf r /\ wire r = p ++ q ++ zeros n.
Proof.
  unfold segmented. intros Hn H. destruct (_ <? _) eqn:E; [done|]. zbool.
  change (zlen XDR_PADDING) with 3 in E. unfold checked_add in H. repeat case_in H.
  unfold reply_wf, wire; simpl. split; [split_and!; [lia|lia|lia|done]|].
  rewrite app_nil_r. do 2 f_equal. unfold slice, zeros. rewrite Z.sub_0_r.
  change (drop (Z.to_nat 0) XDR_PADDING) with (replicate 3 x00). rewrite take_replicate. f_equal. lia.
Qed.

Lemma from_vec_wf v c : zlen v <= c -> reply_wf (from_vec v c) /\ wire (from_vec v c) = v.
Proof. intros H. unfold wire; simpl. by rewrite app_nil_r. Qed.

Lemma from_bytes_wf v : reply_wf (from_bytes v) /\ wire (from_bytes v) = v.
Proof. unfold wire; simpl. by rewrite app_nil_r. Qed.

Lemma eqb_wire a b : reply_wf a -> reply_wf b -> eqb a b = true <-> wire a = wire b.
Proof.
  intros Ha Hb. unfold eqb. fold (wire a) (wire b). rewrite (len_wire a Ha), (len_wire b Hb).
  rewrite andb_true_iff, bool_decide_eq_true, Z.eqb_eq. split; [tauto|]. by intros ->.
Qed.

Lemma replay_storage_charge with_capacity r stored charge :
  (forall n, n <= with_capacity n) -> reply_wf r ->
  replay_storage with_capacity r = (stored, charge) ->
  wire stored = wire r /\ len r <= charge.
Proof.
  intros Hc Hwf H. unfold replay_storage, compact_bytes in H.
  destruct r as [[b|p q n l] [c|]]; simpl in *; simplify_eq; unfold len; simpl.
  - done.
  - split; [done|apply Hc].
  - by destruct Hwf as (? & ? & ?).
  - split; [done|lia].
Qed.

(** Replay storage is faithful and its charge is honest. For a well-formed
    reply, the stored copy has the same wire bytes, its recorded allocation is
    the charge returned, the charge is at least the wire length, and storing the
    stored copy again changes neither. *)
Lemma replay_storage_sound with_capacity r stored charge :
  (forall n, n <= with_capacity n) -> reply_wf r ->
  replay_storage with_capacity r = (stored, charge) ->
  reply_wf stored /\ wire stored = wire r /\ len r <= charge /\
  retained_bytes stored = Some charge /\ replay_storage with_capacity stored = (stored, charge).
Proof.
  intros Hc Hwf H. destruct (replay_storage_charge _ _ _ _ Hc Hwf H) as [Hw Hl].
  unfold replay_storage, compact_bytes in H.
  destruct r as [[b|p q n l] [c|]]; simpl in *; simplify_eq; split_and!; try done.
  destruct Hwf as (? & ? & ?). unfold reply_wf; simpl. split_and!; try done; lia.
Qed.

