(* ===== verification/Handles.v ===== *)
(** * [src/handles/codec.rs]: authenticated file handles

    A handle carries the format version, the server instance, the export, the
    object key and a truncated HMAC over all of it. HMAC-SHA256 is a parameter:
    a keyed function with 32 output bytes. *)
From Stdlib Require Import Strings.Byte.
From S2P Require Import Prelude VfsTypes.

Definition FORMAT_VERSION : byte := x01.
Definition INSTANCE_SIZE : Z := 8.
Definition TAG_SIZE : Z := 16.
Definition PAYLOAD_SIZE : Z := 1 + INSTANCE_SIZE + 4 + 8 + 8.
Definition HANDLE_SIZE : Z := PAYLOAD_SIZE + TAG_SIZE.

(** [mac] is the keyed HMAC state; it is determined by the secret. *)
Record HandleCodec : Type := mkHandleCodec { instance_id : list byte; secret : list byte }.

Inductive HandleError : Type :=
| InvalidLength
| InvalidFormat
| StaleInstance
| WrongExport
| InvalidTag.
#[global] Instance HandleError_eq_dec : EqDecision HandleError.
Proof. solve_decision. Defined.

(** [OsRng] fills the instance id and then the secret, or fails. *)
Definition try_random {E} (fill : Z -> result E (list byte)) (fill' : Z -> result E (list byte))
    : result E HandleCodec :=
  instance_id ← fill INSTANCE_SIZE;
  secret ← fill' 32;
  Ok (mkHandleCodec instance_id secret).

Section Codec.
Context (hmac : list byte -> list byte -> list byte).

Definition tag (c : HandleCodec) (payload : list byte) : list byte :=
  slice 0 TAG_SIZE (hmac (secret c) payload).

(** [Mac::verify_truncated_left] *)
Definition verify_truncated_left (c : HandleCodec) (payload t : list byte) : bool :=
  let mac := hmac (secret c) payload in
  if (zlen t =? 0) || (zlen mac <? zlen t) then false
  else bool_decide (take (length t) mac = t).

(** The payload the five [copy_from_slice] calls assemble. *)
Definition payload (c : HandleCodec) (export_id : ExportId) (object : ObjectKey) : list byte :=
  [FORMAT_VERSION] ++ instance_id c ++ be_bytes 4 export_id ++
  be_bytes 8 (file_id object) ++ be_bytes 8 (generation object).

Definition encode (c : HandleCodec) (export_id : ExportId) (object : ObjectKey) : list byte :=
  let handle := payload c export_id object in
  handle ++ tag c handle.

Definition decode_any (c : HandleCodec) (handle : list byte)
    : result HandleError (ExportId * ObjectKey) :=
  if negb (zlen handle =? HANDLE_SIZE) then Err InvalidLength
  else if negb (bool_decide (slice 0 1 handle = [FORMAT_VERSION])) then Err InvalidFormat
  else if negb (bool_decide (slice 1 9 handle = instance_id c)) then Err StaleInstance
  else
    let encoded_export := be_value (slice 9 13 handle) in
    if negb (verify_truncated_left c (slice 0 PAYLOAD_SIZE handle)
               (slice PAYLOAD_SIZE HANDLE_SIZE handle)) then Err InvalidTag
    else
      let file_id := be_value (slice 13 21 handle) in
      let generation := be_value (slice 21 29 handle) in
      Ok (encoded_export, mkObjectKey file_id generation).

Definition decode (c : HandleCodec) (export_id : ExportId) (handle : list byte)
    : result HandleError ObjectKey :=
  '(encoded_export, object) ← decode_any c handle;
  if negb (encoded_export =? export_id) then Err WrongExport else Ok object.
End Codec.

Definition codec_wf (c : HandleCodec) : Prop := zlen (instance_id c) = INSTANCE_SIZE.
Definition object_wf (o : ObjectKey) : Prop := u64_range (file_id o) /\ u64_range (generation o).

Section Correctness.
Context (hmac : list byte -> list byte -> list byte).
Context (hmac_length : forall k m, zlen (hmac k m) = 32).

Lemma zlen_tag c m : zlen (tag hmac c m) = TAG_SIZE.
Proof.
  unfold tag, slice. rewrite drop_0. apply zlen_take. rewrite hmac_length. done.
Qed.

Lemma verify_tag c m t :
  zlen t = TAG_SIZE -> verify_truncated_left hmac c m t = true <-> t = tag hmac c m.
Proof.
  intros Ht. unfold verify_truncated_left, tag, slice. rewrite hmac_length, Ht.
  assert (length t = Z.to_nat (TAG_SIZE - 0)) as -> by (unfold zlen in Ht; lia).
  simpl. rewrite bool_decide_eq_true, drop_0. split; by intros ->.
Qed.

(** The fields of a buffer that is a concatenation of them. *)
Lemma slice_field {A} (lo hi : Z) (a b c l : list A) :
  l = a ++ b ++ c -> zlen a = lo -> zlen b = hi - lo -> slice lo hi l = b.
Proof.
  intros -> <- Hb. unfold slice. by rewrite drop_zlen_app, <- Hb, take_zlen_app.
Qed.

Lemma slice_split {A} (lo mid hi : Z) (l : list A) :
  0 <= lo <= mid -> mid <= hi <= zlen l -> slice lo hi l = slice lo mid l ++ slice mid hi l.
Proof.
  intros H1 H2. unfold slice. rewrite <- (take_drop (Z.to_nat (mid - lo)) (take (Z.to_nat (hi - lo)) _)).
  rewrite take_take, skipn_firstn_comm, drop_drop. f_equal; f_equal; try f_equal; lia.
Qed.

Lemma slice_full {A} (l : list A) : slice 0 (zlen l) l = l.
Proof. unfold slice. rewrite Z.sub_0_r, drop_0, to_nat_zlen. by apply take_ge. Qed.

Lemma zlen_slice {A} (lo hi : Z) (l : list A) :
  0 <= lo <= hi -> hi <= zlen l -> zlen (slice lo hi l) = hi - lo.
Proof. intros. unfold slice. apply zlen_take. rewrite zlen_drop; lia. Qed.

Lemma be_slice n lo hi (h : list byte) :
  0 <= lo -> hi - lo = Z.of_nat n -> hi <= zlen h ->
  be_bytes n (be_value (slice lo hi h)) = slice lo hi h.
Proof.
  intros H0 Hn Hh. assert (length (slice lo hi h) = n) as <-; [|apply be_bytes_be_value].
  pose proof (zlen_slice lo hi h ltac:(lia) Hh) as Hz. unfold zlen in Hz. lia.
Qed.

Lemma zlen_payload c e o : codec_wf c -> zlen (payload c e o) = PAYLOAD_SIZE.
Proof.
  intros Hc. unfold payload. autorewrite with zlen. rewrite Hc. reflexivity.
Qed.

Lemma decode_any_encode c e o :
  codec_wf c -> u32_range e -> object_wf o ->
  decode_any hmac c (encode hmac c e o) = Ok (e, o).
Proof.
  intros Hc He [Hf Hg]. unfold decode_any, encode.
  set (p := payload c e o). set (h := p ++ tag hmac c p).
  pose proof (zlen_tag c p) as Ht. pose proof (zlen_payload c e o Hc : zlen p = PAYLOAD_SIZE) as Hp.
  pose proof (Hc : zlen (instance_id c) = 8) as Hi.
  assert (zlen h = HANDLE_SIZE) as -> by (unfold h; rewrite zlen_app, Hp, Ht; done).
  assert (forall lo hi a b d, p = a ++ b ++ d -> zlen a = lo -> zlen b = hi - lo -> slice lo hi h = b) as Hfield.
  { intros lo hi a b d E Ha Hb. apply (slice_field _ _ a b (d ++ tag hmac c p)); [|done|done].
    unfold h. rewrite E at 1. by rewrite <- !app_assoc. }
  rewrite (Hfield 0 1 [] [FORMAT_VERSION] _ eq_refl) by done.
  rewrite (Hfield 1 9 [FORMAT_VERSION] (instance_id c) _ eq_refl) by done.
  rewrite (Hfield 9 13 (FORMAT_VERSION :: instance_id c) (be_bytes 4 e)
    (be_bytes 8 (file_id o) ++ be_bytes 8 (generation o))); [|done|rewrite zlen_cons; lia|zlen_lia].
  rewrite (Hfield 13 21 (FORMAT_VERSION :: instance_id c ++ be_bytes 4 e) (be_bytes 8 (file_id o))
    (be_bytes 8 (generation o))); [|unfold p, payload; cbn [app]; by rewrite <- !app_assoc|zlen_lia|zlen_lia].
  rewrite (Hfield 21 29 (FORMAT_VERSION :: instance_id c ++ be_bytes 4 e ++ be_bytes 8 (file_id o))
    (be_bytes 8 (generation o)) []);
    [|unfold p, payload; cbn [app]; by rewrite ?app_nil_r, <- ?app_assoc|zlen_lia|zlen_lia].
  rewrite (slice_field 0 PAYLOAD_SIZE [] p (tag hmac c p) h), (slice_field PAYLOAD_SIZE HANDLE_SIZE p (tag hmac c p) [] h);
    [|unfold h; by rewrite app_nil_r|done|done|done|done|done].
  rewrite !bool_decide_eq_true_2 by done. rewrite (proj2 (verify_tag c p _ Ht)) by done. simpl.
  rewrite be_value_be4, !be_value_be8 by done. by destruct o.
Qed.

(** Whatever the decoder accepts is the encoding of what it returns. *)
Lemma decode_any_sound c h e o :
  decode_any hmac c h = Ok (e, o) -> u32_range e /\ object_wf o /\ h = encode hmac c e o.
Proof.
  intros H. unfold decode_any in H.
  destruct (zlen h =? HANDLE_SIZE) eqn:E1; [|done]. zbool. pose proof (E1 : zlen h = 45) as Hl.
  cbn [negb] in H. case_bool_decide as E2; [|done]. case_bool_decide as E3; [|done]. cbn [negb] in H.
  destruct (verify_truncated_left _ _ _ _) eqn:E4; [|done]. injection H as <- <-.
  assert (forall lo hi, 0 <= lo <= hi -> hi <= 45 -> length (slice lo hi h) = Z.to_nat (hi - lo)) as Hlen.
  { intros lo hi ??. pose proof (zlen_slice lo hi h ltac:(lia) ltac:(lia)) as Hz. unfold zlen in Hz. lia. }
  split_and!; [apply be_value_u32, Hlen; lia|split; apply be_value_u64, Hlen; lia|].
  apply verify_tag in E4; [|apply zlen_slice; rewrite ?Hl; unfold HANDLE_SIZE, PAYLOAD_SIZE, INSTANCE_SIZE, TAG_SIZE; lia].
  change PAYLOAD_SIZE with 29 in E4. change HANDLE_SIZE with 45 in E4.
  assert (slice 0 29 h = payload c (be_value (slice 9 13 h))
            (mkObjectKey (be_value (slice 13 21 h)) (be_value (slice 21 29 h)))) as Hp.
  { unfold payload. simpl file_id. simpl generation. rewrite !be_slice by lia. rewrite <- E2, <- E3.
    by rewrite (slice_split 0 1 29), (slice_split 1 9 29), (slice_split 9 13 29), (slice_split 13 21 29) by lia. }
  unfold encode. rewrite <- Hp, <- E4. rewrite <- (slice_full h) at 1. rewrite Hl. apply slice_split; lia.
Qed.

Lemma zlen_encode c e o : codec_wf c -> zlen (encode hmac c e o) = HANDLE_SIZE.
Proof. intros Hc. unfold encode. by rewrite zlen_app, zlen_payload, zlen_tag. Qed.

(** C20: a file handle is exactly what the server issued. The decoder accepts a
    byte string for an object of an export if and only if it is the encoding the
    same server instance produces for them: truncation, a changed byte, another
    format version or a tag that is not the MAC of the payload are all refused,
    and no object has two handles. *)
Theorem decode_any_iff c h e o :
  codec_wf c ->
  decode_any hmac c h = Ok (e, o) <->
  u32_range e /\ object_wf o /\ h = encode hmac c e o.
Proof.
  intros Hc. split; [apply decode_any_sound|intros (? & ? & ->); by apply decode_any_encode].
Qed.

(** Handles do not cross servers or exports. A handle issued by one
    instance is reported stale by an instance with another identifier, whatever
    the secrets are; and a handle of one export is refused for any other. *)
Lemma decode_rejects_foreign c1 c2 e e' o :
  codec_wf c1 -> codec_wf c2 -> u32_range e -> object_wf o ->
  (instance_id c1 <> instance_id c2 -> decode hmac c2 e' (encode hmac c1 e o) = Err StaleInstance) /\
  (e' <> e -> decode hmac c1 e' (encode hmac c1 e o) = Err WrongExport) /\
  decode hmac c1 e (encode hmac c1 e o) = Ok o.
Proof.
  intros H1 H2 He Ho. unfold decode. rewrite (decode_any_encode c1 e o H1 He Ho). simpl.
  split_and!; [|intros Hn; by zdec|by zdec]. intros Hi. unfold decode_any, encode.
  pose proof (zlen_payload c1 e o H1) as Hp. pose proof (zlen_tag c1 (payload c1 e o)) as Ht.
  rewrite zlen_app, Hp, Ht. change (PAYLOAD_SIZE + TAG_SIZE =? HANDLE_SIZE) with true. cbn [negb].
  set (t := tag _ _ _).
  rewrite (slice_field 1 9 [FORMAT_VERSION] (instance_id c1) (be_bytes 4 e ++ be_bytes 8 (file_id o) ++
    be_bytes 8 (generation o) ++ t)); [|unfold payload; by rewrite <- !app_assoc|done|exact H1].
  rewrite (slice_field 0 1 [] [FORMAT_VERSION] (instance_id c1 ++ be_bytes 4 e ++ be_bytes 8 (file_id o) ++
    be_bytes 8 (generation o) ++ t)); [|unfold payload; by rewrite <- !app_assoc|done|done].
  by rewrite bool_decide_eq_true_2, bool_decide_eq_false_2.
Qed.
End Correctness.

(** A 32-byte keyed function used by the examples. *)
Definition toy_hmac (k m : list byte) : list byte := take 32 (k ++ m ++ zeros 32).

Lemma toy_hmac_length k m : zlen (toy_hmac k m) = 32.
Proof.
  unfold toy_hmac. apply (zlen_take 32). rewrite !zlen_app, zlen_zeros by lia. zlen_pos. lia.
Qed.

Definition toy_codec : HandleCodec := mkHandleCodec (zeros 8) [x05].

Lemma decode_any_iff_witness :
  decode_any toy_hmac toy_codec (encode toy_hmac toy_codec 7 (mkObjectKey 1 2)) = Ok (7, mkObjectKey 1 2).
Proof.
  apply (decode_any_iff toy_hmac toy_hmac_length toy_codec); [done|].
  split_and!; [..|done]; vm_compute; intuition congruence.
Defined.

