(* ===== verification/Replay.v ===== *)
(** * [src/replay/cache.rs]: the duplicate-request cache

    One [CacheInner] behind a mutex; each lock section is a function on it. A
    [ReplayLease] is the entry key it owns. [oneshot] senders are waiter
    identifiers, and the messages a lock section sends are part of its result. *)
From S2P Require Import Prelude VfsTypes Reply.
From stdpp Require Import list gmap sorting.
#[local] Open Scope Z_scope.
#[local] Set Warnings "-clear-no-such-hyp".

Record ReplayKey : Type := mkReplayKey { key_client : SocketAddr; key_export : ExportId; key_xid : Z }.
#[global] Instance ReplayKey_eq_dec : EqDecision ReplayKey.
Proof. solve_decision. Defined.
#[global] Instance ReplayKey_countable : Countable ReplayKey.
Proof.
  refine (inj_countable' (fun k => (key_client k, key_export k, key_xid k))
            (fun '(a, e, x) => mkReplayKey a e x) _). by intros [].
Defined.

(** SHA-256 digests of the call (32 bytes). *)
Definition RequestFingerprint : Type := list byte.
#[global] Instance RequestFingerprint_eq_dec : EqDecision RequestFingerprint := ltac:(unfold RequestFingerprint; apply _).
#[global] Instance RequestFingerprint_countable : Countable RequestFingerprint := ltac:(unfold RequestFingerprint; apply _).

Inductive ReplayError : Type := Capacity | Cancelled.
#[global] Instance ReplayError_eq_dec : EqDecision ReplayError.
Proof. solve_decision. Defined.

Record ReplayEntryKey : Type := mkEntryKey {
  request : ReplayKey;
  fingerprint : RequestFingerprint;
  entry_generation : Z
}.
#[global] Instance ReplayEntryKey_eq_dec : EqDecision ReplayEntryKey.
Proof. solve_decision. Defined.
#[global] Instance ReplayEntryKey_countable : Countable ReplayEntryKey.
Proof.
  refine (inj_countable' (fun k => (request k, fingerprint k, entry_generation k))
            (fun '(r, f, g) => mkEntryKey r f g) _). by intros [].
Defined.

Record LatestGeneration : Type := mkLatest {
  latest_fingerprint : RequestFingerprint;
  latest_generation : Z
}.

Definition waiter : Type := nat.

Inductive ReplayState : Type :=
| InFlight (waiters : list waiter)
| Completed (encoded_reply : EncodedReply) (charge completed_at : Z).

Record ReplayCache : Type := mkReplayCache { capacity : Z; max_completed_bytes : Z; ttl : Z }.

Record CacheInner : Type := mkInner {
  entries : gmap ReplayEntryKey ReplayState;
  latest : gmap ReplayKey LatestGeneration;
  completed_order : list ReplayEntryKey;
  completed_bytes : Z;
  next_generation : Z
}.

Definition with_entries e i := mkInner e (latest i) (completed_order i) (completed_bytes i) (next_generation i).
Definition with_latest l i := mkInner (entries i) l (completed_order i) (completed_bytes i) (next_generation i).
Definition with_order o i := mkInner (entries i) (latest i) o (completed_bytes i) (next_generation i).
Definition with_bytes b i := mkInner (entries i) (latest i) (completed_order i) b (next_generation i).

Inductive ReplayDecision : Type :=
| Execute (lease : ReplayEntryKey)
| Replay (reply : EncodedReply)
| Wait (receive : waiter).

Definition new : CacheInner := mkInner ∅ ∅ [] 0 0.

Definition is_latest (inner : CacheInner) (key : ReplayEntryKey) : bool :=
  match latest inner !! request key with
  | Some l => (latest_generation l =? entry_generation key) &&
              bool_decide (latest_fingerprint l = fingerprint key)
  | None => false
  end.

Definition is_completed (inner : CacheInner) (key : ReplayEntryKey) : bool :=
  match entries inner !! key with Some (Completed _ _ _) => true | _ => false end.
Definition is_in_flight (inner : CacheInner) (key : ReplayEntryKey) : bool :=
  match entries inner !! key with Some (InFlight _) => true | _ => false end.

Definition forget_latest (inner : CacheInner) (key : ReplayEntryKey) : CacheInner :=
  if is_latest inner key then with_latest (delete (request key) (latest inner)) inner else inner.

Definition remove_completed (inner : CacheInner) (key : ReplayEntryKey) : CacheInner :=
  let removed := with_entries (delete key (entries inner)) inner in
  let inner' :=
    match entries inner !! key with
    | Some (Completed _ charge _) =>
        with_bytes (saturating_sub (completed_bytes inner) charge) removed
    | _ => removed
    end in
  forget_latest inner' key.

Definition remove_completed_for_request (inner : CacheInner) (r : ReplayKey) : CacheInner :=
  match latest inner !! r with
  | None => inner
  | Some l =>
      let key := mkEntryKey r (latest_fingerprint l) (latest_generation l) in
      if is_completed inner key then remove_completed inner key else inner
  end.

(** [Instant::duration_since] saturates at zero. *)
Definition duration_since (now earlier : Z) : Z := Z.max 0 (now - earlier).

(** The loop of [expire]; every turn but the last pops the order queue. *)
Fixpoint expire_loop (order : list ReplayEntryKey) (inner : CacheInner) (now ttl : Z) : CacheInner :=
  match order with
  | [] => with_order [] inner
  | oldest :: rest =>
      match entries inner !! oldest with
      | Some (Completed _ _ completed_at) =>
          if duration_since now completed_at <? ttl then with_order order inner
          else expire_loop rest (remove_completed (with_order rest inner) oldest) now ttl
      | _ => expire_loop rest (with_order rest inner) now ttl
      end
  end.
Definition expire (inner : CacheInner) (now ttl : Z) : CacheInner :=
  expire_loop (completed_order inner) inner now ttl.

Fixpoint evict_loop (order : list ReplayEntryKey) (inner : CacheInner) : bool * CacheInner :=
  match order with
  | [] => (false, with_order [] inner)
  | oldest :: rest =>
      let inner' := with_order rest inner in
      if is_completed inner' oldest then (true, remove_completed inner' oldest)
      else evict_loop rest inner'
  end.
Definition evict_oldest_completed (inner : CacheInner) : bool * CacheInner :=
  evict_loop (completed_order inner) inner.

Definition compact_completion_order (inner : CacheInner) : CacheInner :=
  let compact_at := Z.max (saturating_mul (Z.of_nat (size (entries inner))) 2) 64 in
  if compact_at <? zlen (completed_order inner)
  then with_order (filter (fun key => is_completed inner key = true) (completed_order inner)) inner
  else inner.

(** The new generation [begin] hands to an executor. *)
Definition insert_in_flight (inner : CacheInner) (key : ReplayKey) (fp : RequestFingerprint) : CacheInner :=
  let generation := next_generation inner in
  let entry_key := mkEntryKey key fp generation in
  mkInner (<[entry_key := InFlight []]> (entries inner))
          (<[key := mkLatest fp generation]> (latest inner))
          (completed_order inner) (completed_bytes inner)
          (u64_wrapping_add (next_generation inner) 1).

(** [begin]: one lock section, entered at [now]. [is_closed] tells which waiters
    have gone away and [receive] names the channel a [Wait] would create. *)
Definition begin (cache : ReplayCache) (inner : CacheInner) (now : Z) (is_closed : waiter -> bool)
    (receive : waiter) (key : ReplayKey) (fp : RequestFingerprint)
    : result ReplayError ReplayDecision * CacheInner :=
  let inner := expire inner now (ttl cache) in
  let execute_anew :=
    let inner := remove_completed_for_request inner key in
    let '(room, inner) :=
      if capacity cache <=? Z.of_nat (size (entries inner)) then evict_oldest_completed inner
      else (true, inner) in
    if negb room then (Err Capacity, inner)
    else
      (Ok (Execute (mkEntryKey key fp (next_generation inner))), insert_in_flight inner key fp) in
  match latest inner !! key with
  | Some l =>
      if bool_decide (latest_fingerprint l = fp) then
        let entry_key := mkEntryKey key fp (latest_generation l) in
        match entries inner !! entry_key with
        | Some (InFlight waiters) =>
            let waiters := filter (fun w => is_closed w = false) waiters ++ [receive] in
            (Ok (Wait receive), with_entries (<[entry_key := InFlight waiters]> (entries inner)) inner)
        | Some (Completed encoded_reply _ _) => (Ok (Replay encoded_reply), inner)
        | None => execute_anew
        end
      else execute_anew
  | None => execute_anew
  end.

Definition deliveries : Type := list (waiter * result ReplayError EncodedReply).

Section Complete.
Context (with_capacity : Z -> Z).

(** The part of [complete] before the second lock: the first lock is only taken
    when the reply must be copied. *)
Definition eligible_before_copy (cache : ReplayCache) (inner : CacheInner) (key : ReplayEntryKey)
    (reply : EncodedReply) : bool :=
  (len reply <=? max_completed_bytes cache) &&
  (negb (replay_storage_requires_copy reply) || (is_latest inner key && is_in_flight inner key)).

Definition prepare_storage (cache : ReplayCache) (inner : CacheInner) (key : ReplayEntryKey)
    (reply : EncodedReply) : option (EncodedReply * Z) :=
  if eligible_before_copy cache inner key reply then Some (replay_storage with_capacity reply) else None.
End Complete.

(** [while completed_bytes + retained > max { if !evict { break } }] *)
Fixpoint make_room (fuel : nat) (cache : ReplayCache) (inner : CacheInner) (retained : Z) : CacheInner :=
  if max_completed_bytes cache <? saturating_add (completed_bytes inner) retained then
    match fuel with
    | O => inner
    | S fuel' =>
        match evict_oldest_completed inner with
        | (true, inner') => make_room fuel' cache inner' retained
        | (false, inner') => inner'
        end
    end
  else inner.

(** Storing a reply; the flag is the source's [retained]. *)
Definition retain_reply (cache : ReplayCache) (inner : CacheInner) (key : ReplayEntryKey)
    (now : Z) (encoded_reply : EncodedReply) (retained_bytes : Z) : bool * CacheInner :=
  if retained_bytes <=? max_completed_bytes cache then
    let inner := make_room (S (length (completed_order inner))) cache inner retained_bytes in
    if saturating_add (completed_bytes inner) retained_bytes <=? max_completed_bytes cache then
      (true, compact_completion_order
        (mkInner (<[key := Completed encoded_reply retained_bytes now]> (entries inner)) (latest inner)
                 (completed_order inner ++ [key])
                 (saturating_add (completed_bytes inner) retained_bytes) (next_generation inner)))
    else (false, inner)
  else (false, inner).

(** The second lock section of [complete], entered with the storage prepared
    before it; [now] is the instant it reads while holding the lock. *)
Definition complete (cache : ReplayCache) (inner : CacheInner) (key : ReplayEntryKey)
    (reply : EncodedReply) (replay_storage : option (EncodedReply * Z)) (now : Z)
    : CacheInner * deliveries :=
  match entries inner !! key with
  | Some (InFlight waiters) =>
      let inner := with_entries (delete key (entries inner)) inner in
      let latest_now := is_latest inner key in
      let '(retained, inner) :=
        match latest_now, replay_storage with
        | true, Some (encoded_reply, retained_bytes) =>
            retain_reply cache inner key now encoded_reply retained_bytes
        | _, _ => (false, inner)
        end in
      let inner := if latest_now && negb retained
                   then with_latest (delete (request key) (latest inner)) inner else inner in
      (inner, map (fun w => (w, Ok reply)) waiters)
  | _ => (inner, [])
  end.

Definition cancel (inner : CacheInner) (key : ReplayEntryKey) : CacheInner * deliveries :=
  match entries inner !! key with
  | Some (InFlight waiters) =>
      (forget_latest (with_entries (delete key (entries inner)) inner) key,
       map (fun w => (w, Err Cancelled)) waiters)
  | _ => (forget_latest inner key, [])
  end.

Definition cache_len (inner : CacheInner) : Z := Z.of_nat (size (entries inner)).
Definition cache_is_empty (inner : CacheInner) : bool := cache_len inner =? 0.
Definition cache_retained_bytes (inner : CacheInner) : Z := completed_bytes inner.

(** ** Invariant *)

Definition charge_of (st : ReplayState) : Z :=
  match st with Completed _ charge _ => charge | InFlight _ => 0 end.
Definition total (m : gmap ReplayEntryKey ReplayState) : Z :=
  map_fold (fun _ st acc => charge_of st + acc) 0 m.

(** Completion order respects completion time. *)
Definition before (m : gmap ReplayEntryKey ReplayState) (k1 k2 : ReplayEntryKey) : Prop :=
  forall r1 c1 t1 r2 c2 t2,
    m !! k1 = Some (Completed r1 c1 t1) -> m !! k2 = Some (Completed r2 c2 t2) -> t1 <= t2.

Definition latest_key (r : ReplayKey) (l : LatestGeneration) : ReplayEntryKey :=
  mkEntryKey r (latest_fingerprint l) (latest_generation l).

(** The entry a request resolves to. *)
Definition view (i : CacheInner) (r : ReplayKey) : option (LatestGeneration * ReplayState) :=
  match latest i !! r with
  | Some l => (fun st => (l, st)) <$> entries i !! latest_key r l
  | None => None
  end.

Definition hole_size (hole : option ReplayEntryKey) : Z := if hole is Some _ then 1 else 0.

(** [hole] is the key a [complete] in progress has taken out of [entries]. *)
Record cache_inv (cache : ReplayCache) (clock : Z) (hole : option ReplayEntryKey) (i : CacheInner)
    : Prop := {
  inv_size : Z.of_nat (size (entries i)) + hole_size hole <= capacity cache;
  inv_bytes : completed_bytes i = total (entries i);
  inv_limit : total (entries i) <= max_completed_bytes cache;
  inv_completed k r c t : entries i !! k = Some (Completed r c t) ->
    is_latest i k = true /\ k ∈ completed_order i /\ t <= clock /\ reply_wf r /\ len r <= c;
  inv_latest r l : latest i !! r = Some l ->
    is_Some (entries i !! latest_key r l) \/ hole = Some (latest_key r l);
  inv_order_nodup : NoDup (completed_order i);
  inv_order_len : zlen (completed_order i) <= Z.max (2 * capacity cache) 64;
  inv_order_settled k : k ∈ completed_order i -> is_in_flight i k = false;
  inv_order_time : StronglySorted (before (entries i)) (completed_order i);
  inv_generation k : is_Some (entries i !! k) \/ k ∈ completed_order i \/ hole = Some k ->
    0 <= entry_generation k < next_generation i;
  inv_hole k : hole = Some k -> is_latest i k = true /\ entries i !! k = None /\ k ∉ completed_order i
}.

Lemma total_insert m k st : m !! k = None -> total (<[k := st]> m) = charge_of st + total m.
Proof. intros H. unfold total.
  rewrite (map_fold_insert_L (fun _ st acc => charge_of st + acc)); [done|intros; lia|done]. Qed.

Lemma total_delete m k st : m !! k = Some st -> total (delete k m) = total m - charge_of st.
Proof.
  intros H. rewrite <- (insert_delete_id m k st H) at 2.
  rewrite total_insert by apply lookup_delete_eq. lia.
Qed.

Lemma is_latest_spec i k : is_latest i k = true <-> exists l, latest i !! request k = Some l /\ latest_key (request k) l = k.
Proof.
  unfold is_latest, latest_key. destruct k as [r f g]; simpl. destruct (latest i !! r) as [[f' g']|]; simpl.
  - rewrite andb_true_iff, bool_decide_eq_true, Z.eqb_eq. split.
    + intros [-> ->]. by eexists.
    + intros (l & [= <-] & [= -> ->]). done.
  - split; [done|]. by intros (l & ? & _).
Qed.

(** Two current entries of one request are the same entry. *)
Lemma is_latest_inj i k1 k2 :
  is_latest i k1 = true -> is_latest i k2 = true -> request k1 = request k2 -> k1 = k2.
Proof.
  rewrite !is_latest_spec. intros (l1 & H1 & E1) (l2 & H2 & E2) Hr. rewrite Hr in H1, E1. congruence.
Qed.

(** Deleting completed entries only. *)
Record sheds (i i' : CacheInner) : Prop := {
  sheds_next : next_generation i' = next_generation i;
  sheds_entries k st : entries i' !! k = Some st -> entries i !! k = Some st;
  sheds_in_flight k ws : entries i !! k = Some (InFlight ws) -> entries i' !! k = Some (InFlight ws);
  sheds_view r : view i' r = view i r \/
    (view i' r = None /\ exists l rep c t, view i r = Some (l, Completed rep c t));
  sheds_order : (length (completed_order i') <= length (completed_order i))%nat
}.

Lemma sheds_refl i : sheds i i.
Proof. split; auto. Qed.

Lemma sheds_trans i1 i2 i3 : sheds i1 i2 -> sheds i2 i3 -> sheds i1 i3.
Proof.
  intros [N1 E1 F1 V1 O1] [N2 E2 F2 V2 O2]. split; eauto; try congruence; [|lia].
  intros r. destruct (V2 r) as [->|(-> & l & rep & c & t & H)]; [apply V1|].
  right. split; [done|]. destruct (V1 r) as [E|[E _]]; [|congruence]. rewrite <- E. eauto.
Qed.

Lemma total_nonneg m : (forall k st, m !! k = Some st -> 0 <= charge_of st) -> 0 <= total m.
Proof.
  induction m as [|k st m Hk IH] using map_ind; [done|]. intros H.
  rewrite total_insert by done. pose proof (H k st (lookup_insert_eq _ _ _)).
  assert (0 <= total m); [|lia]. apply IH. intros k' st' Hk'. apply (H k').
  rewrite lookup_insert_ne; [done|congruence].
Qed.

Lemma latest_key_inj r1 l1 r2 l2 : latest_key r1 l1 = latest_key r2 l2 -> r1 = r2 /\ l1 = l2.
Proof. destruct l1, l2. unfold latest_key; simpl. by intros [= -> -> ->]. Qed.

Section Inv.
Context (cache : ReplayCache) (clock : Z) (hole : option ReplayEntryKey).
Abbreviation Inv := (cache_inv cache clock hole).

Lemma inv_charges i k st : Inv i -> entries i !! k = Some st -> 0 <= charge_of st.
Proof.
  intros Hi Hk. destruct st as [ws|r c t]; simpl; [lia|].
  apply Hi in Hk as (_ & _ & _ & Hwf & Hc). rewrite (len_wire r Hwf) in Hc.
  pose proof (zlen_nonneg (wire r)). lia.
Qed.

Lemma remove_completed_eq i k r c t :
  Inv i -> entries i !! k = Some (Completed r c t) ->
  remove_completed i k =
    mkInner (delete k (entries i)) (delete (request k) (latest i)) (completed_order i)
      (total (delete k (entries i))) (next_generation i).
Proof.
  intros Hi Hk. destruct (inv_completed _ _ _ _ Hi _ _ _ _ Hk) as (Hl & _).
  unfold remove_completed, forget_latest. rewrite Hk.
  unfold is_latest in *; simpl. rewrite Hl. unfold with_latest, with_bytes; simpl. f_equal.
  rewrite (inv_bytes _ _ _ _ Hi). unfold saturating_sub.
  assert (0 <= total (delete k (entries i))) as H0.
  { apply total_nonneg. intros k' st H. apply lookup_delete_Some in H as [_ H]. by eapply inv_charges. }
  rewrite (total_delete _ _ _ Hk) in *. simpl in *. lia.
Qed.

Lemma sorted_shrink m m' (l : list ReplayEntryKey) :
  (forall k st, m' !! k = Some st -> m !! k = Some st) ->
  StronglySorted (before m) l -> StronglySorted (before m') l.
Proof.
  intros Hm. induction 1 as [|k l Hs IH Hf]; constructor; [done|].
  eapply Forall_impl; [exact Hf|]. intros k' Hb r1 c1 t1 r2 c2 t2 H1 H2. eapply Hb; eauto.
Qed.

Lemma remove_completed_inv i k r c t :
  Inv i -> entries i !! k = Some (Completed r c t) ->
  Inv (remove_completed i k) /\ sheds i (remove_completed i k).
Proof.
  intros Hi Hk. pose proof (inv_completed _ _ _ _ Hi _ _ _ _ Hk) as (Hl & Ho & _).
  apply is_latest_spec in Hl as (l & Hl & Hlk).
  rewrite (remove_completed_eq _ _ _ _ _ Hi Hk).
  assert (forall k', k' <> k -> is_latest i k' = true ->
    delete (request k) (latest i) !! request k' = latest i !! request k') as Hne.
  { intros k' Hn Hk'. rewrite lookup_delete_ne; [done|]. intros E.
    apply Hn, (is_latest_inj i); [done| |done]. apply is_latest_spec. eauto. }
  assert (forall k', k' <> k -> is_latest i k' = true ->
    is_latest (mkInner (delete k (entries i)) (delete (request k) (latest i)) (completed_order i)
      (total (delete k (entries i))) (next_generation i)) k' = true) as Hkeep.
  { intros k' Hn Hk'. unfold is_latest in *; simpl. by rewrite Hne. }
  split; split; simpl.
  - pose proof (inv_size _ _ _ _ Hi) as H. rewrite map_size_delete, Hk. lia.
  - done.
  - rewrite (total_delete _ _ _ Hk). pose proof (inv_limit _ _ _ _ Hi).
    pose proof (inv_charges _ _ _ Hi Hk). lia.
  - intros k' r' c' t' H. apply lookup_delete_Some in H as [Hn H].
    apply Hi in H as (H1 & H2). split; [|done]. by apply Hkeep.
  - intros r' l' H. apply lookup_delete_Some in H as [Hn H].
    apply Hi in H as [H|H]; [left|by right]. rewrite lookup_delete_ne; [done|].
    intros ->. simpl in *. by apply Hn.
  - apply Hi.
  - apply Hi.
  - intros k' H. apply (inv_order_settled _ _ _ _ Hi) in H. revert H. unfold is_in_flight; simpl.
    destruct (decide (k' = k)) as [->|Hn]; [by rewrite lookup_delete_eq|by rewrite lookup_delete_ne].
  - eapply sorted_shrink; [|apply Hi]. intros k' st H. by apply lookup_delete_Some in H as [_ ?].
  - intros k' H. apply Hi. destruct H as [[st H]|H]; [left|by right].
    apply lookup_delete_Some in H as [_ H]. eauto.
  - intros k' H. apply (inv_hole _ _ _ _ Hi) in H as (H1 & H2 & H3). split_and!; [|apply lookup_delete_None; by right|done].
    apply Hkeep; [congruence|done].
  - done.
  - intros k' st H. by apply lookup_delete_Some in H as [_ ?].
  - intros k' ws H. rewrite lookup_delete_ne; [done|congruence].
  - intros r'. unfold view; simpl. destruct (decide (r' = request k)) as [->|Hn].
    + right. rewrite lookup_delete_eq, Hl, Hlk, Hk. simpl. split; [done|]. eauto.
    + left. rewrite lookup_delete_ne by done. destruct (latest i !! r') as [l'|]; [|done].
      rewrite lookup_delete_ne; [done|]. intros ->. done.
  - done.
Qed.

(** Popping a tombstone. *)
Lemma pop_inv i k rest :
  Inv i -> completed_order i = k :: rest -> is_completed i k = false ->
  Inv (with_order rest i) /\ sheds i (with_order rest i).
Proof.
  intros [] Ho Hk. rewrite Ho in *. split; split; simpl; try done; eauto.
  - intros k' r c t H. destruct (inv_completed0 _ _ _ _ H) as (H1 & H2 & H3). split; [done|]. split; [|done].
    apply list_elem_of_In in H2. destruct H2 as [<-|H2]; [|by apply list_elem_of_In].
    unfold is_completed in Hk. by rewrite H in Hk.
  - by inversion inv_order_nodup0.
  - rewrite zlen_cons in inv_order_len0. lia.
  - intros k' H. apply inv_order_settled0. by constructor.
  - by inversion inv_order_time0.
  - intros k' H. apply inv_generation0. destruct H as [H|[H|H]]; [by left| |by auto]. right; left. by constructor.
  - intros k' H. apply inv_hole0 in H as (H1 & H2 & H3). split_and!; [done|done|]. intros Hin. apply H3. by constructor.
  - rewrite Ho. simpl. lia.
Qed.

(** Removing the completed entry at the front of the queue. *)
Lemma remove_front_inv i k rest r c t :
  Inv i -> completed_order i = k :: rest -> entries i !! k = Some (Completed r c t) ->
  let i' := remove_completed (with_order rest i) k in
  Inv i' /\ sheds i i' /\ completed_order i' = rest /\ entries i' = delete k (entries i).
Proof.
  intros Hi Ho Hk i'.
  destruct (remove_completed_inv i k r c t Hi Hk) as [H1 S1].
  pose proof (remove_completed_eq i k r c t Hi Hk) as E.
  assert (i' = with_order rest (remove_completed i k)) as ->.
  { unfold i', remove_completed, forget_latest, is_latest, with_order, with_bytes, with_latest, with_entries; simpl.
    rewrite Hk; simpl. by destruct (latest i !! request k) as [l|]; simpl; [destruct (_ && _)|]. }
  destruct (pop_inv (remove_completed i k) k rest H1) as [H2 S2].
  { rewrite E. exact Ho. }
  { unfold is_completed. rewrite E. simpl. by rewrite lookup_delete_eq. }
  split_and!; [done|by eapply sheds_trans|done|]. rewrite E. done.
Qed.

Lemma expire_inv i now :
  Inv i -> let i' := expire i now (ttl cache) in Inv i' /\ sheds i i' /\
  forall k r c t, entries i' !! k = Some (Completed r c t) -> duration_since now t < ttl cache.
Proof.
  intros Hi. unfold expire. remember (completed_order i) as order eqn:Ho. symmetry in Ho. revert i Hi Ho.
  induction order as [|k rest IH]; intros i Hi Ho; cbn [expire_loop].
  - replace (with_order [] i) with i by (destruct i; simpl in *; by subst).
    split_and!; [done|apply sheds_refl|]. intros k r c t Hk.
    apply Hi in Hk as (_ & Hk & _). rewrite Ho in Hk. by apply not_elem_of_nil in Hk.
  - assert (forall i', Inv i' -> sheds i i' -> completed_order i' = rest ->
      let j := expire_loop rest i' now (ttl cache) in Inv j /\ sheds i j /\
      forall k r c t, entries j !! k = Some (Completed r c t) -> duration_since now t < ttl cache) as Hgo.
    { intros i' H1 S1 O1. destruct (IH i' H1 O1) as (H2 & S2 & T2).
      split_and!; [done|by eapply sheds_trans|done]. }
    destruct (entries i !! k) as [[ws|r c t]|] eqn:Ek.
    + destruct (pop_inv i k rest Hi Ho) as [? ?]; [unfold is_completed; by rewrite Ek|by apply Hgo].
    + destruct (_ <? _) eqn:Et; zbool.
      * replace (with_order (k :: rest) i) with i by (destruct i; simpl in *; by subst).
        split_and!; [done|apply sheds_refl|]. intros k' r' c' t' Hk'.
        pose proof (inv_completed _ _ _ _ Hi _ _ _ _ Hk') as (_ & Hin & _).
        pose proof (inv_order_time _ _ _ _ Hi) as Hs. rewrite Ho in Hs, Hin.
        apply list_elem_of_In in Hin as [<-|Hin]; [by simplify_eq|].
        inversion Hs as [|? ? _ Hf]; subst. rewrite Forall_forall in Hf.
        apply list_elem_of_In in Hin. specialize (Hf _ Hin _ _ _ _ _ _ Ek Hk').
        unfold duration_since in *. lia.
      * destruct (remove_front_inv i k rest _ _ _ Hi Ho Ek) as (? & ? & ? & _). by apply Hgo.
    + destruct (pop_inv i k rest Hi Ho) as [? ?]; [unfold is_completed; by rewrite Ek|by apply Hgo].
Qed.

(** Expiry leaves every entry younger than the TTL. *)
Lemma expire_keeps i now k r c t :
  Inv i -> entries i !! k = Some (Completed r c t) -> duration_since now t < ttl cache ->
  entries (expire i now (ttl cache)) !! k = Some (Completed r c t).
Proof.
  intros Hi Hk Ht. unfold expire. remember (completed_order i) as order eqn:Ho. symmetry in Ho.
  revert i Hi Hk Ho. induction order as [|k' rest IH]; intros i Hi Hk Ho; cbn [expire_loop]; [done|].
  destruct (entries i !! k') as [[ws|r' c' t']|] eqn:Ek'.
  - apply IH; [|done|done]. apply (pop_inv i k' rest Hi Ho). unfold is_completed. by rewrite Ek'.
  - destruct (_ <? _) eqn:Et; [done|zbool].
    destruct (remove_front_inv i k' rest _ _ _ Hi Ho Ek') as (H1 & _ & H3 & H4).
    apply IH; [done| |done]. rewrite H4, lookup_delete_ne; [done|]. intros ->. simplify_eq. lia.
  - apply IH; [|done|done]. apply (pop_inv i k' rest Hi Ho). unfold is_completed. by rewrite Ek'.
Qed.

(** Eviction removes the first completed entry, or finds that none is left. *)
Lemma evict_inv i :
  Inv i -> let '(room, i') := evict_oldest_completed i in Inv i' /\ sheds i i' /\
  match room with
  | true => exists k r c t, entries i !! k = Some (Completed r c t) /\ entries i' = delete k (entries i) /\
              (length (completed_order i') < length (completed_order i))%nat
  | false => entries i' = entries i /\ latest i' = latest i /\ completed_bytes i' = completed_bytes i /\
             forall k, is_completed i k = false
  end.
Proof.
  intros Hi. unfold evict_oldest_completed. remember (completed_order i) as order eqn:Ho. symmetry in Ho.
  revert i Hi Ho. induction order as [|k rest IH]; intros i Hi Ho; cbn [evict_loop].
  - replace (with_order [] i) with i by (destruct i; simpl in *; by subst).
    split_and!; try done; [apply sheds_refl|]. intros k. unfold is_completed.
    destruct (entries i !! k) as [[|r c t]|] eqn:Ek; try done.
    apply Hi in Ek as (_ & Hk & _). rewrite Ho in Hk. by apply not_elem_of_nil in Hk.
  - change (is_completed (with_order rest i) k) with (is_completed i k).
    destruct (is_completed i k) eqn:Ek.
    + unfold is_completed in Ek. destruct (entries i !! k) as [[|r c t]|] eqn:E; try done.
      destruct (remove_front_inv i k rest _ _ _ Hi Ho E) as (H1 & H2 & H3 & H4).
      split_and!; try done. exists k, r, c, t. rewrite H3. simpl. split_and!; try done. lia.
    + destruct (pop_inv i k rest Hi Ho Ek) as [H1 S1]. specialize (IH _ H1 eq_refl).
      destruct (evict_loop rest (with_order rest i)) as [room i']. destruct IH as (H2 & S2 & H3).
      split_and!; [done|by eapply sheds_trans|]. destruct room; [|done].
      destruct H3 as (k' & r & c & t & ? & ? & Hlt). exists k', r, c, t. split_and!; try done.
      simpl in *. lia.
Qed.

Lemma make_room_inv fuel i retained :
  Inv i -> (length (completed_order i) < fuel)%nat ->
  let i' := make_room fuel cache i retained in
  Inv i' /\ sheds i i' /\
  (saturating_add (completed_bytes i') retained <= max_completed_bytes cache \/
   forall k, is_completed i' k = false).
Proof.
  revert i. induction fuel as [|fuel IH]; intros i Hi Hf; [lia|]. cbn [make_room].
  destruct (_ <? _) eqn:E; zbool; [|split_and!; [done|apply sheds_refl|by left]].
  pose proof (evict_inv i Hi) as Hev. destruct (evict_oldest_completed i) as [[|] i'].
  - destruct Hev as (H1 & S1 & k & r & c & t & _ & _ & Hlt).
    destruct (IH i' H1 ltac:(lia)) as (H2 & S2 & H3). split_and!; [done|by eapply sheds_trans|done].
  - destruct Hev as (H1 & S1 & He & _ & _ & Hn). split_and!; [done|done|right].
    intros k. unfold is_completed in *. rewrite He. apply Hn.
Qed.

Lemma remove_for_request_inv i r :
  Inv i -> let i' := remove_completed_for_request i r in
  Inv i' /\ sheds i i' /\
  (forall l st, view i' r = Some (l, st) -> exists ws, st = InFlight ws).
Proof.
  intros Hi. unfold remove_completed_for_request.
  destruct (latest i !! r) as [l|] eqn:El.
  - fold (latest_key r l). unfold is_completed.
    destruct (entries i !! latest_key r l) as [[ws|rep c t]|] eqn:Ek.
    + split_and!; [done|apply sheds_refl|]. intros l' st. unfold view. rewrite El. simpl. rewrite Ek.
      intros [= <- <-]. eauto.
    + destruct (remove_completed_inv i _ _ _ _ Hi Ek) as [H1 S1]. split_and!; [done|done|].
      rewrite (remove_completed_eq _ _ _ _ _ Hi Ek). unfold view; simpl. by rewrite lookup_delete_eq.
    + split_and!; [done|apply sheds_refl|]. intros l' st. unfold view. rewrite El. simpl. by rewrite Ek.
  - split_and!; [done|apply sheds_refl|]. intros l st. unfold view. by rewrite El.
Qed.
End Inv.

Lemma clock_mono cache clock clock' hole i :
  clock <= clock' -> cache_inv cache clock hole i -> cache_inv cache clock' hole i.
Proof.
  intros Hc []. split; try done. intros k r c t H. apply inv_completed0 in H as (? & ? & ? & ? & ?).
  split_and!; try done. lia.
Qed.

Section Steps.
Context (cache : ReplayCache) (clock : Z).
Abbreviation Inv := (cache_inv cache clock None).

Lemma wrapping_succ n : 0 <= n < u64_max -> u64_wrapping_add n 1 = n + 1.
Proof. intros. unfold u64_wrapping_add, u64_max in *. apply Z.mod_small. lia. Qed.

(** A generation not handed out yet names no entry. *)
Lemma fresh_entry i r f : Inv i -> entries i !! mkEntryKey r f (next_generation i) = None.
Proof.
  intros Hi. destruct (entries i !! _) eqn:E; [|done].
  assert (0 <= next_generation i < next_generation i); [|lia].
  apply (inv_generation _ _ _ _ Hi (mkEntryKey r f (next_generation i))). eauto.
Qed.

Lemma sorted_insert_in_flight m k ws (l : list ReplayEntryKey) :
  StronglySorted (before m) l -> StronglySorted (before (<[k := InFlight ws]> m)) l.
Proof.
  induction 1 as [|k1 l Hs IH Hf]; constructor; [done|].
  eapply Forall_impl; [exact Hf|]. intros k2 Hb r1 c1 t1 r2 c2 t2 H1 H2.
  apply lookup_insert_Some in H1 as [[_ ?]|[_ H1]]; [done|].
  apply lookup_insert_Some in H2 as [[_ ?]|[_ H2]]; [done|]. eapply Hb; eauto.
Qed.

Lemma insert_in_flight_inv i r f :
  Inv i -> Z.of_nat (size (entries i)) < capacity cache -> 0 <= next_generation i < u64_max ->
  (forall l st, view i r = Some (l, st) -> exists ws, st = InFlight ws) ->
  Inv (insert_in_flight i r f).
Proof.
  intros Hi Hs Hn Hv. pose proof (fresh_entry i r f Hi) as Hfr.
  set (k := mkEntryKey r f (next_generation i)) in *.
  assert (forall k' r' c t, <[k := InFlight []]> (entries i) !! k' = Some (Completed r' c t) ->
    entries i !! k' = Some (Completed r' c t) /\ request k' <> r) as Hc.
  { intros k' r' c t H. apply lookup_insert_Some in H as [[_ ?]|[_ H]]; [done|]. split; [done|].
    intros <-. apply (inv_completed _ _ _ _ Hi) in H as Hl. destruct Hl as (Hl & _).
    apply is_latest_spec in Hl as (l & Hl & Hk). destruct (Hv l (Completed r' c t)) as [ws ?]; [|done].
    unfold view. by rewrite Hl, Hk, H. }
  split; simpl; rewrite ?wrapping_succ by done.
  - rewrite map_size_insert_None by done. lia.
  - rewrite total_insert by done. apply Hi.
  - rewrite total_insert by done. apply Hi.
  - intros k' r' c t H. apply Hc in H as [H Hr]. apply Hi in H as (Hl & H). split; [|done].
    unfold is_latest in *; simpl. by rewrite lookup_insert_ne.
  - intros r' l H. left. apply lookup_insert_Some in H as [[<- <-]|[Hr H]].
    + change (latest_key r _) with k. by rewrite lookup_insert_eq.
    + apply Hi in H as [[st H]|]; [|done]. rewrite lookup_insert_ne; [by rewrite H|].
      unfold k, latest_key. congruence.
  - apply Hi.
  - apply Hi.
  - intros k' H. unfold is_in_flight; simpl. rewrite lookup_insert_ne; [by apply (inv_order_settled _ _ _ _ Hi)|].
    intros <-. assert (0 <= next_generation i < next_generation i); [|lia].
    apply (inv_generation _ _ _ _ Hi k). auto.
  - apply sorted_insert_in_flight, Hi.
  - intros k' H. destruct (decide (k' = k)) as [->|Hk]; [simpl; lia|].
    assert (0 <= entry_generation k' < next_generation i); [|lia]. apply Hi.
    destruct H as [[st H]|H]; [left|by right]. rewrite lookup_insert_ne in H by done. eauto.
  - done.
Qed.

(** Replacing the waiters of an in-flight entry. *)
Lemma waiters_inv i k ws ws' :
  Inv i -> entries i !! k = Some (InFlight ws) ->
  Inv (with_entries (<[k := InFlight ws']> (entries i)) i).
Proof.
  intros Hi Hk.
  assert (forall k' r c t, <[k := InFlight ws']> (entries i) !! k' = Some (Completed r c t) ->
    entries i !! k' = Some (Completed r c t)) as Hc.
  { intros k' r c t H. by apply lookup_insert_Some in H as [[_ ?]|[_ H]]. }
  assert (forall k', is_Some (<[k := InFlight ws']> (entries i) !! k') <-> is_Some (entries i !! k')) as Hd.
  { intros k'. destruct (decide (k' = k)) as [->|Hn]; [|by rewrite lookup_insert_ne].
    rewrite lookup_insert_eq, Hk. split; eauto. }
  assert (total (<[k := InFlight ws']> (entries i)) = total (entries i)) as Ht.
  { rewrite <- insert_delete_eq, total_insert, (total_delete _ _ _ Hk) by apply lookup_delete_eq. simpl. lia. }
  split; simpl; rewrite ?Ht; try apply Hi.
  - rewrite map_size_insert, Hk. apply Hi.
  - intros k' r c t H. apply Hc in H. apply Hi in H as (H1 & H). by split.
  - intros r l H. rewrite Hd. by apply Hi.
  - intros k' H. apply (inv_order_settled _ _ _ _ Hi) in H. revert H. unfold is_in_flight; simpl.
    destruct (decide (k' = k)) as [->|Hn]; [by rewrite Hk|by rewrite lookup_insert_ne].
  - apply sorted_insert_in_flight, Hi.
  - intros k'. rewrite Hd. apply Hi.
  - done.
Qed.

Lemma all_in_flight_sheds i i' : (forall k, is_completed i k = false) -> sheds i i' -> entries i' = entries i.
Proof.
  intros Hn Hs. apply map_eq. intros k. destruct (entries i !! k) as [[ws|r c t]|] eqn:E.
  - by apply Hs.
  - specialize (Hn k). unfold is_completed in Hn. by rewrite E in Hn.
  - destruct (entries i' !! k) eqn:E'; [|done]. apply Hs in E'. congruence.
Qed.

(** Making room for a new entry of [r]. *)
Lemma admission i r :
  Inv i ->
  let i1 := remove_completed_for_request i r in
  let '(room, i2) := if capacity cache <=? Z.of_nat (size (entries i1)) then evict_oldest_completed i1
                     else (true, i1) in
  Inv i2 /\ sheds i i2 /\
  (forall l st, view i2 r = Some (l, st) -> exists ws, st = InFlight ws) /\
  (room = true -> Z.of_nat (size (entries i2)) < capacity cache) /\
  (room = false -> Z.of_nat (size (entries i2)) = capacity cache /\ forall k, is_completed i2 k = false).
Proof.
  intros Hi i1. destruct (remove_for_request_inv cache clock None i r Hi) as (H1 & S1 & V1).
  fold i1 in H1, S1, V1. pose proof (inv_size _ _ _ _ H1) as Hsz. simpl in Hsz.
  destruct (_ <=? _) eqn:E; zbool; [|split_and!; try done; by intros].
  pose proof (evict_inv cache clock None i1 H1) as Hev. destruct (evict_oldest_completed i1) as [room i2].
  destruct Hev as (H2 & S2 & Hr). split_and!; [done|by eapply sheds_trans|..].
  - intros l st Hv. destruct (sheds_view _ _ S2 r) as [Ev|[Ev _]]; [|congruence].
    apply (V1 l). congruence.
  - intros ->. destruct Hr as (k & rep & c & t & Hk & -> & _). rewrite map_size_delete, Hk.
    assert (size (entries i1) <> 0%nat); [|lia]. intros Hz. apply map_size_empty_iff in Hz.
    rewrite Hz in Hk. by rewrite lookup_empty in Hk.
  - intros ->. destruct Hr as (He & _ & _ & Hn). rewrite He. split; [lia|].
    intros k. unfold is_completed in *. rewrite He. apply Hn.
Qed.

(** A request with no current entry of its own: refused only when every slot is
    in flight, otherwise a new generation, at the cost of completed entries only. *)
Definition admission_outcome (i : CacheInner) (r : ReplayKey) (f : RequestFingerprint)
    (d : result ReplayError ReplayDecision) (i' : CacheInner) : Prop :=
  (d = Err Capacity /\ sheds i i' /\ Z.of_nat (size (entries i')) = capacity cache /\
   forall k, is_completed i' k = false) \/
  (exists i2, sheds i i2 /\ i' = insert_in_flight i2 r f /\
   d = Ok (Execute (mkEntryKey r f (next_generation i)))).

(** What [begin] does, in terms of the entry the request resolves to after
    expiry. *)
Definition begin_outcome (i : CacheInner) (is_closed : waiter -> bool) (receive : waiter) (r : ReplayKey)
    (f : RequestFingerprint) (d : result ReplayError ReplayDecision) (i' : CacheInner) : Prop :=
  match view i r with
  | Some (l, st) =>
      if bool_decide (latest_fingerprint l = f) then
        match st with
        | InFlight ws =>
            d = Ok (Wait receive) /\
            i' = with_entries (<[latest_key r l := InFlight (filter (fun w => is_closed w = false) ws ++ [receive])]>
                   (entries i)) i
        | Completed reply _ _ => d = Ok (Replay reply) /\ i' = i
        end
      else admission_outcome i r f d i'
  | None => admission_outcome i r f d i'
  end.

Lemma begin_inv i now is_closed receive r f :
  Inv i -> 0 <= next_generation i < u64_max ->
  let '(d, i') := begin cache i now is_closed receive r f in
  Inv i' /\ begin_outcome (expire i now (ttl cache)) is_closed receive r f d i'.
Proof.
  intros Hi Hn. unfold begin. destruct (expire_inv cache clock None i now Hi) as (H1 & S1 & _).
  set (i1 := expire i now (ttl cache)) in *.
  assert (0 <= next_generation i1 < u64_max) as Hn1 by (rewrite (sheds_next _ _ S1); done).
  pose proof (admission i1 r H1) as Ha. cbv zeta in Ha.
  destruct (if capacity cache <=? _ then _ else _) as [room i2].
  destruct Ha as (H2 & S2 & V2 & Ht & Hf).
  set (out := if negb room then _ else _).
  assert (Inv out.2 /\ admission_outcome i1 r f out.1 out.2) as [Hout Hadm].
  { unfold out. destruct room; simpl.
    - split; [apply insert_in_flight_inv; auto; by rewrite (sheds_next _ _ S2)|]. right. exists i2.
      split_and!; try done. by rewrite (sheds_next _ _ S2).
    - destruct (Hf eq_refl). split; [done|]. by left. }
  clearbody out. destruct out as [d i']. simpl in *. unfold begin_outcome, view.
  destruct (latest i1 !! r) as [l|] eqn:El; [|done].
  destruct (decide (latest_fingerprint l = f)) as [<-|Hne].
  - rewrite bool_decide_eq_true_2 by done. fold (latest_key r l).
    destruct (entries i1 !! latest_key r l) as [[ws|rep c t]|] eqn:Ek; simpl.
    + rewrite bool_decide_eq_true_2 by done. split; [by eapply waiters_inv|done].
    + rewrite bool_decide_eq_true_2 by done. done.
    + done.
  - rewrite bool_decide_eq_false_2 by done.
    destruct (entries i1 !! latest_key r l) as [st|] eqn:Ek; simpl; [|done].
    by rewrite bool_decide_eq_false_2.
Qed.

(** Taking an in-flight entry out. *)
Lemma take_out_inv i k ws :
  Inv i -> entries i !! k = Some (InFlight ws) ->
  cache_inv cache clock (if is_latest i k then Some k else None) (with_entries (delete k (entries i)) i).
Proof.
  intros Hi Hk. assert (k ∉ completed_order i) as Hno.
  { intros H. apply (inv_order_settled _ _ _ _ Hi) in H. unfold is_in_flight in H. by rewrite Hk in H. }
  assert (size (entries i) <> 0%nat) as Hsz.
  { intros Hz. apply map_size_empty_iff in Hz. rewrite Hz in Hk. by rewrite lookup_empty in Hk. }
  split; simpl.
  - pose proof (inv_size _ _ _ _ Hi) as H. rewrite map_size_delete, Hk. simpl in H.
    destruct (is_latest i k); simpl; lia.
  - rewrite (total_delete _ _ _ Hk). simpl. rewrite Z.sub_0_r. apply Hi.
  - rewrite (total_delete _ _ _ Hk). simpl. rewrite Z.sub_0_r. apply Hi.
  - intros k' r c t H. apply lookup_delete_Some in H as [_ H]. apply Hi in H as (H1 & H). by split.
  - intros r l H. destruct (decide (latest_key r l = k)) as [<-|Hn].
    + right. replace (is_latest i (latest_key r l)) with true; [done|]. symmetry.
      apply is_latest_spec. by exists l.
    + left. rewrite lookup_delete_ne by done. by apply Hi in H as [?|].
  - apply Hi.
  - apply Hi.
  - intros k' H. unfold is_in_flight; simpl. rewrite lookup_delete_ne by (intros ->; done).
    by apply (inv_order_settled _ _ _ _ Hi).
  - eapply sorted_shrink; [|apply Hi]. intros k' st H. by apply lookup_delete_Some in H as [_ ?].
  - intros k' H. apply (inv_generation _ _ _ _ Hi). destruct H as [[st H]|[H|H]]; [left|auto|left].
    + apply lookup_delete_Some in H as [_ H]. eauto.
    + destruct (is_latest i k); [|done]. injection H as <-. eauto.
  - intros k' H. destruct (is_latest i k) eqn:E; [|done]. injection H as <-.
    split_and!; [done|by apply lookup_delete_eq|done].
Qed.

Lemma forget_hole_inv i k :
  cache_inv cache clock (Some k) i -> Inv (with_latest (delete (request k) (latest i)) i).
Proof.
  intros Hi. destruct (inv_hole _ _ _ _ Hi k eq_refl) as (Hl & He & Ho).
  split; simpl; try apply Hi.
  - pose proof (inv_size _ _ _ _ Hi) as H. simpl in H. lia.
  - intros k' r c t H. pose proof (inv_completed _ _ _ _ Hi _ _ _ _ H) as (H1 & H2). split; [|done].
    unfold is_latest in *; simpl. rewrite lookup_delete_ne; [done|]. intros E.
    assert (k' = k); [|congruence]. by apply (is_latest_inj i).
  - intros r l H. apply lookup_delete_Some in H as [Hn H]. apply Hi in H as [H|[= H]]; [by left|].
    subst k. by simpl in Hn.
  - intros k' H. apply (inv_generation _ _ _ _ Hi). destruct H as [H|[H|H]]; [auto|auto|done].
  - done.
Qed.

Lemma sorted_sublist {A} (R : A -> A -> Prop) (l l' : list A) :
  sublist l' l -> StronglySorted R l -> StronglySorted R l'.
Proof.
  induction 1 as [|x l1 l2 Hs IH|x l1 l2 Hs IH]; intros H; [done|..].
  - apply StronglySorted_inv in H as [H1 H2]. constructor; [by apply IH|].
    rewrite Forall_forall in *. intros y Hy. apply H2. by eapply elem_of_sublist.
  - apply IH. by apply StronglySorted_inv in H as [H1 _].
Qed.

Lemma sorted_insert_other m k st (l : list ReplayEntryKey) :
  k ∉ l -> StronglySorted (before m) l -> StronglySorted (before (<[k := st]> m)) l.
Proof.
  intros Ho Hs. induction Hs as [|x l Hs IH Hf]; [constructor|].
  apply not_elem_of_cons in Ho as [Hx Ho]. constructor; [by apply IH|].
  rewrite Forall_forall in *. intros y Hy r1 c1 t1 r2 c2 t2 H1 H2.
  rewrite lookup_insert_ne in H1 by done. rewrite lookup_insert_ne in H2 by (intros ->; done).
  by eapply Hf.
Qed.

Lemma completed_keys_bound (m : gmap ReplayEntryKey ReplayState) (l : list ReplayEntryKey) :
  base.NoDup l -> (forall k, k ∈ l -> is_Some (m !! k)) -> (length l <= size m)%nat.
Proof.
  intros Hn Hl. rewrite <- (size_list_to_set (C := gset ReplayEntryKey) l Hn), <- (size_dom m).
  apply subseteq_size. intros k Hk. apply elem_of_list_to_set in Hk. apply elem_of_dom. by apply Hl.
Qed.

(** Filling the hole with a completed entry, for any thinning of the order queue
    that keeps the completed keys. *)
Lemma fill_hole_inv i k rep c now order :
  cache_inv cache clock (Some k) i -> clock <= now -> reply_wf rep -> len rep <= c ->
  completed_bytes i + c <= max_completed_bytes cache ->
  let j := mkInner (<[k := Completed rep c now]> (entries i)) (latest i) order
                   (completed_bytes i + c) (next_generation i) in
  sublist order (completed_order i ++ [k]) -> (forall k', is_completed j k' = true -> k' ∈ order) ->
  zlen order <= Z.max (2 * capacity cache) 64 ->
  cache_inv cache now None j.
Proof.
  intros Hi Hc Hwf Hlen Hb j Hsub Hkeep Hol.
  destruct (inv_hole _ _ _ _ Hi k eq_refl) as (Hl & He & Ho).
  assert (forall k', k' ∈ order -> k' ∈ completed_order i \/ k' = k) as Hin.
  { intros k' H. apply (elem_of_sublist _ _ _ H) in Hsub. apply elem_of_app in Hsub as [?|Hk]; [by left|].
    right. by apply list_elem_of_singleton in Hk. }
  split; simpl.
  - rewrite map_size_insert_None by done. pose proof (inv_size _ _ _ _ Hi) as H. simpl in H. lia.
  - rewrite total_insert by done. rewrite (inv_bytes _ _ _ _ Hi). simpl. lia.
  - rewrite total_insert by done. rewrite (inv_bytes _ _ _ _ Hi) in Hb. simpl. lia.
  - intros k' r' c' t' H. assert (k' ∈ order) as Hk'. { apply Hkeep. unfold is_completed; simpl. by rewrite H. }
    apply lookup_insert_Some in H as [[<- [= <- <- <-]]|[_ H]]; [done|].
    apply Hi in H as (? & ? & ? & ? & ?). split_and!; try done. lia.
  - intros r l H. left. apply Hi in H as [H|[= ->]]; [|by rewrite lookup_insert_eq].
    destruct (decide (latest_key r l = k)) as [->|Hn]; [by rewrite lookup_insert_eq|by rewrite lookup_insert_ne].
  - eapply sublist_NoDup; [|exact Hsub]. apply NoDup_app. split_and!; [apply Hi| |apply NoDup_singleton].
    intros x Hx Hxk. apply list_elem_of_singleton in Hxk as ->. done.
  - done.
  - intros k' H. unfold is_in_flight; simpl. destruct (decide (k' = k)) as [->|Hn]; [by rewrite lookup_insert_eq|].
    rewrite lookup_insert_ne by done. apply (inv_order_settled _ _ _ _ Hi). by apply Hin in H as [?|?].
  - eapply sorted_sublist; [exact Hsub|]. apply StronglySorted_app_2; [|..|by repeat constructor].
    + intros x y Hx Hy. apply list_elem_of_singleton in Hy as ->. intros r1 c1 t1 r2 c2 t2 H1 H2.
      rewrite lookup_insert_eq in H2. injection H2 as <- <- <-.
      rewrite lookup_insert_ne in H1 by (intros ->; done). apply Hi in H1 as (_ & _ & Ht & _). lia.
    + apply sorted_insert_other; [done|apply Hi].
  - intros k' H. apply (inv_generation _ _ _ _ Hi). destruct H as [[st H]|[H|H]]; [|apply Hin in H as [?| ->]; auto|done].
    apply lookup_insert_Some in H as [[<- _]|[_ H]]; [auto|left; eauto].
  - done.
Qed.

Lemma compact_completion_order_spec j :
  exists order, compact_completion_order j = with_order order j /\
    sublist order (completed_order j) /\
    (forall k, is_completed j k = true -> k ∈ completed_order j -> k ∈ order) /\
    (Z.of_nat (size (entries j)) <= capacity cache -> base.NoDup (completed_order j) ->
     zlen order <= Z.max (2 * capacity cache) 64).
Proof.
  unfold compact_completion_order. destruct (_ <? _) eqn:E; zbool.
  - eexists. split_and!; [done|apply sublist_filter|intros; by apply list_elem_of_filter|].
    intros Hs Hn. assert (forall l : list ReplayEntryKey, (length l <= size (entries j))%nat -> zlen l <= Z.max (2 * capacity cache) 64)
      as Hl by (unfold zlen; intros; lia).
    apply Hl, completed_keys_bound; [by apply NoDup_filter|]. intros k Hk.
    apply list_elem_of_filter in Hk as [Hk _]. unfold is_completed in Hk. destruct (entries j !! k); [eauto|done].
  - exists (completed_order j). split_and!; try done; [by destruct j|].
    intros Hs _. unfold saturating_mul in E. lia.
Qed.

Lemma total_none_completed m : (forall k r c t, m !! k <> Some (Completed r c t)) -> total m = 0.
Proof.
  induction m as [|k st m Hk IH] using map_ind; [done|]. intros H. rewrite total_insert by done.
  destruct st as [ws|r c t]; [|by destruct (H k r c t); rewrite lookup_insert_eq].
  simpl. rewrite IH; [done|]. intros k' r c t Hk'. apply (H k' r c t).
  rewrite lookup_insert_ne; [done|congruence].
Qed.

(** A reply whose charge fits the byte budget is always retained, at the cost
    of older completed replies only. *)
Lemma retain_reply_inv i k now rep c :
  cache_inv cache clock (Some k) i -> clock <= now -> reply_wf rep -> len rep <= c ->
  max_completed_bytes cache < usize_max ->
  let '(retained, i') := retain_reply cache i k now rep c in
  exists i2, sheds i i2 /\
  if retained then
    c <= max_completed_bytes cache /\ cache_inv cache now None i' /\ latest i' = latest i2 /\
    entries i' = <[k := Completed rep c now]> (entries i2) /\ is_latest i' k = true /\
    next_generation i' = next_generation i2
  else max_completed_bytes cache < c /\ i' = i2 /\ cache_inv cache clock (Some k) i'.
Proof.
  intros Hi Hn Hwf Hc Hm. unfold retain_reply. destruct (c <=? _) eqn:E; zbool;
    [|exists i; split_and!; try done; apply sheds_refl].
  destruct (make_room_inv cache clock (Some k) (S (length (completed_order i))) i c Hi ltac:(lia)) as (H2 & S2 & Hr).
  set (i2 := make_room _ _ _ _) in *.
  assert (completed_bytes i2 + c <= max_completed_bytes cache) as Hb.
  { destruct Hr as [Hr|Hr]; [unfold saturating_add in Hr; lia|].
    rewrite (inv_bytes _ _ _ _ H2), total_none_completed; [lia|].
    intros k' r' c' t' H. specialize (Hr k'). unfold is_completed in Hr. by rewrite H in Hr. }
  assert (saturating_add (completed_bytes i2) c = completed_bytes i2 + c) as Hsat by (unfold saturating_add; lia).
  rewrite Hsat. destruct (_ <=? max_completed_bytes cache) eqn:E2 in |- *; zbool; [|lia].
  set (j := mkInner _ _ _ _ _). destruct (inv_hole _ _ _ _ H2 k eq_refl) as (Hl & He & Ho).
  destruct (compact_completion_order_spec j) as (order & -> & Hsub & Hkeep & Hlen).
  assert (base.NoDup (completed_order i2 ++ [k])) as Hnd.
  { apply NoDup_app. split_and!; [apply H2| |apply NoDup_singleton].
    intros x Hx Hxk. by apply list_elem_of_singleton in Hxk as ->. }
  assert (Z.of_nat (size (entries j)) <= capacity cache) as Hsz.
  { simpl. rewrite map_size_insert_None by done. pose proof (inv_size _ _ _ _ H2) as H. simpl in H. lia. }
  exists i2. split_and!; try done. apply (fill_hole_inv i2 k rep c now order); try done; [|by apply Hlen].
  intros k' Hk'. apply Hkeep; [done|]. simpl. unfold is_completed in Hk'; simpl in Hk'.
  apply elem_of_app. destruct (decide (k' = k)) as [->|Hne]; [right; by apply list_elem_of_singleton|left].
  rewrite lookup_insert_ne in Hk' by done.
  destruct (entries i2 !! k') as [[|r' c' t']|] eqn:Ek; try done. by apply H2 in Ek as (_ & ? & _).
Qed.

Definition storage_ok (st : option (EncodedReply * Z)) : Prop :=
  match st with Some (rep, c) => reply_wf rep /\ len rep <= c | None => True end.

(** The entry [complete] leaves for its key. *)
Definition completed_state (i : CacheInner) (k : ReplayEntryKey) (st : option (EncodedReply * Z)) (now : Z)
    : option ReplayState :=
  match is_latest i k, st with
  | true, Some (rep, c) => if c <=? max_completed_bytes cache then Some (Completed rep c now) else None
  | _, _ => None
  end.

(** Every lease but [k]'s is untouched. *)
Record keeps_leases (k : ReplayEntryKey) (i i' : CacheInner) : Prop := {
  keeps_in_flight k' ws : k' <> k ->
    entries i' !! k' = Some (InFlight ws) <-> entries i !! k' = Some (InFlight ws);
  keeps_latest k' ws : k' <> k -> entries i !! k' = Some (InFlight ws) ->
    is_latest i k' = true -> is_latest i' k' = true;
  keeps_generation : next_generation i' = next_generation i
}.

Lemma sheds_latest i i' k ws :
  sheds i i' -> entries i !! k = Some (InFlight ws) -> is_latest i k = true -> is_latest i' k = true.
Proof.
  intros Hs Hk Hl. apply is_latest_spec in Hl as (l & Hl & Hlk).
  assert (view i (request k) = Some (l, InFlight ws)) as Hv by (unfold view; by rewrite Hl, Hlk, Hk).
  destruct (sheds_view _ _ Hs (request k)) as [E|(_ & l' & r & c & t & E)]; [|congruence].
  rewrite Hv in E. unfold view in E. destruct (latest i' !! request k) as [l'|] eqn:E'; [|done].
  destruct (entries i' !! latest_key (request k) l') eqn:E2; [|done]. simpl in E. injection E as -> ->.
  apply is_latest_spec. eauto.
Qed.

Lemma sheds_keeps i i' k : sheds i i' -> keeps_leases k i i'.
Proof.
  intros Hs. split; [|intros; by eapply sheds_latest|apply Hs].
  intros k' ws _. split; apply Hs.
Qed.

Lemma keeps_trans k i1 i2 i3 : keeps_leases k i1 i2 -> keeps_leases k i2 i3 -> keeps_leases k i1 i3.
Proof.
  intros [F1 L1 G1] [F2 L2 G2]. split; [|..|congruence].
  - intros k' ws Hn. rewrite F2, F1 by done. done.
  - intros k' ws Hn H HL. eapply L2; [done| |by eapply L1]. by apply F1.
Qed.

Lemma take_out_keeps i k : keeps_leases k i (with_entries (delete k (entries i)) i).
Proof. split; [|done..]. intros k' ws Hn. simpl. by rewrite lookup_delete_ne. Qed.

Lemma forget_hole_keeps i k : is_latest i k = true -> keeps_leases k i (with_latest (delete (request k) (latest i)) i).
Proof.
  intros Hk. split; [done| |done]. intros k' ws Hn _ Hl. unfold is_latest in *; simpl.
  rewrite lookup_delete_ne; [done|]. intros E. apply Hn. by apply (is_latest_inj i).
Qed.

Lemma complete_inv i k ws reply st now :
  Inv i -> entries i !! k = Some (InFlight ws) -> clock <= now -> storage_ok st ->
  max_completed_bytes cache < usize_max ->
  let '(i', out) := complete cache i k reply st now in
  cache_inv cache now None i' /\ out = map (fun w => (w, Ok reply)) ws /\
  entries i' !! k = completed_state i k st now /\ keeps_leases k i i'.
Proof.
  intros Hi Hk Hn Hst Hm. unfold complete. rewrite Hk. pose proof (take_out_inv i k ws Hi Hk) as H1.
  pose proof (take_out_keeps i k) as K1.
  set (i1 := with_entries (delete k (entries i)) i) in *.
  assert (is_latest i1 k = is_latest i k) as El by done. rewrite El. unfold completed_state.
  assert (forall i', Inv i' -> cache_inv cache now None i') as Hmono by (intros i'; by apply clock_mono).
  destruct (is_latest i k); cbn [andb].
  2:{ split_and!; try done; [by apply Hmono|]. simpl. apply lookup_delete_eq. }
  assert (forall i2, sheds i1 i2 -> cache_inv cache clock (Some k) i2 ->
    cache_inv cache now None (with_latest (delete (request k) (latest i2)) i2) /\
    entries (with_latest (delete (request k) (latest i2)) i2) !! k = None /\
    keeps_leases k i (with_latest (delete (request k) (latest i2)) i2)) as Hdrop.
  { intros i2 S2 H2. destruct (inv_hole _ _ _ _ H2 k eq_refl) as (Hl2 & He2 & _). split_and!; [|done|].
    - by apply Hmono, forget_hole_inv.
    - eapply keeps_trans, forget_hole_keeps; [|done]. eapply keeps_trans; [done|by apply sheds_keeps]. }
  destruct st as [[rep c]|].
  2:{ destruct (Hdrop i1 (sheds_refl _) H1) as (? & ? & ?). by split_and!. }
  destruct Hst as [Hw Hc]. pose proof (retain_reply_inv i1 k now rep c H1 Hn Hw Hc Hm) as Hr.
  destruct (retain_reply cache i1 k now rep c) as [retained i']. destruct Hr as (i2 & S2 & Hr).
  destruct retained; cbn [negb].
  - destruct Hr as (Hfit & Hinv & Hlat & Hent & Hlk & Hgen). split_and!; try done.
    + rewrite Hent, lookup_insert_eq. by zdec.
    + eapply keeps_trans; [exact K1|]. eapply keeps_trans; [by apply sheds_keeps|]. split; [..|done].
      * intros k' ws' Hne. by rewrite Hent, lookup_insert_ne.
      * intros k' ws' Hne _. unfold is_latest. by rewrite Hlat.
  - destruct Hr as (Hbig & -> & Hinv). destruct (Hdrop i2 S2 Hinv) as (? & ? & ?). split_and!; try done.
    by zdec.
Qed.

Lemma cancel_inv i k ws :
  Inv i -> entries i !! k = Some (InFlight ws) ->
  let '(i', out) := cancel i k in
  Inv i' /\ out = map (fun w => (w, Err Cancelled)) ws /\ entries i' !! k = None /\ keeps_leases k i i'.
Proof.
  intros Hi Hk. unfold cancel. rewrite Hk. pose proof (take_out_inv i k ws Hi Hk) as H1.
  pose proof (take_out_keeps i k) as K1. set (i1 := with_entries (delete k (entries i)) i) in *.
  unfold forget_latest. assert (is_latest i1 k = is_latest i k) as -> by done.
  destruct (is_latest i k) eqn:El.
  - split_and!; try done; [by apply forget_hole_inv|simpl; apply lookup_delete_eq|].
    eapply keeps_trans; [exact K1|]. by apply forget_hole_keeps.
  - split_and!; try done. simpl. apply lookup_delete_eq.
Qed.
End Steps.

(** ** Leases and interleavings

    A lease is held, or is inside [complete] between its two lock sections, with
    the storage prepared so far. Steps of different leases interleave freely. *)
Inductive lease_state : Type :=
| Holding
| Completing (reply : EncodedReply) (prepared : option (EncodedReply * Z)).

Record system : Type := mkSystem {
  inner : CacheInner;
  leases : gmap ReplayEntryKey lease_state;
  clock_now : Z
}.

Inductive event : Type :=
| Began (r : ReplayKey) (f : RequestFingerprint) (d : result ReplayError ReplayDecision)
| Prepared (k : ReplayEntryKey)
| Finished (k : ReplayEntryKey) (out : deliveries)
| Dropped (k : ReplayEntryKey) (out : deliveries).

Definition granted (d : result ReplayError ReplayDecision) (m : gmap ReplayEntryKey lease_state) :=
  match d with Ok (Execute k) => <[k := Holding]> m | _ => m end.

Section System.
Context (with_capacity : Z -> Z) (cache : ReplayCache).

Inductive step : system -> event -> system -> Prop :=
| step_begin s now is_closed receive r f d i' :
    begin cache (inner s) now is_closed receive r f = (d, i') ->
    step s (Began r f d) (mkSystem i' (granted d (leases s)) (clock_now s))
| step_prepare s k reply :
    leases s !! k = Some Holding -> reply_wf reply ->
    step s (Prepared k) (mkSystem (inner s)
      (<[k := Completing reply (prepare_storage with_capacity cache (inner s) k reply)]> (leases s)) (clock_now s))
| step_complete s k reply prepared now i' out :
    leases s !! k = Some (Completing reply prepared) -> clock_now s <= now ->
    complete cache (inner s) k reply prepared now = (i', out) ->
    step s (Finished k out) (mkSystem i' (delete k (leases s)) now)
| step_cancel s k i' out :
    leases s !! k = Some Holding -> cancel (inner s) k = (i', out) ->
    step s (Dropped k out) (mkSystem i' (delete k (leases s)) (clock_now s)).

(** [steps s es s']: the events [es], oldest first. *)
Inductive steps : system -> list event -> system -> Prop :=
| steps_nil s : steps s [] s
| steps_snoc s es s' e s'' : steps s es s' -> step s' e s'' -> steps s (es ++ [e]) s''.

Definition initial (t : Z) : system := mkSystem new ∅ t.

Definition is_begin (e : event) : Prop := match e with Began _ _ _ => True | _ => False end.
#[global] Instance is_begin_dec e : Decision (is_begin e).
Proof. destruct e; simpl; apply _. Defined.

Record system_inv (s : system) : Prop := {
  sys_cache : cache_inv cache (clock_now s) None (inner s);
  sys_leases k : is_Some (leases s !! k) <-> is_in_flight (inner s) k = true;
  sys_prepared k reply st : leases s !! k = Some (Completing reply st) -> storage_ok st
}.

Context (capacity_nonneg : 0 <= capacity cache) (bytes_nonneg : 0 <= max_completed_bytes cache < usize_max)
  (with_capacity_ge : forall n, n <= with_capacity n).

Lemma in_flight_iff i k : is_in_flight i k = true <-> exists ws, entries i !! k = Some (InFlight ws).
Proof.
  unfold is_in_flight. destruct (entries i !! k) as [[ws|]|]; split; try done; eauto; by intros [? ?].
Qed.

Lemma initial_inv t : system_inv (initial t).
Proof.
  split.
  - split; simpl; try done.
    all: try solve [constructor]. all: try solve [intros *; rewrite lookup_empty; done].
    + apply bytes_nonneg.
    + change (zlen []) with 0. lia.
    + intros k [[st H]|[H|H]]; [by rewrite lookup_empty in H|by apply not_elem_of_nil in H|done].
  - intros k. unfold is_in_flight; simpl. rewrite !lookup_empty. split; [by intros [? ?]|done].
  - intros k reply st H. simpl in H. by rewrite lookup_empty in H.
Qed.

Lemma prepare_storage_ok i k reply : reply_wf reply -> storage_ok (prepare_storage with_capacity cache i k reply).
Proof.
  intros Hwf. unfold prepare_storage. destruct (eligible_before_copy _ _ _ _); [|done]. simpl.
  unfold replay_storage, compact_bytes. destruct reply as [[b|p q n l] [c|]]; simpl in *; unfold reply_wf, len in *; simpl in *.
  - done.
  - split; apply with_capacity_ge.
  - destruct Hwf as (? & ? & ?). done.
  - destruct Hwf as (? & ? & ?). split_and!; try done; lia.
Qed.

(** In-flight entries after [begin]: the old ones and the granted lease. *)
Lemma begin_in_flight i i1 is_closed receive r f d i' :
  sheds i i1 ->
  (forall i2, sheds i1 i2 -> entries i2 !! mkEntryKey r f (next_generation i2) = None) ->
  begin_outcome cache i1 is_closed receive r f d i' ->
  forall k, is_in_flight i' k = true <-> is_in_flight i k = true \/ d = Ok (Execute k).
Proof.
  intros S1 Hfr Ho k.
  assert (forall i2, sheds i1 i2 -> is_in_flight i2 k = true <-> is_in_flight i k = true) as Hs.
  { intros i2 S2. pose proof (sheds_trans _ _ _ S1 S2) as S. rewrite !in_flight_iff.
    split; intros [ws H]; exists ws; by apply S. }
  assert (admission_outcome cache i1 r f d i' ->
    is_in_flight i' k = true <-> is_in_flight i k = true \/ d = Ok (Execute k)) as Hadm.
  { intros [(-> & S2 & _)|(i2 & S2 & -> & ->)].
    - rewrite (Hs i' S2). naive_solver.
    - rewrite <- (Hs i2 S2). unfold is_in_flight at 1. simpl. rewrite <- (sheds_next _ _ S2).
      destruct (decide (k = mkEntryKey r f (next_generation i2))) as [->|Hn].
      + rewrite lookup_insert_eq. naive_solver.
      + rewrite lookup_insert_ne by done. unfold is_in_flight. naive_solver. }
  unfold begin_outcome in Ho. destruct (view i1 r) as [[l st]|] eqn:Ev; [|by apply Hadm].
  case_bool_decide; [|by apply Hadm].
  assert (entries i1 !! latest_key r l = Some st) as El.
  { unfold view in Ev. destruct (latest i1 !! r) as [l'|]; [|done].
    destruct (entries i1 !! latest_key r l') eqn:E; [|done]. simpl in Ev. by injection Ev as -> ->. }
  rewrite <- (Hs i1 (sheds_refl _)).
  destruct st as [ws|rep c t]; destruct Ho as [-> ->]; [|naive_solver].
  unfold is_in_flight; simpl. destruct (decide (k = latest_key r l)) as [->|Hn].
  - rewrite lookup_insert_eq, El. naive_solver.
  - rewrite lookup_insert_ne by done. naive_solver.
Qed.

Lemma begin_step_inv s now is_closed receive r f d i' :
  system_inv s -> 0 <= next_generation (inner s) < u64_max ->
  begin cache (inner s) now is_closed receive r f = (d, i') ->
  system_inv (mkSystem i' (granted d (leases s)) (clock_now s)) /\
  next_generation (inner s) <= next_generation i' <= next_generation (inner s) + 1.
Proof.
  intros [Hc Hl Hp] Hn Hb. pose proof (begin_inv cache (clock_now s) (inner s) now is_closed receive r f Hc Hn) as H.
  rewrite Hb in H. destruct H as [Hc' Ho].
  destruct (expire_inv cache (clock_now s) None (inner s) now Hc) as (H1 & S1 & _).
  assert (forall i2, sheds (expire (inner s) now (ttl cache)) i2 ->
    entries i2 !! mkEntryKey r f (next_generation i2) = None) as Hfr.
  { intros i2 S2. destruct (entries i2 !! _) eqn:E; [|done]. apply S2 in E.
    rewrite (sheds_next _ _ S2) in E. by rewrite (fresh_entry cache (clock_now s)) in E. }
  pose proof (begin_in_flight _ _ _ _ _ _ _ _ S1 Hfr Ho) as Hfl.
  assert (forall k, is_Some (granted d (leases s) !! k) <-> is_Some (leases s !! k) \/ d = Ok (Execute k)) as Hg.
  { intros k. destruct d as [[k'| |]|]; simpl; [|naive_solver..].
    destruct (decide (k' = k)) as [->|Hne]; [rewrite lookup_insert_eq|rewrite lookup_insert_ne by done]; naive_solver. }
  split.
  - split; simpl; [done| |].
    + intros k. by rewrite Hg, Hfl, Hl.
    + intros k reply st H. destruct d as [[k'| |]|]; simpl in H; eauto.
      apply lookup_insert_Some in H as [[_ ?]|[_ H]]; [done|eauto].
  - assert (next_generation (expire (inner s) now (ttl cache)) = next_generation (inner s)) as Hg1 by apply S1.
    assert (admission_outcome cache (expire (inner s) now (ttl cache)) r f d i' ->
      next_generation (inner s) <= next_generation i' <= next_generation (inner s) + 1) as Hadm.
    { intros [(_ & S2 & _)|(i2 & S2 & -> & _)]; pose proof (sheds_next _ _ S2); simpl; [lia|].
      rewrite wrapping_succ; lia. }
    unfold begin_outcome in Ho. destruct (view _ r) as [[l st]|]; [|by apply Hadm].
    case_bool_decide; [|by apply Hadm]. destruct st; destruct Ho as [_ ->]; simpl; lia.
Qed.

Lemma finish_leases k (m : gmap ReplayEntryKey lease_state) i i' :
  (forall k', is_Some (m !! k') <-> is_in_flight i k' = true) -> keeps_leases k i i' ->
  is_in_flight i' k = false ->
  forall k', is_Some (delete k m !! k') <-> is_in_flight i' k' = true.
Proof.
  intros Hl Hk Hf k'. destruct (decide (k' = k)) as [->|Hn].
  - rewrite lookup_delete_eq, Hf. split; [by intros [? ?]|done].
  - rewrite lookup_delete_ne, Hl, !in_flight_iff by done.
    split; intros [ws H]; exists ws; by apply (keeps_in_flight _ _ _ Hk).
Qed.

(** Every step keeps the invariant while fewer than 2^64 calls have begun. *)
Lemma step_inv s e s' :
  system_inv s -> 0 <= next_generation (inner s) < u64_max \/ ~ is_begin e ->
  step s e s' ->
  system_inv s' /\ next_generation (inner s) <= next_generation (inner s') <=
    next_generation (inner s) + (if decide (is_begin e) then 1 else 0).
Proof.
  intros Hs Hn Hst. destruct Hst as [s now is_closed receive r f d i' Hb|s k reply Hk Hwf|s k reply st now i' out Hk Hc Hb|s k i' out Hk Hb].
  - destruct Hn as [Hn|Hn]; [|by destruct Hn]. by apply begin_step_inv with (r := r) (f := f) in Hb.
  - simpl. split; [|lia]. destruct Hs as [Hi Hl Hp]. split; [done|..].
    + intros k'. simpl. rewrite <- Hl. destruct (decide (k' = k)) as [->|Hne]; [|by rewrite lookup_insert_ne].
      rewrite lookup_insert_eq, Hk. split; eauto.
    + simpl. intros k' reply' st H. apply lookup_insert_Some in H as [[_ [= <- <-]]|[_ H]]; [|eauto].
      by apply prepare_storage_ok.
  - destruct Hs as [Hi Hl Hp]. destruct (proj1 (in_flight_iff (inner s) k)) as [ws Hws]; [apply Hl; eauto|].
    pose proof (complete_inv cache (clock_now s) (inner s) k ws reply st now Hi Hws Hc (Hp _ _ _ Hk) ltac:(lia)) as H.
    rewrite Hb in H. destruct H as (H1 & _ & H3 & H4). simpl. pose proof (keeps_generation _ _ _ H4).
    split; [|lia]. split; simpl; [done| |].
    + apply (finish_leases k _ _ _ Hl H4). unfold is_in_flight. rewrite H3. unfold completed_state.
      destruct (is_latest _ _); [|done]. destruct st as [[? ?]|]; [|done]. by destruct (_ <=? _).
    + intros k' reply' st' H'. apply lookup_delete_Some in H' as [_ H']. eauto.
  - destruct Hs as [Hi Hl Hp]. destruct (proj1 (in_flight_iff (inner s) k)) as [ws Hws]; [apply Hl; eauto|].
    pose proof (cancel_inv cache (clock_now s) (inner s) k ws Hi Hws) as H. rewrite Hb in H.
    destruct H as (H1 & _ & H3 & H4). simpl. pose proof (keeps_generation _ _ _ H4).
    split; [|lia]. split; simpl; [done| |].
    + apply (finish_leases k _ _ _ Hl H4). unfold is_in_flight. by rewrite H3.
    + intros k' reply' st' H'. apply lookup_delete_Some in H' as [_ H']. eauto.
Qed.

Definition begins (es : list event) : Z := zlen (filter is_begin es).

Lemma steps_inv t es s :
  steps (initial t) es s -> begins es <= u64_max ->
  system_inv s /\ 0 <= next_generation (inner s) <= begins es.
Proof.
  intros H. remember (initial t) as s0 eqn:E0. induction H as [s0|s0 es s' e s'' Hst IH Hs]; subst.
  - intros _. split; [apply initial_inv|simpl; change (begins []) with 0; lia].
  - unfold begins. rewrite filter_app, zlen_app. fold (begins es). intros Hb.
    pose proof (zlen_nonneg (filter is_begin [e])). destruct (IH eq_refl ltac:(lia)) as [Hi Hn].
    assert (zlen (filter is_begin [e]) = if decide (is_begin e) then 1 else 0) as Hz.
    { rewrite filter_cons. by destruct (decide (is_begin e)). }
    destruct (step_inv s' e s'' Hi) as [H1 H2]; [|done|].
    { destruct (decide (is_begin e)); [left; lia|by right]. }
    split; [done|lia].
Qed.

(** C16: memory and bookkeeping of the replay cache. In every state reachable by
    interleaved calls (fewer than 2^64 of them): at most [capacity] entries; the
    byte counter is exactly the sum of the charges of the completed replies and
    never exceeds the budget; the completion queue is bounded by
    [max(64, 2 * capacity)]; each completed reply is the current entry of its
    request, and its charge covers its wire length; and the live leases are
    exactly the in-flight entries. *)
Theorem replay_cache_bounds t es s :
  steps (initial t) es s -> begins es <= u64_max ->
  cache_len (inner s) <= capacity cache /\
  cache_retained_bytes (inner s) = total (entries (inner s)) /\
  cache_retained_bytes (inner s) <= max_completed_bytes cache /\
  zlen (completed_order (inner s)) <= Z.max (2 * capacity cache) 64 /\
  (forall k r c u, entries (inner s) !! k = Some (Completed r c u) ->
     is_latest (inner s) k = true /\ len r <= c /\ u <= clock_now s) /\
  (forall k, is_Some (leases s !! k) <-> is_in_flight (inner s) k = true).
Proof.
  intros Hst Hb. destruct (steps_inv t es s Hst Hb) as [[[] Hl _] _]. unfold cache_len, cache_retained_bytes.
  simpl in *. split_and!; try done; try lia.
  intros k r c u H. apply inv_completed0 in H as (? & _ & ? & _ & ?). done.
Qed.

(** The decision of [begin], on every branch. From any reachable state, a
    call is answered from the entry its request resolves to after expiry: the
    same fingerprint in flight waits on that execution, the same fingerprint
    completed replays the stored reply, anything else executes under a new
    generation; it is refused only when all [capacity] entries are in flight. No
    completed entry that survives the expiry is older than the TTL. *)
Lemma replay_begin_decides t es s now is_closed receive r f :
  steps (initial t) es s -> begins es < u64_max ->
  let '(d, i') := begin cache (inner s) now is_closed receive r f in
  let i := expire (inner s) now (ttl cache) in
  begin_outcome cache i is_closed receive r f d i' /\ sheds (inner s) i /\
  forall k rep c u, entries i !! k = Some (Completed rep c u) -> duration_since now u < ttl cache.
Proof.
  intros Hst Hb. destruct (steps_inv t es s Hst ltac:(lia)) as [Hs Hn].
  pose proof (begin_inv cache (clock_now s) (inner s) now is_closed receive r f (sys_cache s Hs) ltac:(lia)) as H.
  destruct (begin _ _ _ _ _ _ _) as [d i']. destruct H as [_ H].
  destruct (expire_inv cache _ _ (inner s) now (sys_cache s Hs)) as (_ & S1 & Ht). done.
Qed.

(** The events that end the currency of lease [k]. *)
Definition ends (k : ReplayEntryKey) (e : event) : Prop :=
  match e with
  | Began r f _ => r = request k /\ f <> fingerprint k
  | Prepared _ => False
  | Finished k' _ | Dropped k' _ => k' = k
  end.

Definition current (s : system) (k : ReplayEntryKey) : Prop :=
  is_Some (leases s !! k) /\ is_latest (inner s) k = true.

Lemma current_view i k ws :
  is_latest i k = true -> entries i !! k = Some (InFlight ws) ->
  exists l, view i (request k) = Some (l, InFlight ws) /\ latest_key (request k) l = k.
Proof.
  intros Hl Hk. apply is_latest_spec in Hl as (l & Hl & Hlk). exists l. split; [|done].
  unfold view. by rewrite Hl, Hlk, Hk.
Qed.

Lemma begin_current s now is_closed receive r f d i' k :
  system_inv s -> 0 <= next_generation (inner s) < u64_max -> current s k ->
  begin cache (inner s) now is_closed receive r f = (d, i') ->
  ~ (r = request k /\ f <> fingerprint k) ->
  is_latest i' k = true /\ (r = request k -> d = Ok (Wait receive)).
Proof.
  intros Hs Hn [Hk Hl] Hb Hne. apply (sys_leases s Hs) in Hk. apply in_flight_iff in Hk as [ws Hk].
  pose proof (begin_inv cache (clock_now s) (inner s) now is_closed receive r f (sys_cache s Hs) Hn) as H.
  rewrite Hb in H. destruct H as [_ Ho].
  destruct (expire_inv cache _ _ (inner s) now (sys_cache s Hs)) as (H1 & S1 & _).
  set (i1 := expire _ _ _) in *. pose proof (sheds_latest _ _ _ _ S1 Hk Hl) as Hl1.
  pose proof (sheds_in_flight _ _ S1 _ _ Hk) as Hk1.
  destruct (current_view i1 k ws Hl1 Hk1) as (l & Hv & Hlk).
  unfold begin_outcome in Ho. destruct (decide (r = request k)) as [->|Hr].
  - rewrite Hv in Ho. assert (latest_fingerprint l = f) as Hf.
    { rewrite <- Hlk in Hne. simpl in Hne. destruct (decide (f = latest_fingerprint l)); [done|].
      destruct Hne. by split. }
    rewrite bool_decide_eq_true_2 in Ho by done. by destruct Ho as [-> ->].
  - split; [|done]. assert (admission_outcome cache i1 r f d i' -> is_latest i' k = true) as Hadm.
    { intros [(_ & S2 & _)|(i2 & S2 & -> & _)]; [by eapply sheds_latest|].
      pose proof (sheds_latest _ _ _ _ S2 Hk1 Hl1) as Hl2. unfold is_latest in *; simpl.
      by rewrite lookup_insert_ne. }
    destruct (view i1 r) as [[l' st]|]; [|by apply Hadm]. case_bool_decide; [|by apply Hadm].
    by destruct st; destruct Ho as [_ ->].
Qed.

Lemma step_current s e s' k :
  system_inv s -> 0 <= next_generation (inner s) < u64_max \/ ~ is_begin e ->
  current s k -> ~ ends k e -> step s e s' -> current s' k.
Proof.
  intros Hs Hn [Hk Hl] He Hst.
  assert (forall k' i', k' <> k -> keeps_leases k' (inner s) i' -> is_latest i' k = true) as Hkeep.
  { intros k' i' Hne HK. pose proof Hk as Hf. apply (sys_leases s Hs) in Hf. apply in_flight_iff in Hf as [ws Hf].
    by apply (keeps_latest _ _ _ HK k ws). }
  destruct Hst as [s now is_closed receive r f d i' Hb|s k' reply Hk' Hwf|s k' reply st now i' out Hk' Hc Hb|s k' i' out Hk' Hb].
  - destruct Hn as [Hn|Hn]; [|by destruct Hn]. split; simpl.
    + destruct d as [[k'| |]|]; simpl; try done.
      destruct (decide (k' = k)) as [->|?]; [rewrite lookup_insert_eq; eauto|by rewrite lookup_insert_ne].
    + by eapply begin_current.
  - split; simpl; [|done]. destruct (decide (k' = k)) as [->|?]; [rewrite lookup_insert_eq; eauto|by rewrite lookup_insert_ne].
  - simpl in He. split; simpl; [by rewrite lookup_delete_ne|]. destruct (proj1 (in_flight_iff (inner s) k')) as [ws Hws].
    { apply Hs. eauto. }
    pose proof (complete_inv cache (clock_now s) (inner s) k' ws reply st now (sys_cache s Hs) Hws Hc
      (sys_prepared s Hs _ _ _ Hk') ltac:(lia)) as H.
    rewrite Hb in H. destruct H as (_ & _ & _ & H). by apply (Hkeep k').
  - simpl in He. split; simpl; [by rewrite lookup_delete_ne|]. destruct (proj1 (in_flight_iff (inner s) k')) as [ws Hws].
    { apply Hs. eauto. }
    pose proof (cancel_inv cache (clock_now s) (inner s) k' ws (sys_cache s Hs) Hws) as H.
    rewrite Hb in H. destruct H as (_ & _ & _ & H). by apply (Hkeep k').
Qed.

Lemma steps_app s1 es1 s2 es2 s3 : steps s1 es1 s2 -> steps s2 es2 s3 -> steps s1 (es1 ++ es2) s3.
Proof.
  intros H1 H2. induction H2 as [s|s es s' e s'' H IH Hs]; [by rewrite app_nil_r|].
  rewrite app_assoc. econstructor; eauto.
Qed.

Lemma begins_app es1 es2 : begins (es1 ++ es2) = begins es1 + begins es2.
Proof. unfold begins. by rewrite filter_app, zlen_app. Qed.

Lemma steps_current t es1 s es2 s' k :
  steps (initial t) es1 s -> steps s es2 s' -> begins (es1 ++ es2) <= u64_max ->
  Forall (fun e => ~ ends k e) es2 -> current s k -> current s' k.
Proof.
  intros H1 H2. revert H1. induction H2 as [s|s es s' e s'' H IH Hs]; intros H1 Hb Hf Hc; [done|].
  apply Forall_app in Hf as [Hf He]. rewrite Forall_singleton in He.
  rewrite app_assoc, begins_app in Hb. pose proof (zlen_nonneg (filter is_begin [e])) as Hp. fold (begins [e]) in Hp.
  specialize (IH H1 ltac:(lia) Hf Hc).
  destruct (steps_inv t (es1 ++ es) s') as [Hi Hn]; [by eapply steps_app|lia|].
  eapply step_current; [done| |exact IH|exact He|done].
  destruct (decide (is_begin e)) as [Hd|]; [left|by right].
  assert (begins [e] = 1); [|lia]. unfold begins. rewrite filter_cons. by rewrite decide_True.
Qed.

(** Retransmissions never run twice. From the moment a call holds the
    current lease of its request, through any interleaving of other calls,
    expiries, evictions and completions, and until the lease ends or the client
    reuses the identifier for a different call, every retransmission of it
    waits for that same execution. *)
Lemma replay_duplicates_wait t es1 s es2 s' k now is_closed receive :
  steps (initial t) es1 s -> current s k ->
  steps s es2 s' -> Forall (fun e => ~ ends k e) es2 -> begins (es1 ++ es2) < u64_max ->
  exists i', begin cache (inner s') now is_closed receive (request k) (fingerprint k) = (Ok (Wait receive), i').
Proof.
  intros H1 Hc H2 Hf Hb. pose proof (steps_current t es1 s es2 s' k H1 H2 ltac:(lia) Hf Hc) as Hc'.
  destruct (steps_inv t (es1 ++ es2) s') as [Hi Hn]; [by eapply steps_app|lia|].
  destruct (begin _ _ _ _ _ _ _) as [d i'] eqn:E. exists i'. f_equal.
  eapply begin_current; [exact Hi|lia|exact Hc'|exact E| |done]. by intros [_ ?].
Qed.

(** *** From a prepared reply to its replay *)

(** The first lock section of [complete]. *)
Definition prepared (s : system) (k : ReplayEntryKey) (reply : EncodedReply) : system :=
  mkSystem (inner s) (<[k := Completing reply (prepare_storage with_capacity cache (inner s) k reply)]> (leases s)) (clock_now s).

Lemma generation_left s e :
  begins [e] + next_generation (inner s) <= u64_max -> 0 <= next_generation (inner s) ->
  0 <= next_generation (inner s) < u64_max \/ ~ is_begin e.
Proof.
  intros Hb Hn. destruct (decide (is_begin e)) as [Hd|]; [left|by right].
  assert (begins [e] = 1); [|lia]. unfold begins. rewrite filter_cons. by rewrite decide_True.
Qed.

Lemma executes_fresh s now is_closed receive r f k i' :
  system_inv s -> 0 <= next_generation (inner s) < u64_max ->
  begin cache (inner s) now is_closed receive r f = (Ok (Execute k), i') -> entry_generation k = next_generation (inner s).
Proof.
  intros Hs Hn Hb. pose proof (begin_inv cache (clock_now s) (inner s) now is_closed receive r f (sys_cache s Hs) Hn) as H.
  rewrite Hb in H. destruct H as [_ Ho].
  destruct (expire_inv cache _ _ (inner s) now (sys_cache s Hs)) as (_ & S1 & _).
  assert (admission_outcome cache (expire (inner s) now (ttl cache)) r f (Ok (Execute k)) i') as [[? _]|(i2 & _ & _ & [= ->])];
    [|done|by simpl; rewrite (sheds_next _ _ S1)].
  unfold begin_outcome in Ho. destruct (view _ _) as [[l [ws|rep c u]]|]; [..|done];
    (destruct (bool_decide _); [by destruct Ho|done]).
Qed.

(** A lease keeps its prepared reply until it ends. *)
Lemma step_completing s e s' k reply st :
  system_inv s -> 0 <= next_generation (inner s) < u64_max \/ ~ is_begin e ->
  leases s !! k = Some (Completing reply st) -> ~ ends k e -> step s e s' -> leases s' !! k = Some (Completing reply st).
Proof.
  intros Hs Hn Hk He Hst.
  destruct Hst as [s now is_closed receive r f d i' Hb|s k' reply' Hk' Hwf|s k' reply' st' now i' out Hk' Hc Hb|s k' i' out Hk' Hb];
    cbn [leases ends] in *; [|rewrite lookup_insert_ne; [done|congruence]|by rewrite lookup_delete_ne..].
  destruct d as [[k'| |]|]; try done. simpl. rewrite lookup_insert_ne; [done|]. intros ->.
  destruct Hn as [Hn|Hn]; [|by destruct Hn]. pose proof (executes_fresh _ _ _ _ _ _ _ _ Hs Hn Hb) as Hg.
  assert (is_Some (leases s !! k)) as [ws Hw]%(sys_leases s Hs)%in_flight_iff by (by eexists).
  assert (entry_generation k < next_generation (inner s)); [|lia].
  apply (inv_generation _ _ _ _ (sys_cache s Hs)). left. by eexists.
Qed.

Lemma steps_completing t es1 s es2 s' k reply st :
  steps (initial t) es1 s -> steps s es2 s' -> begins (es1 ++ es2) <= u64_max ->
  Forall (fun e => ~ ends k e) es2 -> leases s !! k = Some (Completing reply st) -> leases s' !! k = Some (Completing reply st).
Proof.
  intros H1 H2. revert H1. induction H2 as [s|s es s' e s'' H IH Hs]; intros H1 Hb Hf Hc; [done|].
  apply Forall_app in Hf as [Hf He]. rewrite Forall_singleton in He.
  rewrite app_assoc, begins_app in Hb. pose proof (zlen_nonneg (filter is_begin [e])) as Hp. fold (begins [e]) in Hp.
  specialize (IH H1 ltac:(lia) Hf Hc).
  destruct (steps_inv t (es1 ++ es) s') as [Hi Hn]; [by eapply steps_app|lia|].
  eapply step_completing; [done| |exact IH|exact He|done]. apply generation_left; lia.
Qed.

(** *** What may cost a completed entry its place *)

(** Step [e] from [s] leaves the reply stored for [k] at [u] alone: it comes
    before the TTL has passed, does not reuse the request for another call, and
    there is room for what it adds. *)
Definition spares (k : ReplayEntryKey) (u : Z) (s : system) (e : event) (s' : system) : Prop :=
  match e with
  | Began r f d =>
      (exists now is_closed receive,
         begin cache (inner s) now is_closed receive r f = (d, inner s') /\ duration_since now u < ttl cache) /\
      ~ (r = request k /\ f <> fingerprint k) /\
      match d with Ok (Wait _) | Ok (Replay _) => True | _ => Z.of_nat (size (entries (inner s))) < capacity cache end
  | Finished k' _ => forall reply rep c, leases s !! k' = Some (Completing reply (Some (rep, c))) ->
      completed_bytes (inner s) + c <= max_completed_bytes cache
  | Prepared _ | Dropped _ _ => True
  end.

Inductive spared (k : ReplayEntryKey) (u : Z) : system -> list event -> system -> Prop :=
| spared_nil s : spared k u s [] s
| spared_snoc s es s' e s'' :
    spared k u s es s' -> step s' e s'' -> spares k u s' e s'' -> spared k u s (es ++ [e]) s''.

Lemma spared_steps k u s es s' : spared k u s es s' -> steps s es s'.
Proof. induction 1; [constructor|econstructor; eauto]. Qed.

Lemma remove_completed_other i k k' : k <> k' -> entries (remove_completed i k') !! k = entries i !! k.
Proof.
  intros Hne. unfold remove_completed, forget_latest. repeat case_match; simpl; by rewrite lookup_delete_ne.
Qed.

Lemma remove_for_request_other i k r :
  r <> request k -> entries (remove_completed_for_request i r) !! k = entries i !! k.
Proof.
  intros Hne. unfold remove_completed_for_request. destruct (latest i !! r) as [l|]; [|done].
  destruct (is_completed _ _); [|done]. apply remove_completed_other. intros ->. done.
Qed.

Lemma remove_for_request_size i r : (size (entries (remove_completed_for_request i r)) <= size (entries i))%nat.
Proof.
  unfold remove_completed_for_request, remove_completed, forget_latest. repeat case_match; simpl; try lia;
    rewrite map_size_delete; case_match; simpl; lia.
Qed.

Lemma sheds_size i i' : sheds i i' -> (size (entries i') <= size (entries i))%nat.
Proof. intros S. apply map_subseteq_size, map_subseteq_spec. intros k st. apply S. Qed.

(** A stored reply that has not expired is what its request resolves to. *)
Lemma begin_replays s now is_closed receive k rep c u :
  system_inv s -> 0 <= next_generation (inner s) < u64_max ->
  entries (inner s) !! k = Some (Completed rep c u) -> duration_since now u < ttl cache ->
  begin cache (inner s) now is_closed receive (request k) (fingerprint k) =
    (Ok (Replay rep), expire (inner s) now (ttl cache)).
Proof.
  intros Hs Hn He Httl. pose proof (begin_inv cache _ (inner s) now is_closed receive (request k) (fingerprint k) (sys_cache s Hs) Hn) as Hbg.
  destruct (begin _ _ _ _ _ _ _) as [d i2]. destruct Hbg as [_ Ho].
  pose proof (expire_keeps cache _ None _ now k rep c u (sys_cache s Hs) He Httl) as He1.
  destruct (expire_inv cache _ None _ now (sys_cache s Hs)) as (Hi1 & _ & _).
  set (ix := expire _ now (ttl cache)) in *.
  destruct (inv_completed _ _ _ _ Hi1 _ _ _ _ He1) as (Hlx & _). apply is_latest_spec in Hlx as (l & Hlx & Hlk).
  unfold begin_outcome, view in Ho. rewrite Hlx, Hlk, He1 in Ho. simpl in Ho.
  rewrite bool_decide_eq_true_2 in Ho by (by rewrite <- Hlk). by destruct Ho as [-> ->].
Qed.

Lemma begin_spares s now is_closed receive r f d i' k rep c u :
  system_inv s -> 0 <= next_generation (inner s) < u64_max ->
  entries (inner s) !! k = Some (Completed rep c u) -> duration_since now u < ttl cache ->
  ~ (r = request k /\ f <> fingerprint k) ->
  match d with Ok (Wait _) | Ok (Replay _) => True | _ => Z.of_nat (size (entries (inner s))) < capacity cache end ->
  begin cache (inner s) now is_closed receive r f = (d, i') -> entries i' !! k = Some (Completed rep c u).
Proof.
  intros Hs Hn He Httl Hne Hroom Hb. pose proof (expire_keeps cache _ None _ now k rep c u (sys_cache s Hs) He Httl) as He1.
  destruct (decide (r = request k)) as [->|Hr].
  { destruct (decide (f = fingerprint k)) as [->|]; [|by destruct Hne].
    rewrite (begin_replays s now is_closed receive k rep c u) in Hb by done. by injection Hb as <- <-. }
  destruct (expire_inv cache _ None _ now (sys_cache s Hs)) as (_ & S1 & _). apply sheds_size in S1.
  unfold begin in Hb. set (i1 := expire _ now (ttl cache)) in *.
  set (i2 := remove_completed_for_request i1 r) in *.
  pose proof (remove_for_request_other i1 k r Hr) as He2. pose proof (remove_for_request_size i1 r) as Hsz. fold i2 in He2, Hsz.
  set (anew := let '(room, i3) := if capacity cache <=? _ then _ else _ in _) in Hb.
  assert (anew = (d, i') -> entries i' !! k = Some (Completed rep c u)) as Hanew.
  { unfold anew. destruct (capacity cache <=? Z.of_nat (size (entries i2))) eqn:Ec.
    - apply Z.leb_le in Ec. destruct (evict_oldest_completed i2) as [[] i3]; cbn [negb];
        intros [= <- <-]; exfalso; lia.
    - cbn [negb]. intros [= <- <-]. simpl. rewrite lookup_insert_ne; [by rewrite He2|]. intros E. apply Hr. by rewrite <- E. }
  clearbody anew. destruct (latest i1 !! r) as [l|]; [|by apply Hanew].
  destruct (bool_decide _); [|by apply Hanew].
  destruct (entries i1 !! _) as [[ws|rep' c' u']|] eqn:Ek; [| |by apply Hanew]; injection Hb as <- <-; [|done].
  simpl. rewrite lookup_insert_ne; [done|]. intros <-. congruence.
Qed.

Lemma make_room_idle fuel i n : saturating_add (completed_bytes i) n <= max_completed_bytes cache -> make_room fuel cache i n = i.
Proof. intros H. destruct fuel; simpl; by rewrite (proj2 (Z.ltb_ge _ _) H). Qed.

Lemma complete_spares i k' ws reply st now i' out k rep c u :
  entries i !! k' = Some (InFlight ws) -> entries i !! k = Some (Completed rep c u) ->
  (forall rep' c', st = Some (rep', c') -> completed_bytes i + c' <= max_completed_bytes cache) ->
  complete cache i k' reply st now = (i', out) -> entries i' !! k = Some (Completed rep c u).
Proof.
  intros Hk' Hk Hroom. assert (k' <> k) as Hne by congruence. unfold complete. rewrite Hk'.
  set (i1 := with_entries _ i). assert (entries i1 !! k = Some (Completed rep c u)) as He by (simpl; by rewrite lookup_delete_ne).
  assert (forall (b : bool) j, entries (if b then with_latest (delete (request k') (latest j)) j else j) = entries j) as Hl by (by intros []).
  destruct (is_latest i1 k'); [|intros [= <- <-]; by rewrite ?Hl].
  destruct st as [[rep' c']|]; [|intros [= <- <-]; by rewrite ?Hl].
  destruct (retain_reply cache i1 k' now rep' c') as [b j] eqn:Er. intros [= <- <-]. rewrite ?Hl.
  assert (saturating_add (completed_bytes i1) c' <= max_completed_bytes cache) as Hsat.
  { specialize (Hroom _ _ eq_refl). unfold saturating_add. simpl. lia. }
  unfold retain_reply in Er. rewrite make_room_idle in Er by done.
  destruct (c' <=? _); [|by injection Er as <- <-]. destruct (_ <=? _); [|by injection Er as <- <-]. injection Er as <- <-.
  unfold compact_completion_order. destruct (_ <? _); simpl; by rewrite lookup_insert_ne.
Qed.

Lemma step_spares s e s' k rep c u :
  system_inv s -> 0 <= next_generation (inner s) < u64_max \/ ~ is_begin e ->
  step s e s' -> spares k u s e s' -> entries (inner s) !! k = Some (Completed rep c u) ->
  entries (inner s') !! k = Some (Completed rep c u).
Proof.
  intros Hs Hn Hst Hsp Hk.
  destruct Hst as [s now is_closed receive r f d i' Hb|s k' reply Hk' Hwf|s k' reply st now i' out Hk' Hc Hb|s k' i' out Hk' Hb];
    cbn [inner spares] in *.
  - destruct Hn as [Hn|Hn]; [|by destruct Hn]. destruct Hsp as ((now' & cl & rx & Hb' & Ht) & Hne & Hroom).
    by eapply begin_spares.
  - done.
  - destruct (proj1 (in_flight_iff (inner s) k')) as [ws Hws]; [apply Hs; eauto|].
    eapply complete_spares; [exact Hws|done| |exact Hb]. intros rep' c' ->. by eapply Hsp.
  - destruct (proj1 (in_flight_iff (inner s) k')) as [ws Hws]; [apply Hs; eauto|]. assert (k' <> k) by congruence.
    unfold cancel, forget_latest in Hb. rewrite Hws in Hb. injection Hb as <- _.
    destruct (is_latest _ _); simpl; by rewrite lookup_delete_ne.
Qed.

Lemma spared_keeps t es1 s es2 s' k rep c u :
  steps (initial t) es1 s -> spared k u s es2 s' -> begins (es1 ++ es2) <= u64_max ->
  entries (inner s) !! k = Some (Completed rep c u) -> entries (inner s') !! k = Some (Completed rep c u).
Proof.
  intros H1 H2. revert H1. induction H2 as [s|s es s' e s'' H IH Hs Hsp]; intros H1 Hb Hk; [done|].
  rewrite app_assoc, begins_app in Hb. pose proof (zlen_nonneg (filter is_begin [e])) as Hp. fold (begins [e]) in Hp.
  specialize (IH H1 ltac:(lia) Hk).
  destruct (steps_inv t (es1 ++ es) s') as [Hi Hn]; [by eapply steps_app, spared_steps|lia|].
  eapply step_spares; [done| |done|done|done]. apply generation_left; lia.
Qed.

(** The storage prepared for a current lease, when it fits the byte budget. *)
Lemma prepare_current s k reply :
  system_inv s -> current s k -> reply_wf reply -> (replay_storage with_capacity reply).2 <= max_completed_bytes cache ->
  exists rep c, prepare_storage with_capacity cache (inner s) k reply = Some (rep, c) /\ wire rep = wire reply /\
    c <= max_completed_bytes cache.
Proof.
  intros Hs [Hk Hl] Hwf Hfit. apply (sys_leases s Hs) in Hk.
  destruct (replay_storage with_capacity reply) as [rep c] eqn:Er. simpl in Hfit.
  destruct (replay_storage_charge with_capacity reply rep c with_capacity_ge Hwf Er) as [Hw Hc].
  exists rep, c. split_and!; [|done|done]. unfold prepare_storage, eligible_before_copy. rewrite Er, Hl, Hk, orb_true_r. by zdec.
Qed.

(** C15: a finished call is replayed. When the current lease of a request
    completes, through whatever happens between the two lock sections of
    [complete], with a reply whose charge fits the byte budget, every caller that
    was waiting on it receives that reply. From then on, through any further
    interleaving that neither lets the TTL pass, nor reuses the request for
    another call, nor asks for an entry or for bytes when there is no room left
    (which evicts the oldest replies), a retransmission gets a reply with the
    same wire bytes instead of a second execution. *)
Theorem replay_completed_replays t es s k reply es1 s1 ws out s2 es2 s3 now is_closed receive :
  steps (initial t) es s -> current s k -> leases s !! k = Some Holding -> reply_wf reply ->
  (replay_storage with_capacity reply).2 <= max_completed_bytes cache ->
  steps (prepared s k reply) es1 s1 -> Forall (fun e => ~ ends k e) es1 ->
  entries (inner s1) !! k = Some (InFlight ws) -> step s1 (Finished k out) s2 ->
  spared k (clock_now s2) s2 es2 s3 -> begins (es ++ es1 ++ es2) < u64_max ->
  duration_since now (clock_now s2) < ttl cache ->
  out = map (fun w => (w, Ok reply)) ws /\
  exists rep i, begin cache (inner s3) now is_closed receive (request k) (fingerprint k) = (Ok (Replay rep), i) /\
    wire rep = wire reply.
Proof.
  intros Hst Hcur Hk Hwf Hfit Hs1 Hends Hws Hfin Hsp Hb Httl. rewrite !begins_app in Hb.
  pose proof (zlen_nonneg (filter is_begin es1)) as Hp1. fold (begins es1) in Hp1.
  pose proof (zlen_nonneg (filter is_begin es2)) as Hp2. fold (begins es2) in Hp2.
  destruct (steps_inv t es s Hst ltac:(lia)) as [Hs Hn].
  destruct (prepare_current s k reply Hs Hcur Hwf Hfit) as (rep & c & Hprep & Hw & Hc).
  assert (steps (initial t) (es ++ [Prepared k]) (prepared s k reply)) as Hst0
    by (eapply steps_snoc; [done|by apply step_prepare]).
  assert (begins ((es ++ [Prepared k]) ++ es1) = begins es + begins es1) as Hb1 by (by rewrite !begins_app, Z.add_0_r).
  assert (leases s1 !! k = Some (Completing reply (Some (rep, c)))) as Hk1.
  { eapply (steps_completing t _ _ es1); [exact Hst0|exact Hs1|lia|done|]. rewrite <- Hprep. apply lookup_insert_eq. }
  assert (current s1 k) as [_ Hl1].
  { eapply (steps_current t _ _ es1); [exact Hst0|exact Hs1|lia|done|]. destruct Hcur. split; [|done]. eexists. apply lookup_insert_eq. }
  pose proof (steps_app _ _ _ _ _ Hst0 Hs1) as Hst1. destruct (steps_inv t _ s1 Hst1 ltac:(lia)) as [Hi1 Hn1].
  pose proof (steps_snoc _ _ _ _ _ Hst1 Hfin) as Hst2.
  inversion Hfin as [| |? ? reply' st' done_at i1 ? Hk1' Hclk Hcomp E1 E2|]; subst. rewrite Hk1 in Hk1'. injection Hk1' as <- <-.
  pose proof (complete_inv cache _ _ k ws reply _ done_at (sys_cache _ Hi1) Hws Hclk (sys_prepared _ Hi1 _ _ _ Hk1) ltac:(lia)) as H.
  rewrite Hcomp in H. destruct H as (_ & -> & He & _). split; [done|].
  unfold completed_state in He. rewrite Hl1, (proj2 (Z.leb_le _ _) Hc) in He.
  pose proof (spared_steps _ _ _ _ _ Hsp) as Hss. cbn [clock_now] in *.
  assert (begins (((es ++ [Prepared k]) ++ es1) ++ [Finished k (map (fun w => (w, Ok reply)) ws)]) = begins es + begins es1) as Hb2
    by (by rewrite begins_app, Hb1, Z.add_0_r).
  pose proof (spared_keeps t _ _ es2 s3 k rep c done_at Hst2 Hsp ltac:(rewrite begins_app; lia) He) as He3.
  destruct (steps_inv t _ s3 (steps_app _ _ _ _ _ Hst2 Hss) ltac:(rewrite begins_app; lia)) as [Hi3 Hn3].
  rewrite begins_app in Hn3. exists rep. eexists. split; [|done]. apply (begin_replays _ _ _ _ _ _ c done_at); [done|lia|done|done].
Qed.
End System.

(** ** A concrete run: one client, one call in flight *)
Definition toy_cache : ReplayCache := mkReplayCache 2 100 10.
Definition toy_key : ReplayKey := mkReplayKey (mkSocketAddr (V4 2130706433) 700) 1 42.
Definition toy_fp : RequestFingerprint := [Byte.x01].
Definition toy_lease : ReplayEntryKey := mkEntryKey toy_key toy_fp 0.
Definition toy_state : system :=
  mkSystem (insert_in_flight new toy_key toy_fp) (<[toy_lease := Holding]> ∅) 0.
Definition toy_grow (n : Z) : Z := n + 8.
Definition no_closed (w : waiter) : bool := false.

Lemma toy_grow_ge n : n <= toy_grow n.
Proof. unfold toy_grow. lia. Qed.

Lemma toy_run : steps toy_grow toy_cache (initial 0) [Began toy_key toy_fp (Ok (Execute toy_lease))] toy_state.
Proof.
  apply (steps_snoc _ _ _ [] (initial 0)); [constructor|].
  apply (step_begin toy_grow toy_cache (initial 0) 0 no_closed 0%nat toy_key toy_fp (Ok (Execute toy_lease))). reflexivity.
Qed.

Lemma toy_current : current toy_state toy_lease.
Proof. split; [by eexists|reflexivity]. Qed.

Lemma toy_begins : begins [Began toy_key toy_fp (Ok (Execute toy_lease))] < u64_max.
Proof. done. Qed.

Lemma replay_cache_bounds_witness : cache_len (inner toy_state) <= capacity toy_cache.
Proof.
  exact (proj1 (replay_cache_bounds toy_grow toy_cache ltac:(done) ltac:(done) toy_grow_ge 0 _ toy_state toy_run
    (Z.lt_le_incl _ _ toy_begins))).
Defined.

(** The call completes at 4; another client's call is executed meanwhile and a
    retransmission comes at 6. *)
Definition toy_completed : system :=
  mkSystem (mkInner {[toy_lease := Completed (from_vec [] 8) 8 4]} {[toy_key := mkLatest toy_fp 0]} [toy_lease] 8 1) ∅ 4.
Definition toy_other : ReplayKey := mkReplayKey (mkSocketAddr (V4 2130706434) 700) 1 42.
Definition toy_busy : system :=
  mkSystem (insert_in_flight (inner toy_completed) toy_other toy_fp) (<[mkEntryKey toy_other toy_fp 1 := Holding]> ∅) 4.

Lemma toy_finishes : step toy_grow toy_cache (prepared toy_grow toy_cache toy_state toy_lease (from_bytes [])) (Finished toy_lease []) toy_completed.
Proof.
  apply (step_complete toy_grow toy_cache (prepared toy_grow toy_cache toy_state toy_lease (from_bytes [])) toy_lease (from_bytes [])
    (prepare_storage toy_grow toy_cache (inner toy_state) toy_lease (from_bytes [])) 4 (inner toy_completed) []); [reflexivity|done|reflexivity].
Qed.

Lemma toy_spared : spared toy_grow toy_cache toy_lease 4 toy_completed
  [Began toy_other toy_fp (Ok (Execute (mkEntryKey toy_other toy_fp 1)))] toy_busy.
Proof.
  apply (spared_snoc _ _ _ _ _ [] toy_completed); [apply spared_nil|..].
  - apply (step_begin toy_grow toy_cache toy_completed 5 no_closed 0%nat). reflexivity.
  - split_and!; [exists 5, no_closed, 0%nat; split; [reflexivity|done]|by intros [[=] _]|reflexivity].
Qed.

Lemma replay_completed_replays_witness :
  exists rep i, begin toy_cache (inner toy_busy) 6 no_closed 7%nat (request toy_lease) (fingerprint toy_lease) =
    (Ok (Replay rep), i) /\ wire rep = wire (from_bytes []).
Proof.
  refine (proj2 (replay_completed_replays toy_grow toy_cache ltac:(done) ltac:(done) toy_grow_ge 0 _ toy_state toy_lease
    (from_bytes []) [] _ [] [] toy_completed _ toy_busy 6 no_closed 7%nat toy_run toy_current
    eq_refl I ltac:(vm_compute; congruence) (steps_nil _ _ _) (Forall_nil_2 _) eq_refl toy_finishes toy_spared _ _)); by vm_compute.
Defined.
