(* ===== verification/Limits.v ===== *)
(** * [src/server/limits.rs], [src/server/config.rs]: resource limits

    The configured limits and the validation a server must pass before it starts. *)
From S2P Require Import Prelude RpcRecord.

Definition MAXIMUM_MUTATION_REPLY_SIZE : Z := 304.
Definition MAX_VALID_RPC_CALL_PREFIX_SIZE : Z := 440.
Definition MAX_FILE_HANDLE_XDR_SIZE : Z := 68.
Definition WRITE_ARGUMENT_FIXED_SIZE : Z := MAX_FILE_HANDLE_XDR_SIZE + 8 + 4 + 4 + 4.
Definition WRITE_PADDING_ALLOWANCE : Z := 3.
Definition MAXIMUM_WRITE_RECORD_OVERHEAD : Z :=
  MAX_VALID_RPC_CALL_PREFIX_SIZE + WRITE_ARGUMENT_FIXED_SIZE + WRITE_PADDING_ALLOWANCE.
Definition MAXIMUM_READ_REPLY_OVERHEAD : Z := 24 + 4 + 88 + 4 + 4 + 4 + 3.
Definition READDIR_REPLY_OVERHEAD : Z := 24 + 4.

(** [tokio::sync::Semaphore::MAX_PERMITS], documented as [usize::MAX >> 3]. *)
Definition MAX_PERMITS : Z := Z.shiftr usize_max 3.

(** Durations are in nanoseconds. *)
Record ServerLimits : Type := mkServerLimits {
  max_connections : Z;
  max_requests_per_connection : Z;
  max_inflight_requests : Z;
  max_rpc_record_size : Z;
  max_rpc_fragment_size : Z;
  max_fragments_per_record : Z;
  max_buffered_request_bytes : Z;
  max_buffered_reply_bytes : Z;
  max_read_size : Z;
  max_write_size : Z;
  max_readdir_response_size : Z;
  request_timeout : Z;
  idle_connection_timeout : Z;
  replay_cache_capacity : Z;
  replay_cache_max_bytes : Z;
  replay_cache_ttl : Z;
  graceful_shutdown_timeout : Z;
  max_mounts : Z
}.

Definition secs (n : Z) : Z := n * 1000000000.

Definition production_defaults : ServerLimits := {|
  max_connections := 1024;
  max_requests_per_connection := 32;
  max_inflight_requests := 2048;
  max_rpc_record_size := 2 * 1024 * 1024;
  max_rpc_fragment_size := 1024 * 1024;
  max_fragments_per_record := 16;
  max_buffered_request_bytes := 64 * 1024 * 1024;
  max_buffered_reply_bytes := 64 * 1024 * 1024;
  max_read_size := 1024 * 1024;
  max_write_size := 1024 * 1024;
  max_readdir_response_size := 1024 * 1024;
  request_timeout := secs 30;
  idle_connection_timeout := secs 120;
  replay_cache_capacity := 4096;
  replay_cache_max_bytes := 64 * 1024 * 1024;
  replay_cache_ttl := secs 120;
  graceful_shutdown_timeout := secs 10;
  max_mounts := 4096
|}.

Definition transport_record_capacity (l : ServerLimits) : Z :=
  Z.min (max_rpc_record_size l) (saturating_mul (max_rpc_fragment_size l) (max_fragments_per_record l)).

Definition validate (l : ServerLimits) : result string unit :=
  if max_connections l =? 0 then Err "max_connections must be greater than zero"
  else if (max_requests_per_connection l =? 0) || (max_inflight_requests l =? 0) then
    Err "request concurrency limits must be greater than zero"
  else if (MAX_PERMITS <? max_connections l) || (MAX_PERMITS <? max_requests_per_connection l)
          || (MAX_PERMITS <? max_inflight_requests l) then
    Err "connection and request limits exceed the runtime maximum"
  else if (max_rpc_fragment_size l =? 0) || (max_rpc_record_size l <? max_rpc_fragment_size l) then
    Err "RPC record limit must be at least the non-zero fragment limit"
  else if (0x7fffffff <? max_rpc_fragment_size l) || (u32_max <? max_rpc_record_size l) then
    Err "RPC record and fragment limits exceed wire or budgeting capacity"
  else if (max_fragments_per_record l =? 0) || (replay_cache_capacity l =? 0)
          || (replay_cache_max_bytes l =? 0) || (max_mounts l =? 0) then
    Err "fragment, replay, and mount limits must be greater than zero"
  else if (max_buffered_request_bytes l <? max_rpc_record_size l)
          || (max_buffered_reply_bytes l <? max_rpc_record_size l)
          || (MAX_PERMITS <? max_buffered_request_bytes l)
          || (MAX_PERMITS <? max_buffered_reply_bytes l) then
    Err "buffer byte budgets must each hold one record and fit the runtime semaphore"
  else if (max_rpc_record_size l <? MAXIMUM_MUTATION_REPLY_SIZE)
          || (max_fragments_per_record l <? div_ceil MAXIMUM_MUTATION_REPLY_SIZE (max_rpc_fragment_size l)) then
    Err "RPC limits must be able to carry every mutation reply"
  else
    let transport_capacity := transport_record_capacity l in
    let read_capacity := saturating_sub transport_capacity MAXIMUM_READ_REPLY_OVERHEAD in
    let write_capacity := saturating_sub transport_capacity MAXIMUM_WRITE_RECORD_OVERHEAD in
    let readdir_capacity := saturating_sub transport_capacity READDIR_REPLY_OVERHEAD in
    if (max_read_size l =? 0) || (max_write_size l =? 0) || (max_readdir_response_size l =? 0)
       || (read_capacity <? max_read_size l) || (write_capacity <? max_write_size l)
       || (readdir_capacity <? max_readdir_response_size l) then
      Err "transfer limits exceed the effective RPC transport capacity"
    else Ok ().

(** The [RecordLimits] every connection is served with. *)
Definition record_limits (l : ServerLimits) : RecordLimits :=
  mkRecordLimits (max_rpc_record_size l) (max_rpc_fragment_size l) (max_fragments_per_record l).

Module AuthPolicy.
Inductive t : Type := AuthSys | Anonymous | AuthSysOrAnonymous.
#[global] Instance t_eq_dec : EqDecision t.
Proof. solve_decision. Defined.
End AuthPolicy.

Module PortmapperMode.
Inductive t : Type := Disabled | Enabled.
#[global] Instance t_eq_dec : EqDecision t.
Proof. solve_decision. Defined.
End PortmapperMode.

(** Every field is an unsigned machine integer. *)
Definition limits_wf (l : ServerLimits) : Prop :=
  0 <= max_connections l /\ 0 <= max_requests_per_connection l /\ 0 <= max_inflight_requests l /\
  0 <= max_rpc_record_size l /\ 0 <= max_rpc_fragment_size l /\ 0 <= max_fragments_per_record l <= usize_max /\
  0 <= max_read_size l /\ 0 <= max_write_size l /\ 0 <= max_readdir_response_size l /\
  0 <= replay_cache_capacity l /\ 0 <= replay_cache_max_bytes l /\ 0 <= max_mounts l.

(** The facts validation establishes. *)
Record limits_valid (l : ServerLimits) : Prop := {
  valid_fragment : 0 < max_rpc_fragment_size l <= LENGTH_MASK;
  valid_record : max_rpc_fragment_size l <= max_rpc_record_size l <= u32_max;
  valid_fragments : 0 < max_fragments_per_record l;
  valid_mutation : MAXIMUM_MUTATION_REPLY_SIZE <= transport_record_capacity l;
  valid_read : 0 < max_read_size l /\ max_read_size l + MAXIMUM_READ_REPLY_OVERHEAD <= transport_record_capacity l;
  valid_write : 0 < max_write_size l /\ max_write_size l + MAXIMUM_WRITE_RECORD_OVERHEAD <= transport_record_capacity l;
  valid_readdir : 0 < max_readdir_response_size l /\
    max_readdir_response_size l + READDIR_REPLY_OVERHEAD <= transport_record_capacity l;
  valid_buffers : max_rpc_record_size l <= max_buffered_request_bytes l <= MAX_PERMITS /\
    max_rpc_record_size l <= max_buffered_reply_bytes l <= MAX_PERMITS;
  valid_replay : 0 < replay_cache_capacity l /\ 0 < replay_cache_max_bytes l;
  valid_mounts : 0 < max_mounts l;
  valid_requests : 0 < max_connections l /\ 0 < max_requests_per_connection l /\ 0 < max_inflight_requests l
}.

Lemma validate_ok l : limits_wf l -> validate l = Ok () -> limits_valid l.
Proof.
  intros (? & ? & ? & ? & ? & ? & ? & ? & ? & ? & ? & ?) Hv. unfold validate in Hv.
  repeat match type of Hv with (if ?b then _ else _) = _ => let E := fresh in destruct b eqn:E; [done|] end.
  zbool.
  assert (MAXIMUM_MUTATION_REPLY_SIZE <= transport_record_capacity l) as Hm.
  { unfold transport_record_capacity, saturating_mul.
    match goal with Hd : div_ceil _ _ <= _ |- _ => apply div_ceil_le in Hd; [|lia|done] end.
    unfold MAXIMUM_MUTATION_REPLY_SIZE, usize_max in *. lia. }
  unfold saturating_sub in *.
  split; try done; unfold LENGTH_MASK; lia.
Qed.

Lemma transport_capacity_bound l : limits_valid l -> transport_record_capacity l <= u32_max.
Proof. intros []. unfold transport_record_capacity. lia. Qed.

(** What a connection can send is exactly what fits the transport capacity. *)
Lemma validate_record_length_iff l n :
  limits_valid l -> 0 <= n ->
  validate_record_length n (record_limits l) = Ok () <-> n <= transport_record_capacity l.
Proof.
  intros Hl Hn. destruct Hl as [Hf Hr Hc _ _ _ _ _ _ _ _].
  unfold validate_record_length, transport_record_capacity, saturating_mul; simpl.
  assert (n = 0 \/ div_ceil n (max_rpc_fragment_size l) <= max_fragments_per_record l <->
          n <= max_rpc_fragment_size l * max_fragments_per_record l) as Hd.
  { rewrite div_ceil_le by lia. split; [|by right]. intros [->|?]; [nia|done]. }
  destruct (max_rpc_record_size l <? n) eqn:E1; zbool; [split; [done|lia]|].
  replace (max_rpc_fragment_size l =? 0) with false by (symmetry; apply Z.eqb_neq; lia).
  unfold u32_max, usize_max in *.
  destruct (n =? 0) eqn:E0; zbool.
  - destruct (_ <? 1) eqn:E2; zbool; [lia|]. split; [|done]. intros _. subst n. nia.
  - destruct (_ <? div_ceil _ _) eqn:E2; zbool; split; try done; intros H;
      [|destruct Hd as [Hd _]; specialize (Hd (or_intror E2)); lia].
    assert (n <= max_rpc_fragment_size l * max_fragments_per_record l) as Hn2 by lia.
    apply Hd in Hn2 as [?|?]; lia.
Qed.

(** Limits that pass validation are deliverable. Under validated limits a
    reply length is accepted for sending exactly when it is at most the
    transport capacity; that capacity holds the largest mutation reply, a READ
    reply with [max_read_size] bytes and its full overhead, a READDIR reply of
    [max_readdir_response_size], and a WRITE call of [max_write_size] with the
    largest legal RPC header; and one worst-case record fits each buffer budget. *)
Lemma validated_limits_deliver l n :
  limits_wf l -> validate l = Ok () -> 0 <= n ->
  (validate_record_length n (record_limits l) = Ok () <-> n <= transport_record_capacity l) /\
  MAXIMUM_MUTATION_REPLY_SIZE <= transport_record_capacity l /\
  MAXIMUM_READ_REPLY_OVERHEAD + max_read_size l <= transport_record_capacity l /\
  READDIR_REPLY_OVERHEAD + max_readdir_response_size l <= transport_record_capacity l /\
  MAXIMUM_WRITE_RECORD_OVERHEAD + max_write_size l <= transport_record_capacity l /\
  transport_record_capacity l <= max_rpc_record_size l <= max_buffered_request_bytes l /\
  max_rpc_record_size l <= max_buffered_reply_bytes l /\
  max_rpc_fragment_size l <= LENGTH_MASK.
Proof.
  intros Hwf Hv Hn. pose proof (validate_ok l Hwf Hv) as Hl.
  split; [by apply validate_record_length_iff|].
  destruct Hl. assert (transport_record_capacity l <= max_rpc_record_size l) by (unfold transport_record_capacity; lia).
  split_and!; lia.
Qed.

Lemma production_defaults_wf : limits_wf production_defaults.
Proof. unfold limits_wf, usize_max; simpl. lia. Qed.

