(* ===== verification/Vfs.v ===== *)
(** * [src/vfs/mod.rs]: the backend interface, and programs that call it

    The virtual file system is supplied by the application: its operations are
    effects whose answers the environment chooses. Request handlers are programs
    over these effects and the shared mount table; [wp] states what a program
    may ask for and what it returns, whatever the answers are. *)
From S2P Require Import Prelude VfsTypes.
From stdpp Require Import list.
#[local] Open Scope Z_scope.

(** ** The [VirtualFileSystem] operations the server uses *)
Module VfsOp.
Inductive t : Type :=
| capabilities
| root
| getattr (context : RequestContext) (object : ObjectKey)
| lookup (context : RequestContext) (parent : ObjectKey) (name : NfsName.t)
| access (context : RequestContext) (object : ObjectKey) (requested : Z)
| setattr (context : RequestContext) (object : ObjectKey) (attributes : SetAttributes) (guard : option NfsTime)
| readlink (context : RequestContext) (object : ObjectKey)
| read_bytes (context : RequestContext) (object : ObjectKey) (offset count : Z)
| write (context : RequestContext) (object : ObjectKey) (offset : Z) (data : list byte) (requested : WriteStability.t)
| create (context : RequestContext) (parent : ObjectKey) (name : NfsName.t) (attributes : SetAttributes) (mode : CreateMode)
| mkdir (context : RequestContext) (parent : ObjectKey) (name : NfsName.t) (attributes : SetAttributes)
| symlink (context : RequestContext) (parent : ObjectKey) (name : NfsName.t) (target : list byte) (attributes : SetAttributes)
| mknod (context : RequestContext) (parent : ObjectKey) (name : NfsName.t) (node_type : NodeType.t) (attributes : SetAttributes)
| remove (context : RequestContext) (parent : ObjectKey) (name : NfsName.t)
| rmdir (context : RequestContext) (parent : ObjectKey) (name : NfsName.t)
| rename (context : RequestContext) (from_parent : ObjectKey) (from_name : NfsName.t)
         (to_parent : ObjectKey) (to_name : NfsName.t)
| link (context : RequestContext) (object to_parent : ObjectKey) (to_name : NfsName.t)
| readdir (context : RequestContext) (directory : ObjectKey) (cookie : Z) (verifier : list byte) (backend_hint : Z)
| fsstat (context : RequestContext) (object : ObjectKey)
| fsinfo (context : RequestContext) (object : ObjectKey)
| pathconf (context : RequestContext) (object : ObjectKey)
| commit (context : RequestContext) (object : ObjectKey) (offset count : Z).

Definition response (op : t) : Type :=
  match op with
  | capabilities => VfsCapabilities
  | root => ObjectKey
  | getattr _ _ => result NfsError.t FileAttributes
  | lookup _ _ _ => result NfsError.t CreatedObject
  | access _ _ _ => result NfsError.t Z
  | setattr _ _ _ _ | remove _ _ _ | rmdir _ _ _ | link _ _ _ _ | commit _ _ _ _ =>
      result NfsError.t (MutationResult unit)
  | readlink _ _ => result NfsError.t (list byte)
  | read_bytes _ _ _ _ => result NfsError.t ReadBytesResult
  | write _ _ _ _ _ => result NfsError.t (MutationResult BackendWriteResult)
  | create _ _ _ _ _ | mkdir _ _ _ _ | symlink _ _ _ _ _ | mknod _ _ _ _ _ =>
      result NfsError.t (MutationResult CreatedObject)
  | rename _ _ _ _ _ => result NfsError.t (MutationResult unit * MutationResult unit)
  | readdir _ _ _ _ _ => result NfsError.t ReadDirectoryPage
  | fsstat _ _ => result NfsError.t FsStat
  | fsinfo _ _ => result NfsError.t FsInfo
  | pathconf _ _ => result NfsError.t PathConf
  end.

(** The operations that change the file system. *)
Definition mutates (op : t) : bool :=
  match op with
  | setattr _ _ _ _ | write _ _ _ _ _ | create _ _ _ _ _ | mkdir _ _ _ _ | symlink _ _ _ _ _
  | mknod _ _ _ _ _ | remove _ _ _ | rmdir _ _ _ | rename _ _ _ _ _ | link _ _ _ _ | commit _ _ _ _ => true
  | _ => false
  end.

(** The context and the objects an operation names. *)
Definition context_of (op : t) : option RequestContext :=
  match op with
  | capabilities | root => None
  | getattr c _ | lookup c _ _ | access c _ _ | setattr c _ _ _ | readlink c _ | read_bytes c _ _ _
  | write c _ _ _ _ | create c _ _ _ _ | mkdir c _ _ _ | symlink c _ _ _ _ | mknod c _ _ _ _
  | remove c _ _ | rmdir c _ _ | rename c _ _ _ _ | link c _ _ _ | readdir c _ _ _ _
  | fsstat c _ | fsinfo c _ | pathconf c _ | commit c _ _ _ => Some c
  end.
Definition objects_of (op : t) : list ObjectKey :=
  match op with
  | capabilities | root => []
  | getattr _ o | lookup _ o _ | access _ o _ | setattr _ o _ _ | readlink _ o | read_bytes _ o _ _
  | write _ o _ _ _ | create _ o _ _ _ | mkdir _ o _ _ | symlink _ o _ _ _ | mknod _ o _ _ _
  | remove _ o _ | rmdir _ o _ | readdir _ o _ _ _
  | fsstat _ o | fsinfo _ o | pathconf _ o | commit _ o _ _ => [o]
  | rename _ o1 _ o2 _ => [o1; o2]
  | link _ o1 o2 _ => [o1; o2]
  end.
Definition names_of (op : t) : list NfsName.t :=
  match op with
  | lookup _ _ n | create _ _ n _ _ | mkdir _ _ n _ | symlink _ _ n _ _ | mknod _ _ n _ _
  | remove _ _ n | rmdir _ _ n | link _ _ _ n => [n]
  | rename _ _ n1 _ n2 => [n1; n2]
  | _ => []
  end.

(** The default method bodies of the trait; [None] for the required methods.
    [read_bytes] defaults to [read], whose own default is [NotSupported]. *)
Definition default_body (caps : VfsCapabilities) (op : t) : option (response op) :=
  match op with
  | capabilities => None
  | root => None
  | getattr _ _ => None
  | lookup _ _ _ => None
  | access _ _ _ => Some (Err NfsError.NotSupported)
  | setattr _ _ _ _ => Some (Err (unsupported_mutation caps))
  | readlink _ _ => Some (Err NfsError.NotSupported)
  | read_bytes _ _ _ _ => Some (Err NfsError.NotSupported)
  | write _ _ _ _ _ => Some (Err (unsupported_mutation caps))
  | create _ _ _ _ _ => Some (Err (unsupported_mutation caps))
  | mkdir _ _ _ _ => Some (Err (unsupported_mutation caps))
  | symlink _ _ _ _ _ => Some (Err (unsupported_mutation caps))
  | mknod _ _ _ _ _ => Some (Err (unsupported_mutation caps))
  | remove _ _ _ => Some (Err (unsupported_mutation caps))
  | rmdir _ _ _ => Some (Err (unsupported_mutation caps))
  | rename _ _ _ _ _ => Some (Err (unsupported_mutation caps))
  | link _ _ _ _ => Some (Err (unsupported_mutation caps))
  | readdir _ _ _ _ _ => Some (Err NfsError.NotSupported)
  | fsstat _ _ => Some (Err NfsError.NotSupported)
  | fsinfo _ _ => Some (Err NfsError.NotSupported)
  | pathconf _ _ => Some (Err NfsError.NotSupported)
  | commit _ _ _ _ => Some (Err (unsupported_mutation caps))
  end.
End VfsOp.

(** ** The shared mount table *)

(** [Arc<Mutex<Vec<(IpAddr, Vec<u8>)>>>] *)
Definition MountTable : Type := list (IpAddr * list byte).

(** The lock sections of [dispatch_mount]. *)
Module MountOp.
Inductive t : Type :=
| add (client : IpAddr) (path : list byte) (max_mounts : Z)
| snapshot
| remove (client : IpAddr) (path : list byte)
| remove_all (client : IpAddr).

(** [add] answers whether the mount is recorded. *)
Definition response (op : t) : Type :=
  match op with
  | add _ _ _ => bool
  | snapshot => MountTable
  | remove _ _ => unit
  | remove_all _ => unit
  end.

Definition step (op : t) (mounts : MountTable) : response op * MountTable :=
  match op with
  | add client path max_mounts =>
      let already_mounted :=
        existsb (fun entry => bool_decide (entry.1 = client) && bool_decide (entry.2 = path)) mounts in
      if negb already_mounted && (max_mounts <=? zlen mounts) then (false, mounts)
      else if negb already_mounted then (true, mounts ++ [(client, path)])
      else (true, mounts)
  | snapshot => (mounts, mounts)
  | remove client path =>
      (tt, filter (fun entry => entry.1 <> client \/ entry.2 <> path) mounts)
  | remove_all client => (tt, filter (fun entry => entry.1 <> client) mounts)
  end.
End MountOp.

(** ** Programs *)

(** Backends are shared references: an index into the server's backends. *)
Definition vfs_ref : Type := nat.

Inductive effect : Type :=
| Vfs (vfs : vfs_ref) (op : VfsOp.t)
| Mounts (op : MountOp.t).

Definition response (e : effect) : Type :=
  match e with
  | Vfs _ op => VfsOp.response op
  | Mounts op => MountOp.response op
  end.

(** [Panic] is a Rust panic inside the request task. *)
Inductive prog (A : Type) : Type :=
| Ret (a : A)
| Do (e : effect) (k : response e -> prog A)
| Panic.
Arguments Ret {A} a.
Arguments Do {A} e k.
Arguments Panic {A}.

Fixpoint prog_bind_ {A B} (f : A -> prog B) (p : prog A) : prog B :=
  match p with
  | Ret a => f a
  | Do e k => Do e (fun r => prog_bind_ f (k r))
  | Panic => Panic
  end.
#[global] Instance prog_ret : MRet prog := fun A a => Ret a.
#[global] Instance prog_bind : MBind prog := fun A B f p => prog_bind_ f p.

Definition call (v : vfs_ref) (op : VfsOp.t) : prog (VfsOp.response op) := Do (Vfs v op) (fun r => Ret r).
Definition mounts (op : MountOp.t) : prog (MountOp.response op) := Do (Mounts op) (fun r => Ret r).

(** Running against a backend with its own state; the trace of effects is kept. *)
Section Run.
Context {St : Type} (answer : forall (op : VfsOp.t), vfs_ref -> St -> VfsOp.response op * St).

Definition answer_effect (e : effect) (w : St * MountTable) : response e * (St * MountTable) :=
  match e with
  | Vfs v op => let '(r, st) := answer op v w.1 in (r, (st, w.2))
  | Mounts op => let '(r, m) := MountOp.step op w.2 in (r, (w.1, m))
  end.

Fixpoint run {A} (p : prog A) (w : St * MountTable) : option A * (St * MountTable) * list effect :=
  match p with
  | Ret a => (Some a, w, [])
  | Panic => (None, w, [])
  | Do e k =>
      let '(r, w1) := answer_effect e w in
      let '(out, w2, trace) := run (k r) w1 in
      (out, w2, e :: trace)
  end.
End Run.

(** ** What a program may do *)

(** [P] holds of every effect performed and [Q] of the result, provided every
    answer satisfies [R]; a panic is excluded. *)
Fixpoint wp {A} (P : effect -> Prop) (R : forall e, response e -> Prop) (Q : A -> Prop) (p : prog A) : Prop :=
  match p with
  | Ret a => Q a
  | Do e k => P e /\ forall r, R e r -> wp P R Q (k r)
  | Panic => False
  end.

(** At most [n] mutating backend calls on every path. *)
Fixpoint mutations {A} (n : nat) (p : prog A) : Prop :=
  match p with
  | Ret _ | Panic => True
  | Do (Vfs v op) k =>
      if VfsOp.mutates op then
        match n with O => False | S n' => forall r, mutations n' (k r) end
      else forall r, mutations n (k r)
  | Do _ k => forall r, mutations n (k r)
  end.

Lemma wp_weaken {A} (P1 P2 : effect -> Prop) R (Q1 Q2 : A -> Prop) p :
  (forall e, P1 e -> P2 e) -> (forall a, Q1 a -> Q2 a) -> wp P1 R Q1 p -> wp P2 R Q2 p.
Proof. intros HP HQ. induction p as [a|e k IH|]; simpl; [auto| |done]. intros [H Hk]. eauto. Qed.

Lemma wp_bind {A B} P R (Q : B -> Prop) (p : prog A) (f : A -> prog B) :
  wp P R (fun a => wp P R Q (f a)) p -> wp P R Q (p ≫= f).
Proof. induction p as [a|e k IH|]; simpl; [auto| |done]. intros [HP Hk]. eauto. Qed.

Lemma wp_call {A} P R (Q : A -> Prop) v op (f : VfsOp.response op -> prog A) :
  P (Vfs v op) -> (forall r, R (Vfs v op) r -> wp P R Q (f r)) -> wp P R Q (call v op ≫= f).
Proof. intros HP HQ. by split. Qed.

Lemma wp_mounts {A} P R (Q : A -> Prop) op (f : MountOp.response op -> prog A) :
  P (Mounts op) -> (forall r, R (Mounts op) r -> wp P R Q (f r)) -> wp P R Q (mounts op ≫= f).
Proof. intros HP HQ. by split. Qed.

Lemma mutations_weaken {A} n m (p : prog A) : (n <= m)%nat -> mutations n p -> mutations m p.
Proof.
  revert n m. induction p as [a|[v op|op] k IH|]; intros n m Hn; simpl; try done; [|intros; by eapply IH].
  destruct (VfsOp.mutates op); [|intros; by eapply IH].
  destruct n as [|n]; [done|]. destruct m as [|m]; [lia|]. intros H r. eapply IH; [|done]. lia.
Qed.

(** What a program satisfies holds of each of its runs. *)
Lemma wp_run {A St} (answer : forall op, vfs_ref -> St -> VfsOp.response op * St) P R (Q : A -> Prop) p w :
  (forall e w, R e (answer_effect answer e w).1) -> wp P R Q p ->
  exists a w' trace, run answer p w = (Some a, w', trace) /\ Q a /\ Forall P trace.
Proof.
  intros HR. revert w. induction p as [a|e k IH|]; intros w; simpl; [|intros [HP Hk]|done].
  - exists a, w, []. by repeat constructor.
  - destruct (answer_effect answer e w) as [r w1] eqn:E.
    assert (R e r) as Hr by (specialize (HR e w); by rewrite E in HR).
    destruct (IH r w1 (Hk r Hr)) as (a & w' & trace & -> & HQ & Ht).
    exists a, w', (e :: trace). split_and!; [done|done|]. by constructor.
Qed.

(** ** Mount table invariant *)

Lemma mount_member mounts client path :
  existsb (fun entry : IpAddr * list byte => bool_decide (entry.1 = client) && bool_decide (entry.2 = path)) mounts = true
  <-> (client, path) ∈ mounts.
Proof.
  rewrite existsb_exists. split.
  - intros ([c p] & Hin & H). apply andb_true_iff in H as [H1 H2].
    apply bool_decide_eq_true in H1, H2. simpl in *. subst. by apply list_elem_of_In.
  - intros H. exists (client, path). split; [by apply list_elem_of_In|]. simpl.
    by rewrite !bool_decide_eq_true_2.
Qed.

(** The mount table is a bounded set. Every operation keeps it free of
    duplicates and within the configured maximum; an [add] is refused exactly
    when the mount is new and the table is full, and otherwise records it without
    touching other entries; [remove] deletes exactly that mount and [remove_all]
    exactly the mounts of that client. *)
Lemma mount_table_bounded op (mounts : MountTable) max :
  base.NoDup mounts -> zlen mounts <= max ->
  (forall client path m, op = MountOp.add client path m -> m = max) ->
  let '(r, mounts') := MountOp.step op mounts in
  base.NoDup mounts' /\ zlen mounts' <= max /\
  match op as op return MountOp.response op -> Prop with
  | MountOp.add client path _ => fun accepted =>
      (accepted = false <-> ((client, path) ∉ mounts) /\ zlen mounts = max) /\
      (accepted = true -> forall e, e ∈ mounts' <-> (e ∈ mounts \/ e = (client, path))) /\
      (accepted = false -> mounts' = mounts)
  | MountOp.snapshot => fun seen => seen = mounts /\ mounts' = mounts
  | MountOp.remove client path => fun _ => forall e, e ∈ mounts' <-> e ∈ mounts /\ e <> (client, path)
  | MountOp.remove_all client => fun _ => forall e, e ∈ mounts' <-> e ∈ mounts /\ e.1 <> client
  end r.
Proof.
  intros Hnd Hlen Hmax. destruct op as [client path m| |client path|client]; simpl.
  - rewrite (Hmax client path m eq_refl). pose proof (mount_member mounts client path) as Hm.
    destruct (existsb _ mounts) eqn:E; simpl.
    + assert ((client, path) ∈ mounts) as Hin by (by apply Hm). split_and!; try done.
      * split; [done|]. by intros [? _].
      * intros _ e. split; [by left|]. by intros [?| ->].
    + assert ((client, path) ∉ mounts) as Hin by (intros H; apply Hm in H; congruence).
      destruct (max <=? zlen mounts) eqn:El; zbool; simpl.
      * split_and!; try done. split; [|done]. split; [done|lia].
      * split_and!; [..|done].
        -- apply NoDup_app. split_and!; [done| |apply NoDup_singleton].
           intros e He H. apply list_elem_of_singleton in H as ->. done.
        -- rewrite zlen_app. change (zlen [(client, path)]) with 1. lia.
        -- split; [done|]. intros [_ ?]. lia.
        -- intros _ e. rewrite elem_of_app, list_elem_of_singleton. done.
  - done.
  - split_and!; [by apply NoDup_filter| |].
    + eapply Z.le_trans; [apply inj_le, length_filter|done].
    + intros [c p]. rewrite list_elem_of_filter. simpl. split.
      * intros [H Hin]. split; [done|]. intros [= -> ->]. by destruct H.
      * intros [Hin H]. split; [|done]. destruct (decide (c = client)) as [->|]; [right|by left].
        intros ->. done.
  - split_and!; [by apply NoDup_filter| |].
    + eapply Z.le_trans; [apply inj_le, length_filter|done].
    + intros e. rewrite list_elem_of_filter. tauto.
Qed.

