(* ===== verification/Connection.v ===== *)
(** * [src/server/connection.rs] (replies and NFS dispatch), [src/server/mod.rs]

    The state a connection serves from, the builders of RPC replies, and one
    handler per NFSv3 procedure. Handlers are programs over the backend. *)
From S2P Require Import Prelude Replay RpcCodec VfsTypes RpcAuth NfsProcedures NfsCodec RpcRecord Reply Handles Limits Vfs.
Import Encoder.

(** ** Server state *)

(** [ExportState]: the backend is a shared reference. *)
Record ExportState : Type := mkExportState {
  es_vfs : vfs_ref;
  es_id : ExportId;
  es_path : list byte
}.

(** The immutable part of [ConnectionState], shared by all connections. Its
    shared mutable parts are threaded where they are used: the mount table by
    [Vfs.run], the replay cache by [Replay.system], the byte budgets by
    [RpcRecord.semaphore]. *)
Record ConnectionState : Type := mkConnectionState {
  exports : list ExportState;
  limits : ServerLimits;
  auth_policy : AuthPolicy.t;
  portmapper : PortmapperMode.t;
  handles : HandleCodec;
  local_port : Z
}.

Module ServerError.
Inductive t : Type :=
| InvalidConfiguration (message : string)
| Io (kind : IoErrorKind)
| Record (e : RecordError)
| Decode (e : DecodeError)
| Encode (e : EncodeError)
| Replay (e : ReplayError)
| ReplayWaiterClosed
| Task
| ShuttingDown
| Protocol (message : string)
| RequestTimeout
| Entropy.
End ServerError.

Definition NFS_PROGRAM : Z := 100003.
Definition NFS_VERSION : Z := 3.
Definition MOUNT_PROGRAM : Z := 100005.
Definition MOUNT_VERSION : Z := 3.
Definition PORTMAP_PROGRAM : Z := 100000.
Definition PORTMAP_VERSION : Z := 2.
Definition IPPROTO_TCP : Z := 6.

Definition RPC_CALL : Z := 0.
Definition RPC_REPLY : Z := 1.
Definition MSG_ACCEPTED : Z := 0.
Definition SUCCESS : Z := 0.
Definition PROG_UNAVAIL : Z := 1.
Definition PROG_MISMATCH : Z := 2.
Definition PROC_UNAVAIL : Z := 3.
Definition GARBAGE_ARGS : Z := 4.
Definition SYSTEM_ERR : Z := 5.

(** ** RPC replies *)

Definition accepted_reply_encoder (xid status body_capacity : Z) : encoder :=
  let reply := with_capacity (saturating_add 24 body_capacity) in
  let reply := write_u32 xid reply in
  let reply := write_u32 RPC_REPLY reply in
  let reply := write_u32 MSG_ACCEPTED reply in
  let reply := write_u32 AUTH_NONE reply in
  let reply := write_u32 0 reply in
  write_u32 status reply.

Definition accepted_reply (xid status : Z) (body : list byte) : list byte :=
  into_bytes (write_fixed body (accepted_reply_encoder xid status (zlen body))).

Definition program_mismatch (xid low high : Z) : list byte :=
  into_bytes (write_u32 high (write_u32 low (accepted_reply_encoder xid PROG_MISMATCH 8))).

Definition rpc_mismatch (xid low high : Z) : list byte :=
  let reply := with_capacity 24 in
  let reply := write_u32 xid reply in
  let reply := write_u32 RPC_REPLY reply in
  let reply := write_u32 1 reply in
  let reply := write_u32 0 reply in
  let reply := write_u32 low reply in
  into_bytes (write_u32 high reply).

Definition auth_error (xid status : Z) : list byte :=
  let reply := with_capacity 20 in
  let reply := write_u32 xid reply in
  let reply := write_u32 RPC_REPLY reply in
  let reply := write_u32 1 reply in
  let reply := write_u32 1 reply in
  into_bytes (write_u32 status reply).

Definition typed_nfs_reply {T} `{EncodeNfsResult T} (xid : Z) (r : T) : result EncodeError (list byte) :=
  reply ← encode_result r (accepted_reply_encoder xid SUCCESS 128);
  Ok (into_bytes reply).

(** ** Statuses *)

(** [connection::nfs_status] *)
Definition nfs_status (e : NfsError.t) : Z :=
  match e with
  | NfsError.Permission => 1
  | NfsError.NotFound => 2
  | NfsError.Io => 5
  | NfsError.NoDeviceOrAddress => 6
  | NfsError.Access => 13
  | NfsError.Exists => 17
  | NfsError.CrossDevice => 18
  | NfsError.NoDevice => 19
  | NfsError.NotDirectory => 20
  | NfsError.IsDirectory => 21
  | NfsError.Invalid => 22
  | NfsError.FileTooLarge => 27
  | NfsError.NoSpace => 28
  | NfsError.ReadOnly => 30
  | NfsError.TooManyLinks => 31
  | NfsError.NameTooLong => 63
  | NfsError.NotEmpty => 66
  | NfsError.Quota => 69
  | NfsError.Stale => 70
  | NfsError.Remote => 71
  | NfsError.NotSynchronized => 10002
  | NfsError.BadCookie => 10003
  | NfsError.NotSupported => 10004
  | NfsError.TooSmall => 10005
  | NfsError.ServerFault => 10006
  | NfsError.BadType => 10007
  | NfsError.Jukebox => 10008
  end.

Definition wire_nfs_status (status : Z) : result DecodeError NfsStatus.t :=
  Ok (default NfsStatus.ServerFault (NfsStatus.from_code status)).

Definition durability_satisfies (actual requested : WriteStability.t) : bool :=
  match actual, requested with
  | WriteStability.FileSync, _ => true
  | WriteStability.DataSync, (WriteStability.DataSync | WriteStability.Unstable) => true
  | WriteStability.Unstable, WriteStability.Unstable => true
  | _, _ => false
  end.

Definition principal_allowed (policy : AuthPolicy.t) (p : Principal.t) : bool :=
  match policy, p with
  | AuthPolicy.AuthSys, Principal.AuthSys _ _ _ _ => true
  | AuthPolicy.Anonymous, Principal.Anonymous => true
  | AuthPolicy.AuthSysOrAnonymous, _ => true
  | _, _ => false
  end.

(** [WccData { before: result.before, after: result.after }] *)
Definition wcc_of {T} (r : MutationResult T) : WccData := mkWccData (before r) (after r).

Section Dispatch.
Context (hmac : list byte -> list byte -> list byte).
(** The capacity of the vector a reply was built in; it is at least its length. *)
Context (vec_capacity : list byte -> Z).

(** [Vec<u8>] into [EncodedReply]. *)
Definition into_reply (v : list byte) : EncodedReply := from_vec v (vec_capacity v).

(** [Ok(typed_nfs_reply(..)?.into())] *)
Definition reply_result (r : result EncodeError (list byte)) : result ServerError.t EncodedReply :=
  match r with
  | Ok v => Ok (into_reply v)
  | Err e => Err (ServerError.Encode e)
  end.

Definition decode_object (state : ConnectionState) (export_id : ExportId) (handle : list byte) : result Z ObjectKey :=
  map_err (fun e => match e with StaleInstance => 70 | _ => 10001 end) (decode hmac (handles state) export_id handle).

Definition decode_directory_operation (state : ConnectionState) (export_id : ExportId)
    (arguments : DirectoryOperationArgs) : result Z (ObjectKey * NfsName.t) :=
  parent ← decode_object state export_id (directory arguments);
  if NfsName.MAX_LEN <? zlen (name arguments) then Err (NfsStatus.code NfsStatus.NameTooLong)
  else
    name ← map_err nfs_status (NfsName.new (name arguments));
    Ok (parent, name).

(** [Ok(typed_nfs_reply(xid, &X::Err { status: wire_nfs_status(status)?, .. })?.into())] *)
Definition failure {T} `{EncodeNfsResult T} (xid status : Z) (result_of : NfsStatus.t -> T)
    : result ServerError.t EncodedReply :=
  match wire_nfs_status status with
  | Err e => Err (ServerError.Decode e)
  | Ok status => reply_result (typed_nfs_reply xid (result_of status))
  end.

Definition mutation_void_reply (xid : Z) (r : result NfsError.t (MutationResult unit)) : result EncodeError (list byte) :=
  typed_nfs_reply xid
    match r with
    | Ok r => WccResult.Ok (wcc_of r)
    | Err error => WccResult.Err (NfsStatus.from_error error) WccData_default
    end.

Definition create_failure_reply (xid status : Z) : result ServerError.t EncodedReply :=
  failure xid status (fun status => CreateResult.Err status WccData_default).

Definition rename_failure_reply (xid status : Z) : result ServerError.t EncodedReply :=
  failure xid status (fun status => RenameResult.Err status WccData_default WccData_default).

Definition link_failure_reply (xid status : Z) : result ServerError.t EncodedReply :=
  failure xid status (fun status => LinkResult.Err status None WccData_default).

Definition create_reply (xid : Z) (state : ConnectionState) (export_id : ExportId)
    (r : result NfsError.t (MutationResult CreatedObject)) : result EncodeError (list byte) :=
  typed_nfs_reply xid
    match r with
    | Ok r => CreateResult.Ok (Some (encode hmac (handles state) export_id (object (value r))))
                (co_attributes (value r)) (wcc_of r)
    | Err error => CreateResult.Err (NfsStatus.from_error error) WccData_default
    end.

Definition nfs_failure_reply_for_procedure (xid procedure : Z) (status : NfsStatus.t)
    : result EncodeError (list byte) :=
  let wcc := WccData_default in
  match procedure with
  | 1 => typed_nfs_reply xid (GetAttrResult.Err status)
  | 2 => typed_nfs_reply xid (SetAttrResult.Err status wcc)
  | 3 => typed_nfs_reply xid (LookupResult.Err status None)
  | 4 => typed_nfs_reply xid (AccessResult.Err status None)
  | 5 => typed_nfs_reply xid (ReadLinkResult.Err status None)
  | 6 => typed_nfs_reply xid (ReadResult.Err status None)
  | 7 => typed_nfs_reply xid (WriteResult.Err status wcc)
  | 8 | 9 | 10 | 11 => typed_nfs_reply xid (CreateResult.Err status wcc)
  | 12 | 13 => typed_nfs_reply xid (WccResult.Err status wcc)
  | 14 => typed_nfs_reply xid (RenameResult.Err status WccData_default WccData_default)
  | 15 => typed_nfs_reply xid (LinkResult.Err status None wcc)
  | 16 | 17 => typed_nfs_reply xid (ReadDirResult.Err status None)
  | 18 => typed_nfs_reply xid (FsStatResult.Err status None)
  | 19 => typed_nfs_reply xid (FsInfoResult.Err status None)
  | 20 => typed_nfs_reply xid (PathConfResult.Err status None)
  | 21 => typed_nfs_reply xid (CommitResult.Err status wcc)
  | _ => Ok (accepted_reply xid PROC_UNAVAIL [])
  end.

(** ** Procedures

    [answer r] is a handler that has its reply. *)
Definition answer (r : result ServerError.t EncodedReply) : prog (result ServerError.t EncodedReply) := Ret r.

Section Handlers.
Context (xid : Z) (context : RequestContext) (state : ConnectionState) (vfs : vfs_ref).

Definition object_of (handle : list byte) : result Z ObjectKey :=
  decode_object state (export_id context) handle.
Definition directory_operation_of (arguments : DirectoryOperationArgs) : result Z (ObjectKey * NfsName.t) :=
  decode_directory_operation state (export_id context) arguments.

(** [vfs.getattr(context, object).await.ok()] *)
Definition getattr_ok (o : ObjectKey) : prog (option FileAttributes) :=
  r ← call vfs (VfsOp.getattr context o);
  Ret (ok r).

Definition reply {T} `{EncodeNfsResult T} (r : T) : prog (result ServerError.t EncodedReply) :=
  answer (reply_result (typed_nfs_reply xid r)).

Definition handle_getattr (arguments : ObjectArgs) : prog (result ServerError.t EncodedReply) :=
  match object_of (oa_object arguments) with
  | Err status => answer (failure xid status GetAttrResult.Err)
  | Ok object =>
      r ← call vfs (VfsOp.getattr context object);
      reply match r with
            | Ok attributes => GetAttrResult.Ok attributes
            | Err error => GetAttrResult.Err (NfsStatus.from_error error)
            end
  end.

Definition handle_setattr (arguments : SetAttrArgs) : prog (result ServerError.t EncodedReply) :=
  match object_of (sar_object arguments) with
  | Err status => answer (failure xid status (fun status => SetAttrResult.Err status WccData_default))
  | Ok object =>
      r ← call vfs (VfsOp.setattr context object (sar_attributes arguments) (guard arguments));
      reply match r with
            | Ok r => SetAttrResult.Ok (wcc_of r)
            | Err error => SetAttrResult.Err (NfsStatus.from_error error) WccData_default
            end
  end.

Definition handle_lookup (arguments : DirectoryOperationArgs) : prog (result ServerError.t EncodedReply) :=
  match directory_operation_of arguments with
  | Err status => answer (failure xid status (fun status => LookupResult.Err status None))
  | Ok (parent, name) =>
      r ← call vfs (VfsOp.lookup context parent name);
      match r with
      | Ok found =>
          parent_attributes ← getattr_ok parent;
          reply (LookupResult.Ok (encode hmac (handles state) (export_id context) (object found))
                   (co_attributes found) parent_attributes)
      | Err error =>
          parent_attributes ← getattr_ok parent;
          reply (LookupResult.Err (NfsStatus.from_error error) parent_attributes)
      end
  end.

Definition ACCESS_MASK : Z := 0x3f.

Definition handle_access (arguments : AccessArgs) : prog (result ServerError.t EncodedReply) :=
  match object_of (aa_object arguments) with
  | Err status => answer (failure xid status (fun status => AccessResult.Err status None))
  | Ok object =>
      let requested := Z.land (requested arguments) ACCESS_MASK in
      r ← call vfs (VfsOp.access context object requested);
      match r with
      | Ok allowed =>
          attributes ← getattr_ok object;
          reply (AccessResult.Ok attributes (Z.land (Z.land allowed requested) ACCESS_MASK))
      | Err error =>
          attributes ← getattr_ok object;
          reply (AccessResult.Err (NfsStatus.from_error error) attributes)
      end
  end.

Definition handle_readlink (arguments : ObjectArgs) : prog (result ServerError.t EncodedReply) :=
  match object_of (oa_object arguments) with
  | Err status => answer (failure xid status (fun status => ReadLinkResult.Err status None))
  | Ok object =>
      r ← call vfs (VfsOp.readlink context object);
      match r with
      | Ok path =>
          attributes ← getattr_ok object;
          reply (ReadLinkResult.Ok attributes path)
      | Err error =>
          attributes ← getattr_ok object;
          reply (ReadLinkResult.Err (NfsStatus.from_error error) attributes)
      end
  end.

(** [None] is the panic of [EncodedReply::segmented]. *)
Definition read_success_reply (attributes : option FileAttributes) (data : list byte) (eof : bool)
    : option (result EncodeError EncodedReply) :=
  match u32_try_from (zlen data) with
  | None => Some (Err (TooLarge (zlen data)))
  | Some data_length =>
      let prefix := accepted_reply_encoder xid SUCCESS 128 in
      let prefix := write_u32 (NfsStatus.code NfsStatus.Ok) prefix in
      match encode_post_attributes attributes prefix with
      | Err e => Some (Err e)
      | Ok prefix =>
          let prefix := write_u32 data_length prefix in
          let prefix := write_bool eof prefix in
          let prefix := write_u32 data_length prefix in
          let padding := (4 - zlen data mod 4) mod 4 in
          match segmented (into_bytes prefix) data padding with
          | Some r => Some (Ok r)
          | None => None
          end
      end
  end.

Definition dispatch_read (arguments : ReadArgs) : prog (result ServerError.t EncodedReply) :=
  match object_of (ra_object arguments) with
  | Err status => answer (failure xid status (fun status => ReadResult.Err status None))
  | Ok object =>
      let count := Z.min (ra_count arguments) (max_read_size (limits state)) in
      r ← call vfs (VfsOp.read_bytes context object (ra_offset arguments) (as_u32 count));
      match r with
      | Ok r =>
          let data := if count <? zlen (rb_data r) then slice 0 count (rb_data r) else rb_data r in
          match read_success_reply (rb_attributes r) data (rb_eof r) with
          | Some (Ok reply) => answer (Ok reply)
          | Some (Err e) => answer (Err (ServerError.Encode e))
          | None => Panic
          end
      | Err error => reply (ReadResult.Err (NfsStatus.from_error error) None)
      end
  end.

Definition dispatch_write (arguments : WriteArgs) : prog (result ServerError.t EncodedReply) :=
  match WriteArgs_validate arguments with
  | Err status => reply (WriteResult.Err status WccData_default)
  | Ok _ =>
      match object_of (wa_object arguments) with
      | Err status => answer (failure xid status (fun status => WriteResult.Err status WccData_default))
      | Ok object =>
          let requested := wa_requested arguments in
          let permitted_count := Z.min (zlen (wa_data arguments)) (max_write_size (limits state)) in
          let data := slice 0 permitted_count (wa_data arguments) in
          r ← call vfs (VfsOp.write context object (wa_offset arguments) data requested);
          reply match r with
                | Ok r =>
                    if (count (value r) <=? zlen data) && ((zlen data =? 0) || negb (count (value r) =? 0))
                       && durability_satisfies (committed (value r)) requested
                    then WriteResult.Ok (wcc_of r) (count (value r)) (committed (value r)) (instance_id (handles state))
                    else WriteResult.Err NfsStatus.ServerFault (wcc_of r)
                | Err error => WriteResult.Err (NfsStatus.from_error error) WccData_default
                end
      end
  end.

Definition handle_create (arguments : CreateArgs) : prog (result ServerError.t EncodedReply) :=
  match directory_operation_of (ca_target arguments) with
  | Err status => answer (create_failure_reply xid status)
  | Ok (parent, name) =>
      r ← call vfs (VfsOp.create context parent name (ca_attributes arguments) (ca_mode arguments));
      answer (reply_result (create_reply xid state (export_id context) r))
  end.

Definition handle_mkdir (arguments : MkdirArgs) : prog (result ServerError.t EncodedReply) :=
  match directory_operation_of (mka_target arguments) with
  | Err status => answer (create_failure_reply xid status)
  | Ok (parent, name) =>
      r ← call vfs (VfsOp.mkdir context parent name (mka_attributes arguments));
      answer (reply_result (create_reply xid state (export_id context) r))
  end.

Definition handle_symlink (arguments : SymlinkArgs) : prog (result ServerError.t EncodedReply) :=
  match directory_operation_of (sla_target arguments) with
  | Err status => answer (create_failure_reply xid status)
  | Ok (parent, name) =>
      r ← call vfs (VfsOp.symlink context parent name (sla_path arguments) (sla_attributes arguments));
      answer (reply_result (create_reply xid state (export_id context) r))
  end.

Definition handle_mknod (arguments : MknodArgs) : prog (result ServerError.t EncodedReply) :=
  match directory_operation_of (mna_target arguments) with
  | Err status => answer (create_failure_reply xid status)
  | Ok (parent, name) =>
      r ← call vfs (VfsOp.mknod context parent name (node_type arguments) (mna_attributes arguments));
      answer (reply_result (create_reply xid state (export_id context) r))
  end.

Definition handle_remove (arguments : DirectoryOperationArgs) : prog (result ServerError.t EncodedReply) :=
  match directory_operation_of arguments with
  | Err status => answer (failure xid status (fun status => WccResult.Err status WccData_default))
  | Ok (parent, name) =>
      r ← call vfs (VfsOp.remove context parent name);
      answer (reply_result (mutation_void_reply xid r))
  end.

Definition handle_rmdir (arguments : DirectoryOperationArgs) : prog (result ServerError.t EncodedReply) :=
  match directory_operation_of arguments with
  | Err status => answer (failure xid status (fun status => WccResult.Err status WccData_default))
  | Ok (parent, name) =>
      r ← call vfs (VfsOp.rmdir context parent name);
      answer (reply_result (mutation_void_reply xid r))
  end.

Definition handle_rename (arguments : RenameArgs) : prog (result ServerError.t EncodedReply) :=
  match directory_operation_of (rename_from arguments) with
  | Err status => answer (rename_failure_reply xid status)
  | Ok (from_parent, from_name) =>
      match directory_operation_of (rename_to arguments) with
      | Err status => answer (rename_failure_reply xid status)
      | Ok (to_parent, to_name) =>
          r ← call vfs (VfsOp.rename context from_parent from_name to_parent to_name);
          reply match r with
                | Ok (from, to) => RenameResult.Ok (wcc_of from) (wcc_of to)
                | Err error => RenameResult.Err (NfsStatus.from_error error) WccData_default WccData_default
                end
      end
  end.

Definition handle_link (arguments : LinkArgs) : prog (result ServerError.t EncodedReply) :=
  match object_of (la_object arguments) with
  | Err status => answer (link_failure_reply xid status)
  | Ok object =>
      match directory_operation_of (la_target arguments) with
      | Err status => answer (link_failure_reply xid status)
      | Ok (parent, name) =>
          r ← call vfs (VfsOp.link context object parent name);
          match r with
          | Ok r =>
              object_attributes ← getattr_ok object;
              reply (LinkResult.Ok object_attributes (wcc_of r))
          | Err error => reply (LinkResult.Err (NfsStatus.from_error error) None WccData_default)
          end
      end
  end.

(** *** READDIR *)

Definition basic_entry (entry : DirectoryEntry) : ReadDirEntry :=
  mkReadDirEntry (de_file_id entry) (NfsName.as_bytes (de_name entry)) (de_cookie entry)
    ReadDirEntryExtension.Basic.

Definition typed_entry (plus : bool) (entry : DirectoryEntry) : ReadDirEntry :=
  if plus then
    mkReadDirEntry (de_file_id entry) (NfsName.as_bytes (de_name entry)) (de_cookie entry)
      (ReadDirEntryExtension.Plus (de_attributes entry)
         (Some (encode hmac (handles state) (export_id context) (de_object entry))))
  else basic_entry entry.

(** The [for entry in page.entries] loop: the entries kept and [truncated]. *)
Fixpoint readdir_loop (plus : bool) (directory_limit : option Z) (wire_limit empty_len : Z)
    (entries : list DirectoryEntry) (encoded_entries directory_bytes : Z)
    : result EncodeError (list ReadDirEntry * bool) :=
  match entries with
  | [] => Ok ([], false)
  | entry :: rest =>
      directory_part ← encode_readdir_entry (basic_entry entry) new;
      if match directory_limit with
         | Some limit => limit <? saturating_add (saturating_add directory_bytes (len directory_part)) 4
         | None => false
         end
      then Ok ([], true)
      else
        let directory_bytes := saturating_add directory_bytes (len directory_part) in
        encoded ← encode_readdir_entry (typed_entry plus entry) new;
        if wire_limit <? saturating_add (saturating_add (saturating_sub empty_len 4) encoded_entries) (len encoded)
        then Ok ([], true)
        else
          '(kept, truncated) ← readdir_loop plus directory_limit wire_limit empty_len rest
                                 (saturating_add encoded_entries (len encoded)) directory_bytes;
          Ok (typed_entry plus entry :: kept, truncated)
  end.

(** [let mut empty = Encoder::new(); empty_result.encode_result(&mut empty)?] *)
Definition empty_readdir (directory_attributes : option FileAttributes) (verifier : list byte)
    : result EncodeError encoder :=
  encode_result (ReadDirResult.Ok directory_attributes verifier [] false) new.

Definition readdir_reply (plus : bool) (directory_attributes : option FileAttributes) (page : ReadDirectoryPage)
    (directory_limit : option Z) (wire_limit : Z) : result EncodeError (list byte) :=
  empty ← empty_readdir directory_attributes (page_verifier page);
  '(selected_attributes, empty) ←
    (if wire_limit <? saturating_sub (len empty) 4 then
       empty ← empty_readdir None (page_verifier page); Ok (None, empty)
     else Ok (directory_attributes, empty));
  if wire_limit <? saturating_sub (len empty) 4 then
    typed_nfs_reply xid (ReadDirResult.Err NfsStatus.TooSmall directory_attributes)
  else
    let had_entries := negb (zlen (page_entries page) =? 0) in
    '(entries, truncated) ← readdir_loop plus directory_limit wire_limit (len empty) (page_entries page) 0 0;
    if had_entries && truncated && (zlen entries =? 0) then
      typed_nfs_reply xid (ReadDirResult.Err NfsStatus.TooSmall directory_attributes)
    else
      typed_nfs_reply xid
        (ReadDirResult.Ok selected_attributes (page_verifier page) entries (page_eof page && negb truncated)).

(** The part READDIR and READDIRPLUS share after decoding their arguments. *)
Definition list_directory (plus : bool) (directory : ObjectKey) (cookie : Z) (verifier : list byte)
    (directory_limit : option Z) (wire_limit : Z) : prog (result ServerError.t EncodedReply) :=
  let hint_limit := match directory_limit with Some limit => Z.min limit wire_limit | None => wire_limit end in
  let hint := clamp 1 4096 (hint_limit / 32) in
  r ← call vfs (VfsOp.readdir context directory cookie verifier hint);
  match r with
  | Ok page =>
      attributes ← getattr_ok directory;
      answer (reply_result (readdir_reply plus attributes page directory_limit wire_limit))
  | Err error => reply (ReadDirResult.Err (NfsStatus.from_error error) None)
  end.

Definition handle_readdir (arguments : ReadDirArgs) : prog (result ServerError.t EncodedReply) :=
  match object_of (rda_directory arguments) with
  | Err status => answer (failure xid status (fun status => ReadDirResult.Err status None))
  | Ok directory =>
      let wire_limit := Z.min (rda_count arguments) (max_readdir_response_size (limits state)) in
      if wire_limit <? 20 then reply (ReadDirResult.Err NfsStatus.TooSmall None)
      else list_directory false directory (rda_cookie arguments) (rda_verifier arguments) None wire_limit
  end.

Definition handle_readdirplus (arguments : ReadDirPlusArgs) : prog (result ServerError.t EncodedReply) :=
  match object_of (rdp_directory arguments) with
  | Err status => answer (failure xid status (fun status => ReadDirResult.Err status None))
  | Ok directory =>
      let wire_limit := Z.min (rdp_max_count arguments) (max_readdir_response_size (limits state)) in
      if wire_limit <? 20 then reply (ReadDirResult.Err NfsStatus.TooSmall None)
      else list_directory true directory (rdp_cookie arguments) (rdp_verifier arguments)
             (Some (rdp_directory_count arguments)) wire_limit
  end.

(** *** FSSTAT, FSINFO, PATHCONF, COMMIT *)

Definition handle_fsstat (arguments : ObjectArgs) : prog (result ServerError.t EncodedReply) :=
  match object_of (oa_object arguments) with
  | Err status => answer (failure xid status (fun status => FsStatResult.Err status None))
  | Ok object =>
      r ← call vfs (VfsOp.fsstat context object);
      match r with
      | Ok info =>
          attributes ← getattr_ok object;
          reply (FsStatResult.Ok attributes info)
      | Err error => reply (FsStatResult.Err (NfsStatus.from_error error) None)
      end
  end.

Definition fsinfo_properties (capabilities : VfsCapabilities) : Z :=
  Z.lor (Z.lor (Z.lor (u32_of_bool (hard_links capabilities))
                      (Z.shiftl (u32_of_bool (symbolic_links capabilities)) 1))
               (Z.shiftl (u32_of_bool (homogeneous capabilities)) 3))
        (Z.shiftl (u32_of_bool (can_set_time capabilities)) 4).

Definition bounded_fsinfo (info : FsInfo) : FsInfo :=
  let max_read := Z.min (VfsTypes.max_read info) (max_read_size (limits state)) in
  let max_write := Z.min (VfsTypes.max_write info) (max_write_size (limits state)) in
  mkFsInfo max_read (Z.min (preferred_read info) max_read) (Z.min (read_multiple info) max_read)
    max_write (Z.min (preferred_write info) max_write) (Z.min (write_multiple info) max_write)
    (Z.min (preferred_readdir info) (max_readdir_response_size (limits state)))
    (max_file_size info) (time_granularity info).

Definition handle_fsinfo (arguments : ObjectArgs) : prog (result ServerError.t EncodedReply) :=
  match object_of (oa_object arguments) with
  | Err status => answer (failure xid status (fun status => FsInfoResult.Err status None))
  | Ok object =>
      r ← call vfs (VfsOp.fsinfo context object);
      match r with
      | Ok info =>
          attributes ← getattr_ok object;
          capabilities ← call vfs VfsOp.capabilities;
          reply (FsInfoResult.Ok attributes (bounded_fsinfo info) (fsinfo_properties capabilities))
      | Err error => reply (FsInfoResult.Err (NfsStatus.from_error error) None)
      end
  end.

Definition bounded_pathconf (info : PathConf) : PathConf :=
  mkPathConf (max_links info) (Z.min (max_name_length info) (as_u32 NfsName.MAX_LEN))
    (no_truncation info) (chown_restricted info) (case_insensitive info) (case_preserving info).

Definition handle_pathconf (arguments : ObjectArgs) : prog (result ServerError.t EncodedReply) :=
  match object_of (oa_object arguments) with
  | Err status => answer (failure xid status (fun status => PathConfResult.Err status None))
  | Ok object =>
      r ← call vfs (VfsOp.pathconf context object);
      match r with
      | Ok info =>
          attributes ← getattr_ok object;
          reply (PathConfResult.Ok attributes (bounded_pathconf info))
      | Err error => reply (PathConfResult.Err (NfsStatus.from_error error) None)
      end
  end.

Definition handle_commit (arguments : CommitArgs) : prog (result ServerError.t EncodedReply) :=
  match object_of (cma_object arguments) with
  | Err status => answer (failure xid status (fun status => CommitResult.Err status WccData_default))
  | Ok object =>
      r ← call vfs (VfsOp.commit context object (cma_offset arguments) (cma_count arguments));
      reply match r with
            | Ok r => CommitResult.Ok (wcc_of r) (instance_id (handles state))
            | Err error => CommitResult.Err (NfsStatus.from_error error) WccData_default
            end
  end.

(** The [match arguments] of [dispatch_nfs]. *)
Definition handle_arguments (arguments : NfsArguments.t) : prog (result ServerError.t EncodedReply) :=
  match arguments with
  | NfsArguments.Null => answer (Ok (into_reply (accepted_reply xid SUCCESS [])))
  | NfsArguments.GetAttr a => handle_getattr a
  | NfsArguments.SetAttr a => handle_setattr a
  | NfsArguments.Lookup a => handle_lookup a
  | NfsArguments.Access a => handle_access a
  | NfsArguments.ReadLink a => handle_readlink a
  | NfsArguments.Read a => dispatch_read a
  | NfsArguments.Write a => dispatch_write a
  | NfsArguments.Create a => handle_create a
  | NfsArguments.Mkdir a => handle_mkdir a
  | NfsArguments.Symlink a => handle_symlink a
  | NfsArguments.Mknod a => handle_mknod a
  | NfsArguments.Remove a => handle_remove a
  | NfsArguments.Rmdir a => handle_rmdir a
  | NfsArguments.Rename a => handle_rename a
  | NfsArguments.Link a => handle_link a
  | NfsArguments.ReadDir a => handle_readdir a
  | NfsArguments.ReadDirPlus a => handle_readdirplus a
  | NfsArguments.FsStat a => handle_fsstat a
  | NfsArguments.FsInfo a => handle_fsinfo a
  | NfsArguments.PathConf a => handle_pathconf a
  | NfsArguments.Commit a => handle_commit a
  end.
End Handlers.

(** [state.exports.iter().find(|export| export.id == context.export_id)] *)
Definition find_export (state : ConnectionState) (id : ExportId) : option ExportState :=
  List.find (fun export => es_id export =? id) (exports state).

Definition dispatch_nfs (xid procedure : Z) (args : list byte) (context : RequestContext) (state : ConnectionState)
    : prog (result ServerError.t EncodedReply) :=
  if 21 <? procedure then answer (Ok (into_reply (accepted_reply xid PROC_UNAVAIL [])))
  else if procedure =? 7 then
    match decode_write_request args (max_rpc_record_size (limits state)) with
    | Err e => answer (Err (ServerError.Decode e))
    | Ok arguments =>
        match find_export state (export_id context) with
        | None => answer (reply_result (nfs_failure_reply_for_procedure xid procedure NfsStatus.BadHandle))
        | Some export => dispatch_write xid context state (es_vfs export) arguments
        end
    end
  else
    match NfsProcedures.decode procedure args (max_rpc_record_size (limits state)) with
    | Err e => answer (Err (ServerError.Decode e))
    | Ok NfsArguments.Null => answer (Ok (into_reply (accepted_reply xid SUCCESS [])))
    | Ok arguments =>
        match find_export state (export_id context) with
        | None => answer (reply_result (nfs_failure_reply_for_procedure xid procedure NfsStatus.BadHandle))
        | Some export => handle_arguments xid context state (es_vfs export) arguments
        end
    end.
End Dispatch.
