(* ===== verification/Mount.v ===== *)
(** * [src/mount3/], [src/portmap/], and the MOUNT and portmap dispatch of
      [src/server/connection.rs]

    MOUNTv3 results and their encoders, export selection, path resolution, the
    mount handlers, and the in-band portmapper. *)
From S2P Require Import Prelude Replay RpcCodec VfsTypes RpcAuth NfsProcedures NfsCodec RpcRecord Reply Handles Limits Vfs Connection.
Import Encoder.

Definition MAX_PATH : Z := 1024.

Module MountStatus.
Inductive t : Type :=
| Ok | Permission | NotFound | Io | Access | NotDirectory | Invalid | NameTooLong | NotSupported | ServerFault.

Definition code (s : t) : Z :=
  match s with
  | Ok => 0 | Permission => 1 | NotFound => 2 | Io => 5 | Access => 13 | NotDirectory => 20
  | Invalid => 22 | NameTooLong => 63 | NotSupported => 10004 | ServerFault => 10006
  end.
End MountStatus.

Module MountResult.
Inductive t : Type :=
| Ok (file_handle : list byte) (auth_flavors : list Z)
| Err (status : MountStatus.t).
End MountResult.

Record MountEntry : Type := mkMountEntry { host : list byte; mount_path : list byte }.
Record DumpResult : Type := mkDumpResult { dump_mounts : list MountEntry }.
Record ExportEntry : Type := mkExportEntry { entry_path : list byte; groups : list (list byte) }.
Record ExportResult : Type := mkExportResult { result_exports : list ExportEntry }.

(** [for x in xs { f(x)? }] *)
Fixpoint encode_each {A} (f : A -> writer) (l : list A) : writer :=
  match l with
  | [] => done_writing
  | x :: l => f x +> encode_each f l
  end.

Class EncodeMountResult (T : Type) : Type := encode_mount_result : T -> writer.

#[global] Instance encode_mount : EncodeMountResult MountResult.t := fun r =>
  match r with
  | MountResult.Ok file_handle auth_flavors =>
      put_u32 0 +> write_opaque file_handle +>
      put_length (zlen auth_flavors) +>
      encode_each put_u32 auth_flavors
  | MountResult.Err status => put_u32 (MountStatus.code status)
  end.

#[global] Instance encode_dump : EncodeMountResult DumpResult := fun r =>
  encode_each (fun mount => put_bool true +> write_opaque (host mount) +> write_opaque (mount_path mount))
    (dump_mounts r) +>
  put_bool false.

#[global] Instance encode_export : EncodeMountResult ExportResult := fun r =>
  encode_each (fun export =>
    put_bool true +> write_opaque (entry_path export) +>
    encode_each (fun group => put_bool true +> write_opaque group) (groups export) +>
    put_bool false) (result_exports r) +>
  put_bool false.

Definition typed_mount_reply {T} `{EncodeMountResult T} (xid : Z) (r : T) : result EncodeError (list byte) :=
  reply ← encode_mount_result r (accepted_reply_encoder xid SUCCESS 64);
  Ok (into_bytes reply).

(** ** Exports and paths *)

(** [slice::starts_with] and [slice::strip_prefix] *)
Definition starts_with (prefix l : list byte) : bool := bool_decide (take (length prefix) l = prefix).
Definition strip_prefix (prefix l : list byte) : option (list byte) :=
  if starts_with prefix l then Some (drop (length prefix) l) else None.

Definition export_matches (export_path request_path : list byte) : bool :=
  bool_decide (request_path = export_path)
  || (bool_decide (export_path = [NfsName.slash]) && starts_with [NfsName.slash] request_path)
  || (starts_with export_path request_path
      && bool_decide (request_path !! length export_path = Some NfsName.slash)).

(** [Iterator::max_by_key]: the last of the maximal elements. *)
Fixpoint max_by_key {A} (key : A -> Z) (l : list A) : option A :=
  match l with
  | [] => None
  | x :: rest =>
      match max_by_key key rest with
      | None => Some x
      | Some y => if key y <? key x then Some x else Some y
      end
  end.

Definition select_export (state : ConnectionState) (requested : list byte) : option ExportState :=
  max_by_key (fun export => zlen (es_path export))
    (List.filter (fun export => export_matches (es_path export) requested) (exports state)).

(** [split(|byte| *byte == b'/')]: [acc] is the current component, reversed. *)
Fixpoint split_slash (l : list byte) (acc : list byte) : list (list byte) :=
  match l with
  | [] => [rev acc]
  | b :: l => if Byte.eqb b NfsName.slash then rev acc :: split_slash l [] else split_slash l (b :: acc)
  end.

Definition mount_suffix (export_path requested : list byte) : result NfsError.t (list byte) :=
  if bool_decide (export_path = [NfsName.slash]) then
    ok_or (strip_prefix [NfsName.slash] requested) NfsError.NotFound
  else
    rest ← ok_or (strip_prefix export_path requested) NfsError.NotFound;
    Ok (default [] (strip_prefix [NfsName.slash] rest)).

(** The component loop of [resolve_mount_object]. *)
Fixpoint lookup_components (vfs : vfs_ref) (context : RequestContext) (o : ObjectKey) (components : list (list byte))
    : prog (result NfsError.t ObjectKey) :=
  match components with
  | [] => Ret (Ok o)
  | component :: rest =>
      match NfsName.new component with
      | Err e => Ret (Err e)
      | Ok name =>
          r ← call vfs (VfsOp.lookup context o name);
          match r with
          | Err e => Ret (Err e)
          | Ok found => lookup_components vfs context (object found) rest
          end
      end
  end.

Definition resolve_mount_object (export : ExportState) (context : RequestContext) (requested : list byte)
    : prog (result NfsError.t ObjectKey) :=
  match mount_suffix (es_path export) requested with
  | Err e => Ret (Err e)
  | Ok suffix =>
      o ← call (es_vfs export) VfsOp.root;
      lookup_components (es_vfs export) context o
        (List.filter (fun component => negb (zlen component =? 0)) (split_slash suffix []))
  end.

Definition mount_status (error : NfsError.t) : MountStatus.t :=
  match error with
  | NfsError.Permission => MountStatus.Permission
  | NfsError.NotFound => MountStatus.NotFound
  | NfsError.Io => MountStatus.Io
  | NfsError.Access => MountStatus.Access
  | NfsError.NotDirectory => MountStatus.NotDirectory
  | NfsError.Invalid => MountStatus.Invalid
  | NfsError.NameTooLong => MountStatus.NameTooLong
  | NfsError.NotSupported => MountStatus.NotSupported
  | _ => MountStatus.ServerFault
  end.

(** ** Printing addresses: [IpAddr::to_string] *)

Definition ascii (n : Z) : byte := byte_of n.
Definition digit (n : Z) : byte := if n <? 10 then ascii (48 + n) else ascii (87 + n).

(** Digits of [n] in [base], no leading zeros; at most [fuel] of them. *)
Fixpoint digits (fuel : nat) (base n : Z) (acc : list byte) : list byte :=
  match fuel with
  | O => acc
  | S fuel' =>
      let acc := digit (n mod base) :: acc in
      if n / base =? 0 then acc else digits fuel' base (n / base) acc
  end.

Fixpoint join (sep : list byte) (l : list (list byte)) : list byte :=
  match l with
  | [] => []
  | [x] => x
  | x :: rest => x ++ sep ++ join sep rest
  end.

Definition dot : byte := Byte.x2e.
Definition colon : byte := Byte.x3a.

Definition ipv4_to_string (bits : Z) : list byte :=
  join [dot] (map (fun i => digits 3 10 (Z.land (Z.shiftr bits (8 * i)) 255) []) [3; 2; 1; 0]).

Definition ipv6_segments (bits : Z) : list Z :=
  map (fun i => Z.land (Z.shiftr bits (16 * i)) 65535) [7; 6; 5; 4; 3; 2; 1; 0].

(** The first longest run of zero segments: start and length. *)
Fixpoint longest_zeros (i : Z) (l : list Z) (current best : Z * Z) : Z * Z :=
  match l with
  | [] => best
  | s :: l =>
      if s =? 0 then
        let current := if current.2 =? 0 then (i, 1) else (current.1, current.2 + 1) in
        longest_zeros (i + 1) l current (if best.2 <? current.2 then current else best)
      else longest_zeros (i + 1) l (0, 0) best
  end.

Definition hex_groups (l : list Z) : list byte := join [colon] (map (fun s => digits 4 16 s []) l).

Definition ipv6_to_string (bits : Z) : list byte :=
  if Z.shiftr bits 32 =? 0xffff then
    [colon; colon] ++ digits 4 16 0xffff [] ++ [colon] ++ ipv4_to_string (Z.land bits u32_max)
  else
    let segments := ipv6_segments bits in
    let '(start, length) := longest_zeros 0 segments (0, 0) (0, 0) in
    if 1 <? length then
      hex_groups (slice 0 start segments) ++ [colon; colon] ++ hex_groups (drop (Z.to_nat (start + length)) segments)
    else hex_groups segments.

Definition ip_to_string (a : IpAddr) : list byte :=
  match a with
  | V4 bits => ipv4_to_string bits
  | V6 bits => ipv6_to_string bits
  end.

(** ** MOUNT dispatch *)

Definition xdr_opaque_size (length : Z) : option Z :=
  n ← checked_add 4 length;
  checked_add n ((4 - length mod 4) mod 4).

Definition outbound_length_fits (length : Z) (l : ServerLimits) : bool :=
  (length <=? max_rpc_record_size l) &&
  (div_ceil length (max_rpc_fragment_size l) <=? max_fragments_per_record l).

(** [is_none_or(|length| !outbound_length_fits(length, limits))], negated. *)
Definition encoded_length_fits (length : option Z) (l : ServerLimits) : bool :=
  match length with None => false | Some n => outbound_length_fits n l end.

Fixpoint dump_length (mounts : MountTable) (length : Z) : option Z :=
  match mounts with
  | [] => Some length
  | (client, path) :: rest =>
      length ← checked_add length 4;
      size ← xdr_opaque_size (zlen (ip_to_string client));
      length ← checked_add length size;
      size ← xdr_opaque_size (zlen path);
      length ← checked_add length size;
      dump_length rest length
  end.

Fixpoint export_length (l : list ExportState) (length : Z) : option Z :=
  match l with
  | [] => Some length
  | export :: rest =>
      length ← checked_add length 4;
      size ← xdr_opaque_size (zlen (es_path export));
      length ← checked_add length size;
      length ← checked_add length 4;
      export_length rest length
  end.

Definition read_mount_path : Decoder.reader (list byte) := Decoder.read_string "MOUNT path" 1024.

Section MountDispatch.
Context (hmac : list byte -> list byte -> list byte).

Definition vec_result (r : result EncodeError (list byte)) : result ServerError.t (list byte) :=
  map_err ServerError.Encode r.

Definition auth_flavors (policy : AuthPolicy.t) : list Z :=
  match policy with
  | AuthPolicy.Anonymous => [AUTH_NONE]
  | AuthPolicy.AuthSys => [AUTH_SYS]
  | AuthPolicy.AuthSysOrAnonymous => [AUTH_SYS; AUTH_NONE]
  end.

(** Procedure 1 after its path is decoded. *)
Definition mount_path_request (xid : Z) (path : list byte) (context : RequestContext) (state : ConnectionState)
    : prog (result ServerError.t (list byte)) :=
  let fail status := Ret (vec_result (typed_mount_reply xid (MountResult.Err status))) in
  match select_export state path with
  | None => fail MountStatus.NotFound
  | Some export =>
      let request_context := mkRequestContext (principal context) (client_addr context) (es_id export) in
      root ← resolve_mount_object export request_context path;
      match root with
      | Err error => fail (mount_status error)
      | Ok root =>
          attributes ← call (es_vfs export) (VfsOp.getattr request_context root);
          match attributes with
          | Err error => fail (mount_status error)
          | Ok attributes =>
              if negb (bool_decide (file_type attributes = FileType.Directory)) then fail MountStatus.NotDirectory
              else
                recorded ← mounts (MountOp.add (ip (client_addr context)) path (max_mounts (limits state)));
                if negb recorded then fail MountStatus.Io
                else
                  Ret (vec_result (typed_mount_reply xid
                    (MountResult.Ok (encode hmac (handles state) (es_id export) root)
                       (auth_flavors (auth_policy state)))))
          end
      end
  end.

Definition dispatch_mount (xid procedure : Z) (args : list byte) (context : RequestContext) (state : ConnectionState)
    : prog (result ServerError.t (list byte)) :=
  if ((procedure =? 0) || (procedure =? 2) || (procedure =? 4) || (procedure =? 5)) && negb (zlen args =? 0) then
    Ret (Ok (accepted_reply xid GARBAGE_ARGS []))
  else if procedure =? 0 then Ret (Ok (accepted_reply xid SUCCESS []))
  else if procedure =? 1 then
    match Decoder.decode_all read_mount_path args with
    | Err e => Ret (Err (ServerError.Decode e))
    | Ok path => mount_path_request xid path context state
    end
  else if procedure =? 2 then
    table ← mounts MountOp.snapshot;
    if negb (encoded_length_fits (dump_length table (24 + 4)) (limits state)) then
      Ret (Ok (accepted_reply xid SYSTEM_ERR []))
    else
      Ret (vec_result (typed_mount_reply xid
        (mkDumpResult (map (fun '(client, path) => mkMountEntry (ip_to_string client) path) table))))
  else if procedure =? 3 then
    match Decoder.decode_all read_mount_path args with
    | Err e => Ret (Err (ServerError.Decode e))
    | Ok path =>
        _ ← mounts (MountOp.remove (ip (client_addr context)) path);
        Ret (Ok (accepted_reply xid SUCCESS []))
    end
  else if procedure =? 4 then
    _ ← mounts (MountOp.remove_all (ip (client_addr context)));
    Ret (Ok (accepted_reply xid SUCCESS []))
  else if procedure =? 5 then
    if negb (encoded_length_fits (export_length (exports state) (24 + 4)) (limits state)) then
      Ret (Ok (accepted_reply xid SYSTEM_ERR []))
    else
      Ret (vec_result (typed_mount_reply xid
        (mkExportResult (map (fun export => mkExportEntry (es_path export) []) (exports state)))))
  else Ret (Ok (accepted_reply xid PROC_UNAVAIL [])).
End MountDispatch.

(** ** In-band portmapper *)

Record mapping : Type := mkMapping { prog_ : Z; vers : Z; prot : Z; map_port : Z }.

(** [portmap::dispatch::get_port] *)
Definition get_port (request : mapping) (nfs_port mount_port : Z) : Z :=
  if negb (prot request =? IPPROTO_TCP) then 0
  else if (prog_ request =? NFS_PROGRAM) && (vers request =? NFS_VERSION) then nfs_port
  else if (prog_ request =? MOUNT_PROGRAM) && (vers request =? MOUNT_VERSION) then mount_port
  else 0.

Definition read_mapping : Decoder.reader mapping :=
  program ← Decoder.read_u32;
  version ← Decoder.read_u32;
  transport ← Decoder.read_u32;
  port ← Decoder.read_u32;
  mret (mkMapping program version transport port).

Definition dispatch_portmap (xid procedure : Z) (args : list byte) (state : ConnectionState)
    : result ServerError.t (list byte) :=
  if procedure =? 0 then
    if zlen args =? 0 then Ok (accepted_reply xid SUCCESS []) else Ok (accepted_reply xid GARBAGE_ARGS [])
  else if procedure =? 3 then
    m ← map_err ServerError.Decode (Decoder.decode_all read_mapping args);
    let port :=
      if (prot m =? IPPROTO_TCP) &&
         (((prog_ m =? NFS_PROGRAM) && (vers m =? NFS_VERSION)) ||
          ((prog_ m =? MOUNT_PROGRAM) && (vers m =? MOUNT_VERSION)))
      then local_port state else 0 in
    Ok (accepted_reply xid SUCCESS (into_bytes (write_u32 port new)))
  else Ok (accepted_reply xid PROC_UNAVAIL []).
