(* ===== verification/Execute.v ===== *)
(** * [src/server/connection.rs]: admitting and executing one RPC call

    [admit_call] is [dispatch_record] up to the replay cache: header, credentials,
    policy, replay key and fingerprint. [execute_request] runs an admitted call
    and bounds its reply. SHA-256 is a parameter. *)
From S2P Require Import Prelude Replay RpcCodec VfsTypes RpcAuth NfsProcedures NfsCodec RpcRecord Reply Handles Limits Vfs Connection Mount.
Import Encoder.

(** ** Fingerprints *)

(** The bytes [hash_principal] feeds to the hasher. *)
Definition principal_bytes (p : Principal.t) : list byte :=
  match p with
  | Principal.Anonymous => [byte_of 0]
  | Principal.AuthSys uid gid supplementary_gids machine_name =>
      [byte_of 1] ++ be_bytes 4 uid ++ be_bytes 4 gid ++
      be_bytes 4 (as_u32 (zlen supplementary_gids)) ++
      concat (map (be_bytes 4) supplementary_gids) ++
      be_bytes 4 (as_u32 (zlen machine_name)) ++ machine_name
  end.

Definition fingerprint_input (program version procedure : Z) (args : list byte) (p : Principal.t) : list byte :=
  be_bytes 4 program ++ be_bytes 4 version ++ be_bytes 4 procedure ++ args ++ principal_bytes p.

(** A call that passed admission. *)
Record admitted_call : Type := mkAdmitted {
  ac_key : ReplayKey;
  ac_fingerprint : RequestFingerprint;
  ac_xid : Z;
  ac_program : Z;
  ac_version : Z;
  ac_procedure : Z;
  ac_arguments : list byte;
  ac_context : RequestContext
}.

(** The header fields in wire order. *)
Record call_header : Type := mkCallHeader {
  ch_xid : Z;
  ch_rpc_version : Z;
  ch_program : Z;
  ch_version : Z;
  ch_procedure : Z;
  ch_credential_flavor : Z;
  ch_credential : list byte;
  ch_verifier_flavor : Z;
  ch_verifier : list byte
}.

Section Execute.
Context (hmac : list byte -> list byte -> list byte) (sha256 : list byte -> list byte).
Context (vec_capacity : list byte -> Z).

Definition request_export_id (program procedure : Z) (args : list byte) (state : ConnectionState) : ExportId :=
  if (program =? NFS_PROGRAM) && negb (procedure =? 0) then
    let fallback := match exports state with export :: _ => es_id export | [] => 0 end in
    match Decoder.read_opaque_slice "NFS file handle" 64 (Decoder.new args) with
    | Ok (handle, _) =>
        match decode_any hmac (handles state) handle with
        | Ok (export_id, _) => export_id
        | Err _ => fallback
        end
    | Err _ => fallback
    end
  else if (program =? MOUNT_PROGRAM) && ((procedure =? 1) || (procedure =? 3)) then
    match Decoder.read_opaque_slice "MOUNT path" 1024 (Decoder.new args) with
    | Ok (path, _) => match select_export state path with Some export => es_id export | None => 0 end
    | Err _ => 0
    end
  else 0.

(** Everything up to [decoder.position()]; an [Err] is a protocol or decode
    error, answered with SYSTEM_ERR by the caller. *)
Definition read_call_header (record : list byte) : result ServerError.t (call_header * list byte) :=
  let lift {A} (r : result DecodeError A) := map_err ServerError.Decode r in
  '(xid, d) ← lift (Decoder.read_u32 (Decoder.new record));
  '(message_type, d) ← lift (Decoder.read_u32 d);
  if negb (message_type =? RPC_CALL) then
    Err (ServerError.Protocol "received an RPC reply on a server connection")
  else
    '(rpc_version, d) ← lift (Decoder.read_u32 d);
    '(program, d) ← lift (Decoder.read_u32 d);
    '(version, d) ← lift (Decoder.read_u32 d);
    '(procedure, d) ← lift (Decoder.read_u32 d);
    '(credential_flavor, d) ← lift (Decoder.read_u32 d);
    '(credential, d) ← lift (Decoder.read_opaque_slice "RPC credential" 400 d);
    '(verifier_flavor, d) ← lift (Decoder.read_u32 d);
    '(verifier, d) ← lift (Decoder.read_opaque_slice "RPC verifier" 400 d);
    Ok (mkCallHeader xid rpc_version program version procedure credential_flavor credential
          verifier_flavor verifier, drop (Z.to_nat (Decoder.position d)) record).

(** [inl]: a reply is sent without touching the replay cache or any backend. *)
Definition admit_call (record : list byte) (client_addr : SocketAddr) (state : ConnectionState)
    : result ServerError.t (EncodedReply + admitted_call) :=
  '(h, args) ← read_call_header record;
  let xid := ch_xid h in
  if negb (ch_verifier_flavor h =? AUTH_NONE) || negb (zlen (ch_verifier h) =? 0) then
    Ok (inl (into_reply vec_capacity (auth_error xid 3)))
  else
    match decode_principal (ch_credential_flavor h) (ch_credential h) with
    | Err _ => Ok (inl (into_reply vec_capacity (auth_error xid 1)))
    | Ok p =>
        let request_export := request_export_id (ch_program h) (ch_procedure h) args state in
        if negb (ch_rpc_version h =? 2) then Ok (inl (into_reply vec_capacity (rpc_mismatch xid 2 2)))
        else if negb (ch_program h =? PORTMAP_PROGRAM) && negb (principal_allowed (auth_policy state) p) then
          Ok (inl (into_reply vec_capacity (auth_error xid 5)))
        else
          Ok (inr {|
            ac_key := mkReplayKey (mkSocketAddr (ip client_addr) 0) request_export xid;
            ac_fingerprint := sha256 (fingerprint_input (ch_program h) (ch_version h) (ch_procedure h) args p);
            ac_xid := xid;
            ac_program := ch_program h;
            ac_version := ch_version h;
            ac_procedure := ch_procedure h;
            ac_arguments := args;
            ac_context := mkRequestContext p client_addr request_export
          |})
    end.

(** ** Execution *)

Definition vec_reply (r : result ServerError.t (list byte)) : result ServerError.t EncodedReply :=
  match r with Ok v => Ok (into_reply vec_capacity v) | Err e => Err e end.

Definition dispatch_call (xid program version procedure : Z) (args : list byte) (context : RequestContext)
    (state : ConnectionState) : prog (result ServerError.t EncodedReply) :=
  if program =? NFS_PROGRAM then
    if negb (version =? NFS_VERSION) then
      Ret (Ok (into_reply vec_capacity (program_mismatch xid NFS_VERSION NFS_VERSION)))
    else dispatch_nfs hmac vec_capacity xid procedure args context state
  else if program =? MOUNT_PROGRAM then
    if negb (version =? MOUNT_VERSION) then
      Ret (Ok (into_reply vec_capacity (program_mismatch xid MOUNT_VERSION MOUNT_VERSION)))
    else
      r ← dispatch_mount hmac xid procedure args context state;
      Ret (vec_reply r)
  else if (program =? PORTMAP_PROGRAM) && bool_decide (portmapper state = PortmapperMode.Enabled) then
    if negb (version =? PORTMAP_VERSION) then
      Ret (Ok (into_reply vec_capacity (program_mismatch xid PORTMAP_VERSION PORTMAP_VERSION)))
    else Ret (vec_reply (dispatch_portmap xid procedure args state))
  else Ret (Ok (into_reply vec_capacity (accepted_reply xid PROG_UNAVAIL []))).

(** The part of [execute_request] after dispatch. *)
Definition bound_reply (xid : Z) (state : ConnectionState) (r : result ServerError.t EncodedReply)
    : result ServerError.t EncodedReply :=
  reply ← match r with
          | Ok reply => Ok reply
          | Err (ServerError.Decode _) => Ok (into_reply vec_capacity (accepted_reply xid GARBAGE_ARGS []))
          | Err (ServerError.Encode _) => Ok (into_reply vec_capacity (accepted_reply xid SYSTEM_ERR []))
          | Err error => Err error
          end;
  let l := record_limits (limits state) in
  match validate_record_length (Reply.len reply) l with
  | Ok _ => Ok reply
  | Err _ =>
      let bounded_error := into_reply vec_capacity (accepted_reply xid SYSTEM_ERR []) in
      _ ← map_err ServerError.Record (validate_record_length (Reply.len bounded_error) l);
      Ok bounded_error
  end.

Definition execute_request (c : admitted_call) (state : ConnectionState) : prog (result ServerError.t EncodedReply) :=
  r ← dispatch_call (ac_xid c) (ac_program c) (ac_version c) (ac_procedure c) (ac_arguments c) (ac_context c) state;
  Ret (bound_reply (ac_xid c) state r).

(** [error_reply] and the recovery of the transaction identifier in
    [connection_processor]. *)
Definition error_reply (record : list byte) : EncodedReply :=
  let xid := if 4 <=? zlen record then be_value (slice 0 4 record) else 0 in
  into_reply vec_capacity (accepted_reply xid SYSTEM_ERR []).
End Execute.
