(* ===== verification/RpcNames.v ===== *)
(** * [src/rpc/message.rs], and the names of procedures in traces

    The message types of the public interface, whose codes are those the server
    answers with, and [procedure_name] of [src/server/connection.rs]: a call that
    is traced under an unknown name is one the server does not offer. *)
From S2P Require Import Prelude VfsTypes Reply Vfs Connection Mount Execute.
From stdpp Require Import list strings.
#[local] Open Scope Z_scope.

(** ** Message types *)

Record CallHeader : Type := mkCallHeader { xid : Z; rpc_version : Z; program : Z; version : Z; procedure : Z }.

Module AcceptStatus.
Inductive t : Type :=
| Success | ProgramUnavailable | ProgramMismatch | ProcedureUnavailable | GarbageArguments | SystemError.

Definition code (s : t) : Z :=
  match s with
  | Success => 0
  | ProgramUnavailable => 1
  | ProgramMismatch => 2
  | ProcedureUnavailable => 3
  | GarbageArguments => 4
  | SystemError => 5
  end.
End AcceptStatus.

Record VersionRange : Type := mkVersionRange { low : Z; high : Z }.
Definition exact (version : Z) : VersionRange := mkVersionRange version version.

(** ** Names in traces *)

Definition nfs_names : list string :=
  ["NULL"; "GETATTR"; "SETATTR"; "LOOKUP"; "ACCESS"; "READLINK"; "READ"; "WRITE"; "CREATE"; "MKDIR"; "SYMLINK"; "MKNOD"; "REMOVE";
   "RMDIR"; "RENAME"; "LINK"; "READDIR"; "READDIRPLUS"; "FSSTAT"; "FSINFO"; "PATHCONF"; "COMMIT"]%string.
Definition mount_names : list string := ["MOUNT_NULL"; "MNT"; "DUMP"; "UMNT"; "UMNTALL"; "EXPORT"]%string.

Definition procedure_name (program procedure : Z) : string :=
  if program =? NFS_PROGRAM then default "UNKNOWN_NFS"%string (nfs_names !! Z.to_nat procedure)
  else if program =? MOUNT_PROGRAM then default "UNKNOWN_MOUNT"%string (mount_names !! Z.to_nat procedure)
  else if program =? PORTMAP_PROGRAM then
    if procedure =? 0 then "PMAP_NULL"%string else if procedure =? 3 then "GETPORT"%string else "UNKNOWN_PORTMAP"%string
  else "UNKNOWN_RPC"%string.

Definition unknown_names : list string := ["UNKNOWN_NFS"; "UNKNOWN_MOUNT"; "UNKNOWN_PORTMAP"; "UNKNOWN_RPC"]%string.

Lemma accept_codes :
  map AcceptStatus.code [AcceptStatus.Success; AcceptStatus.ProgramUnavailable; AcceptStatus.ProgramMismatch;
    AcceptStatus.ProcedureUnavailable; AcceptStatus.GarbageArguments; AcceptStatus.SystemError] =
  [SUCCESS; PROG_UNAVAIL; PROG_MISMATCH; PROC_UNAVAIL; GARBAGE_ARGS; SYSTEM_ERR].
Proof. reflexivity. Qed.

(** A name from a table is not an unknown one. *)
Lemma table_unknown (names : list string) (other : string) i :
  forallb (fun n => negb (bool_decide (n ∈ unknown_names))) names = true ->
  default other (names !! i) ∈ unknown_names -> (length names <= i)%nat.
Proof.
  intros Hn. destruct (names !! i) as [n|] eqn:E; cbn; [|intros _; by apply lookup_ge_None].
  apply list_elem_of_lookup_2, list_elem_of_In in E. rewrite forallb_forall in Hn. specialize (Hn n E).
  by apply negb_true_iff, bool_decide_eq_false in Hn.
Qed.

(** Names identify procedures. *)
Lemma known_names_distinct : NoDup (nfs_names ++ mount_names ++ ["PMAP_NULL"; "GETPORT"]%string ++ unknown_names).
Proof. by apply (bool_decide_unpack _); vm_compute. Qed.

Section Unknown.
Context (hmac : list byte -> list byte -> list byte) (vec_capacity : list byte -> Z).

(** A call of the served versions that is traced under an unknown name is refused:
    its program or procedure is unavailable, and no file system is asked. *)
Lemma unknown_name_refused x prog vers proc args context state :
  0 <= proc -> procedure_name prog proc ∈ unknown_names ->
  (prog = NFS_PROGRAM -> vers = NFS_VERSION) -> (prog = MOUNT_PROGRAM -> vers = MOUNT_VERSION) ->
  (prog = PORTMAP_PROGRAM -> vers = PORTMAP_VERSION) ->
  exists status, (status = PROG_UNAVAIL \/ status = PROC_UNAVAIL) /\
    dispatch_call hmac vec_capacity x prog vers proc args context state =
      Ret (Ok (into_reply vec_capacity (accepted_reply x status []))).
Proof.
  intros Hp Hn H1 H2 H3. unfold procedure_name in Hn. unfold dispatch_call.
  destruct (Z.eqb_spec prog NFS_PROGRAM) as [->|_].
  { apply table_unknown in Hn; [|by vm_compute]. cbn in Hn. rewrite H1 by done. cbn [negb Z.eqb NFS_VERSION Pos.eqb].
    exists PROC_UNAVAIL. split; [by right|]. unfold dispatch_nfs. by rewrite (proj2 (Z.ltb_lt 21 proc)) by lia. }
  destruct (Z.eqb_spec prog MOUNT_PROGRAM) as [->|_].
  { apply table_unknown in Hn; [|by vm_compute]. cbn in Hn. rewrite H2 by done. cbn [negb Z.eqb MOUNT_VERSION Pos.eqb].
    exists PROC_UNAVAIL. split; [by right|]. unfold dispatch_mount.
    rewrite !(proj2 (Z.eqb_neq proc _)) by lia. done. }
  destruct (Z.eqb_spec prog PORTMAP_PROGRAM) as [->|_]; [|by exists PROG_UNAVAIL; split; [left|]].
  destruct (bool_decide _); cbn [andb]; [|by exists PROG_UNAVAIL; split; [left|]].
  rewrite H3 by done. cbn [negb Z.eqb PORTMAP_VERSION Pos.eqb]. exists PROC_UNAVAIL. split; [by right|]. unfold dispatch_portmap.
  destruct (proc =? 0); [by repeat (apply elem_of_cons in Hn as [?|Hn]); [..|apply elem_of_nil in Hn]|]. destruct (proc =? 3); [by repeat (apply elem_of_cons in Hn as [?|Hn]); [..|apply elem_of_nil in Hn]|]. done.
Qed.
End Unknown.
