(* ===== verification/Builder.v ===== *)
(** * [src/server/builder.rs], [src/server/mod.rs]: configuring a server

    The builder, the checks of [build], and the state a started server serves
    from. The operating system's random source is a parameter. *)
From S2P Require Import Prelude Replay RpcCodec VfsTypes RpcRecord Handles Limits Vfs Connection.
From stdpp Require Import list.
#[local] Open Scope Z_scope.

Record NfsServerBuilder : Type := mkBuilder {
  b_exports : list ExportState;
  b_limits : ServerLimits;
  b_auth_policy : AuthPolicy.t;
  b_portmapper : PortmapperMode.t
}.

Definition root_path : list byte := [NfsName.slash].

Definition new (vfs : vfs_ref) : NfsServerBuilder :=
  mkBuilder [mkExportState vfs 1 root_path] production_defaults AuthPolicy.AuthSys PortmapperMode.Disabled.

(** [str::starts_with('/')] and [str::ends_with('/')] *)
Definition starts_with_slash (path : list byte) : bool :=
  match path with b :: _ => Byte.eqb b NfsName.slash | [] => false end.
Definition ends_with_slash (path : list byte) : bool :=
  match last path with Some b => Byte.eqb b NfsName.slash | None => false end.

Definition absolute (name : list byte) : list byte :=
  if starts_with_slash name then name else NfsName.slash :: name.

(** [self.exports[0].path = ...]: a builder always has a first export; [None] is
    the panic of an out-of-range index. *)
Definition export_name (name : list byte) (b : NfsServerBuilder) : option NfsServerBuilder :=
  match b_exports b with
  | e :: rest =>
      Some (mkBuilder (mkExportState (es_vfs e) (es_id e) (absolute name) :: rest)
              (b_limits b) (b_auth_policy b) (b_portmapper b))
  | [] => None
  end.

Definition export_id (id : ExportId) (b : NfsServerBuilder) : option NfsServerBuilder :=
  match b_exports b with
  | e :: rest =>
      Some (mkBuilder (mkExportState (es_vfs e) id (es_path e) :: rest) (b_limits b) (b_auth_policy b) (b_portmapper b))
  | [] => None
  end.

Definition push_export (id : ExportId) (name : list byte) (vfs : vfs_ref) (b : NfsServerBuilder) : NfsServerBuilder :=
  mkBuilder (b_exports b ++ [mkExportState vfs id (absolute name)]) (b_limits b) (b_auth_policy b) (b_portmapper b).

Definition add_export (id : ExportId) (name : list byte) (vfs : vfs_ref) (b : NfsServerBuilder) : NfsServerBuilder :=
  push_export id name vfs b.

Definition with_limits (l : ServerLimits) (b : NfsServerBuilder) : NfsServerBuilder :=
  mkBuilder (b_exports b) l (b_auth_policy b) (b_portmapper b).
Definition with_auth_policy (p : AuthPolicy.t) (b : NfsServerBuilder) : NfsServerBuilder :=
  mkBuilder (b_exports b) (b_limits b) p (b_portmapper b).
Definition with_portmapper (m : PortmapperMode.t) (b : NfsServerBuilder) : NfsServerBuilder :=
  mkBuilder (b_exports b) (b_limits b) (b_auth_policy b) m.

Record NfsServer : Type := mkServer {
  s_exports : list ExportState;
  s_limits : ServerLimits;
  s_auth_policy : AuthPolicy.t;
  s_portmapper : PortmapperMode.t
}.

Definition from_builder (b : NfsServerBuilder) : NfsServer :=
  mkServer (b_exports b) (b_limits b) (b_auth_policy b) (b_portmapper b).

(** One iteration of the loop of [build]; [earlier] is [self.exports[..index]]. *)
Definition check_export (earlier : list ExportState) (e : ExportState) : result ServerError.t unit :=
  if NfsName.contains Byte.x00 (es_path e) || (1024 <? zlen (es_path e)) then
    Err (ServerError.InvalidConfiguration "export path is invalid")
  else if negb (starts_with_slash (es_path e)) || ((1 <? zlen (es_path e)) && ends_with_slash (es_path e)) then
    Err (ServerError.InvalidConfiguration "export path must be absolute and must not have a trailing slash")
  else if existsb (fun other => (es_id other =? es_id e) || bool_decide (es_path other = es_path e)) earlier then
    Err (ServerError.InvalidConfiguration "export IDs and paths must be unique")
  else Ok ().

Fixpoint check_exports (earlier l : list ExportState) : result ServerError.t unit :=
  match l with
  | [] => Ok ()
  | e :: rest => _ ← check_export earlier e; check_exports (earlier ++ [e]) rest
  end.

Definition build (b : NfsServerBuilder) : result ServerError.t NfsServer :=
  _ ← map_err ServerError.InvalidConfiguration (validate (b_limits b));
  _ ← check_exports [] (b_exports b);
  Ok (from_builder b).

(** [connection_state]: [fill n] are the bytes of the random source. *)
Definition connection_state (fill fill' : Z -> result ServerError.t (list byte)) (s : NfsServer) (local_port : Z)
    : result ServerError.t ConnectionState :=
  handles ← try_random fill fill';
  Ok (mkConnectionState (s_exports s) (s_limits s) (s_auth_policy s) (s_portmapper s) handles local_port).

Record MountInfo : Type := mkMountInfo {
  server_addr : SocketAddr;
  export_path : list byte;
  nfs_version : Z;
  nfs_port : Z;
  mount_port : Z
}.

Definition mount_infos (s : NfsServer) (local_addr : SocketAddr) : list MountInfo :=
  map (fun e => mkMountInfo local_addr (es_path e) NFS_VERSION (port local_addr) (port local_addr)) (s_exports s).

(** ** What a built server guarantees *)

(** Absolute, without NUL, within the MOUNT path limit, and without a trailing
    slash unless it is the root. *)
Definition canonical_path (path : list byte) : Prop :=
  (exists rest, path = NfsName.slash :: rest) /\ (Byte.x00 ∉ path) /\ zlen path <= 1024 /\
  (path = root_path \/ last path <> Some NfsName.slash).

Record exports_ok (l : list ExportState) : Prop := {
  exports_paths : Forall (fun e => canonical_path (es_path e)) l;
  exports_unique_ids : NoDup (map es_id l);
  exports_unique_paths : NoDup (map es_path l)
}.

(** What every handler may assume of the state it serves from. *)
Class ServerReady (state : ConnectionState) : Prop := {
  ready_codec : codec_wf (handles state);
  ready_limits : limits_valid (limits state);
  ready_exports : exports_ok (exports state)
}.

Lemma starts_with_slash_spec path : starts_with_slash path = true <-> exists rest, path = NfsName.slash :: rest.
Proof.
  destruct path as [|b l]; simpl; [split; [done|by intros []]|].
  split; [intros H; apply Byte.byte_dec_bl in H as ->; eauto|intros [rest [= -> _]]; by apply Byte.byte_dec_lb].
Qed.

Lemma ends_with_slash_spec path : ends_with_slash path = true <-> last path = Some NfsName.slash.
Proof.
  unfold ends_with_slash. destruct (last path) as [b|]; [|done].
  split; [by intros H; apply Byte.byte_dec_bl in H as ->|intros [= ->]; by apply Byte.byte_dec_lb].
Qed.

Lemma existsb_clash e earlier :
  existsb (fun other => (es_id other =? es_id e) || bool_decide (es_path other = es_path e)) earlier = true <->
  es_id e ∈ map es_id earlier \/ es_path e ∈ map es_path earlier.
Proof.
  rewrite existsb_exists. split.
  - intros (x & Hx & H). apply list_elem_of_In in Hx. apply orb_true_iff in H as [H|H].
    + apply Z.eqb_eq in H as <-. left. by apply list_elem_of_fmap_2.
    + apply bool_decide_eq_true in H as <-. right. by apply list_elem_of_fmap_2.
  - intros [H|H]; apply list_elem_of_fmap in H as (x & Hx & Hin); exists x;
      (split; [by apply list_elem_of_In|]); apply orb_true_iff.
    + left. by apply Z.eqb_eq.
    + right. by apply bool_decide_eq_true.
Qed.

Lemma canonical_trailing path :
  starts_with_slash path = true ->
  ((1 <? zlen path) && ends_with_slash path = false <-> path = root_path \/ last path <> Some NfsName.slash).
Proof.
  intros Hs. apply starts_with_slash_spec in Hs as [rest ->].
  rewrite andb_false_iff, <- not_true_iff_false, <- (not_true_iff_false (ends_with_slash _)), ends_with_slash_spec.
  rewrite Z.ltb_lt. split; intros [H|H]; auto.
  - left. destruct rest; [done|]. autorewrite with zlen in H. zlen_pos. lia.
  - left. injection H as ->. by autorewrite with zlen.
Qed.

Lemma check_export_ok earlier e :
  check_export earlier e = Ok () <->
  canonical_path (es_path e) /\ (es_id e ∉ map es_id earlier) /\ (es_path e ∉ map es_path earlier).
Proof.
  unfold check_export, canonical_path.
  destruct (NfsName.contains _ _) eqn:E0; simpl.
  { split; [done|]. intros ((_ & H & _) & _). by apply contains_spec in E0. }
  assert (Byte.x00 ∉ es_path e) as Hz by (intros H; apply contains_spec in H; congruence).
  destruct (1024 <? _) eqn:E1; zbool; [split; [done|intros ((_ & _ & ? & _) & _); lia]|].
  destruct (starts_with_slash _) eqn:E2; simpl.
  2:{ split; [done|]. intros ((H & _) & _). apply starts_with_slash_spec in H. congruence. }
  pose proof (canonical_trailing _ E2) as Ht. apply starts_with_slash_spec in E2.
  destruct (_ && _) eqn:E3.
  { split; [done|]. intros ((_ & _ & _ & H) & _). apply Ht in H. done. }
  pose proof (existsb_clash e earlier) as Hc. destruct (existsb _ _).
  - split; [done|]. intros (_ & H1 & H2). by destruct (proj1 Hc eq_refl).
  - split; [|done]. intros _. split_and!; try done; [by apply Ht|..]; intros H.
    + by pose proof (proj2 Hc (or_introl H)).
    + by pose proof (proj2 Hc (or_intror H)).
Qed.

Lemma check_exports_ok earlier l :
  check_exports earlier l = Ok () <->
  Forall (fun e => canonical_path (es_path e)) l /\ NoDup (map es_id l) /\ NoDup (map es_path l) /\
  (forall e, e ∈ l -> (es_id e ∉ map es_id earlier) /\ (es_path e ∉ map es_path earlier)).
Proof.
  revert earlier. induction l as [|e l IH]; intros earlier; simpl.
  - split; [|done]. intros _. split_and!; [constructor..|]. intros e H. by apply elem_of_nil in H.
  - pose proof (check_export_ok earlier e) as He. destruct (check_export earlier e) as [[]|err]; simpl.
    2:{ split; [done|]. intros (H1 & _ & _ & H4). apply Forall_cons in H1 as [H1 _].
        destruct (H4 e ltac:(by constructor)) as [H5 H6]. by assert (Err err = Ok ()) by (by apply He). }
    destruct (proj1 He eq_refl) as (Hc & Hi & Hp). rewrite IH, Forall_cons, !NoDup_cons, !map_app.
    simpl. setoid_rewrite elem_of_app. setoid_rewrite list_elem_of_singleton. setoid_rewrite elem_of_cons.
    split.
    + intros (H1 & H2 & H3 & H4). split_and!; try done.
      * intros H. apply list_elem_of_fmap in H as (x & Hx & Hin). destruct (H4 x Hin) as [[] _]. by right.
      * intros H. apply list_elem_of_fmap in H as (x & Hx & Hin). destruct (H4 x Hin) as [_ []]. by right.
      * intros x [->|Hx]; [done|]. destruct (H4 x Hx). tauto.
    + intros ((_ & H1) & (H2 & H3) & (H4 & H5) & H6). split_and!; try done. intros x Hx.
      destruct (H6 x (or_intror Hx)) as [H7 H8].
      split; (intros [H|H]; [done|]); [apply H2|apply H4]; rewrite <- H; by apply list_elem_of_fmap_2.
Qed.

(** [build] accepts exactly the servable configurations. It succeeds if and
    only if the limits pass validation, every export path is canonical, and no
    two exports share an identifier or a path; the server has the builder's
    settings unchanged. *)
Lemma build_iff b s :
  build b = Ok s <->
  validate (b_limits b) = Ok () /\ exports_ok (b_exports b) /\ s = from_builder b.
Proof.
  unfold build. destruct (validate _) as [[]|m]; simpl; [|split; [done|by intros []]].
  pose proof (check_exports_ok [] (b_exports b)) as H. destruct (check_exports [] _) as [[]|e]; simpl.
  - destruct (proj1 H eq_refl) as (H1 & H2 & H3 & _).
    split; [intros [= <-]; by split_and!|by intros (_ & _ & ->)].
  - split; [done|]. intros (_ & [H1 H2 H3] & _). assert (Err e = Ok ()); [|done]. apply H. split_and!; try done.
    intros x _. split; apply not_elem_of_nil.
Qed.

(** What [connection_state] gives for a server that [build] accepted. *)
Lemma start_state_ready b s fill fill' local_port state :
  limits_wf (b_limits b) ->
  (forall v, fill INSTANCE_SIZE = Ok v -> zlen v = INSTANCE_SIZE) ->
  build b = Ok s -> connection_state fill fill' s local_port = Ok state ->
  ServerReady state /\ s = from_builder b /\ exports state = b_exports b /\ limits state = b_limits b /\
  auth_policy state = b_auth_policy b /\ Connection.local_port state = local_port.
Proof.
  intros Hwf Hfill Hb Hs.
  unfold build in Hb. apply bind_ok in Hb as ([] & Hv & Hb). apply bind_ok in Hb as ([] & Hc & [= <-]).
  apply check_exports_ok in Hc as (H1 & H2 & H3 & _).
  unfold connection_state, try_random in Hs. apply bind_ok in Hs as (codec & Hr & [= <-]).
  apply bind_ok in Hr as (id & Hid & Hr). apply bind_ok in Hr as (key & _ & [= <-]).
  split; [|done]. split; simpl; [by apply Hfill in Hid| |done].
  apply validate_ok; [done|]. by destruct (validate (b_limits b)) as [[]|].
Qed.

(** C24: a started server is ready to serve. Whatever the random source returns,
    if [build] accepted the configuration then the state its connections share
    has sound limits, a well-formed handle codec, and exports with unique,
    canonical names: what the theorems on request handling assume. *)
Theorem started_server_ready b s fill fill' local_port state :
  limits_wf (b_limits b) ->
  (forall v, fill INSTANCE_SIZE = Ok v -> zlen v = INSTANCE_SIZE) ->
  build b = Ok s -> connection_state fill fill' s local_port = Ok state ->
  ServerReady state /\ exports state = b_exports b /\ auth_policy state = b_auth_policy b.
Proof.
  intros Hwf Hfill Hb Hs. by destruct (start_state_ready b s fill fill' local_port state Hwf Hfill Hb Hs) as (? & _ & ? & _ & ? & _).
Qed.

(** Two exports, one nested in the other. *)
Definition toy_builder : NfsServerBuilder := push_export 2 [Byte.x61] 1%nat (new 0%nat).

Definition toy_fill (n : Z) : result ServerError.t (list byte) := Ok (zeros n).
Definition toy_started : ConnectionState :=
  mkConnectionState (b_exports toy_builder) production_defaults AuthPolicy.AuthSys PortmapperMode.Disabled
    (mkHandleCodec (zeros 8) (zeros 32)) 2049.

Lemma started_server_ready_witness : ServerReady toy_started.
Proof.
  refine (proj1 (started_server_ready toy_builder (from_builder toy_builder) toy_fill toy_fill 2049 toy_started
    production_defaults_wf _ _ _)).
  - by intros v [= <-].
  - vm_compute. reflexivity.
  - vm_compute. reflexivity.
Defined.
