(* ===== verification/Serving.v ===== *)
(** * What serving an NFS call guarantees

    Theorems about the handlers of [Connection]: which backend calls they make,
    what they return, and that every reply can be sent. *)
From S2P Require Import Prelude Replay RpcCodec VfsTypes RpcAuth NfsProcedures NfsCodec RpcRecord Reply Handles Limits Vfs Connection.
Import Encoder Emit.

(** ** Encoded sizes *)

(** A writer that only appends, at most [n] bytes. *)
Class AppendsAtMost (f : writer) (n : Z) : Prop :=
  appends_at_most e e' : f e = Ok e' -> exists bs, e' = mk (output e ++ bs) /\ zlen bs <= n.

Lemma appends_emits (f : writer) P bs n : Emits f P bs -> zlen bs <= n -> AppendsAtMost f n.
Proof. intros Hf Hn e e' H. apply emits_inv in H as [_ ->]. eauto. Qed.

#[local] Hint Rewrite zlen_time_bytes zlen_attributes_bytes zlen_wcc_attributes_bytes : zlen.

(** Bounds on the parts of a result, to close size goals. *)
Ltac size_facts :=
  repeat match goal with
  | |- context [zlen (option_bytes attributes_bytes ?o)] =>
      lazymatch goal with _ : _ <= zlen (option_bytes attributes_bytes o) <= _ |- _ => fail | _ => pose proof (zlen_post_bytes o) end
  | |- context [zlen (wcc_bytes ?w)] =>
      lazymatch goal with _ : _ <= zlen (wcc_bytes w) <= _ |- _ => fail | _ => pose proof (zlen_wcc_bytes w) end
  end.
Ltac solve_size := autorewrite with zlen; size_facts; lia.
Ltac solve_appends := unfold encode_result; simpl; eapply appends_emits; [apply _|solve_size].

Definition handle_len (o : option (list byte)) : Prop := option_wf (fun h => zlen h <= 64) o.

Lemma zlen_handle_bytes o : handle_len o -> zlen (option_bytes Format.opaque_bytes o) <= 72.
Proof.
  destruct o as [h|]; simpl; intros H; autorewrite with zlen; [|lia].
  pose proof (zlen_opaque_64 h H). lia.
Qed.

Lemma appends_getattr r : AppendsAtMost (encode_result (r : GetAttrResult.t)) 88.
Proof. destruct r; solve_appends. Qed.
Lemma appends_setattr r : AppendsAtMost (encode_result (r : SetAttrResult.t)) 120.
Proof. destruct r; solve_appends. Qed.
Lemma appends_access r : AppendsAtMost (encode_result (r : AccessResult.t)) 96.
Proof. destruct r; solve_appends. Qed.
Lemma appends_wcc r : AppendsAtMost (encode_result (r : WccResult.t)) 120.
Proof. destruct r; solve_appends. Qed.
Lemma appends_rename r : AppendsAtMost (encode_result (r : RenameResult.t)) 236.
Proof. destruct r; solve_appends. Qed.
Lemma appends_link r : AppendsAtMost (encode_result (r : LinkResult.t)) 208.
Proof. destruct r; solve_appends. Qed.
Lemma appends_fsstat r : AppendsAtMost (encode_result (r : FsStatResult.t)) 144.
Proof. destruct r; solve_appends. Qed.
Lemma appends_fsinfo r : AppendsAtMost (encode_result (r : FsInfoResult.t)) 140.
Proof. destruct r; solve_appends. Qed.
Lemma appends_pathconf r : AppendsAtMost (encode_result (r : PathConfResult.t)) 116.
Proof. destruct r; solve_appends. Qed.
Lemma appends_write r :
  (forall w n c v, r = WriteResult.Ok w n c v -> zlen v = 8) -> AppendsAtMost (encode_result r) 136.
Proof. destruct r as [w n c v|]; intros H; [specialize (H _ _ _ _ eq_refl)|]; solve_appends. Qed.
Lemma appends_commit r :
  (forall w v, r = CommitResult.Ok w v -> zlen v = 8) -> AppendsAtMost (encode_result r) 128.
Proof. destruct r as [w v|]; intros H; [specialize (H _ _ eq_refl)|]; solve_appends. Qed.
Lemma appends_create r :
  (forall h a w, r = CreateResult.Ok h a w -> handle_len h) -> AppendsAtMost (encode_result r) 280.
Proof.
  destruct r as [h a w|]; intros H; [|solve_appends].
  pose proof (zlen_handle_bytes h (H _ _ _ eq_refl)). solve_appends.
Qed.
Lemma appends_lookup r :
  (forall h a d, r = LookupResult.Ok h a d -> zlen h <= 64) -> AppendsAtMost (encode_result r) 248.
Proof.
  destruct r as [h a d|]; intros H; [|solve_appends].
  pose proof (zlen_opaque_64 h (H _ _ _ eq_refl)). solve_appends.
Qed.
Lemma appends_read_err s a : AppendsAtMost (encode_result (ReadResult.Err s a)) 92.
Proof. solve_appends. Qed.
Lemma appends_readdir_err s a : AppendsAtMost (encode_result (ReadDirResult.Err s a)) 92.
Proof. solve_appends. Qed.
Lemma appends_readlink_err s a : AppendsAtMost (encode_result (ReadLinkResult.Err s a)) 92.
Proof. solve_appends. Qed.
Lemma appends_readlink_ok a path :
  AppendsAtMost (encode_result (ReadLinkResult.Ok a path)) (99 + zlen path).
Proof.
  unfold encode_result; simpl. eapply appends_emits; [apply _|]. autorewrite with zlen. size_facts.
  rewrite Format.zlen_opaque_bytes. pose proof (Format.xdr_padding_range (zlen path)). lia.
Qed.

(** ** Replies *)

Definition reply_header (xid status : Z) : list byte :=
  be_bytes 4 xid ++ be_bytes 4 RPC_REPLY ++ be_bytes 4 MSG_ACCEPTED ++ be_bytes 4 AUTH_NONE ++
  be_bytes 4 0 ++ be_bytes 4 status.

Lemma accepted_reply_encoder_output xid status n :
  accepted_reply_encoder xid status n = mk (reply_header xid status).
Proof. unfold accepted_reply_encoder, reply_header, write_u32; simpl. by rewrite <- !app_assoc. Qed.

Lemma zlen_reply_header xid status : zlen (reply_header xid status) = 24.
Proof. unfold reply_header. by autorewrite with zlen. Qed.
#[local] Hint Rewrite zlen_reply_header : zlen.

Lemma accepted_reply_bytes xid status body : accepted_reply xid status body = reply_header xid status ++ body.
Proof. unfold accepted_reply. by rewrite accepted_reply_encoder_output. Qed.

Lemma take_header xid status body : take 4 (reply_header xid status ++ body) = be_bytes 4 xid.
Proof.
  unfold reply_header. rewrite <- app_assoc.
  match goal with |- take _ (_ ++ ?l) = _ => pose proof (take_app_length (be_bytes 4 xid) l) as H end.
  by rewrite length_be_bytes in H.
Qed.

(** A dispatched call yields an accepted reply of bounded size that echoes the
    transaction identifier, or an error the caller turns into one. *)
Definition reply_ok (xid bound : Z) (r : result ServerError.t EncodedReply) : Prop :=
  match r with
  | Ok reply => reply_wf reply /\ take 4 (wire reply) = be_bytes 4 xid /\ Reply.len reply <= bound
  | Err (ServerError.Encode _) | Err (ServerError.Decode _) => True
  | Err _ => False
  end.

Section Replies.
Context (vec_capacity : list byte -> Z) (vec_capacity_ge : forall v, zlen v <= vec_capacity v).

Lemma reply_ok_vec xid bound status body :
  24 + zlen body <= bound -> reply_ok xid bound (Ok (into_reply vec_capacity (reply_header xid status ++ body))).
Proof.
  intros Hb. destruct (from_vec_wf (reply_header xid status ++ body) _ (vec_capacity_ge _)) as [Hwf Hw].
  unfold into_reply. split_and!; [done|by rewrite Hw; apply take_header|].
  rewrite (len_wire _ Hwf), Hw. autorewrite with zlen. lia.
Qed.

Lemma reply_ok_accepted xid bound status :
  24 <= bound -> reply_ok xid bound (Ok (into_reply vec_capacity (accepted_reply xid status []))).
Proof. intros Hb. rewrite accepted_reply_bytes. apply reply_ok_vec. change (zlen []) with 0. lia. Qed.

Lemma typed_nfs_reply_inv {T} `{EncodeNfsResult T} xid (r : T) n v :
  AppendsAtMost (encode_result r) n -> typed_nfs_reply xid r = Ok v ->
  exists bs, v = reply_header xid SUCCESS ++ bs /\ zlen bs <= n.
Proof.
  intros Ha H1. unfold typed_nfs_reply in H1. apply bind_ok in H1 as (e & H1 & [= <-]).
  rewrite accepted_reply_encoder_output in H1. apply Ha in H1 as (bs & -> & Hl). eauto.
Qed.

Lemma reply_ok_typed {T} `{EncodeNfsResult T} xid bound (r : T) n :
  AppendsAtMost (encode_result r) n -> 24 + n <= bound ->
  reply_ok xid bound (reply_result vec_capacity (typed_nfs_reply xid r)).
Proof.
  intros Ha Hn. destruct (typed_nfs_reply xid r) as [v|] eqn:E; simpl; [|done].
  apply (typed_nfs_reply_inv _ _ _ _ Ha) in E as (bs & -> & Hl). apply (reply_ok_vec xid bound). lia.
Qed.

Lemma reply_ok_failure {T} `{EncodeNfsResult T} xid bound status (f : NfsStatus.t -> T) n :
  (forall s, AppendsAtMost (encode_result (f s)) n) -> 24 + n <= bound ->
  reply_ok xid bound (failure vec_capacity xid status f).
Proof. intros Ha Hn. unfold failure, wire_nfs_status. by eapply reply_ok_typed. Qed.
End Replies.

(** ** READ replies *)

Definition read_body (attributes : option FileAttributes) (data : list byte) (eof : bool) : list byte :=
  be_bytes 4 (NfsStatus.code NfsStatus.Ok) ++ option_bytes attributes_bytes attributes ++
  be_bytes 4 (zlen data) ++ be_bytes 4 (u32_of_bool eof) ++ Format.opaque_bytes data.

Lemma zlen_read_body attributes data eof : zlen (read_body attributes data eof) <= 107 + zlen data.
Proof.
  unfold read_body. autorewrite with zlen. size_facts. rewrite Format.zlen_opaque_bytes.
  pose proof (Format.xdr_padding_range (zlen data)). lia.
Qed.

(** The segments are the header and the READ body; no panic for data that fits
    an XDR length. *)
Lemma read_success_bytes xid attributes data eof :
  zlen data <= u32_max ->
  match read_success_reply xid attributes data eof with
  | Some (Ok reply) => reply_wf reply /\ option_wf attributes_ok attributes /\
      wire reply = reply_header xid SUCCESS ++ read_body attributes data eof
  | Some (Err e) =>
      encode_post_attributes attributes
        (write_u32 (NfsStatus.code NfsStatus.Ok) (mk (reply_header xid SUCCESS))) = Err e
  | None => False
  end.
Proof.
  intros Hd. unfold read_success_reply, u32_try_from. zdec. rewrite accepted_reply_encoder_output.
  set (e0 := write_u32 _ _).
  destruct (encode_post_attributes attributes e0) as [e1|e] eqn:E; [|done].
  pose proof (@emits_inv _ _ _ (emits_post_attributes attributes) _ _ E) as [Hok E1].
  pose proof (zlen_post_bytes attributes) as Hp. pose proof (zlen_nonneg data).
  pose proof (Format.xdr_padding_range (zlen data)) as Hpad. fold (Format.xdr_padding (zlen data)).
  set (e3 := write_bool eof (write_u32 (zlen data) e1)).
  assert (output e3 = reply_header xid SUCCESS ++ be_bytes 4 (NfsStatus.code NfsStatus.Ok) ++
    option_bytes attributes_bytes attributes ++ be_bytes 4 (zlen data) ++ be_bytes 4 (u32_of_bool eof)) as H3.
  { unfold e3, write_bool, write_u32. subst e1. unfold e0, write_u32. cbn [output]. by rewrite <- !app_assoc. }
  unfold into_bytes. change (output (write_u32 (zlen data) e3)) with (output e3 ++ be_bytes 4 (zlen data)).
  destruct (segmented (output e3 ++ be_bytes 4 (zlen data)) data (Format.xdr_padding (zlen data))) as [r|] eqn:Es.
  - apply segmented_wf in Es as [Hwf Hwire]; [|lia]. split_and!; [done|done|].
    rewrite Hwire, H3. unfold read_body, Format.opaque_bytes. by rewrite <- !app_assoc.
  - revert Es. unfold segmented, checked_add. change (zlen XDR_PADDING) with 3. unfold u32_max, usize_max in *.
    assert (zlen (output e3) <= 200) by (rewrite H3; autorewrite with zlen; lia).
    rewrite zlen_app, zlen_be_bytes. zdec. cbn [mbind option_bind]. by zdec.
Qed.

(** The segmented reply against the contiguous encoding. *)
Lemma read_success_reply_bytes_typed xid attributes data eof :
  zlen data <= u32_max ->
  match read_success_reply xid attributes data eof with
  | Some (Ok reply) =>
      reply_wf reply /\ typed_nfs_reply xid (ReadResult.Ok attributes data eof) = Ok (wire reply)
  | Some (Err e) => typed_nfs_reply xid (ReadResult.Ok attributes data eof) = Err e
  | None => False
  end.
Proof.
  intros Hd. pose proof (read_success_bytes xid attributes data eof Hd) as H.
  unfold typed_nfs_reply. rewrite accepted_reply_encoder_output.
  destruct (read_success_reply xid attributes data eof) as [[r|e]|]; [|..|done].
  - destruct H as (Hwf & Ha & ->). split; [done|].
    assert (Emits (encode_result (ReadResult.Ok attributes data eof))
      (True /\ option_wf attributes_ok attributes /\ zlen data <= u32_max /\ True /\ zlen data <= u32_max)
      (read_body attributes data eof)) as He by (unfold encode_result; simpl; apply _).
    rewrite (@emits_ok _ _ _ He); [done|done|].
    pose proof (zlen_read_body attributes data eof). simpl. autorewrite with zlen. unfold u32_max, usize_max in *. lia.
  - unfold encode_result, encode_read, andthen, put_status, put_u32. cbn [mbind result_bind]. by rewrite H.
Qed.

(** The zero-copy READ reply is the ordinary one. For any data that fits an
    XDR length, the segmented reply never panics, and its bytes on the wire are
    exactly the contiguous encoding of the same READ result; it fails exactly
    when that encoding fails, with the same error. *)
Lemma read_success_reply_equiv xid attributes data eof :
  zlen data <= u32_max ->
  match read_success_reply xid attributes data eof with
  | Some (Ok reply) =>
      reply_wf reply /\ typed_nfs_reply xid (ReadResult.Ok attributes data eof) = Ok (wire reply)
  | Some (Err e) => typed_nfs_reply xid (ReadResult.Ok attributes data eof) = Err e
  | None => False
  end.
Proof. apply read_success_reply_bytes_typed. Qed.

(** ** READDIR replies *)
Section ReadDir.
Context (hmac : list byte -> list byte -> list byte) (context : RequestContext) (state : ConnectionState).

Abbreviation typed := (typed_entry hmac context state).

(** Bytes the entries take in the directory-only form the client's
    [directory_count] limits. *)
Definition basic_bytes (l : list DirectoryEntry) : Z := zlen (entries_bytes (map basic_entry l)).

Lemma encode_entry_len x e : encode_readdir_entry x new = Ok e -> len e = zlen (entry_bytes x).
Proof. intros H. by rewrite (emits_len _ _ _ _ _ (emits_entry x) H). Qed.

Lemma entries_bytes_cons x l : zlen (entries_bytes (x :: l)) = zlen (entry_bytes x) + zlen (entries_bytes l).
Proof. unfold entries_bytes. simpl. apply zlen_app. Qed.

(** What the loop keeps of [entries], with the running sizes it started from. *)
Definition page_prefix (plus : bool) (dl : option Z) (wl el : Z) (entries : list DirectoryEntry) (enc dirb : Z)
    (kept : list ReadDirEntry) (truncated : bool) : Prop :=
  exists n, kept = map (typed plus) (take n entries) /\ (n <= length entries)%nat /\
    (truncated = false <-> n = length entries) /\
    (kept <> [] -> el - 4 + enc + zlen (entries_bytes kept) <= wl) /\
    (forall limit, dl = Some limit -> kept <> [] -> dirb + basic_bytes (take n entries) + 4 <= limit).

Lemma page_prefix_stop plus dl wl el x l enc dirb : page_prefix plus dl wl el (x :: l) enc dirb [] true.
Proof. exists 0%nat. split_and!; try done; simpl; lia. Qed.

Lemma readdir_loop_spec plus dl wl el entries enc dirb kept truncated :
  wl < usize_max -> (forall limit, dl = Some limit -> limit < usize_max) -> 0 <= enc -> 0 <= dirb -> 4 <= el ->
  readdir_loop hmac context state plus dl wl el entries enc dirb = Ok (kept, truncated) ->
  page_prefix plus dl wl el entries enc dirb kept truncated.
Proof.
  intros Hwl Hdl. revert enc dirb kept truncated.
  induction entries as [|x l IH]; intros enc dirb kept truncated He Hd Hel H; cbn [readdir_loop] in H.
  { injection H as <- <-. exists 0%nat. by split_and!. }
  apply bind_ok in H as (dp & Hdp & H).
  destruct (match dl with Some _ => _ | None => _ end) eqn:Edl; [injection H as <- <-; apply page_prefix_stop|].
  apply bind_ok in H as (en & Hen & H).
  destruct (_ <? _) eqn:Ew in H; [injection H as <- <-; apply page_prefix_stop|].
  apply bind_ok in H as ([k t] & Hrec & [= <- <-]).
  apply encode_entry_len in Hdp, Hen. pose proof (zlen_nonneg (entry_bytes (typed plus x))).
  pose proof (zlen_nonneg (entry_bytes (basic_entry x))). zbool. unfold saturating_add, saturating_sub in *.
  apply IH in Hrec as (n & -> & Hn & Ht & Hw & Hl); [|lia..].
  exists (S n). split_and!; [done|simpl; lia|rewrite Ht; simpl; lia| |].
  - intros _. cbn [map take]. rewrite entries_bytes_cons, <- Hen.
    destruct (map (typed plus) (take n l)) eqn:Em.
    + change (zlen (entries_bytes [])) with 0. lia.
    + specialize (Hw ltac:(done)). lia.
  - intros limit -> _. specialize (Hdl limit eq_refl). specialize (Hl limit eq_refl). zbool.
    unfold basic_bytes in *. cbn [map take]. rewrite entries_bytes_cons.
    destruct (take n l) eqn:En.
    + change (zlen (entries_bytes (map basic_entry []))) with 0. lia.
    + specialize (Hl ltac:(done)). lia.
Qed.

Lemma empty_readdir_len attributes verifier e :
  empty_readdir attributes verifier = Ok e ->
  len e = zlen (readdir_header_bytes attributes verifier) + 8.
Proof.
  intros H. rewrite (emits_len _ _ _ _ _ (emits_readdir_ok _ _ _ _) H). autorewrite with zlen.
  change (len new) with 0. change (zlen (entries_bytes [])) with 0. lia.
Qed.

(** The successful listing has the entry bytes after the empty listing's. *)
Lemma typed_readdir_len xid attributes verifier entries eof v :
  typed_nfs_reply xid (ReadDirResult.Ok attributes verifier entries eof) = Ok v ->
  zlen v = 24 + zlen (readdir_header_bytes attributes verifier) + zlen (entries_bytes entries) + 8.
Proof.
  intros H. unfold typed_nfs_reply in H. apply bind_ok in H as (e & H & [= <-]).
  pose proof (emits_len _ _ _ _ _ (emits_readdir_ok _ _ _ _) H) as Hl. unfold len at 1 in Hl. unfold into_bytes.
  rewrite accepted_reply_encoder_output in Hl. unfold len in Hl. simpl in Hl.
  rewrite Hl. autorewrite with zlen. lia.
Qed.

(** The two shapes of a directory reply. *)
Lemma readdir_reply_inv xid plus attributes page dl wl v :
  0 <= wl <= u32_max -> (forall limit, dl = Some limit -> limit <= u32_max) ->
  readdir_reply hmac xid context state plus attributes page dl wl = Ok v ->
  typed_nfs_reply xid (ReadDirResult.Err NfsStatus.TooSmall attributes) = Ok v \/
  exists selected kept truncated,
    let header := zlen (readdir_header_bytes selected (page_verifier page)) in
    (selected = attributes \/ selected = None) /\ header + 4 <= wl /\
    page_prefix plus dl wl (header + 8) (page_entries page) 0 0 kept truncated /\
    typed_nfs_reply xid (ReadDirResult.Ok selected (page_verifier page) kept (page_eof page && negb truncated)) = Ok v /\
    (page_entries page <> [] -> truncated = true -> kept <> []).
Proof.
  intros Hwl Hdl H. unfold u32_max in *. unfold readdir_reply in H. apply bind_ok in H as (e1 & He1 & H).
  apply bind_ok in H as ([selected empty] & Hsel & H).
  assert (empty_readdir selected (page_verifier page) = Ok empty /\ (selected = attributes \/ selected = None)) as [Hemp Hs].
  { destruct (_ <? _) in Hsel; [|injection Hsel as <- <-; auto].
    apply bind_ok in Hsel as (e2 & He2 & [= <- <-]). auto. }
  apply empty_readdir_len in Hemp. pose proof (zlen_readdir_header selected (page_verifier page)).
  destruct (_ <? _) eqn:Ew in H; [by left|]. zbool. unfold saturating_sub in Ew.
  apply bind_ok in H as ([entries truncated] & Hloop & H).
  apply readdir_loop_spec in Hloop;
    [|unfold usize_max; lia|intros limit Hlim; specialize (Hdl _ Hlim); unfold usize_max; lia|lia|lia|lia].
  destruct (_ && _) eqn:Eg in H; [by left|]. right. exists selected, entries, truncated.
  rewrite <- Hemp. split_and!; try done; [lia|].
  intros Hne -> ->. destruct (page_entries page); [done|]. done.
Qed.

Lemma readdir_reply_size xid plus attributes page dl wl v :
  0 <= wl <= u32_max -> (forall limit, dl = Some limit -> limit <= u32_max) ->
  readdir_reply hmac xid context state plus attributes page dl wl = Ok v ->
  (exists bs, v = reply_header xid SUCCESS ++ bs) /\ zlen v <= Z.max 304 (28 + wl).
Proof.
  intros Hwl Hdl H.
  apply readdir_reply_inv in H as [H|(sel & kept & tr & _ & Hh & (n & _ & _ & _ & Hsize & _) & H & _)]; try done.
  - apply (typed_nfs_reply_inv _ _ _ _ (appends_readdir_err _ _)) in H as (bs & -> & Hl).
    split; [eauto|]. autorewrite with zlen. lia.
  - pose proof (typed_readdir_len _ _ _ _ _ _ H) as Hlen. split.
    + unfold typed_nfs_reply in H. apply bind_ok in H as (e & H & [= <-]).
      rewrite accepted_reply_encoder_output in H.
      apply (@emits_inv _ _ _ (emits_readdir_ok _ _ _ _)) in H as [_ ->]. eauto.
    + destruct kept as [|x l]; [change (zlen (entries_bytes [])) with 0 in Hlen; lia|].
      specialize (Hsize ltac:(done)). lia.
Qed.

(** C22: READDIR paging is sound and makes progress. A directory reply is either
    TOOSMALL or lists a prefix of the backend's page, in order and unchanged;
    the encoded result stays within the client's byte limit and, for READDIRPLUS,
    the directory part within [directory_count]; end-of-file is reported only if
    the backend reported it and no entry was left out; and a page that had
    entries never yields an empty listing, so a client always advances. *)
Theorem readdir_reply_pages xid plus attributes page directory_limit wire_limit v :
  0 <= wire_limit <= u32_max -> (forall limit, directory_limit = Some limit -> limit <= u32_max) ->
  readdir_reply hmac xid context state plus attributes page directory_limit wire_limit = Ok v ->
  typed_nfs_reply xid (ReadDirResult.Err NfsStatus.TooSmall attributes) = Ok v \/
  exists n selected, (n <= length (page_entries page))%nat /\ (selected = attributes \/ selected = None) /\
    typed_nfs_reply xid (ReadDirResult.Ok selected (page_verifier page)
      (map (typed plus) (take n (page_entries page)))
      (page_eof page && bool_decide (n = length (page_entries page)))) = Ok v /\
    zlen v <= 28 + wire_limit /\
    (n = 0%nat -> page_entries page = []) /\
    (forall limit, directory_limit = Some limit -> n <> 0%nat ->
       basic_bytes (take n (page_entries page)) + 4 <= limit).
Proof.
  intros Hwl Hdl H.
  apply readdir_reply_inv in H as [H|(sel & kept & tr & Hs & Hh & (n & -> & Hn & Ht & Hsize & Hlimit) & H & Hprog)];
    try done; [by left|]. right. exists n, sel.
  assert (tr = negb (bool_decide (n = length (page_entries page)))) as ->.
  { destruct tr; case_bool_decide as Hc; try done; [by apply Ht in Hc|by destruct Hc; apply Ht]. }
  rewrite negb_involutive in H. pose proof (typed_readdir_len _ _ _ _ _ _ H) as Hlen.
  assert (n <> 0%nat -> map (typed plus) (take n (page_entries page)) <> []) as Hne.
  { destruct n as [|n]; [done|]. destruct (page_entries page); [simpl in Hn; lia|done]. }
  split_and!; try done.
  - destruct (map (typed plus) (take n (page_entries page))) as [|x l] eqn:E.
    + change (zlen (entries_bytes [])) with 0 in Hlen. lia.
    + specialize (Hsize ltac:(done)). lia.
  - intros ->. destruct (page_entries page) as [|x l] eqn:Ep; [done|]. exfalso.
    apply (Hprog ltac:(done)); [|done]. by rewrite bool_decide_eq_false_2.
  - intros limit Hlim Hn0. rewrite Z.add_0_l in Hlimit. by apply (Hlimit limit Hlim), Hne.
Qed.
End ReadDir.

Definition toy_state_nfs : ConnectionState :=
  mkConnectionState [mkExportState 0%nat 1 [NfsName.slash]] production_defaults AuthPolicy.AuthSys
    PortmapperMode.Disabled toy_codec 2049.
Definition toy_context : RequestContext :=
  mkRequestContext (Principal.AuthSys 0 0 [] []) (mkSocketAddr (V4 1) 700) 1.
Definition toy_page : ReadDirectoryPage :=
  mkReadDirectoryPage (zeros 8)
    [mkDirectoryEntry (mkObjectKey 2 0) 2 (NfsName.mk [Byte.x61]) 1 None;
     mkDirectoryEntry (mkObjectKey 3 0) 3 (NfsName.mk [Byte.x62]) 2 None] true.

Lemma readdir_reply_pages_witness :
  exists v, readdir_reply toy_hmac 9 toy_context toy_state_nfs false None toy_page None 60 = Ok v /\
    (typed_nfs_reply 9 (ReadDirResult.Err NfsStatus.TooSmall None) = Ok v \/ zlen v <= 88).
Proof.
  eexists. split; [vm_compute; reflexivity|].
  match goal with |- _ \/ zlen ?w <= _ =>
    destruct (readdir_reply_pages toy_hmac toy_context toy_state_nfs 9 false None toy_page None 60 w)
      as [H|(n & sel & _ & _ & _ & H & _)] end.
  - by unfold u32_max.
  - done.
  - vm_compute; reflexivity.
  - by left.
  - by right.
Defined.

(** ** Which backend calls a request may cause *)

(** The file handles a request carries. *)
Definition request_handles (a : NfsArguments.t) : list (list byte) :=
  match a with
  | NfsArguments.Null => []
  | NfsArguments.GetAttr x | NfsArguments.ReadLink x | NfsArguments.FsStat x
  | NfsArguments.FsInfo x | NfsArguments.PathConf x => [oa_object x]
  | NfsArguments.SetAttr x => [sar_object x]
  | NfsArguments.Lookup x | NfsArguments.Remove x | NfsArguments.Rmdir x => [directory x]
  | NfsArguments.Access x => [aa_object x]
  | NfsArguments.Read x => [ra_object x]
  | NfsArguments.Write x => [wa_object x]
  | NfsArguments.Create x => [directory (ca_target x)]
  | NfsArguments.Mkdir x => [directory (mka_target x)]
  | NfsArguments.Symlink x => [directory (sla_target x)]
  | NfsArguments.Mknod x => [directory (mna_target x)]
  | NfsArguments.Rename x => [directory (rename_from x); directory (rename_to x)]
  | NfsArguments.Link x => [la_object x; directory (la_target x)]
  | NfsArguments.ReadDir x => [rda_directory x]
  | NfsArguments.ReadDirPlus x => [rdp_directory x]
  | NfsArguments.Commit x => [cma_object x]
  end.

Section Handlers.
Context (hmac : list byte -> list byte -> list byte) (hmac_length : forall k m, zlen (hmac k m) = 32).
Context (vec_capacity : list byte -> Z) (vec_capacity_ge : forall v, zlen v <= vec_capacity v).
Context (xid : Z) (context : RequestContext) (state : ConnectionState).
Context (codec_ok : codec_wf (handles state)) (limits_ok : limits_valid (limits state)).

(** The object was named by a handle of the request that this server instance
    issued for the export being served. *)
Definition issued (hs : list (list byte)) (o : ObjectKey) : Prop :=
  exists h, h ∈ hs /\ object_wf o /\ h = encode hmac (handles state) (export_id context) o.

Definition call_ok (v : vfs_ref) (hs : list (list byte)) (e : effect) : Prop :=
  match e with
  | Vfs v' op =>
      v' = v /\ (forall c, VfsOp.context_of op = Some c -> c = context) /\
      Forall (issued hs) (VfsOp.objects_of op) /\ Forall NfsName.valid (VfsOp.names_of op)
  | Mounts _ => False
  end.

Lemma object_of_issued hs h o :
  h ∈ hs -> object_of hmac context state h = Ok o -> issued hs o.
Proof.
  intros Hin H. unfold object_of, decode_object, decode in H.
  destruct (decode_any hmac (handles state) h) as [[e o']|] eqn:E; simpl in H; [|done].
  destruct (e =? export_id context) eqn:Ee; [|done]. zbool. simpl in H. injection H as <-.
  apply (decode_any_sound _ hmac_length) in E as (_ & Ho & ->). subst. by eexists.
Qed.

Lemma directory_operation_issued hs x o n :
  directory x ∈ hs -> directory_operation_of hmac context state x = Ok (o, n) ->
  issued hs o /\ NfsName.valid n.
Proof.
  intros Hin H. unfold directory_operation_of, Connection.decode_directory_operation in H.
  apply bind_ok in H as (o' & Ho & H). destruct (_ <? _); [done|].
  apply bind_ok in H as (n' & Hn & [= <- <-]).
  split; [by apply (object_of_issued hs (directory x))|].
  destruct (NfsName.new (name x)) as [m|] eqn:E; [|done]. simpl in Hn. injection Hn as <-.
  by apply NfsName_new_ok in E as [_ ?].
Qed.

Abbreviation any_answer := (fun (e : effect) (_ : response e) => True).

Lemma wp_getattr_ok {A} v hs (Q : A -> Prop) o (k : option FileAttributes -> prog A) :
  issued hs o -> (forall a, wp (call_ok v hs) any_answer Q (k a)) ->
  wp (call_ok v hs) any_answer Q (getattr_ok context v o ≫= k).
Proof.
  intros Ho Hk. unfold getattr_ok. simpl. split; [|intros r _; apply Hk].
  split_and!; [done|by intros c [= <-]|by constructor|constructor].
Qed.

Lemma handle_len_issued e o : handle_len (Some (encode hmac (handles state) e o)).
Proof. unfold handle_len; simpl. rewrite (zlen_encode _ hmac_length _ _ _ codec_ok). by vm_compute. Qed.

Lemma instance_len : zlen (instance_id (handles state)) = 8.
Proof. exact codec_ok. Qed.

Ltac issued_facts :=
  repeat match goal with
  | H : object_of _ _ _ ?h = Ok ?o |- _ =>
      apply (object_of_issued [h]) in H; [|by constructor]
  end.

Lemma issued_mono hs hs' o : hs ⊆ hs' -> issued hs o -> issued hs' o.
Proof. intros Hs (h & Hh & Ho). exists h. split; [by apply Hs|done]. Qed.

Hint Resolve appends_getattr appends_setattr appends_access appends_wcc appends_rename appends_link appends_fsstat
  appends_fsinfo appends_pathconf appends_read_err appends_readdir_err appends_readlink_err : codec.

(** Discharge the obligations of one backend call. *)
Ltac solve_call :=
  split_and!; [done|by intros ? [= <-]|repeat (apply Forall_cons_2; [assumption|]); apply Forall_nil_2
              |repeat (apply Forall_cons_2; [assumption|]); apply Forall_nil_2].
Ltac solve_reply :=
  cbn [wp answer reply]; first
  [ eapply reply_ok_failure; [done|intros; auto with codec|lia]
  | eapply reply_ok_typed; [done|auto with codec|lia] ].

Context (v : vfs_ref).

Lemma wp_getattr_handler a bound :
  304 <= bound -> wp (call_ok v (request_handles (NfsArguments.GetAttr a))) any_answer (reply_ok xid bound)
    (handle_getattr hmac vec_capacity xid context state v a).
Proof.
  intros Hb. unfold handle_getattr. destruct (object_of _ _ _ _) as [o|] eqn:Eo; [|solve_reply].
  issued_facts. apply wp_call; [solve_call|]. intros r _. solve_reply.
Qed.

Lemma wp_setattr_handler a bound :
  304 <= bound -> wp (call_ok v (request_handles (NfsArguments.SetAttr a))) any_answer (reply_ok xid bound)
    (handle_setattr hmac vec_capacity xid context state v a).
Proof.
  intros Hb. unfold handle_setattr. destruct (object_of _ _ _ _) as [o|] eqn:Eo; [|solve_reply].
  issued_facts. apply wp_call; [solve_call|]. intros r _. solve_reply.
Qed.

Lemma wp_access_handler a bound :
  304 <= bound -> wp (call_ok v (request_handles (NfsArguments.Access a))) any_answer (reply_ok xid bound)
    (handle_access hmac vec_capacity xid context state v a).
Proof.
  intros Hb. unfold handle_access. destruct (object_of _ _ _ _) as [o|] eqn:Eo; [|solve_reply].
  issued_facts. apply wp_call; [solve_call|]. intros [allowed|e] _; (apply wp_getattr_ok; [done|]); intros at'; solve_reply.
Qed.

(** Resolve the (only) directory operation of a request. *)
Ltac destruct_operation :=
  match goal with
  | |- context [directory_operation_of hmac context state ?x] =>
      let E := fresh in
      destruct (directory_operation_of hmac context state x) as [[? ?]|] eqn:E;
      [apply (directory_operation_issued [directory x]) in E as [? ?]; [|by constructor]|]
  end.

Lemma create_failure_ok bound status :
  304 <= bound -> reply_ok xid bound (create_failure_reply vec_capacity xid status).
Proof.
  intros Hb. unfold create_failure_reply. eapply reply_ok_failure; [done|intros; by apply appends_create|lia].
Qed.

Lemma create_reply_ok bound r :
  304 <= bound -> reply_ok xid bound (reply_result vec_capacity (create_reply hmac xid state (export_id context) r)).
Proof.
  intros Hb. unfold create_reply. eapply reply_ok_typed; [done|apply appends_create|lia].
  intros h a w H. destruct r as [r|]; [|done]. injection H as <- _ _. apply handle_len_issued.
Qed.

Lemma wp_lookup_handler a bound :
  304 <= bound -> wp (call_ok v (request_handles (NfsArguments.Lookup a))) any_answer (reply_ok xid bound)
    (handle_lookup hmac vec_capacity xid context state v a).
Proof.
  intros Hb. unfold handle_lookup. destruct_operation.
  2:{ eapply reply_ok_failure; [done|intros; by apply appends_lookup|lia]. }
  apply wp_call; [solve_call|]. intros [found|e] _; (apply wp_getattr_ok; [done|]); intros at';
    (eapply reply_ok_typed; [done|apply appends_lookup|lia]); [|done].
  intros h b d [= <- _ _]. exact (handle_len_issued _ _).
Qed.

Lemma wp_create_handler a bound :
  304 <= bound -> wp (call_ok v (request_handles (NfsArguments.Create a))) any_answer (reply_ok xid bound)
    (handle_create hmac vec_capacity xid context state v a).
Proof.
  intros Hb. unfold handle_create. destruct_operation; [|by apply create_failure_ok].
  apply wp_call; [solve_call|]. intros r _. by apply create_reply_ok.
Qed.

Lemma wp_mkdir_handler a bound :
  304 <= bound -> wp (call_ok v (request_handles (NfsArguments.Mkdir a))) any_answer (reply_ok xid bound)
    (handle_mkdir hmac vec_capacity xid context state v a).
Proof.
  intros Hb. unfold handle_mkdir. destruct_operation; [|by apply create_failure_ok].
  apply wp_call; [solve_call|]. intros r _. by apply create_reply_ok.
Qed.

Lemma wp_symlink_handler a bound :
  304 <= bound -> wp (call_ok v (request_handles (NfsArguments.Symlink a))) any_answer (reply_ok xid bound)
    (handle_symlink hmac vec_capacity xid context state v a).
Proof.
  intros Hb. unfold handle_symlink. destruct_operation; [|by apply create_failure_ok].
  apply wp_call; [solve_call|]. intros r _. by apply create_reply_ok.
Qed.

Lemma wp_mknod_handler a bound :
  304 <= bound -> wp (call_ok v (request_handles (NfsArguments.Mknod a))) any_answer (reply_ok xid bound)
    (handle_mknod hmac vec_capacity xid context state v a).
Proof.
  intros Hb. unfold handle_mknod. destruct_operation; [|by apply create_failure_ok].
  apply wp_call; [solve_call|]. intros r _. by apply create_reply_ok.
Qed.

Lemma wp_remove_handler a bound :
  304 <= bound -> wp (call_ok v (request_handles (NfsArguments.Remove a))) any_answer (reply_ok xid bound)
    (handle_remove hmac vec_capacity xid context state v a).
Proof.
  intros Hb. unfold handle_remove. destruct_operation; [|solve_reply].
  apply wp_call; [solve_call|]. intros r _. unfold mutation_void_reply. solve_reply.
Qed.

Lemma wp_rmdir_handler a bound :
  304 <= bound -> wp (call_ok v (request_handles (NfsArguments.Rmdir a))) any_answer (reply_ok xid bound)
    (handle_rmdir hmac vec_capacity xid context state v a).
Proof.
  intros Hb. unfold handle_rmdir. destruct_operation; [|solve_reply].
  apply wp_call; [solve_call|]. intros r _. unfold mutation_void_reply. solve_reply.
Qed.

Lemma wp_fsstat_handler a bound :
  304 <= bound -> wp (call_ok v (request_handles (NfsArguments.FsStat a))) any_answer (reply_ok xid bound)
    (handle_fsstat hmac vec_capacity xid context state v a).
Proof.
  intros Hb. unfold handle_fsstat. destruct (object_of _ _ _ _) as [o|] eqn:Eo; [|solve_reply].
  issued_facts. apply wp_call; [solve_call|]. intros [info|e] _; [|solve_reply].
  apply wp_getattr_ok; [done|]. intros at'. solve_reply.
Qed.

Lemma wp_pathconf_handler a bound :
  304 <= bound -> wp (call_ok v (request_handles (NfsArguments.PathConf a))) any_answer (reply_ok xid bound)
    (handle_pathconf hmac vec_capacity xid context state v a).
Proof.
  intros Hb. unfold handle_pathconf. destruct (object_of _ _ _ _) as [o|] eqn:Eo; [|solve_reply].
  issued_facts. apply wp_call; [solve_call|]. intros [info|e] _; [|solve_reply].
  apply wp_getattr_ok; [done|]. intros at'. solve_reply.
Qed.

Lemma wp_fsinfo_handler a bound :
  304 <= bound -> wp (call_ok v (request_handles (NfsArguments.FsInfo a))) any_answer (reply_ok xid bound)
    (handle_fsinfo hmac vec_capacity xid context state v a).
Proof.
  intros Hb. unfold handle_fsinfo. destruct (object_of _ _ _ _) as [o|] eqn:Eo; [|solve_reply].
  issued_facts. apply wp_call; [solve_call|]. intros [info|e] _; [|solve_reply].
  apply wp_getattr_ok; [done|]. intros at'. apply wp_call; [solve_call|]. intros caps _. solve_reply.
Qed.

Lemma wp_commit_handler a bound :
  304 <= bound -> wp (call_ok v (request_handles (NfsArguments.Commit a))) any_answer (reply_ok xid bound)
    (handle_commit hmac vec_capacity xid context state v a).
Proof.
  intros Hb. unfold handle_commit. destruct (object_of _ _ _ _) as [o|] eqn:Eo.
  2:{ eapply reply_ok_failure; [done|intros; by apply appends_commit|lia]. }
  issued_facts. apply wp_call; [solve_call|]. intros r _.
  eapply reply_ok_typed; [done|apply appends_commit|lia].
  intros w vf H. destruct r; [|done]. injection H as _ <-. apply instance_len.
Qed.

Lemma wp_write_handler a bound :
  304 <= bound -> wp (call_ok v (request_handles (NfsArguments.Write a))) any_answer (reply_ok xid bound)
    (dispatch_write hmac vec_capacity xid context state v a).
Proof.
  intros Hb. unfold dispatch_write. destruct (WriteArgs_validate a) as [[]|status].
  2:{ eapply reply_ok_typed; [done|by apply appends_write|lia]. }
  destruct (object_of _ _ _ _) as [o|] eqn:Eo.
  2:{ eapply reply_ok_failure; [done|intros; by apply appends_write|lia]. }
  issued_facts. apply wp_call; [solve_call|]. intros r _.
  eapply reply_ok_typed; [done|apply appends_write|lia].
  intros w n c vf H. destruct r as [r|]; [|done]. destruct (_ && _); [|done]. injection H as _ _ _ <-. apply instance_len.
Qed.

Lemma wp_rename_handler a bound :
  304 <= bound -> wp (call_ok v (request_handles (NfsArguments.Rename a))) any_answer (reply_ok xid bound)
    (handle_rename hmac vec_capacity xid context state v a).
Proof.
  intros Hb. unfold handle_rename, rename_failure_reply. set (hs := request_handles _).
  destruct (directory_operation_of hmac context state (rename_from a)) as [[o1 n1]|] eqn:E1; [|solve_reply].
  destruct (directory_operation_of hmac context state (rename_to a)) as [[o2 n2]|] eqn:E2; [|solve_reply].
  apply (directory_operation_issued hs) in E1 as [? ?]; [|by constructor].
  apply (directory_operation_issued hs) in E2 as [? ?]; [|by do 2 constructor].
  apply wp_call; [solve_call|]. intros r _. solve_reply.
Qed.

Lemma wp_link_handler a bound :
  304 <= bound -> wp (call_ok v (request_handles (NfsArguments.Link a))) any_answer (reply_ok xid bound)
    (handle_link hmac vec_capacity xid context state v a).
Proof.
  intros Hb. unfold handle_link, link_failure_reply. set (hs := request_handles _).
  destruct (object_of _ _ _ _) as [o|] eqn:E1; [|solve_reply].
  destruct (directory_operation_of hmac context state (la_target a)) as [[o2 n2]|] eqn:E2; [|solve_reply].
  apply (object_of_issued hs) in E1; [|by constructor].
  apply (directory_operation_issued hs) in E2 as [? ?]; [|by do 2 constructor].
  apply wp_call; [solve_call|]. intros [r|e] _; [|solve_reply].
  apply wp_getattr_ok; [done|]. intros at'. solve_reply.
Qed.

Lemma wp_readlink_handler a bound :
  u32_max + 200 <= bound -> wp (call_ok v (request_handles (NfsArguments.ReadLink a))) any_answer (reply_ok xid bound)
    (handle_readlink hmac vec_capacity xid context state v a).
Proof.
  intros Hb. unfold u32_max in Hb. unfold handle_readlink.
  destruct (object_of _ _ _ _) as [o|] eqn:Eo; [|solve_reply].
  issued_facts. apply wp_call; [solve_call|]. intros [path|e] _; (apply wp_getattr_ok; [done|]); intros at'; [|solve_reply].
  destruct (decide (zlen path <= u32_max)) as [Hp|Hp].
  - unfold u32_max in Hp. eapply reply_ok_typed; [done|apply appends_readlink_ok|lia].
  - cbn [wp reply answer]. destruct (typed_nfs_reply _ _) as [w|] eqn:E; [|done]. exfalso. apply Hp.
    unfold typed_nfs_reply in E. apply bind_ok in E as (e & E & _). revert E. unfold encode_result; simpl. intros E.
    apply andthen_ok in E as (e1 & _ & E). apply andthen_ok in E as (e2 & _ & E).
    by apply (@emits_inv _ _ _ (emits_write_opaque path)) in E as [? _].
Qed.

Lemma read_success_size attributes data eof :
  match read_success_reply xid attributes data eof with
  | Some (Ok reply) => zlen data <= u32_max ->
      reply_wf reply /\ take 4 (wire reply) = be_bytes 4 xid /\ Reply.len reply <= 131 + zlen data
  | Some (Err _) => True
  | None => u32_max < zlen data
  end.
Proof.
  destruct (decide (zlen data <= u32_max)) as [Hd|Hd].
  2:{ unfold read_success_reply, u32_try_from. by zdec. }
  pose proof (read_success_bytes xid attributes data eof Hd) as H.
  destruct (read_success_reply _ _ _ _) as [[rep|]|]; [|done|done].
  destruct H as (Hwf & _ & Hw). intros _. split_and!; [done|rewrite Hw; apply take_header|].
  rewrite (len_wire _ Hwf), Hw. autorewrite with zlen. pose proof (zlen_read_body attributes data eof). lia.
Qed.

Lemma wp_read_handler a bound :
  304 <= bound -> 0 <= ra_count a -> 0 <= max_read_size (limits state) <= u32_max ->
  max_read_size (limits state) + MAXIMUM_READ_REPLY_OVERHEAD <= bound ->
  wp (call_ok v (request_handles (NfsArguments.Read a))) any_answer (reply_ok xid bound)
    (dispatch_read hmac vec_capacity xid context state v a).
Proof.
  intros Hb Hc Hm Hr. unfold dispatch_read. destruct (object_of _ _ _ _) as [o|] eqn:Eo; [|solve_reply].
  issued_facts. apply wp_call; [solve_call|]. intros [r|e] _; [|solve_reply].
  set (count := Z.min _ _). assert (0 <= count <= max_read_size (limits state)) as Hcount by (unfold count; lia).
  set (data := if count <? _ then _ else _).
  assert (zlen data <= count) as Hd.
  { unfold data. destruct (count <? _) eqn:E; zbool; [|done].
    rewrite zlen_slice by lia. lia. }
  pose proof (read_success_size (rb_attributes r) data (rb_eof r)) as Hs.
  destruct (read_success_reply _ _ _ _) as [[rep|]|]; [|done|lia].
  cbn [wp answer]. destruct Hs as (? & ? & ?); [lia|]. split_and!; [done|done|].
  unfold MAXIMUM_READ_REPLY_OVERHEAD in Hr. lia.
Qed.

Lemma wp_list_directory hs plus o cookie verifier dl wl bound :
  issued hs o -> 0 <= wl <= u32_max -> (forall limit, dl = Some limit -> limit <= u32_max) ->
  304 <= bound -> 28 + wl <= bound ->
  wp (call_ok v hs) any_answer (reply_ok xid bound)
    (list_directory hmac vec_capacity xid context state v plus o cookie verifier dl wl).
Proof.
  intros Ho Hwl Hdl Hb Hw. unfold list_directory. apply wp_call; [solve_call|]. intros [page|e] _; [|solve_reply].
  apply wp_getattr_ok; [done|]. intros at'. cbn [wp answer].
  destruct (readdir_reply _ _ _ _ _ _ _ _ _) as [w|] eqn:E; [|done].
  apply readdir_reply_size in E as ((bs & ->) & Hl); [|done|done]. cbn [reply_result].
  apply (reply_ok_vec _ vec_capacity_ge). autorewrite with zlen in Hl. lia.
Qed.

Lemma wp_readdir_handler a bound :
  304 <= bound -> 0 <= rda_count a -> 0 <= max_readdir_response_size (limits state) <= u32_max ->
  28 + max_readdir_response_size (limits state) <= bound ->
  wp (call_ok v (request_handles (NfsArguments.ReadDir a))) any_answer (reply_ok xid bound)
    (handle_readdir hmac vec_capacity xid context state v a).
Proof.
  intros Hb Hc Hm Hr. unfold handle_readdir. destruct (object_of _ _ _ _) as [o|] eqn:Eo; [|solve_reply].
  issued_facts. destruct (_ <? 20) eqn:E20; [solve_reply|]. zbool.
  apply wp_list_directory; try done; lia.
Qed.

Lemma wp_readdirplus_handler a bound :
  304 <= bound -> 0 <= rdp_max_count a -> rdp_directory_count a <= u32_max ->
  0 <= max_readdir_response_size (limits state) <= u32_max ->
  28 + max_readdir_response_size (limits state) <= bound ->
  wp (call_ok v (request_handles (NfsArguments.ReadDirPlus a))) any_answer (reply_ok xid bound)
    (handle_readdirplus hmac vec_capacity xid context state v a).
Proof.
  intros Hb Hc Hd Hm Hr. unfold handle_readdirplus. destruct (object_of _ _ _ _) as [o|] eqn:Eo; [|solve_reply].
  issued_facts. destruct (_ <? 20) eqn:E20; [solve_reply|]. zbool.
  apply wp_list_directory; try done; try lia. by intros limit [= <-].
Qed.

(** The bound on a reply: READLINK alone depends on the backend's answer. *)
Definition reply_bound (a : NfsArguments.t) : Z :=
  match a with
  | NfsArguments.ReadLink _ => u32_max + 200
  | _ => transport_record_capacity (limits state)
  end.

Lemma transport_capacity_max : transport_record_capacity (limits state) <= u32_max.
Proof. destruct limits_ok. unfold transport_record_capacity in *. lia. Qed.

Lemma wp_handle_arguments max a :
  arguments_wf max a ->
  wp (call_ok v (request_handles a)) any_answer (reply_ok xid (reply_bound a))
    (handle_arguments hmac vec_capacity xid context state v a).
Proof.
  intros Ha. pose proof transport_capacity_max as Hcap. destruct limits_ok as [_ _ _ Hm Hr _ Hd _ _ _ _].
  unfold MAXIMUM_MUTATION_REPLY_SIZE, MAXIMUM_READ_REPLY_OVERHEAD, READDIR_REPLY_OVERHEAD in *.
  destruct a; cbn [handle_arguments reply_bound].
  - cbn [wp answer]. apply (reply_ok_accepted _ vec_capacity_ge). lia.
  - by apply wp_getattr_handler.
  - by apply wp_setattr_handler.
  - by apply wp_lookup_handler.
  - by apply wp_access_handler.
  - by apply wp_readlink_handler.
  - simpl in Ha. apply wp_read_handler; unfold u32_range, MAXIMUM_READ_REPLY_OVERHEAD in *; try lia; tauto || lia.
  - by apply wp_write_handler.
  - by apply wp_create_handler.
  - by apply wp_mkdir_handler.
  - by apply wp_symlink_handler.
  - by apply wp_mknod_handler.
  - by apply wp_remove_handler.
  - by apply wp_rmdir_handler.
  - by apply wp_rename_handler.
  - by apply wp_link_handler.
  - simpl in Ha. apply wp_readdir_handler; unfold u32_range in *; lia.
  - simpl in Ha. apply wp_readdirplus_handler; unfold u32_range in *; lia.
  - by apply wp_fsstat_handler.
  - by apply wp_fsinfo_handler.
  - by apply wp_pathconf_handler.
  - by apply wp_commit_handler.
Qed.
End Handlers.

(** ** Dispatch *)
Section DispatchNfs.
Context (hmac : list byte -> list byte -> list byte) (hmac_length : forall k m, zlen (hmac k m) = 32).
Context (vec_capacity : list byte -> Z) (vec_capacity_ge : forall v, zlen v <= vec_capacity v).
Context (xid procedure : Z) (args : list byte) (context : RequestContext) (state : ConnectionState).
Context (codec_ok : codec_wf (handles state)) (limits_ok : limits_valid (limits state)).
Context (args_max : zlen args <= isize_max).

(** The effect is justified by the decoded request and the export it addresses. *)
Definition justified (e : effect) : Prop :=
  exists a export,
    NfsProcedures.decode procedure args (max_rpc_record_size (limits state)) = Ok a /\
    find_export state (export_id context) = Some export /\
    call_ok hmac context state (es_vfs export) (request_handles a) e.

Ltac solve_failure :=
  lazymatch goal with
  | |- reply_ok _ _ (reply_result _ (Ok _)) => cbn [reply_result]; apply (reply_ok_accepted _ vec_capacity_ge); lia
  | |- reply_ok ?x ?b (reply_result _ (typed_nfs_reply _ ?r)) =>
      let go H := refine (reply_ok_typed _ vec_capacity_ge x b r _ H _); lia in
      lazymatch r with
      | GetAttrResult.Err _ => go (appends_getattr r)
      | SetAttrResult.Err _ _ => go (appends_setattr r)
      | LookupResult.Err _ _ => go (appends_lookup r ltac:(done))
      | AccessResult.Err _ _ => go (appends_access r)
      | ReadLinkResult.Err ?s ?a => go (appends_readlink_err s a)
      | ReadResult.Err ?s ?a => go (appends_read_err s a)
      | WriteResult.Err _ _ => go (appends_write r ltac:(done))
      | CreateResult.Err _ _ => go (appends_create r ltac:(done))
      | RenameResult.Err _ _ _ => go (appends_rename r)
      | LinkResult.Err _ _ _ => go (appends_link r)
      | ReadDirResult.Err ?s ?a => go (appends_readdir_err s a)
      | FsStatResult.Err _ _ => go (appends_fsstat r)
      | FsInfoResult.Err _ _ => go (appends_fsinfo r)
      | PathConfResult.Err _ _ => go (appends_pathconf r)
      | CommitResult.Err _ _ => go (appends_commit r ltac:(done))
      | _ => go (appends_wcc r)
      end
  end.

Lemma failure_for_procedure_ok bound status :
  304 <= bound ->
  reply_ok xid bound (reply_result vec_capacity (nfs_failure_reply_for_procedure xid procedure status)).
Proof.
  intros Hb. unfold nfs_failure_reply_for_procedure.
  repeat match goal with |- context [match ?p with _ => _ end] => is_var p; destruct p end.
  all: solve_failure.
Qed.

Definition procedure_bound : Z :=
  if procedure =? 5 then u32_max + 200 else transport_record_capacity (limits state).

Lemma wp_dispatch_nfs :
  wp justified (fun _ _ => True) (reply_ok xid procedure_bound)
    (dispatch_nfs hmac vec_capacity xid procedure args context state).
Proof.
  pose proof (transport_capacity_max state limits_ok) as Hcap.
  assert (304 <= transport_record_capacity (limits state)) as Hm by apply (valid_mutation _ limits_ok).
  assert (304 <= procedure_bound) as Hb by (unfold procedure_bound, u32_max; destruct (_ =? 5); lia).
  assert (forall a, NfsProcedures.decode procedure args (max_rpc_record_size (limits state)) = Ok a ->
    forall export, find_export state (export_id context) = Some export ->
    wp justified (fun _ _ => True) (reply_ok xid procedure_bound)
      (handle_arguments hmac vec_capacity xid context state (es_vfs export) a)) as Hgo.
  { intros a Ha export He. pose proof Ha as Ha'. apply decode_iff in Ha' as (Hp & Hwf & _); [|done].
    eapply wp_weaken; [| |by eapply (wp_handle_arguments hmac hmac_length vec_capacity vec_capacity_ge)].
    - intros e H. by exists a, export.
    - intros r. unfold procedure_bound. destruct (procedure =? 5) eqn:E5; zbool.
      + destruct a; simpl in Hp; try lia. done.
      + destruct a; simpl in Hp; try lia; done. }
  unfold dispatch_nfs. destruct (21 <? procedure).
  { apply (reply_ok_accepted _ vec_capacity_ge). lia. }
  destruct (procedure =? 7) eqn:E7; zbool.
  - pose proof (decode_write_request_eq args (max_rpc_record_size (limits state)) args_max) as Hw.
    rewrite <- E7 in Hw at 1. destruct (decode_write_request _ _) as [a|e]; [|done].
    destruct (find_export _ _) as [export|] eqn:Ef; [|by apply failure_for_procedure_ok].
    exact (Hgo (NfsArguments.Write a) Hw export eq_refl).
  - destruct (NfsProcedures.decode _ _ _) as [a|e] eqn:Ed; [|done].
    assert (wp justified (fun _ _ => True) (reply_ok xid procedure_bound)
      match find_export state (export_id context) with
      | Some export => handle_arguments hmac vec_capacity xid context state (es_vfs export) a
      | None => answer (reply_result vec_capacity (nfs_failure_reply_for_procedure xid procedure NfsStatus.BadHandle))
      end) as H.
    { destruct (find_export _ _) as [export|] eqn:Ef; [by apply Hgo|by apply failure_for_procedure_ok]. }
    destruct a; try exact H. apply (reply_ok_accepted _ vec_capacity_ge). lia.
Qed.

(** C13: only authorised backend calls. Whatever bytes a client sends and however
    the backend answers, every backend call made for an NFS request goes to the
    file system of the addressed export, under the caller's own context, on an
    object named by a handle of this very request that this server instance
    issued for that export, with path components that are valid names. The
    mount table is never touched, and no request makes the handler panic. *)
Theorem nfs_calls_justified :
  wp justified (fun _ _ => True) (fun _ => True) (dispatch_nfs hmac vec_capacity xid procedure args context state).
Proof. eapply wp_weaken; [..|apply wp_dispatch_nfs]; done. Qed.

(** Every NFS reply can be sent. Under validated limits each procedure other
    than READLINK yields a well-formed reply that echoes the transaction
    identifier and fits the transport, or a decode or encode error; in
    particular no state-changing call can succeed and then lose its reply to a
    size limit. A READLINK reply is bounded by its target. *)
Lemma nfs_replies_fit :
  wp (fun _ => True) (fun _ _ => True) (reply_ok xid procedure_bound)
    (dispatch_nfs hmac vec_capacity xid procedure args context state).
Proof. eapply wp_weaken; [..|apply wp_dispatch_nfs]; done. Qed.
End DispatchNfs.

(** A request for the attributes of object 2 in export 1. *)
Definition toy_key : ObjectKey := mkObjectKey 2 0.
Definition toy_getattr_args : list byte := Format.opaque_bytes (encode toy_hmac toy_codec 1 toy_key).
Definition default_limits_valid : limits_valid production_defaults :=
  validate_ok production_defaults production_defaults_wf eq_refl.

Lemma nfs_calls_justified_witness :
  wp (justified toy_hmac 1 toy_getattr_args toy_context toy_state_nfs) (fun _ _ => True) (fun _ => True)
    (dispatch_nfs toy_hmac zlen 5 1 toy_getattr_args toy_context toy_state_nfs).
Proof.
  exact (nfs_calls_justified toy_hmac toy_hmac_length zlen (fun v => Z.le_refl (zlen v)) 5 1 toy_getattr_args
    toy_context toy_state_nfs eq_refl default_limits_valid ltac:(by vm_compute)).
Defined.

(** The call in question is made: the witness request reaches the backend. *)
Example toy_getattr_calls :
  match dispatch_nfs toy_hmac zlen 5 1 toy_getattr_args toy_context toy_state_nfs with
  | Do (Vfs v (VfsOp.getattr _ o)) _ => v = 0%nat /\ o = toy_key
  | _ => False
  end.
Proof. vm_compute. by split. Qed.
