(* ===== verification/Contracts.v ===== *)
(** * Contracts of the NFS procedures

    What single procedures promise the client about the backend's answer:
    at-most-one state change per request, WRITE, READ and ACCESS, and the
    transfer sizes FSINFO advertises. *)
From S2P Require Import Prelude Replay RpcCodec VfsTypes RpcAuth NfsProcedures NfsCodec RpcRecord Reply Handles Limits Vfs Connection Serving.

(** ** At most one state change *)

(** The procedures of RFC 1813 that change the file system. *)
Definition mutating_procedure (p : Z) : bool :=
  (p =? 2) || ((7 <=? p) && (p <=? 15)) || (p =? 21).

Definition mutating_effect (e : effect) : bool :=
  match e with Vfs _ op => VfsOp.mutates op | Mounts _ => false end.

Lemma mutations_call {A} n v op (f : VfsOp.response op -> prog A) :
  VfsOp.mutates op = true -> (forall r, mutations n (f r)) -> mutations (S n) (call v op ≫= f).
Proof. intros Hop Hf. simpl. by rewrite Hop. Qed.

Lemma mutations_read {A} n v op (f : VfsOp.response op -> prog A) :
  VfsOp.mutates op = false -> (forall r, mutations n (f r)) -> mutations n (call v op ≫= f).
Proof. intros Hop Hf. simpl. by rewrite Hop. Qed.

(** A program with at most [n] state changes makes at most [n] in every run. *)
Lemma mutations_run {A St} (answer : forall op, vfs_ref -> St -> VfsOp.response op * St) n (p : prog A) w :
  mutations n p -> (length (List.filter mutating_effect (run answer p w).2) <= n)%nat.
Proof.
  revert n w. induction p as [a|e k IH|]; intros n w; simpl; [lia| |lia].
  intros H. destruct (answer_effect answer e w) as [r w1].
  destruct (run answer (k r) w1) as [[out w2] trace] eqn:E.
  assert (forall m, mutations m (k r) -> (length (List.filter mutating_effect trace) <= m)%nat) as Hm.
  { intros m Hk. specialize (IH r m w1 Hk). by rewrite E in IH. }
  destruct e as [v op|op]; simpl in *; [|by apply Hm].
  destruct (VfsOp.mutates op); [|by apply Hm]. destruct n as [|n]; [done|]. simpl. apply le_n_S, Hm, H.
Qed.

Section Mutations.
Context (hmac : list byte -> list byte -> list byte) (vec_capacity : list byte -> Z).
Context (xid : Z) (context : RequestContext) (state : ConnectionState) (v : vfs_ref).

Lemma mutations_getattr_ok {A} n o (k : option FileAttributes -> prog A) :
  (forall a, mutations n (k a)) -> mutations n (getattr_ok context v o ≫= k).
Proof. intros Hk. unfold getattr_ok. simpl. eauto. Qed.

(** Walk a handler: decode failures answer at once, then its calls in turn. *)
Ltac walk :=
  repeat first
    [ exact I
    | apply mutations_getattr_ok; intros ?
    | apply mutations_read; [reflexivity|intros ?]
    | apply mutations_call; [reflexivity|intros ?]
    | match goal with |- mutations _ (match ?x with _ => _ end) => destruct x end
    | match goal with |- mutations _ (if ?x then _ else _) => destruct x end ].

Lemma mutations_list_directory plus o cookie verifier dl wl :
  mutations 0 (list_directory hmac vec_capacity xid context state v plus o cookie verifier dl wl).
Proof. unfold list_directory. cbv zeta. walk. Qed.

Lemma mutations_handle_arguments a :
  mutations (if mutating_procedure (procedure_of a) then 1 else 0)
    (handle_arguments hmac vec_capacity xid context state v a).
Proof.
  destruct a; cbn [handle_arguments procedure_of];
    match goal with |- mutations (if ?c then _ else _) _ =>
      let b := eval vm_compute in c in replace c with b by reflexivity; cbv iota end;
    unfold handle_getattr, handle_setattr, handle_lookup, handle_access, handle_readlink, dispatch_read, dispatch_write,
      handle_create, handle_mkdir, handle_symlink, handle_mknod, handle_remove, handle_rmdir, handle_rename, handle_link,
      handle_readdir, handle_readdirplus, handle_fsstat, handle_fsinfo, handle_pathconf, handle_commit;
    cbv zeta; walk; apply mutations_list_directory.
Qed.
End Mutations.

Section AtMostOnce.
Context (hmac : list byte -> list byte -> list byte) (vec_capacity : list byte -> Z).

Lemma mutations_dispatch_nfs xid procedure args context state :
  zlen args <= isize_max ->
  mutations (if mutating_procedure procedure then 1 else 0)
    (dispatch_nfs hmac vec_capacity xid procedure args context state).
Proof.
  intros Hargs. unfold dispatch_nfs. destruct (21 <? procedure); [done|].
  destruct (procedure =? 7) eqn:E7; zbool.
  - subst procedure. destruct (decode_write_request _ _) as [a|]; [|done]. destruct (find_export _ _); [|done].
    apply (mutations_handle_arguments hmac vec_capacity xid context state _ (NfsArguments.Write a)).
  - destruct (NfsProcedures.decode _ _ _) as [a|] eqn:Ed; [|done].
    apply decode_iff in Ed as (<- & _); [|done].
    destruct a; try done; (destruct (find_export _ _); [apply mutations_handle_arguments|done]).
Qed.

(** One request, one state change. In every run of an NFS request, against
    any backend, at most one state-changing backend operation is performed, and
    none at all for a procedure that only reads. *)
Lemma nfs_mutates_at_most_once {St} (answer : forall op, vfs_ref -> St -> VfsOp.response op * St)
    xid procedure args context state w :
  zlen args <= isize_max ->
  (length (List.filter mutating_effect
     (run answer (dispatch_nfs hmac vec_capacity xid procedure args context state) w).2)
   <= if mutating_procedure procedure then 1 else 0)%nat.
Proof. intros Hargs. by apply mutations_run, mutations_dispatch_nfs. Qed.
End AtMostOnce.

(** ** WRITE *)
Section Contracts.
Context (hmac : list byte -> list byte -> list byte) (vec_capacity : list byte -> Z).
Context {St : Type} (answer : forall op, vfs_ref -> St -> VfsOp.response op * St).
Context (xid : Z) (context : RequestContext) (state : ConnectionState) (v : vfs_ref).

Abbreviation replied r := (Some (reply_result vec_capacity (typed_nfs_reply xid r))).

Lemma durability_order actual requested :
  durability_satisfies actual requested = true <-> stability_code requested <= stability_code actual.
Proof. by destruct actual, requested. Qed.

(** The backend operation a WRITE request amounts to. *)
Definition write_op (a : WriteArgs) (o : ObjectKey) (data : list byte) : VfsOp.t :=
  VfsOp.write context o (wa_offset a) data (wa_requested a).

(** What the backend must have done for the server to report success: written a
    nonempty part of nonempty data, at least as durably as asked. *)
Definition write_accepted (a : WriteArgs) (data : list byte) (b : BackendWriteResult) : Prop :=
  count b <= zlen data /\ (data <> [] -> count b <> 0) /\
  stability_code (wa_requested a) <= stability_code (committed b).

Lemma write_accepted_dec a data b :
  (count b <=? zlen data) && ((zlen data =? 0) || negb (count b =? 0))
    && durability_satisfies (committed b) (wa_requested a) = true <-> write_accepted a data b.
Proof.
  unfold write_accepted. rewrite !andb_true_iff, orb_true_iff, negb_true_iff, Z.leb_le, Z.eqb_eq, Z.eqb_neq, durability_order.
  split.
  - intros ((H1 & H2) & H3). split_and!; [done| |done]. intros Hd. destruct H2 as [H2|H2]; [|done].
    by apply zlen_nil_inv in H2.
  - intros (H1 & H2 & H3). split_and!; [done| |done]. destruct data; [by left|right]. by apply H2.
Qed.

(** C17: the WRITE contract. A WRITE request is either refused before any backend
    call, or causes exactly one backend write, of the longest prefix of the
    client's data that the server's limit allows. Success is reported only if the
    backend wrote no more than that, made progress, and made it at least as
    durable as requested, and then with the backend's count and commitment and
    this instance's verifier; a backend that breaks its contract is reported as
    SERVERFAULT, and its errors are passed on. *)
Theorem write_contract a w :
  let '(out, (st', m'), trace) := run answer (dispatch_write hmac vec_capacity xid context state v a) w in
  m' = w.2 /\
  ((exists s, out = replied (WriteResult.Err s WccData_default) /\ trace = [] /\ st' = w.1 /\
      (WriteArgs_validate a = Err s \/
       exists code, object_of hmac context state (wa_object a) = Err code /\ wire_nfs_status code = Ok s)) \/
   exists o data, WriteArgs_validate a = Ok tt /\ object_of hmac context state (wa_object a) = Ok o /\
     data = take (Z.to_nat (Z.min (zlen (wa_data a)) (max_write_size (limits state)))) (wa_data a) /\
     trace = [Vfs v (write_op a o data)] /\ st' = (answer (write_op a o data) v w.1).2 /\
     match (answer (write_op a o data) v w.1).1 with
     | Ok r =>
         (write_accepted a data (value r) /\
          out = replied (WriteResult.Ok (mkWccData (before r) (after r)) (count (value r)) (committed (value r))
                           (instance_id (handles state)))) \/
         (~ write_accepted a data (value r) /\
          out = replied (WriteResult.Err NfsStatus.ServerFault (mkWccData (before r) (after r))))
     | Err e => out = replied (WriteResult.Err (NfsStatus.from_error e) WccData_default)
     end).
Proof.
  unfold dispatch_write. destruct (WriteArgs_validate a) as [[]|s] eqn:Ev.
  2:{ destruct w. simpl. split; [done|]. left. exists s. split_and!; auto. }
  destruct (object_of hmac context state (wa_object a)) as [o|code] eqn:Eo.
  2:{ destruct w as [st m]. cbn [run Connection.answer failure]. unfold failure.
      destruct (wire_nfs_status code) as [s|e] eqn:Es.
      - split; [done|]. left. exists s. split_and!; eauto.
      - exfalso. revert Es. unfold object_of, decode_object in Eo. unfold wire_nfs_status.
        destruct (decode _ _ _ _); simpl in Eo; [done|]. injection Eo as <-. done. }
  cbv zeta. set (data := slice 0 _ (wa_data a)).
  destruct w as [st m]. cbn [mbind prog_bind prog_bind_ call run answer_effect fst snd]. fold (write_op a o data).
  destruct (answer (write_op a o data) v st) as [r st'] eqn:Ea.
  cbn [run reply Connection.answer fst snd]. split; [done|]. right. exists o, data.
  rewrite Ea. split_and!; try done.
  { unfold data, slice. by rewrite Z.sub_0_r. }
  destruct r as [r|e]; [|done]. pose proof (write_accepted_dec a data (value r)) as Hd.
  destruct (_ && _) eqn:E in |- *; [left|right].
  - split; [by apply Hd|done].
  - split; [|done]. intros H. apply Hd in H. congruence.
Qed.

(** ** READ *)

Definition read_op (a : ReadArgs) (o : ObjectKey) : VfsOp.t :=
  VfsOp.read_bytes context o (ra_offset a) (Z.min (ra_count a) (max_read_size (limits state))).

(** The READ contract. A READ request with a valid handle causes exactly one
    backend read of at most the server's limit; the reply carries a prefix of the
    bytes the backend returned, never more than asked for, and all of them when
    the backend kept to the count. The end-of-file flag is the backend's, also
    when its data had to be cut. Backend errors are passed on. *)
Lemma read_contract a w o :
  u32_range (ra_count a) -> u32_range (max_read_size (limits state)) ->
  object_of hmac context state (ra_object a) = Ok o ->
  exists out st', run answer (dispatch_read hmac vec_capacity xid context state v a) w =
    (Some out, (st', w.2), [Vfs v (read_op a o)]) /\
  match (answer (read_op a o) v w.1).1 with
  | Ok b => exists data, data = take (Z.to_nat (Z.min (ra_count a) (max_read_size (limits state)))) (rb_data b) /\
      match out with
      | Ok rep => reply_wf rep /\
          typed_nfs_reply xid (ReadResult.Ok (rb_attributes b) data (rb_eof b)) = Ok (wire rep)
      | Err (ServerError.Encode e) =>
          typed_nfs_reply xid (ReadResult.Ok (rb_attributes b) data (rb_eof b)) = Err e
      | Err _ => False
      end
  | Err e => Some out = replied (ReadResult.Err (NfsStatus.from_error e) None)
  end.
Proof.
  intros Hc Hm Ho. unfold dispatch_read. rewrite Ho. cbv zeta. set (n := Z.min _ _) in *.
  assert (u32_range n) as Hn by (unfold n, u32_range in *; lia).
  assert (as_u32 n = n) as Hu by (unfold as_u32; apply Z.mod_small; unfold u32_range, u32_max in Hn; lia).
  unfold read_op. fold n. rewrite Hu.
  destruct w as [st m]. cbn [mbind prog_bind prog_bind_ call run answer_effect fst snd].
  destruct (answer _ v st) as [[b|e] st'] eqn:Ea; cbn [run fst snd].
  2:{ eexists _, st'. done. }
  set (data := if n <? _ then _ else _).
  assert (data = take (Z.to_nat n) (rb_data b)) as Hdata.
  { unfold data. destruct (n <? _) eqn:E; zbool.
    - unfold slice. by rewrite Z.sub_0_r.
    - symmetry. apply take_ge. unfold zlen in E. lia. }
  assert (zlen data <= n) as Hl.
  { rewrite Hdata. unfold zlen. rewrite length_take. unfold u32_range in Hn. lia. }
  clearbody data. unfold u32_range in Hn.
  pose proof (read_success_reply_bytes_typed xid (rb_attributes b) data (rb_eof b) ltac:(lia)) as H.
  destruct (read_success_reply _ _ _ _) as [[rep|e]|]; [| |done]; cbn [run Connection.answer];
    eexists _, st'; (split; [done|]); by exists data.
Qed.

(** ** ACCESS *)

(** The ACCESS contract. An ACCESS request with a valid handle asks the
    backend only about the access bits NFSv3 defines and never grants more than
    the backend did: each bit of the granted mask was granted by the backend, was
    asked for by the client, and is a defined bit. *)
Lemma access_contract a w o :
  object_of hmac context state (aa_object a) = Ok o ->
  let asked := Z.land (requested a) ACCESS_MASK in
  exists out w' ops, run answer (handle_access hmac vec_capacity xid context state v a) w =
    (out, w', Vfs v (VfsOp.access context o asked) :: ops) /\ ops = [Vfs v (VfsOp.getattr context o)] /\
  (forall i, 0 <= i -> Z.testbit asked i = Z.testbit (requested a) i && (i <? 6)) /\
  match (answer (VfsOp.access context o asked) v w.1).1 with
  | Ok allowed => exists attributes granted, out = replied (AccessResult.Ok attributes granted) /\
      forall i, 0 <= i -> Z.testbit granted i = Z.testbit allowed i && Z.testbit (requested a) i && (i <? 6)
  | Err e => exists attributes, out = replied (AccessResult.Err (NfsStatus.from_error e) attributes)
  end.
Proof.
  intros Ho asked.
  assert (forall i, 0 <= i -> Z.testbit ACCESS_MASK i = (i <? 6)) as Hmask.
  { intros i Hi. change ACCESS_MASK with (Z.ones 6). rewrite Z.testbit_ones by lia.
    by replace (0 <=? i) with true by (symmetry; apply Z.leb_le; lia). }
  unfold handle_access. rewrite Ho. cbv zeta. fold asked. destruct w as [st m].
  cbn [mbind prog_bind prog_bind_ call run answer_effect fst snd].
  destruct (answer (VfsOp.access context o asked) v st) as [r st1] eqn:Ea.
  destruct r as [allowed|e]; unfold getattr_ok; cbn [mbind prog_bind prog_bind_ call run answer_effect fst snd];
    destruct (answer (VfsOp.getattr context o) v st1) as [at' st2]; cbn [run reply Connection.answer];
    eexists _, _, _; (split; [done|split; [done|split]]).
  1,3: intros i Hi; unfold asked; by rewrite Z.land_spec, Hmask.
  - eexists _, _. split; [done|]. intros i Hi. unfold asked. rewrite !Z.land_spec, Hmask by done.
    by destruct (Z.testbit allowed i), (Z.testbit (requested a) i), (i <? 6).
  - by eexists.
Qed.

(** ** FSINFO *)

(** What FSINFO advertises is served. The advertised sizes never exceed the
    server's or the backend's limits and are consistent with each other, and the
    property word carries exactly the backend's capabilities. Under validated
    limits a client that keeps to them is never cut short: a READ of at most the
    advertised maximum is asked of the backend in full, and a WRITE of at most
    the advertised maximum reaches the backend in full, with its call fitting
    the transport behind the largest legal RPC header. *)
Lemma fsinfo_honoured info caps (ra : ReadArgs) (wa : WriteArgs) :
  limits_valid (limits state) -> zlen (wa_object wa) <= 64 ->
  ra_count ra <= max_read (bounded_fsinfo state info) ->
  zlen (wa_data wa) <= max_write (bounded_fsinfo state info) ->
  let i := bounded_fsinfo state info in
  (max_read i <= max_read_size (limits state) /\ max_read i <= max_read info /\
   preferred_read i <= max_read i /\ read_multiple i <= max_read i) /\
  (max_write i <= max_write_size (limits state) /\ max_write i <= max_write info /\
   preferred_write i <= max_write i /\ write_multiple i <= max_write i) /\
  preferred_readdir i <= max_readdir_response_size (limits state) /\
  (forall k, 0 <= k -> Z.testbit (fsinfo_properties caps) k =
     ((k =? 0) && hard_links caps) || ((k =? 1) && symbolic_links caps) ||
     ((k =? 3) && homogeneous caps) || ((k =? 4) && can_set_time caps)) /\
  (forall o, read_op ra o = VfsOp.read_bytes context o (ra_offset ra) (ra_count ra)) /\
  slice 0 (Z.min (zlen (wa_data wa)) (max_write_size (limits state))) (wa_data wa) = wa_data wa /\
  MAX_VALID_RPC_CALL_PREFIX_SIZE + zlen (arguments_bytes (NfsArguments.Write wa)) <=
    transport_record_capacity (limits state).
Proof.
  intros Hl Hh Hr Hw i. unfold i, bounded_fsinfo in *. cbv zeta in *.
  cbn [max_read max_write preferred_read preferred_write read_multiple write_multiple preferred_readdir arguments_bytes] in *.
  split_and!; try lia.
  - intros k Hk.
    assert (0 <= fsinfo_properties caps /\ Z.log2 (fsinfo_properties caps) < 5) as [Hp Hlog]
      by (by destruct caps as [ro [] [] [] [] []]).
    destruct (decide (k < 5)) as [Hs|Hs].
    + assert (k = 0 \/ k = 1 \/ k = 2 \/ k = 3 \/ k = 4) as Hc by lia.
      destruct caps as [ro [] [] [] [] []];
        destruct Hc as [->|[->|[->|[->| ->]]]]; reflexivity.
    + rewrite !(proj2 (Z.eqb_neq k _)) by lia. simpl.
      apply Z.bits_above_log2; lia.
  - intros o. unfold read_op. by rewrite Z.min_l by lia.
  - rewrite Z.min_l by lia. unfold slice. rewrite Z.sub_0_r. simpl. apply take_ge. unfold zlen. lia.
  - autorewrite with zlen. pose proof (zlen_opaque_64 _ Hh). rewrite (Format.zlen_opaque_bytes (wa_data wa)).
    pose proof (Format.xdr_padding_range (zlen (wa_data wa))).
    destruct (valid_write _ Hl) as [_ Hv].
    unfold MAXIMUM_WRITE_RECORD_OVERHEAD, WRITE_ARGUMENT_FIXED_SIZE, WRITE_PADDING_ALLOWANCE, MAX_FILE_HANDLE_XDR_SIZE in Hv.
    lia.
Qed.
End Contracts.

(** ** Witnesses *)

(** A backend that accepts every write in full, on stable storage, and refuses
    everything else. *)
Definition toy_backend (op : VfsOp.t) (v : vfs_ref) (st : unit) : VfsOp.response op * unit :=
  (match op as op return VfsOp.response op with
   | VfsOp.capabilities => READ_WRITE
   | VfsOp.root => mkObjectKey 1 0
   | VfsOp.getattr _ _ | VfsOp.lookup _ _ _ | VfsOp.setattr _ _ _ _ | VfsOp.readlink _ _
   | VfsOp.create _ _ _ _ _ | VfsOp.mkdir _ _ _ _ | VfsOp.symlink _ _ _ _ _ | VfsOp.mknod _ _ _ _ _
   | VfsOp.remove _ _ _ | VfsOp.rmdir _ _ _ | VfsOp.rename _ _ _ _ _ | VfsOp.link _ _ _ _ | VfsOp.readdir _ _ _ _ _
   | VfsOp.fsstat _ _ | VfsOp.fsinfo _ _ | VfsOp.pathconf _ _ | VfsOp.commit _ _ _ _ => Err NfsError.NotSupported
   | VfsOp.access _ _ _ => Ok 0xff
   | VfsOp.read_bytes _ _ _ _ => Ok (mkReadBytesResult [Byte.x61; Byte.x62; Byte.x63] true None)
   | VfsOp.write _ _ _ data _ => Ok (mkMutationResult (mkBackendWriteResult (zlen data) WriteStability.FileSync) None None)
   end, tt).

Definition toy_handle : list byte := encode toy_hmac toy_codec 1 toy_key.
Definition toy_write : WriteArgs := mkWriteArgs toy_handle 0 2 WriteStability.FileSync [Byte.x61; Byte.x62].

