(* ===== verification/Mounting.v ===== *)
(** * What serving a MOUNT call guarantees

    Export selection, what a client can obtain a handle for, and the sizes of the
    listing replies. *)
From S2P Require Import Prelude Replay RpcCodec VfsTypes RpcAuth NfsProcedures NfsCodec RpcRecord Reply Handles Limits Vfs Connection Mount Builder Serving.
From stdpp Require Import list.
#[local] Open Scope Z_scope.
Import Encoder Emit.

(** ** Export selection *)

(** [path] lies at or below [base], at a component boundary. *)
Definition covers (base path : list byte) : Prop :=
  path = base \/ (base = root_path /\ exists rest, path = NfsName.slash :: rest) \/
  exists rest, path = base ++ NfsName.slash :: rest.

Lemma starts_with_spec prefix l : starts_with prefix l = true <-> exists rest, l = prefix ++ rest.
Proof.
  unfold starts_with. rewrite bool_decide_eq_true. split.
  - intros H. exists (drop (length prefix) l). rewrite <- H at 1. by rewrite take_drop.
  - intros [rest ->]. by rewrite take_app_length.
Qed.

Lemma strip_prefix_app prefix rest : Mount.strip_prefix prefix (prefix ++ rest) = Some rest.
Proof.
  unfold Mount.strip_prefix. rewrite (proj2 (starts_with_spec _ _)) by eauto. by rewrite drop_app_length.
Qed.

Lemma export_matches_spec base path : export_matches base path = true <-> covers base path.
Proof.
  unfold export_matches, covers. rewrite !orb_true_iff, !andb_true_iff, !bool_decide_eq_true, !starts_with_spec.
  split.
  - intros [[H|[H1 [rest ->]]]|[[rest ->] H]]; [by left|right; left; eauto|right; right].
    destruct rest as [|b rest]; [by rewrite app_nil_r, lookup_ge_None_2 in H|].
    rewrite list_lookup_middle in H by done. injection H as ->. by exists rest.
  - intros [H|[[H1 [rest ->]]|[rest ->]]]; [by left; left|left; right; split; [done|by exists rest]|right].
    split; [eauto|]. by rewrite list_lookup_middle.
Qed.

Lemma max_by_key_spec {A} (key : A -> Z) l x :
  max_by_key key l = Some x -> x ∈ l /\ forall y, y ∈ l -> key y <= key x.
Proof.
  revert x. induction l as [|a l IH]; intros x; simpl; [done|].
  destruct (max_by_key key l) as [m|] eqn:E.
  - destruct (IH m eq_refl) as [Hin Hmax]. destruct (key m <? key a) eqn:Ek; intros [= <-]; zbool.
    + split; [by constructor|]. intros y Hy. apply elem_of_cons in Hy as [->|Hy]; [lia|]. specialize (Hmax y Hy). lia.
    + split; [by constructor|]. intros y Hy. apply elem_of_cons in Hy as [->|Hy]; [lia|]. by apply Hmax.
  - intros [= <-]. destruct l as [|b l]; [|simpl in E; by destruct (max_by_key key l); [destruct (_ <? _)|]].
    split; [by constructor|]. intros y Hy. by apply list_elem_of_singleton in Hy as ->.
Qed.

Lemma max_by_key_None {A} (key : A -> Z) l : max_by_key key l = None -> l = [].
Proof. destruct l; simpl; [done|]. destruct (max_by_key key l); [by destruct (_ <? _)|done]. Qed.

Lemma elem_of_bool_filter {A} (f : A -> bool) l x : x ∈ List.filter f l <-> x ∈ l /\ f x = true.
Proof. rewrite !list_elem_of_In. apply filter_In. Qed.

(** Two covering prefixes of the same length are the same path. *)
Lemma covers_length base1 base2 path : covers base1 path -> covers base2 path -> zlen base1 = zlen base2 -> base1 = base2.
Proof.
  assert (forall b, covers b path -> exists r, path = b ++ r) as Hc.
  { intros b [->|[[-> [r ->]]|[r ->]]]; [exists []; by rewrite app_nil_r|by exists r|by eexists]. }
  intros [r1 H1]%Hc [r2 H2]%Hc Hl. rewrite H1 in H2.
  apply app_inj_1 in H2 as [? _]; [done|]. unfold zlen in Hl. lia.
Qed.

Lemma NoDup_map_inj {A B} (f : A -> B) l x y : NoDup (map f l) -> x ∈ l -> y ∈ l -> f x = f y -> x = y.
Proof.
  intros Hnd Hx Hy He. apply list_elem_of_lookup in Hx as [i Hi], Hy as [j Hj].
  assert (i = j) as ->; [|congruence].
  eapply NoDup_lookup; [exact Hnd|..]; rewrite list_lookup_fmap; [by rewrite Hi|by rewrite Hj, He].
Qed.

(** The selected export contains the path, and no export that does has a longer
    path. *)
Lemma select_export_spec state path e :
  select_export state path = Some e ->
  e ∈ exports state /\ covers (es_path e) path /\
  forall e', e' ∈ exports state -> covers (es_path e') path -> zlen (es_path e') <= zlen (es_path e).
Proof.
  unfold select_export. set (l := List.filter _ _).
  assert (forall x, x ∈ l <-> x ∈ exports state /\ covers (es_path x) path) as Hl.
  { intros x. unfold l. by rewrite elem_of_bool_filter, export_matches_spec. }
  intros H. apply max_by_key_spec in H as [Hin Hmax]. apply Hl in Hin as [? ?].
  split_and!; [done|done|]. intros e' ? ?. by apply Hmax, Hl.
Qed.

(** The selected export, characterised. *)
Lemma select_export_iff state path e :
  exports_ok (exports state) ->
  select_export state path = Some e <->
  e ∈ exports state /\ covers (es_path e) path /\
  forall e', e' ∈ exports state -> covers (es_path e') path -> zlen (es_path e') <= zlen (es_path e).
Proof.
  intros Hok. split; [apply select_export_spec|]. intros (Hin & Hc & Hmax).
  destruct (select_export state path) as [x|] eqn:E.
  - destruct (select_export_spec _ _ _ E) as (Hin' & Hc' & Hmax'). f_equal.
    apply (NoDup_map_inj es_path (exports state)); [apply Hok|done|done|].
    apply (covers_length _ _ path); [done|done|]. specialize (Hmax x Hin' Hc'). specialize (Hmax' e Hin Hc). lia.
  - unfold select_export in E. apply max_by_key_None in E.
    assert (e ∈ List.filter (fun export => export_matches (es_path export) path) (exports state)) as H
      by (by rewrite elem_of_bool_filter, export_matches_spec).
    rewrite E in H. by apply not_elem_of_nil in H.
Qed.

Lemma select_export_None state path :
  select_export state path = None <-> forall e, e ∈ exports state -> ~ covers (es_path e) path.
Proof.
  unfold select_export. set (l := List.filter _ _).
  assert (forall x, x ∈ l <-> x ∈ exports state /\ covers (es_path x) path) as Hl.
  { intros x. unfold l. by rewrite elem_of_bool_filter, export_matches_spec. }
  split.
  - intros H%max_by_key_None e He Hc. assert (e ∈ l) as Hin by (by apply Hl). rewrite H in Hin.
    by apply not_elem_of_nil in Hin.
  - intros H. destruct (max_by_key _ l) as [x|] eqn:E; [|done].
    apply max_by_key_spec in E as [Hin _]. apply Hl in Hin as [? ?]. by destruct (H x).
Qed.

Lemma covers_suffix base path :
  covers base path ->
  exists suffix, mount_suffix base path = Ok suffix /\
    ((path = base /\ suffix = []) \/ path = base ++ suffix \/ path = base ++ NfsName.slash :: suffix).
Proof.
  intros Hc. unfold mount_suffix. case_bool_decide as Hb.
  - subst base. assert (exists rest, path = root_path ++ rest) as [rest ->].
    { destruct Hc as [->|[[_ [rest ->]]|[rest ->]]]; [by exists []|by exists rest|by eexists]. }
    fold root_path. rewrite strip_prefix_app. simpl. exists rest. split; [done|]. by right; left.
  - destruct Hc as [->|[[? _]|[rest ->]]]; [|done|].
    + pose proof (strip_prefix_app base []) as Hp. rewrite app_nil_r in Hp. rewrite Hp. exists []. split; [done|by left].
    + rewrite strip_prefix_app. cbn [mbind result_bind ok_or]. change (NfsName.slash :: rest) with (root_path ++ rest).
      fold root_path. rewrite strip_prefix_app. exists rest. split; [done|]. by right; right.
Qed.

(** A MOUNT path is served by the innermost export that contains it. With
    the unique paths a built server has, an export is selected exactly when the
    path lies at or below it on a component boundary and no longer export path
    also contains the request; none is selected exactly when no export contains
    it. The choice does not depend on the order in which exports were added, and
    the part of the path below the selected export is always well defined. *)
Lemma select_export_innermost state path :
  exports_ok (exports state) ->
  (forall e, select_export state path = Some e <->
     e ∈ exports state /\ covers (es_path e) path /\
     forall e', e' ∈ exports state -> covers (es_path e') path -> zlen (es_path e') <= zlen (es_path e)) /\
  (select_export state path = None <-> forall e, e ∈ exports state -> ~ covers (es_path e) path) /\
  (forall state', exports state' ≡ₚ exports state -> select_export state' path = select_export state path) /\
  (forall e, select_export state path = Some e -> exists suffix, mount_suffix (es_path e) path = Ok suffix /\
     ((path = es_path e /\ suffix = []) \/ path = es_path e ++ suffix \/ path = es_path e ++ NfsName.slash :: suffix)).
Proof.
  intros Hok. split_and!.
  - intros e. by apply select_export_iff.
  - apply select_export_None.
  - intros state' Hp.
    assert (exports_ok (exports state')) as Hok'.
    { destruct Hok as [H1 H2 H3]. split; [by rewrite Hp|..]; eapply NoDup_Permutation_proper;
        try (by apply fmap_Permutation); done. }
    apply option_eq. intros e. rewrite !select_export_iff by done. by setoid_rewrite Hp.
  - intros e H. apply select_export_iff in H as (_ & Hc & _); [|done]. by apply covers_suffix.
Qed.

(** ** Obtaining a handle *)
Section MountRequest.
Context (hmac : list byte -> list byte -> list byte).
Context {St : Type} (answer : forall op, vfs_ref -> St -> VfsOp.response op * St).

Lemma run_bind {A B} (p : prog A) (f : A -> prog B) w :
  run answer (p ≫= f) w =
  match run answer p w with
  | (Some a, w1, t1) => let '(out, w2, t2) := run answer (f a) w1 in (out, w2, t1 ++ t2)
  | (None, w1, t1) => (None, w1, t1)
  end.
Proof.
  revert w. induction p as [a|e k IH|]; intros w; simpl; [by destruct (run answer (f a) w) as [[]]| |done].
  destruct (answer_effect answer e w) as [r w1]. rewrite IH.
  destruct (run answer (k r) w1) as [[[a|] w2] t1]; [|done]. by destruct (run answer (f a) w2) as [[]].
Qed.

(** The calls a path resolution makes: the root, then lookups of valid names. *)
Definition resolving (v : vfs_ref) (c : RequestContext) (e : effect) : Prop :=
  e = Vfs v VfsOp.root \/ exists o n, e = Vfs v (VfsOp.lookup c o n) /\ NfsName.valid n.

(** A walk down from [o], one lookup per name, as the backend answers it. *)
Inductive walked (v : vfs_ref) (c : RequestContext)
    : ObjectKey -> list (list byte) -> St -> ObjectKey -> St -> list effect -> Prop :=
| walked_here o st : walked v c o [] st o st []
| walked_down o name names st n found st1 o' st2 trace :
    NfsName.as_bytes n = name -> answer (VfsOp.lookup c o n) v st = (Ok found, st1) ->
    walked v c (object found) names st1 o' st2 trace ->
    walked v c o (name :: names) st o' st2 (Vfs v (VfsOp.lookup c o n) :: trace).

Lemma lookup_components_run v c o comps w :
  exists r st trace, run answer (lookup_components v c o comps) w = (Some r, (st, w.2), trace) /\
    Forall (resolving v c) trace /\ (forall o', r = Ok o' -> walked v c o comps w.1 o' st trace).
Proof.
  revert o w. induction comps as [|x l IH]; intros o [st m]; simpl.
  - eexists _, st, []. split_and!; [done|constructor|]. intros o' [= <-]. constructor.
  - destruct (NfsName.new x) as [n|e] eqn:En; [|eexists _, st, []; by split_and!].
    apply NfsName_new_ok in En as [Hx Hn].
    cbn [mbind prog_bind prog_bind_ call run answer_effect fst snd].
    destruct (answer (VfsOp.lookup c o n) v st) as [r st1] eqn:Ea.
    assert (resolving v c (Vfs v (VfsOp.lookup c o n))) as Hr by (right; eauto).
    destruct r as [found|e]; [|eexists _, st1, _; split_and!; [done|by apply Forall_singleton|done]].
    destruct (IH (object found) (st1, m)) as (r & st2 & trace & -> & Ht & Hw).
    eexists _, st2, _. split_and!; [done|by constructor|]. intros o' ->. by eapply walked_down, Hw.
Qed.

(** The components of the path below an export, empty ones left out. *)
Definition components (suffix : list byte) : list (list byte) :=
  List.filter (fun component => negb (zlen component =? 0)) (split_slash suffix []).

Lemma resolve_run e c path w :
  exists r st trace, run answer (resolve_mount_object e c path) w = (Some r, (st, w.2), trace) /\
    Forall (resolving (es_vfs e) c) trace /\
    (forall o', r = Ok o' -> exists suffix o st0 ops, mount_suffix (es_path e) path = Ok suffix /\
       answer VfsOp.root (es_vfs e) w.1 = (o, st0) /\ walked (es_vfs e) c o (components suffix) st0 o' st ops /\
       trace = Vfs (es_vfs e) VfsOp.root :: ops).
Proof.
  unfold resolve_mount_object. destruct (mount_suffix _ _) as [suffix|err].
  2:{ destruct w as [st m]. eexists _, st, []. by split_and!. }
  destruct w as [st m]. cbn [mbind prog_bind prog_bind_ call run answer_effect fst snd].
  destruct (answer VfsOp.root (es_vfs e) st) as [o st1].
  destruct (lookup_components_run (es_vfs e) c o (components suffix) (st1, m)) as (r & st2 & t & Hrun & Ht & Hw).
  unfold components in Hrun. rewrite Hrun.
  eexists _, st2, _. split_and!; [done|constructor; [by left|done]|]. intros o' ->.
  exists suffix, o, st1, t. split_and!; try done. by apply Hw.
Qed.

(** Everything a mount request may do in the export it is about. *)
Definition mounting (v : vfs_ref) (c : RequestContext) (record : MountOp.t) (e : effect) : Prop :=
  resolving v c e \/ (exists o, e = Vfs v (VfsOp.getattr c o)) \/ e = Mounts record.

Lemma resolving_mounting v c record ops tail :
  Forall (resolving v c) ops -> Forall (mounting v c record) tail -> Forall (mounting v c record) (ops ++ tail).
Proof. intros H1 H2. apply Forall_app. split; [|done]. eapply Forall_impl; [exact H1|]. by left. Qed.

(** C18: what MNT grants. A mount request for a path that no export contains
    fails without any effect. Otherwise, for every backend and mount table, all it
    does is to look up valid names and to ask for attributes in the innermost
    export, the one with the longest path of those that contain the requested
    path, under the caller's identity, and to record the mount. When it fails the
    mount table is unchanged. When it succeeds, the handle is issued for that
    export and names the object that the backend found by walking from the
    export's root down the components of the rest of the path, after the backend
    has confirmed that this is a directory and the mount has been recorded. *)
Theorem mount_grants xid path context state w :
  let '(out, (st', m'), trace) := run answer (mount_path_request hmac xid path context state) w in
  exists r, out = Some (vec_result (typed_mount_reply xid r)) /\
  (((forall e, e ∈ exports state -> ~ covers (es_path e) path) /\
    r = MountResult.Err MountStatus.NotFound /\ (st', m') = w /\ trace = []) \/
   exists e, let c := mkRequestContext (principal context) (client_addr context) (es_id e) in
     let record := MountOp.add (ip (client_addr context)) path (max_mounts (limits state)) in
     (e ∈ exports state /\ covers (es_path e) path /\
      forall e', e' ∈ exports state -> covers (es_path e') path -> zlen (es_path e') <= zlen (es_path e)) /\
     Forall (mounting (es_vfs e) c record) trace /\
     match r with
     | MountResult.Err _ => m' = w.2
     | MountResult.Ok handle flavors =>
         exists suffix root o ops st0 st attributes,
           (path = es_path e /\ suffix = [] \/ path = es_path e ++ suffix \/ path = es_path e ++ NfsName.slash :: suffix) /\
           answer VfsOp.root (es_vfs e) w.1 = (root, st0) /\ walked (es_vfs e) c root (components suffix) st0 o st ops /\
           handle = encode hmac (handles state) (es_id e) o /\ flavors = auth_flavors (auth_policy state) /\
           (answer (VfsOp.getattr c o) (es_vfs e) st).1 = Ok attributes /\ file_type attributes = FileType.Directory /\
           trace = Vfs (es_vfs e) VfsOp.root :: ops ++ [Vfs (es_vfs e) (VfsOp.getattr c o); Mounts record] /\
           MountOp.step record w.2 = (true, m')
     end).
Proof.
  unfold mount_path_request. destruct (select_export state path) as [e|] eqn:Es.
  2:{ destruct w as [st m]. exists (MountResult.Err MountStatus.NotFound). split; [done|]. left. split_and!; try done.
    by apply select_export_None. }
  pose proof (select_export_spec _ _ _ Es) as (Hin & Hcov & Hmax). cbv zeta. set (c := mkRequestContext _ _ _).
  set (record := MountOp.add _ _ _). rewrite run_bind.
  destruct (resolve_run e c path w) as (r & st & ops & -> & Hops & Hwalk).
  pose proof (resolving_mounting _ _ record _ [] Hops ltac:(constructor)) as Hops0. rewrite app_nil_r in Hops0.
  destruct r as [o|err]; [|exists (MountResult.Err (mount_status err)); split; [done|]; right; exists e; rewrite ?app_nil_r; by split_and!].
  cbn [mbind prog_bind prog_bind_ call run answer_effect fst snd].
  destruct (answer (VfsOp.getattr c o) (es_vfs e) st) as [r st1] eqn:Ea.
  assert (mounting (es_vfs e) c record (Vfs (es_vfs e) (VfsOp.getattr c o))) as Hget by (right; left; by exists o).
  assert (Forall (mounting (es_vfs e) c record) (ops ++ [Vfs (es_vfs e) (VfsOp.getattr c o)])) as Hops1
    by (apply resolving_mounting; [done|by apply Forall_singleton]).
  destruct r as [attributes|err]; [|exists (MountResult.Err (mount_status err)); split; [done|]; right; exists e; by split_and!].
  case_bool_decide as Hd; cbn [negb]; [|exists (MountResult.Err MountStatus.NotDirectory); split; [done|]; right; exists e; by split_and!].
  cbn [mbind prog_bind prog_bind_ mounts run answer_effect fst snd].
  destruct (MountOp.step _ w.2) as [recorded m'] eqn:Em.
  assert (Forall (mounting (es_vfs e) c record) (ops ++ [Vfs (es_vfs e) (VfsOp.getattr c o); Mounts record])) as Hops2
    by (apply resolving_mounting; [done|]; constructor; [done|apply Forall_singleton; by right; right]).
  destruct recorded; cbn [negb run].
  - eexists (MountResult.Ok _ _). split; [done|]. right. exists e. split_and!; [done..|].
    destruct (Hwalk o eq_refl) as (suffix & root & st0 & ops' & Hsuf & Hroot & Hw & ->).
    destruct (covers_suffix _ _ Hcov) as (suffix' & Hsuf' & Hpath). rewrite Hsuf in Hsuf'. injection Hsuf' as <-.
    exists suffix, root, o, ops', st0, st, attributes. fold c. rewrite Ea. by split_and!.
  - exists (MountResult.Err MountStatus.Io). split; [done|]. right. exists e. split_and!; [done..|].
    revert Em. unfold record. simpl. by repeat case_match; intros [=].
Qed.
End MountRequest.

(** ** Sizes of listing replies *)

Lemma zlen_digits fuel base n acc : zlen (digits fuel base n acc) <= Z.of_nat fuel + zlen acc.
Proof.
  revert n acc. induction fuel as [|fuel IH]; intros n acc; cbn [digits]; [lia|].
  destruct (n / base =? 0); [autorewrite with zlen; lia|].
  specialize (IH (n / base) (digit (n mod base) :: acc)). autorewrite with zlen in IH. lia.
Qed.

Lemma zlen_join sep k l :
  0 <= k -> Forall (fun x => zlen x <= k) l -> zlen (Mount.join sep l) <= zlen l * (k + zlen sep).
Proof.
  intros Hk Hl. pose proof (zlen_nonneg sep). induction Hl as [|x l Hx Hl IH]; [simpl; unfold zlen; simpl; lia|].
  pose proof (zlen_nonneg l). destruct l as [|y l].
  - cbn [Mount.join]. autorewrite with zlen. nia.
  - cbn [Mount.join]. cbn [Mount.join] in IH. autorewrite with zlen in *. nia.
Qed.

Lemma zlen_hex_groups l : zlen (hex_groups l) <= 5 * zlen l.
Proof.
  unfold hex_groups. eapply Z.le_trans; [apply (zlen_join _ 4); [lia|]|].
  - apply Forall_fmap, Forall_forall. intros s _. apply zlen_digits.
  - unfold zlen. rewrite length_map. simpl. lia.
Qed.

Lemma zlen_ipv4 bits : zlen (ipv4_to_string bits) <= 16.
Proof.
  unfold ipv4_to_string. eapply Z.le_trans; [apply (zlen_join _ 3); [lia|]|by vm_compute].
  apply Forall_fmap, Forall_forall. intros s _. apply zlen_digits.
Qed.

Lemma zlen_ip_to_string a : zlen (ip_to_string a) <= 96.
Proof.
  destruct a as [bits|bits]; cbn [ip_to_string]; [pose proof (zlen_ipv4 bits); lia|]. unfold ipv6_to_string.
  destruct (_ =? 65535).
  - autorewrite with zlen. pose proof (zlen_ipv4 (Z.land bits u32_max)).
    pose proof (zlen_digits 4 16 65535 []) as Hd. autorewrite with zlen in Hd. lia.
  - cbv zeta. assert (zlen (ipv6_segments bits) = 8) as H8 by done. generalize dependent (ipv6_segments bits).
    intros l H8. destruct (longest_zeros _ _ _ _) as [start n]. pose proof (zlen_hex_groups l).
    destruct (1 <? n); [|lia]. autorewrite with zlen.
    pose proof (zlen_hex_groups (slice 0 start l)). pose proof (zlen_hex_groups (drop (Z.to_nat (start + n)) l)).
    assert (zlen (slice 0 start l) <= 8) by (unfold slice, zlen in *; rewrite length_take, length_drop; lia).
    assert (zlen (drop (Z.to_nat (start + n)) l) <= 8) by (unfold zlen in *; rewrite length_drop; lia). lia.
Qed.

#[global] Instance emits_each {A} (f : A -> writer) (P : A -> Prop) (bytes : A -> list byte) l :
  (forall x, Emits (f x) (P x) (bytes x)) -> Emits (encode_each f l) (Forall P l) (concat (map bytes l)).
Proof.
  intros Hf. induction l as [|x l IH]; simpl.
  - apply (emits_iff _ True _ [] []); [apply _|split; [by constructor|done]|done].
  - apply (emits_iff _ (P x /\ Forall P l) _ (bytes x ++ concat (map bytes l)) _); [apply _|by rewrite Forall_cons|done].
Qed.

Definition dump_entry_bytes (m : MountEntry) : list byte :=
  be_bytes 4 1 ++ Format.opaque_bytes (host m) ++ Format.opaque_bytes (mount_path m).
Definition export_entry_bytes (x : ExportEntry) : list byte :=
  be_bytes 4 1 ++ Format.opaque_bytes (entry_path x) ++
  concat (map (fun g => be_bytes 4 1 ++ Format.opaque_bytes g) (groups x)) ++ be_bytes 4 0.

Lemma emits_dump r :
  Emits (encode_mount_result (r : DumpResult))
    (Forall (fun m => zlen (host m) <= u32_max /\ zlen (mount_path m) <= u32_max) (dump_mounts r))
    (concat (map dump_entry_bytes (dump_mounts r)) ++ be_bytes 4 0).
Proof.
  unfold encode_mount_result, encode_dump. eapply emits_iff; [eapply emits_andthen; [apply emits_each|apply _]| |done].
  - intros x. simpl. apply _.
  - simpl. split; [intros [H _]|intros H; split; [|done]]; eapply Forall_impl; [exact H| |exact H|]; simpl; tauto.
Qed.

Lemma emits_export r :
  Emits (encode_mount_result (r : ExportResult))
    (Forall (fun x => zlen (entry_path x) <= u32_max /\ Forall (fun g => zlen g <= u32_max) (groups x)) (result_exports r))
    (concat (map export_entry_bytes (result_exports r)) ++ be_bytes 4 0).
Proof.
  unfold encode_mount_result, encode_export. eapply emits_iff; [eapply emits_andthen; [apply emits_each|apply _]| |done].
  - intros x. simpl. eapply emits_andthen; [apply _|]. eapply emits_andthen; [apply _|].
    eapply emits_andthen; [|apply _]. apply emits_each. intros g. apply _.
  - simpl. split; [intros [H _]|intros H; split; [|done]]; (eapply Forall_impl; [exact H|]); simpl; intros x Hx;
      destruct_and?; split_and?; try done; (eapply Forall_impl; [eassumption|]); simpl; tauto.
Qed.

Lemma checked_add_Some a b c : checked_add a b = Some c <-> a + b <= usize_max /\ c = a + b.
Proof. unfold checked_add. destruct (_ <=? _) eqn:E; zbool; (split; [intros [= <-]; done|intros [? ->]; done || lia]). Qed.

Lemma xdr_opaque_size_Some v c :
  xdr_opaque_size (zlen v) = Some c <-> zlen (Format.opaque_bytes v) <= usize_max /\ c = zlen (Format.opaque_bytes v).
Proof.
  rewrite Format.zlen_opaque_bytes. unfold xdr_opaque_size. fold (Format.xdr_padding (zlen v)).
  pose proof (Format.xdr_padding_range (zlen v)). split.
  - intros (n & [? ->]%checked_add_Some & [? ->]%checked_add_Some)%bind_Some. lia.
  - intros [? ->]. apply bind_Some. exists (4 + zlen v). rewrite !checked_add_Some. lia.
Qed.

Definition dump_of (table : MountTable) : DumpResult :=
  mkDumpResult (map (fun '(client, path) => mkMountEntry (ip_to_string client) path) table).
Definition export_of (l : list ExportState) : ExportResult :=
  mkExportResult (map (fun export => mkExportEntry (es_path export) []) l).

Definition dump_bytes (table : MountTable) : list byte := concat (map dump_entry_bytes (dump_mounts (dump_of table))).
Definition export_bytes (l : list ExportState) : list byte := concat (map export_entry_bytes (result_exports (export_of l))).

Lemma zlen_dump_bytes client path table :
  zlen (dump_bytes ((client, path) :: table)) =
  4 + zlen (Format.opaque_bytes (ip_to_string client)) + zlen (Format.opaque_bytes path) + zlen (dump_bytes table).
Proof.
  unfold dump_bytes. cbn [dump_of dump_mounts map concat]. unfold dump_entry_bytes at 1. cbn [host mount_path].
  autorewrite with zlen. lia.
Qed.

Lemma zlen_export_bytes e l :
  zlen (export_bytes (e :: l)) = 8 + zlen (Format.opaque_bytes (es_path e)) + zlen (export_bytes l).
Proof.
  unfold export_bytes. cbn [export_of result_exports map concat]. unfold export_entry_bytes at 1.
  cbn [entry_path groups map concat]. autorewrite with zlen. lia.
Qed.

(** Each pre-check adds up exactly the bytes of the entries. *)
Lemma dump_length_Some table n m :
  0 <= n <= usize_max ->
  dump_length table n = Some m <-> m <= usize_max /\ m = n + zlen (dump_bytes table).
Proof.
  revert n. induction table as [|[client path] table IH]; intros n Hn; cbn [dump_length].
  - change (zlen (dump_bytes [])) with 0. split; [intros [= <-]; lia|]. intros [_ ->]. f_equal. lia.
  - rewrite zlen_dump_bytes. pose proof (zlen_nonneg (dump_bytes table)).
    pose proof (zlen_nonneg (Format.opaque_bytes (ip_to_string client))). pose proof (zlen_nonneg (Format.opaque_bytes path)).
    split.
    + intros (n1 & [? ->]%checked_add_Some & Hl)%bind_Some. apply bind_Some in Hl as (s1 & [? ->]%xdr_opaque_size_Some & Hl).
      apply bind_Some in Hl as (n2 & [? ->]%checked_add_Some & Hl). apply bind_Some in Hl as (s2 & [? ->]%xdr_opaque_size_Some & Hl).
      apply bind_Some in Hl as (n3 & [? ->]%checked_add_Some & Hl). apply IH in Hl as [? ->]; lia.
    + intros [? ->]. apply bind_Some. eexists. rewrite checked_add_Some. split; [split; [lia|done]|].
      apply bind_Some. eexists. rewrite xdr_opaque_size_Some. split; [split; [lia|done]|].
      apply bind_Some. eexists. rewrite checked_add_Some. split; [split; [lia|done]|].
      apply bind_Some. eexists. rewrite xdr_opaque_size_Some. split; [split; [lia|done]|].
      apply bind_Some. eexists. rewrite checked_add_Some. split; [split; [lia|done]|].
      apply IH; lia.
Qed.

Lemma export_length_Some l n m :
  0 <= n <= usize_max ->
  export_length l n = Some m <-> m <= usize_max /\ m = n + zlen (export_bytes l).
Proof.
  revert n. induction l as [|e l IH]; intros n Hn; cbn [export_length].
  - change (zlen (export_bytes [])) with 0. split; [intros [= <-]; lia|]. intros [_ ->]. f_equal. lia.
  - rewrite zlen_export_bytes. pose proof (zlen_nonneg (export_bytes l)). pose proof (zlen_nonneg (Format.opaque_bytes (es_path e))).
    split.
    + intros (n1 & [? ->]%checked_add_Some & Hl)%bind_Some. apply bind_Some in Hl as (s1 & [? ->]%xdr_opaque_size_Some & Hl).
      apply bind_Some in Hl as (n2 & [? ->]%checked_add_Some & Hl).
      apply bind_Some in Hl as (n3 & [? ->]%checked_add_Some & Hl). apply IH in Hl as [? ->]; lia.
    + intros [? ->]. apply bind_Some. eexists. rewrite checked_add_Some. split; [split; [lia|done]|].
      apply bind_Some. eexists. rewrite xdr_opaque_size_Some. split; [split; [lia|done]|].
      apply bind_Some. eexists. rewrite checked_add_Some. split; [split; [lia|done]|].
      apply bind_Some. eexists. rewrite checked_add_Some. split; [split; [lia|done]|].
      apply IH; lia.
Qed.

Lemma outbound_length_fits_iff l n :
  limits_valid l -> 0 < n -> outbound_length_fits n l = true <-> n <= transport_record_capacity l.
Proof.
  intros Hl Hn. pose proof (valid_fragment l Hl) as Hf. pose proof (valid_record l Hl) as Hr.
  unfold outbound_length_fits, transport_record_capacity, saturating_mul. rewrite andb_true_iff, !Z.leb_le.
  rewrite div_ceil_le by lia. unfold u32_max, usize_max in *. lia.
Qed.

(** A listing whose strings fit XDR is encoded, in exactly the predicted size. *)
Lemma listing_reply {T} `{EncodeMountResult T} xid (r : T) P bs :
  Emits (encode_mount_result r) P bs ->
  (forall v, typed_mount_reply xid r = Ok v -> v = reply_header xid SUCCESS ++ bs /\ P) /\
  (P -> 24 + zlen bs <= usize_max -> typed_mount_reply xid r = Ok (reply_header xid SUCCESS ++ bs)).
Proof.
  intros He. unfold typed_mount_reply. rewrite accepted_reply_encoder_output. split.
  - intros v Hv. apply bind_ok in Hv as (e & H1 & [= <-]). apply emits_inv in H1 as [? ->]. done.
  - intros HP Hl. rewrite (emits_ok _ HP); [done|]. simpl. by rewrite zlen_reply_header.
Qed.

(** A pre-check against the reply it guards. *)
Lemma precheck_exact {T} `{EncodeMountResult T} xid (r : T) P bs length l :
  Emits (encode_mount_result r) P (bs ++ be_bytes 4 0) -> P -> limits_valid l ->
  (forall m, length = Some m <-> m <= usize_max /\ m = 28 + zlen bs) ->
  encoded_length_fits length l = true <->
  exists v, typed_mount_reply xid r = Ok v /\ validate_record_length (zlen v) (record_limits l) = Ok ().
Proof.
  intros He HP Hl Hlen. destruct (listing_reply xid r _ _ He) as [Hr1 Hr2]. pose proof (zlen_nonneg bs).
  pose proof (transport_capacity_bound l Hl) as Hcap.
  assert (zlen (reply_header xid SUCCESS ++ bs ++ be_bytes 4 0) = 28 + zlen bs) as Hz.
  { autorewrite with zlen. rewrite zlen_reply_header. lia. }
  unfold u32_max, usize_max in *. split.
  - unfold encoded_length_fits. destruct length as [m|]; [|done]. intros Hf.
    destruct (proj1 (Hlen m) eq_refl) as [Hm ->]. apply outbound_length_fits_iff in Hf; [|done|lia].
    rewrite Hr2; [|done|autorewrite with zlen; lia]. eexists. split; [done|].
    apply validate_record_length_iff; [done|lia|]. by rewrite Hz.
  - intros (v & Hv & Hval). apply Hr1 in Hv as [-> _]. rewrite Hz in Hval.
    apply validate_record_length_iff in Hval; [|done|lia].
    rewrite (proj2 (Hlen (28 + zlen bs))) by lia. apply outbound_length_fits_iff; [done|lia|done].
Qed.

Lemma dump_strings table :
  Forall (fun m : IpAddr * list byte => zlen m.2 <= MAX_PATH) table ->
  Forall (fun m => zlen (host m) <= u32_max /\ zlen (mount_path m) <= u32_max) (dump_mounts (dump_of table)).
Proof.
  intros Ht. simpl. apply Forall_fmap. eapply Forall_impl; [exact Ht|]. intros [client path] Hp. simpl in *.
  pose proof (zlen_ip_to_string client). unfold MAX_PATH, u32_max in *. lia.
Qed.

Lemma export_strings l :
  exports_ok l ->
  Forall (fun x => zlen (entry_path x) <= u32_max /\ Forall (fun g => zlen g <= u32_max) (groups x))
    (result_exports (export_of l)).
Proof.
  intros [Hp _ _]. simpl. apply Forall_fmap. eapply Forall_impl; [exact Hp|]. intros e (_ & _ & Hl & _). simpl.
  split; [unfold u32_max; lia|constructor].
Qed.

(** The DUMP and EXPORT pre-checks are exact. The size computed in advance,
    with overflow-checked additions, admits a listing exactly when the encoded
    reply exists and passes the outbound record limits: a listing is never
    refused although it fits, and never encoded although it does not. *)
Lemma mount_listings_exact xid table state :
  ServerReady state -> Forall (fun m : IpAddr * list byte => zlen m.2 <= MAX_PATH) table ->
  (encoded_length_fits (dump_length table (24 + 4)) (limits state) = true <->
     exists v, typed_mount_reply xid (dump_of table) = Ok v /\
       validate_record_length (zlen v) (record_limits (limits state)) = Ok ()) /\
  (encoded_length_fits (export_length (exports state) (24 + 4)) (limits state) = true <->
     exists v, typed_mount_reply xid (export_of (exports state)) = Ok v /\
       validate_record_length (zlen v) (record_limits (limits state)) = Ok ()).
Proof.
  intros Hr Ht. split.
  - eapply (precheck_exact xid); [apply emits_dump|by apply dump_strings|apply Hr|].
    intros m. by apply dump_length_Some.
  - eapply (precheck_exact xid); [apply emits_export|by apply export_strings, Hr|apply Hr|].
    intros m. by apply export_length_Some.
Qed.

(** ** Dispatch *)

(** What [dispatch_mount] and [dispatch_portmap] return. *)
Definition vec_ok (xid bound : Z) (r : result ServerError.t (list byte)) : Prop :=
  match r with
  | Ok v => (exists status bs, v = reply_header xid status ++ bs) /\ zlen v <= bound
  | Err (ServerError.Encode _) | Err (ServerError.Decode _) => True
  | Err _ => False
  end.

Lemma vec_ok_accepted xid bound status body :
  24 + zlen body <= bound -> vec_ok xid bound (Ok (accepted_reply xid status body)).
Proof. intros Hb. rewrite accepted_reply_bytes. split; [eauto|]. by rewrite zlen_app, zlen_reply_header. Qed.

Lemma vec_ok_typed {T} `{EncodeMountResult T} xid bound (r : T) n :
  AppendsAtMost (encode_mount_result r) n -> 24 + n <= bound ->
  vec_ok xid bound (vec_result (typed_mount_reply xid r)).
Proof.
  intros Ha Hn. destruct (typed_mount_reply xid r) as [v|] eqn:E; simpl; [|done].
  unfold typed_mount_reply in E. rewrite accepted_reply_encoder_output in E. apply bind_ok in E as (e & He & [= <-]).
  apply Ha in He as (bs & -> & Hl). split; [simpl; eauto|]. simpl. rewrite zlen_app, zlen_reply_header. lia.
Qed.

Lemma appends_mount_err s : AppendsAtMost (encode_mount_result (MountResult.Err s)) 4.
Proof. unfold encode_mount_result; simpl. eapply appends_emits; [apply _|]. by autorewrite with zlen. Qed.

Lemma appends_mount_ok h p : zlen h <= 64 -> AppendsAtMost (encode_mount_result (MountResult.Ok h (auth_flavors p))) 84.
Proof.
  intros Hh. unfold encode_mount_result; simpl. eapply appends_emits.
  - eapply emits_andthen; [apply _|]. eapply emits_andthen; [apply _|]. eapply emits_andthen; [apply _|].
    apply emits_each. intros x. apply _.
  - pose proof (zlen_opaque_64 h Hh). autorewrite with zlen.
    destruct p; cbn [auth_flavors map concat]; autorewrite with zlen; lia.
Qed.

(** The effects a MOUNT request may have: resolving a path in an export, under
    the caller's identity, and the mount table. *)
Definition mount_effect (context : RequestContext) (state : ConnectionState) (e : effect) : Prop :=
  match e with
  | Mounts op =>
      match op with
      | MountOp.add client _ max => client = ip (client_addr context) /\ max = max_mounts (limits state)
      | MountOp.snapshot => True
      | MountOp.remove client _ | MountOp.remove_all client => client = ip (client_addr context)
      end
  | Vfs v op =>
      VfsOp.mutates op = false /\ exists export, export ∈ exports state /\ v = es_vfs export /\
      forall c, VfsOp.context_of op = Some c ->
        c = mkRequestContext (principal context) (client_addr context) (es_id export)
  end.

Section DispatchMount.
Context (hmac : list byte -> list byte -> list byte) (hmac_length : forall k m, zlen (hmac k m) = 32).
Context (xid : Z) (context : RequestContext) (state : ConnectionState) `{!ServerReady state}.

Abbreviation served := (wp (mount_effect context state) (fun _ _ => True)).
Abbreviation capacity := (transport_record_capacity (limits state)).

Lemma wp_lookup_components export o comps Q :
  export ∈ exports state -> (forall r, Q r) ->
  served Q (lookup_components (es_vfs export)
    (mkRequestContext (principal context) (client_addr context) (es_id export)) o comps).
Proof.
  intros Hin HQ. revert o. induction comps as [|x l IH]; intros o; simpl; [done|].
  destruct (NfsName.new x) as [n|e]; [|apply HQ]. simpl. split.
  - split; [done|]. exists export. split_and!; [done|done|]. by intros c [= <-].
  - intros [found|e] _; [apply IH|apply HQ].
Qed.

Lemma capacity_304 : 304 <= capacity.
Proof. apply (valid_mutation _ ready_limits). Qed.

Lemma wp_mount_path path : served (vec_ok xid capacity) (mount_path_request hmac xid path context state).
Proof.
  pose proof capacity_304 as Hc.
  assert (forall s, vec_ok xid capacity (vec_result (typed_mount_reply xid (MountResult.Err s)))) as Hfail.
  { intros s. eapply vec_ok_typed; [apply appends_mount_err|lia]. }
  unfold mount_path_request. destruct (select_export state path) as [e|] eqn:Es; [|apply Hfail].
  apply select_export_iff in Es as (Hin & _); [|apply ready_exports]. cbv zeta. apply wp_bind.
  unfold resolve_mount_object. destruct (mount_suffix _ _) as [suffix|err]; [|apply Hfail].
  apply wp_call.
  { split; [done|]. exists e. by split_and!. }
  intros o _. apply wp_lookup_components; [done|]. intros [root|err]; [|apply Hfail].
  apply wp_call.
  { split; [done|]. exists e. split_and!; [done|done|]. by intros c [= <-]. }
  intros [attributes|err] _; [|apply Hfail]. case_bool_decide; cbn [negb]; [|apply Hfail].
  apply wp_mounts; [done|]. intros recorded _. destruct recorded; cbn [negb]; [|apply Hfail].
  eapply vec_ok_typed; [apply appends_mount_ok|lia]. rewrite (zlen_encode _ hmac_length _ _ _ ready_codec). by vm_compute.
Qed.

(** A listing that passed its pre-check is within the transport capacity. *)
Lemma listing_ok {T} `{EncodeMountResult T} (r : T) P bs length :
  Emits (encode_mount_result r) P (bs ++ be_bytes 4 0) ->
  (forall m, length = Some m <-> m <= usize_max /\ m = 28 + zlen bs) ->
  encoded_length_fits length (limits state) = true ->
  vec_ok xid capacity (vec_result (typed_mount_reply xid r)).
Proof.
  intros He Hlen Hf. unfold encoded_length_fits in Hf. destruct length as [m|]; [|done].
  destruct (proj1 (Hlen m) eq_refl) as [_ ->]. pose proof (zlen_nonneg bs).
  apply outbound_length_fits_iff in Hf; [|apply ready_limits|lia].
  destruct (listing_reply xid r _ _ He) as [Hr _]. destruct (typed_mount_reply xid r) as [v|]; simpl; [|done].
  destruct (Hr v eq_refl) as [-> _]. split; [eauto|]. autorewrite with zlen. rewrite zlen_reply_header. lia.
Qed.

Lemma wp_dispatch_mount procedure args :
  served (vec_ok xid capacity) (dispatch_mount hmac xid procedure args context state).
Proof.
  pose proof capacity_304 as Hc.
  assert (forall s, vec_ok xid capacity (Ok (accepted_reply xid s []))) as Hacc.
  { intros s. apply vec_ok_accepted. change (zlen []) with 0. lia. }
  unfold dispatch_mount. destruct (_ && _); [apply Hacc|].
  destruct (procedure =? 0); [apply Hacc|].
  destruct (procedure =? 1); [destruct (Decoder.decode_all _ _); [apply wp_mount_path|done]|].
  destruct (procedure =? 2).
  { apply wp_mounts; [done|]. intros table _. fold (dump_of table).
    destruct (encoded_length_fits _ _) eqn:Ef; cbn [negb]; [|apply Hacc].
    eapply listing_ok; [apply emits_dump| |exact Ef]. intros m. by apply dump_length_Some. }
  destruct (procedure =? 3).
  { destruct (Decoder.decode_all _ _); [|done]. apply wp_mounts; [done|]. intros _ _. apply Hacc. }
  destruct (procedure =? 4); [apply wp_mounts; [done|]; intros _ _; apply Hacc|].
  destruct (procedure =? 5); [|apply Hacc].
  fold (export_of (exports state)). destruct (encoded_length_fits _ _) eqn:Ef; cbn [negb]; [|apply Hacc].
  eapply listing_ok; [apply emits_export| |exact Ef]. intros m. by apply export_length_Some.
Qed.
End DispatchMount.

(** ** Witnesses *)

Lemma toy_started_ready : ServerReady toy_started.
Proof.
  split; [done|exact (validate_ok production_defaults production_defaults_wf eq_refl)|].
  split.
  - repeat (apply Forall_cons_2; [|]); [..|apply Forall_nil_2];
      (split_and!; [by eexists|apply (bool_decide_unpack _); by vm_compute|by vm_compute|]);
      [by left|right; by vm_compute].
  - apply (bool_decide_unpack _). by vm_compute.
  - apply (bool_decide_unpack _). by vm_compute.
Qed.

Definition toy_path : list byte := [NfsName.slash; Byte.x61; NfsName.slash; Byte.x62].

