(* ===== verification/Calls.v ===== *)
(** * From a record to a reply

    Theorems about [Execute]: which records become calls and under whose
    identity, which export serves them, what identifies a retransmission, and
    that every admitted call is answered. *)
From S2P Require Import Prelude Replay RpcCodec VfsTypes RpcAuth NfsProcedures NfsCodec RpcRecord Reply Handles Limits Vfs Connection Mount Execute Builder Serving Mounting.
Import Format.

(** ** Call headers *)

(** RFC 1057 call header, up to the arguments. *)
Definition header_bytes (h : call_header) : list byte :=
  be_bytes 4 (ch_xid h) ++ be_bytes 4 RPC_CALL ++ be_bytes 4 (ch_rpc_version h) ++ be_bytes 4 (ch_program h) ++
  be_bytes 4 (ch_version h) ++ be_bytes 4 (ch_procedure h) ++ be_bytes 4 (ch_credential_flavor h) ++
  opaque_bytes (ch_credential h) ++ be_bytes 4 (ch_verifier_flavor h) ++ opaque_bytes (ch_verifier h).

Definition header_wf (h : call_header) : Prop :=
  u32_range (ch_xid h) /\ u32_range (ch_rpc_version h) /\ u32_range (ch_program h) /\ u32_range (ch_version h) /\
  u32_range (ch_procedure h) /\ u32_range (ch_credential_flavor h) /\ zlen (ch_credential h) <= 400 /\
  u32_range (ch_verifier_flavor h) /\ zlen (ch_verifier h) <= 400.

(** The reads of [read_call_header] as one reader. *)
Definition header_reader : Decoder.reader call_header :=
  xid ← Decoder.read_u32;
  message_type ← Decoder.read_u32;
  if negb (message_type =? RPC_CALL) then Decoder.fail Truncated
  else
    rpc_version ← Decoder.read_u32;
    program ← Decoder.read_u32;
    version ← Decoder.read_u32;
    procedure ← Decoder.read_u32;
    credential_flavor ← Decoder.read_u32;
    credential ← Decoder.read_opaque_slice "RPC credential" 400;
    verifier_flavor ← Decoder.read_u32;
    verifier ← Decoder.read_opaque_slice "RPC verifier" 400;
    mret (mkCallHeader xid rpc_version program version procedure credential_flavor credential verifier_flavor verifier).

Lemma implements_header : Implements header_reader (exact header_wf header_bytes).
Proof.
  eapply implements_weaken; [unfold header_reader; apply _|]. intros h bs. split.
  - intros H. fmt_destruct.
    match goal with H : context [if negb (?m =? RPC_CALL) then _ else _] |- _ =>
      destruct (m =? RPC_CALL) eqn:E; simpl in H; [|done] end.
    apply Z.eqb_eq in E as ->. fmt_destruct. split; [unfold header_wf; simpl; by split_and!|]. unfold header_bytes; simpl. by rewrite app_nil_r.
  - intros [H ->]. destruct h as [x rv p v pr cf c vf vr]. unfold header_wf in H; simpl in H. destruct_and!. unfold header_bytes; simpl.
    apply seq_intro with (a := x); [|by split]. apply seq_intro with (a := RPC_CALL); [|split; [by vm_compute|done]].
    change (RPC_CALL =? RPC_CALL) with true. cbn [negb]. fmt_build; try done; unfold u32_max; lia.
Qed.

Ltac read_step :=
  lazymatch goal with
  | |- context [match match ?x with _ => _ end with _ => _ end] =>
      destruct x as [[? ?]|]; [|split; [done|by intros (? & ? & _)]]
  end.
Lemma read_call_header_reader record h args :
  read_call_header record = Ok (h, args) <->
  exists d, header_reader (Decoder.new record) = Ok (h, d) /\ args = drop (Z.to_nat (Decoder.position d)) record.
Proof.
  unfold read_call_header, header_reader. cbv zeta. unfold mbind, Decoder.reader_bind, result_bind, map_err, mret, Decoder.reader_ret.
  set (r := Decoder.new record). clearbody r.
  do 2 read_step. destruct (negb _); [split; [done|by intros (? & ? & _)]|].
  do 8 read_step. split; [intros [= <- <-]; by eexists|]. by intros (d' & [= <- <-] & ->).
Qed.

(** A record is accepted as a call exactly when it starts with a header. *)
Lemma read_call_header_iff record h args :
  zlen record <= isize_max ->
  read_call_header record = Ok (h, args) <-> header_wf h /\ record = header_bytes h ++ args.
Proof.
  intros Hl. pose proof (wf_new record Hl) as Hwf. pose proof implements_header. rewrite read_call_header_reader. split.
  - intros (d & Hd & ->). apply (implements_sound _ _ _ Hwf) in Hd as (bs & tail & Hr & [Hh ->] & ->).
    split; [done|]. rewrite rest_new in Hr. subst record.
    unfold advance, Decoder.new. cbn [Decoder.position]. by rewrite Z.add_0_l, drop_zlen_app.
  - intros [Hh ->]. eexists. split; [by apply (implements_complete _ h (header_bytes h) args Hwf)|].
    unfold advance, Decoder.new. cbn [Decoder.position]. by rewrite Z.add_0_l, drop_zlen_app.
Qed.

(** ** Admission *)
Section Admission.
Context (hmac : list byte -> list byte -> list byte) (sha256 : list byte -> list byte) (vec_capacity : list byte -> Z).

(** The call a header and its arguments stand for, from client [addr]. *)
Definition call_of (h : call_header) (args : list byte) (p : Principal.t) (addr : SocketAddr) (state : ConnectionState)
    : admitted_call :=
  let export := request_export_id hmac (ch_program h) (ch_procedure h) args state in
  mkAdmitted (mkReplayKey (mkSocketAddr (ip addr) 0) export (ch_xid h))
    (sha256 (fingerprint_input (ch_program h) (ch_version h) (ch_procedure h) args p))
    (ch_xid h) (ch_program h) (ch_version h) (ch_procedure h) args (mkRequestContext p addr export).

(** Admission, characterised. *)
Lemma admit_call_iff record addr state c :
  zlen record <= isize_max ->
  admit_call hmac sha256 vec_capacity record addr state = Ok (inr c) <->
  exists h args p,
    record = header_bytes h ++ args /\ header_wf h /\ ch_rpc_version h = 2 /\
    ch_verifier_flavor h = AUTH_NONE /\ ch_verifier h = [] /\
    decode_principal (ch_credential_flavor h) (ch_credential h) = Ok p /\
    (ch_program h = PORTMAP_PROGRAM \/ principal_allowed (auth_policy state) p = true) /\
    c = call_of h args p addr state.
Proof.
  intros Hl. unfold admit_call. split.
  - intros H. apply bind_ok in H as ([h args] & Hh & H). apply read_call_header_iff in Hh as [Hwf ->]; [|done].
    destruct (_ || _) eqn:Ev; [done|]. apply orb_false_iff in Ev as [Ev1 Ev2].
    apply negb_false_iff, Z.eqb_eq in Ev1, Ev2. apply zlen_nil_inv in Ev2.
    destruct (decode_principal _ _) as [p|] eqn:Ep; [|done]. cbv zeta in H.
    destruct (negb (ch_rpc_version h =? 2)) eqn:Er; [done|]. apply negb_false_iff, Z.eqb_eq in Er.
    destruct (_ && _) eqn:Ea; [done|]. injection H as <-. exists h, args, p. split_and!; try done.
    apply andb_false_iff in Ea as [Ea|Ea]; apply negb_false_iff in Ea; [left; by apply Z.eqb_eq|by right].
  - intros (h & args & p & -> & Hwf & Hr & Hv & Hvf & Hp & Ha & ->).
    rewrite (proj2 (read_call_header_iff _ h args Hl)) by done. cbn [mbind result_bind].
    rewrite Hv, Hvf, Hp, Hr. cbv zeta.
    replace (negb (ch_program h =? PORTMAP_PROGRAM) && negb (principal_allowed (auth_policy state) p)) with false; [done|].
    symmetry. destruct Ha as [->| ->]; [done|]. by rewrite andb_false_r.
Qed.

(** C12: only authenticated version-2 calls are admitted. A record reaches the
    replay cache and the backends exactly when it is a CALL header followed by
    arguments, with a null verifier, RPC version 2, a credential that decodes to
    a principal, and that principal allowed by the policy (the portmapper alone
    is open to all); the call then runs as that principal, and its replay key is
    the client's address without the port, the export and the transaction id. *)
Theorem admitted_iff record addr state c :
  zlen record <= isize_max ->
  admit_call hmac sha256 vec_capacity record addr state = Ok (inr c) <->
  exists h args p,
    record = header_bytes h ++ args /\ header_wf h /\ ch_rpc_version h = 2 /\
    ch_verifier_flavor h = AUTH_NONE /\ ch_verifier h = [] /\
    decode_principal (ch_credential_flavor h) (ch_credential h) = Ok p /\
    (ch_program h = PORTMAP_PROGRAM \/ principal_allowed (auth_policy state) p = true) /\
    c = call_of h args p addr state.
Proof. apply admit_call_iff. Qed.
End Admission.

(** ** Routing *)
Section Routing.
Context (hmac : list byte -> list byte -> list byte).

Lemma first_handle a h hs max :
  arguments_wf max a -> request_handles a = h :: hs ->
  zlen h <= 64 /\ exists tail, arguments_bytes a = opaque_bytes h ++ tail.
Proof.
  intros Hwf Hh. destruct a; simpl in Hh; try done; injection Hh as <- _; simpl in *;
    unfold dirop_wf, handle_wf in *; destruct_and?; (split; [done|]); unfold dirop_bytes;
    rewrite <- ?app_assoc; first [by eexists|exists []; by rewrite app_nil_r].
Qed.

(** A request is served by the export its first handle belongs to. If an
    NFS request's arguments decode and its first handle was issued by this
    server, then the export chosen before authorisation and replay is the one
    sealed in that handle, and the handle then resolves to the object it was
    issued for: a valid handle is never rejected as belonging elsewhere. *)
Lemma request_routed_by_handle procedure args max state a h hs e o :
  zlen args <= isize_max -> NfsProcedures.decode procedure args max = Ok a -> request_handles a = h :: hs ->
  decode_any hmac (handles state) h = Ok (e, o) ->
  request_export_id hmac NFS_PROGRAM procedure args state = e /\ decode_object hmac state e h = Ok o.
Proof.
  intros Hl Hd Hh He. apply decode_iff in Hd as (Hp & Hwf & ->); [|done].
  destruct (first_handle a h hs max Hwf Hh) as [H64 [tail Ht]]. rewrite Ht in *.
  assert (Decoder.read_opaque_slice "NFS file handle" 64 (Decoder.new (opaque_bytes h ++ tail)) =
    Ok (h, advance (zlen (opaque_bytes h)) (Decoder.new (opaque_bytes h ++ tail)))) as Hr.
  { apply (implements_complete _ h (opaque_bytes h) tail (wf_new _ Hl)); [done|].
    split_and!; [done|unfold u32_max; lia|done]. }
  assert (procedure <> 0) as H0 by (intros H00; rewrite H00 in Hp; destruct a; simpl in Hp, Hh; try lia; done).
  split.
  - unfold request_export_id. change (NFS_PROGRAM =? NFS_PROGRAM) with true.
    rewrite (proj2 (Z.eqb_neq procedure 0) H0). cbn [negb andb]. rewrite Hr. by rewrite He.
  - unfold decode_object, decode. rewrite He. cbn [mbind result_bind]. by rewrite Z.eqb_refl.
Qed.
End Routing.

(** ** Fingerprints *)

(** The principals credentials can decode to. *)
Definition principal_wf (p : Principal.t) : Prop :=
  match p with
  | Principal.Anonymous => True
  | Principal.AuthSys uid gid gids name =>
      u32_range uid /\ u32_range gid /\ Forall u32_range gids /\ zlen gids <= MAX_GROUPS /\ zlen name <= MAX_MACHINE_NAME
  end.

Lemma decode_principal_wf flavor body p :
  zlen body <= isize_max -> decode_principal flavor body = Ok p -> principal_wf p.
Proof.
  intros Hl H. unfold decode_principal in H. destruct (flavor =? AUTH_NONE).
  - destruct (zlen body =? 0); [|done]. by injection H as <-.
  - destruct (flavor =? AUTH_SYS); [|done].
    apply read_auth_sys_iff in H as (stamp & uid & gid & gids & name & -> & _ & _ & ?); [|done]. simpl. tauto.
Qed.

Lemma be4_inj x y l1 l2 :
  u32_range x -> u32_range y -> be_bytes 4 x ++ l1 = be_bytes 4 y ++ l2 -> x = y /\ l1 = l2.
Proof.
  intros Hx Hy H. apply app_inj_1 in H as [H ->]; [|by rewrite !length_be_bytes].
  split; [|done]. by rewrite <- (be_value_be4 x Hx), <- (be_value_be4 y Hy), H.
Qed.

Lemma concat_be4_inj l1 l2 t1 t2 :
  Forall u32_range l1 -> Forall u32_range l2 -> length l1 = length l2 ->
  concat (map (be_bytes 4) l1) ++ t1 = concat (map (be_bytes 4) l2) ++ t2 -> l1 = l2 /\ t1 = t2.
Proof.
  intros H1. revert l2. induction H1 as [|x l1 Hx H1 IH]; intros l2 H2 Hl H; destruct l2 as [|y l2]; try done.
  cbn [map concat] in H. rewrite <- !app_assoc in H. apply Forall_cons_1 in H2 as [Hy H2].
  apply be4_inj in H as [-> H]; [|done|done]. apply IH in H as [-> ->]; [done|done|]. by injection Hl.
Qed.

Lemma as_u32_small {A} (l : list A) : zlen l <= u32_max -> as_u32 (zlen l) = zlen l /\ u32_range (zlen l).
Proof.
  intros Hl. pose proof (zlen_nonneg l). unfold as_u32, u32_range, u32_max in *.
  split; [apply Z.mod_small|]; lia.
Qed.

Lemma principal_bytes_inj p q : principal_wf p -> principal_wf q -> principal_bytes p = principal_bytes q -> p = q.
Proof.
  destruct p as [|u1 g1 l1 n1], q as [|u2 g2 l2 n2]; simpl; intros Hp Hq H; try done.
  destruct Hp as (Hu1 & Hg1 & Hf1 & Hl1 & Hn1), Hq as (Hu2 & Hg2 & Hf2 & Hl2 & Hn2).
  unfold MAX_GROUPS, MAX_MACHINE_NAME in *.
  destruct (as_u32_small l1) as [El1 Hr1]; [unfold u32_max; lia|]. destruct (as_u32_small l2) as [El2 Hr2]; [unfold u32_max; lia|].
  destruct (as_u32_small n1) as [En1 Hs1]; [unfold u32_max; lia|]. destruct (as_u32_small n2) as [En2 Hs2]; [unfold u32_max; lia|].
  rewrite El1, El2, En1, En2 in H. change (byte_of 1 :: ?l) with ([byte_of 1] ++ l) in H.
  apply (app_inj_1 [byte_of 1] [byte_of 1]) in H as [_ H]; [|done].
  apply be4_inj in H as [-> H]; [|done|done]. apply be4_inj in H as [-> H]; [|done|done].
  apply be4_inj in H as [Hl H]; [|done|done].
  apply concat_be4_inj in H as [-> H]; [|done|done|unfold zlen in Hl; lia].
  by apply be4_inj in H as [_ ->]; [|done|done].
Qed.

(** The arguments of a procedure end where they say: no canonical argument list
    is a proper prefix of another. *)
Lemma arguments_prefix_free procedure max a1 a2 t1 t2 :
  zlen (arguments_bytes a1 ++ t1) <= isize_max ->
  procedure_of a1 = procedure -> arguments_wf max a1 -> procedure_of a2 = procedure -> arguments_wf max a2 ->
  arguments_bytes a1 ++ t1 = arguments_bytes a2 ++ t2 -> a1 = a2 /\ t1 = t2.
Proof.
  intros Hl H1 Hw1 H2 Hw2 H.
  assert (0 <= procedure <= 21) as Hp by (destruct a1; simpl in H1; lia).
  pose proof (implements_decode_body procedure max Hp) as Hi.
  pose proof (@implements_complete _ _ _ Hi (Decoder.new (arguments_bytes a1 ++ t1)) a1 _ t1 (wf_new _ Hl) eq_refl
    (conj H1 (conj Hw1 eq_refl))) as E1.
  pose proof (@implements_complete _ _ _ Hi (Decoder.new (arguments_bytes a1 ++ t1)) a2 _ t2 (wf_new _ Hl)
    (eq_trans (rest_new _) H) (conj H2 (conj Hw2 eq_refl))) as E2.
  rewrite E1 in E2. injection E2 as -> _. split; [done|]. by apply app_inv_head in H.
Qed.

(** C14: a fingerprint identifies the call. If two NFS calls whose arguments
    decode hash the same bytes, they are the same procedure with the same
    arguments from the same principal: the replay cache never answers one valid
    request with the reply to another one of a different user or with different
    arguments, short of a SHA-256 collision. *)
Theorem fingerprint_identifies max program1 version1 procedure1 args1 a1 p1 program2 version2 procedure2 args2 a2 p2 :
  u32_range program1 -> u32_range version1 -> u32_range procedure1 -> principal_wf p1 ->
  u32_range program2 -> u32_range version2 -> u32_range procedure2 -> principal_wf p2 ->
  NfsProcedures.decode procedure1 args1 max = Ok a1 -> NfsProcedures.decode procedure2 args2 max = Ok a2 ->
  zlen (fingerprint_input program1 version1 procedure1 args1 p1) <= isize_max ->
  fingerprint_input program1 version1 procedure1 args1 p1 = fingerprint_input program2 version2 procedure2 args2 p2 ->
  program1 = program2 /\ version1 = version2 /\ procedure1 = procedure2 /\ args1 = args2 /\ a1 = a2 /\ p1 = p2.
Proof.
  intros Hg1 Hv1 Hc1 Hp1 Hg2 Hv2 Hc2 Hp2 Hd1 Hd2 Hl H.
  assert (zlen args1 + zlen (principal_bytes p1) <= isize_max /\ zlen args2 <= isize_max) as [Hl1 Hl2].
  { pose proof Hl as Hl'. rewrite H in Hl'. unfold fingerprint_input in Hl, Hl'. autorewrite with zlen in Hl, Hl'.
    pose proof (zlen_nonneg (principal_bytes p2)). pose proof (zlen_nonneg args1). lia. }
  pose proof (zlen_nonneg (principal_bytes p1)).
  apply decode_iff in Hd1 as (Hq1 & Hw1 & ->); [|lia]. apply decode_iff in Hd2 as (Hq2 & Hw2 & ->); [|done].
  unfold fingerprint_input in H.
  apply be4_inj in H as [-> H]; [|done|done]. apply be4_inj in H as [-> H]; [|done|done].
  apply be4_inj in H as [-> H]; [|done|done].
  apply (arguments_prefix_free procedure2 max) in H as [-> H]; [|by rewrite zlen_app|done|done|done|done].
  apply principal_bytes_inj in H as ->; done.
Qed.

(** Without decodable arguments the boundary between arguments and principal is
    not marked: bytes that an anonymous caller appends to its arguments can spell
    a principal whose machine name ends in a zero byte. *)
Example fingerprint_boundary_unmarked :
  let p := Principal.AuthSys 0 0 [] [Byte.x00] in
  let args := [] in
  fingerprint_input NFS_PROGRAM 3 0 args p =
  fingerprint_input NFS_PROGRAM 3 0 (args ++ removelast (principal_bytes p)) Principal.Anonymous.
Proof. reflexivity. Qed.

(** ** Execution *)
Section Execution.
Context (hmac : list byte -> list byte -> list byte) (hmac_length : forall k m, zlen (hmac k m) = 32).
Context (vec_capacity : list byte -> Z) (vec_capacity_ge : forall v, zlen v <= vec_capacity v).
Context (state : ConnectionState) `{!ServerReady state}.

Lemma reply_ok_vec_reply xid bound r : vec_ok xid bound r -> reply_ok xid bound (vec_reply vec_capacity r).
Proof.
  destruct r as [v|e]; simpl; [|done]. intros ((status & bs & ->) & Hl).
  apply (reply_ok_vec _ vec_capacity_ge). rewrite zlen_app, zlen_reply_header in Hl. done.
Qed.

(** A reply a connection can send: well formed, for this call, within limits. *)
Definition sendable (xid : Z) (reply : EncodedReply) : Prop :=
  reply_wf reply /\ take 4 (wire reply) = be_bytes 4 xid /\
  validate_record_length (Reply.len reply) (record_limits (limits state)) = Ok ().

Lemma accepted_sendable xid status : sendable xid (into_reply vec_capacity (accepted_reply xid status [])).
Proof.
  pose proof (reply_ok_accepted vec_capacity vec_capacity_ge xid 304 status ltac:(lia)) as (Hwf & Hx & Hl).
  split_and!; [done|done|]. pose proof (valid_mutation _ ready_limits) as Hm. unfold MAXIMUM_MUTATION_REPLY_SIZE in Hm.
  apply validate_record_length_iff; [apply ready_limits| |lia]. rewrite (len_wire _ Hwf). apply zlen_nonneg.
Qed.

(** Whatever dispatch returns, what is left is sendable. *)
Lemma bound_reply_sendable xid bound r :
  reply_ok xid bound r -> exists reply, bound_reply vec_capacity xid state r = Ok reply /\ sendable xid reply.
Proof.
  intros Hr. unfold bound_reply.
  assert (exists reply, match r with
    | Ok reply => Ok reply
    | Err (ServerError.Decode _) => Ok (into_reply vec_capacity (accepted_reply xid GARBAGE_ARGS []))
    | Err (ServerError.Encode _) => Ok (into_reply vec_capacity (accepted_reply xid SYSTEM_ERR []))
    | Err error => Err error
    end = Ok reply /\ reply_wf reply /\ take 4 (wire reply) = be_bytes 4 xid) as (reply & -> & Hwf & Hx).
  { destruct r as [reply|e]; [destruct Hr as (? & ? & _); by exists reply|].
    destruct e; try done; destruct (accepted_sendable xid SYSTEM_ERR) as (? & ? & _);
      destruct (accepted_sendable xid GARBAGE_ARGS) as (? & ? & _); by eexists. }
  cbn [mbind result_bind]. cbv zeta.
  destruct (validate_record_length (Reply.len reply) _) as [[]|] eqn:Ev; [by exists reply|].
  destruct (accepted_sendable xid SYSTEM_ERR) as (H1 & H2 & H3). rewrite H3. cbn [map_err mbind result_bind].
  eexists. by split.
Qed.

Lemma portmap_ok xid procedure args :
  vec_ok xid (transport_record_capacity (limits state)) (dispatch_portmap xid procedure args state).
Proof.
  pose proof (capacity_304 state) as Hc.
  assert (forall s, vec_ok xid (transport_record_capacity (limits state)) (Ok (accepted_reply xid s []))) as Hacc.
  { intros s. apply vec_ok_accepted. change (zlen []) with 0. lia. }
  unfold dispatch_portmap. destruct (procedure =? 0); [destruct (_ =? 0); apply Hacc|].
  destruct (procedure =? 3); [|apply Hacc]. destruct (Decoder.decode_all _ _); [|done].
  cbn [map_err mbind result_bind]. cbv zeta. apply vec_ok_accepted. unfold Encoder.into_bytes, Encoder.write_u32. simpl.
  rewrite zlen_be_bytes. lia.
Qed.

(** The effects an admitted call may have. *)
Definition call_effect (c : admitted_call) (e : effect) : Prop :=
  (ac_program c = NFS_PROGRAM /\
   justified hmac (ac_procedure c) (ac_arguments c) (ac_context c) state e) \/
  (ac_program c = MOUNT_PROGRAM /\ mount_effect (ac_context c) state e).

Lemma wp_dispatch_call c :
  zlen (ac_arguments c) <= isize_max ->
  wp (call_effect c) (fun _ _ => True) (reply_ok (ac_xid c) (u32_max + 200))
    (dispatch_call hmac vec_capacity (ac_xid c) (ac_program c) (ac_version c) (ac_procedure c) (ac_arguments c)
       (ac_context c) state).
Proof.
  intros Hargs. pose proof (transport_capacity_bound _ ready_limits) as Hcap. pose proof (capacity_304 state) as Hc.
  assert (forall r bound, bound <= u32_max + 200 -> reply_ok (ac_xid c) bound r -> reply_ok (ac_xid c) (u32_max + 200) r) as Hmono.
  { intros [r|e] bound Hb; [|done]. intros (? & ? & ?). split_and!; [done|done|lia]. }
  assert (forall v, zlen v <= 304 -> (exists s bs, v = reply_header (ac_xid c) s ++ bs) ->
    reply_ok (ac_xid c) (u32_max + 200) (Ok (into_reply vec_capacity v))) as Hvec.
  { intros v Hv (s & bs & ->). apply (reply_ok_vec _ vec_capacity_ge). rewrite zlen_app, zlen_reply_header in Hv.
    unfold u32_max. lia. }
  assert (forall lo hi, reply_ok (ac_xid c) (u32_max + 200) (Ok (into_reply vec_capacity (program_mismatch (ac_xid c) lo hi)))) as Hmis.
  { intros lo hi.
    assert (program_mismatch (ac_xid c) lo hi = reply_header (ac_xid c) PROG_MISMATCH ++ be_bytes 4 lo ++ be_bytes 4 hi) as ->.
    { unfold program_mismatch. rewrite accepted_reply_encoder_output. unfold Encoder.write_u32, Encoder.into_bytes.
      cbn [Encoder.output]. by rewrite <- app_assoc. }
    apply Hvec; [|eauto]. autorewrite with zlen. rewrite zlen_reply_header. lia. }
  unfold dispatch_call. destruct (ac_program c =? NFS_PROGRAM) eqn:E1; zbool.
  { destruct (negb _); [apply Hmis|].
    eapply wp_weaken; [| |apply (wp_dispatch_nfs hmac hmac_length vec_capacity vec_capacity_ge); [apply ready_codec|apply ready_limits|done]].
    - intros e He. by left.
    - intros r. apply Hmono. unfold procedure_bound. destruct (_ =? 5); lia. }
  destruct (ac_program c =? MOUNT_PROGRAM) eqn:E2; zbool.
  { destruct (negb _); [apply Hmis|]. apply wp_bind.
    eapply wp_weaken; [| |apply (wp_dispatch_mount hmac hmac_length (ac_xid c) (ac_context c) state)].
    - intros e He. by right.
    - intros r Hr. cbn [wp]. eapply Hmono; [|by apply reply_ok_vec_reply]. lia. }
  destruct (_ && _).
  { destruct (negb _); [apply Hmis|]. cbn [wp]. eapply Hmono; [|apply reply_ok_vec_reply, portmap_ok]. lia. }
  cbn [wp]. apply (reply_ok_accepted _ vec_capacity_ge). unfold u32_max. lia.
Qed.

Lemma wp_execute_request c :
  zlen (ac_arguments c) <= isize_max ->
  wp (call_effect c) (fun _ _ => True)
    (fun r => exists reply, r = Ok reply /\ sendable (ac_xid c) reply)
    (execute_request hmac vec_capacity c state).
Proof.
  intros Hargs. unfold execute_request. apply wp_bind. eapply wp_weaken; [| |by apply wp_dispatch_call]; [done|].
  intros r Hr. cbn [wp]. destruct (bound_reply_sendable (ac_xid c) _ r Hr) as (reply & -> & Hs). by exists reply.
Qed.

(** C11: every admitted call is answered. Executing any admitted call on a ready
    server, against any backend, never panics and always produces a reply: one
    that carries the call's transaction identifier, is well formed, and passes
    the outbound record checks, whatever the arguments, the backend's answers
    and the sizes involved. Its effects are exactly those NFS and MOUNT requests
    are allowed; other programs have none. *)
Theorem execute_always_replies c :
  zlen (ac_arguments c) <= isize_max ->
  wp (call_effect c) (fun _ _ => True)
    (fun r => exists reply, r = Ok reply /\ sendable (ac_xid c) reply)
    (execute_request hmac vec_capacity c state).
Proof. apply wp_execute_request. Qed.

(** The fallback reply to a record that could not be processed. *)
Lemma error_reply_sendable record :
  4 <= zlen record -> sendable (be_value (slice 0 4 record)) (error_reply vec_capacity record).
Proof.
  intros Hl. unfold error_reply. rewrite (proj2 (Z.leb_le 4 (zlen record)) Hl). apply accepted_sendable.
Qed.
End Execution.

(** ** Witnesses *)

(** A GETATTR call from user 1000. *)
Definition toy_header : call_header :=
  mkCallHeader 77 2 NFS_PROGRAM 3 1 AUTH_SYS (auth_sys_bytes 0 1000 100 [] [Byte.x61]) AUTH_NONE [].
Definition toy_user : Principal.t := Principal.AuthSys 1000 100 [] [Byte.x61].
Definition toy_addr : SocketAddr := mkSocketAddr (V4 1) 700.
Definition toy_call : admitted_call :=
  call_of toy_hmac (fun v => v) toy_header toy_getattr_args toy_user toy_addr toy_state_nfs.

Lemma toy_header_wf : header_wf toy_header.
Proof. unfold header_wf, toy_header, u32_range, u32_max; simpl. split_and!; try lia; by vm_compute. Qed.

Lemma admitted_iff_witness :
  admit_call toy_hmac (fun v => v) zlen (header_bytes toy_header ++ toy_getattr_args) toy_addr toy_state_nfs = Ok (inr toy_call).
Proof.
  apply (proj2 (admitted_iff toy_hmac (fun v => v) zlen (header_bytes toy_header ++ toy_getattr_args) toy_addr
    toy_state_nfs toy_call ltac:(by vm_compute))).
  exists toy_header, toy_getattr_args, toy_user. split_and!; [done|exact toy_header_wf|done|done|done|by vm_compute|by right|done].
Defined.

Lemma fingerprint_identifies_witness :
  NFS_PROGRAM = NFS_PROGRAM /\ 3 = 3 /\ 1 = 1 /\ toy_getattr_args = toy_getattr_args /\
  NfsArguments.GetAttr (mkObjectArgs (encode toy_hmac toy_codec 1 toy_key)) =
    NfsArguments.GetAttr (mkObjectArgs (encode toy_hmac toy_codec 1 toy_key)) /\ toy_user = toy_user.
Proof.
  assert (principal_wf toy_user) as Hu.
  { unfold principal_wf, toy_user, u32_range, u32_max, MAX_GROUPS, MAX_MACHINE_NAME. simpl.
    split_and!; try done; try lia; apply Forall_nil_2. }
  apply (fingerprint_identifies 1000); try done; by (vm_compute || (split; by vm_compute)).
Defined.

Lemma execute_always_replies_witness :
  wp (call_effect toy_hmac toy_started toy_call) (fun _ _ => True)
    (fun r => exists reply, r = Ok reply /\ sendable toy_started (ac_xid toy_call) reply)
    (execute_request toy_hmac zlen toy_call toy_started).
Proof.
  pose proof toy_started_ready as Hready.
  exact (execute_always_replies toy_hmac toy_hmac_length zlen (fun v => Z.le_refl (zlen v)) toy_started toy_call
    ltac:(by vm_compute)).
Defined.
