(* ===== verification/Service.v ===== *)
(** * The server as a transition system

    [dispatch_record] of [src/server/connection.rs] with the replay cache, the
    execution tasks and the backend together: any number of connections submit
    records, each admitted call that leads is run by its own task, tasks
    interleave at every backend call, and a task can be cut off at any point (a
    deadline, shutdown, or a failed permit) by dropping its lease. *)
From S2P Require Import Prelude Replay RpcCodec VfsTypes RpcAuth NfsProcedures NfsCodec RpcRecord Reply Handles Limits Vfs Connection Mount Execute Builder Serving Contracts Mounting Calls.
From stdpp Require Import list gmap.
#[local] Open Scope Z_scope.

(** A spawned execution: its call and what is left of [execute_request]. *)
Record task : Type := mkTask {
  t_call : admitted_call;
  t_prog : prog (result ServerError.t EncodedReply)
}.

(** [w_next] numbers the [oneshot] channels: each [begin] brings one of its own. *)
Record world (St : Type) : Type := mkWorld {
  w_replay : system;
  w_tasks : gmap ReplayEntryKey task;
  w_backend : St * MountTable;
  w_next : waiter
}.
Arguments mkWorld {St} _ _ _ _.
Arguments w_replay {St} _.
Arguments w_tasks {St} _.
Arguments w_backend {St} _.
Arguments w_next {St} _.

(** What happens, as an observer of the server sees it. *)
Inductive action : Type :=
| Denied (reply : EncodedReply)
| Called (c : admitted_call) (d : result ReplayError ReplayDecision)
| Performed (k : ReplayEntryKey) (e : effect)
| Replied (k : ReplayEntryKey) (reply : EncodedReply)
| Stored (k : ReplayEntryKey) (out : deliveries)
| Abandoned (k : ReplayEntryKey) (out : deliveries).

Section Service.
Context (hmac : list byte -> list byte -> list byte) (sha256 : list byte -> list byte).
Context (vec_capacity : list byte -> Z) (with_capacity : Z -> Z).
Context (state : ConnectionState) (cache : ReplayCache).
Context {St : Type} (answer : forall op, vfs_ref -> St -> VfsOp.response op * St).

Definition start (c : admitted_call) : task := mkTask c (execute_request hmac vec_capacity c state).

Definition spawn (c : admitted_call) (d : result ReplayError ReplayDecision) (m : gmap ReplayEntryKey task) :=
  match d with Ok (Execute k) => <[k := start c]> m | _ => m end.

Inductive wstep : world St -> action -> world St -> Prop :=
| wstep_denied w record addr reply :
    admit_call hmac sha256 vec_capacity record addr state = Ok (inl reply) ->
    wstep w (Denied reply) w
| wstep_garbled w record addr error :
    admit_call hmac sha256 vec_capacity record addr state = Err error ->
    wstep w (Denied (error_reply vec_capacity record)) w
| wstep_called w record addr c now is_closed d i' :
    zlen record <= isize_max ->
    admit_call hmac sha256 vec_capacity record addr state = Ok (inr c) ->
    begin cache (inner (w_replay w)) now is_closed (w_next w) (ac_key c) (ac_fingerprint c) = (d, i') ->
    wstep w (Called c d) (mkWorld
      (mkSystem i' (granted d (leases (w_replay w))) (clock_now (w_replay w)))
      (spawn c d (w_tasks w)) (w_backend w) (S (w_next w)))
| wstep_performed w k c e cont r b' :
    w_tasks w !! k = Some (mkTask c (Do e cont)) ->
    answer_effect answer e (w_backend w) = (r, b') ->
    wstep w (Performed k e) (mkWorld (w_replay w) (<[k := mkTask c (cont r)]> (w_tasks w)) b' (w_next w))
| wstep_replied w k c reply s' :
    w_tasks w !! k = Some (mkTask c (Ret (Ok reply))) ->
    leases (w_replay w) !! k = Some Holding ->
    s' = mkSystem (inner (w_replay w))
           (<[k := Completing reply (prepare_storage with_capacity cache (inner (w_replay w)) k reply)]>
              (leases (w_replay w))) (clock_now (w_replay w)) ->
    wstep w (Replied k reply) (mkWorld s' (delete k (w_tasks w)) (w_backend w) (w_next w))
| wstep_stored w k out s' :
    step with_capacity cache (w_replay w) (Finished k out) s' ->
    wstep w (Stored k out) (mkWorld s' (w_tasks w) (w_backend w) (w_next w))
| wstep_abandoned w k out s' :
    step with_capacity cache (w_replay w) (Dropped k out) s' ->
    wstep w (Abandoned k out) (mkWorld s' (delete k (w_tasks w)) (w_backend w) (w_next w)).

(** [wsteps w l w']: the actions [l], oldest first. *)
Inductive wsteps : world St -> list action -> world St -> Prop :=
| wsteps_nil w : wsteps w [] w
| wsteps_snoc w l w' a w'' : wsteps w l w' -> wstep w' a w'' -> wsteps w (l ++ [a]) w''.

Definition winitial (t : Z) (b : St) : world St := mkWorld (initial t) ∅ (b, []) 0%nat.

(** The replay-cache events of a run. *)
Definition replay_event (a : action) : list event :=
  match a with
  | Called c d => [Began (ac_key c) (ac_fingerprint c) d]
  | Replied k _ => [Prepared k]
  | Stored k out => [Finished k out]
  | Abandoned k out => [Dropped k out]
  | Denied _ | Performed _ _ => []
  end.
Definition replay_events (l : list action) : list event := concat (map replay_event l).

(** The state changes made on behalf of lease [k]. *)
Definition mutates_for (k : ReplayEntryKey) (a : action) : bool :=
  match a with Performed k' e => bool_decide (k' = k) && mutating_effect e | _ => false end.
Definition mutations_for (k : ReplayEntryKey) (l : list action) : nat :=
  length (List.filter (mutates_for k) l).

(** The state changes a call is entitled to. *)
Definition entitled (c : admitted_call) : nat :=
  if (ac_program c =? NFS_PROGRAM) && mutating_procedure (ac_procedure c) then 1 else 0.

(** ** Invariants *)

Lemma mutations_bind {A B} n (p : prog A) (f : A -> prog B) :
  mutations n p -> (forall a, mutations 0 (f a)) -> mutations n (p ≫= f).
Proof.
  intros Hp Hf. revert n Hp. induction p as [a|[v op|op] k IH|]; intros n Hp; simpl in *; try done.
  - eapply mutations_weaken; [|apply Hf]. lia.
  - destruct (VfsOp.mutates op); [destruct n; [done|]|]; intros r; by apply IH.
  - intros r. by apply IH.
Qed.

(** A program none of whose permitted effects changes the file system. *)
Lemma wp_mutations {A} P (Q : A -> Prop) p :
  (forall e, P e -> mutating_effect e = false) -> wp P (fun _ _ => True) Q p -> mutations 0 p.
Proof.
  intros HP. induction p as [a|[v op|op] k IH|]; simpl; try done.
  - intros [Hop Hk]. apply HP in Hop. simpl in Hop. rewrite Hop. intros r. by apply IH, Hk.
  - intros [_ Hk] r. by apply IH, Hk.
Qed.

Context (hmac_length : forall k m, zlen (hmac k m) = 32) (vec_capacity_ge : forall v, zlen v <= vec_capacity v).
Context `{!ServerReady state}.

Lemma mutations_execute c :
  zlen (ac_arguments c) <= isize_max -> mutations (entitled c) (execute_request hmac vec_capacity c state).
Proof.
  intros Hargs. unfold execute_request. apply mutations_bind; [|done]. unfold entitled, dispatch_call.
  destruct (ac_program c =? NFS_PROGRAM); cbn [andb].
  { destruct (negb _); [done|]. by apply mutations_dispatch_nfs. }
  destruct (ac_program c =? MOUNT_PROGRAM).
  { destruct (negb _); [done|]. apply mutations_bind; [|done].
    eapply wp_mutations; [|apply (wp_dispatch_mount hmac hmac_length (ac_xid c) (ac_context c) state)].
    intros [v op|op]; simpl; [by intros [? _]|done]. }
  destruct (_ && _); [|done]. by destruct (negb _).
Qed.

(** What a task has left to do is allowed. *)
Record task_ok (budget : nat) (c : admitted_call) (p : prog (result ServerError.t EncodedReply)) : Prop := {
  task_wp : wp (call_effect hmac state c) (fun _ _ => True)
    (fun r => exists reply, r = Ok reply /\ sendable state (ac_xid c) reply) p;
  task_mutations : mutations budget p
}.

Lemma start_ok c : zlen (ac_arguments c) <= isize_max -> task_ok (entitled c) c (t_prog (start c)).
Proof.
  intros Hargs. split; [|by apply mutations_execute].
  by apply (wp_execute_request hmac hmac_length vec_capacity vec_capacity_ge state).
Qed.

Definition cost (e : effect) : nat := if mutating_effect e then 1 else 0.

Lemma task_step budget c e cont r :
  task_ok budget c (Do e cont) ->
  call_effect hmac state c e /\ (cost e <= budget)%nat /\ task_ok (budget - cost e) c (cont r).
Proof.
  intros [[He Hk] Hm]. split; [done|]. unfold cost. destruct e as [v op|op]; simpl in *.
  - destruct (VfsOp.mutates op); [destruct budget as [|b]; [done|]|]; (split; [lia|]); (split; [by apply Hk|]).
    + simpl. rewrite Nat.sub_0_r. apply Hm.
    + rewrite Nat.sub_0_r. apply Hm.
  - split; [lia|]. split; [by apply Hk|]. rewrite Nat.sub_0_r. apply Hm.
Qed.

Lemma admitted_arguments record addr c :
  zlen record <= isize_max -> admit_call hmac sha256 vec_capacity record addr state = Ok (inr c) ->
  zlen (ac_arguments c) <= isize_max.
Proof.
  intros Hl H. apply admit_call_iff in H as (h & args & p & -> & _ & _ & _ & _ & _ & _ & ->); [|done].
  rewrite zlen_app in Hl. pose proof (zlen_nonneg (header_bytes h)). simpl. lia.
Qed.

Lemma begin_execute s now is_closed receive r f k i' :
  system_inv cache s -> 0 <= next_generation (inner s) < u64_max ->
  begin cache (inner s) now is_closed receive r f = (Ok (Execute k), i') ->
  k = mkEntryKey r f (next_generation (inner s)) /\ next_generation i' = next_generation (inner s) + 1.
Proof.
  intros Hs Hn Hb. pose proof (begin_inv cache (clock_now s) (inner s) now is_closed receive r f (sys_cache _ s Hs) Hn) as H.
  rewrite Hb in H. destruct H as [_ Ho].
  destruct (expire_inv cache _ _ (inner s) now (sys_cache _ s Hs)) as (_ & S1 & _).
  assert (admission_outcome cache (expire (inner s) now (ttl cache)) r f (Ok (Execute k)) i') as [[? _]|(i2 & S2 & -> & [= ->])];
    [|done|].
  - unfold begin_outcome in Ho. destruct (view _ _) as [[l [ws|rep c u]]|]; [..|done];
      (destruct (bool_decide _); [by destruct Ho|done]).
  - rewrite (sheds_next _ _ S1). split; [done|]. simpl. rewrite (sheds_next _ _ S2), (sheds_next _ _ S1).
    by apply wrapping_succ.
Qed.

(** The lease an action belongs to. *)
Definition action_lease (a : action) : option ReplayEntryKey :=
  match a with
  | Called _ (Ok (Execute k)) => Some k
  | Performed k _ | Replied k _ | Stored k _ | Abandoned k _ => Some k
  | _ => None
  end.

Record service_inv (t : Z) (l : list action) (w : world St) : Prop := {
  si_replay : steps with_capacity cache (initial t) (replay_events l) (w_replay w);
  si_task k c p : w_tasks w !! k = Some (mkTask c p) ->
    leases (w_replay w) !! k = Some Holding /\ Called c (Ok (Execute k)) ∈ l /\
    (mutations_for k l <= entitled c)%nat /\ task_ok (entitled c - mutations_for k l) c p;
  si_fresh a k : a ∈ l -> action_lease a = Some k -> entry_generation k < next_generation (inner (w_replay w));
  si_mutations k c : Called c (Ok (Execute k)) ∈ l -> (mutations_for k l <= entitled c)%nat;
  si_unique k c c' : Called c (Ok (Execute k)) ∈ l -> Called c' (Ok (Execute k)) ∈ l -> c = c';
  si_performed k e : Performed k e ∈ l -> exists c, Called c (Ok (Execute k)) ∈ l /\ call_effect hmac state c e;
  si_replied k reply : Replied k reply ∈ l ->
    exists c, Called c (Ok (Execute k)) ∈ l /\ sendable state (ac_xid c) reply;
  si_called c d : Called c d ∈ l -> exists record addr,
    admit_call hmac sha256 vec_capacity record addr state = Ok (inr c) /\
    forall k, d = Ok (Execute k) -> request k = ac_key c /\ fingerprint k = ac_fingerprint c
}.

Lemma mutations_for_snoc k l a :
  mutations_for k (l ++ [a]) = (mutations_for k l + if mutates_for k a then 1 else 0)%nat.
Proof. unfold mutations_for. rewrite List.filter_app, length_app. simpl. by destruct (mutates_for k a). Qed.

Lemma mutations_for_fresh k l : (forall a, a ∈ l -> action_lease a <> Some k) -> mutations_for k l = 0%nat.
Proof.
  intros H. unfold mutations_for. destruct (List.filter _ l) as [|a l'] eqn:E; [done|]. exfalso.
  assert (In a (List.filter (mutates_for k) l)) as Hin by (rewrite E; by left).
  apply filter_In in Hin as [Hin Hm]. apply list_elem_of_In in Hin. apply (H a Hin).
  destruct a; simpl in Hm |- *; try done. apply andb_true_iff in Hm as [Hm _]. by apply bool_decide_eq_true in Hm as ->.
Qed.

Lemma replay_events_snoc l a : replay_events (l ++ [a]) = replay_events l ++ replay_event a.
Proof. unfold replay_events. rewrite map_app, concat_app. simpl. by rewrite app_nil_r. Qed.

(** What one action has to establish; the rest is carried over. *)
Lemma service_inv_snoc t l w a w' :
  service_inv t l w ->
  steps with_capacity cache (initial t) (replay_events l ++ replay_event a) (w_replay w') ->
  next_generation (inner (w_replay w)) <= next_generation (inner (w_replay w')) ->
  (forall k, action_lease a = Some k -> entry_generation k < next_generation (inner (w_replay w'))) ->
  (forall k c p, w_tasks w' !! k = Some (mkTask c p) ->
     leases (w_replay w') !! k = Some Holding /\ Called c (Ok (Execute k)) ∈ l ++ [a] /\
     (mutations_for k (l ++ [a]) <= entitled c)%nat /\ task_ok (entitled c - mutations_for k (l ++ [a])) c p) ->
  (forall k c, Called c (Ok (Execute k)) ∈ l ++ [a] -> (mutations_for k (l ++ [a]) <= entitled c)%nat) ->
  (forall k e, a = Performed k e -> exists c, Called c (Ok (Execute k)) ∈ l /\ call_effect hmac state c e) ->
  (forall k reply, a = Replied k reply -> exists c, Called c (Ok (Execute k)) ∈ l /\ sendable state (ac_xid c) reply) ->
  (forall c d, a = Called c d -> exists record addr,
     admit_call hmac sha256 vec_capacity record addr state = Ok (inr c) /\
     forall k, d = Ok (Execute k) -> request k = ac_key c /\ fingerprint k = ac_fingerprint c) ->
  (forall c k, a = Called c (Ok (Execute k)) -> next_generation (inner (w_replay w)) <= entry_generation k) ->
  service_inv t (l ++ [a]) w'.
Proof.
  intros [] Hs Hg Hf Ht Hm Hp Hr Hc Hu. split; try done.
  - by rewrite replay_events_snoc.
  - intros b k Hin Hk. apply elem_of_app in Hin as [Hin|Hin%list_elem_of_singleton]; [|subst; by apply Hf].
    specialize (si_fresh0 b k Hin Hk). lia.
  - intros k c c' H1 H2. apply elem_of_app in H1 as [H1|H1%list_elem_of_singleton], H2 as [H2|H2%list_elem_of_singleton];
      [by apply (si_unique0 k)| | |congruence].
    + pose proof (Hu _ _ (eq_sym H2)). pose proof (si_fresh0 _ k H1 eq_refl). lia.
    + pose proof (Hu _ _ (eq_sym H1)). pose proof (si_fresh0 _ k H2 eq_refl). lia.
  - intros k e Hin. apply elem_of_app in Hin as [Hin|Hin%list_elem_of_singleton].
    + destruct (si_performed0 _ _ Hin) as (c & ? & ?). exists c. split; [apply elem_of_app; by left|done].
    + destruct (Hp k e (eq_sym Hin)) as (c & ? & ?). exists c. split; [apply elem_of_app; by left|done].
  - intros k reply Hin. apply elem_of_app in Hin as [Hin|Hin%list_elem_of_singleton].
    + destruct (si_replied0 _ _ Hin) as (c & ? & ?). exists c. split; [apply elem_of_app; by left|done].
    + destruct (Hr k reply (eq_sym Hin)) as (c & ? & ?). exists c. split; [apply elem_of_app; by left|done].
  - intros c d Hin. apply elem_of_app in Hin as [Hin|Hin%list_elem_of_singleton]; [by apply si_called0|by apply Hc].
Qed.

(** Actions that neither start a task nor touch the backend. *)
Definition quiet (a : action) : Prop :=
  match a with Called _ (Ok (Execute _)) | Performed _ _ => False | _ => True end.

Lemma quiet_mutations a k l : quiet a -> mutations_for k (l ++ [a]) = mutations_for k l.
Proof. intros Hq. rewrite mutations_for_snoc. destruct a as [| c d | | | |]; simpl in *; lia || done. Qed.

Lemma quiet_called a c k l : quiet a -> Called c (Ok (Execute k)) ∈ l ++ [a] -> Called c (Ok (Execute k)) ∈ l.
Proof. intros Hq. rewrite elem_of_app, list_elem_of_singleton. intros [?|<-]; done. Qed.

Lemma service_quiet t l w a w' :
  service_inv t l w -> quiet a ->
  steps with_capacity cache (initial t) (replay_events l ++ replay_event a) (w_replay w') ->
  next_generation (inner (w_replay w)) <= next_generation (inner (w_replay w')) ->
  (forall k, action_lease a = Some k -> entry_generation k < next_generation (inner (w_replay w'))) ->
  (forall k x, w_tasks w' !! k = Some x -> w_tasks w !! k = Some x /\
     leases (w_replay w') !! k = leases (w_replay w) !! k) ->
  (forall k reply, a = Replied k reply -> exists c, Called c (Ok (Execute k)) ∈ l /\ sendable state (ac_xid c) reply) ->
  (forall c d, a = Called c d -> exists record addr,
     admit_call hmac sha256 vec_capacity record addr state = Ok (inr c) /\
     forall k, d = Ok (Execute k) -> request k = ac_key c /\ fingerprint k = ac_fingerprint c) ->
  service_inv t (l ++ [a]) w'.
Proof.
  intros Hi Hq Hs Hg Hf Ht Hr Hc. apply (service_inv_snoc t l w); try done.
  - intros k c p Hk. destruct (Ht k _ Hk) as [Hk' Hl]. rewrite Hl, (quiet_mutations a k l Hq).
    destruct (si_task _ _ _ Hi k c p Hk') as (? & ? & ? & ?). split_and!; try done. apply elem_of_app. by left.
  - intros k c Hin. rewrite (quiet_mutations a k l Hq). apply (si_mutations _ _ _ Hi). by eapply quiet_called.
  - by intros k e ->.
  - by intros c k ->.
Qed.

Context (capacity_nonneg : 0 <= Replay.capacity cache) (bytes_nonneg : 0 <= max_completed_bytes cache < usize_max)
  (with_capacity_ge : forall n, n <= with_capacity n).

Lemma lease_generation s k :
  system_inv cache s -> is_Some (leases s !! k) -> entry_generation k < next_generation (inner s).
Proof.
  intros Hs Hk. apply (sys_leases _ s Hs), in_flight_iff in Hk as [ws Hk].
  apply (inv_generation _ _ _ _ (sys_cache _ s Hs)). left. by eexists.
Qed.

(** The replay part of a reachable world. *)
Lemma service_replay t l w :
  service_inv t l w -> begins (replay_events l) <= u64_max ->
  system_inv cache (w_replay w) /\ 0 <= next_generation (inner (w_replay w)) <= begins (replay_events l).
Proof. intros Hi Hb. by eapply (steps_inv with_capacity cache); [..|apply Hi|]. Qed.

Lemma begins_nonneg es : 0 <= begins es.
Proof. apply zlen_nonneg. Qed.

(** A step of the replay cache that is not a [begin]. *)
Lemma service_lease_step t l w a k e s' tasks :
  service_inv t l w -> begins (replay_events l) <= u64_max ->
  quiet a -> replay_event a = [e] -> ~ is_begin e -> action_lease a = Some k ->
  step with_capacity cache (w_replay w) e s' -> is_Some (leases (w_replay w) !! k) ->
  (forall k' x, tasks !! k' = Some x -> w_tasks w !! k' = Some x /\ leases s' !! k' = leases (w_replay w) !! k') ->
  (forall k reply, a = Replied k reply -> exists c, Called c (Ok (Execute k)) ∈ l /\ sendable state (ac_xid c) reply) ->
  (forall c d, a <> Called c d) ->
  service_inv t (l ++ [a]) (mkWorld s' tasks (w_backend w) (w_next w)).
Proof.
  intros Hi Hb Hq He Hnb Hk Hst Hl Ht Hr Hc. destruct (service_replay t l w Hi Hb) as [Hs Hn].
  pose proof (step_inv with_capacity cache bytes_nonneg with_capacity_ge _ _ _ Hs (or_intror Hnb) Hst) as [_ Hg].
  pose proof (lease_generation _ _ Hs Hl) as Hlt.
  apply (service_quiet t l w); try done.
  - rewrite He. simpl. eapply steps_snoc; [apply Hi|done].
  - simpl. lia.
  - intros k' Hk'. assert (k' = k) as -> by congruence. simpl. lia.
  - intros c d Ha. by destruct (Hc c d).
Qed.

Lemma service_performed t l w k c e cont r b' :
  service_inv t l w -> w_tasks w !! k = Some (mkTask c (Do e cont)) ->
  begins (replay_events l) <= u64_max ->
  service_inv t (l ++ [Performed k e]) (mkWorld (w_replay w) (<[k := mkTask c (cont r)]> (w_tasks w)) b' (w_next w)).
Proof.
  intros Hi Hk Hb. destruct (si_task _ _ _ Hi k c _ Hk) as (Hl & Hc & Hm & Hok).
  destruct (service_replay t l w Hi Hb) as [Hs _].
  destruct (task_step _ c e cont r Hok) as (He & Hcost & Hok').
  assert (mutations_for k (l ++ [Performed k e]) = mutations_for k l + cost e)%nat as Hk1.
  { rewrite mutations_for_snoc. unfold cost. simpl. by rewrite bool_decide_eq_true_2. }
  assert (forall k', k' <> k -> mutations_for k' (l ++ [Performed k e]) = mutations_for k' l) as Hne.
  { intros k' Hne. rewrite mutations_for_snoc. simpl. rewrite bool_decide_eq_false_2 by congruence. simpl. lia. }
  apply (service_inv_snoc t l w); simpl; try done.
  - rewrite app_nil_r. apply Hi.
  - intros k' [= <-]. apply (lease_generation _ _ Hs). by eexists.
  - intros k' c' p Hk'. destruct (decide (k' = k)) as [->|Hn].
    + rewrite lookup_insert_eq in Hk'. injection Hk' as <- <-. rewrite Hk1.
      split_and!; [done|apply elem_of_app; by left|lia|]. by rewrite Nat.sub_add_distr.
    + rewrite lookup_insert_ne in Hk' by done. rewrite (Hne k' Hn).
      destruct (si_task _ _ _ Hi k' c' p Hk') as (? & ? & ? & ?). split_and!; try done. apply elem_of_app. by left.
  - intros k' c' Hin. apply elem_of_app in Hin as [Hin|Hin%list_elem_of_singleton]; [|done].
    pose proof (si_mutations _ _ _ Hi k' c' Hin). destruct (decide (k' = k)) as [->|Hn]; [|by rewrite Hne].
    rewrite Hk1. assert (c' = c) as ->; [|lia].
    exact (si_unique _ _ _ Hi k c' c Hin Hc).
  - intros k' e' [= <- <-]. by exists c.
Qed.

Lemma service_called t l w record addr c now is_closed receive d i' :
  service_inv t l w -> zlen record <= isize_max ->
  admit_call hmac sha256 vec_capacity record addr state = Ok (inr c) ->
  begin cache (inner (w_replay w)) now is_closed receive (ac_key c) (ac_fingerprint c) = (d, i') ->
  begins (replay_events l) < u64_max ->
  service_inv t (l ++ [Called c d]) (mkWorld
    (mkSystem i' (granted d (leases (w_replay w))) (clock_now (w_replay w))) (spawn c d (w_tasks w)) (w_backend w) (S (w_next w))).
Proof.
  intros Hi Hrec Hadm Hbeg Hb. destruct (service_replay t l w Hi ltac:(lia)) as [Hs Hn].
  destruct (begin_step_inv cache bytes_nonneg _ _ _ _ _ _ _ _ Hs ltac:(lia) Hbeg) as [_ Hg].
  assert (steps with_capacity cache (initial t) (replay_events l ++ [Began (ac_key c) (ac_fingerprint c) d])
    (mkSystem i' (granted d (leases (w_replay w))) (clock_now (w_replay w)))) as Hsteps.
  { eapply steps_snoc; [apply Hi|]. by eapply step_begin. }
  destruct d as [[k|rep|rx]|e].
  { destruct (begin_execute _ _ _ _ _ _ _ _ Hs ltac:(lia) Hbeg) as [-> Hnext].
    set (k := mkEntryKey _ _ _) in *.
    assert (mutations_for k l = 0%nat) as H0.
    { apply mutations_for_fresh. intros a Ha Hk. pose proof (si_fresh _ _ _ Hi a k Ha Hk). simpl in *. lia. }
    assert (forall k', mutations_for k' (l ++ [Called c (Ok (Execute k))]) = mutations_for k' l) as Hm.
    { intros k'. rewrite mutations_for_snoc. simpl. lia. }
    apply (service_inv_snoc t l w); cbn [w_replay w_tasks inner leases granted spawn]; try done.
    - lia.
    - intros k' [= <-]. simpl. lia.
    - intros k' c' p Hk'. rewrite Hm. destruct (decide (k' = k)) as [->|Hne].
      + rewrite lookup_insert_eq in Hk'. injection Hk' as <- <-. rewrite lookup_insert_eq, H0, Nat.sub_0_r.
        split_and!; [done|apply elem_of_app; right; by apply list_elem_of_singleton|lia|].
        by eapply start_ok, admitted_arguments.
      + rewrite lookup_insert_ne in Hk' by done. rewrite lookup_insert_ne by done.
        destruct (si_task _ _ _ Hi k' c' p Hk') as (? & ? & ? & ?). split_and!; try done. apply elem_of_app. by left.
    - intros k' c' Hin. rewrite Hm. apply elem_of_app in Hin as [Hin|Hin%list_elem_of_singleton].
      + by apply (si_mutations _ _ _ Hi).
      + injection Hin as -> ->. rewrite H0. lia.
    - intros c' d' [= <- <-]. exists record, addr. split; [done|]. by intros k' [= <-].
    - intros c' k' [= _ <-]. done. }
  all: apply (service_quiet t l w); cbn [w_replay w_tasks inner leases granted spawn]; try done; try lia;
    intros c' d' [= <- <-]; exists record, addr; by split.
Qed.

(** Every step preserves the invariant, for fewer than 2^64 calls. *)
Lemma service_step t l w a w' :
  service_inv t l w -> wstep w a w' -> begins (replay_events (l ++ [a])) <= u64_max -> service_inv t (l ++ [a]) w'.
Proof.
  intros Hi Hst. rewrite replay_events_snoc, begins_app. pose proof (begins_nonneg (replay_event a)) as Hnn. intros Hb.
  assert (begins (replay_events l) <= u64_max) as Hb' by lia.
  destruct (service_replay t l w Hi Hb') as [Hs _].
  destruct Hst as [w record addr reply _|w record addr error _|w record addr c now is_closed d i' Hrec Hadm Hbeg
    |w k c e cont r b' Hk Ha|w k c reply s' Hk Hl ->|w k out s' Hst|w k out s' Hst].
  - apply (service_quiet t l w); simpl; try done. rewrite app_nil_r. apply Hi.
  - apply (service_quiet t l w); simpl; try done. rewrite app_nil_r. apply Hi.
  - eapply service_called; try done.
    assert (begins (replay_event (Called c d)) = 1) by done. lia.
  - by eapply service_performed.
  - destruct (si_task _ _ _ Hi k c _ Hk) as (_ & Hc & _ & Hok). destruct Hok as [Hwp _].
    destruct Hwp as (reply' & [= <-] & Hsend).
    apply (service_lease_step t l w (Replied k reply) k (Prepared k)); try done.
    + intros [].
    + by apply step_prepare; [|apply Hsend].
    + intros k' x Hx. apply lookup_delete_Some in Hx as [Hne Hx]. split; [done|]. simpl. by rewrite lookup_insert_ne.
    + intros k' r' [= <- <-]. by exists c.
  - assert (exists reply st, leases (w_replay w) !! k = Some (Completing reply st) /\ leases s' = delete k (leases (w_replay w)))
      as (reply & st & Hk & Hl') by (inversion Hst; subst; simpl; eauto).
    apply (service_lease_step t l w (Stored k out) k (Finished k out)); try done; [intros []|].
    intros k' x Hx. split; [done|]. rewrite Hl'. destruct (decide (k' = k)) as [->|Hne]; [|by rewrite lookup_delete_ne].
    destruct x as [c p]. destruct (si_task _ _ _ Hi k c p Hx) as [Hh _]. congruence.
  - assert (is_Some (leases (w_replay w) !! k) /\ leases s' = delete k (leases (w_replay w)))
      as [Hk Hl'] by (inversion Hst; subst; simpl; eauto).
    apply (service_lease_step t l w (Abandoned k out) k (Dropped k out)); try done; [intros []|].
    intros k' x Hx. apply lookup_delete_Some in Hx as [Hne Hx]. split; [done|]. rewrite Hl'. by rewrite lookup_delete_ne.
Qed.

Lemma service_initial t b : service_inv t [] (winitial t b).
Proof.
  split; simpl; try (intros; by match goal with H : _ ∈ [] |- _ => apply elem_of_nil in H end).
  - apply steps_nil.
  - intros k c p H. by rewrite lookup_empty in H.
Qed.

Lemma service_steps t b l w :
  wsteps (winitial t b) l w -> begins (replay_events l) <= u64_max -> service_inv t l w.
Proof.
  intros H. remember (winitial t b) as w0 eqn:E0. induction H as [w|w l w' a w'' Hst IH Hs]; subst.
  - intros _. apply service_initial.
  - intros Hb. apply (service_step t l w'); [|done|done]. apply IH; [done|].
    rewrite replay_events_snoc, begins_app in Hb. pose proof (begins_nonneg (replay_event a)). lia.
Qed.

(** ** Replayed replies are genuine *)

Lemma remove_completed_entries i k k' st : entries (remove_completed i k) !! k' = Some st -> entries i !! k' = Some st.
Proof.
  unfold remove_completed, forget_latest. repeat case_match; simpl; intros Hd; by apply lookup_delete_Some in Hd as [_ ?].
Qed.

Lemma evict_entries i k st : entries (evict_oldest_completed i).2 !! k = Some st -> entries i !! k = Some st.
Proof.
  unfold evict_oldest_completed. generalize (completed_order i). intros order. revert i.
  induction order as [|k0 order IH]; intros i; simpl; [done|]. destruct (is_completed _ k0); [|apply (IH (with_order order i))].
  simpl. intros Hd. by apply remove_completed_entries in Hd.
Qed.

Lemma make_room_entries fuel i n k st : entries (make_room fuel cache i n) !! k = Some st -> entries i !! k = Some st.
Proof.
  revert i. induction fuel as [|fuel IH]; intros i; simpl; destruct (_ <? _); try done.
  pose proof (evict_entries i k st) as He. destruct (evict_oldest_completed i) as [[] i']; simpl in He; [|done].
  intros Hm. by apply He, IH.
Qed.

(** Only [complete] stores a reply, the one prepared for its own key. *)
Lemma complete_entries i k reply st now i' out k' rep c u :
  complete cache i k reply st now = (i', out) -> entries i' !! k' = Some (Completed rep c u) ->
  entries i !! k' = Some (Completed rep c u) \/ (k' = k /\ exists c', st = Some (rep, c')).
Proof.
  unfold complete. destruct (entries i !! k) as [[ws|]|] eqn:Ek; try (intros [= <- <-]; by left).
  set (i1 := with_entries _ i). assert (forall x, entries i1 !! k' = Some x -> entries i !! k' = Some x) as Hsub.
  { intros x Hx. simpl in Hx. by apply lookup_delete_Some in Hx as [_ ?]. }
  destruct (is_latest i1 k) eqn:El; cbn [andb]; [|intros [= <- <-] He; left; by apply Hsub].
  destruct st as [[rep' c']|]; [|intros [= <- <-] He; left; by apply Hsub].
  unfold retain_reply. destruct (c' <=? _); [|intros [= <- <-] He; left; by apply Hsub].
  set (i2 := make_room _ _ _ _). destruct (_ <=? _).
  2:{ intros [= <- <-] He. change (entries i2 !! k' = Some (Completed rep c u)) in He. left. by apply make_room_entries, Hsub in He. }
  intros [= <- _]. cbn [negb]. unfold compact_completion_order.
  assert (forall (b : bool) o j, entries (if b then with_order o j else j) = entries j) as Hord by (by intros []).
  rewrite Hord. simpl. intros He. apply lookup_insert_Some in He as [[<- [= -> _ _]]|[_ He]]; [right; eauto|].
  left. by apply make_room_entries, Hsub in He.
Qed.

(** Every waiter is sent the reply. *)
Lemma complete_out i k reply st now i' out :
  complete cache i k reply st now = (i', out) -> Forall (fun d => d.2 = Ok reply) out.
Proof.
  unfold complete. intros H.
  destruct (entries i !! k) as [[ws|]|]; try (injection H as _ <-; by apply Forall_nil_2).
  set (m := match is_latest _ _ with true => _ | false => _ end) in H. destruct m as [b j]. injection H as _ <-.
  apply Forall_fmap, Forall_forall. by intros x _.
Qed.

(** The reply stored for a lease is the reply its execution produced. *)
Definition recorded (l : list action) (k : ReplayEntryKey) (rep : EncodedReply) : Prop :=
  exists reply, Replied k reply ∈ l /\ wire rep = wire reply.

Record genuine (l : list action) (w : world St) : Prop := {
  g_entries k rep c u : entries (inner (w_replay w)) !! k = Some (Completed rep c u) -> recorded l k rep;
  g_leases k reply st : leases (w_replay w) !! k = Some (Completing reply st) ->
    Replied k reply ∈ l /\ forall rep c, st = Some (rep, c) -> wire rep = wire reply;
  g_replayed c rep : Called c (Ok (Replay rep)) ∈ l ->
    exists k, request k = ac_key c /\ fingerprint k = ac_fingerprint c /\ recorded l k rep;
  g_stored k out : Stored k out ∈ l -> Forall (fun d => exists reply, Replied k reply ∈ l /\ d.2 = Ok reply) out
}.

Lemma recorded_mono l a k rep : recorded l k rep -> recorded (l ++ [a]) k rep.
Proof. intros (reply & Hin & Hw). exists reply. split; [apply elem_of_app; by left|done]. Qed.

Lemma begin_entries s now is_closed receive r f d i' :
  system_inv cache s -> 0 <= next_generation (inner s) < u64_max ->
  begin cache (inner s) now is_closed receive r f = (d, i') ->
  (forall k rep c u, entries i' !! k = Some (Completed rep c u) -> entries (inner s) !! k = Some (Completed rep c u)) /\
  (forall rep, d = Ok (Replay rep) ->
     exists k c u, request k = r /\ fingerprint k = f /\ entries (inner s) !! k = Some (Completed rep c u)).
Proof.
  intros Hs Hn Hb. pose proof (begin_inv cache (clock_now s) (inner s) now is_closed receive r f (sys_cache _ s Hs) Hn) as H.
  rewrite Hb in H. destruct H as [_ Ho]. destruct (expire_inv cache _ _ (inner s) now (sys_cache _ s Hs)) as (_ & S1 & _).
  set (i1 := expire _ _ _) in *. pose proof (sheds_entries _ _ S1) as E1.
  assert (admission_outcome cache i1 r f d i' ->
    (forall k rep c u, entries i' !! k = Some (Completed rep c u) -> entries (inner s) !! k = Some (Completed rep c u)) /\
    (forall rep, d <> Ok (Replay rep))) as Hadm.
  { intros [(-> & S2 & _)|(i2 & S2 & -> & ->)]; (split; [|done]); intros k rep c u He.
    - by apply E1, (sheds_entries _ _ S2).
    - simpl in He. apply lookup_insert_Some in He as [[_ [=]]|[_ He]]. by apply E1, (sheds_entries _ _ S2). }
  assert (admission_outcome cache i1 r f d i' -> (forall k rep c u, entries i' !! k = Some (Completed rep c u) ->
    entries (inner s) !! k = Some (Completed rep c u)) /\ (forall rep, d = Ok (Replay rep) ->
    exists k c u, request k = r /\ fingerprint k = f /\ entries (inner s) !! k = Some (Completed rep c u))) as Hadm'.
  { intros Ha. destruct (Hadm Ha) as [H1 H2]. split; [done|]. intros rep Hd. by destruct (H2 rep). }
  unfold begin_outcome in Ho. unfold view in Ho. destruct (latest i1 !! r) as [l|]; [|by apply Hadm'].
  destruct (entries i1 !! latest_key r l) as [st|] eqn:Ek; simpl in Ho; [|by apply Hadm'].
  destruct (bool_decide (latest_fingerprint l = f)) eqn:Ef; [|by apply Hadm']. apply bool_decide_eq_true in Ef as <-.
  destruct st as [ws|rep c u]; destruct Ho as [-> ->]; (split; [|intros rep' [=]]).
  - intros k rep c u He. simpl in He. apply lookup_insert_Some in He as [[_ [=]]|[_ He]]. by apply E1.
  - intros k rep' c' u' He. by apply E1.
  - subst rep'. exists (latest_key r l), c, u. split_and!; [done|done|]. by apply E1.
Qed.

(** Replayed and delivered replies stay accounted for as the log grows. *)
Lemma genuine_snoc l w a w' :
  genuine l w ->
  (forall k rep c u, entries (inner (w_replay w')) !! k = Some (Completed rep c u) -> recorded (l ++ [a]) k rep) ->
  (forall k reply st, leases (w_replay w') !! k = Some (Completing reply st) ->
     Replied k reply ∈ l ++ [a] /\ forall rep c, st = Some (rep, c) -> wire rep = wire reply) ->
  (forall c rep, a = Called c (Ok (Replay rep)) ->
     exists k, request k = ac_key c /\ fingerprint k = ac_fingerprint c /\ recorded l k rep) ->
  (forall k out, a = Stored k out -> Forall (fun d => exists reply, Replied k reply ∈ l /\ d.2 = Ok reply) out) ->
  genuine (l ++ [a]) w'.
Proof.
  intros [_ _ Hr Hs] H1 H2 H3 H4. split; try done.
  - intros c rep Hin. apply elem_of_app in Hin as [Hin|Hin%list_elem_of_singleton].
    + destruct (Hr _ _ Hin) as (k & ? & ? & ?). exists k. split_and!; try done. by apply recorded_mono.
    + destruct (H3 c rep (eq_sym Hin)) as (k & ? & ? & ?). exists k. split_and!; try done. by apply recorded_mono.
  - intros k out Hin.
    assert (Forall (fun d => exists reply, Replied k reply ∈ l /\ d.2 = Ok reply) out) as Hf.
    { apply elem_of_app in Hin as [Hin|Hin%list_elem_of_singleton]; [by apply Hs|by apply H4]. }
    eapply Forall_impl; [exact Hf|]. intros d (reply & Hx & Hd). exists reply. split; [apply elem_of_app; by left|done].
Qed.

Lemma genuine_replay_step l w a w' :
  genuine l w ->
  (forall k rep c u, entries (inner (w_replay w')) !! k = Some (Completed rep c u) ->
     entries (inner (w_replay w)) !! k = Some (Completed rep c u)) ->
  (forall k reply st, leases (w_replay w') !! k = Some (Completing reply st) ->
     leases (w_replay w) !! k = Some (Completing reply st)) ->
  (forall c rep, a = Called c (Ok (Replay rep)) ->
     exists k, request k = ac_key c /\ fingerprint k = ac_fingerprint c /\ recorded l k rep) ->
  (forall k out, a <> Stored k out) ->
  genuine (l ++ [a]) w'.
Proof.
  intros Hg H1 H2 H3 H4. apply (genuine_snoc l w); try done.
  - intros k rep c u He. by eapply recorded_mono, g_entries, H1.
  - intros k reply st Hl. destruct (g_leases _ _ Hg k reply st (H2 _ _ _ Hl)) as [? ?].
    split; [apply elem_of_app; by left|done].
  - intros k out Ha. by destruct (H4 k out).
Qed.

Lemma prepared_wire i k reply rep c :
  reply_wf reply -> prepare_storage with_capacity cache i k reply = Some (rep, c) -> wire rep = wire reply.
Proof.
  intros Hwf Hp. unfold prepare_storage in Hp. destruct (eligible_before_copy _ _ _ _); [|done]. injection Hp as Hp.
  by destruct (replay_storage_charge with_capacity reply rep c with_capacity_ge Hwf Hp).
Qed.

Lemma step_finished_inv s k out s' :
  step with_capacity cache s (Finished k out) s' ->
  exists reply st now i', leases s !! k = Some (Completing reply st) /\ clock_now s <= now /\
    complete cache (inner s) k reply st now = (i', out) /\ s' = mkSystem i' (delete k (leases s)) now.
Proof. intros H. inversion H; subst. eauto 10. Qed.

Lemma step_dropped_inv s k out s' :
  step with_capacity cache s (Dropped k out) s' ->
  exists i', leases s !! k = Some Holding /\ Replay.cancel (inner s) k = (i', out) /\
    s' = mkSystem i' (delete k (leases s)) (clock_now s).
Proof. intros H. inversion H; subst. eauto. Qed.

Lemma wstep_called_inv w c d w' :
  wstep w (Called c d) w' ->
  exists now is_closed i',
    begin cache (inner (w_replay w)) now is_closed (w_next w) (ac_key c) (ac_fingerprint c) = (d, i') /\
    w' = mkWorld (mkSystem i' (granted d (leases (w_replay w))) (clock_now (w_replay w))) (spawn c d (w_tasks w)) (w_backend w)
      (S (w_next w)).
Proof. intros H. inversion H; subst. eauto 10. Qed.

Lemma genuine_step t l w a w' :
  service_inv t l w -> genuine l w -> wstep w a w' -> begins (replay_events (l ++ [a])) <= u64_max ->
  genuine (l ++ [a]) w'.
Proof.
  intros Hi Hg Hst. rewrite replay_events_snoc, begins_app. pose proof (begins_nonneg (replay_event a)) as Hnn. intros Hb.
  destruct (service_replay t l w Hi ltac:(lia)) as [Hs Hn].
  destruct Hst as [w record addr reply _|w record addr error _|w record addr c now is_closed d i' Hrec Hadm Hbeg
    |w k c e cont r b' Hk Ha|w k c reply s' Hk Hl ->|w k out s' Hst|w k out s' Hst].
  - by apply (genuine_replay_step l w).
  - by apply (genuine_replay_step l w).
  - assert (begins (replay_event (Called c d)) = 1) as H1 by done.
    destruct (begin_entries _ _ _ _ _ _ _ _ Hs ltac:(lia) Hbeg) as [He Hr].
    apply (genuine_replay_step l w); simpl; try done.
    + intros k reply st Hk. destruct d as [[k'| |]|]; simpl in Hk; try done.
      by apply lookup_insert_Some in Hk as [[_ [=]]|[_ Hk]].
    + intros c' rep [= <- ->]. destruct (Hr rep eq_refl) as (k & cc & u & ? & ? & Hk). exists k. split_and!; try done.
      by eapply (g_entries _ _ Hg).
  - by apply (genuine_replay_step l w).
  - destruct (si_task _ _ _ Hi k c _ Hk) as (_ & _ & _ & [Hwp _]). destruct Hwp as (reply' & [= <-] & Hsend).
    apply (genuine_snoc l w); simpl; try done.
    + intros k' rep c' u He. by eapply recorded_mono, (g_entries _ _ Hg).
    + intros k' reply' st Hk'. apply lookup_insert_Some in Hk' as [[<- [= <- <-]]|[_ Hk']].
      * split; [apply elem_of_app; right; by apply list_elem_of_singleton|]. intros rep cc Hp.
        eapply prepared_wire; [apply Hsend|done].
      * destruct (g_leases _ _ Hg _ _ _ Hk'). split; [apply elem_of_app; by left|done].
  - apply step_finished_inv in Hst as (reply & st & now & i' & Hk & _ & Hc & ->). destruct (g_leases _ _ Hg _ _ _ Hk) as [Hin Hw].
    apply (genuine_snoc l w); simpl; try done.
    + intros k' rep cc u He. apply recorded_mono.
      destruct (complete_entries _ _ _ _ _ _ _ _ _ _ _ Hc He) as [He'|[-> [c' ->]]].
      * by eapply (g_entries _ _ Hg).
      * exists reply. split; [done|]. by eapply Hw.
    + intros k' reply' st' Hk'. apply lookup_delete_Some in Hk' as [_ Hk']. destruct (g_leases _ _ Hg _ _ _ Hk') as [? ?].
      split; [apply elem_of_app; by left|done].
    + intros k' out' [= <- <-]. eapply Forall_impl; [by eapply complete_out|]. intros x Hx. by exists reply.
  - apply step_dropped_inv in Hst as (i' & Hk & Hc & ->).
    apply (genuine_replay_step l w); simpl; try done.
    + intros k' rep cc u He. unfold Replay.cancel, forget_latest in Hc.
      destruct (entries _ !! k) as [[ws|]|]; injection Hc as <- _; revert He; destruct (is_latest _ _); simpl;
        rewrite ?lookup_delete_Some; tauto.
    + intros k' reply st Hk'. by apply lookup_delete_Some in Hk' as [_ ?].
Qed.

Lemma genuine_steps t b l w :
  wsteps (winitial t b) l w -> begins (replay_events l) <= u64_max -> genuine l w.
Proof.
  intros H. remember (winitial t b) as w0 eqn:E0. induction H as [w|w l w' a w'' Hst IH Hs]; subst.
  - intros _. split; simpl; try (intros; by match goal with H : _ ∈ [] |- _ => apply elem_of_nil in H end).
    + intros k rep c u H. by rewrite lookup_empty in H.
    + intros k reply st H. by rewrite lookup_empty in H.
  - intros Hb. assert (begins (replay_events l) <= u64_max) as Hb'.
    { rewrite replay_events_snoc, begins_app in Hb. pose proof (begins_nonneg (replay_event a)). lia. }
    apply (genuine_step t l w'); [by eapply service_steps|by apply IH|done|done].
Qed.

(** ** Who waits for an execution *)

(** [begin] adds its own channel, and only to an entry of the same request and
    fingerprint. *)
Lemma begin_joins s now is_closed receive r f d i' :
  system_inv cache s -> 0 <= next_generation (inner s) < u64_max ->
  begin cache (inner s) now is_closed receive r f = (d, i') ->
  (forall k ws x, entries i' !! k = Some (InFlight ws) -> x ∈ ws ->
     (exists ws0, entries (inner s) !! k = Some (InFlight ws0) /\ x ∈ ws0) \/
     (x = receive /\ d = Ok (Wait receive) /\ request k = r /\ fingerprint k = f)) /\
  (forall x, d = Ok (Wait x) -> x = receive).
Proof.
  intros Hs Hn Hb. pose proof (begin_inv cache (clock_now s) (inner s) now is_closed receive r f (sys_cache _ s Hs) Hn) as H.
  rewrite Hb in H. destruct H as [_ Ho]. destruct (expire_inv cache _ _ (inner s) now (sys_cache _ s Hs)) as (_ & S1 & _).
  set (i1 := expire _ _ _) in *. pose proof (sheds_entries _ _ S1) as E1.
  assert (admission_outcome cache i1 r f d i' ->
    (forall k ws x, entries i' !! k = Some (InFlight ws) -> x ∈ ws ->
       exists ws0, entries (inner s) !! k = Some (InFlight ws0) /\ x ∈ ws0) /\ (forall x, d <> Ok (Wait x))) as Hadm.
  { intros [(-> & S2 & _)|(i2 & S2 & -> & ->)]; (split; [|done]); intros k ws x He Hx.
    - exists ws. split; [|done]. by apply E1, (sheds_entries _ _ S2).
    - simpl in He. apply lookup_insert_Some in He as [[_ [= <-]]|[_ He]]; [by apply elem_of_nil in Hx|].
      exists ws. split; [|done]. by apply E1, (sheds_entries _ _ S2). }
  assert (admission_outcome cache i1 r f d i' -> (forall k ws x, entries i' !! k = Some (InFlight ws) -> x ∈ ws ->
     (exists ws0, entries (inner s) !! k = Some (InFlight ws0) /\ x ∈ ws0) \/
     (x = receive /\ d = Ok (Wait receive) /\ request k = r /\ fingerprint k = f)) /\
     (forall x, d = Ok (Wait x) -> x = receive)) as Hadm'.
  { intros Ha. destruct (Hadm Ha) as [H1 H2]. split; [intros; left; by eapply H1|]. intros x Hd. by destruct (H2 x). }
  unfold begin_outcome, view in Ho. destruct (latest i1 !! r) as [l|]; [|by apply Hadm'].
  destruct (entries i1 !! latest_key r l) as [st|] eqn:Ek; simpl in Ho; [|by apply Hadm'].
  destruct (bool_decide (latest_fingerprint l = f)) eqn:Ef; [|by apply Hadm']. apply bool_decide_eq_true in Ef as <-.
  destruct st as [ws|rep c u]; destruct Ho as [-> ->].
  - split; [|by intros x [= ->]]. intros k ws' x He Hx. simpl in He. apply lookup_insert_Some in He as [[<- [= <-]]|[_ He]].
    + apply elem_of_app in Hx as [Hx|Hx%list_elem_of_singleton]; [|by right].
      left. exists ws. apply list_elem_of_filter in Hx as [_ Hx]. split; [by apply E1|done].
    + left. exists ws'. split; [by apply E1|done].
  - split; [|done]. intros k ws x He Hx. left. exists ws. split; [by apply E1|done].
Qed.

(** Call [c], with the request and fingerprint of [k], was told to wait on [x]. *)
Definition awaits (l : list action) (k : ReplayEntryKey) (x : waiter) : Prop :=
  exists c, Called c (Ok (Wait x)) ∈ l /\ request k = ac_key c /\ fingerprint k = ac_fingerprint c.

(** The deliveries of an action. *)
Definition delivered (a : action) (k : ReplayEntryKey) (out : deliveries) : Prop :=
  a = Stored k out \/ a = Abandoned k out.

Record waiting (l : list action) (w : world St) : Prop := {
  wt_fresh c x : Called c (Ok (Wait x)) ∈ l -> (x < w_next w)%nat;
  wt_unique c c' x : Called c (Ok (Wait x)) ∈ l -> Called c' (Ok (Wait x)) ∈ l -> c = c';
  wt_entry k ws x : entries (inner (w_replay w)) !! k = Some (InFlight ws) -> x ∈ ws -> awaits l k x;
  wt_delivered a k out x r : a ∈ l -> delivered a k out -> (x, r) ∈ out -> awaits l k x
}.

Lemma awaits_mono l a k x : awaits l k x -> awaits (l ++ [a]) k x.
Proof. intros (c & Hin & Hc). exists c. split; [apply elem_of_app; by left|done]. Qed.

(** Actions that make no call leave the channels alone. *)
Lemma waiting_snoc l w a w' :
  waiting l w -> w_next w' = w_next w -> (forall c x, a <> Called c (Ok (Wait x))) ->
  (forall k ws, entries (inner (w_replay w')) !! k = Some (InFlight ws) -> entries (inner (w_replay w)) !! k = Some (InFlight ws)) ->
  (forall k out x r, delivered a k out -> (x, r) ∈ out ->
     exists ws, entries (inner (w_replay w)) !! k = Some (InFlight ws) /\ x ∈ ws) ->
  waiting (l ++ [a]) w'.
Proof.
  intros [Hf Hu He Hd] Hn Ha Hk Ho.
  assert (forall c x, Called c (Ok (Wait x)) ∈ l ++ [a] -> Called c (Ok (Wait x)) ∈ l) as Hin.
  { intros c x Hin. apply elem_of_app in Hin as [Hin|Hin%list_elem_of_singleton]; [done|]. by destruct (Ha c x). }
  split.
  - intros c x Hc. rewrite Hn. eapply Hf, Hin, Hc.
  - intros c c' x H1 H2. eapply Hu; by apply Hin.
  - intros k ws x Hw Hx. by eapply awaits_mono, He, Hx; apply Hk.
  - intros b k out x r Hb Hdel Hx. apply awaits_mono. apply elem_of_app in Hb as [Hb|Hb%list_elem_of_singleton].
    + by eapply Hd.
    + subst b. destruct (Ho k out x r Hdel Hx) as (ws & Hw & Hin'). by eapply He.
Qed.

(** A lease that ends hands its outcome to the waiters of its entry. *)
Lemma lease_out_waiters (f : waiter -> result ReplayError EncodedReply) ws x r : (x, r) ∈ map (fun w => (w, f w)) ws -> x ∈ ws.
Proof. intros Hin. apply list_elem_of_In, in_map_iff in Hin as (y & [= -> _] & Hy). by apply list_elem_of_In. Qed.

Lemma waiting_lease_step l w a k ws out f s' tasks :
  waiting l w -> (a = Stored k out \/ a = Abandoned k out) ->
  entries (inner (w_replay w)) !! k = Some (InFlight ws) -> out = map (fun w => (w, f w)) ws ->
  (forall ws', entries (inner s') !! k <> Some (InFlight ws')) -> keeps_leases k (inner (w_replay w)) (inner s') ->
  waiting (l ++ [a]) (mkWorld s' tasks (w_backend w) (w_next w)).
Proof.
  intros Hw Ha Hk -> Hgone Hkeep. apply (waiting_snoc l w); try done.
  - intros c x ->. by destruct Ha.
  - intros k' ws'. cbn [w_replay]. destruct (decide (k' = k)) as [->|Hne]; [intros H; by destruct (Hgone ws')|].
    by apply (keeps_in_flight _ _ _ Hkeep).
  - intros k' out' x r Hdel Hx. assert (k' = k /\ out' = map (fun w => (w, f w)) ws) as [-> ->].
    { destruct Ha as [->| ->], Hdel as [[= -> ->]|[= -> ->]]; done. }
    exists ws. split; [done|]. by eapply lease_out_waiters.
Qed.

Lemma waiting_step t l w a w' :
  service_inv t l w -> waiting l w -> wstep w a w' -> begins (replay_events (l ++ [a])) <= u64_max ->
  waiting (l ++ [a]) w'.
Proof.
  intros Hi Hw Hst. rewrite replay_events_snoc, begins_app. pose proof (begins_nonneg (replay_event a)) as Hnn. intros Hb.
  destruct (service_replay t l w Hi ltac:(lia)) as [Hs Hn].
  destruct Hst as [w record addr reply _|w record addr error _|w record addr c now is_closed d i' Hrec Hadm Hbeg
    |w k c e cont r b' Hk Ha|w k c reply s' Hk Hl ->|w k out s' Hst|w k out s' Hst].
  1,2,4,5: apply (waiting_snoc l w); try done; by intros ? ? ? ? [?|?].
  - assert (begins (replay_event (Called c d)) = 1) as H1 by done.
    destruct (begin_joins _ _ _ _ _ _ _ _ Hs ltac:(lia) Hbeg) as [He Hx].
    assert (forall c' x, Called c' (Ok (Wait x)) ∈ l ++ [Called c d] ->
      Called c' (Ok (Wait x)) ∈ l /\ (x < w_next w)%nat \/ c' = c /\ x = w_next w) as Hcase.
    { intros c' x Hin. apply elem_of_app in Hin as [Hin|Hin%list_elem_of_singleton].
      - left. split; [done|]. by eapply (wt_fresh _ _ Hw).
      - injection Hin as -> <-. right. split; [done|]. by apply Hx. }
    split; cbn [w_next w_replay inner].
    + intros c' x Hin. destruct (Hcase c' x Hin) as [[_ ?]|[_ ->]]; lia.
    + intros c1 c2 x Hin1 Hin2. destruct (Hcase _ _ Hin1) as [[Ha1 ?]|[-> ?]], (Hcase _ _ Hin2) as [[Ha2 ?]|[-> ?]];
        [by eapply (wt_unique _ _ Hw)|lia|lia|done].
    + intros k ws x Hk Hin. destruct (He k ws x Hk Hin) as [(ws0 & Hk0 & Hin0)|(-> & -> & Hr & Hf)].
      * by eapply awaits_mono, (wt_entry _ _ Hw).
      * exists c. split; [apply elem_of_app; right; by apply list_elem_of_singleton|done].
    + intros b k out x r Hin Hdel Ho. apply elem_of_app in Hin as [Hin|Hin%list_elem_of_singleton].
      * by eapply awaits_mono, (wt_delivered _ _ Hw).
      * subst b. by destruct Hdel.
  - apply step_finished_inv in Hst as (reply & st & now & i' & Hk & Hnow & Hc & ->).
    destruct (proj1 (in_flight_iff _ _) (proj1 (sys_leases _ _ Hs k) ltac:(by eexists))) as [ws Hws].
    pose proof (complete_inv cache _ _ _ _ reply st now (sys_cache _ _ Hs) Hws Hnow (sys_prepared _ _ Hs _ _ _ Hk) ltac:(lia)) as H.
    rewrite Hc in H. destruct H as (_ & -> & Hg & Hkeep).
    eapply (waiting_lease_step l w _ k ws _ (fun _ => Ok reply)); [done|by left|done|done| |done]. intros ws'. cbn [inner]. rewrite Hg.
    unfold completed_state. by repeat case_match.
  - apply step_dropped_inv in Hst as (i' & Hk & Hc & ->).
    destruct (proj1 (in_flight_iff _ _) (proj1 (sys_leases _ _ Hs k) ltac:(by eexists))) as [ws Hws].
    pose proof (cancel_inv cache _ _ _ _ (sys_cache _ _ Hs) Hws) as H. rewrite Hc in H. destruct H as (_ & -> & Hg & Hkeep).
    eapply (waiting_lease_step l w _ k ws _ (fun _ => Err Cancelled)); [done|by right|done|done| |done]. intros ws'. cbn [inner]. by rewrite Hg.
Qed.

Lemma waiting_steps t b l w :
  wsteps (winitial t b) l w -> begins (replay_events l) <= u64_max -> waiting l w.
Proof.
  intros H. remember (winitial t b) as w0 eqn:E0. induction H as [w|w l w' a w'' Hst IH Hs]; subst.
  - intros _. split; simpl; try (intros; by match goal with H : _ ∈ [] |- _ => apply elem_of_nil in H end).
    intros k ws x H. by rewrite lookup_empty in H.
  - intros Hb. assert (begins (replay_events l) <= u64_max) as Hb'.
    { rewrite replay_events_snoc, begins_app in Hb. pose proof (begins_nonneg (replay_event a)). lia. }
    apply (waiting_step t l w'); [by eapply service_steps|by apply IH|done|done].
Qed.

(** Whoever is handed the outcome of lease [k] asked for it: its call has the
    request and the fingerprint of [k]. *)
Lemma waiter_matches t b l w c x k out r :
  wsteps (winitial t b) l w -> begins (replay_events l) <= u64_max ->
  Called c (Ok (Wait x)) ∈ l -> Stored k out ∈ l -> (x, r) ∈ out ->
  request k = ac_key c /\ fingerprint k = ac_fingerprint c.
Proof.
  intros Hst Hb Hc Ho Hin. pose proof (waiting_steps t b l w Hst Hb) as Hw.
  destruct (wt_delivered _ _ Hw _ k out x r Ho (or_introl eq_refl) Hin) as (c' & Hc' & Hk).
  by rewrite (wt_unique _ _ Hw c c' x Hc Hc').
Qed.

(** A reply belongs to the call whose lease it was produced for. *)
Lemma replied_by t l w k reply :
  service_inv t l w -> Replied k reply ∈ l ->
  exists c, Called c (Ok (Execute k)) ∈ l /\ request k = ac_key c /\ fingerprint k = ac_fingerprint c /\
    sendable state (ac_xid c) reply.
Proof.
  intros Hi Hr. destruct (si_replied _ _ _ Hi k reply Hr) as (c & Hc & Hs).
  destruct (si_called _ _ _ Hi c _ Hc) as (_ & _ & _ & Hk). destruct (Hk k eq_refl). by exists c.
Qed.

(** C1: one admitted call changes the file system at most once, whatever the
    interleaving. In every run of the server, with any number of connections,
    retransmissions, cut-off tasks and backend answers, the state-changing
    operations performed for one execution lease are at most one, and none for a
    read-only NFS procedure, a MOUNT or a portmapper call. *)
Theorem service_mutates_at_most_once t b l w k c :
  wsteps (winitial t b) l w -> begins (replay_events l) <= u64_max ->
  Called c (Ok (Execute k)) ∈ l ->
  (mutations_for k l <= entitled c <= 1)%nat.
Proof.
  intros Hst Hb Hc. split; [by apply (si_mutations t l w (service_steps t b l w Hst Hb))|].
  unfold entitled. destruct (_ && _); lia.
Qed.

(** C2: nothing happens without an admitted call. Every backend and mount-table
    operation of a run was performed for a lease granted to a record that passed
    admission, and is one that call is allowed; every reply an execution produces
    carries that call's transaction identifier and can be sent. *)
Theorem service_effects_authorised t b l w :
  wsteps (winitial t b) l w -> begins (replay_events l) <= u64_max ->
  (forall k e, Performed k e ∈ l -> exists record addr c,
     admit_call hmac sha256 vec_capacity record addr state = Ok (inr c) /\
     Called c (Ok (Execute k)) ∈ l /\ call_effect hmac state c e) /\
  (forall k reply, Replied k reply ∈ l -> exists c,
     Called c (Ok (Execute k)) ∈ l /\ request k = ac_key c /\ fingerprint k = ac_fingerprint c /\
     sendable state (ac_xid c) reply).
Proof.
  intros Hst Hb. pose proof (service_steps t b l w Hst Hb) as Hi. split.
  - intros k e Hp. destruct (si_performed _ _ _ Hi k e Hp) as (c & Hc & He).
    destruct (si_called _ _ _ Hi c _ Hc) as (record & addr & Ha & _). by exists record, addr, c.
  - intros k reply Hr. by eapply replied_by.
Qed.

(** C3: replayed replies are genuine. A retransmission answered from the cache
    gets the wire bytes of the reply that an execution of a call with the same
    client address, export, transaction identifier and fingerprint produced. A
    call told to wait and handed an outcome by an execution that stored its reply
    has the same request and fingerprint as the call executed, and gets exactly
    the reply that execution produced; and an execution hands its reply only to
    calls that were told to wait for it. *)
Theorem service_replays_genuine t b l w :
  wsteps (winitial t b) l w -> begins (replay_events l) <= u64_max ->
  (forall c rep, Called c (Ok (Replay rep)) ∈ l -> exists k c0 reply,
     Called c0 (Ok (Execute k)) ∈ l /\ Replied k reply ∈ l /\ wire rep = wire reply /\
     ac_key c0 = ac_key c /\ ac_fingerprint c0 = ac_fingerprint c /\ sendable state (ac_xid c0) reply) /\
  (forall c wt k out r, Called c (Ok (Wait wt)) ∈ l -> Stored k out ∈ l -> (wt, r) ∈ out -> exists c0 reply,
     Called c0 (Ok (Execute k)) ∈ l /\ Replied k reply ∈ l /\ r = Ok reply /\
     ac_key c0 = ac_key c /\ ac_fingerprint c0 = ac_fingerprint c /\ sendable state (ac_xid c0) reply) /\
  (forall k out wt r, Stored k out ∈ l -> (wt, r) ∈ out -> exists c, Called c (Ok (Wait wt)) ∈ l).
Proof.
  intros Hst Hb. pose proof (service_steps t b l w Hst Hb) as Hi. pose proof (genuine_steps t b l w Hst Hb) as Hg. split_and!.
  - intros c rep Hc. destruct (g_replayed _ _ Hg c rep Hc) as (k & Hk & Hf & reply & Hr & Hw).
    destruct (replied_by t l w k reply Hi Hr) as (c0 & Hc0 & Hk0 & Hf0 & Hs).
    exists k, c0, reply. split_and!; try done; congruence.
  - intros c wt k out r Hc Ho Hin. pose proof (g_stored _ _ Hg k out Ho) as Hf.
    rewrite Forall_forall in Hf. destruct (Hf (wt, r) Hin) as (reply & Hr & Hd).
    destruct (waiter_matches t b l w c wt k out r Hst Hb Hc Ho Hin) as [Hk1 Hf1].
    destruct (replied_by t l w k reply Hi Hr) as (c0 & Hc0 & Hk0 & Hf0 & Hs).
    exists c0, reply. split_and!; try done; congruence.
  - intros k out wt r Ho Hin. pose proof (waiting_steps t b l w Hst Hb) as Hw.
    destruct (wt_delivered _ _ Hw _ k out wt r Ho (or_introl eq_refl) Hin) as (c & Hc & _). by exists c.
Qed.

(** C4: executions do not get stuck. In every reachable state, the next step of
    each running execution is enabled: its backend call, or, when the program has
    finished, handing its reply to the cache; an execution is never in a panic or
    left with an error. A lease that handed over its reply can always store it. *)
Theorem service_progress t b l w :
  wsteps (winitial t b) l w -> begins (replay_events l) <= u64_max ->
  (forall k x, w_tasks w !! k = Some x ->
     (exists e w', wstep w (Performed k e) w') \/ (exists reply w', wstep w (Replied k reply) w')) /\
  (forall k reply st, leases (w_replay w) !! k = Some (Completing reply st) -> exists out w', wstep w (Stored k out) w').
Proof.
  intros Hst Hb. pose proof (service_steps t b l w Hst Hb) as Hi. split.
  - intros k [c p] Hk. destruct (si_task _ _ _ Hi k c p Hk) as (Hl & _ & _ & [Hwp _]).
    destruct p as [r|e cont|]; [|left|done].
    + destruct Hwp as (reply & -> & _). right. exists reply. eexists. by eapply wstep_replied.
    + destruct (answer_effect answer e (w_backend w)) as [r b'] eqn:Ea. exists e. eexists. by eapply wstep_performed.
  - intros k reply st Hl. destruct (complete cache (inner (w_replay w)) k reply st (clock_now (w_replay w))) as [i' out] eqn:Ec.
    exists out. eexists. eapply wstep_stored. eapply step_complete; [exact Hl|apply Z.le_refl|exact Ec].
Qed.

(** A retransmission of a running call has no effect. While a call holds the
    current lease of its request, the same call arriving again, on any
    connection, starts no execution and touches neither the backend nor the mount
    table: it waits for the reply of the running one. *)
Lemma service_retransmission_waits t b l w k c d w' :
  wsteps (winitial t b) l w -> begins (replay_events l) < u64_max ->
  current (w_replay w) k -> ac_key c = request k -> ac_fingerprint c = fingerprint k ->
  wstep w (Called c d) w' ->
  (exists receive, d = Ok (Wait receive)) /\ w_tasks w' = w_tasks w /\ w_backend w' = w_backend w /\
  leases (w_replay w') = leases (w_replay w).
Proof.
  intros Hst Hb Hcur Hk Hf Hs. pose proof (service_steps t b l w Hst ltac:(lia)) as Hi.
  destruct (service_replay t l w Hi ltac:(lia)) as [Hsys Hn].
  apply wstep_called_inv in Hs as (now & is_closed & i' & Hbeg & ->).
  destruct (begin_current cache _ _ _ _ _ _ _ _ k Hsys ltac:(lia) Hcur Hbeg) as [_ Hd].
  { intros [_ Hne]. by destruct Hne. }
  rewrite (Hd Hk). split; [by eexists|done].
Qed.
End Service.

(** ** Witnesses: one call admitted and running, then its retransmission *)

Definition toy_sha (v : list byte) : list byte := [Byte.x01].
Definition toy_args : list byte := Format.opaque_bytes (Handles.encode toy_hmac (handles toy_started) 1 Serving.toy_key).
Definition toy_record : list byte := header_bytes toy_header ++ toy_args.
Definition toy_admitted : admitted_call := call_of toy_hmac toy_sha toy_header toy_args toy_user toy_addr toy_started.
Definition toy_running : ReplayEntryKey := mkEntryKey (ac_key toy_admitted) (ac_fingerprint toy_admitted) 0.
Definition toy_log : list action := [Called toy_admitted (Ok (Execute toy_running))].
Definition toy_world : world unit :=
  mkWorld (mkSystem (insert_in_flight Replay.new (ac_key toy_admitted) (ac_fingerprint toy_admitted)) (<[toy_running := Holding]> ∅) 0)
    (<[toy_running := start toy_hmac zlen toy_started toy_admitted]> ∅) (tt, []) 1%nat.

Abbreviation toy_wstep := (wstep toy_hmac toy_sha zlen toy_grow toy_started toy_cache toy_backend).
Abbreviation toy_wsteps := (wsteps toy_hmac toy_sha zlen toy_grow toy_started toy_cache toy_backend).

Lemma toy_admission : admit_call toy_hmac toy_sha zlen toy_record toy_addr toy_started = Ok (inr toy_admitted).
Proof. vm_compute. reflexivity. Qed.

Lemma toy_service_run : toy_wsteps (winitial 0 tt) toy_log toy_world.
Proof.
  apply (wsteps_snoc toy_hmac toy_sha zlen toy_grow toy_started toy_cache toy_backend _ [] (winitial 0 tt)); [apply wsteps_nil|].
  apply (wstep_called toy_hmac toy_sha zlen toy_grow toy_started toy_cache toy_backend (winitial 0 tt) toy_record toy_addr
    toy_admitted 0 no_closed (Ok (Execute toy_running))); [by vm_compute|exact toy_admission|reflexivity].
Qed.

Lemma toy_service_begins : begins (replay_events toy_log) < u64_max.
Proof. by vm_compute. Qed.

Lemma toy_elem : Called toy_admitted (Ok (Execute toy_running)) ∈ toy_log.
Proof. by apply list_elem_of_singleton. Qed.

(** The same call again while the first runs: it waits on the channel it brought,
    and nothing else changes. *)
Definition toy_waiting : world unit :=
  mkWorld (mkSystem (with_entries (<[toy_running := InFlight [1%nat]]> (entries (inner (w_replay toy_world))))
    (inner (w_replay toy_world))) (leases (w_replay toy_world)) 0) (w_tasks toy_world) (tt, []) 2%nat.

Lemma toy_retransmission : toy_wstep toy_world (Called toy_admitted (Ok (Wait 1%nat))) toy_waiting.
Proof.
  apply (wstep_called toy_hmac toy_sha zlen toy_grow toy_started toy_cache toy_backend toy_world toy_record toy_addr
    toy_admitted 3 no_closed (Ok (Wait 1%nat))); [by vm_compute|exact toy_admission|reflexivity].
Qed.

(** The call is sent twice; the first asks the backend once, is refused, and its
    reply is stored and handed to the second, which waited; the client then sends
    the call once more. *)
Definition toy_getattr : effect := Vfs 0%nat (VfsOp.getattr (ac_context toy_admitted) Serving.toy_key).
Definition toy_refusal : list byte := accepted_reply 77 SUCCESS (be_bytes 4 (NfsStatus.code NfsStatus.NotSupported)).
Definition toy_reply : EncodedReply := into_reply zlen toy_refusal.
Definition toy_full_log : list action :=
  toy_log ++ [Called toy_admitted (Ok (Wait 1%nat))] ++ [Performed toy_running toy_getattr] ++
  [Replied toy_running toy_reply] ++ [Stored toy_running [(1%nat, Ok toy_reply)]] ++
  [Called toy_admitted (Ok (Replay toy_reply))].

(** The first effect of a program and what is left of it after the answer. *)
Definition run_one {A} (p : prog A) (b : unit * MountTable) : option (effect * prog A) :=
  match p with
  | Do e cont => let '(r, _) := answer_effect toy_backend e b in Some (e, cont r)
  | _ => None
  end.

Lemma run_one_do {A} (p p' : prog A) b e :
  run_one p b = Some (e, p') ->
  exists cont r b', p = Do e cont /\ answer_effect toy_backend e b = (r, b') /\ p' = cont r.
Proof.
  destruct p as [|e' cont|]; simpl; try done. destruct (answer_effect _ e' b) as [r b'] eqn:E.
  intros [= <- <-]. by exists cont, r, b'.
Qed.

Lemma toy_program :
  run_one (execute_request toy_hmac zlen toy_admitted toy_started) (tt, []) = Some (toy_getattr, Ret (Ok toy_reply)).
Proof. vm_compute. reflexivity. Qed.

Lemma toy_full_run : exists w, toy_wsteps (winitial 0 tt) toy_full_log w.
Proof.
  destruct (run_one_do _ _ _ _ toy_program) as (cont & r & b' & Hp & Ha & Hr).
  eexists. unfold toy_full_log. rewrite !app_assoc. repeat eapply wsteps_snoc.
  - exact toy_service_run.
  - exact toy_retransmission.
  - eapply (wstep_performed _ _ _ _ _ _ _ _ _ toy_admitted toy_getattr cont); [|exact Ha].
    rewrite <- Hp. apply lookup_insert_eq.
  - eapply wstep_replied; [|reflexivity|reflexivity]. simpl. rewrite lookup_insert_eq. by rewrite <- Hr.
  - apply wstep_stored. eapply (step_complete _ _ _ _ _ _ 1); [reflexivity|done|reflexivity].
  - eapply (wstep_called _ _ _ _ _ _ _ _ _ _ _ 2 no_closed); [|exact toy_admission|reflexivity]. by vm_compute.
Qed.

Lemma toy_full_begins : begins (replay_events toy_full_log) <= u64_max.
Proof. by vm_compute. Qed.

Lemma service_effects_authorised_witness : exists c,
  Called c (Ok (Execute toy_running)) ∈ toy_full_log /\ request toy_running = ac_key c /\
  fingerprint toy_running = ac_fingerprint c /\ sendable toy_started (ac_xid c) toy_reply.
Proof.
  destruct toy_full_run as [w Hw].
  refine (proj2 (service_effects_authorised toy_hmac toy_sha zlen toy_grow toy_started toy_cache toy_backend toy_hmac_length
    (fun v => Z.le_refl (zlen v)) (ServerReady0 := toy_started_ready) ltac:(by vm_compute) ltac:(split; by vm_compute) toy_grow_ge 0 tt
    toy_full_log w Hw toy_full_begins) toy_running toy_reply _). unfold toy_full_log, toy_log. set_solver.
Defined.

Lemma service_replays_genuine_witness :
  (exists k c0 reply,
     Called c0 (Ok (Execute k)) ∈ toy_full_log /\ Replied k reply ∈ toy_full_log /\ wire toy_reply = wire reply /\
     ac_key c0 = ac_key toy_admitted /\ ac_fingerprint c0 = ac_fingerprint toy_admitted /\ sendable toy_started (ac_xid c0) reply) /\
  (exists c0 reply,
     Called c0 (Ok (Execute toy_running)) ∈ toy_full_log /\ Replied toy_running reply ∈ toy_full_log /\ toy_reply = reply /\
     ac_key c0 = ac_key toy_admitted /\ ac_fingerprint c0 = ac_fingerprint toy_admitted /\ sendable toy_started (ac_xid c0) reply).
Proof.
  destruct toy_full_run as [w Hw].
  destruct (service_replays_genuine toy_hmac toy_sha zlen toy_grow toy_started toy_cache toy_backend toy_hmac_length
    (fun v => Z.le_refl (zlen v)) (ServerReady0 := toy_started_ready) ltac:(by vm_compute) ltac:(split; by vm_compute) toy_grow_ge 0 tt
    toy_full_log w Hw toy_full_begins) as (H1 & H2 & _). split.
  - apply H1. unfold toy_full_log, toy_log. set_solver.
  - destruct (H2 toy_admitted 1%nat toy_running [(1%nat, Ok toy_reply)] (Ok toy_reply)) as (c0 & reply & ? & ? & [= <-] & ?);
      [unfold toy_full_log, toy_log; set_solver..|]. by exists c0, toy_reply.
Defined.

(** The running call has a next step. *)
Lemma service_progress_witness :
  (exists e w', toy_wstep toy_world (Performed toy_running e) w') \/
  (exists reply w', toy_wstep toy_world (Replied toy_running reply) w').
Proof.
  apply (proj1 (service_progress toy_hmac toy_sha zlen toy_grow toy_started toy_cache toy_backend toy_hmac_length
    (fun v => Z.le_refl (zlen v)) (ServerReady0 := toy_started_ready) ltac:(by vm_compute) ltac:(split; by vm_compute) toy_grow_ge 0 tt
    toy_log toy_world toy_service_run (Z.lt_le_incl _ _ toy_service_begins)) toy_running
    (start toy_hmac zlen toy_started toy_admitted)).
  apply lookup_insert_eq.
Defined.

(** A REMOVE changes the file system once, and is entitled to that. *)
Definition toy_remove_header : call_header :=
  mkCallHeader 78 2 NFS_PROGRAM 3 12 AUTH_SYS (auth_sys_bytes 0 1000 100 [] [Byte.x61]) AUTH_NONE [].
Definition toy_remove_args : list byte := toy_args ++ Format.opaque_bytes [Byte.x61].
Definition toy_remove_call : admitted_call :=
  call_of toy_hmac toy_sha toy_remove_header toy_remove_args toy_user toy_addr toy_started.
Definition toy_removing : ReplayEntryKey := mkEntryKey (ac_key toy_remove_call) (ac_fingerprint toy_remove_call) 0.
Definition toy_removal : effect :=
  Vfs 0%nat (VfsOp.remove (ac_context toy_remove_call) Serving.toy_key (NfsName.mk [Byte.x61])).
Definition toy_remove_log : list action :=
  [Called toy_remove_call (Ok (Execute toy_removing))] ++ [Performed toy_removing toy_removal].

Lemma toy_remove_admission :
  admit_call toy_hmac toy_sha zlen (header_bytes toy_remove_header ++ toy_remove_args) toy_addr toy_started = Ok (inr toy_remove_call).
Proof. vm_compute. reflexivity. Qed.

Lemma toy_remove_program : exists p,
  run_one (execute_request toy_hmac zlen toy_remove_call toy_started) (tt, []) = Some (toy_removal, p).
Proof. eexists. vm_compute. reflexivity. Qed.

Lemma toy_remove_run : exists w, toy_wsteps (winitial 0 tt) toy_remove_log w.
Proof.
  destruct toy_remove_program as [p Hrun]. destruct (run_one_do _ _ _ _ Hrun) as (cont & r & b' & Hp & Ha & Hr).
  eexists. unfold toy_remove_log. repeat eapply wsteps_snoc.
  - apply (wsteps_snoc toy_hmac toy_sha zlen toy_grow toy_started toy_cache toy_backend _ [] (winitial 0 tt)); [apply wsteps_nil|].
    apply (wstep_called toy_hmac toy_sha zlen toy_grow toy_started toy_cache toy_backend (winitial 0 tt)
      (header_bytes toy_remove_header ++ toy_remove_args) toy_addr
      toy_remove_call 0 no_closed (Ok (Execute toy_removing))); [by vm_compute|exact toy_remove_admission|reflexivity].
  - eapply (wstep_performed _ _ _ _ _ _ _ _ _ toy_remove_call toy_removal cont); [|exact Ha].
    rewrite <- Hp. apply lookup_insert_eq.
Qed.

Lemma service_mutates_at_most_once_witness :
  mutations_for toy_removing toy_remove_log = 1%nat /\
  (mutations_for toy_removing toy_remove_log <= entitled toy_remove_call <= 1)%nat.
Proof.
  destruct toy_remove_run as [w Hw]. split; [by vm_compute|].
  apply (service_mutates_at_most_once toy_hmac toy_sha zlen toy_grow toy_started toy_cache toy_backend toy_hmac_length
    (fun v => Z.le_refl (zlen v)) (ServerReady0 := toy_started_ready) ltac:(by vm_compute) ltac:(split; by vm_compute) toy_grow_ge 0 tt
    toy_remove_log w toy_removing toy_remove_call Hw); [by vm_compute|by apply list_elem_of_here].
Defined.
