(* ===== verification/Pipeline.v ===== *)
(** * [src/server/connection.rs]: the tasks of one connection

    [serve_connection] runs a reader, a processor and a writer, joined by two
    bounded queues and charged against two byte budgets the whole server shares.
    The step relation [cstep] interleaves them with the request tasks the
    processor spawns, with detached executions, and with other connections, which
    take and return permits of the shared budgets. What a request task gets back
    from [dispatch_record] is given by the interface [Dispatcher]. *)
From S2P Require Import Prelude Replay RpcCodec VfsTypes RpcAuth NfsProcedures NfsCodec RpcRecord Reply Handles Limits Vfs Connection Mount Execute Builder Serving Contracts Mounting Calls Service.
From stdpp Require Import list gmap fin_sets.
#[local] Open Scope Z_scope.

(** ** State *)

(** A shared semaphore: free permits, permits held by other connections, and the
    requests of this connection holding a reservation of one maximal record. *)
Record budget : Type := mkBudget { free : Z; foreign : Z; held : gset nat }.

Inductive reader_phase : Type :=
| AtTop
| Reading
| InBody (id : nat)
| Sending (id : nat) (record : list byte)
| ReaderDone.

Record reader_side : Type := mkReader { input : stream; phase : reader_phase; next_id : nat }.

(** A request task: waiting for its reply budget, inside [dispatch_record]
    (before or after it handed its charges to an execution task), sending its
    reply, or finished and not yet joined. *)
Inductive worker : Type :=
| WantBudget (record : list byte)
| Dispatching (record : list byte) (handed_over : bool)
| Replying (reply : EncodedReply)
| Finished (r : result ServerError.t unit).

Record processor_side : Type := mkProcessor {
  queue : list (nat * list byte);
  receiver_closed : bool;
  workers : gmap nat worker;
  processor_done : bool
}.

Inductive writer_phase : Type := Idle | Writing (id : nat) (reply : EncodedReply) | WriterDone.

Record writer_side : Type := mkWriter {
  replies : list (nat * EncodedReply);
  writing : writer_phase;
  output : sink
}.

(** What outlives the connection: the shutdown flag, executions in the tracker
    with the record bytes they keep, and the two budgets. *)
Record shared_side : Type := mkShared {
  shutdown : bool;
  running : gmap nat (list byte);
  request_buffers : budget;
  reply_buffers : budget
}.

Record conn : Type := mkConn {
  rd : reader_side;
  pr : processor_side;
  wr : writer_side;
  sh : shared_side;
  status : option (result ServerError.t unit)
}.

Inductive event : Type :=
| ReadRecord (id : nat) (record : list byte)
| Enqueued (id : nat)
| Answered (id : nat) (reply : EncodedReply)
| Wrote (id : nat) (reply : EncodedReply)
| Ended (r : result ServerError.t unit)
| Tau.

Definition acquire (n : Z) (id : nat) (b : budget) : budget := mkBudget (free b - n) (foreign b) ({[id]} ∪ held b).
Definition release (n : Z) (id : nat) (b : budget) : budget := mkBudget (free b + n) (foreign b) (held b ∖ {[id]}).

(** The transaction identifier [connection_processor] recovers from a record. *)
Definition record_xid (record : list byte) : Z := if 4 <=? zlen record then be_value (slice 0 4 record) else 0.

(** A reply that answers [record] and that the writer accepts. *)
Definition answers (l : ServerLimits) (record : list byte) (reply : EncodedReply) : Prop :=
  take 4 (wire reply) = be_bytes 4 (record_xid record) /\ validate_record (wire reply) (record_limits l) = Ok ().

(** What a connection relies on: [dispatch_record] returns, at the latest when
    its deadline passes, and a reply it returns answers the record. *)
Class Dispatcher (l : ServerLimits) (outcome : list byte -> result ServerError.t EncodedReply -> Prop) : Prop := {
  dispatched_answers record reply : outcome record (Ok reply) -> answers l record reply;
  dispatched_returns record : zlen record <= max_rpc_record_size l -> exists r, outcome record r
}.

Section Pipeline.
Context (alloc : Z -> option Z) (vec_capacity : list byte -> Z).
Context (l : ServerLimits) (outcome : list byte -> result ServerError.t EncodedReply -> Prop).

(** Every reservation is one maximal record; both queues have one capacity. *)
Definition charge : Z := max_rpc_record_size l.
Definition queue_capacity : Z := max_requests_per_connection l.

Definition attempt_read (granted : Z) (s : stream) : awaited (result RecordError (list byte * stream)) :=
  match read_record_budgeted alloc (record_limits l) (mkSemaphore granted false) s with
  | Ready (r, _) => Ready r
  | Pending => Pending
  end.

(** [matches!(error.kind(), UnexpectedEof | ConnectionReset)] *)
Definition clean_end (e : RecordError) : bool :=
  match e with Io UnexpectedEof | Io ConnectionReset => true | _ => false end.

Definition reply_of (record : list byte) (r : result ServerError.t EncodedReply) : EncodedReply :=
  match r with Ok reply => reply | Err _ => error_reply vec_capacity record end.

(** *** Where a request is *)

Definition at_reader (p : reader_phase) (id : nat) : nat :=
  match p with InBody i | Sending i _ => if decide (i = id) then 1 else 0 | _ => 0 end.
Definition count_id {A} (id : nat) (q : list (nat * A)) : nat := length (List.filter (fun x => bool_decide (x.1 = id)) q).
Definition at_writer (p : writer_phase) (id : nat) : nat :=
  match p with Writing i _ => if decide (i = id) then 1 else 0 | _ => 0 end.
Definition present {A} (o : option A) : nat := match o with None => 0 | Some _ => 1 end.

(** The references to the reservations of request [id]. The permit of a request
    travels with its record until an execution takes it over; the permit of a
    reply is shared by the request task, the queued reply and the execution. *)
Definition request_worker (w : worker) : option (list byte) :=
  match w with WantBudget record | Dispatching record false => Some record | _ => None end.
Definition reply_worker (w : worker) : option unit :=
  match w with Dispatching _ _ | Replying _ => Some () | _ => None end.

Definition request_refs (c : conn) (id : nat) : nat :=
  at_reader (phase (rd c)) id + count_id id (queue (pr c)) + present (workers (pr c) !! id ≫= request_worker) +
  present (running (sh c) !! id).
Definition reply_refs (c : conn) (id : nat) : nat :=
  present (workers (pr c) !! id ≫= reply_worker) + count_id id (replies (wr c)) + at_writer (writing (wr c)) id +
  present (running (sh c) !! id).

(** *** Updates *)

Definition set_phase (p : reader_phase) (c : conn) : conn :=
  mkConn (mkReader (input (rd c)) p (next_id (rd c))) (pr c) (wr c) (sh c) (status c).
Definition set_shared (s : shared_side) (c : conn) : conn := mkConn (rd c) (pr c) (wr c) s (status c).
Definition set_request_buffers (b : budget) (c : conn) : conn :=
  set_shared (mkShared (shutdown (sh c)) (running (sh c)) b (reply_buffers (sh c))) c.
Definition set_reply_buffers (b : budget) (c : conn) : conn :=
  set_shared (mkShared (shutdown (sh c)) (running (sh c)) (request_buffers (sh c)) b) c.
Definition set_running (m : gmap nat (list byte)) (c : conn) : conn :=
  set_shared (mkShared (shutdown (sh c)) m (request_buffers (sh c)) (reply_buffers (sh c))) c.
Definition set_processor (p : processor_side) (c : conn) : conn := mkConn (rd c) p (wr c) (sh c) (status c).
Definition set_workers (m : gmap nat worker) (c : conn) : conn :=
  set_processor (mkProcessor (queue (pr c)) (receiver_closed (pr c)) m (processor_done (pr c))) c.
Definition set_writer (w : writer_side) (c : conn) : conn := mkConn (rd c) (pr c) w (sh c) (status c).

(** [try_join!]: the first error drops the other tasks, the queues and the
    request tasks; executions live on in the tracker. An aborted request task
    ends at its next suspension point; from the connection's side, which nothing
    of it reaches any more, it ends here ([Lifecycle] has what it may still
    do). *)
Definition fail (e : ServerError.t) (k : sink) (c : conn) : conn :=
  mkConn (mkReader (input (rd c)) ReaderDone (next_id (rd c))) (mkProcessor [] true ∅ true)
    (mkWriter [] WriterDone k) (sh c) (Some (Err e)).

(** *** Steps *)
Inductive reader_step (c : conn) : event -> conn -> Prop :=
| reader_top :
    phase (rd c) = AtTop ->
    reader_step c Tau (set_phase (if shutdown (sh c) then ReaderDone else Reading) c)
| reader_reserve :
    phase (rd c) = Reading -> attempt_read 0 (input (rd c)) = Pending -> charge <= free (request_buffers (sh c)) ->
    reader_step c Tau
      (set_request_buffers (acquire charge (next_id (rd c)) (request_buffers (sh c)))
        (mkConn (mkReader (input (rd c)) (InBody (next_id (rd c))) (S (next_id (rd c)))) (pr c) (wr c) (sh c) (status c)))
| reader_read id record s :
    phase (rd c) = InBody id -> attempt_read charge (input (rd c)) = Ready (Ok (record, s)) ->
    reader_step c (ReadRecord id record)
      (mkConn (mkReader s (Sending id record) (next_id (rd c))) (pr c) (wr c) (sh c) (status c))
| reader_failed e granted :
    (phase (rd c) = Reading /\ granted = 0 \/ (exists id, phase (rd c) = InBody id) /\ granted = charge) ->
    attempt_read granted (input (rd c)) = Ready (Err e) ->
    reader_step c (if clean_end e then Tau else Ended (Err (ServerError.Record e)))
      (if clean_end e then set_phase ReaderDone c else fail (ServerError.Record e) (output (wr c)) c)
| reader_idle :
    (phase (rd c) = Reading \/ exists id, phase (rd c) = InBody id) -> reader_step c Tau (set_phase ReaderDone c)
| reader_shutdown :
    shutdown (sh c) = true -> phase (rd c) <> ReaderDone -> reader_step c Tau (set_phase ReaderDone c)
| reader_send id record :
    phase (rd c) = Sending id record -> receiver_closed (pr c) = false -> zlen (queue (pr c)) < queue_capacity ->
    reader_step c (Enqueued id)
      (set_phase AtTop (set_processor (mkProcessor (queue (pr c) ++ [(id, record)]) (receiver_closed (pr c))
        (workers (pr c)) (processor_done (pr c))) c))
| reader_refused id record :
    phase (rd c) = Sending id record -> receiver_closed (pr c) = true -> reader_step c Tau (set_phase ReaderDone c)
| reader_timeout id record :
    phase (rd c) = Sending id record ->
    reader_step c (Ended (Err ServerError.RequestTimeout)) (fail ServerError.RequestTimeout (output (wr c)) c).

Inductive processor_step (c : conn) : event -> conn -> Prop :=
| processor_shutdown :
    shutdown (sh c) = true -> receiver_closed (pr c) = false -> processor_done (pr c) = false ->
    processor_step c Tau (set_processor (mkProcessor (queue (pr c)) true (workers (pr c)) false) c)
| processor_recv id record rest :
    processor_done (pr c) = false -> queue (pr c) = (id, record) :: rest ->
    Z.of_nat (size (workers (pr c))) < max_requests_per_connection l ->
    processor_step c Tau (set_processor (mkProcessor rest (receiver_closed (pr c))
      (<[id := WantBudget record]> (workers (pr c))) false) c)
| processor_join id :
    workers (pr c) !! id = Some (Finished (Ok ())) ->
    processor_step c Tau (set_workers (delete id (workers (pr c))) c)
| processor_join_failed id e :
    workers (pr c) !! id = Some (Finished (Err e)) ->
    processor_step c (Ended (Err e)) (fail e (output (wr c)) c)
| processor_end :
    processor_done (pr c) = false -> receiver_closed (pr c) = true \/ phase (rd c) = ReaderDone ->
    queue (pr c) = [] -> workers (pr c) = ∅ ->
    processor_step c Tau (set_processor (mkProcessor [] (receiver_closed (pr c)) ∅ true) c).

Inductive worker_step (c : conn) : event -> conn -> Prop :=
| worker_budget id record :
    workers (pr c) !! id = Some (WantBudget record) -> charge <= free (reply_buffers (sh c)) ->
    worker_step c Tau (set_reply_buffers (acquire charge id (reply_buffers (sh c)))
      (set_workers (<[id := Dispatching record false]> (workers (pr c))) c))
| worker_gives_up id record e :
    workers (pr c) !! id = Some (WantBudget record) -> e = ServerError.RequestTimeout \/ e = ServerError.ShuttingDown ->
    worker_step c Tau (set_workers (<[id := Finished (Err e)]> (workers (pr c))) c)
| worker_executes id record :
    workers (pr c) !! id = Some (Dispatching record false) ->
    worker_step c Tau (set_running (<[id := record]> (running (sh c)))
      (set_workers (<[id := Dispatching record true]> (workers (pr c))) c))
| worker_answered id record handed_over r :
    workers (pr c) !! id = Some (Dispatching record handed_over) -> outcome record r ->
    worker_step c (Answered id (reply_of record r))
      (set_workers (<[id := Replying (reply_of record r)]> (workers (pr c))) c)
| worker_sends id reply :
    workers (pr c) !! id = Some (Replying reply) -> writing (wr c) <> WriterDone ->
    zlen (replies (wr c)) < queue_capacity ->
    worker_step c Tau (set_writer (mkWriter (replies (wr c) ++ [(id, reply)]) (writing (wr c)) (output (wr c)))
      (set_workers (<[id := Finished (Ok ())]> (workers (pr c))) c))
| worker_orphaned id reply :
    workers (pr c) !! id = Some (Replying reply) -> writing (wr c) = WriterDone ->
    worker_step c Tau (set_workers (<[id := Finished (Ok ())]> (workers (pr c))) c)
| worker_timeout id reply :
    workers (pr c) !! id = Some (Replying reply) ->
    worker_step c Tau (set_workers (<[id := Finished (Err ServerError.RequestTimeout)]> (workers (pr c))) c).

Inductive writer_step (c : conn) : event -> conn -> Prop :=
| writer_recv id reply rest :
    writing (wr c) = Idle -> replies (wr c) = (id, reply) :: rest ->
    writer_step c Tau (set_writer (mkWriter rest (Writing id reply) (output (wr c))) c)
| writer_wrote id reply k :
    writing (wr c) = Writing id reply ->
    write_record_segments_limited (segments reply) (record_limits l) (output (wr c)) = Some (Ok (), k) ->
    writer_step c (Wrote id reply) (set_writer (mkWriter (replies (wr c)) Idle k) c)
| writer_failed id reply e k :
    writing (wr c) = Writing id reply ->
    write_record_segments_limited (segments reply) (record_limits l) (output (wr c)) = Some (Err e, k) ->
    writer_step c (Ended (Err (ServerError.Record e))) (fail (ServerError.Record e) k c)
| writer_timeout id reply k :
    writing (wr c) = Writing id reply ->
    writer_step c (Ended (Err ServerError.RequestTimeout)) (fail ServerError.RequestTimeout k c)
| writer_end :
    writing (wr c) = Idle -> replies (wr c) = [] -> processor_done (pr c) = true ->
    writer_step c Tau (set_writer (mkWriter [] WriterDone (output (wr c))) c).

(** Steps of the rest of the server: shutdown is requested, other connections take
    and return permits, an execution ends, a reservation without owner is
    dropped. *)
Inductive server_step (c : conn) : conn -> Prop :=
| server_shutdown : server_step c
    (set_shared (mkShared true (running (sh c)) (request_buffers (sh c)) (reply_buffers (sh c))) c)
| server_request_permits n :
    - foreign (request_buffers (sh c)) <= n <= free (request_buffers (sh c)) ->
    server_step c (set_request_buffers (mkBudget (free (request_buffers (sh c)) - n)
      (foreign (request_buffers (sh c)) + n) (held (request_buffers (sh c)))) c)
| server_reply_permits n :
    - foreign (reply_buffers (sh c)) <= n <= free (reply_buffers (sh c)) ->
    server_step c (set_reply_buffers (mkBudget (free (reply_buffers (sh c)) - n)
      (foreign (reply_buffers (sh c)) + n) (held (reply_buffers (sh c)))) c)
| server_execution_ends id :
    server_step c (set_running (delete id (running (sh c))) c)
| server_drops_request id :
    id ∈ held (request_buffers (sh c)) -> request_refs c id = 0%nat ->
    server_step c (set_request_buffers (release charge id (request_buffers (sh c))) c)
| server_drops_reply id :
    id ∈ held (reply_buffers (sh c)) -> reply_refs c id = 0%nat ->
    server_step c (set_reply_buffers (release charge id (reply_buffers (sh c))) c).

(** A step of the connection itself; [try_join!] returns when all three tasks are
    done. *)
Inductive own_step (c : conn) : event -> conn -> Prop :=
| own_reader e c' : status c = None -> reader_step c e c' -> own_step c e c'
| own_processor e c' : status c = None -> processor_step c e c' -> own_step c e c'
| own_worker e c' : status c = None -> worker_step c e c' -> own_step c e c'
| own_writer e c' : status c = None -> writer_step c e c' -> own_step c e c'
| own_joined :
    status c = None -> phase (rd c) = ReaderDone -> processor_done (pr c) = true -> writing (wr c) = WriterDone ->
    own_step c (Ended (Ok ())) (mkConn (rd c) (pr c) (wr c) (sh c) (Some (Ok ()))).

Inductive cstep (c : conn) : event -> conn -> Prop :=
| cstep_own e c' : own_step c e c' -> cstep c e c'
| cstep_server c' : server_step c c' -> cstep c Tau c'.

Inductive csteps : conn -> list event -> conn -> Prop :=
| csteps_nil c : csteps c [] c
| csteps_snoc c t c' e c'' : csteps c t c' -> cstep c' e c'' -> csteps c (t ++ [e]) c''.

(** [serve_connection] on a fresh stream, while others hold [fq] and [fp]
    permits of the budgets. *)
Definition opened (s : stream) (k : sink) (stop : bool) (fq fp : Z) : conn :=
  mkConn (mkReader s AtTop 0) (mkProcessor [] stop ∅ false) (mkWriter [] Idle k)
    (mkShared stop ∅ (mkBudget (max_buffered_request_bytes l - fq) fq ∅) (mkBudget (max_buffered_reply_bytes l - fp) fp ∅))
    None.
End Pipeline.
