(* ===== verification/Delivery.v ===== *)
(** * What a connection guarantees

    Invariants of [Pipeline.cstep] and what follows from them: the byte budgets
    and queue bounds hold in every interleaving, every record is answered at most
    once and with its own reply, and a connection that ends without error has
    answered every record it accepted. *)
From S2P Require Import Prelude Replay RpcCodec VfsTypes RpcAuth NfsProcedures NfsCodec RpcRecord Reply Handles Limits Vfs Connection Mount Execute Builder Serving Contracts Mounting Calls Service Pipeline.
From stdpp Require Import list gmap fin_sets.
#[local] Open Scope Z_scope.

(** ** Counting requests *)

Definition at_worker (w : option worker) : nat :=
  match w with None | Some (Finished (Ok _)) => 0 | Some _ => 1 end.
Definition at_body (p : reader_phase) (id : nat) : nat :=
  match p with InBody i => if decide (i = id) then 1 else 0 | _ => 0 end.
Definition wrote_id (id : nat) (e : event) : bool := match e with Wrote i _ => bool_decide (i = id) | _ => false end.
Definition queued_id (id : nat) (e : event) : bool := match e with Enqueued i => bool_decide (i = id) | _ => false end.
Definition read_id (id : nat) (e : event) : bool := match e with ReadRecord i _ => bool_decide (i = id) | _ => false end.
Definition count (f : event -> bool) (t : list event) : nat := length (List.filter f t).

(** Not yet with a request task; with one that still owes a reply; past it. *)
Definition early (c : conn) (id : nat) : nat := (at_reader (phase (rd c)) id + count_id id (queue (pr c)))%nat.
Definition mid (c : conn) (id : nat) : nat := at_worker (workers (pr c) !! id).
Definition late (t : list event) (c : conn) (id : nat) : nat :=
  (count_id id (replies (wr c)) + at_writer (writing (wr c)) id + count (wrote_id id) t)%nat.

Record tokens (t : list event) (c : conn) : Prop := {
  tok_once id : (early c id + mid c id + late t c id <= 1)%nat;
  tok_early id : (early c id + present (workers (pr c) !! id) <= 1)%nat;
  tok_fresh id : (next_id (rd c) <= id)%nat -> (early c id + present (workers (pr c) !! id) + late t c id)%nat = 0%nat
}.

Lemma count_id_app {A} id (q1 q2 : list (nat * A)) : count_id id (q1 ++ q2) = (count_id id q1 + count_id id q2)%nat.
Proof. unfold count_id. by rewrite List.filter_app, length_app. Qed.
Lemma count_id_cons {A} id i (a : A) q : count_id id ((i, a) :: q) = ((if decide (i = id) then 1 else 0) + count_id id q)%nat.
Proof. unfold count_id. simpl. case_bool_decide; case_decide; try done. Qed.
Lemma count_snoc f t e : count f (t ++ [e]) = (count f t + (if f e then 1 else 0))%nat.
Proof. unfold count. rewrite List.filter_app, length_app. simpl. by destruct (f e). Qed.

Lemma count_elem t id : Enqueued id ∈ t -> (1 <= count (queued_id id) t)%nat.
Proof.
  intros (t1 & t2 & ->)%list_elem_of_split. unfold count. rewrite List.filter_app, length_app. cbn [List.filter queued_id].
  rewrite bool_decide_eq_true_2 by done. simpl. lia.
Qed.

Lemma count_id_nil {A} id : count_id id (@nil (nat * A)) = 0%nat.
Proof. done. Qed.

Create Rewrite HintDb pipe.
#[export] Hint Rewrite @count_id_app @count_id_cons count_snoc @count_id_nil : pipe.

Definition wants_budget (w : worker) : option unit := match w with WantBudget _ => Some () | _ => None end.

(** Membership as a number. *)
Definition has (x : nat) (X : gset nat) : nat := if decide (x ∈ X) then 1 else 0.

Lemma has_iff x X : has x X = 1%nat <-> x ∈ X.
Proof. unfold has. case_decide; split; try done; lia. Qed.
Lemma has_acquire x n id b : has x (held (acquire n id b)) = (if decide (id = x) then 1 else has x (held b))%nat.
Proof.
  unfold has. cbn [acquire held].
  destruct (decide (id = x)) as [->|]; [rewrite decide_True by set_solver; done|]. apply decide_ext. set_solver.
Qed.
Lemma has_release x n id b : has x (held (release n id b)) = (if decide (id = x) then 0 else has x (held b))%nat.
Proof.
  unfold has. cbn [release held].
  destruct (decide (id = x)) as [->|]; [rewrite decide_False by set_solver; done|]. apply decide_ext. set_solver.
Qed.
Lemma has_le x X : (has x X <= 1)%nat.
Proof. unfold has. case_decide; lia. Qed.
Lemma present_bind {A B} (f : A -> option B) o : (present (o ≫= f) <= present o <= 1)%nat.
Proof. destruct o as [a|]; simpl; [destruct (f a); simpl|]; lia. Qed.
Lemma present_le {A} (o : option A) : (present o <= 1)%nat.
Proof. destruct o; simpl; lia. Qed.

(** Case analysis on one step, with the updated components visible. *)
Ltac updates :=
  unfold fail, set_phase, set_request_buffers, set_reply_buffers, set_running, set_workers, set_processor, set_writer,
    set_shared in *;
  repeat match goal with |- context [if ?b then _ else _] => lazymatch type of b with bool => destruct b eqn:? end end;
  cbn [rd pr wr sh status input phase next_id queue receiver_closed workers processor_done replies writing output
    shutdown running request_buffers reply_buffers] in *.
Ltac own_cases H :=
  destruct H as [e c' Hst H|e c' Hst H|e c' Hst H|e c' Hst H|Hst ? ? ?]; [destruct H..|]; updates.
Ltac step_cases H := destruct H as [e c' H|c' H]; [own_cases H|destruct H; updates].

(** A step does not make places for a request. *)
Ltac places :=
  unfold early, mid, late in *;
  cbn [rd pr wr sh status input phase next_id queue receiver_closed workers processor_done replies writing output
    shutdown running request_buffers reply_buffers at_reader at_body at_writer at_worker present wrote_id read_id queued_id] in *;
  autorewrite with pipe in *.

Lemma at_worker_present w : (at_worker w <= present w <= 1)%nat.
Proof. destruct w as [[| | |[|]]|]; simpl; lia. Qed.

(** Decide which request the changed places belong to. *)
Ltac decide_ids :=
  repeat match goal with
  | |- context [decide (?i = ?x)] => destruct (decide (i = x)) as [E|?]; [try subst i|]
  | H : context [decide (?i = ?x)] |- _ => destruct (decide (i = x)) as [E|?]; [try subst i|]
  | |- context [bool_decide (?i = ?x)] => destruct (bool_decide_reflect (i = x)) as [E|?]; [try subst i|]
  | |- context [<[?i := ?w]> ?m !! ?x] =>
      destruct (decide (i = x)) as [E|?]; [subst i; rewrite (lookup_insert_eq m x w)|rewrite (lookup_insert_ne m i x w) by done]
  | |- context [delete ?i ?m !! ?x] =>
      destruct (decide (i = x)) as [E|?]; [subst i; rewrite (lookup_delete_eq m x)|rewrite (lookup_delete_ne m i x) by done]
  end.
Ltac lookups :=
  rewrite ?lookup_empty, ?lookup_insert_eq, ?lookup_delete_eq; rewrite ?lookup_insert_ne, ?lookup_delete_ne by done;
  repeat match goal with H : workers _ !! ?i = Some _, H' : context [workers _ !! ?i] |- _ =>
    lazymatch H' with H => fail | _ => rewrite H in H' end end;
  repeat match goal with H : context [∅ !! _] |- _ => rewrite lookup_empty in H end;
  repeat match goal with H : workers _ !! ?i = Some _ |- context [workers _ !! ?i] => rewrite H end;
  cbn [mbind option_bind present at_worker request_worker reply_worker wants_budget wrote_id read_id queued_id] in *.

(** Bounds on the counts that are left. *)
Ltac bounds x :=
  repeat match goal with
  | |- context [present (?o ≫= ?f)] => pose proof (present_bind f o); generalize dependent (present (o ≫= f)); intros
  | |- context [has ?y ?X] => pose proof (has_le y X); generalize dependent (has y X); intros
  end;
  match goal with |- context [workers ?p !! x] => pose proof (at_worker_present (workers p !! x)) | _ => idtac end.

(** Prove a statement about the counts of every request after a step. *)
Ltac solve_counts :=
  intros x; unfold request_refs, reply_refs, early, mid, late in *;
  repeat match goal with H : forall id : nat, _ |- _ => specialize (H x) end;
  places;
  repeat match goal with
  | H : phase (rd _) = _ |- _ => rewrite H in *
  | H : queue (pr _) = _ |- _ => rewrite H in *
  | H : workers (pr _) = ∅ |- _ => rewrite H in *
  | H : writing (wr _) = _ |- _ => rewrite H in *
  | H : replies (wr _) = _ |- _ => rewrite H in *
  end;
  autorewrite with pipe in *; rewrite ?has_acquire, ?has_release in *;
  cbn [at_reader at_body at_writer held wrote_id read_id queued_id] in *; decide_ids; lookups; bounds x; try lia.

Section Delivery.
Context (alloc : Z -> option Z) (vec_capacity : list byte -> Z).
Context (l : ServerLimits) (outcome : list byte -> result ServerError.t EncodedReply -> Prop).
Abbreviation step := (cstep alloc vec_capacity l outcome).
Abbreviation steps := (csteps alloc vec_capacity l outcome).

Lemma tokens_step t c e c' : tokens t c -> step c e c' -> tokens (t ++ [e]) c'.
Proof. intros [Ho He Hf] H. step_cases H. all: split; solve_counts. Qed.

(** ** Byte budgets *)

(** Permits are neither created nor lost. *)
Record conserved (total : Z) (b : budget) : Prop := {
  cons_free : 0 <= free b;
  cons_foreign : 0 <= foreign b;
  cons_total : free b + foreign b + charge l * Z.of_nat (size (held b)) = total
}.

Lemma conserved_acquire total id b :
  0 <= charge l -> conserved total b -> charge l <= free b -> id ∉ held b -> conserved total (acquire (charge l) id b).
Proof.
  intros Hc [H1 H2 H3] Hf Hid. split; cbn [acquire free foreign held]; [lia|done|].
  rewrite size_union, size_singleton by set_solver. lia.
Qed.

Lemma conserved_release total id b :
  0 <= charge l -> conserved total b -> id ∈ held b -> conserved total (release (charge l) id b).
Proof.
  intros Hc [H1 H2 H3] Hid. split; cbn [release free foreign held]; [lia|done|].
  rewrite size_difference, size_singleton by set_solver.
  destruct (size (held b)) as [|n] eqn:E; [apply size_empty_iff in E; set_solver|].
  rewrite Nat.sub_succ, Nat.sub_0_r. lia.
Qed.

Lemma conserved_transfer total n b :
  conserved total b -> - foreign b <= n <= free b -> conserved total (mkBudget (free b - n) (foreign b + n) (held b)).
Proof. intros [H1 H2 H3] Hn. split; cbn [free foreign held]; lia. Qed.

(** Whoever refers to a reservation finds it held, and a request has no reply
    reservation before its task asks for one. *)
Record reserved (c : conn) : Prop := {
  res_request id : (request_refs c id <= has id (held (request_buffers (sh c))))%nat;
  res_reply id : (0 < reply_refs c id)%nat -> has id (held (reply_buffers (sh c))) = 1%nat;
  res_known id : has id (held (request_buffers (sh c))) = 1%nat -> (id < next_id (rd c))%nat;
  res_later id : has id (held (reply_buffers (sh c))) = 1%nat ->
    (id < next_id (rd c))%nat /\ (early c id + present (workers (pr c) !! id ≫= wants_budget))%nat = 0%nat
}.

Lemma reserved_step t c e c' : tokens t c -> reserved c -> step c e c' -> reserved c'.
Proof. intros [Ho He Hf] [H1 H2 H3 H4] H. step_cases H. all: split; solve_counts. Qed.

Record budgets (c : conn) : Prop := {
  bud_request : conserved (max_buffered_request_bytes l) (request_buffers (sh c));
  bud_reply : conserved (max_buffered_reply_bytes l) (reply_buffers (sh c))
}.

Lemma budgets_step c e c' : 0 <= charge l -> reserved c -> budgets c -> step c e c' -> budgets c'.
Proof.
  intros Hc [R1 R2 R3 R4] [B1 B2] H. step_cases H. all: split; cbn [sh request_buffers reply_buffers]; try done.
  - apply conserved_acquire; try done. intros Hid. apply has_iff in Hid. apply R3 in Hid. lia.
  - apply conserved_acquire; try done. intros Hid. apply has_iff in Hid. apply R4 in Hid as [_ Hid].
    rewrite H in Hid. cbn in Hid. lia.
  - by apply conserved_transfer.
  - by apply conserved_transfer.
  - by apply conserved_release.
  - by apply conserved_release.
Qed.

(** *** Bytes in memory *)

(** The request bytes a connection and its executions keep under a permit, by
    request; a record that is still being read counts at its largest. *)
Definition reader_sizes (p : reader_phase) : list (nat * Z) :=
  match p with InBody id => [(id, charge l)] | Sending id record => [(id, zlen record)] | _ => [] end.
Definition request_sizes (c : conn) : list (nat * Z) :=
  reader_sizes (phase (rd c)) ++ (prod_map id zlen <$> queue (pr c)) ++
  (prod_map id zlen <$> map_to_list (omap request_worker (workers (pr c)))) ++
  (prod_map id zlen <$> map_to_list (running (sh c))).

(** [dispatch_record] keeps its record until the execution it started has
    answered, while the permit of the record went to that execution: the records
    that are left when the execution is over, but its request task has not
    returned from [receive.await] yet. *)
Definition lingering (c : conn) : gmap nat (list byte) :=
  map_imap (fun id w => match w, running (sh c) !! id with Dispatching record true, None => Some record | _, _ => None end)
    (workers (pr c)).
Definition lingering_sizes (c : conn) : list (nat * Z) := prod_map id zlen <$> map_to_list (lingering c).

(** The reply bytes, by request. The reply of a request task that is still inside
    [dispatch_record] is with its execution or in the channel between them, and
    counts at its largest. So does the reply of an execution whose request task
    is gone and has left nothing for the writer; else it is the same shared
    bytes that the task or the writer has. *)
Definition reply_bytes (w : worker) : option Z :=
  match w with Dispatching _ _ => Some (charge l) | Replying reply => Some (zlen (wire reply)) | _ => None end.
Definition writer_sizes (p : writer_phase) : list (nat * Z) :=
  match p with Writing id reply => [(id, zlen (wire reply))] | _ => [] end.
Definition reply_elsewhere (c : conn) (id : nat) : nat :=
  (present (workers (pr c) !! id ≫= reply_worker) + count_id id (replies (wr c)) + at_writer (writing (wr c)) id)%nat.
Definition detached (c : conn) : gmap nat (list byte) := filter (fun x => reply_elsewhere c x.1 = 0%nat) (running (sh c)).
Definition reply_sizes (c : conn) : list (nat * Z) :=
  map_to_list (omap reply_bytes (workers (pr c))) ++ (prod_map id (fun r => zlen (wire r)) <$> replies (wr c)) ++
  writer_sizes (writing (wr c)) ++ (prod_map id (fun _ => charge l) <$> map_to_list (detached c)).

Definition total_size (q : list (nat * Z)) : Z := foldr Z.add 0 q.*2.

Lemma count_id_fmap {A B} (f : A -> B) x (q : list (nat * A)) : count_id x (prod_map id f <$> q) = count_id x q.
Proof. induction q as [|[i a] q IH]; [done|]. rewrite fmap_cons. cbn [prod_map id]. by rewrite !count_id_cons, IH. Qed.

Lemma count_id_perm {A} x (q1 q2 : list (nat * A)) : q1 ≡ₚ q2 -> count_id x q1 = count_id x q2.
Proof.
  induction 1 as [|[i a] q1 q2 _ IH|[i a] [j b] q|q1 q2 q3 _ IH1 _ IH2]; rewrite ?count_id_cons; [done|by rewrite IH|lia|].
  by rewrite IH1.
Qed.

Lemma count_id_map {A} x (m : gmap nat A) : count_id x (map_to_list m) = present (m !! x).
Proof.
  induction m as [|i a m Hi IH] using map_ind; [by rewrite map_to_list_empty|].
  rewrite (count_id_perm _ _ _ (map_to_list_insert m i a Hi)), count_id_cons, IH.
  destruct (decide (i = x)) as [->|]; [by rewrite lookup_insert_eq, Hi|by rewrite lookup_insert_ne].
Qed.

Lemma count_request_sizes x c : count_id x (request_sizes c) = request_refs c x.
Proof.
  unfold request_sizes, request_refs. rewrite !count_id_app, !count_id_fmap, !count_id_map, lookup_omap.
  replace (count_id x (reader_sizes (phase (rd c)))) with (at_reader (phase (rd c)) x); [lia|].
  destruct (phase (rd c)); try done; simpl; by rewrite count_id_cons, count_id_nil, Nat.add_0_r.
Qed.

Lemma count_reply_sizes x c :
  count_id x (reply_sizes c) = (reply_elsewhere c x + present (detached c !! x))%nat.
Proof.
  unfold reply_sizes, reply_elsewhere. rewrite !count_id_app, !count_id_fmap, !count_id_map, lookup_omap.
  assert (count_id x (writer_sizes (writing (wr c))) = at_writer (writing (wr c)) x) as ->.
  { destruct (writing (wr c)); try done. simpl. by rewrite count_id_cons, count_id_nil, Nat.add_0_r. }
  assert (present (workers (pr c) !! x ≫= reply_bytes) = present (workers (pr c) !! x ≫= reply_worker)) as ->.
  { by destruct (workers (pr c) !! x) as [[]|]. }
  lia.
Qed.

(** A detached reply is counted only when nothing else of its request is. *)
Lemma detached_alone x c :
  (present (detached c !! x) <= present (running (sh c) !! x))%nat /\
  ((0 < present (detached c !! x))%nat -> reply_elsewhere c x = 0%nat).
Proof.
  destruct (detached c !! x) as [r|] eqn:E; simpl; [|lia].
  apply map_lookup_filter_Some in E as [E H]. rewrite E. simpl. split; [lia|done].
Qed.

Lemma lingering_lookup c x record :
  lingering c !! x = Some record <-> workers (pr c) !! x = Some (Dispatching record true) /\ running (sh c) !! x = None.
Proof.
  unfold lingering. rewrite map_lookup_imap. destruct (workers (pr c) !! x) as [[|r []| |]|]; simpl;
    destruct (running (sh c) !! x); split; try done; try (by intros [= ->]); by intros [[= ->] ?].
Qed.

Lemma count_lingering_sizes x c : count_id x (lingering_sizes c) = present (lingering c !! x).
Proof. unfold lingering_sizes. by rewrite count_id_fmap, count_id_map. Qed.

(** Sizes of at most [m] under distinct reserved identifiers. *)
Lemma total_size_bound m q (X : gset nat) :
  0 <= m -> (forall x, count_id x q <= has x X)%nat -> Forall (fun s => s.2 <= m) q -> total_size q <= m * Z.of_nat (size X).
Proof.
  intros Hm Hc Hf. revert X Hc. induction Hf as [|[i s] q Hs Hf IH]; intros X Hc; cbn [total_size foldr fmap list_fmap]; [lia|].
  assert (i ∈ X) as Hi.
  { apply has_iff. specialize (Hc i). rewrite count_id_cons, decide_True in Hc by done. pose proof (has_le i X). lia. }
  specialize (IH (X ∖ {[i]})). rewrite size_difference, size_singleton in IH by set_solver.
  assert (size X <> 0%nat) as Hn by (rewrite size_empty_iff; set_solver).
  unfold total_size in IH. cbn [snd] in *. enough (foldr Z.add 0 q.*2 <= m * Z.of_nat (size X - 1)) by nia.
  apply IH. intros x. specialize (Hc x). rewrite count_id_cons in Hc. unfold has in *.
  repeat destruct (decide _); set_solver by lia.
Qed.

(** ** What is on its way *)

Inductive holds_record (c : conn) (id : nat) (record : list byte) : Prop :=
| record_sending : phase (rd c) = Sending id record -> holds_record c id record
| record_queued : (id, record) ∈ queue (pr c) -> holds_record c id record
| record_waiting : workers (pr c) !! id = Some (WantBudget record) -> holds_record c id record
| record_dispatching b : workers (pr c) !! id = Some (Dispatching record b) -> holds_record c id record
| record_running : running (sh c) !! id = Some record -> holds_record c id record.

Inductive holds_reply (c : conn) (id : nat) (reply : EncodedReply) : Prop :=
| reply_sending : workers (pr c) !! id = Some (Replying reply) -> holds_reply c id reply
| reply_queued : (id, reply) ∈ replies (wr c) -> holds_reply c id reply
| reply_writing : writing (wr c) = Writing id reply -> holds_reply c id reply.

(** A record the connection has read, and a reply to one. *)
Definition was_read (t : list event) (id : nat) (record : list byte) : Prop :=
  ReadRecord id record ∈ t /\ zlen record <= charge l.
Definition good_reply (t : list event) (id : nat) (reply : EncodedReply) : Prop :=
  exists record, was_read t id record /\ answers l record reply.

Lemma was_read_mono t t' id record : was_read t id record -> was_read (t ++ t') id record.
Proof. intros [? ?]. split; [|done]. apply elem_of_app. by left. Qed.
Lemma good_reply_mono t t' id reply : good_reply t id reply -> good_reply (t ++ t') id reply.
Proof. intros (r & ? & ?). exists r. split; [by apply was_read_mono|done]. Qed.

Context (valid : limits_valid l).

Lemma attempt_read_bound n s record s' :
  charge l <= n -> attempt_read alloc l n s = Ready (Ok (record, s')) -> zlen record <= charge l.
Proof.
  intros Hn H. unfold attempt_read in H.
  pose proof (valid_fragments l valid). pose proof (valid_fragment l valid). pose proof (valid_record l valid).
  destruct (read_budgeted_cases alloc (record_limits l) (mkSemaphore n false) s) as [E _];
    [unfold record_limits; simpl; lia..|done|].
  rewrite E in H by done. destruct (read_record alloc (record_limits l) s) as [[r s1]|] eqn:Er; [|done].
  cbn [budgeted] in H. injection H as -> ->. unfold read_record in Er.
  apply read_fragments_sound in Er as (cs & _ & _ & _ & _ & _ & Hl & _); [done|done|].
  rewrite Z2Nat.id by (unfold record_limits; simpl; lia). lia.
Qed.

(** Follow what a changed place holds back to where it came from. *)
Ltac track :=
  cbn [rd pr wr sh status input phase next_id queue receiver_closed workers processor_done replies writing output
    shutdown running request_buffers reply_buffers] in *;
  repeat match goal with
  | H : <[_ := _]> _ !! _ = Some _ |- _ => apply lookup_insert_Some in H as [[? ?]|[? H]]; simplify_eq
  | H : delete _ _ !! _ = Some _ |- _ => apply lookup_delete_Some in H as [? H]
  | H : ∅ !! _ = Some _ |- _ => by rewrite lookup_empty in H
  | H : _ ∈ _ ++ _ |- _ => apply elem_of_app in H as [H|H]
  | H : _ ∈ [_] |- _ => apply list_elem_of_singleton in H; simplify_eq
  | H : _ ∈ [] |- _ => by apply elem_of_nil in H
  | H : (if ?b then _ else _) = _ |- _ => destruct b; simplify_eq
  end; simplify_eq.

Lemma record_step c e c' id record :
  step c e c' -> holds_record c' id record ->
  holds_record c id record \/ (e = ReadRecord id record /\ zlen record <= charge l).
Proof.
  intros H. step_cases H; intros Hh; destruct Hh; track; try (left; by econstructor).
  - right. split; [done|]. by eapply attempt_read_bound.
  - left. apply record_queued. rewrite H0. by apply list_elem_of_further.
  - left. apply record_queued. rewrite H0. by apply list_elem_of_here.
Qed.

Lemma reply_step c e c' id reply :
  step c e c' -> holds_reply c' id reply ->
  holds_reply c id reply \/
  exists record r, holds_record c id record /\ outcome record r /\ reply = reply_of vec_capacity record r.
Proof.
  intros H. step_cases H; intros Hh; destruct Hh; track; try (left; by econstructor).
  - right. eexists _, _. split_and!; [by eapply record_dispatching|done|done].
  - left. apply reply_queued. rewrite H0. by apply list_elem_of_further.
  - left. apply reply_queued. rewrite H0. by apply list_elem_of_here.
Qed.

Lemma wrote_held c id reply c' : step c (Wrote id reply) c' -> holds_reply c id reply.
Proof.
  intros H. remember (Wrote id reply) as e eqn:E. revert E. step_cases H; intros E; simplify_eq. by apply reply_writing.
Qed.

Context (vec_capacity_ge : forall v, zlen v <= vec_capacity v) `{!Dispatcher l outcome}.

Lemma error_reply_answers record : answers l record (error_reply vec_capacity record).
Proof.
  unfold error_reply. fold (record_xid record). set (xid := record_xid record).
  pose proof (reply_ok_accepted vec_capacity vec_capacity_ge xid 304 SYSTEM_ERR ltac:(lia)) as (Hwf & Hx & Hl).
  split; [done|]. unfold validate_record. rewrite <- (len_wire _ Hwf).
  pose proof (valid_mutation _ valid) as Hm. unfold MAXIMUM_MUTATION_REPLY_SIZE in Hm.
  apply validate_record_length_iff; [done| |lia]. rewrite (len_wire _ Hwf). apply zlen_nonneg.
Qed.

Lemma reply_of_answers record r : outcome record r -> answers l record (reply_of vec_capacity record r).
Proof. destruct r; [apply dispatched_answers|intros _; apply error_reply_answers]. Qed.

(** Everything a connection holds comes from a record it read. *)
Record contents (t : list event) (c : conn) : Prop := {
  con_record id record : holds_record c id record -> was_read t id record;
  con_reply id reply : holds_reply c id reply -> good_reply t id reply;
  con_wrote id reply : Wrote id reply ∈ t -> good_reply t id reply
}.

Lemma contents_step t c e c' : contents t c -> step c e c' -> contents (t ++ [e]) c'.
Proof.
  intros [C1 C2 C3] H. split.
  - intros id record Hh. destruct (record_step _ _ _ _ _ H Hh) as [Hh'|[-> Hl]].
    + by apply was_read_mono, C1.
    + split; [apply elem_of_app; right; by apply list_elem_of_singleton|done].
  - intros id reply Hh. destruct (reply_step _ _ _ _ _ H Hh) as [Hh'|(record & r & Hr & Ho & ->)].
    + by apply good_reply_mono, C2.
    + apply good_reply_mono. exists record. split; [by apply C1|by apply reply_of_answers].
  - intros id reply Hw. apply good_reply_mono. apply elem_of_app in Hw as [Hw|Hw]; [by apply C3|].
    apply list_elem_of_singleton in Hw as <-. apply C2. by eapply wrote_held.
Qed.

(** Each identifier names one record. *)
Record reads (t : list event) (c : conn) : Prop := {
  reads_once id : (count (read_id id) t + at_body (phase (rd c)) id <= 1)%nat;
  reads_fresh id : (next_id (rd c) <= id)%nat -> (count (read_id id) t + at_body (phase (rd c)) id)%nat = 0%nat
}.

Lemma reads_step t c e c' : reads t c -> step c e c' -> reads (t ++ [e]) c'.
Proof. intros [R1 R2] H. step_cases H. all: split; solve_counts. Qed.

(** ** Output *)

Definition sent (t : list event) : list EncodedReply :=
  omap (fun e => match e with Wrote _ reply => Some reply | _ => None end) t.
Definition framed_reply (reply : EncodedReply) : list byte := framed (max_rpc_fragment_size l) (wire reply).

Definition failed (c : conn) : bool := match status c with Some (Err _) => true | _ => false end.

Definition delivered (k : sink) (t : list event) (c : conn) : Prop :=
  failed c = false -> written (output (wr c)) = written k ++ concat (framed_reply <$> sent t).

Lemma sent_snoc t e : sent (t ++ [e]) = sent t ++ match e with Wrote _ reply => [reply] | _ => [] end.
Proof. unfold sent. rewrite omap_app. by destruct e. Qed.

Lemma answers_sends record reply k k' :
  answers l record reply ->
  write_record_segments_limited (segments reply) (record_limits l) k = Some (Ok (), k') ->
  written k' = written k ++ framed_reply reply.
Proof.
  intros [_ Hv] Hw. pose proof (valid_fragment l valid). pose proof (valid_record l valid).
  assert (zlen (wire reply) <= max_rpc_record_size l) as Hr.
  { unfold validate_record, validate_record_length in Hv. destruct (_ <? zlen (wire reply)) eqn:E in Hv; [done|].
    apply Z.ltb_ge in E. done. }
  destruct (segments_deliver (segments reply) (record_limits l)) as [(g & Hg & Hk) _].
  - unfold segments. destruct (storage reply); simpl; lia.
  - unfold wire in Hr. unfold u32_max, usize_max in *. lia.
  - unfold record_limits; simpl. lia.
  - done.
  - rewrite Hk in Hw. injection Hw as Hw. by apply Hg in Hw as [-> _].
Qed.

Lemma delivered_step k t c e c' : contents t c -> delivered k t c -> step c e c' -> delivered k (t ++ [e]) c'.
Proof.
  intros HC HD H. unfold delivered, failed in *. rewrite sent_snoc. revert HD. step_cases H; intros HD Hs; try done;
    rewrite ?Hst in *; try (rewrite app_nil_r; by apply HD).
  rewrite fmap_app, concat_app. cbn [fmap list_fmap concat]. rewrite app_nil_r, app_assoc, <- HD by done.
  destruct (con_reply _ _ HC id reply) as (record & _ & Ha); [by apply reply_writing|]. by eapply answers_sends.
Qed.

(** ** Accounting *)

(** When a task is done, so is everything that feeds it. *)
Record phases (c : conn) : Prop := {
  ph_processor : processor_done (pr c) = true ->
    queue (pr c) = [] /\ workers (pr c) = ∅ /\ (receiver_closed (pr c) = true \/ phase (rd c) = ReaderDone);
  ph_writer : writing (wr c) = WriterDone -> processor_done (pr c) = true /\ replies (wr c) = [];
  ph_status : status c = Some (Ok ()) -> writing (wr c) = WriterDone
}.

Lemma phases_step c e c' : phases c -> step c e c' -> phases c'.
Proof.
  intros [P1 P2 P3] H. revert P1 P2 P3. step_cases H; intros P1 P2 P3; split; cbn; intros; try done;
    repeat match goal with
    | H : ?a = true, P : ?a = true -> _ |- _ => specialize (P H)
    | H : ?a = WriterDone, P : ?a = WriterDone -> _ |- _ => specialize (P H)
    | H : ?a = Some _, P : ?a = Some _ -> _ |- _ => specialize (P H)
    end; destruct_and?;
    repeat match goal with
    | E : workers _ = ∅, H : workers _ !! _ = Some _ |- _ => rewrite E, lookup_empty in H; done
    | H : _ \/ _ |- _ => destruct H
    end;
    split_and?; try done; try congruence; try (by left); try (by right).
Qed.

(** Every queued request is in one place, or answered. *)
Definition accounted (t : list event) (c : conn) : Prop :=
  failed c = false -> forall id, count (queued_id id) t = (count_id id (queue (pr c)) + mid c id + late t c id)%nat.

Lemma accounted_step t c e c' : tokens t c -> phases c -> accounted t c -> step c e c' -> accounted (t ++ [e]) c'.
Proof.
  intros [T1 T2 T3] [P1 P2 P3] HA H. unfold accounted, failed in *. revert HA. step_cases H; intros HA Hs; try done;
    rewrite ?Hst in *; specialize (HA ltac:(done)).
  all: try solve [clear P1 P2 P3; solve_counts].
  exfalso. destruct (P2 H0) as [Hd _]. destruct (P1 Hd) as (_ & E & _). by rewrite E, lookup_empty in H.
Qed.

(** ** Queue bounds *)
Record bounded (c : conn) : Prop := {
  bnd_queue : zlen (queue (pr c)) <= queue_capacity l;
  bnd_replies : zlen (replies (wr c)) <= queue_capacity l;
  bnd_workers : Z.of_nat (size (workers (pr c))) <= max_requests_per_connection l
}.

Lemma size_insert_some {A} (m : gmap nat A) i x y : m !! i = Some y -> size (<[i := x]> m) = size m.
Proof. intros H. rewrite map_size_insert. by rewrite H. Qed.
Lemma size_insert_le {A} (m : gmap nat A) i x : (size (<[i := x]> m) <= S (size m))%nat.
Proof. rewrite map_size_insert. destruct (m !! i); simpl; lia. Qed.
Lemma size_delete_le {A} (m : gmap nat A) i : (size (delete i m) <= size m)%nat.
Proof. rewrite map_size_delete. destruct (m !! i); simpl; lia. Qed.

Lemma bounded_step c e c' : bounded c -> step c e c' -> bounded c'.
Proof.
  intros [B1 B2 B3] H. pose proof (valid_requests l valid) as (_ & Hq & _). revert B1 B2 B3.
  step_cases H; intros B1 B2 B3; split; cbn; try done;
    unfold queue_capacity in *; rewrite ?zlen_app, ?zlen_cons, ?zlen_nil, ?map_size_empty in *; try lia;
    try (erewrite size_insert_some by done; lia);
    try (match goal with |- context [size (<[?i := ?x]> ?m)] => pose proof (size_insert_le m i x) end; lia);
    try (match goal with |- context [size (delete ?i ?m)] => pose proof (size_delete_le m i) end; lia);
    try (match goal with H : _ = _ :: _ |- _ => rewrite H, zlen_cons in * end; lia).
Qed.

(** ** Runs *)
Record serving (k : sink) (t : list event) (c : conn) : Prop := {
  srv_tokens : tokens t c;
  srv_reserved : reserved c;
  srv_budgets : budgets c;
  srv_contents : contents t c;
  srv_reads : reads t c;
  srv_delivered : delivered k t c;
  srv_phases : phases c;
  srv_accounted : accounted t c;
  srv_bounded : bounded c
}.

Lemma charge_nonneg : 0 <= charge l.
Proof. pose proof (valid_record l valid). pose proof (valid_fragment l valid). unfold charge. lia. Qed.

Lemma serving_step k t c e c' : serving k t c -> step c e c' -> serving k (t ++ [e]) c'.
Proof.
  intros [] H. pose proof charge_nonneg. split.
  - by eapply tokens_step.
  - by eapply reserved_step.
  - by eapply budgets_step.
  - by eapply contents_step.
  - by eapply reads_step.
  - by eapply delivered_step.
  - by eapply phases_step.
  - by eapply accounted_step.
  - by eapply bounded_step.
Qed.

Section Runs.
Context (s : stream) (k : sink) (stop : bool) (fq fp : Z).
Context (fq_ok : 0 <= fq <= max_buffered_request_bytes l) (fp_ok : 0 <= fp <= max_buffered_reply_bytes l).
Abbreviation start := (opened l s k stop fq fp).

Lemma serving_opened : serving k [] start.
Proof.
  pose proof charge_nonneg. pose proof (valid_requests l valid) as (_ & Hq & _).
  unfold opened. split.
  - split; intros id; unfold early, mid, late; cbn; rewrite ?lookup_empty; cbn; lia.
  - split; intros id; unfold request_refs, reply_refs, early, has; cbn; rewrite ?lookup_empty; cbn;
      try (destruct (decide _); [set_solver|]); lia.
  - split; split; cbn; rewrite ?size_empty; lia.
  - split; [intros id record Hh; destruct Hh; track|intros id reply Hh; destruct Hh; track|].
    intros id reply Hw. by apply elem_of_nil in Hw.
  - split; intros id; cbn; lia.
  - intros _. cbn. by rewrite app_nil_r.
  - split; cbn; intros; done.
  - intros _ id. unfold mid, late. cbn. by rewrite lookup_empty.
  - split; cbn; unfold queue_capacity; rewrite ?zlen_nil, ?map_size_empty; lia.
Qed.

Lemma serving_steps t c : steps start t c -> serving k t c.
Proof.
  intros H. remember start as c0 eqn:E. induction H as [c|c t c' e c'' _ IH He]; subst; [apply serving_opened|].
  eapply serving_step; [by apply IH|done].
Qed.

Lemma request_bytes_bound t c :
  serving k t c -> total_size (request_sizes c) <= charge l * Z.of_nat (size (held (request_buffers (sh c)))).
Proof.
  intros [_ [R1 _ _ _] _ [C1 _ _] _ _ _ _ _]. apply total_size_bound; [apply charge_nonneg| |].
  - intros x. rewrite count_request_sizes. apply R1.
  - apply Forall_forall. intros [i n] Hi. cbn [snd]. unfold request_sizes in Hi.
    repeat rewrite elem_of_app in Hi. destruct Hi as [Hi|[Hi|[Hi|Hi]]].
    + destruct (phase (rd c)) eqn:E; cbn [reader_sizes] in Hi; track; [lia|]. by eapply C1, record_sending.
    + apply list_elem_of_fmap in Hi as ([j r] & [= -> ->] & Hi). by apply (C1 j r), record_queued.
    + apply list_elem_of_fmap in Hi as ([j r] & [= -> ->] & Hi). apply elem_of_map_to_list in Hi.
      rewrite lookup_omap in Hi. destruct (workers (pr c) !! j) as [[r'|r' []| |]|] eqn:E; simplify_eq/=.
      * by apply (C1 j r), record_waiting.
      * by eapply (C1 j r), record_dispatching.
    + apply list_elem_of_fmap in Hi as ([j r] & [= -> ->] & Hi). apply elem_of_map_to_list in Hi.
      by apply (C1 j r), record_running.
Qed.

Lemma good_reply_size t id reply : good_reply t id reply -> zlen (wire reply) <= charge l.
Proof.
  intros (record & _ & _ & Hv). unfold validate_record, validate_record_length in Hv.
  destruct (_ <? zlen (wire reply)) eqn:E in Hv; [done|]. by apply Z.ltb_ge in E.
Qed.

Lemma reply_bytes_bound t c :
  serving k t c -> total_size (reply_sizes c) <= charge l * Z.of_nat (size (held (reply_buffers (sh c)))).
Proof.
  intros [[T1 _ _] [_ R2 _ _] _ [_ C2 _] _ _ _ _ _]. apply total_size_bound; [apply charge_nonneg| |].
  - intros x. specialize (R2 x). specialize (T1 x). rewrite count_reply_sizes. destruct (detached_alone x c) as [D1 D2].
    pose proof (present_le (detached c !! x)). unfold reply_refs in R2. unfold mid, late in T1. unfold reply_elsewhere in *.
    assert (present (workers (pr c) !! x ≫= reply_worker) <= at_worker (workers (pr c) !! x))%nat; [|lia].
    destruct (workers (pr c) !! x) as [[]|]; simpl; lia.
  - apply Forall_forall. intros [i n] Hi. cbn [snd]. unfold reply_sizes in Hi.
    repeat rewrite elem_of_app in Hi. destruct Hi as [Hi|[Hi|[Hi|Hi]]].
    + apply elem_of_map_to_list in Hi.
      rewrite lookup_omap in Hi. destruct (workers (pr c) !! i) as [[|r b|r|]|] eqn:E; simplify_eq/=; [lia|].
      by eapply good_reply_size, (C2 i r), reply_sending.
    + apply list_elem_of_fmap in Hi as ([j r] & [= -> ->] & Hi). by eapply good_reply_size, (C2 j r), reply_queued.
    + destruct (writing (wr c)) eqn:E; cbn [writer_sizes] in Hi; track. by eapply good_reply_size, C2, reply_writing.
    + apply list_elem_of_fmap in Hi as ([j r] & [= -> ->] & _). lia.
Qed.

(** A lingering record belongs to a request task, which has a reply reservation. *)
Lemma lingering_bytes_bound t c (X : gset nat) :
  serving k t c -> (forall id record, lingering c !! id = Some record -> id ∈ X) ->
  total_size (lingering_sizes c) <= charge l * Z.of_nat (size X).
Proof.
  intros [_ _ _ [C1 _ _] _ _ _ _ _] HX. apply total_size_bound; [apply charge_nonneg| |].
  - intros x. rewrite count_lingering_sizes. destruct (lingering c !! x) as [r|] eqn:E; simpl; [|lia].
    rewrite (proj2 (has_iff x X)); [lia|by eapply HX].
  - apply Forall_forall. intros [i n] Hi. cbn [snd]. apply list_elem_of_fmap in Hi as ([j r] & [= -> ->] & Hi).
    apply elem_of_map_to_list, lingering_lookup in Hi as [Hw _]. by eapply (C1 j r), record_dispatching.
Qed.

(** C6: a connection stays within its budgets. In every interleaving of reader,
    processor, request tasks, writer, executions and other connections, both
    queues and the number of request tasks are within
    [max_requests_per_connection] and the permits of each byte budget are
    conserved. The reply bytes of the connection, those still with executions,
    detached ones included, and the request bytes it has permits for, records
    being read and records kept by detached executions included, are covered by
    permits that nobody else has: with what other connections hold they never
    exceed the configured budgets. The one exception are records of request tasks
    whose execution has ended, taking the request permit with it, before the task
    returned: they fit what the connection may take of the reply budget, and are
    at most one per request task. *)
Theorem connection_bounds t c :
  steps start t c ->
  zlen (queue (pr c)) <= max_requests_per_connection l /\ zlen (replies (wr c)) <= max_requests_per_connection l /\
  Z.of_nat (size (workers (pr c))) <= max_requests_per_connection l /\
  conserved (max_buffered_request_bytes l) (request_buffers (sh c)) /\
  conserved (max_buffered_reply_bytes l) (reply_buffers (sh c)) /\
  total_size (request_sizes c) + foreign (request_buffers (sh c)) <= max_buffered_request_bytes l /\
  total_size (reply_sizes c) + foreign (reply_buffers (sh c)) <= max_buffered_reply_bytes l /\
  total_size (lingering_sizes c) + foreign (reply_buffers (sh c)) <= max_buffered_reply_bytes l /\
  total_size (lingering_sizes c) <= max_rpc_record_size l * max_requests_per_connection l.
Proof.
  intros H. apply serving_steps in H. pose proof (request_bytes_bound _ _ H). pose proof (reply_bytes_bound _ _ H).
  assert (total_size (lingering_sizes c) <= charge l * Z.of_nat (size (held (reply_buffers (sh c))))) as Hl1.
  { apply (lingering_bytes_bound t); [done|]. intros id record [Hw _]%lingering_lookup. apply has_iff.
    apply (res_reply _ (srv_reserved _ _ _ H)). unfold reply_refs. rewrite Hw. simpl. lia. }
  assert (total_size (lingering_sizes c) <= charge l * Z.of_nat (size (dom (workers (pr c))))) as Hl2.
  { apply (lingering_bytes_bound t); [done|]. intros id record [Hw _]%lingering_lookup. by apply elem_of_dom_2 in Hw. }
  rewrite size_dom in Hl2. pose proof charge_nonneg.
  destruct H as [_ _ [B1 B2] _ _ _ _ _ [Q1 Q2 Q3]]. pose proof (cons_free _ _ B1). pose proof (cons_free _ _ B2).
  pose proof (cons_total _ _ B1). pose proof (cons_total _ _ B2).
  split_and!; try done; try lia. etrans; [exact Hl2|]. by apply Z.mul_le_mono_nonneg_l.
Qed.

(** A connection answers each record at most once, and with its own reply.
    Every reply written belongs to exactly one record the connection read, carries
    that record's transaction identifier and is within the transport limits; no
    record gets two replies. What the peer has received is the framing of these
    replies, whole and in the order they were written, as long as the connection
    has not failed. *)
Lemma connection_answers_once t c :
  steps start t c ->
  (forall id, count (wrote_id id) t <= 1 /\ count (read_id id) t <= 1)%nat /\
  (forall id reply, Wrote id reply ∈ t -> exists record, ReadRecord id record ∈ t /\ answers l record reply) /\
  (failed c = false -> written (output (wr c)) = written k ++ concat (framed_reply <$> sent t)).
Proof.
  intros H. apply serving_steps in H. destruct H as [[T1 _ _] _ _ [_ _ C3] [R1 _] HD _ _ _]. split_and!; [| |done].
  - intros id. specialize (T1 id). specialize (R1 id). unfold late in T1. lia.
  - intros id reply Hw. destruct (C3 id reply Hw) as (record & [Hr _] & Ha). by exists record.
Qed.

(** A connection that ends without error has answered everything it accepted.
    When the three tasks have finished, also after a shutdown request, every
    record that entered the request queue has got exactly one reply on the wire,
    and no other reply was written. *)
Lemma connection_complete t c :
  steps start t c -> status c = Some (Ok ()) ->
  forall id, count (wrote_id id) t = count (queued_id id) t /\ (Enqueued id ∈ t -> count (wrote_id id) t = 1%nat).
Proof.
  intros H Hs id. apply serving_steps in H. destruct H as [[T1 _ _] _ _ _ _ _ [P1 P2 P3] HA _].
  destruct (P2 (P3 Hs)) as [Hd Hr]. destruct (P1 Hd) as (Hq & Hw & _).
  specialize (HA ltac:(unfold failed; by rewrite Hs) id). unfold mid, late in HA.
  rewrite Hq, Hw, Hr, (P3 Hs), lookup_empty in HA. cbn in HA. split; [lia|].
  intros He. specialize (T1 id). unfold late in T1. rewrite <- HA. apply count_elem in He. lia.
Qed.
End Runs.
End Delivery.
