(* ===== verification/Promise.v ===== *)
(** * What a client may rely on

    [ledger] is the abstract view of one connection: the records it has accepted
    and not yet answered, and the bytes it has sent. [observe] is the contract: a
    record is taken in reading order, an accepted record is answered at most once
    with a reply that carries its transaction identifier and fits the transport
    limits, and a connection may end without error only when it owes nothing.
    [refines] is the forward simulation that the tasks of [Pipeline] keep this
    contract in every interleaving. *)
From S2P Require Import Prelude Replay RpcCodec VfsTypes RpcRecord Reply Limits Connection Execute Service Pipeline Delivery.
From stdpp Require Import list gmap fin_sets.
#[local] Open Scope Z_scope.

Record ledger : Type := mkLedger {
  next : nat;
  heard : option (nat * list byte);
  owed : gmap nat (list byte);
  out : list byte;
  over : bool
}.

Definition fresh_ledger : ledger := mkLedger 0 None ∅ [] false.

Section Promise.
Context (l : ServerLimits).

Definition acceptable (record : list byte) (reply : EncodedReply) : bool :=
  bool_decide (take 4 (wire reply) = be_bytes 4 (record_xid record)) &&
  match validate_record (wire reply) (record_limits l) with Ok _ => true | Err _ => false end.

Definition observe (p : ledger) (e : event) : option ledger :=
  match e with
  | Tau => Some p
  | _ =>
    if over p then None else
    match e with
    | ReadRecord id record =>
        if bool_decide (id = next p) && bool_decide (heard p = None)
        then Some (mkLedger (S id) (Some (id, record)) (owed p) (out p) false) else None
    | Enqueued id =>
        match heard p with
        | Some (i, record) =>
            if bool_decide (i = id) && bool_decide (owed p !! id = None)
            then Some (mkLedger (next p) None (<[id := record]> (owed p)) (out p) false) else None
        | None => None
        end
    | Wrote id reply =>
        match owed p !! id with
        | Some record =>
            if acceptable record reply
            then Some (mkLedger (next p) (heard p) (delete id (owed p)) (out p ++ framed_reply l reply) false) else None
        | None => None
        end
    | Answered id reply =>
        match owed p !! id with Some record => if acceptable record reply then Some p else None | None => None end
    | Ended r =>
        match r with
        | Ok _ => if bool_decide (owed p = ∅) then Some (mkLedger (next p) (heard p) ∅ (out p) true) else None
        | Err _ => Some (mkLedger (next p) (heard p) (owed p) (out p) true)
        end
    | Tau => Some p
    end
  end.

Fixpoint observe_all (p : ledger) (t : list event) : option ledger :=
  match t with [] => Some p | e :: t' => p' ← observe p e; observe_all p' t' end.

Lemma observe_all_snoc p t e : observe_all p (t ++ [e]) = (p' ← observe_all p t; observe p' e).
Proof.
  revert p. induction t as [|e0 t IH]; intros p; cbn [app observe_all mbind option_bind].
  - by destruct (observe p e).
  - destruct (observe p e0); [apply IH|done].
Qed.

Lemma acceptable_answers record reply : answers l record reply -> acceptable record reply = true.
Proof. intros [Hx Hv]. unfold acceptable. by rewrite bool_decide_eq_true_2, Hv. Qed.

(** One identifier, one record. *)
Lemma read_unique t id r1 r2 :
  (count (read_id id) t <= 1)%nat -> ReadRecord id r1 ∈ t -> ReadRecord id r2 ∈ t -> r1 = r2.
Proof.
  intros Hc (t1 & t2 & ->)%list_elem_of_split H2. unfold count in Hc. rewrite List.filter_app, length_app in Hc.
  cbn [List.filter read_id] in Hc. rewrite bool_decide_eq_true_2 in Hc by done. cbn [length] in Hc.
  assert (forall q, ReadRecord id r2 ∈ q -> (1 <= length (List.filter (read_id id) q))%nat) as Hin.
  { intros q (q1 & q2 & ->)%list_elem_of_split. rewrite List.filter_app, length_app. cbn [List.filter read_id].
    rewrite bool_decide_eq_true_2 by done. simpl. lia. }
  apply elem_of_app in H2 as [H2|H2]; [apply Hin in H2; lia|].
  apply elem_of_cons in H2 as [[= ->]|H2]; [done|apply Hin in H2; lia].
Qed.

(** Where the reader is, seen from the ledger. *)
Definition reading (p : ledger) (n : nat) (ph : reader_phase) : Prop :=
  match ph with
  | AtTop | Reading => next p = n /\ heard p = None
  | InBody id => next p = id /\ n = S id /\ heard p = None
  | Sending id record => next p = n /\ heard p = Some (id, record)
  | ReaderDone => True
  end.

Record tracks (t : list event) (c : conn) (p : ledger) : Prop := {
  tr_over : over p = false <-> status c = None;
  tr_reading : status c = None -> reading p (next_id (rd c)) (phase (rd c));
  tr_owed id : status c = None ->
    present (owed p !! id) = (count_id id (queue (pr c)) + mid c id + count_id id (replies (wr c)) + at_writer (writing (wr c)) id)%nat;
  tr_known id record : owed p !! id = Some record -> ReadRecord id record ∈ t;
  tr_out : out p = concat (framed_reply l <$> sent t);
  tr_ended : status c = Some (Ok ()) -> owed p = ∅
}.

Context (alloc : Z -> option Z) (vec_capacity : list byte -> Z) (outcome : list byte -> result ServerError.t EncodedReply -> Prop).
Abbreviation step := (cstep alloc vec_capacity l outcome).
Abbreviation steps := (csteps alloc vec_capacity l outcome).

Lemma known_snoc t e id (record : list byte) : ReadRecord id record ∈ t -> ReadRecord id record ∈ t ++ [e].
Proof. intros H. apply elem_of_app. by left. Qed.

(** Steps the client does not see. *)
Lemma tracks_tau t c p c' :
  tracks t c p -> status c' = status c -> (status c = None -> reading p (next_id (rd c')) (phase (rd c'))) ->
  (forall id, status c = None ->
     (count_id id (queue (pr c')) + mid c' id + count_id id (replies (wr c')) + at_writer (writing (wr c')) id)%nat =
     (count_id id (queue (pr c)) + mid c id + count_id id (replies (wr c)) + at_writer (writing (wr c)) id)%nat) ->
  tracks (t ++ [Tau]) c' p.
Proof.
  intros [T1 T2 T3 T4 T5 T6] Hs Hr Ho. split; rewrite ?Hs; try done.
  - intros id Hn. by rewrite Ho, T3.
  - intros id record Hk. by apply known_snoc, T4.
  - by rewrite sent_snoc, app_nil_r.
Qed.

Lemma tracks_failed t c p e c' :
  tracks t c p -> status c = None -> status c' = Some (Err e) ->
  exists p', observe p (Ended (Err e)) = Some p' /\ tracks (t ++ [Ended (Err e)]) c' p'.
Proof.
  intros [T1 T2 T3 T4 T5 T6] Hn Hs. cbn [observe]. rewrite (proj2 T1 Hn). eexists. split; [done|].
  split; rewrite ?Hs; cbn [over owed out]; try done.
  - intros id record Hk. by apply known_snoc, T4.
  - by rewrite sent_snoc, app_nil_r.
Qed.

(** The visible steps. *)
Lemma tracks_read t c p id record s :
  tracks t c p -> status c = None -> phase (rd c) = InBody id ->
  exists p', observe p (ReadRecord id record) = Some p' /\
    tracks (t ++ [ReadRecord id record])
      (mkConn (mkReader s (Sending id record) (next_id (rd c))) (pr c) (wr c) (sh c) (status c)) p'.
Proof.
  intros [T1 T2 T3 T4 T5 T6] Hn Hp. specialize (T2 Hn). rewrite Hp in T2. destruct T2 as (T2 & T2' & T2'').
  cbn [observe]. rewrite (proj2 T1 Hn), T2, T2'', !bool_decide_eq_true_2 by done. eexists. split; [done|].
  split; cbn [status rd pr wr sh owed out over reading phase next_id next heard]; try done; rewrite ?Hn; try done.
  - intros i r Hk. by apply known_snoc, T4.
  - by rewrite sent_snoc, app_nil_r.
Qed.

Lemma tracks_enqueued t c p id record :
  tokens t c -> contents l t c -> tracks t c p -> status c = None -> phase (rd c) = Sending id record ->
  exists p', observe p (Enqueued id) = Some p' /\
    tracks (t ++ [Enqueued id]) (set_phase AtTop (set_processor (mkProcessor (queue (pr c) ++ [(id, record)])
      (receiver_closed (pr c)) (workers (pr c)) (processor_done (pr c))) c)) p'.
Proof.
  intros HK HC [T1 T2 T3 T4 T5 T6] Hn Hp. specialize (T2 Hn). rewrite Hp in T2. destruct T2 as (T2 & T2').
  assert (owed p !! id = None) as Ho.
  { specialize (T3 id Hn). pose proof (tok_once t c HK id) as Ht. unfold early, late in Ht. rewrite Hp in Ht.
    cbn [at_reader] in Ht. rewrite decide_True in Ht by done. destruct (owed p !! id); [simpl in T3; lia|done]. }
  cbn [observe]. rewrite (proj2 T1 Hn), T2', Ho, !bool_decide_eq_true_2 by done. eexists. split; [done|].
  split; cbn [set_phase set_processor status rd pr wr sh owed out over reading phase next_id next heard queue replies writing];
    try done; rewrite ?Hn; try done.
  - intros i _. unfold mid. cbn [set_phase set_processor pr workers]. rewrite count_id_app, count_id_cons, count_id_nil.
    specialize (T3 i Hn). unfold mid in T3. destruct (decide (id = i)) as [<-|].
    + rewrite lookup_insert_eq. rewrite Ho in T3. simpl in *. lia.
    + rewrite lookup_insert_ne by done. lia.
  - intros i r Hk. apply known_snoc. apply lookup_insert_Some in Hk as [[<- <-]|[_ Hk]]; [|by apply T4].
    apply (con_record _ _ _ HC id record). by apply record_sending.
  - by rewrite sent_snoc, app_nil_r.
Qed.

(** A reply to a request that is owed one is acceptable. *)
Lemma owed_reply t c p id reply :
  reads t c -> tracks t c p -> good_reply l t id reply -> (0 < present (owed p !! id))%nat ->
  exists record, owed p !! id = Some record /\ acceptable record reply = true.
Proof.
  intros [R1 _] [T1 T2 T3 T4 T5 T6] (record & [Hr _] & Ha) Ho. destruct (owed p !! id) as [record'|] eqn:E; [|simpl in Ho; lia].
  exists record'. split; [done|]. apply T4 in E. rewrite (read_unique t id record' record); [by apply acceptable_answers| |done|done].
  specialize (R1 id). lia.
Qed.

Lemma tracks_wrote t c p id reply k' :
  serving l k' t c -> tracks t c p -> status c = None -> writing (wr c) = Writing id reply -> forall k,
  exists p', observe p (Wrote id reply) = Some p' /\
    tracks (t ++ [Wrote id reply]) (set_writer (mkWriter (replies (wr c)) Idle k) c) p'.
Proof.
  intros HS HT Hn Hw k. pose proof HT as [T1 T2 T3 T4 T5 T6]. pose proof (T3 id Hn) as Ho.
  rewrite Hw in Ho. cbn [at_writer] in Ho. rewrite decide_True in Ho by done.
  destruct (owed_reply t c p id reply (srv_reads _ _ _ _ HS) HT) as (record & Hr & Ha); [|lia|].
  { apply (con_reply _ _ _ (srv_contents _ _ _ _ HS)). by apply reply_writing. }
  cbn [observe]. rewrite (proj2 T1 Hn), Hr, Ha. eexists. split; [done|].
  split; cbn [set_writer status rd pr wr sh owed out over reading phase next_id next heard queue replies writing]; try done;
    rewrite ?Hn; try done.
  - intros i _. specialize (T3 i Hn). rewrite Hw in T3. unfold mid in *. cbn [set_writer pr at_writer] in *.
    destruct (decide (id = i)) as [<-|]; [rewrite lookup_delete_eq|rewrite lookup_delete_ne by done; lia].
    rewrite Hr in T3. simpl in *. lia.
  - intros i r Hk. apply lookup_delete_Some in Hk as [_ Hk]. by apply known_snoc, T4.
  - rewrite sent_snoc, fmap_app, concat_app, <- T5. cbn. by rewrite app_nil_r.
Qed.

Context (valid : limits_valid l) (vec_capacity_ge : forall v, zlen v <= vec_capacity v) `{!Dispatcher l outcome}.

Lemma tracks_answered t c p k id record b r :
  serving l k t c -> tracks t c p -> status c = None -> workers (pr c) !! id = Some (Dispatching record b) -> outcome record r ->
  observe p (Answered id (reply_of vec_capacity record r)) = Some p /\
  tracks (t ++ [Answered id (reply_of vec_capacity record r)])
    (set_workers (<[id := Replying (reply_of vec_capacity record r)]> (workers (pr c))) c) p.
Proof.
  intros HS HT Hn Hw Ho. pose proof HT as [T1 T2 T3 T4 T5 T6]. pose proof (T3 id Hn) as Hp. unfold mid in Hp. rewrite Hw in Hp.
  cbn [at_worker] in Hp. set (reply := reply_of vec_capacity record r).
  destruct (owed_reply t c p id reply (srv_reads _ _ _ _ HS) HT) as (record' & Hr & Ha); [|lia|].
  { exists record. split; [|by apply (reply_of_answers vec_capacity l outcome)].
    apply (con_record _ _ _ (srv_contents _ _ _ _ HS)). by eapply record_dispatching. }
  cbn [observe]. rewrite (proj2 T1 Hn), Hr, Ha. split; [done|].
  split; cbn [set_workers set_processor status rd pr wr sh queue]; try done.
  - intros i _. rewrite T3 by done. unfold mid. cbn [set_workers set_processor pr workers].
    destruct (decide (id = i)) as [<-|]; [rewrite lookup_insert_eq, Hw|rewrite lookup_insert_ne by done]; done.
  - intros i rec Hk. by apply known_snoc, T4.
  - by rewrite sent_snoc, app_nil_r.
Qed.

Lemma tracks_joined t c p k :
  serving l k t c -> tracks t c p -> status c = None -> writing (wr c) = WriterDone ->
  exists p', observe p (Ended (Ok ())) = Some p' /\
    tracks (t ++ [Ended (Ok ())]) (mkConn (rd c) (pr c) (wr c) (sh c) (Some (Ok ()))) p'.
Proof.
  intros HS [T1 T2 T3 T4 T5 T6] Hn Hw. destruct (srv_phases _ _ _ _ HS) as [P1 P2 _].
  destruct (P2 Hw) as [Hd Hr]. destruct (P1 Hd) as (Hq & Hm & _).
  assert (owed p = ∅) as He.
  { apply map_empty. intros id. specialize (T3 id Hn). unfold mid in T3. rewrite Hq, Hm, Hr, Hw, lookup_empty in T3.
    cbn in T3. by destruct (owed p !! id). }
  cbn [observe]. rewrite (proj2 T1 Hn), He, bool_decide_eq_true_2 by done. eexists. split; [done|].
  split; cbn [status owed out over]; try done.
  by rewrite sent_snoc, app_nil_r.
Qed.

(** The simulation step. *)
Lemma tracks_step k t c p e c' :
  serving l k t c -> tracks t c p -> step c e c' -> exists p', observe p e = Some p' /\ tracks (t ++ [e]) c' p'.
Proof.
  intros HS HT H.
  assert (forall q, tracks (t ++ [Tau]) q p -> exists p', observe p Tau = Some p' /\ tracks (t ++ [Tau]) q p') as Hq by eauto.
  pose proof (srv_tokens _ _ _ _ HS) as [_ K2 _]. pose proof (tr_reading _ _ _ HT) as HR.
  destruct H as [e c' H|c' H].
  - destruct H as [e c' Hst H|e c' Hst H|e c' Hst H|e c' Hst H|Hst ? ? ?].
    + specialize (HR Hst). destruct H.
      all: try solve [apply Hq, (tracks_tau _ _ _ _ HT); [done| |done]; intros _; cbn; rewrite ?H in HR; try done; by destruct (shutdown (sh c))].
      all: try solve [by eapply tracks_failed].
      * apply Hq, (tracks_tau _ _ _ _ HT); [done| |done]. intros _. rewrite H in HR. destruct HR as [? ?]. cbn. by split_and!.
      * by apply tracks_read.
      * destruct (clean_end e); [|by eapply tracks_failed]. by apply Hq, (tracks_tau _ _ _ _ HT).
      * by eapply tracks_enqueued; [apply (srv_tokens _ _ _ _ HS)|apply (srv_contents _ _ _ _ HS)|..].
    + destruct H; try solve [by eapply tracks_failed]; apply Hq, (tracks_tau _ _ _ _ HT); try done;
        intros x _; revert x; clear HR; updates; solve_counts.
    + destruct H; try (apply Hq, (tracks_tau _ _ _ _ HT); try done; intros x _; revert x; clear HR; updates; solve_counts).
      * exists p. by eapply tracks_answered.
      * destruct (srv_phases _ _ _ _ HS) as [P1 P2 _]. destruct (P2 H0) as [Hd _]. destruct (P1 Hd) as (_ & Hw & _).
        rewrite Hw in *. done.
    + destruct H; try solve [by eapply tracks_failed|by eapply tracks_wrote];
        apply Hq, (tracks_tau _ _ _ _ HT); try done; intros x _; revert x; clear HR; updates; solve_counts.
    + by eapply tracks_joined.
  - apply Hq. destruct H; by apply (tracks_tau _ _ _ _ HT).
Qed.

(** Every run keeps the contract. *)
Lemma refines s k stop fq fp t c :
  0 <= fq <= max_buffered_request_bytes l -> 0 <= fp <= max_buffered_reply_bytes l ->
  steps (opened l s k stop fq fp) t c -> exists p, observe_all fresh_ledger t = Some p /\ tracks t c p.
Proof.
  intros Hq Hp H. remember (opened l s k stop fq fp) as c0 eqn:E. induction H as [c|c t c' e c'' H IH He]; subst c.
  - exists fresh_ledger. split; [done|]. by split.
  - destruct (IH eq_refl) as (p & Hr & Ht). rewrite observe_all_snoc, Hr.
    by eapply tracks_step; [eapply serving_steps|..].
Qed.
End Promise.
