(* ===== verification/Drain.v ===== *)
(** * Draining a connection

    After a shutdown request a connection takes only finitely many further steps,
    whatever the rest of the server does, and it can always take one until it has
    ended: every wait of its tasks is bounded by a deadline. *)
From S2P Require Import Prelude Measure Replay RpcCodec VfsTypes RpcRecord Reply Limits Connection Execute Service Pipeline Delivery.
From stdpp Require Import list gmap fin_sets.
#[local] Open Scope Z_scope.

(** ** A measure *)

(** How many steps a record or reply at a place can still cause. *)
Definition reader_weight (p : reader_phase) : nat :=
  match p with AtTop => 1 | Reading => 12 | InBody _ => 11 | Sending _ _ => 10 | ReaderDone => 0 end.
Definition worker_weight (w : worker) : nat :=
  match w with WantBudget _ => 7 | Dispatching _ false => 6 | Dispatching _ true => 5 | Replying _ => 4 | Finished _ => 1 end.
Definition writer_weight (p : writer_phase) : nat := match p with Idle => 1 | Writing _ _ => 2 | WriterDone => 0 end.
Definition pending (b : bool) : nat := if b then 0 else 1.

Definition remaining (c : conn) : nat :=
  (reader_weight (phase (rd c)) + 8 * length (queue (pr c)) + weight worker_weight (workers (pr c)) + pending (receiver_closed (pr c)) +
   pending (processor_done (pr c)) + 2 * length (replies (wr c)) + writer_weight (writing (wr c)) +
   match status c with None => 1 | Some _ => 0 end)%nat.

Section Drain.
Context (alloc : Z -> option Z) (vec_capacity : list byte -> Z).
Context (l : ServerLimits) (outcome : list byte -> result ServerError.t EncodedReply -> Prop).
Abbreviation own := (own_step alloc vec_capacity l outcome).
Abbreviation steps := (csteps alloc vec_capacity l outcome).

(** Every step of a connection that is shutting down uses up some of it. *)
Lemma own_decreases t c e c' :
  tokens t c -> shutdown (sh c) = true -> own c e c' -> (remaining c' < remaining c)%nat /\ shutdown (sh c') = true.
Proof.
  intros HT Hs H. pose proof (tok_early t c HT) as Hearly. clear HT. revert Hearly Hs. unfold remaining.
  own_cases H; intros Hearly Hs; (split; [|done]); rewrite ?Hst, ?weight_empty, ?length_app;
    repeat match goal with
    | H : phase (rd _) = _ |- _ => rewrite H
    | H : queue (pr _) = _ |- _ => rewrite H in *
    | H : workers (pr _) = ∅ |- _ => rewrite H
    | H : receiver_closed (pr _) = _ |- _ => rewrite H
    | H : processor_done (pr _) = _ |- _ => rewrite H
    | H : writing (wr _) = _ |- _ => rewrite H
    | H : replies (wr _) = _ |- _ => rewrite H
    end;
    repeat match goal with
    | H : workers _ !! ?i = Some ?w |- context [weight _ (<[?i := ?w']> ?m)] =>
        pose proof (weight_replace worker_weight m i w w' H); generalize dependent (weight worker_weight (<[i := w']> m)); intros
    | H : workers _ !! ?i = Some ?w |- context [weight _ (delete ?i ?m)] =>
        pose proof (weight_delete worker_weight m i w H); generalize dependent (weight worker_weight (delete i m)); intros
    end; cbn [reader_weight worker_weight writer_weight pending length] in *; try lia.
  - destruct H as [[-> _]|[[id ->] _]]; simpl; lia.
  - destruct H as [->|[id ->]]; simpl; lia.
  - destruct (phase (rd c)); simpl; try lia. done.
  - rewrite weight_insert; [simpl; lia|]. specialize (Hearly id). unfold early in Hearly.
    rewrite H0, count_id_cons, decide_True in Hearly by done. destruct (workers (pr c) !! id); [simpl in Hearly; lia|done].
  - destruct handed_over; simpl in *; lia.
Qed.

Lemma server_keeps c c' : server_step l c c' -> remaining c' = remaining c /\ (shutdown (sh c) = true -> shutdown (sh c') = true).
Proof. intros H. destruct H; split; done. Qed.

(** A run in which the connection itself takes [n] steps. *)
Inductive drain : conn -> list event -> nat -> conn -> Prop :=
| drain_refl c : drain c [] 0 c
| drain_own c t n c' e c'' : drain c t n c' -> own c' e c'' -> drain c (t ++ [e]) (S n) c''
| drain_server c t n c' c'' : drain c t n c' -> server_step l c' c'' -> drain c (t ++ [Tau]) n c''.

Lemma drain_steps c0 t c t' n c' : steps c0 t c -> drain c t' n c' -> steps c0 (t ++ t') c'.
Proof.
  intros H Hd. revert c0 t H. induction Hd as [c|c t' n c' e c'' _ IH He|c t' n c' c'' _ IH He]; intros c0 t H.
  - by rewrite app_nil_r.
  - rewrite app_assoc. eapply csteps_snoc; [by apply IH|]. by apply cstep_own.
  - rewrite app_assoc. eapply csteps_snoc; [by apply IH|]. by apply cstep_server.
Qed.

Context (valid : limits_valid l) (vec_capacity_ge : forall v, zlen v <= vec_capacity v) `{!Dispatcher l outcome}.
Context (s : stream) (k : sink) (stop : bool) (fq fp : Z).
Context (fq_ok : 0 <= fq <= max_buffered_request_bytes l) (fp_ok : 0 <= fp <= max_buffered_reply_bytes l).
Abbreviation start := (opened l s k stop fq fp).

Lemma reachable t c : steps start t c -> serving l k t c.
Proof. by apply (serving_steps alloc vec_capacity l outcome valid vec_capacity_ge s k stop fq fp fq_ok fp_ok). Qed.

Lemma drain_bound t c t' n c' :
  steps start t c -> shutdown (sh c) = true -> drain c t' n c' ->
  (n + remaining c' <= remaining c)%nat /\ shutdown (sh c') = true.
Proof.
  intros H Hs Hd. induction Hd as [c|c t' n c' e c'' Hd IH He|c t' n c' c'' Hd IH He]; [by split|..].
  - destruct (IH H Hs) as [Hn Hs']. pose proof (reachable _ _ (drain_steps _ _ _ _ _ _ H Hd)) as Hr.
    destruct (own_decreases _ _ _ _ (srv_tokens _ _ _ _ Hr) Hs' He) as [Hlt ?]. split; [lia|done].
  - destruct (IH H Hs) as [Hn Hs']. destruct (server_keeps _ _ He) as [-> Hk]. split; [lia|by apply Hk].
Qed.

(** Some step is possible until the connection has ended. *)
Lemma worker_can_step t c id w :
  serving l k t c -> status c = None -> workers (pr c) !! id = Some w -> exists e c', own c e c'.
Proof.
  intros Hr Hst Hw. destruct w as [record|record b|reply|[[]|e]].
  - do 2 eexists. apply own_worker; [done|]. eapply worker_gives_up; [done|by left].
  - destruct (con_record _ _ _ (srv_contents _ _ _ _ Hr) id record) as [_ Hlen]; [by eapply record_dispatching|].
    destruct (dispatched_returns record Hlen) as [r Ho]. do 2 eexists. apply own_worker; [done|]. by eapply worker_answered.
  - do 2 eexists. apply own_worker; [done|]. by eapply worker_timeout.
  - do 2 eexists. apply own_processor; [done|]. by eapply processor_join.
  - do 2 eexists. apply own_processor; [done|]. by eapply processor_join_failed.
Qed.

Lemma can_step t c : serving l k t c -> shutdown (sh c) = true -> status c = None -> exists e c', own c e c'.
Proof.
  intros Hr Hs Hst. destruct (srv_phases _ _ _ _ Hr) as [P1 P2 _].
  destruct (decide (workers (pr c) = ∅)) as [Hw|(id & w & Hw)%map_choose]; [|by eapply worker_can_step].
  destruct (phase (rd c)) eqn:Ep; try (do 2 eexists; apply own_reader; [done|]; by eapply reader_shutdown; [|rewrite Ep]).
  destruct (processor_done (pr c)) eqn:Ed.
  - destruct (writing (wr c)) eqn:Ew.
    + destruct (replies (wr c)) as [|[id reply] rest] eqn:Er.
      * do 2 eexists. apply own_writer; [done|]. by apply writer_end.
      * do 2 eexists. apply own_writer; [done|]. by eapply writer_recv.
    + do 2 eexists. apply own_writer; [done|]. by eapply (writer_timeout _ _ _ _ (output (wr c))).
    + do 2 eexists. by apply own_joined.
  - destruct (queue (pr c)) as [|[id record] rest] eqn:Eq.
    + do 2 eexists. apply own_processor; [done|]. apply processor_end; [done|by right|done|done].
    + do 2 eexists. apply own_processor; [done|]. eapply processor_recv; [done|done|].
      rewrite Hw, map_size_empty. pose proof (valid_requests l valid). lia.
Qed.

(** C7: a shutdown request ends a connection. From any reachable state in which
    shutdown has been requested, however steps of the rest of the server
    interleave, the connection itself takes at most [remaining c] further steps,
    and as long as it has not ended it can take one: it does not deadlock on its
    queues, its budgets or its peer, and cannot run forever. *)
Theorem connection_drains t c t' n c' :
  steps start t c -> shutdown (sh c) = true -> drain c t' n c' ->
  (n <= remaining c)%nat /\ (status c' = None -> exists e c'', own c' e c'').
Proof.
  intros H Hs Hd. destruct (drain_bound _ _ _ _ _ H Hs Hd) as [Hn Hs']. split; [lia|].
  intros Hst. by eapply can_step; [apply (reachable _ _ (drain_steps _ _ _ _ _ _ H Hd))|..].
Qed.
End Drain.
