(* ===== verification/Wiring.v ===== *)
(** * [dispatch_record] behind a connection

    [dispatched] collects what a call of [dispatch_record] can return: the reply
    of a failed admission, a replayed reply, the reply of its own execution or of
    the one it waited for, or an error. The server of [Service] thereby provides
    the interface [Dispatcher] that the connections of [Pipeline] rely on. *)
From S2P Require Import Prelude Replay RpcCodec VfsTypes RpcAuth NfsProcedures NfsCodec RpcRecord Reply Handles Limits Vfs Connection Mount Execute Builder Serving Contracts Mounting Calls Service Pipeline Delivery Promise Drain.
From stdpp Require Import list gmap fin_sets.
#[local] Open Scope Z_scope.

Section Wiring.
Context (hmac : list byte -> list byte -> list byte) (sha256 : list byte -> list byte).
Context (vec_capacity : list byte -> Z) (with_capacity : Z -> Z).
Context (state : ConnectionState) (cache : ReplayCache).
Context {St : Type} (answer : forall op, vfs_ref -> St -> VfsOp.response op * St).
Abbreviation admission record addr := (admit_call hmac sha256 vec_capacity record addr state).

(** [l] is the history of the whole server up to the moment the call returns. *)
Definition history (l : list action) : Prop :=
  exists t b w, wsteps hmac sha256 vec_capacity with_capacity state cache answer (winitial t b) l w /\
    begins (replay_events l) <= u64_max.

Inductive dispatched (addr : SocketAddr) (record : list byte) : result ServerError.t EncodedReply -> Prop :=
| dispatched_denied reply : admission record addr = Ok (inl reply) -> dispatched addr record (Ok reply)
| dispatched_rejected e : admission record addr = Err e -> dispatched addr record (Err e)
| dispatched_replayed c l reply :
    admission record addr = Ok (inr c) -> history l -> Called c (Ok (Replay reply)) ∈ l -> dispatched addr record (Ok reply)
| dispatched_executed c l k reply :
    admission record addr = Ok (inr c) -> history l -> Called c (Ok (Execute k)) ∈ l -> Replied k reply ∈ l ->
    dispatched addr record (Ok reply)
| dispatched_waited c l waiter k out reply :
    admission record addr = Ok (inr c) -> history l -> Called c (Ok (Wait waiter)) ∈ l ->
    Stored k out ∈ l -> (waiter, Ok reply) ∈ out ->
    dispatched addr record (Ok reply)
| dispatched_failed c e : admission record addr = Ok (inr c) -> dispatched addr record (Err e).

Context (hmac_length : forall k m, zlen (hmac k m) = 32) (vec_capacity_ge : forall v, zlen v <= vec_capacity v).
Context `{!ServerReady state}.

Lemma header_xid h args : header_wf h -> record_xid (header_bytes h ++ args) = ch_xid h.
Proof.
  intros Hwf. unfold record_xid, header_bytes. rewrite <- !app_assoc.
  match goal with |- context [be_bytes 4 (ch_xid h) ++ ?rest] => set (tail := rest) end.
  rewrite zlen_app. replace (zlen (be_bytes 4 (ch_xid h))) with 4 by by autorewrite with zlen.
  pose proof (zlen_nonneg tail). rewrite (proj2 (Z.leb_le 4 (4 + zlen tail))) by lia.
  unfold slice. change (Z.to_nat 0) with 0%nat. rewrite drop_0. change (Z.to_nat (4 - 0)) with 4%nat.
  pose proof (take_app_length (be_bytes 4 (ch_xid h)) tail) as Ht. rewrite length_be_bytes in Ht. rewrite Ht.
  apply be_value_be4, Hwf.
Qed.

Lemma sendable_answers record xid reply :
  record_xid record = xid -> sendable state xid reply -> answers (limits state) record reply.
Proof.
  intros <- (Hwf & Hx & Hv). split; [done|]. unfold validate_record. by rewrite <- (len_wire _ Hwf).
Qed.

Lemma answers_wire record r1 r2 : wire r1 = wire r2 -> answers (limits state) record r2 -> answers (limits state) record r1.
Proof. intros E [H1 H2]. split; by rewrite E. Qed.

Lemma admitted_key record addr c : admission record addr = Ok (inr c) -> key_xid (ac_key c) = ac_xid c.
Proof.
  unfold admit_call. intros H. apply bind_ok in H as ([h args] & _ & H).
  destruct (_ || _); [done|]. destruct (decode_principal _ _); [|done]. cbv zeta in H.
  destruct (negb (_ =? 2)); [done|]. destruct (_ && _); [done|]. by injection H as <-.
Qed.

Lemma admitted_xid record addr c :
  zlen record <= isize_max -> admission record addr = Ok (inr c) -> record_xid record = ac_xid c.
Proof.
  intros Hl Ha. apply (admit_call_iff hmac sha256) in Ha as (h & args & p & -> & Hwf & _ & _ & _ & _ & _ & ->); [|done].
  by rewrite header_xid.
Qed.

(** A short reply is sendable. *)
Lemma short_answers record v :
  zlen v <= 304 -> take 4 v = be_bytes 4 (record_xid record) -> answers (limits state) record (into_reply vec_capacity v).
Proof.
  intros Hv Hx. destruct (from_vec_wf v _ (vec_capacity_ge v)) as [_ Hw]. split; unfold into_reply; rewrite Hw; [done|].
  pose proof (valid_mutation _ ready_limits) as Hm. unfold MAXIMUM_MUTATION_REPLY_SIZE in Hm.
  apply validate_record_length_iff; [apply ready_limits|apply zlen_nonneg|lia].
Qed.

Lemma denied_shape xid low high status :
  (take 4 (rpc_mismatch xid low high) = be_bytes 4 xid /\ zlen (rpc_mismatch xid low high) <= 304) /\
  (take 4 (auth_error xid status) = be_bytes 4 xid /\ zlen (auth_error xid status) <= 304).
Proof.
  unfold rpc_mismatch, auth_error, Encoder.write_u32, Encoder.into_bytes; cbn [Encoder.output Encoder.with_capacity app].
  split; (split; [|autorewrite with zlen; lia]); rewrite <- !app_assoc;
    match goal with |- take _ (_ ++ ?tail) = _ => pose proof (take_app_length (be_bytes 4 xid) tail) as Ht end;
    by rewrite length_be_bytes in Ht.
Qed.

Lemma denied_answers record addr reply :
  zlen record <= isize_max -> admission record addr = Ok (inl reply) -> answers (limits state) record reply.
Proof.
  intros Hl H. unfold admit_call in H. apply bind_ok in H as ([h args] & Hh & H).
  apply read_call_header_iff in Hh as [Hwf ->]; [|done]. cbv zeta in H.
  pose proof (denied_shape (ch_xid h) 2 2) as Hd.
  destruct (_ || _); [injection H as <-; apply short_answers; rewrite ?header_xid by done; apply (Hd 3)|].
  destruct (decode_principal _ _); [|injection H as <-; apply short_answers; rewrite ?header_xid by done; apply (Hd 1)].
  destruct (negb (_ =? 2)); [injection H as <-; apply short_answers; rewrite ?header_xid by done; apply (Hd 0)|].
  destruct (_ && _); [|done]. injection H as <-. apply short_answers; rewrite ?header_xid by done; apply (Hd 5).
Qed.

Context (cache_capacity : 0 <= Replay.capacity cache) (cache_bytes : 0 <= max_completed_bytes cache < usize_max)
  (with_capacity_ge : forall n, n <= with_capacity n).

(** The reply of an execution answers every record of the same request. *)
Lemma replied_answers record addr c l k reply :
  zlen record <= isize_max -> admission record addr = Ok (inr c) -> history l -> request k = ac_key c -> Replied k reply ∈ l ->
  answers (limits state) record reply.
Proof.
  intros Hl Ha (t & b & w & Hs & Hb) Hk Hr.
  pose proof (service_steps hmac sha256 vec_capacity with_capacity state cache answer hmac_length vec_capacity_ge
    cache_capacity cache_bytes with_capacity_ge t b l w Hs Hb) as Hi.
  destruct (si_replied _ _ _ _ _ _ _ _ _ Hi k reply Hr) as (c0 & Hc0 & Hsend).
  destruct (si_called _ _ _ _ _ _ _ _ _ Hi c0 _ Hc0) as (record0 & addr0 & Ha0 & Hk0).
  destruct (Hk0 k eq_refl) as [Hk1 _]. apply (sendable_answers record (ac_xid c0)); [|done].
  rewrite (admitted_xid record addr c Hl Ha), <- (admitted_key _ _ _ Ha), <- (admitted_key _ _ _ Ha0). congruence.
Qed.

Lemma dispatched_answered record addr reply :
  zlen record <= isize_max -> dispatched addr record (Ok reply) -> answers (limits state) record reply.
Proof.
  intros Hl H. inversion H as [r Ha|?|c l r Ha Hh Hc|c l k r Ha Hh Hc Hr|c l wt k out r Ha Hh Hc Ho Hin|?]; subst.
  - by eapply denied_answers.
  - pose proof Hh as (t & b & w & Hs & Hb).
    pose proof (genuine_steps hmac sha256 vec_capacity with_capacity state cache answer hmac_length vec_capacity_ge
      cache_capacity cache_bytes with_capacity_ge t b l w Hs Hb) as Hg.
    destruct (g_replayed _ _ Hg c reply Hc) as (k & Hk & _ & stored & Hr & Hw).
    by apply (answers_wire _ _ _ Hw), (replied_answers record addr c l k).
  - pose proof Hh as (t & b & w & Hs & Hb).
    pose proof (service_steps hmac sha256 vec_capacity with_capacity state cache answer hmac_length vec_capacity_ge
      cache_capacity cache_bytes with_capacity_ge t b l w Hs Hb) as Hi.
    destruct (si_called _ _ _ _ _ _ _ _ _ Hi c _ Hc) as (_ & _ & _ & Hk). destruct (Hk k eq_refl) as [Hk1 _].
    by apply (replied_answers record addr c l k).
  - pose proof Hh as (t & b & w & Hs & Hb).
    pose proof (genuine_steps hmac sha256 vec_capacity with_capacity state cache answer hmac_length vec_capacity_ge
      cache_capacity cache_bytes with_capacity_ge t b l w Hs Hb) as Hg.
    pose proof (g_stored _ _ Hg k out Ho) as Hall. rewrite Forall_forall in Hall.
    destruct (Hall _ Hin) as (reply' & Hr & [= ->]).
    destruct (waiter_matches hmac sha256 vec_capacity with_capacity state cache answer hmac_length vec_capacity_ge
      cache_capacity cache_bytes with_capacity_ge t b l w c wt k out _ Hs Hb Hc Ho Hin) as [Hk _].
    by apply (replied_answers record addr c l k).
Qed.

(** The outcomes of [dispatch_record] for one client. *)
Definition outcome (addr : SocketAddr) (record : list byte) (r : result ServerError.t EncodedReply) : Prop :=
  zlen record <= isize_max /\ dispatched addr record r.

#[global] Instance service_dispatcher addr : Dispatcher (limits state) (outcome addr).
Proof.
  split.
  - intros record reply [Hl H]. by eapply dispatched_answered.
  - intros record Hl. assert (zlen record <= isize_max) as Hl'.
    { pose proof (valid_record _ ready_limits). unfold u32_max, isize_max in *. lia. }
    destruct (admission record addr) as [[reply|c]|e] eqn:E.
    + exists (Ok reply). split; [done|]. by apply dispatched_denied.
    + exists (Err ServerError.RequestTimeout). split; [done|]. by eapply dispatched_failed.
    + exists (Err e). split; [done|]. by apply dispatched_rejected.
Qed.

(** C5: the connections of a server refine the client's contract. Take any run of
    the tasks of one connection whose request tasks call [dispatch_record] of the
    server, with its replay cache, its executions and its backends shared with
    every other connection. Then [observe] accepts the run step by step: records
    are taken in reading order, each accepted record is answered at most once, by
    a reply that carries its transaction identifier and fits the transport limits,
    and an end without error leaves nothing owed; and unless the connection has
    failed, the peer has received exactly the framed replies of the ledger. *)
Theorem connection_refines alloc addr s k stop fq fp t c :
  0 <= fq <= max_buffered_request_bytes (limits state) -> 0 <= fp <= max_buffered_reply_bytes (limits state) ->
  csteps alloc vec_capacity (limits state) (outcome addr) (opened (limits state) s k stop fq fp) t c ->
  exists p, observe_all (limits state) fresh_ledger t = Some p /\
    (failed c = false -> written (output (wr c)) = written k ++ out p) /\
    (status c = Some (Ok ()) -> over p = true /\ owed p = ∅).
Proof.
  intros Hq Hp H. pose proof (service_dispatcher addr) as HD.
  destruct (refines (limits state) alloc vec_capacity (outcome addr) ready_limits vec_capacity_ge s k stop fq fp t c Hq Hp H)
    as (p & Hr & Ht). exists p. split_and!; [done| |].
  - rewrite (tr_out _ _ _ _ Ht). apply (srv_delivered (limits state) k t c).
    by apply (serving_steps alloc vec_capacity (limits state) (outcome addr) ready_limits vec_capacity_ge s k stop fq fp Hq Hp).
  - intros Hs. split; [|by apply (tr_ended _ _ _ _ Ht)]. destruct (over p) eqn:E; [done|].
    apply (tr_over _ _ _ _ Ht) in E. congruence.
Qed.
End Wiring.

(** ** A sample connection *)

(** One record is read and accepted, then shutdown is requested; the connection
    answers the record from a run of the server and ends. *)
Definition toy_peer : stream := mkStream (framed 1024 toy_record) UnexpectedEof.
Definition toy_socket : sink := mkSink [] true [].
Definition toy_alloc (n : Z) : option Z := Some n.
Abbreviation toy_outcome := (outcome toy_hmac toy_sha zlen toy_grow toy_started toy_cache toy_backend toy_addr).
Definition toy_opened : conn := opened production_defaults toy_peer toy_socket false 5 7.

Lemma toy_dispatched : toy_outcome toy_record (Ok toy_reply).
Proof.
  destruct toy_full_run as [w Hw]. split; [by vm_compute|].
  apply (dispatched_executed _ _ _ _ _ _ _ _ _ toy_admitted toy_full_log toy_running); [exact toy_admission| | |].
  - exists 0, tt, w. split; [exact Hw|exact toy_full_begins].
  - unfold toy_full_log, toy_log. set_solver.
  - unfold toy_full_log, toy_log. set_solver.
Qed.

Definition toy_accepted : conn := Eval vm_compute in
  set_shared (mkShared true ∅ (acquire (charge production_defaults) 0 (request_buffers (sh toy_opened))) (reply_buffers (sh toy_opened)))
    (set_processor (mkProcessor [(0%nat, toy_record)] false ∅ false)
      (mkConn (mkReader (mkStream [] UnexpectedEof) AtTop 1) (pr toy_opened) (wr toy_opened) (sh toy_opened) None)).
Definition toy_arrival : list event := [Tau; Tau; ReadRecord 0 toy_record; Enqueued 0; Tau].
Definition toy_departure : list event :=
  [Tau; Tau; Tau; Tau; Tau; Answered 0 toy_reply; Tau; Tau; Tau; Tau; Wrote 0 toy_reply; Tau; Ended (Ok ())].

Lemma csteps_head alloc vec_capacity l outcome c e c' t c'' :
  cstep alloc vec_capacity l outcome c e c' -> csteps alloc vec_capacity l outcome c' t c'' ->
  csteps alloc vec_capacity l outcome c (e :: t) c''.
Proof.
  intros H Hs. induction Hs as [c'|c' t c1 e' c2 Hs IH He].
  - apply (csteps_snoc _ _ _ _ c [] c); [apply csteps_nil|done].
  - change (e :: t ++ [e']) with ((e :: t) ++ [e']). eapply csteps_snoc; [by apply IH|done].
Qed.

Lemma drain_head alloc vec_capacity l outcome c e c' t n c'' :
  own_step alloc vec_capacity l outcome c e c' -> drain alloc vec_capacity l outcome c' t n c'' ->
  drain alloc vec_capacity l outcome c (e :: t) (S n) c''.
Proof.
  intros H Hs. induction Hs as [c'|c' t n c1 e' c2 Hs IH He|c' t n c1 c2 Hs IH He].
  - apply (drain_own _ _ _ _ c [] 0 c); [apply drain_refl|done].
  - change (e :: t ++ [e']) with ((e :: t) ++ [e']). eapply drain_own; [by apply IH|done].
  - change (e :: t ++ [Tau]) with ((e :: t) ++ [Tau]). eapply drain_server; [by apply IH|done].
Qed.

(** Follow one step and evaluate the state it leads to. *)
Ltac evaluated :=
  match goal with
  | |- csteps _ _ _ _ ?c _ _ => let c' := eval vm_compute in c in replace c with c' by (vm_compute; reflexivity)
  | |- drain _ _ _ _ ?c _ _ _ => let c' := eval vm_compute in c in replace c with c' by (vm_compute; reflexivity)
  end.
Ltac holds := first [done | vm_compute; reflexivity | by vm_compute].
Ltac arrive step := eapply csteps_head; [apply cstep_own, own_reader; [done|]; eapply step; holds|]; evaluated.
Tactic Notation "depart" open_constr(task) open_constr(step) :=
  eapply drain_head; [eapply task; [done|]; eapply step; holds|]; evaluated.

Lemma toy_arrives : csteps toy_alloc zlen production_defaults toy_outcome toy_opened toy_arrival toy_accepted.
Proof.
  unfold toy_arrival, toy_opened. arrive reader_top. arrive reader_reserve. arrive reader_read. arrive reader_send.
  eapply csteps_head; [apply cstep_server, server_shutdown|]. evaluated. apply csteps_nil.
Qed.

Lemma toy_drains : exists c,
  drain toy_alloc zlen production_defaults toy_outcome toy_accepted toy_departure 13 c /\ status c = Some (Ok ()).
Proof.
  unfold toy_departure, toy_accepted. eexists. split.
  - depart own_reader reader_top. depart own_processor processor_shutdown. depart own_processor processor_recv.
    depart own_worker (worker_budget _ _ _ _ 0). depart own_worker (worker_executes _ _ _ _ 0).
    eapply drain_head; [apply own_worker; [done|]; apply (worker_answered _ _ _ _ 0 toy_record true (Ok toy_reply)); [holds|exact toy_dispatched]|].
    evaluated. depart own_worker (worker_sends _ _ _ _ 0). depart own_processor (processor_join _ _ 0).
    eapply drain_head; [apply own_processor; [done|]; apply processor_end; [done|by left|holds|holds]|]. evaluated.
    depart own_writer writer_recv. depart own_writer writer_wrote. depart own_writer writer_end.
    eapply drain_head; [apply own_joined; holds|]. apply drain_refl.
  - done.
Qed.

Lemma toy_valid : limits_valid production_defaults.
Proof. exact (@ready_limits _ toy_started_ready). Qed.

#[local] Instance toy_dispatcher : Dispatcher production_defaults toy_outcome.
Proof.
  exact (service_dispatcher toy_hmac toy_sha zlen toy_grow toy_started toy_cache toy_backend toy_hmac_length
    (fun v => Z.le_refl (zlen v)) (ServerReady0 := toy_started_ready) ltac:(by vm_compute) ltac:(split; by vm_compute)
    toy_grow_ge toy_addr).
Qed.

Lemma toy_complete : exists c,
  csteps toy_alloc zlen production_defaults toy_outcome toy_opened (toy_arrival ++ toy_departure) c /\ status c = Some (Ok ()).
Proof. destruct toy_drains as (c & Hd & Hs). exists c. split; [|done]. exact (drain_steps _ _ _ _ _ _ _ _ _ _ toy_arrives Hd). Qed.

Lemma connection_bounds_witness :
  total_size (request_sizes production_defaults toy_accepted) + 5 <= max_buffered_request_bytes production_defaults.
Proof.
  refine (proj1 (proj2 (proj2 (proj2 (proj2 (proj2 (connection_bounds toy_alloc zlen production_defaults toy_outcome toy_valid
    (fun v => Z.le_refl (zlen v)) toy_peer toy_socket false 5 7 _ _ toy_arrival toy_accepted toy_arrives))))))); split; by vm_compute.
Defined.

Lemma csteps_app alloc vec_capacity l outcome c t c' t' c'' :
  csteps alloc vec_capacity l outcome c t c' -> csteps alloc vec_capacity l outcome c' t' c'' ->
  csteps alloc vec_capacity l outcome c (t ++ t') c''.
Proof.
  intros H Hs. induction Hs as [c'|c' t' c1 e c2 _ IH He]; [by rewrite app_nil_r|].
  rewrite app_assoc. eapply csteps_snoc; [by apply IH|done].
Qed.

(** The execution of the sample record ends and drops the request permit while
    [dispatch_record] still has the record: bytes without a charge. *)
Example record_outlives_permit : exists t c,
  csteps toy_alloc zlen production_defaults toy_outcome toy_opened t c /\
  lingering c !! 0%nat = Some toy_record /\ held (request_buffers (sh c)) = ∅.
Proof.
  eexists _, _. split; [eapply csteps_app; [exact toy_arrives|]|].
  - unfold toy_accepted.
    eapply csteps_head; [apply cstep_own, own_processor; [done|]; eapply processor_recv; holds|]. evaluated.
    eapply csteps_head; [apply cstep_own, own_worker; [done|]; eapply (worker_budget _ _ _ _ 0); holds|]. evaluated.
    eapply csteps_head; [apply cstep_own, own_worker; [done|]; eapply (worker_executes _ _ _ _ 0); holds|]. evaluated.
    eapply csteps_head; [apply cstep_server, (server_execution_ends _ _ 0)|]. evaluated.
    eapply csteps_head; [apply cstep_server, (server_drops_request _ _ 0); holds|]. evaluated.
    apply csteps_nil.
  - split; by vm_compute.
Qed.

(** The sample run uses the bound up: 13 steps. *)
Lemma connection_drains_witness : (13 <= remaining toy_accepted)%nat /\ remaining toy_accepted = 13%nat.
Proof.
  destruct toy_drains as (c & Hd & Hs). split; [|by vm_compute].
  refine (proj1 (connection_drains toy_alloc zlen production_defaults toy_outcome toy_valid
    (fun v => Z.le_refl (zlen v)) toy_peer toy_socket false 5 7 _ _ toy_arrival toy_accepted toy_departure 13%nat c toy_arrives eq_refl Hd));
    split; by vm_compute.
Defined.

Lemma connection_refines_witness : exists p,
  observe_all production_defaults fresh_ledger (toy_arrival ++ toy_departure) = Some p /\ owed p = ∅.
Proof.
  destruct toy_complete as (c & Hc & Hs).
  destruct (connection_refines toy_hmac toy_sha zlen toy_grow toy_started toy_cache toy_backend toy_hmac_length
    (fun v => Z.le_refl (zlen v)) (ServerReady0 := toy_started_ready) ltac:(by vm_compute) ltac:(split; by vm_compute)
    toy_grow_ge toy_alloc toy_addr toy_peer toy_socket false 5 7 (toy_arrival ++ toy_departure) c) as (p & Hp & _ & Ho);
    [split; by vm_compute..|exact Hc|].
  exists p. split; [exact Hp|]. by apply Ho.
Defined.
