(* ===== verification/Portmapper.v ===== *)
(** * [src/server/portmapper.rs]: the standalone portmapper

    Clients that look for the server on port 111 talk to this endpoint instead of
    the NFS listener. [Standalone] models the preparation of its two sockets, the
    dispatch of one record, one UDP datagram and one TCP connection. The theorems
    relate it to the portmapper the NFS listener serves itself, and bound its
    replies. *)
From S2P Require Import Prelude Replay RpcCodec VfsTypes RpcAuth NfsProcedures NfsCodec RpcRecord Reply Handles Limits Vfs Connection Mount Execute Builder Serving Mounting Calls.
Import Encoder.

Module Standalone.

Definition MSG_DENIED : Z := 1.
Definition RPC_MISMATCH : Z := 0.
Definition AUTH_ERROR : Z := 1.
Definition AUTH_BAD_CRED : Z := 1.
Definition AUTH_BAD_VERF : Z := 3.
Definition PORTMAP_NULL : Z := 0.
Definition PORTMAP_GETPORT : Z := 3.
Definition MAX_PORTMAP_RECORD_SIZE : Z := 4096.
Definition MAX_PORTMAP_FRAGMENTS : Z := 16.

(** ** Sockets *)

(** The sockets belong to the operating system; [prepare] only asks each for its
    local address. *)
Record PortmapperSockets : Type := mkSockets {
  tcp_local_addr : result IoErrorKind SocketAddr;
  udp_local_addr : result IoErrorKind SocketAddr;
  advertised : option (Z * Z)
}.

Definition new_sockets (tcp udp : result IoErrorKind SocketAddr) : PortmapperSockets := mkSockets tcp udp None.
Definition advertised_ports (nfs_port mount_port : Z) (s : PortmapperSockets) : PortmapperSockets :=
  mkSockets (tcp_local_addr s) (udp_local_addr s) (Some (nfs_port, mount_port)).

Record PreparedPortmapper : Type := mkPrepared { local_addr : SocketAddr; nfs_port : Z; mount_port : Z }.

Definition prepare (s : PortmapperSockets) (primary_port : Z) : result ServerError.t PreparedPortmapper :=
  tcp_addr ← map_err ServerError.Io (tcp_local_addr s);
  udp_addr ← map_err ServerError.Io (udp_local_addr s);
  if negb (bool_decide (tcp_addr = udp_addr)) then
    Err (ServerError.InvalidConfiguration "portmapper TCP and UDP sockets must use the same local address")
  else if (port tcp_addr =? 0) || (primary_port =? 0) then
    Err (ServerError.InvalidConfiguration "listener ports must be bound and non-zero")
  else
    let '(nfs_port, mount_port) := default (primary_port, primary_port) (advertised s) in
    if (nfs_port =? 0) || (mount_port =? 0) then
      Err (ServerError.InvalidConfiguration "advertised NFS and MOUNT ports must be non-zero")
    else Ok (mkPrepared tcp_addr nfs_port mount_port).

(** ** Replies *)

Definition accepted_reply (xid status : Z) (body : list byte) : list byte :=
  let reply := write_u32 xid new in
  let reply := write_u32 RPC_REPLY reply in
  let reply := write_u32 MSG_ACCEPTED reply in
  let reply := write_u32 AUTH_NONE reply in
  let reply := write_u32 0 reply in
  let reply := write_u32 status reply in
  into_bytes (write_fixed body reply).

Definition rpc_mismatch (xid : Z) : list byte :=
  let reply := write_u32 xid new in
  let reply := write_u32 RPC_REPLY reply in
  let reply := write_u32 MSG_DENIED reply in
  let reply := write_u32 RPC_MISMATCH reply in
  let reply := write_u32 2 reply in
  into_bytes (write_u32 2 reply).

Definition auth_error (xid status : Z) : list byte :=
  let reply := write_u32 xid new in
  let reply := write_u32 RPC_REPLY reply in
  let reply := write_u32 MSG_DENIED reply in
  let reply := write_u32 AUTH_ERROR reply in
  into_bytes (write_u32 status reply).

(** ** One record *)

(** [let x = match r { Ok(x) => x, Err(_) => return otherwise };] *)
Definition or_return {E A B} (r : result E A) (otherwise : B) (continue : A -> B) : B :=
  match r with Ok a => continue a | Err _ => otherwise end.

(** [&record[decoder.position()..]] and everything after it. *)
Definition dispatch_procedure (xid procedure : Z) (args : list byte) (nfs_port mount_port : Z) : list byte :=
  if procedure =? PORTMAP_NULL then
    if zlen args =? 0 then accepted_reply xid SUCCESS [] else accepted_reply xid GARBAGE_ARGS []
  else if procedure =? PORTMAP_GETPORT then
    or_return (Decoder.decode_all read_mapping args) (accepted_reply xid GARBAGE_ARGS []) (fun request =>
    accepted_reply xid SUCCESS (into_bytes (write_u32 (get_port request nfs_port mount_port) new)))
  else accepted_reply xid PROC_UNAVAIL [].

(** [None]: the record is dropped without a reply. *)
Definition dispatch_record (record : list byte) (nfs_port mount_port : Z) : option (list byte) :=
  or_return (Decoder.read_u32 (Decoder.new record)) None (fun '(xid, d) =>
  let garbage := Some (accepted_reply xid GARBAGE_ARGS []) in
  or_return (Decoder.read_u32 d) garbage (fun '(message_type, d) =>
  if negb (message_type =? RPC_CALL) then None
  else
  or_return (Decoder.read_u32 d) garbage (fun '(rpc_version, d) =>
  if negb (rpc_version =? 2) then Some (rpc_mismatch xid)
  else
  or_return (Decoder.read_u32 d) garbage (fun '(program, d) =>
  or_return (Decoder.read_u32 d) garbage (fun '(version, d) =>
  or_return (Decoder.read_u32 d) garbage (fun '(procedure, d) =>
  or_return (Decoder.read_u32 d) garbage (fun '(credential_flavor, d) =>
  let bad_cred := Some (auth_error xid AUTH_BAD_CRED) in
  or_return (Decoder.read_opaque_slice "RPC credential" 400 d) bad_cred (fun '(credential, d) =>
  or_return (decode_principal credential_flavor credential) bad_cred (fun _ =>
  let bad_verf := Some (auth_error xid AUTH_BAD_VERF) in
  or_return (Decoder.read_u32 d) bad_verf (fun '(verifier_flavor, d) =>
  or_return (Decoder.read_opaque_slice "RPC verifier" 400 d) bad_verf (fun '(verifier, d) =>
  if negb (verifier_flavor =? AUTH_NONE) || negb (zlen verifier =? 0) then bad_verf
  else if negb (program =? PORTMAP_PROGRAM) then Some (accepted_reply xid PROG_UNAVAIL [])
  else if negb (version =? PORTMAP_VERSION) then
    let body := write_u32 PORTMAP_VERSION (write_u32 PORTMAP_VERSION new) in
    Some (accepted_reply xid PROG_MISMATCH (into_bytes body))
  else
    let args := drop (Z.to_nat (Decoder.position d)) record in
    Some (dispatch_procedure xid procedure args nfs_port mount_port)))))))))))).

(** ** Datagrams and connections *)

(** The datagram branch of [run_portmapper]: what is sent back to the peer. *)
Definition serve_datagram (datagram : list byte) (nfs_port mount_port : Z) : option (list byte) :=
  if MAX_PORTMAP_RECORD_SIZE <? zlen datagram then None
  else dispatch_record datagram nfs_port mount_port.

Definition record_limits : RecordLimits :=
  mkRecordLimits MAX_PORTMAP_RECORD_SIZE MAX_PORTMAP_RECORD_SIZE MAX_PORTMAP_FRAGMENTS.

(** What one iteration of the loop of [serve_tcp_connection] meets: the shutdown
    channel fires (carrying [stop], after [consumed] bytes of a record were read
    and lost with the abandoned read), the idle timeout elapses, or the read ends;
    the reply is then written in time, or the request timeout cuts it after
    [cut = Some n] bytes. *)
Inductive wake : Type :=
| ShutdownChanged (stop : bool) (consumed : Z)
| IdleElapsed
| ReadEnded (cut : option Z).

Section Connection.
Context (alloc : Z -> option Z).

(** The result of the connection task ([None]: it is still serving after the
    given wakes), what is left of the input, and the output. *)
Fixpoint serve_tcp_connection (wakes : list wake) (nfs_port mount_port : Z) (s : stream) (k : sink)
    : option (result ServerError.t unit) * stream * sink :=
  match wakes with
  | [] => (None, s, k)
  | ShutdownChanged true _ :: _ => (Some (Ok ()), s, k)
  | ShutdownChanged false consumed :: rest =>
      serve_tcp_connection rest nfs_port mount_port (mkStream (drop (Z.to_nat consumed) (s_bytes s)) (s_end s)) k
  | IdleElapsed :: _ => (Some (Ok ()), s, k)
  | ReadEnded cut :: rest =>
      match read_record alloc record_limits s with
      | Err (Io UnexpectedEof) | Err (Io ConnectionReset) => (Some (Ok ()), s, k)
      | Err e => (Some (Err (ServerError.Record e)), s, k)
      | Ok (record, s) =>
          match dispatch_record record nfs_port mount_port with
          | None => serve_tcp_connection rest nfs_port mount_port s k
          | Some reply =>
              match cut with
              | None =>
                  match write_record_limited reply record_limits k with
                  | (Ok _, k) => serve_tcp_connection rest nfs_port mount_port s k
                  | (Err e, k) => (Some (Err (ServerError.Record e)), s, k)
                  end
              | Some n =>
                  let partial := take (Z.to_nat n) (framed MAX_PORTMAP_RECORD_SIZE reply) in
                  (Some (Err ServerError.RequestTimeout), s, mkSink (written k ++ partial) (vectored k) (plan k))
              end
          end
      end
  end.
End Connection.
End Standalone.

(** ** One record *)
Section Records.
Context (nfs_port mount_port : Z).

Lemma standalone_accepted xid status body :
  Standalone.accepted_reply xid status body = accepted_reply xid status body.
Proof. rewrite accepted_reply_bytes. unfold reply_header. by rewrite <- !app_assoc. Qed.

Lemma standalone_mismatch xid low high :
  accepted_reply xid PROG_MISMATCH (into_bytes (write_u32 high (write_u32 low new))) = program_mismatch xid low high.
Proof.
  rewrite accepted_reply_bytes. unfold program_mismatch. rewrite accepted_reply_encoder_output.
  unfold write_u32, into_bytes; simpl. by rewrite <- app_assoc.
Qed.

(** What is left to decide once the call header is read. *)
Definition after_header (h : call_header) (args : list byte) : list byte :=
  let xid := ch_xid h in
  if negb (ch_rpc_version h =? 2) then Standalone.rpc_mismatch xid
  else match decode_principal (ch_credential_flavor h) (ch_credential h) with
  | Err _ => Standalone.auth_error xid Standalone.AUTH_BAD_CRED
  | Ok _ =>
      if negb (ch_verifier_flavor h =? AUTH_NONE) || negb (zlen (ch_verifier h) =? 0) then
        Standalone.auth_error xid Standalone.AUTH_BAD_VERF
      else if negb (ch_program h =? PORTMAP_PROGRAM) then accepted_reply xid PROG_UNAVAIL []
      else if negb (ch_version h =? PORTMAP_VERSION) then program_mismatch xid PORTMAP_VERSION PORTMAP_VERSION
      else Standalone.dispatch_procedure xid (ch_procedure h) args nfs_port mount_port
  end.

Ltac header_step :=
  lazymatch goal with
  | |- match match ?x with _ => _ end with _ => _ end = _ -> _ =>
      destruct x as [[? ?]|]; [|done]; cbn [Standalone.or_return]
  end.
Lemma dispatch_record_header record h args :
  read_call_header record = Ok (h, args) ->
  Standalone.dispatch_record record nfs_port mount_port = Some (after_header h args).
Proof.
  unfold read_call_header, Standalone.dispatch_record. cbv zeta. unfold mbind, result_bind, map_err.
  set (r := Decoder.new record). clearbody r.
  do 2 header_step. destruct (negb _); [done|]. do 8 header_step. intros [= <- <-].
  unfold after_header. cbn [ch_xid ch_rpc_version ch_program ch_version ch_procedure ch_credential_flavor
    ch_credential ch_verifier_flavor ch_verifier].
  destruct (negb (_ =? 2)); [done|]. destruct (decode_principal _ _); cbn [Standalone.or_return]; [|done].
  repeat (destruct (_ || _) || destruct (negb _)); try done;
    by rewrite ?standalone_accepted, ?standalone_mismatch.
Qed.

(** Every reply echoes the transaction identifier and is short. *)
Definition short_reply (xid : Z) (reply : list byte) : Prop :=
  take 4 reply = be_bytes 4 xid /\ 20 <= zlen reply <= 32.

Lemma take_be4 x l : take 4 (be_bytes 4 x ++ l) = be_bytes 4 x.
Proof. pose proof (take_app_length (be_bytes 4 x) l) as H. by rewrite length_be_bytes in H. Qed.

Lemma accepted_short xid status body : zlen body <= 8 -> short_reply xid (Standalone.accepted_reply xid status body).
Proof.
  intros Hb. pose proof (zlen_nonneg body). rewrite standalone_accepted, accepted_reply_bytes. split; [apply take_header|].
  rewrite zlen_app, zlen_reply_header. lia.
Qed.

Lemma denied_short xid status :
  short_reply xid (Standalone.rpc_mismatch xid) /\ short_reply xid (Standalone.auth_error xid status).
Proof.
  unfold Standalone.rpc_mismatch, Standalone.auth_error, write_u32, into_bytes; cbn [output new app].
  split; split; rewrite <- ?app_assoc; try apply take_be4; autorewrite with zlen; lia.
Qed.

Lemma dispatch_procedure_short xid procedure args :
  short_reply xid (Standalone.dispatch_procedure xid procedure args nfs_port mount_port).
Proof.
  unfold Standalone.dispatch_procedure. destruct (_ =? _); [destruct (_ =? _); by apply accepted_short|].
  destruct (_ =? _); [|by apply accepted_short].
  destruct (Decoder.decode_all _ _); cbn [Standalone.or_return]; [|by apply accepted_short].
  apply accepted_short. unfold write_u32, into_bytes; cbn [output new app]. by autorewrite with zlen.
Qed.

Lemma or_return_some {E A} (r : result E A) (otherwise : list byte) k (P : list byte -> Prop) :
  P otherwise -> (forall a, exists reply, k a = Some reply /\ P reply) ->
  exists reply, Standalone.or_return r (Some otherwise) k = Some reply /\ P reply.
Proof. intros Ho Hk. destruct r; simpl; [apply Hk|by eexists]. Qed.

Lemma read_u32_new record :
  zlen record <= isize_max ->
  Decoder.read_u32 (Decoder.new record) =
    if 4 <=? zlen record then Ok (be_value (slice 0 4 record), Decoder.mk record 4) else Err Truncated.
Proof.
  intros Hl. unfold Decoder.read_u32, Decoder.take, mbind, Decoder.reader_bind, Decoder.new, checked_add.
  cbn [Decoder.position Decoder.input]. change (0 + 4 <=? usize_max) with true. cbv iota.
  change ((0 <=? 0 + 4)) with true. change (0 + 4) with 4. cbn [andb]. by destruct (4 <=? _).
Qed.

Lemma read_u32_second record :
  zlen record <= isize_max ->
  Decoder.read_u32 (Decoder.mk record 4) =
    if 8 <=? zlen record then Ok (be_value (slice 4 8 record), Decoder.mk record 8) else Err Truncated.
Proof.
  intros Hl. unfold Decoder.read_u32, Decoder.take, mbind, Decoder.reader_bind, checked_add.
  cbn [Decoder.position Decoder.input]. change (4 + 4 <=? usize_max) with true. cbv iota.
  change ((4 <=? 4 + 4)) with true. change (4 + 4) with 8. cbn [andb]. by destruct (8 <=? _).
Qed.

(** Past the message type every path replies. *)
Ltac short :=
  lazymatch goal with
  | |- short_reply _ (Standalone.accepted_reply _ _ []) => apply accepted_short; by rewrite zlen_nil
  | |- short_reply _ (Standalone.accepted_reply _ _ _) =>
      apply accepted_short; unfold write_u32, into_bytes; cbn [output new app]; by autorewrite with zlen
  | |- short_reply _ (Standalone.rpc_mismatch _) => exact (proj1 (denied_short _ 0))
  | |- short_reply _ (Standalone.auth_error _ _) => exact (proj2 (denied_short _ _))
  | |- short_reply _ (Standalone.dispatch_procedure _ _ _ _ _) => apply dispatch_procedure_short
  end.
Ltac replies :=
  lazymatch goal with
  | |- exists _, Standalone.or_return _ _ _ = _ /\ _ =>
      apply or_return_some; [short|];
      let x := fresh in intros x; cbv beta;
      lazymatch goal with
      | |- context [let '(_, _) := _ in _] => destruct x; cbv beta iota
      | _ => idtac
      end; replies
  | |- exists _, (if ?c then _ else _) = _ /\ _ => destruct c; replies
  | |- exists _, Some ?r = _ /\ _ => exists r; split; [reflexivity|short]
  end.

Lemma dispatch_record_replies record :
  zlen record <= isize_max -> 4 <= zlen record -> (8 <= zlen record -> be_value (slice 4 8 record) = RPC_CALL) ->
  exists reply, Standalone.dispatch_record record nfs_port mount_port = Some reply /\
    short_reply (be_value (slice 0 4 record)) reply.
Proof.
  intros Hl H4 H8. unfold Standalone.dispatch_record. rewrite read_u32_new by done. zdec. cbn [Standalone.or_return].
  rewrite read_u32_second by done. destruct (8 <=? zlen record) eqn:E8; cbn [Standalone.or_return].
  - apply Z.leb_le in E8. rewrite (H8 E8). change (negb (RPC_CALL =? RPC_CALL)) with false. cbv iota zeta. replies.
  - replies.
Qed.
End Records.

(** Which records get a reply, and its shape. *)
Lemma dispatch_record_cases record nfs_port mount_port :
  zlen record <= isize_max ->
  match Standalone.dispatch_record record nfs_port mount_port with
  | None => zlen record < 4 \/ (8 <= zlen record /\ be_value (slice 4 8 record) <> RPC_CALL)
  | Some reply =>
      4 <= zlen record /\ (8 <= zlen record -> be_value (slice 4 8 record) = RPC_CALL) /\
      take 4 reply = take 4 record /\ 20 <= zlen reply <= 32
  end.
Proof.
  intros Hl. destruct (decide (4 <= zlen record)) as [H4|H4].
  2: { unfold Standalone.dispatch_record. rewrite read_u32_new by done. zdec. cbn [Standalone.or_return]. lia. }
  assert (take 4 record = be_bytes 4 (be_value (slice 0 4 record))) as Hx.
  { apply Format.u32_spec. split; [|done]. unfold zlen. rewrite length_take. unfold zlen in H4. lia. }
  rewrite Hx. destruct (decide (8 <= zlen record /\ be_value (slice 4 8 record) <> RPC_CALL)) as [[H8 Hm]|Hc].
  - unfold Standalone.dispatch_record. rewrite read_u32_new by done. zdec. cbn [Standalone.or_return].
    rewrite read_u32_second by done. zdec. cbn [Standalone.or_return]. apply Z.eqb_neq in Hm. rewrite Hm. cbn [negb].
    right. split; [done|]. by apply Z.eqb_neq.
  - destruct (dispatch_record_replies nfs_port mount_port record Hl H4 ltac:(lia)) as (reply & -> & Hr1 & Hr2).
    split_and!; [done|lia|done|lia|lia].
Qed.

Lemma dispatch_record_short nfs_port mount_port record reply :
  zlen record <= isize_max -> Standalone.dispatch_record record nfs_port mount_port = Some reply -> zlen reply <= 32.
Proof. intros Hl H. pose proof (dispatch_record_cases record nfs_port mount_port Hl) as Hc. rewrite H in Hc. lia. Qed.

(** The standalone portmapper answers every call, briefly. A record gets no
    reply exactly when it is too short to hold a transaction identifier or its
    message type is not CALL; every other record, however malformed, gets one
    that starts with the record's transaction identifier and is between 20 and
    32 bytes long: it always fits the 4096-byte record limit, and a datagram is
    never amplified by more than those 32 bytes. *)
Lemma portmapper_answers record nfs_port mount_port :
  zlen record <= isize_max ->
  match Standalone.dispatch_record record nfs_port mount_port with
  | None => zlen record < 4 \/ (8 <= zlen record /\ be_value (slice 4 8 record) <> RPC_CALL)
  | Some reply =>
      4 <= zlen record /\ (8 <= zlen record -> be_value (slice 4 8 record) = RPC_CALL) /\
      take 4 reply = take 4 record /\ 20 <= zlen reply <= 32
  end.
Proof. apply dispatch_record_cases. Qed.

(** ** The two portmappers *)
Section InBand.
Context (hmac : list byte -> list byte -> list byte) (sha256 : list byte -> list byte).
Context (vec_capacity : list byte -> Z) (vec_capacity_ge : forall v, zlen v <= vec_capacity v).
Context (state : ConnectionState) `{!ServerReady state}.

Lemma get_port_same request p :
  get_port request p p =
  if (prot request =? IPPROTO_TCP) &&
     (((prog_ request =? NFS_PROGRAM) && (vers request =? NFS_VERSION)) ||
      ((prog_ request =? MOUNT_PROGRAM) && (vers request =? MOUNT_VERSION)))
  then p else 0.
Proof. unfold get_port. by repeat destruct (_ =? _). Qed.

(** The NFS listener's reply to a portmapper procedure, errors included. *)
Lemma dispatch_portmap_same xid procedure args :
  match dispatch_portmap xid procedure args state with
  | Ok v => v
  | Err _ => accepted_reply xid GARBAGE_ARGS []
  end = Standalone.dispatch_procedure xid procedure args (local_port state) (local_port state) /\
  (forall e, dispatch_portmap xid procedure args state = Err e -> exists d, e = ServerError.Decode d).
Proof.
  unfold dispatch_portmap, Standalone.dispatch_procedure, Standalone.PORTMAP_NULL, Standalone.PORTMAP_GETPORT.
  destruct (procedure =? 0); [by destruct (_ =? 0)|].
  destruct (procedure =? 3); [|done].
  destruct (Decoder.decode_all read_mapping args) as [m|d]; cbn [map_err mbind result_bind Standalone.or_return].
  - by rewrite get_port_same.
  - split; [done|]. intros e [= <-]. by eexists.
Qed.

Lemma wire_into_reply v : wire (into_reply vec_capacity v) = v.
Proof. apply (from_vec_wf v _ (vec_capacity_ge v)). Qed.

(** A short reply passes the outbound checks unchanged. *)
Lemma bound_reply_short xid v r :
  zlen v <= 304 ->
  r = Ok (into_reply vec_capacity v) \/ (exists d, r = Err (ServerError.Decode d) /\ v = accepted_reply xid GARBAGE_ARGS []) ->
  bound_reply vec_capacity xid state r = Ok (into_reply vec_capacity v).
Proof.
  intros Hv Hr. unfold bound_reply.
  assert (validate_record_length (Reply.len (into_reply vec_capacity v)) (Limits.record_limits (limits state)) = Ok ()) as Hok.
  { pose proof (valid_mutation _ ready_limits) as Hm. unfold MAXIMUM_MUTATION_REPLY_SIZE in Hm.
    apply validate_record_length_iff; [apply ready_limits| |]; change (Reply.len (into_reply vec_capacity v)) with (zlen v);
      [apply zlen_nonneg|lia]. }
  destruct Hr as [->|(d & -> & ->)]; cbn [mbind result_bind]; by rewrite Hok.
Qed.

End InBand.

(** ** Sessions *)
Section Sessions.
Context (alloc : Z -> option Z) (alloc_ok : alloc_grants alloc Standalone.MAX_PORTMAP_RECORD_SIZE).
Context (nfs_port mount_port : Z).

Lemma portmap_record_fits record :
  zlen record <= Standalone.MAX_PORTMAP_RECORD_SIZE <-> validate_record record Standalone.record_limits = Ok ().
Proof.
  unfold validate_record, validate_record_length, Standalone.record_limits, Standalone.MAX_PORTMAP_RECORD_SIZE.
  cbn [max_record_size max_fragment_size max_fragments]. pose proof (zlen_nonneg record).
  destruct (4096 <? zlen record) eqn:E; zbool; [split; [lia|done]|]. split; [intros _|done].
  change (4096 =? 0) with false. cbv iota.
  replace (Standalone.MAX_PORTMAP_FRAGMENTS <? (if zlen record =? 0 then 1 else div_ceil (zlen record) 4096)) with false; [done|].
  symmetry. apply Z.ltb_ge. unfold Standalone.MAX_PORTMAP_FRAGMENTS, div_ceil.
  pose proof (Z.div_mod (zlen record) 4096). pose proof (Z.mod_pos_bound (zlen record) 4096).
  destruct (_ =? 0); [lia|]. destruct (_ <? _); lia.
Qed.

Lemma framing_bounds :
  0 <= max_fragment_size Standalone.record_limits <= LENGTH_MASK /\ 0 <= max_fragments Standalone.record_limits /\
  max_record_size Standalone.record_limits <= usize_max.
Proof. split_and!; by vm_compute. Qed.

(** A portmapper connection answers each call once and in order. When a
    client sends any sequence of records of at most 4096 bytes and the transport
    keeps accepting output, the connection is still serving after reading them
    all; it has consumed exactly their bytes, and what it has written is the
    framing of the replies of the records that get one, in the order of the
    records. *)
Lemma portmapper_session records tail e k :
  Forall (fun record => zlen record <= Standalone.MAX_PORTMAP_RECORD_SIZE) records -> benign (plan k) ->
  exists k',
    Standalone.serve_tcp_connection alloc (replicate (length records) (Standalone.ReadEnded None)) nfs_port mount_port
      (mkStream (concat (map (framed Standalone.MAX_PORTMAP_RECORD_SIZE) records) ++ tail) e) k =
      (None, mkStream tail e, k') /\
    written k' = written k ++ concat (map (framed Standalone.MAX_PORTMAP_RECORD_SIZE)
      (omap (fun record => Standalone.dispatch_record record nfs_port mount_port) records)).
Proof.
  intros Hf. revert k. destruct framing_bounds as (Hb1 & Hb2 & Hb3).
  induction Hf as [|record records Hr Hf IH]; intros k Hk.
  { exists k. split; [done|]. by rewrite app_nil_r. }
  cbn [length replicate Standalone.serve_tcp_connection map concat]. rewrite <- app_assoc.
  rewrite (read_framed alloc Standalone.record_limits record) by (done || by apply portmap_record_fits).
  unfold omap. cbn [list_omap]. fold (@omap list list_omap).
  destruct (Standalone.dispatch_record record nfs_port mount_port) as [reply|] eqn:Ed; [|by apply IH].
  assert (zlen reply <= Standalone.MAX_PORTMAP_RECORD_SIZE) as Hs.
  { pose proof (dispatch_record_short nfs_port mount_port record reply ltac:(unfold Standalone.MAX_PORTMAP_RECORD_SIZE, isize_max in *; lia) Ed).
    unfold Standalone.MAX_PORTMAP_RECORD_SIZE. lia. }
  destruct (sends_write_record_limited reply Standalone.record_limits) as [Hx Hv]; [done|by apply portmap_record_fits|].
  destruct (Hv k Hk) as (k1 & Hw & Hk1). rewrite Hw. destruct (Hx k k1 Hw) as [E1 _].
  destruct (IH k1 Hk1) as (k' & -> & E2). exists k'. split; [done|].
  cbn [map concat]. rewrite E2, E1. by rewrite <- app_assoc.
Qed.
End Sessions.

(** ** Preparation *)

(** A GETPORT call over TCP for program version [program], [version]. *)
Definition getport_call (xid program version : Z) : list byte :=
  header_bytes (mkCallHeader xid 2 PORTMAP_PROGRAM PORTMAP_VERSION 3 AUTH_NONE [] AUTH_NONE []) ++
  be_bytes 4 program ++ be_bytes 4 version ++ be_bytes 4 IPPROTO_TCP ++ be_bytes 4 0.

Lemma dispatch_getport xid program version nfs_port mount_port :
  u32_range xid -> u32_range program -> u32_range version ->
  Standalone.dispatch_record (getport_call xid program version) nfs_port mount_port =
  Some (accepted_reply xid SUCCESS (be_bytes 4 (get_port (mkMapping program version IPPROTO_TCP 0) nfs_port mount_port))).
Proof.
  intros Hx Hp Hv. unfold getport_call. set (args := _ ++ _ ++ _ ++ be_bytes 4 0).
  assert (zlen args = 16) as Ha by (subst args; by autorewrite with zlen).
  set (h := mkCallHeader _ _ _ _ _ _ _ _ _).
  assert (zlen (header_bytes h) = 40) as Hh.
  { unfold header_bytes. subst h. cbn [ch_xid ch_rpc_version ch_program ch_version ch_procedure ch_credential_flavor
      ch_credential ch_verifier_flavor ch_verifier]. autorewrite with zlen. by rewrite !Format.zlen_opaque_bytes. }
  rewrite (dispatch_record_header _ _ _ h args).
  2: { apply read_call_header_iff; [rewrite zlen_app, Ha, Hh; by vm_compute|]. split; [|done].
       unfold header_wf, h; simpl. split_and!; try done; by vm_compute. }
  unfold after_header. subst h. cbn -[be_bytes accepted_reply Standalone.dispatch_procedure].
  unfold Standalone.dispatch_procedure. change (3 =? Standalone.PORTMAP_NULL) with false.
  change (3 =? Standalone.PORTMAP_GETPORT) with true. cbv iota.
  rewrite (proj2 (Format.decode_all_iff read_mapping _ args (mkMapping program version IPPROTO_TCP 0) ltac:(rewrite Ha; by vm_compute))).
  - cbn [Standalone.or_return]. by rewrite standalone_accepted.
  - subst args. Format.fmt_build; try done; by vm_compute.
Qed.

(** A prepared portmapper points clients at a usable port. Preparation
    succeeds only when both sockets are bound to one address with a non-zero
    port and the ports to advertise (the listener's unless overridden) are not zero; a
    GETPORT call for NFSv3 or MOUNTv3 over TCP is then answered with the
    advertised port, which is not zero (the value that means "not registered"). *)
Lemma prepared_advertises s primary xid pp :
  u32_range xid ->
  Standalone.prepare s primary = Ok pp ->
  let '(nfs, mount) := default (primary, primary) (Standalone.advertised s) in
  (Standalone.tcp_local_addr s = Ok (Standalone.local_addr pp) /\
   Standalone.udp_local_addr s = Ok (Standalone.local_addr pp) /\ port (Standalone.local_addr pp) <> 0) /\
  nfs <> 0 /\ mount <> 0 /\
  Standalone.dispatch_record (getport_call xid NFS_PROGRAM NFS_VERSION) (Standalone.nfs_port pp) (Standalone.mount_port pp) =
    Some (accepted_reply xid SUCCESS (be_bytes 4 nfs)) /\
  Standalone.dispatch_record (getport_call xid MOUNT_PROGRAM MOUNT_VERSION) (Standalone.nfs_port pp) (Standalone.mount_port pp) =
    Some (accepted_reply xid SUCCESS (be_bytes 4 mount)).
Proof.
  intros Hx H. unfold Standalone.prepare in H.
  destruct (Standalone.tcp_local_addr s) as [t|]; cbn [map_err mbind result_bind] in H; [|done].
  destruct (Standalone.udp_local_addr s) as [u|]; cbn [map_err mbind result_bind] in H; [|done].
  case_bool_decide as Htu; cbn [negb] in H; [|done]. subst u.
  destruct (_ || _) eqn:E1 in H; [done|]. apply orb_false_iff in E1 as [E1 _].
  destruct (default _ _) as [nfs mount]. destruct (_ || _) eqn:E2 in H; [done|].
  apply orb_false_iff in E2 as [E2 E3]. injection H as <-. zbool.
  rewrite !dispatch_getport by (done || by vm_compute). by split_and!.
Qed.

(** ** Witnesses *)

(** A server whose portmapper is on, and a call for the NFS port. *)
Definition toy_portmapper : ConnectionState :=
  mkConnectionState (exports toy_started) (limits toy_started) AuthPolicy.AuthSys PortmapperMode.Enabled
    (handles toy_started) 2049.

Lemma toy_portmapper_ready : ServerReady toy_portmapper.
Proof. destruct toy_started_ready as [H1 H2 H3]. by split. Qed.

Definition toy_getport : list byte := getport_call 9 NFS_PROGRAM NFS_VERSION.
Definition toy_portmap_header : call_header :=
  mkCallHeader 9 2 PORTMAP_PROGRAM PORTMAP_VERSION 3 AUTH_NONE [] AUTH_NONE [].
Definition toy_portmap_call : admitted_call :=
  call_of toy_hmac (fun v => v) toy_portmap_header
    (be_bytes 4 NFS_PROGRAM ++ be_bytes 4 NFS_VERSION ++ be_bytes 4 IPPROTO_TCP ++ be_bytes 4 0)
    Principal.Anonymous toy_addr toy_portmapper.


