(* ===== verification/Lifecycle.v ===== *)
(** * [src/server/mod.rs], [handle.rs], [portmapper.rs]: the life of a server

    [run] accepts connections under a shared limit, keeps the standalone
    portmapper beside it, and on shutdown waits for connections, services and
    executions, in this order, until a deadline after which it aborts them.
    [ServerHandle] requests the shutdown and hands out the result. The step
    relation [lstep] interleaves [run], [run_portmapper], their tasks, the request
    tasks that connections spawn, the executions of [ExecutionTracker] and the
    callers of the handle. What a connection does between start and end is the
    subject of [Pipeline]. *)
From S2P Require Import Prelude Measure RpcRecord Handles VfsTypes Replay Limits Vfs Connection Mount Execute Builder Portmapper.
From stdpp Require Import list gmap fin_sets.
#[local] Open Scope Z_scope.

(** ** Task sets *)

(** A task of a [JoinSet]: running, told to stop and running until its next
    suspension point, or ended and not yet joined. *)
Inductive task : Type := Active | Aborted | Done.
#[global] Instance task_eq_dec : EqDecision task.
Proof. solve_decision. Defined.

Definition live (t : task) : bool := match t with Done => false | _ => true end.
Definition abort (t : task) : task := match t with Done => Done | _ => Aborted end.
Definition abort_all (m : gmap nat task) : gmap nat task := abort <$> m.

(** [ExecutionTracker::spawn]: joined tasks are removed before one is added. *)
Definition tracker_spawn (x : nat) (t : task) (m : gmap nat task) : gmap nat task :=
  <[x := t]> (filter (fun e => live e.2 = true) m).

(** ** State *)

(** The connections of both listeners and the semaphore they share. A connection
    task of [run] returns its permit as its result, so the permit comes back when
    the task is joined; a portmapper connection drops its permit when it ends. *)
Record pool : Type := mkPool {
  available : Z;
  tasks : gmap nat task;
  task_permits : gset nat;
  peers : gmap nat task;
  peer_permits : gset nat
}.

(** How far [run] is with its shutdown sequence: joining connections, joining the
    portmapper, waiting for the lock of the execution tracker, or holding it and
    joining executions. [Leaving]: the lock is released, [run] has yet to
    return. *)
Inductive stage : Type := Tasks | Services | Locking | Executions.
Inductive main_phase : Type :=
| Accepting
| Joining (aborting : bool) (st : stage)
| Leaving
| Returned (r : result ServerError.t unit)
| Cancelled.

Inductive service_phase : Type :=
| Listening
| Closing
| ServiceAborted
| ServiceReturned (r : result ServerError.t unit)
| ServiceFailed.

(** A request task of [connection_processor]: its connection, whether that has
    ended and aborted it (it then runs to its next suspension point), and how far
    it is: it takes a strong reference to the execution tracker, spawns its
    execution, and keeps the reference while it waits for the answer. *)
Inductive request_stage : Type := Fresh | Upgraded | Spawned.
Record request : Type := mkRequest { owner : nat; cut_off : bool; progress : request_stage }.

Definition holds (q : request) : bool := match progress q with Fresh => false | _ => true end.
Definition cut (id : nat) (q : request) : request :=
  if decide (owner q = id) then mkRequest (owner q) true (progress q) else q.
Definition advance (p : request_stage) (q : request) : request := mkRequest (owner q) (cut_off q) p.

(** No request task has a reference to the tracker. *)
Definition unheld (m : gmap nat request) : bool := bool_decide (map_Forall (fun _ q => holds q = false) m).

(** [straggled] records that a request task spawned an execution after its
    connection had ended. *)
Record server : Type := mkServer {
  requested : bool;
  main : main_phase;
  service : option service_phase;
  connections : pool;
  executions : gmap nat task;
  requests : gmap nat request;
  straggled : bool
}.

Definition finished (p : main_phase) : bool := match p with Returned _ | Cancelled => true | _ => false end.
(** [run] holds the lock of the execution tracker. *)
Definition locked (p : main_phase) : bool := match p with Joining _ Executions => true | _ => false end.

(** *** Pool operations *)
Definition give_back (id : nat) (p : pool) : pool :=
  if decide (id ∈ task_permits p)
  then mkPool (available p + 1) (tasks p) (task_permits p ∖ {[id]}) (peers p) (peer_permits p) else p.
Definition open_task (id : nat) (p : pool) : pool :=
  mkPool (available p - 1) (<[id := Active]> (tasks p)) ({[id]} ∪ task_permits p) (peers p) (peer_permits p).
Definition set_tasks (m : gmap nat task) (p : pool) : pool :=
  mkPool (available p) m (task_permits p) (peers p) (peer_permits p).
Definition end_task (id : nat) (keep : bool) (p : pool) : pool :=
  let p' := set_tasks (<[id := Done]> (tasks p)) p in if keep then p' else give_back id p'.
Definition join_task (id : nat) (p : pool) : pool := give_back id (set_tasks (delete id (tasks p)) p).
Definition open_peer (id : nat) (p : pool) : pool :=
  mkPool (available p - 1) (tasks p) (task_permits p) (<[id := Active]> (peers p)) ({[id]} ∪ peer_permits p).
Definition set_peers (m : gmap nat task) (p : pool) : pool :=
  mkPool (available p) (tasks p) (task_permits p) m (peer_permits p).
Definition end_peer (id : nat) (p : pool) : pool :=
  mkPool (available p + 1) (tasks p) (task_permits p) (<[id := Done]> (peers p)) (peer_permits p ∖ {[id]}).
Definition abort_tasks (p : pool) : pool := set_tasks (abort_all (tasks p)) p.
Definition abort_peers (p : pool) : pool := set_peers (abort_all (peers p)) p.

(** *** Updates *)
Definition set_main (m : main_phase) (s : server) : server :=
  mkServer (requested s) m (service s) (connections s) (executions s) (requests s) (straggled s).
Definition set_service (x : option service_phase) (s : server) : server :=
  mkServer (requested s) (main s) x (connections s) (executions s) (requests s) (straggled s).
Definition set_connections (p : pool) (s : server) : server :=
  mkServer (requested s) (main s) (service s) p (executions s) (requests s) (straggled s).
Definition set_executions (m : gmap nat task) (s : server) : server :=
  mkServer (requested s) (main s) (service s) (connections s) m (requests s) (straggled s).
Definition set_requests (m : gmap nat request) (s : server) : server :=
  mkServer (requested s) (main s) (service s) (connections s) (executions s) m (straggled s).
Definition request_shutdown (s : server) : server :=
  mkServer true (main s) (service s) (connections s) (executions s) (requests s) (straggled s).

Definition abort_service (x : option service_phase) : option service_phase :=
  match x with Some Listening | Some Closing => Some ServiceAborted | _ => x end.

(** The tracker goes with the last strong reference to it, [run]'s own or that of
    a request task; its executions are aborted then. *)
Definition drop_tracker (s : server) : server :=
  if finished (main s) && unheld (requests s) then set_executions (abort_all (executions s)) s else s.

(** Leaving [run] without the shutdown sequence drops its task sets, which aborts
    their tasks, and its reference to the tracker. *)
Definition abandon (m : main_phase) (s : server) : server :=
  drop_tracker (mkServer (requested s) m (abort_service (service s)) (abort_tasks (connections s)) (executions s)
    (requests s) (straggled s)).

(** ** Steps *)

(** [Work] is what the server's own code does next, and the end of a task that
    was told to stop. [Choice] is what a task, a peer or the network may do or
    leave undone, such as the end of a task nobody stopped. [Arrival] brings
    something new: a peer of the portmapper, a request task or an execution. *)
Inductive kind : Type := Work | Choice | Arrival.

(** The body of [run]. *)
Inductive main_step (s : server) : server -> Prop :=
| main_reap id :
    main s = Accepting -> tasks (connections s) !! id = Some Done ->
    main_step s (set_connections (join_task id (connections s)) s)
| main_stop :
    main s = Accepting -> requested s = true -> main_step s (set_main (Joining false Tasks) s)
| main_accept id :
    main s = Accepting -> 0 < available (connections s) -> tasks (connections s) !! id = None ->
    main_step s (set_connections (open_task id (connections s)) s)
| main_refuse :
    main s = Accepting -> available (connections s) = 0 -> main_step s s
| main_accept_failed e :
    main s = Accepting -> main_step s (abandon (Returned (Err (ServerError.Io e))) s)
| main_service_returned r :
    main s = Accepting -> service s = Some (ServiceReturned r) ->
    main_step s (if requested s then set_main (Joining false Tasks) (set_service None s)
                 else abandon (Returned r) (set_service None s))
| main_service_failed :
    main s = Accepting -> service s = Some ServiceFailed ->
    main_step s (abandon (Returned (Err ServerError.Task)) (set_service None s))
| main_join id b :
    main s = Joining b Tasks -> tasks (connections s) !! id = Some Done ->
    main_step s (set_connections (join_task id (connections s)) s)
| main_tasks_joined b :
    main s = Joining b Tasks -> tasks (connections s) = ∅ ->
    main_step s (set_service (if b then abort_service (service s) else service s) (set_main (Joining b Services) s))
| main_join_service b x :
    main s = Joining b Services -> service s = Some x -> x = ServiceFailed \/ (exists r, x = ServiceReturned r) ->
    main_step s (set_service None s)
| main_services_joined b :
    main s = Joining b Services -> service s = None ->
    main_step s (set_executions (if b then abort_all (executions s) else executions s) (set_main (Joining b Locking) s))
| main_locks b :
    main s = Joining b Locking -> main_step s (set_main (Joining b Executions) s)
| main_join_execution b x :
    main s = Joining b Executions -> executions s !! x = Some Done ->
    main_step s (set_executions (delete x (executions s)) s)
| main_done b :
    main s = Joining b Executions -> executions s = ∅ -> main_step s (set_main Leaving s)
| main_returns :
    main s = Leaving -> main_step s (drop_tracker (set_main (Returned (Ok ())) s))
| main_deadline st :
    main s = Joining false st ->
    main_step s (set_connections (abort_tasks (connections s)) (set_main (Joining true Tasks) s)).

(** The body of [run_portmapper]; a datagram is answered by
    [Portmapper.serve_datagram] and leaves the state as it is. *)
Inductive portmapper_step (s : server) : kind -> server -> Prop :=
| portmapper_reap id :
    service s = Some Listening \/ service s = Some Closing -> peers (connections s) !! id = Some Done ->
    portmapper_step s Work (set_connections (set_peers (delete id (peers (connections s))) (connections s)) s)
| portmapper_stop :
    service s = Some Listening -> requested s = true -> portmapper_step s Work (set_service (Some Closing) s)
| portmapper_accept id :
    service s = Some Listening -> 0 < available (connections s) -> peers (connections s) !! id = None ->
    portmapper_step s Arrival (set_connections (open_peer id (connections s)) s)
| portmapper_refuse :
    service s = Some Listening -> available (connections s) = 0 -> portmapper_step s Arrival s
| portmapper_datagram :
    service s = Some Listening -> portmapper_step s Arrival s
| portmapper_io_failed e :
    service s = Some Listening ->
    portmapper_step s Choice (set_connections (abort_peers (connections s)) (set_service (Some (ServiceReturned (Err (ServerError.Io e)))) s))
| portmapper_closed :
    service s = Some Closing -> peers (connections s) = ∅ ->
    portmapper_step s Work (set_service (Some (ServiceReturned (Ok ()))) s)
| portmapper_cancelled :
    service s = Some ServiceAborted ->
    portmapper_step s Work (set_connections (abort_peers (connections s)) (set_service (Some ServiceFailed) s)).

(** How a task comes to its end: one that was told to stop has to. *)
Definition ending (t : task) : kind := match t with Aborted => Work | _ => Choice end.

(** What the spawned tasks do. A connection task that completes while [run] can
    still join it keeps its permit in its result; however it ends, its request
    tasks are aborted and not waited for. *)
Inductive task_step (s : server) : kind -> server -> Prop :=
| task_ends id t keep :
    tasks (connections s) !! id = Some t -> live t = true -> (keep = true -> finished (main s) = false) ->
    task_step s (ending t) (set_requests (cut id <$> requests s) (set_connections (end_task id keep (connections s)) s))
| execution_ends x t :
    executions s !! x = Some t -> live t = true -> task_step s (ending t) (set_executions (<[x := Done]> (executions s)) s)
| peer_ends id t :
    peers (connections s) !! id = Some t -> live t = true ->
    task_step s (ending t) (set_connections (end_peer id (connections s)) s)
| request_starts id t r :
    tasks (connections s) !! id = Some t -> live t = true -> requests s !! r = None ->
    task_step s Arrival (set_requests (<[r := mkRequest id false Fresh]> (requests s)) s)
| request_upgrades r q :
    requests s !! r = Some q -> progress q = Fresh -> finished (main s) = false \/ unheld (requests s) = false ->
    task_step s Choice (set_requests (<[r := advance Upgraded q]> (requests s)) s)
| request_executes r q x :
    requests s !! r = Some q -> progress q = Upgraded -> locked (main s) = false -> executions s !! x = None ->
    task_step s Arrival (mkServer (requested s) (main s) (service s) (connections s)
      (tracker_spawn x Active (executions s)) (<[r := advance Spawned q]> (requests s)) (straggled s || cut_off q))
| request_ends r q :
    requests s !! r = Some q ->
    task_step s (if cut_off q then Work else Choice) (drop_tracker (set_requests (delete r (requests s)) s)).

Inductive server_step (s : server) : kind -> server -> Prop :=
| server_main s' : main_step s s' -> server_step s Work s'
| server_portmapper k s' : portmapper_step s k s' -> server_step s k s'
| server_task k s' : task_step s k s' -> server_step s k s'.

(** [start_inner] with or without a portmapper. *)
Definition started (l : ServerLimits) (portmapper : bool) : server :=
  mkServer false Accepting (if portmapper then Some Listening else None)
    (mkPool (max_connections l) ∅ ∅ ∅ ∅) ∅ ∅ false.

(** *** The handle *)

(** [ServerHandle]: whether its join handle is still there, the caller of [wait]
    that holds its lock, and whether it has been dropped. [start] gives it to the
    caller; [serve] has none (see [Serve]). *)
Record handle : Type := mkHandle { slot : bool; waiting : option nat; dropped : bool }.
Record system : Type := mkSystem { srv : server; hdl : handle }.

Inductive notice : Type := Quiet | Waited (w : nat) (r : result ServerError.t unit).

Inductive lstep (y : system) : notice -> system -> Prop :=
| handle_server k s : server_step (srv y) k s -> lstep y Quiet (mkSystem s (hdl y))
| handle_shutdown : dropped (hdl y) = false -> lstep y Quiet (mkSystem (request_shutdown (srv y)) (hdl y))
| handle_wait w :
    dropped (hdl y) = false -> waiting (hdl y) = None ->
    lstep y Quiet (mkSystem (srv y) (mkHandle (slot (hdl y)) (Some w) false))
| handle_wait_cancelled w :
    waiting (hdl y) = Some w -> lstep y Quiet (mkSystem (srv y) (mkHandle (slot (hdl y)) None (dropped (hdl y))))
| handle_wait_returns w r :
    waiting (hdl y) = Some w -> slot (hdl y) = true ->
    main (srv y) = Returned r \/ main (srv y) = Cancelled /\ r = Err ServerError.Task ->
    lstep y (Waited w r) (mkSystem (srv y) (mkHandle false None (dropped (hdl y))))
| handle_wait_again w :
    waiting (hdl y) = Some w -> slot (hdl y) = false ->
    lstep y (Waited w (Ok ())) (mkSystem (srv y) (mkHandle false None (dropped (hdl y))))
| handle_drop :
    dropped (hdl y) = false -> waiting (hdl y) = None ->
    lstep y Quiet (mkSystem (request_shutdown (srv y)) (mkHandle (slot (hdl y)) None true))
| handle_aborts :
    dropped (hdl y) = true -> slot (hdl y) = true -> finished (main (srv y)) = false ->
    lstep y Quiet (mkSystem (abandon Cancelled (srv y)) (hdl y)).

Inductive lsteps : system -> list notice -> system -> Prop :=
| lsteps_nil y : lsteps y [] y
| lsteps_snoc y t y' e y'' : lsteps y t y' -> lstep y' e y'' -> lsteps y (t ++ [e]) y''.

Definition start (l : ServerLimits) (portmapper : bool) : system :=
  mkSystem (started l portmapper) (mkHandle true None false).

(** [NfsServer::start_inner]: [listener] is what the socket reports as its local
    address. The result carries what the handle shows, the state the connections
    share and the server as it starts to run. *)
Definition start_inner (fill fill' : Z -> result ServerError.t (list byte)) (s : NfsServer)
    (listener : result IoErrorKind SocketAddr) (sockets : option Standalone.PortmapperSockets)
    : result ServerError.t (list MountInfo * option SocketAddr * ConnectionState * system) :=
  addr ← map_err ServerError.Io listener;
  prepared ← match sockets with
    | None => Ok None
    | Some k => pp ← Standalone.prepare k (port addr); Ok (Some pp)
    end;
  state ← connection_state fill fill' s (port addr);
  Ok (mount_infos s addr, Standalone.local_addr <$> prepared, state, start (s_limits s) (bool_decide (is_Some prepared))).

(** [ServerHandle::mount_info] indexes the list: [None] is its panic. *)
Definition mount_info (infos : list MountInfo) : option MountInfo := infos !! 0%nat.

(** A server that starts is ready, and its handle describes it. *)
Lemma start_inner_ready b s fill fill' listener sockets infos pm state y :
  limits_wf (b_limits b) -> (forall v, fill INSTANCE_SIZE = Ok v -> zlen v = INSTANCE_SIZE) ->
  build b = Ok s -> start_inner fill fill' s listener sockets = Ok (infos, pm, state, y) ->
  exists addr, listener = Ok addr /\ local_port state = port addr /\ ServerReady state /\ 0 < max_connections (limits state) /\
    y = start (limits state) (bool_decide (is_Some sockets)) /\ infos = mount_infos s addr /\
    (b_exports b <> [] -> is_Some (mount_info infos)) /\ (is_Some pm <-> is_Some sockets).
Proof.
  intros Hwf Hfill Hb H. unfold start_inner in H. destruct listener as [addr|]; [|done]. cbn [map_err mbind result_bind] in H.
  apply bind_ok in H as (prepared & Hp & H). apply bind_ok in H as (st & Hc & [= <- <- <- <-]).
  destruct (start_state_ready b s fill fill' (port addr) st Hwf Hfill Hb Hc) as (Hready & -> & He & Hl & Ha & Ho).
  exists addr. assert (is_Some prepared <-> is_Some sockets) as Hpm.
  { destruct sockets as [k|]; [|by injection Hp as <-]. apply bind_ok in Hp as (pp & _ & [= <-]). split; eauto. }
  split_and!; try done.
  - apply (valid_requests _ ready_limits).
  - rewrite Hl. f_equal. by apply bool_decide_ext.
  - intros Hne. unfold mount_info, mount_infos. cbn [from_builder s_exports]. destruct (b_exports b); [done|]. by eexists.
  - by rewrite fmap_is_Some.
Qed.

(** ** The connection limit *)

Lemma live_abort t : live (abort t) = live t.
Proof. by destruct t. Qed.

Lemma abort_all_lookup m id t : abort_all m !! id = Some t -> exists t0, m !! id = Some t0 /\ t = abort t0.
Proof. unfold abort_all. rewrite lookup_fmap. destruct (m !! id) as [t0|]; [|done]. intros [= <-]. by exists t0. Qed.

Lemma abort_all_some m id : is_Some (abort_all m !! id) <-> is_Some (m !! id).
Proof. unfold abort_all. by rewrite lookup_fmap, fmap_is_Some. Qed.

Lemma abort_all_inactive m id : abort_all m !! id <> Some Active.
Proof. intros ([| |] & _ & ?)%abort_all_lookup; done. Qed.

Definition runs (m : gmap nat task) (id : nat) : Prop := exists t, m !! id = Some t /\ live t = true.

Lemma runs_abort m id : runs (abort_all m) id <-> runs m id.
Proof.
  split.
  - intros (t & (t0 & Ht & ->)%abort_all_lookup & Hl). exists t0. by rewrite live_abort in Hl.
  - intros (t & Ht & Hl). exists (abort t). unfold abort_all. by rewrite lookup_fmap, Ht, live_abort.
Qed.

Lemma runs_insert m id t i : runs (<[id := t]> m) i <-> (i = id /\ live t = true) \/ (i <> id /\ runs m i).
Proof.
  unfold runs. destruct (decide (i = id)) as [->|Hne].
  - rewrite lookup_insert_eq. split; [intros (t' & [= ->] & Hl); by left|intros [[_ Hl]|[? _]]; [by exists t|done]].
  - rewrite lookup_insert_ne by done. split; [intros H; by right|intros [[? _]|[_ H]]; done].
Qed.

Lemma runs_delete m id i : runs (delete id m) i <-> i <> id /\ runs m i.
Proof.
  unfold runs. destruct (decide (i = id)) as [->|Hne]; [rewrite lookup_delete_eq|rewrite lookup_delete_ne by done]; naive_solver.
Qed.

Record pool_ok (l : ServerLimits) (p : pool) : Prop := {
  pk_available : 0 <= available p;
  pk_total : available p + Z.of_nat (size (task_permits p)) + Z.of_nat (size (peer_permits p)) = max_connections l;
  pk_tasks id : runs (tasks p) id -> id ∈ task_permits p;
  pk_held id : id ∈ task_permits p -> is_Some (tasks p !! id);
  pk_peers id : id ∈ peer_permits p <-> runs (peers p) id
}.

Lemma size_add (X : gset nat) id : id ∉ X -> Z.of_nat (size ({[id]} ∪ X)) = 1 + Z.of_nat (size X).
Proof. intros H. rewrite size_union, size_singleton by set_solver. lia. Qed.

Lemma size_remove (X : gset nat) id : id ∈ X -> Z.of_nat (size (X ∖ {[id]})) = Z.of_nat (size X) - 1.
Proof.
  intros H. rewrite size_difference, size_singleton by set_solver.
  assert (size X <> 0%nat) by (rewrite size_empty_iff; set_solver). lia.
Qed.

Section Pool.
Context (l : ServerLimits) (p : pool) (ok : pool_ok l p).

Lemma open_task_ok id : 0 < available p -> tasks p !! id = None -> pool_ok l (open_task id p).
Proof.
  destruct ok as [P1 P2 P3 P4 P5]. intros Ha Hn.
  assert (id ∉ task_permits p) as Hid by (intros [t Ht]%P4; congruence).
  split; cbn [open_task available tasks task_permits peers peer_permits]; [lia| | | |done].
  - rewrite size_add by done. lia.
  - intros i [[-> _]|[_ H]]%runs_insert; [|apply P3 in H]; set_solver.
  - intros i Hi. destruct (decide (i = id)) as [->|]; [rewrite lookup_insert_eq; eauto|rewrite lookup_insert_ne by done].
    apply P4. set_solver.
Qed.

Lemma open_peer_ok id : 0 < available p -> peers p !! id = None -> pool_ok l (open_peer id p).
Proof.
  destruct ok as [P1 P2 P3 P4 P5]. intros Ha Hn.
  assert (id ∉ peer_permits p) as Hid by (intros (t & Ht & _)%P5; congruence).
  split; cbn [open_peer available tasks task_permits peers peer_permits]; [lia| |done|done|].
  - rewrite size_add by done. lia.
  - intros i. rewrite runs_insert, elem_of_union, elem_of_singleton, P5.
    destruct (decide (i = id)) as [->|]; [split; [by left|by left]|naive_solver].
Qed.

Lemma end_peer_ok id : runs (peers p) id -> pool_ok l (end_peer id p).
Proof.
  destruct ok as [P1 P2 P3 P4 P5]. intros Hr. apply P5 in Hr.
  split; cbn [end_peer available tasks task_permits peers peer_permits]; [lia| |done|done|].
  - rewrite size_remove by done. lia.
  - intros i. rewrite runs_insert, elem_of_difference, elem_of_singleton, P5. naive_solver.
Qed.

(** Removing or ending a task: its permit is given back or kept. *)
Lemma set_tasks_ok m :
  (forall i, runs m i -> runs (tasks p) i) -> (forall i, i ∈ task_permits p -> is_Some (m !! i)) -> pool_ok l (set_tasks m p).
Proof. destruct ok as [P1 P2 P3 P4 P5]. intros H1 H2. split; cbn [set_tasks available tasks task_permits peers peer_permits]; auto. Qed.

Lemma give_back_ok m id :
  (forall i, runs m i -> i <> id /\ runs (tasks p) i) ->
  (forall i, i ∈ task_permits p -> i <> id -> is_Some (m !! i)) -> pool_ok l (give_back id (set_tasks m p)).
Proof.
  destruct ok as [P1 P2 P3 P4 P5]. intros H1 H2. unfold give_back. cbn [set_tasks task_permits].
  destruct (decide (id ∈ task_permits p)) as [Hid|Hid];
    split; cbn [set_tasks available tasks task_permits peers peer_permits]; try done; try lia.
  - rewrite size_remove by done. lia.
  - intros i Hi. apply H1 in Hi as [? Hi]. apply P3 in Hi. set_solver.
  - intros i Hi. apply H2; set_solver.
  - intros i Hi. apply H1 in Hi as [_ Hi]. by apply P3.
  - intros i Hi. apply H2; [done|]. intros ->. done.
Qed.

Lemma set_peers_ok m : (forall i, runs m i <-> runs (peers p) i) -> pool_ok l (set_peers m p).
Proof.
  destruct ok as [P1 P2 P3 P4 P5]. intros H. split; cbn [set_peers available tasks task_permits peers peer_permits]; try done.
  intros i. by rewrite P5, H.
Qed.

Lemma end_task_ok id keep : runs (tasks p) id -> pool_ok l (end_task id keep p).
Proof.
  intros Hr. destruct keep; unfold end_task.
  - apply set_tasks_ok; [intros i [[_ ?]|[_ Hi]]%runs_insert; done|]. intros i Hi.
    destruct (decide (i = id)) as [->|]; [rewrite lookup_insert_eq; eauto|rewrite lookup_insert_ne by done].
    by apply (pk_held l p ok).
  - apply give_back_ok; [intros i [[_ ?]|?]%runs_insert; done|]. intros i Hi Hne. rewrite lookup_insert_ne by done.
    by apply (pk_held l p ok).
Qed.

Lemma join_task_ok id : pool_ok l (join_task id p).
Proof.
  apply give_back_ok; [by intros i ?%runs_delete|]. intros i Hi Hne. rewrite lookup_delete_ne by done.
  by apply (pk_held l p ok).
Qed.

Lemma abort_tasks_ok : pool_ok l (abort_tasks p).
Proof.
  apply set_tasks_ok; [intros i; apply runs_abort|]. intros i Hi. apply abort_all_some. by apply (pk_held l p ok).
Qed.

Lemma abort_peers_ok : pool_ok l (abort_peers p).
Proof. apply set_peers_ok, runs_abort. Qed.

Lemma reap_peer_ok id : peers p !! id = Some Done -> pool_ok l (set_peers (delete id (peers p)) p).
Proof.
  intros Hd. apply set_peers_ok. intros i. rewrite runs_delete. split; [by intros [_ ?]|]. intros Hr. split; [|done].
  intros ->. destruct Hr as (t & Ht & Hl). rewrite Hd in Ht. by injection Ht as <-.
Qed.
End Pool.

Create HintDb lifecycle.
#[export] Hint Resolve open_task_ok open_peer_ok end_peer_ok end_task_ok join_task_ok abort_tasks_ok abort_peers_ok reap_peer_ok : lifecycle.

Definition open_count (m : gmap nat task) : Z := Z.of_nat (size (filter (fun e => live e.2 = true) m)).

Lemma open_count_le m (X : gset nat) : (forall id, runs m id -> id ∈ X) -> open_count m <= Z.of_nat (size X).
Proof.
  intros H. unfold open_count. rewrite <- (size_dom (D := gset nat)). apply inj_le, subseteq_size. intros id Hid.
  apply elem_of_dom in Hid as [t Ht]. apply map_lookup_filter_Some in Ht as [Ht Hl]. apply H. by exists t.
Qed.

(** ** The shutdown sequence *)

Definition quiet (m : gmap nat task) : Prop := forall id, m !! id <> Some Active.
Definition portmapper_over (x : option service_phase) : Prop :=
  match x with Some Listening | Some Closing | Some ServiceAborted => False | _ => True end.

Definition winding (p : main_phase) : bool := match p with Joining _ _ | Leaving | Returned (Ok _) => true | _ => false end.
Definition past_tasks (p : main_phase) : bool :=
  match p with Joining _ Tasks => false | _ => winding p end.
Definition past_services (p : main_phase) : bool :=
  match p with Joining _ Tasks | Joining _ Services => false | _ => winding p end.
Definition past_executions (p : main_phase) : bool :=
  match p with Joining _ _ => false | _ => winding p end.

Record staged (s : server) : Prop := {
  sg_requested : winding (main s) = true -> requested s = true;
  sg_tasks : past_tasks (main s) = true -> tasks (connections s) = ∅;
  sg_service : past_services (main s) = true -> service s = None;
  sg_executions : past_executions (main s) = true -> straggled s = false -> executions s = ∅;
  sg_closing : service s = Some Closing \/ service s = Some (ServiceReturned (Ok ())) -> requested s = true;
  sg_peers : portmapper_over (service s) -> quiet (peers (connections s))
}.

(** What has been told to stop: the request tasks of an ended connection and,
    after the deadline, what [run] joins next. Without stragglers that goes for
    the executions too, and for all of them once nothing refers to the tracker. *)
Definition stopping_executions (p : main_phase) : bool :=
  match p with Joining true Locking | Joining true Executions => true | _ => false end.

Record told (s : server) : Prop := {
  td_requests r q : requests s !! r = Some q -> cut_off q = true \/ runs (tasks (connections s)) (owner q);
  td_tasks : main s = Joining true Tasks -> quiet (tasks (connections s));
  td_service : main s = Joining true Services -> service s <> Some Listening /\ service s <> Some Closing;
  td_executions : stopping_executions (main s) = true -> straggled s = false -> quiet (executions s);
  td_tracker : finished (main s) = true -> unheld (requests s) = true -> quiet (executions s)
}.

Lemma unheld_iff m : unheld m = true <-> forall r q, m !! r = Some q -> holds q = false.
Proof. unfold unheld. by rewrite bool_decide_eq_true. Qed.

Lemma unheld_insert m r q : holds q = false -> m !! r = None -> unheld (<[r := q]> m) = true -> unheld m = true.
Proof.
  rewrite !unheld_iff. intros Hq Hr H r' q' Hl. apply (H r'). rewrite lookup_insert_ne; [done|]. intros ->. congruence.
Qed.

Lemma held_insert m r q : holds q = true -> unheld (<[r := q]> m) = false.
Proof.
  intros Hq. destruct (unheld _) eqn:E; [|done]. rewrite unheld_iff in E. specialize (E r q (lookup_insert_eq _ _ _)). congruence.
Qed.

Lemma unheld_cut id m : unheld (cut id <$> m) = true -> unheld m = true.
Proof.
  rewrite !unheld_iff. intros H r q Hq. specialize (H r (cut id q)). rewrite lookup_fmap, Hq in H. specialize (H eq_refl).
  unfold cut in H. by destruct (decide _).
Qed.

(** Dropping a reference to the tracker only touches executions. *)
Lemma drop_tracker_requested s : requested (drop_tracker s) = requested s.
Proof. unfold drop_tracker. by destruct (_ && _). Qed.
Lemma drop_tracker_main s : main (drop_tracker s) = main s.
Proof. unfold drop_tracker. by destruct (_ && _). Qed.
Lemma drop_tracker_service s : service (drop_tracker s) = service s.
Proof. unfold drop_tracker. by destruct (_ && _). Qed.
Lemma drop_tracker_connections s : connections (drop_tracker s) = connections s.
Proof. unfold drop_tracker. by destruct (_ && _). Qed.
Lemma drop_tracker_requests s : requests (drop_tracker s) = requests s.
Proof. unfold drop_tracker. by destruct (_ && _). Qed.
Lemma drop_tracker_straggled s : straggled (drop_tracker s) = straggled s.
Proof. unfold drop_tracker. by destruct (_ && _). Qed.
Create Rewrite HintDb tracker.
#[export] Hint Rewrite drop_tracker_requested drop_tracker_main drop_tracker_service drop_tracker_connections
  drop_tracker_requests drop_tracker_straggled : tracker.

Lemma drop_tracker_empty s : executions s = ∅ -> executions (drop_tracker s) = ∅.
Proof. intros E. unfold drop_tracker. destruct (_ && _); [|done]. cbn. rewrite E. apply fmap_empty. Qed.

Lemma drop_tracker_quiet s :
  (finished (main s) = true -> unheld (requests s) = true -> quiet (executions (drop_tracker s))) /\
  (quiet (executions s) -> quiet (executions (drop_tracker s))).
Proof.
  unfold drop_tracker. destruct (finished (main s)) eqn:Ef, (unheld (requests s)) eqn:Eu; cbn [andb]; split; try done;
    intros; intros i; apply abort_all_inactive.
Qed.

Lemma peers_give_back id p : peers (give_back id p) = peers p.
Proof. unfold give_back. by destruct (decide _). Qed.
Lemma tasks_give_back id p : tasks (give_back id p) = tasks p.
Proof. unfold give_back. by destruct (decide _). Qed.
Lemma peers_end_task id keep p : peers (end_task id keep p) = peers p.
Proof. destruct keep; [done|unfold end_task; by rewrite peers_give_back]. Qed.
Lemma tasks_end_task id keep p : tasks (end_task id keep p) = <[id := Done]> (tasks p).
Proof. destruct keep; [done|unfold end_task; by rewrite tasks_give_back]. Qed.

Lemma quiet_insert m id : quiet m -> quiet (<[id := Done]> m).
Proof.
  intros H i. destruct (decide (i = id)) as [->|]; [by rewrite lookup_insert_eq|rewrite lookup_insert_ne by done; apply H].
Qed.
Lemma quiet_delete m id : quiet m -> quiet (delete id m).
Proof.
  intros H i. destruct (decide (i = id)) as [->|]; [by rewrite lookup_delete_eq|rewrite lookup_delete_ne by done; apply H].
Qed.
#[export] Hint Resolve quiet_insert quiet_delete abort_all_inactive : lifecycle.

Lemma portmapper_over_abort x : portmapper_over (abort_service x) -> portmapper_over x.
Proof. by destruct x as [[]|]. Qed.

(** The invariant of the whole server. *)
Record sound (l : ServerLimits) (s : server) : Prop := {
  sd_pool : pool_ok l (connections s); sd_staged : staged s; sd_told : told s
}.

Ltac server_updates :=
  unfold set_main, set_service, set_connections, set_executions, set_requests, request_shutdown, abandon, abort_tasks, abort_peers in *;
  autorewrite with tracker in *;
  cbn [requested main service connections executions requests straggled] in *.

Lemma pool_step l s k s' : pool_ok l (connections s) -> server_step s k s' -> pool_ok l (connections s').
Proof.
  intros Hp H. destruct H as [s' H|k s' H|k s' H]; destruct H; unfold abandon; autorewrite with tracker;
    cbn [set_main set_service set_connections set_executions set_requests connections];
    eauto with lifecycle.
  - destruct (requested s); autorewrite with tracker; cbn [set_main set_service connections]; auto with lifecycle.
  - apply end_task_ok; [done|]. by exists t.
  - apply end_peer_ok; [done|]. by exists t.
Qed.

Lemma no_runs id : ~ runs ∅ id.
Proof. intros (t & Ht & _). by rewrite lookup_empty in Ht. Qed.

Lemma past_executions_tasks p : past_executions p = true -> past_tasks p = true.
Proof. by destruct p as [|? []| |[]|]. Qed.

(** With the connections joined, only stragglers execute. *)
Lemma joined_cut_off s r q : told s -> tasks (connections s) = ∅ -> requests s !! r = Some q -> cut_off q = true.
Proof. intros Ht He Hq. destruct (td_requests _ Ht r q Hq) as [?|Hr]; [done|]. rewrite He in Hr. by destruct (no_runs _ Hr). Qed.

(** Tasks only run down what is there; without connections nothing executes, but
    for stragglers. *)
Lemma staged_tasks s k s' : staged s -> told s -> task_step s k s' -> staged s'.
Proof.
  intros [S1 S2 S3 S4 S5 S6] Ht H.
  assert (main s' = main s /\ requested s' = requested s /\ service s' = service s) as (Em & Er & Es)
    by (destruct H; server_updates; done).
  assert (tasks (connections s) = ∅ -> tasks (connections s') = ∅) as Et.
  { intros E. destruct H as [id t keep Hk| | | | | |]; server_updates; try done. by rewrite E in Hk. }
  assert (tasks (connections s) = ∅ -> (straggled s = false -> executions s = ∅) -> straggled s' = false -> executions s' = ∅) as Ee.
  { intros E E'. destruct H as [|x t Hx| | | |r q x Hq Hp|r q Hq]; server_updates; try done.
    - intros Hs. by rewrite (E' Hs) in Hx.
    - rewrite (joined_cut_off _ _ _ Ht E Hq), orb_true_r. done.
    - intros Hs. by apply drop_tracker_empty, E'. }
  assert (quiet (peers (connections s)) -> quiet (peers (connections s'))) as Eq.
  { intros E. destruct H; server_updates; cbn [end_peer peers]; rewrite ?peers_end_task; auto with lifecycle. }
  split; rewrite ?Em, ?Er, ?Es; eauto using past_executions_tasks.
Qed.

Lemma staged_portmapper s k s' : staged s -> portmapper_step s k s' -> staged s'.
Proof.
  intros [S1 S2 S3 S4 S5 S6] H.
  assert (main s' = main s /\ requested s' = requested s /\ executions s' = executions s /\ straggled s' = straggled s /\
    tasks (connections s') = tasks (connections s)) as (Em & Er & Ee & Eg & Et) by (by destruct H).
  assert (service s <> None) as Hn by (destruct H as [? []| | | | | | |]; congruence).
  split; rewrite ?Em, ?Er, ?Ee, ?Eg, ?Et; try done.
  - intros Hb. by apply S3 in Hb.
  - destruct H; cbn [set_service set_connections service]; try done; try by intros [[=]|[=]]. intros _. apply S5. by left.
  - destruct H; cbn [set_service set_connections service connections]; try done; intros Ho;
      try (intros id'; apply abort_all_inactive).
    + apply quiet_delete, S6, Ho.
    + by rewrite H in Ho.
    + intros id. by rewrite H0.
Qed.

Lemma abort_service_kept x y : abort_service x = Some y -> y = ServiceAborted \/ x = Some y.
Proof. destruct x as [[]|]; simpl; intros [= <-]; auto. Qed.

Ltac main_branches :=
  try match goal with |- context [if requested ?s then _ else _] => destruct (requested s) eqn:? end; server_updates.

(** What [run] never does: touch the portmapper's connections, restart it, or
    take a shutdown request back. *)
Lemma main_keeps s s' : main_step s s' ->
  requested s' = requested s /\ peers (connections s') = peers (connections s) /\
  (portmapper_over (service s') -> portmapper_over (service s)) /\
  (forall x, service s' = Some x -> x = ServiceAborted \/ service s = Some x).
Proof.
  intros H. destruct H; main_branches; split_and!; unfold join_task; rewrite ?peers_give_back; try done;
    try (intros ? ?; by right); try rewrite H0; try done.
  all: try (by apply portmapper_over_abort); try (by apply abort_service_kept).
  - destruct b; [apply portmapper_over_abort|done].
  - destruct b; [apply abort_service_kept|by right].
  - by destruct H1 as [->|[r ->]].
Qed.

Lemma staged_main s s' : staged s -> main_step s s' -> staged s'.
Proof.
  intros [S1 S2 S3 S4 S5 S6] H. destruct (main_keeps s s' H) as (Er & Ep & Eo & Ec).
  assert (service s' = Some Closing \/ service s' = Some (ServiceReturned (Ok ())) -> requested s = true) as Hc.
  { intros [Hc|Hc]; apply Ec in Hc as [|Hc]; try done; apply S5; auto. }
  split; rewrite ?Er, ?Ep; auto; clear Hc Ec Eo Ep Er.
  all: destruct H; main_branches; try done; rewrite ?H in *; try done; auto.
  all: cbn [winding past_tasks past_services past_executions] in *; try done.
  1-3: destruct r as [[]|]; [|done]; discriminate (S5 (or_intror H0)).
  intros _ Hs. by apply drop_tracker_empty, S4.
Qed.

(** What has been told to stop stays told. *)
Lemma told_tasks s k s' : staged s -> told s -> task_step s k s' -> told s'.
Proof.
  intros [_ S2 _ _ _ _] [T1 T2 T3 T4 T5] H. split.
  - intros r' q' Hq. destruct H; server_updates; try by eapply T1.
    + rewrite tasks_end_task. rewrite lookup_fmap in Hq. destruct (requests s !! r') as [q|] eqn:E; [|done].
      injection Hq as <-. unfold cut. destruct (decide (owner q = id)) as [|Hne]; [by left|].
      destruct (T1 _ _ E) as [?|?]; [by left|right]. apply runs_insert. by right.
    + apply lookup_insert_Some in Hq as [[_ <-]|[_ Hq]]; [|by eapply T1]. right. by exists t.
    + apply lookup_insert_Some in Hq as [[_ <-]|[_ Hq]]; [by apply (T1 r q)|by eapply T1].
    + apply lookup_insert_Some in Hq as [[_ <-]|[_ Hq]]; [by apply (T1 r q)|by eapply T1].
    + apply lookup_delete_Some in Hq as [_ Hq]. by eapply T1.
  - destruct H; server_updates; rewrite ?tasks_end_task; auto with lifecycle.
  - destruct H; server_updates; done.
  - destruct H as [| | | | |r q x Hq Hp Hl|]; server_updates; auto with lifecycle; intros Hm.
    + rewrite (joined_cut_off s r q); [by rewrite orb_true_r|done| |done]. apply S2. by destruct (main s) as [|[] []| | |].
    + intros Hs. by apply drop_tracker_quiet, T4.
  - destruct H as [| | | |r q Hq Hp Hu|r q x Hq Hp Hl|]; server_updates; auto with lifecycle.
    + intros Hf Hu. apply T5; [done|]. by eapply unheld_cut.
    + intros Hf Hu. apply T5; [done|]. by apply (unheld_insert _ r) in Hu.
    + by rewrite held_insert.
    + by rewrite held_insert.
    + intros Hf Hu. by apply (proj1 (drop_tracker_quiet _)).
Qed.

Lemma told_portmapper s k s' : told s -> portmapper_step s k s' -> told s'.
Proof.
  intros [T1 T2 T3 T4 T5] H.
  assert (main s' = main s /\ executions s' = executions s /\ straggled s' = straggled s /\ requests s' = requests s /\
    tasks (connections s') = tasks (connections s)) as (Em & Ee & Eg & Eq & Et) by (by destruct H).
  split; rewrite ?Em, ?Ee, ?Eg, ?Et, ?Eq; try done.
  intros Hm. destruct (T3 Hm). by destruct H as [? []| | | | | | |].
Qed.

Lemma runs_joined m id i : m !! id = Some Done -> runs m i -> runs (delete id m) i.
Proof. intros Hd Hr. apply runs_delete. split; [|done]. intros ->. destruct Hr as (t & Ht & Hl). rewrite Hd in Ht. by injection Ht as <-. Qed.

(** [run] keeps the connections of request tasks that were not cut off. *)
Lemma main_owner s s' : main_step s s' ->
  requests s' = requests s /\ straggled s' = straggled s /\
  forall id, runs (tasks (connections s)) id -> runs (tasks (connections s')) id.
Proof.
  intros H. destruct H; main_branches; split_and!; try done; intros i Hi; unfold join_task; rewrite ?tasks_give_back;
    cbn [set_tasks open_task tasks]; try (by apply runs_joined); try (by apply runs_abort).
  apply runs_insert. destruct (decide (i = id)) as [->|]; [left|right]; done.
Qed.

Lemma told_main s s' : told s -> main_step s s' -> told s'.
Proof.
  intros [T1 T2 T3 T4 T5] H. destruct (main_owner s s' H) as (Eq & Eg & Er). split; rewrite ?Eq, ?Eg.
  - intros r q Hq. destruct (T1 r q Hq); auto.
  - destruct H; main_branches; rewrite ?H in *; try done; unfold join_task; rewrite ?tasks_give_back; cbn [set_tasks tasks].
    + intros [= ->]. by apply quiet_delete, T2.
    + intros _ i. apply abort_all_inactive.
  - destruct H; main_branches; rewrite ?H in *; try done. intros [= ->]. by destruct (service s) as [[]|].
  - destruct H; main_branches; rewrite ?H in *; try done; auto.
    + destruct b; [|done]. intros _ _ i. apply abort_all_inactive.
    + intros Hb Hs. by apply quiet_delete, T4.
  - destruct H; main_branches; rewrite ?H in *; try done; intros Hf Hu; by apply (proj1 (drop_tracker_quiet _)).
Qed.

Lemma sound_step l s k s' : sound l s -> server_step s k s' -> sound l s'.
Proof.
  intros [Hp Hs Ht] H. split; [by eapply pool_step|..].
  - destruct H; [by eapply staged_main|by eapply staged_portmapper|by eapply staged_tasks].
  - destruct H; [by eapply told_main|by eapply told_portmapper|by eapply told_tasks].
Qed.

Lemma sound_request l s : sound l s -> sound l (request_shutdown s).
Proof. intros [Hp [S1 S2 S3 S4 S5 S6] [T1 T2 T3 T4 T5]]. split; [done|by split|by split]. Qed.

Lemma sound_cancel l s : sound l s -> finished (main s) = false -> sound l (abandon Cancelled s).
Proof.
  intros [Hp [S1 S2 S3 S4 S5 S6] [T1 T2 T3 T4 T5]] Hf. split.
  - unfold abandon. rewrite drop_tracker_connections. by apply abort_tasks_ok.
  - split; server_updates; try done.
    + intros [Hc|Hc]; apply abort_service_kept in Hc as [|Hc]; try done; apply S5; auto.
    + intros Ho. by apply S6, portmapper_over_abort.
  - split; server_updates; try done.
    + intros r q Hq. destruct (T1 r q Hq); [by left|right]. by apply runs_abort.
    + intros _ Hu. by apply (proj1 (drop_tracker_quiet _)).
Qed.

Lemma sound_lstep l y e y' : sound l (srv y) -> lstep y e y' -> sound l (srv y').
Proof. intros Hs H. destruct H; cbn [srv]; auto using sound_request, sound_cancel. by eapply sound_step. Qed.

Lemma sound_start l b : 0 <= max_connections l -> sound l (srv (start l b)).
Proof.
  intros Hl. split; [split|split|split]; cbn; try done.
  - rewrite size_empty. lia.
  - intros id Hr. by destruct (no_runs id).
  - intros id. split; [set_solver|]. intros Hr. by destruct (no_runs id).
  - intros [?|?]; by destruct b.
Qed.

Lemma sound_lsteps l b t y : 0 <= max_connections l -> lsteps (start l b) t y -> sound l (srv y).
Proof.
  intros Hl H. remember (start l b) as y0 eqn:E. induction H as [|y t y' e y'' _ IH He]; subst; [by apply sound_start|].
  eapply sound_lstep; [by apply IH|done].
Qed.

(** ** Waiting *)

Definition results (t : list notice) : list (result ServerError.t unit) :=
  omap (fun e => match e with Waited _ r => Some r | Quiet => None end) t.

Lemma results_snoc t e : results (t ++ [e]) = results t ++ match e with Waited _ r => [r] | Quiet => [] end.
Proof. unfold results. rewrite omap_app. by destruct e. Qed.

(** How the task of [run] ended, as a join handle reports it. *)
Definition joined (p : main_phase) (r : result ServerError.t unit) : Prop :=
  p = Returned r \/ p = Cancelled /\ r = Err ServerError.Task.

Definition waits (t : list notice) (y : system) : Prop :=
  match results t with
  | [] => slot (hdl y) = true
  | r :: rest => slot (hdl y) = false /\ joined (main (srv y)) r /\ Forall (eq (Ok ())) rest
  end.

Lemma main_settled s k s' : server_step s k s' -> finished (main s) = true -> main s' = main s.
Proof.
  intros H Hf. destruct H as [s' H|k s' H|k s' H]; [|by destruct H|destruct H; by server_updates].
  destruct H; match goal with H : main s = _ |- _ => rewrite H in Hf end; done.
Qed.

Lemma joined_finished p r : joined p r -> finished p = true.
Proof. by intros [->|[-> _]]. Qed.

Lemma waits_step t y e y' : waits t y -> lstep y e y' -> waits (t ++ [e]) y'.
Proof.
  unfold waits. rewrite results_snoc. intros Hw H. destruct H; rewrite ?app_nil_r; cbn [srv hdl slot] in *; try done.
  - destruct (results t) as [|r rest]; [done|]. destruct Hw as (? & Hj & ?). split_and!; try done.
    by rewrite (main_settled _ _ _ H (joined_finished _ _ Hj)).
  - destruct (results t) as [|r0 rest]; cbn [app]; [by split_and!|]. destruct Hw as (? & _). congruence.
  - destruct (results t) as [|r0 rest]; cbn [app]; [congruence|]. destruct Hw as (? & ? & ?). split_and!; try done.
    apply Forall_app. split; [done|by apply Forall_singleton].
  - destruct (results t) as [|r0 rest]; [done|]. destruct Hw as (? & ? & ?). congruence.
Qed.

Lemma waits_lsteps l b t y : lsteps (start l b) t y -> waits t y.
Proof.
  intros H. remember (start l b) as y0 eqn:E. induction H as [|y t y' e y'' _ IH He]; subst; [done|].
  eapply waits_step; [by apply IH|done].
Qed.

(** ** Termination of the shutdown sequence *)

Definition task_weight (t : task) : nat := match t with Done => 1 | _ => 2 end.
Definition main_weight (p : main_phase) : nat :=
  match p with
  | Accepting => 10
  | Joining false Tasks => 9 | Joining false Services => 8 | Joining false Locking => 7 | Joining false Executions => 6
  | Joining true Tasks => 5 | Joining true Services => 4 | Joining true Locking => 3 | Joining true Executions => 2
  | Leaving => 1
  | Returned _ | Cancelled => 0
  end.
Definition request_weight (q : request) : nat := match progress q with Fresh => 2 | _ => 1 end.
Definition service_weight (x : option service_phase) : nat :=
  match x with None => 0 | Some Listening => 3 | Some Closing | Some ServiceAborted => 2 | Some _ => 1 end.

Definition effort (s : server) : nat :=
  (main_weight (main s) + service_weight (service s) + weight task_weight (tasks (connections s)) +
   weight task_weight (peers (connections s)) + weight task_weight (executions s) + weight request_weight (requests s))%nat.

Lemma weight_abort_all m : weight task_weight (abort_all m) = weight task_weight m.
Proof. apply weight_fmap. by intros []. Qed.

Lemma service_weight_abort x : (service_weight (abort_service x) <= service_weight x)%nat.
Proof. destruct x as [[]|]; simpl; lia. Qed.

Lemma live_weight t : live t = true -> task_weight t = 2%nat.
Proof. by destruct t. Qed.

Lemma weight_spawn x t m : m !! x = None -> live t = true -> (weight task_weight (tracker_spawn x t m) <= 2 + weight task_weight m)%nat.
Proof.
  intros Hx Hl. unfold tracker_spawn. rewrite weight_insert, (live_weight t Hl); [|apply map_lookup_filter_None; by left].
  pose proof (weight_filter task_weight (fun e : nat * task => live e.2 = true) m). lia.
Qed.

Lemma weight_cut id m : weight request_weight (cut id <$> m) = weight request_weight m.
Proof. apply weight_fmap. intros q. unfold cut, request_weight. by destruct (decide _). Qed.

(** Every step but an arrival uses effort up; an arrival adds a task that has to
    end and be joined. *)
Definition spends (k : kind) : nat := match k with Arrival => 0 | _ => 1 end.
Definition adds (k : kind) : nat := match k with Arrival => 2 | _ => 0 end.

Lemma spends_ending t : spends (ending t) = 1%nat /\ adds (ending t) = 0%nat.
Proof. by destruct t. Qed.

Ltac entries :=
  repeat match goal with
  | H : ?m !! ?i = Some ?t |- context [weight ?f (<[?i := ?u]> ?m)] =>
      pose proof (weight_replace f m i t u H); generalize dependent (weight f (<[i := u]> m)); intros
  | H : ?m !! ?i = Some ?t |- context [weight ?f (delete ?i ?m)] =>
      pose proof (weight_delete f m i t H); generalize dependent (weight f (delete i m)); intros
  end.

Lemma effort_drop_tracker s : effort (drop_tracker s) = effort s.
Proof. unfold drop_tracker. destruct (_ && _); [|done]. unfold effort. server_updates. by rewrite weight_abort_all. Qed.

Lemma main_effort s s' : main s <> Accepting -> main_step s s' -> (effort s' < effort s)%nat.
Proof.
  intros Hm H. pose proof (service_weight_abort (service s)) as Ha. destruct H; try done; rewrite ?effort_drop_tracker;
    unfold effort; server_updates; unfold join_task;
    rewrite ?peers_give_back, ?tasks_give_back; cbn [set_tasks tasks peers]; rewrite ?H, ?H0; entries; try destruct b; rewrite ?weight_abort_all;
    try destruct st; cbn [main_weight service_weight task_weight] in *; try lia.
  all: destruct H1 as [->|[r ->]]; simpl; lia.
Qed.

Lemma task_effort s k s' : task_step s k s' -> (effort s' + spends k <= effort s + adds k)%nat.
Proof.
  intros H. destruct H as [id t keep H Hl|x t H Hl|id t H Hl|id t r H Hl Hr|r q H Hp|r q x H Hp Hk Hx|r q H]; rewrite ?effort_drop_tracker;
    unfold effort; server_updates; rewrite ?peers_end_task, ?tasks_end_task, ?weight_cut; cbn [end_peer tasks peers].
  1-3: pose proof (live_weight t Hl); destruct (spends_ending t) as [-> ->]; entries; cbn [task_weight] in *; lia.
  - rewrite weight_insert by done. cbn [request_weight progress spends adds]. lia.
  - entries. unfold request_weight in *. rewrite Hp in *. cbn [advance progress spends adds] in *. lia.
  - pose proof (weight_spawn x Active (executions s) Hx eq_refl). entries. unfold request_weight in *. rewrite Hp in *.
    cbn [advance progress spends adds] in *. lia.
  - entries. assert (1 <= request_weight q)%nat by (unfold request_weight; destruct (progress q); lia).
    destruct (cut_off q); cbn [spends adds]; lia.
Qed.

Lemma portmapper_effort s k s' : portmapper_step s k s' -> (effort s' + spends k <= effort s + adds k)%nat.
Proof.
  intros H. unfold effort. destruct H; server_updates; cbn [set_peers open_peer tasks peers]; rewrite ?weight_abort_all, ?H;
    entries; cbn [spends adds task_weight service_weight] in *; try lia.
  rewrite weight_insert by done. cbn. lia.
Qed.

Lemma server_effort s k s' : main s <> Accepting -> server_step s k s' -> (effort s' + spends k <= effort s + adds k)%nat.
Proof.
  intros Hm H. destruct H as [s' H|k s' H|k s' H]; [|by apply portmapper_effort|by apply task_effort].
  pose proof (main_effort s s' Hm H). simpl. lia.
Qed.

Lemma leaves_accepting s k s' : main s <> Accepting -> server_step s k s' -> main s' <> Accepting.
Proof.
  intros Hm H. destruct H as [s' H|k s' H|k s' H]; [|by destruct H|destruct H; by server_updates].
  destruct H; server_updates; try congruence; try done; destruct (requested s); by server_updates.
Qed.

(** The server on its own, with [a] arrivals and [w] other steps. *)
Inductive winds : server -> nat -> nat -> server -> Prop :=
| winds_refl s : winds s 0 0 s
| winds_step s w a s' k s'' : winds s w a s' -> k <> Arrival -> server_step s' k s'' -> winds s (S w) a s''
| winds_arrival s w a s' s'' : winds s w a s' -> server_step s' Arrival s'' -> winds s w (S a) s''.

Lemma winds_effort s w a s' :
  main s <> Accepting -> winds s w a s' -> (w + effort s' <= effort s + 2 * a)%nat /\ main s' <> Accepting.
Proof.
  intros Hm H. induction H as [s|s w a s' k s'' H IH Hk He|s w a s' s'' H IH He]; [split; [lia|done]|..];
    destruct (IH Hm) as [Hw Hm']; pose proof (server_effort _ _ _ Hm' He) as Hs; (split; [|by eapply leaves_accepting]).
  - destruct k; [..|done]; simpl in Hs; lia.
  - simpl in Hs. lia.
Qed.

Lemma winds_sound l s w a s' : sound l s -> winds s w a s' -> sound l s'.
Proof. intros Hs H. induction H as [s|s w a s' k s'' H IH Hk He|s w a s' s'' H IH He]; [done|by eapply sound_step; [apply IH|]..]. Qed.

(** A task set that has been told to stop shrinks by itself. *)
Lemma stopped_shrinks m : quiet m -> m <> ∅ -> exists id, m !! id = Some Aborted \/ m !! id = Some Done.
Proof. intros Hq (id & t & Ht)%map_choose. exists id. specialize (Hq id). rewrite Ht in *. destruct t; auto. done. Qed.

Lemma stopped_tasks_work s b :
  main s = Joining b Tasks -> quiet (tasks (connections s)) -> exists s', server_step s Work s'.
Proof.
  intros Hm Hq. destruct (decide (tasks (connections s) = ∅)) as [He|He].
  - eexists. apply server_main. by eapply main_tasks_joined.
  - destruct (stopped_shrinks _ Hq He) as (id & [Ht|Ht]).
    + eexists. apply server_task. by apply (task_ends s id Aborted false).
    + eexists. apply server_main. by eapply main_join.
Qed.

Lemma stopped_service_work s b :
  main s = Joining b Services -> service s <> Some Listening /\ service s <> Some Closing -> exists s', server_step s Work s'.
Proof.
  intros Hm [H1 H2]. destruct (service s) as [[| | |r|]|] eqn:Es; [done|done|..].
  - eexists. apply server_portmapper. by apply portmapper_cancelled.
  - eexists. apply server_main. eapply main_join_service; [done..|]. right. by exists r.
  - eexists. apply server_main. eapply main_join_service; [done..|]. by left.
  - eexists. apply server_main. by eapply main_services_joined.
Qed.

Lemma stopped_executions_work s b :
  main s = Joining b Executions -> executions s = ∅ \/ ~ map_Forall (fun _ t => t = Active) (executions s) ->
  exists s', server_step s Work s'.
Proof.
  intros Hm [He|Hn]; [eexists; apply server_main; by eapply main_done|].
  apply map_not_Forall in Hn as (x & t & Ht & Hn); [|intros; apply _]. destruct t; [done|..].
  - eexists. apply server_task. by apply (execution_ends s x Aborted).
  - eexists. apply server_main. by eapply main_join_execution.
Qed.

(** What is left when [run] can only wait: executions that stragglers started
    after everything was aborted. *)
Definition outrun (s : server) : Prop :=
  straggled s = true /\ main s = Joining true Executions /\ executions s <> ∅ /\
  map_Forall (fun _ t => t = Active) (executions s).

Lemma quiet_not_active m : quiet m -> m <> ∅ -> ~ map_Forall (fun _ t => t = Active) m.
Proof. intros Hq (id & t & Ht)%map_choose Hf. pose proof (Hf id t Ht) as E. simpl in E. rewrite E in Ht. by apply (Hq id). Qed.

Lemma can_work s :
  told s -> main s <> Accepting -> finished (main s) = false -> (exists s', server_step s Work s') \/ outrun s.
Proof.
  intros [_ T2 T3 T4 _] Hm Hf. destruct (main s) as [|[] st| | |] eqn:Em; [done| | | |done..].
  - destruct st.
    + left. by eapply stopped_tasks_work; [|apply T2].
    + left. by eapply stopped_service_work; [|apply T3].
    + left. eexists. apply server_main. by eapply main_locks.
    + destruct (decide (executions s = ∅)) as [He|He]; [left; by eapply stopped_executions_work; [|left]|].
      destruct (decide (map_Forall (fun _ t => t = Active) (executions s))) as [Ha|Ha].
      * right. split_and!; try done. destruct (straggled s) eqn:Es; [done|]. by destruct (quiet_not_active _ (T4 eq_refl eq_refl) He).
      * left. by eapply stopped_executions_work; [|right].
  - left. eexists. apply server_main. by eapply main_deadline.
  - left. eexists. apply server_main. by apply main_returns.
Qed.

(** ** What a server promises its owner *)

Section Guarantees.
Context (l : ServerLimits) (portmapper : bool) (limit : 0 <= max_connections l).

(** C9: the connection limit holds for both listeners together. In every state
    of a server, whatever is accepted, refused, cut off, aborted or joined late,
    the open connections of the NFS listener and of the standalone portmapper
    number at most [max_connections], and permits are neither lost nor created:
    those of connections that have ended come back no later than when [run] joins
    their tasks. *)
Theorem connection_limit t y :
  lsteps (start l portmapper) t y ->
  open_count (tasks (connections (srv y))) + open_count (peers (connections (srv y))) <= max_connections l /\
  0 <= available (connections (srv y)) /\
  available (connections (srv y)) + Z.of_nat (size (task_permits (connections (srv y)))) +
    Z.of_nat (size (peer_permits (connections (srv y)))) = max_connections l /\
  (tasks (connections (srv y)) = ∅ -> task_permits (connections (srv y)) = ∅).
Proof.
  intros H. destruct (sd_pool _ _ (sound_lsteps l portmapper t y limit H)) as [P1 P2 P3 P4 P5].
  pose proof (open_count_le _ _ P3). pose proof (open_count_le _ _ (fun id => proj2 (P5 id))). split_and!; [lia..|].
  intros He. apply elem_of_equiv_empty_L. intros id [t' Ht]%P4. by rewrite He in Ht.
Qed.

(** C8: a server that has shut down has nothing running that was not told to
    stop. When [run] returns [Ok], shutdown had been requested, every connection
    task and the portmapper have ended and been joined, all connection permits of
    the NFS listener are back, and the portmapper connections and request tasks
    that are still there have been aborted. Every execution has ended and been
    joined, also those that were spawned while the server was draining, unless a
    request task, aborted with its connection but not waited for, spawned one
    after that; such executions are aborted no later than when the last of these
    request tasks ends. *)
Theorem shutdown_quiescent t y :
  lsteps (start l portmapper) t y -> main (srv y) = Returned (Ok ()) ->
  requested (srv y) = true /\ tasks (connections (srv y)) = ∅ /\ service (srv y) = None /\
  task_permits (connections (srv y)) = ∅ /\ quiet (peers (connections (srv y))) /\
  (forall r q, requests (srv y) !! r = Some q -> cut_off q = true) /\
  (straggled (srv y) = false -> executions (srv y) = ∅) /\
  (requests (srv y) = ∅ -> quiet (executions (srv y))).
Proof.
  intros H Hm. destruct (sound_lsteps l portmapper t y limit H) as [P [S1 S2 S3 S4 _ S6] T]. rewrite Hm in *.
  rewrite (S3 eq_refl) in S6. split_and!; auto.
  - apply elem_of_equiv_empty_L. intros id [t' Hk]%(pk_held l _ P). by rewrite (S2 eq_refl) in Hk.
  - by apply S6.
  - intros r q. by apply joined_cut_off, S2.
  - intros He. apply (td_tracker _ T); [by rewrite Hm|]. by rewrite He.
Qed.

(** [ServerHandle::wait] reports how the server ended, once. No call of
    [wait] returns before the task of [run] has ended; the first to return gives
    that task's result, or a join error if it was aborted; every later one gives
    [Ok], whatever calls were cancelled in between and however many callers wait
    at the same time. *)
Lemma wait_reports_once t y :
  lsteps (start l portmapper) t y ->
  results t = [] \/
  exists r rest, results t = r :: rest /\ joined (main (srv y)) r /\ Forall (eq (Ok ())) rest.
Proof.
  intros H. apply waits_lsteps in H. unfold waits in H. destruct (results t) as [|r rest]; [by left|].
  destruct H as (_ & Hj & Hf). right. by exists r, rest.
Qed.

(** C10: the shutdown sequence ends. Once [run] has left its accept loop, the
    steps of the server, arrivals apart, number at most [effort] plus two for each
    portmapper connection, request task or execution that still arrives. Until
    [run] has returned, one of them is its own to take or is the end of a task
    that was told to stop, so that it never waits for something that nobody
    stops: when the graceful wait hangs there is the deadline, and after that
    everything it joins has been aborted. The one exception is an execution that a
    straggling request task spawned between the abort of all executions and the
    lock: [run] then waits for its own deadline. *)
Theorem shutdown_terminates t y b st w a s :
  lsteps (start l portmapper) t y -> main (srv y) = Joining b st -> winds (srv y) w a s ->
  (w <= effort (srv y) + 2 * a)%nat /\
  (finished (main s) = false ->
    (exists s', server_step s Work s') \/
    straggled s = true /\ main s = Joining true Executions /\ executions s <> ∅ /\
      map_Forall (fun _ t => t = Active) (executions s)).
Proof.
  intros H Hm Hw. destruct (winds_effort (srv y) w a s ltac:(congruence) Hw) as [He Ha]. split; [lia|].
  apply can_work; [|done]. eapply sd_told, winds_sound; [by apply (sound_lsteps l portmapper t)|done].
Qed.
End Guarantees.

(** ** A sample life *)

Lemma lsteps_head y e y' t y'' : lstep y e y' -> lsteps y' t y'' -> lsteps y (e :: t) y''.
Proof.
  intros H Hs. induction Hs as [y'|y' t y1 e' y2 Hs IH He].
  - apply (lsteps_snoc y [] y); [apply lsteps_nil|done].
  - change (e :: t ++ [e']) with ((e :: t) ++ [e']). eapply lsteps_snoc; [by apply IH|done].
Qed.

Lemma winds_head s k s' w a s'' : k <> Arrival -> server_step s k s' -> winds s' w a s'' -> winds s (S w) a s''.
Proof.
  intros Hk H Hw. induction Hw as [s'|s' w a s1 k' s2 Hw IH Hk' He|s' w a s1 s2 Hw IH He].
  - by eapply winds_step; [apply winds_refl|..].
  - by eapply winds_step; [apply IH|..].
  - by eapply winds_arrival; [apply IH|].
Qed.

Lemma winds_lsteps y0 t s w a s' h :
  lsteps y0 t (mkSystem s h) -> winds s w a s' -> lsteps y0 (t ++ replicate (w + a) Quiet) (mkSystem s' h).
Proof.
  intros H Hw. induction Hw as [s|s w a s' k s'' Hw IH Hk He|s w a s' s'' Hw IH He]; [by rewrite app_nil_r|..].
  - cbn [Nat.add]. rewrite replicate_S_end, app_assoc. eapply lsteps_snoc; [by apply IH|]. by eapply (handle_server (mkSystem s' h)).
  - rewrite Nat.add_succ_r, replicate_S_end, app_assoc. eapply lsteps_snoc; [by apply IH|]. by eapply (handle_server (mkSystem s' h)).
Qed.

Ltac life_evaluated :=
  match goal with
  | |- lsteps ?y _ _ => let y' := eval vm_compute in y in replace y with y' by (vm_compute; reflexivity)
  | |- winds ?s _ _ _ => let s' := eval vm_compute in s in replace s with s' by (vm_compute; reflexivity)
  end.
Ltac life_holds := first [done | vm_compute; reflexivity | by left | by right | right; by eexists].
Tactic Notation "owner" open_constr(step) := eapply lsteps_head; [eapply step; life_holds|]; life_evaluated.
Tactic Notation "wind" open_constr(task) open_constr(step) :=
  eapply winds_head; [|eapply task; eapply step; life_holds|]; [done|]; life_evaluated.
Tactic Notation "serve" open_constr(task) open_constr(step) :=
  eapply lsteps_head; [eapply handle_server, task; eapply step; life_holds|]; life_evaluated.

(** A connection is accepted, and a request task of it starts an execution;
    shutdown is requested; everything ends in time; two callers wait. *)
Definition toy_closing : server :=
  mkServer true (Joining false Tasks) (Some Listening) (open_task 0 (mkPool (max_connections production_defaults) ∅ ∅ ∅ ∅))
    {[0%nat := Active]} {[0%nat := mkRequest 0 false Spawned]} false.
Definition toy_stopped : server :=
  mkServer true (Returned (Ok ())) None (mkPool (max_connections production_defaults) ∅ ∅ ∅ ∅) ∅ ∅ false.

Lemma toy_life_begins :
  lsteps (start production_defaults true) (replicate 6 Quiet) (mkSystem toy_closing (mkHandle true None false)).
Proof.
  cbn [replicate]. life_evaluated. serve server_main (main_accept _ 0). serve server_task (request_starts _ 0 Active 0).
  serve server_task (request_upgrades _ 0). serve server_task (request_executes _ 0 _ 0).
  owner handle_shutdown. serve server_main main_stop. apply lsteps_nil.
Qed.

Lemma toy_winds : winds toy_closing 13 0 toy_stopped.
Proof.
  unfold toy_closing. wind server_task (request_ends _ 0). wind server_task (task_ends _ 0 Active true). wind server_main (main_join _ 0).
  wind server_main main_tasks_joined. wind server_portmapper portmapper_stop. wind server_portmapper portmapper_closed.
  wind server_main main_join_service. wind server_main main_services_joined. wind server_task (execution_ends _ 0).
  wind server_main main_locks. wind server_main (main_join_execution _ _ 0). wind server_main main_done.
  wind server_main main_returns. apply winds_refl.
Qed.

Lemma toy_life_ends :
  lsteps (start production_defaults true) (replicate 6 Quiet ++ replicate 13 Quiet) (mkSystem toy_stopped (mkHandle true None false)).
Proof. exact (winds_lsteps _ _ _ _ _ _ _ toy_life_begins toy_winds). Qed.

Definition toy_waits : list notice := replicate 19 Quiet ++ [Quiet; Waited 1 (Ok ()); Quiet; Waited 2 (Ok ())].

Lemma toy_life_reported : lsteps (start production_defaults true) toy_waits (mkSystem toy_stopped (mkHandle false None false)).
Proof.
  eapply (lsteps_snoc _ (replicate 19 Quiet ++ [Quiet; Waited 1 (Ok ()); Quiet]));
    [|by apply (handle_wait_again (mkSystem toy_stopped (mkHandle false (Some 2%nat) false)))].
  eapply (lsteps_snoc _ (replicate 19 Quiet ++ [Quiet; Waited 1 (Ok ())]));
    [|by apply (handle_wait (mkSystem toy_stopped (mkHandle false None false)))].
  eapply (lsteps_snoc _ (replicate 19 Quiet ++ [Quiet]));
    [|apply (handle_wait_returns (mkSystem toy_stopped (mkHandle true (Some 1%nat) false))); [done..|by left]].
  eapply (lsteps_snoc _ (replicate 19 Quiet)); [exact toy_life_ends|].
  by apply (handle_wait (mkSystem toy_stopped (mkHandle true None false))).
Qed.

Lemma toy_limit : 0 <= max_connections production_defaults.
Proof. by vm_compute. Qed.

Lemma connection_limit_witness :
  open_count (tasks (connections toy_closing)) + open_count (peers (connections toy_closing)) <= max_connections production_defaults.
Proof. exact (proj1 (connection_limit production_defaults true toy_limit _ _ toy_life_begins)). Defined.

Lemma shutdown_quiescent_witness : executions toy_stopped = ∅ /\ tasks (connections toy_stopped) = ∅.
Proof.
  destruct (shutdown_quiescent production_defaults true toy_limit _ _ toy_life_ends eq_refl) as (_ & Ht & _ & _ & _ & _ & He & _).
  split; [by apply He|done].
Defined.

Lemma shutdown_terminates_witness : (13 <= effort toy_closing + 2 * 0)%nat.
Proof. exact (proj1 (shutdown_terminates production_defaults true toy_limit _ _ _ _ _ _ _ toy_life_begins eq_refl toy_winds)). Defined.

(** A request task is aborted with its connection, and gets round to spawning its
    execution only when [run] has joined all executions: [run] returns [Ok] with
    an execution that nobody has stopped yet. *)
Example straggler_outlives_run : exists y,
  lsteps (start production_defaults false) (replicate 14 Quiet) y /\
  main (srv y) = Returned (Ok ()) /\ executions (srv y) !! 0%nat = Some Active.
Proof.
  eexists. split.
  - cbn [replicate]. life_evaluated. serve server_main (main_accept _ 0). serve server_task (request_starts _ 0 Active 0).
    serve server_task (request_upgrades _ 0). serve server_task (task_ends _ 0 Active true). owner handle_shutdown.
    serve server_main (main_reap _ 0). serve server_main main_stop. serve server_main main_tasks_joined.
    serve server_main main_services_joined. serve server_main main_locks. serve server_main main_done.
    serve server_task (request_executes _ 0 _ 0). serve server_main main_returns.
    owner (handle_wait _ 1). apply lsteps_nil.
  - done.
Qed.

(** An accept error makes [run] return, and [wait] with it, while a connection
    has only been told to stop. *)
Example early_return_leaves_tasks : exists y,
  lsteps (start production_defaults false) [Quiet; Quiet; Quiet; Waited 1 (Err (ServerError.Io OtherIo))] y /\
  tasks (connections (srv y)) !! 0%nat = Some Aborted.
Proof.
  eexists. split.
  - life_evaluated. serve server_main (main_accept _ 0). serve server_main (main_accept_failed _ OtherIo).
    owner (handle_wait _ 1). eapply lsteps_head; [eapply handle_wait_returns; [done..|by left]|]. apply lsteps_nil.
  - done.
Qed.
