(* ===== verification/Serve.v ===== *)
(** * [NfsServer::serve] and [serve_with_portmapper]: serving until a signal

    [serve_inner] ([src/server/mod.rs]) runs the server in the caller's own task
    and requests its shutdown when a future of the caller completes. It refines a
    server started with a handle: whatever it does, a caller of [start] could have
    observed too, so that the theorems of [Lifecycle] hold of it. *)
From S2P Require Import Prelude RpcRecord VfsTypes Limits Connection Builder Portmapper Lifecycle.
From stdpp Require Import list gmap.
#[local] Open Scope Z_scope.

(** The pinned [server] future, whether [signal_task] has completed, and the
    result of the call. *)
Record serving : Type := mkServing { server_of : server; signalled : bool; returned : option (result ServerError.t unit) }.

(** The two futures of [select!]. [signal_task] is polled only until it has
    completed; after that the call awaits the server alone. *)
Inductive serve_step (y : serving) : serving -> Prop :=
| serve_server k s : server_step (server_of y) k s -> serve_step y (mkServing s (signalled y) (returned y))
| serve_signal :
    signalled y = false -> returned y = None -> serve_step y (mkServing (request_shutdown (server_of y)) true None)
| serve_returns r :
    main (server_of y) = Returned r -> returned y = None -> serve_step y (mkServing (server_of y) (signalled y) (Some r)).

Definition serve_start (l : ServerLimits) (portmapper : bool) : serving := mkServing (started l portmapper) false None.

(** [serve_inner] up to the [select!]. *)
Definition serve_inner (fill fill' : Z -> result ServerError.t (list byte)) (s : NfsServer)
    (listener : result IoErrorKind SocketAddr) (sockets : option Standalone.PortmapperSockets)
    : result ServerError.t (ConnectionState * serving) :=
  addr ← map_err ServerError.Io listener;
  prepared ← match sockets with
    | None => Ok None
    | Some k => pp ← Standalone.prepare k (port addr); Ok (Some pp)
    end;
  state ← connection_state fill fill' s (port addr);
  Ok (state, serve_start (s_limits s) (bool_decide (is_Some prepared))).

Definition serve fill fill' s listener := serve_inner fill fill' s listener None.
Definition serve_with_portmapper fill fill' s listener sockets := serve_inner fill fill' s listener (Some sockets).

(** The handle of the corresponding caller of [start]. *)
Definition handle_of (y : serving) : handle := mkHandle (match returned y with None => true | Some _ => false end) None false.

(** The observations are the result, once there is one. *)
Definition corresponds (l : ServerLimits) (portmapper : bool) (y : serving) : Prop :=
  requested (server_of y) = signalled y /\
  (forall r, returned y = Some r -> main (server_of y) = Returned r) /\
  exists t, lsteps (start l portmapper) t (mkSystem (server_of y) (handle_of y)) /\
    results t = match returned y with Some r => [r] | None => [] end.

Lemma server_requested s k s' : server_step s k s' -> requested s' = requested s.
Proof. intros H. destruct H as [s' H|k s' H|k s' H]; destruct H; server_updates; try done. destruct (requested s) eqn:E; by server_updates. Qed.

Lemma corresponds_start l b : corresponds l b (serve_start l b).
Proof. split_and!; [done|done|]. exists []. split; [apply lsteps_nil|done]. Qed.

Lemma corresponds_step l b y y' : corresponds l b y -> serve_step y y' -> corresponds l b y'.
Proof.
  intros (Hq & Hm & t & Ht & Hr) H. destruct H as [k s H|H1 H2|r H1 H2]; unfold handle_of in *; cbn [server_of signalled returned] in *.
  - split_and!; cbn; [by rewrite (server_requested _ _ _ H)| |].
    + intros r Er. rewrite (main_settled _ _ _ H); [by apply Hm|by rewrite (Hm r Er)].
    + exists (t ++ [Quiet]). rewrite results_snoc, app_nil_r. split; [|done]. eapply lsteps_snoc; [exact Ht|].
      exact (handle_server (mkSystem _ _) _ _ H).
  - split_and!; [done|done|]. rewrite H2 in *. exists (t ++ [Quiet]). rewrite results_snoc, app_nil_r. split; [|done].
    eapply lsteps_snoc; [exact Ht|]. by apply (handle_shutdown (mkSystem _ _)).
  - rewrite H2 in *. split_and!; cbn; [done|by intros ? [= <-]|]. exists ((t ++ [Quiet]) ++ [Waited 0 r]).
    rewrite !results_snoc, app_nil_r, Hr. split; [|done]. eapply lsteps_snoc; [eapply lsteps_snoc; [exact Ht|]|].
    + exact (handle_wait (mkSystem (server_of y) (mkHandle true None false)) 0 eq_refl eq_refl).
    + exact (handle_wait_returns (mkSystem (server_of y) (mkHandle true (Some 0%nat) false)) 0 r eq_refl eq_refl (or_introl H1)).
Qed.

(** C30: every run of [serve] is a run of a started server whose caller requests the
    shutdown when the signal completes and then waits: with the same server state
    and the same result. In particular it returns what [run] returned, and [Ok]
    only after the signal, with every connection and service ended, and, without
    stragglers, every execution. *)
Theorem serve_refines_start l b y :
  0 <= max_connections l -> rtc serve_step (serve_start l b) y ->
  corresponds l b y /\
  (returned y = Some (Ok ()) ->
    signalled y = true /\ tasks (connections (server_of y)) = ∅ /\ service (server_of y) = None /\
    (straggled (server_of y) = false -> executions (server_of y) = ∅)).
Proof.
  intros Hl H. assert (corresponds l b y) as Hc.
  { revert H. apply (rtc_ind_r (corresponds l b)); [apply corresponds_start|]. intros. by eapply corresponds_step. }
  split; [done|]. destruct Hc as (Hq & Hm & t & Ht & _). intros Er. specialize (Hm _ Er).
  destruct (sound_lsteps l b t _ Hl Ht) as [_ [S1 S2 S3 S4 _ _] _]. cbn [srv] in *. rewrite Hm in *.
  split_and!; [rewrite <- Hq|..]; auto.
Qed.

(** Both ways to start prepare the same state. *)
Lemma serve_inner_prepares fill fill' s listener sockets :
  serve_inner fill fill' s listener sockets =
  ('(_, _, state, y) ← start_inner fill fill' s listener sockets; Ok (state, mkServing (srv y) false None)).
Proof.
  unfold serve_inner, start_inner, serve_start. destruct (map_err ServerError.Io listener) as [addr|]; [|done].
  cbn [mbind result_bind]. destruct sockets as [k|]; cbn; [destruct (Standalone.prepare k (port addr)); cbn; [|done]|];
    by destruct (connection_state fill fill' s (port addr)).
Qed.

(** ** A sample run: the signal comes at once *)
Definition toy_served : serving :=
  mkServing (mkServer true (Returned (Ok ())) None (mkPool (max_connections production_defaults) ∅ ∅ ∅ ∅) ∅ ∅ false) true (Some (Ok ())).

Tactic Notation "serving_step" open_constr(step) := eapply rtc_l; [eapply serve_server, server_main; eapply step; life_holds|].

Lemma toy_serves : rtc serve_step (serve_start production_defaults false) toy_served.
Proof.
  eapply rtc_l; [by apply serve_signal|]. serving_step main_stop. serving_step main_tasks_joined. serving_step main_services_joined.
  serving_step main_locks. serving_step main_done. serving_step main_returns.
  eapply rtc_l; [by apply serve_returns|]. apply rtc_refl.
Qed.

Lemma serve_refines_start_witness : tasks (connections (server_of toy_served)) = ∅ /\ executions (server_of toy_served) = ∅.
Proof.
  destruct (serve_refines_start production_defaults false toy_served ltac:(by vm_compute) toy_serves) as [_ H].
  destruct (H eq_refl) as (_ & Ht & _ & He). split; [exact Ht|exact (He eq_refl)].
Defined.
