(* ===== verification/Tracker.v ===== *)
(** * [src/transaction_tracker.rs]: retransmission detection of the demo server

    [TransactionTracker] remembers which transactions of which clients are in
    progress or completed recently, in a nested map with a queue of completions
    for expiry. [Reference] is what it means to do: one entry per transaction,
    forgotten when its retention period has passed. *)
From S2P Require Import Prelude.
From stdpp Require Import list gmap strings sorting.
#[local] Open Scope Z_scope.

Module TransactionState.
Inductive t : Type := InProgress | Completed (at_ : Z).
#[global] Instance t_eq_dec : EqDecision t.
Proof. solve_decision. Defined.
End TransactionState.
Import TransactionState.

(** Instants are nanoseconds of the monotonic clock. *)
Record CompletedTransaction : Type := mkCompleted { client_addr : string; xid : Z; completed_at : Z }.

Record TrackerState : Type := mkTracker {
  transactions : gmap string (gmap Z TransactionState.t);
  completed_order : list CompletedTransaction
}.

Definition new : TrackerState := mkTracker ∅ [].

Definition saturating_duration_since (now earlier : Z) : Z := Z.max 0 (now - earlier).

(** The body of the loop of [housekeeping] for one expired completion. *)
Definition expire (completed : CompletedTransaction) (m : gmap string (gmap Z TransactionState.t))
    : gmap string (gmap Z TransactionState.t) :=
  match m !! client_addr completed with
  | Some inner =>
      let inner' :=
        match inner !! xid completed with
        | Some (Completed a) => if a =? completed_at completed then delete (xid completed) inner else inner
        | _ => inner
        end in
      if bool_decide (inner' = ∅) then delete (client_addr completed) m else <[client_addr completed := inner']> m
  | None => m
  end.

Fixpoint housekeeping_loop (q : list CompletedTransaction) (m : gmap string (gmap Z TransactionState.t))
    (now max_age : Z) : TrackerState :=
  match q with
  | [] => mkTracker m []
  | completed :: q' =>
      if max_age <=? saturating_duration_since now (completed_at completed)
      then housekeeping_loop q' (expire completed m) now max_age else mkTracker m q
  end.

Definition housekeeping (st : TrackerState) (now max_age : Z) : TrackerState :=
  housekeeping_loop (completed_order st) (transactions st) now max_age.

Definition is_retransmission (retention now : Z) (x : Z) (client : string) (st : TrackerState) : bool * TrackerState :=
  let st := housekeeping st now retention in
  let inner := default ∅ (transactions st !! client) in
  match inner !! x with
  | None => (false, mkTracker (<[client := <[x := InProgress]> inner]> (transactions st)) (completed_order st))
  | Some _ => (true, st)
  end.

Definition mark_processed (now : Z) (x : Z) (client : string) (st : TrackerState) : TrackerState :=
  match transactions st !! client with
  | None => st
  | Some inner =>
      match inner !! x with
      | None => st
      | Some _ =>
          mkTracker (<[client := <[x := Completed now]> inner]> (transactions st))
            (completed_order st ++ [mkCompleted client x now])
      end
  end.

(** ** Reference *)

Module Reference.
Abbreviation state := (gmap (string * Z) TransactionState.t).

Definition remembered (retention now : Z) (o : option TransactionState.t) : bool :=
  match o with
  | None => false
  | Some InProgress => true
  | Some (Completed a) => now - a <? retention
  end.

Definition is_retransmission (retention now x : Z) (client : string) (s : state) : bool * state :=
  if remembered retention now (s !! (client, x)) then (true, s) else (false, <[(client, x) := InProgress]> s).

Definition mark_processed (now x : Z) (client : string) (s : state) : state := <[(client, x) := Completed now]> s.
End Reference.

(** The calls of a server: a request arrives; the request that was let through
    completes. *)
Inductive call : Type := Arrives (now x : Z) (client : string) | Completes (now x : Z) (client : string).
Definition call_time (c : call) : Z := match c with Arrives now _ _ | Completes now _ _ => now end.

Definition perform (retention : Z) (c : call) (st : TrackerState) : option bool * TrackerState :=
  match c with
  | Arrives now x client => let '(b, st') := is_retransmission retention now x client st in (Some b, st')
  | Completes now x client => (None, mark_processed now x client st)
  end.
Definition perform_reference (retention : Z) (c : call) (s : Reference.state) : option bool * Reference.state :=
  match c with
  | Arrives now x client => let '(b, s') := Reference.is_retransmission retention now x client s in (Some b, s')
  | Completes now x client => (None, Reference.mark_processed now x client s)
  end.

Fixpoint replies {S : Type} (step : call -> S -> option bool * S) (l : list call) (s : S) : list (option bool) * S :=
  match l with
  | [] => ([], s)
  | c :: l' => let '(r, s1) := step c s in let '(rs, s2) := replies step l' s1 in (r :: rs, s2)
  end.

(** Calls in clock order, each completion for a request in progress: what
    [handle_rpc] does, which completes exactly the calls it let through. *)
Fixpoint disciplined (retention last : Z) (l : list call) (s : Reference.state) : Prop :=
  match l with
  | [] => True
  | c :: l' =>
      last <= call_time c /\
      match c with Completes _ x client => s !! (client, x) = Some InProgress | Arrives _ _ _ => True end /\
      disciplined retention (call_time c) l' (perform_reference retention c s).2
  end.

(** ** Lookups in the nested map *)

Implicit Type m : gmap string (gmap Z TransactionState.t).

Definition entry m (client : string) (x : Z) : option TransactionState.t := m !! client ≫= lookup x.
Definition tidy m : Prop := forall client inner, m !! client = Some inner -> inner <> ∅.

Lemma entry_default m client x : default ∅ (m !! client) !! x = entry m client x.
Proof. unfold entry. by destruct (m !! client). Qed.

Lemma entry_insert m client x s client' x' :
  entry (<[client := <[x := s]> (default ∅ (m !! client))]> m) client' x' =
    if decide (client = client' /\ x = x') then Some s else entry m client' x'.
Proof.
  unfold entry. destruct (decide (client = client')) as [<-|Hc].
  - rewrite lookup_insert_eq. simpl. destruct (decide (x = x')) as [<-|Hx].
    + rewrite decide_True by done. apply lookup_insert_eq.
    + rewrite decide_False by naive_solver. rewrite lookup_insert_ne by done. apply entry_default.
  - rewrite lookup_insert_ne by done. by rewrite decide_False by naive_solver.
Qed.

Lemma tidy_insert m client x s : tidy m -> tidy (<[client := <[x := s]> (default ∅ (m !! client))]> m).
Proof.
  intros Ht c inner. destruct (decide (client = c)) as [<-|Hc]; [|rewrite lookup_insert_ne by done; apply Ht].
  rewrite lookup_insert_eq. intros [= <-]. apply insert_non_empty.
Qed.

(** What one expired completion does to the map. *)
Definition expires (k : CompletedTransaction) (client : string) (x : Z) (o : option TransactionState.t) : bool :=
  bool_decide (client_addr k = client) && bool_decide (xid k = x) && bool_decide (o = Some (Completed (completed_at k))).

Lemma entry_replace m client (inner : gmap Z TransactionState.t) client' x :
  entry (if bool_decide (inner = ∅) then delete client m else <[client := inner]> m) client' x =
    if decide (client = client') then inner !! x else entry m client' x.
Proof.
  unfold entry. case_bool_decide as Hi; [subst inner|]; destruct (decide (client = client')) as [<-|Hc].
  - by rewrite lookup_delete_eq.
  - by rewrite lookup_delete_ne.
  - by rewrite lookup_insert_eq.
  - by rewrite lookup_insert_ne.
Qed.

Lemma entry_expire k m client x :
  entry (expire k m) client x = if expires k client x (entry m client x) then None else entry m client x.
Proof.
  unfold expire, expires. destruct (m !! client_addr k) as [inner|] eqn:Em.
  - rewrite entry_replace. destruct (decide (client_addr k = client)) as [<-|Hc].
    + rewrite bool_decide_eq_true_2 by done. assert (entry m (client_addr k) x = inner !! x) as -> by (unfold entry; by rewrite Em).
      destruct (decide (xid k = x)) as [<-|Hx].
      * rewrite bool_decide_eq_true_2 by done. cbn [andb]. destruct (inner !! xid k) as [[|a]|] eqn:Ei; cbn [andb]; try done.
        destruct (Z.eqb_spec a (completed_at k)) as [->|Ha].
        -- by rewrite bool_decide_eq_true_2, lookup_delete_eq.
        -- rewrite bool_decide_eq_false_2, Ei; [done|congruence].
      * rewrite (bool_decide_eq_false_2 (xid k = x)) by done. cbn [andb].
        destruct (inner !! xid k) as [[|a]|]; try done. destruct (a =? _); [by rewrite lookup_delete_ne|done].
    + by rewrite bool_decide_eq_false_2.
  - destruct (decide (client_addr k = client)) as [<-|Hc]; [|by rewrite bool_decide_eq_false_2].
    unfold entry. rewrite Em. cbn [mbind option_bind]. by destruct (_ && _).
Qed.

Lemma tidy_expire k m : tidy m -> tidy (expire k m).
Proof.
  intros Ht. unfold expire. destruct (m !! client_addr k) as [inner|] eqn:Em; [|done].
  intros c i. case_bool_decide as Hi; [rewrite lookup_delete_Some; intros [_ ?]; by eapply Ht|].
  intros [[_ <-]|[_ ?]]%lookup_insert_Some; [done|by eapply Ht].
Qed.

(** ** Expiry *)

Definition expired (retention now : Z) (o : option TransactionState.t) : bool :=
  match o with Some (Completed a) => retention <=? now - a | _ => false end.

(** Every completed entry is queued, completions are queued in clock order. *)
Record queued m (q : list CompletedTransaction) (last : Z) : Prop := {
  qd_entry client x a : entry m client x = Some (Completed a) -> mkCompleted client x a ∈ q;
  qd_sorted : StronglySorted (fun k1 k2 => completed_at k1 <= completed_at k2) q;
  qd_past : Forall (fun k => completed_at k <= last) q;
  qd_tidy : tidy m
}.

Lemma queued_expire k m q last : queued m (k :: q) last -> queued (expire k m) q last.
Proof.
  intros [Q1 Q2 Q3 Q4]. apply StronglySorted_inv in Q2 as [Q2 _]. apply Forall_cons in Q3 as [_ Q3].
  split; [|done|done|by apply tidy_expire].
  intros client x a. rewrite entry_expire. destruct (expires k client x _) eqn:E; [done|]. intros He.
  pose proof (Q1 _ _ _ He) as Hin. apply elem_of_cons in Hin as [<-|Hin]; [|done]. unfold expires in E. cbn in E.
  by rewrite He, !bool_decide_eq_true_2 in E.
Qed.

Lemma housekeeping_spec m q last now retention :
  queued m q last -> last <= now ->
  let st := housekeeping_loop q m now retention in
  queued (transactions st) (completed_order st) last /\
  forall client x, entry (transactions st) client x =
    if expired retention now (entry m client x) then None else entry m client x.
Proof.
  revert m. induction q as [|k q IH]; intros m Hq Hl; cbn [housekeeping_loop].
  - split; [done|]. intros client x. cbn [transactions]. destruct (expired _ _ _) eqn:E; [|done].
    destruct (entry m client x) as [[|a]|] eqn:Ee; try done. by apply (qd_entry _ _ _ Hq), elem_of_nil in Ee.
  - pose proof (qd_past _ _ _ Hq) as Hp. apply Forall_cons in Hp as [Hk Hp]. unfold saturating_duration_since.
    rewrite Z.max_r by lia. destruct (Z.leb_spec retention (now - completed_at k)) as [Hx|Hx].
    + destruct (IH (expire k m) (queued_expire _ _ _ _ Hq) Hl) as [H1 H2]. split; [done|]. intros client x.
      rewrite H2, entry_expire. destruct (expires k client x _) eqn:E; [|done]. cbn [expired].
      unfold expires in E. apply andb_true_iff in E as [_ E]. apply bool_decide_eq_true in E as ->. cbn [expired].
      by rewrite (proj2 (Z.leb_le _ _) Hx).
    + split; [done|]. intros client x. cbn [transactions]. destruct (expired _ _ _) eqn:E; [|done]. exfalso.
      destruct (entry m client x) as [[|a]|] eqn:Ee; try done. cbn [expired] in E. apply Z.leb_le in E.
      pose proof (qd_entry _ _ _ Hq _ _ _ Ee) as Hin. pose proof (qd_sorted _ _ _ Hq) as Hs.
      apply StronglySorted_inv in Hs as [_ Hs]. rewrite Forall_forall in Hs.
      apply elem_of_cons in Hin as [<-|Hin]; [cbn in Hx; lia|]. apply Hs in Hin. cbn in Hin. lia.
Qed.

(** ** The tracker against its reference *)

Definition agrees (retention last : Z) (o o' : option TransactionState.t) : Prop :=
  match o' with
  | None => o = None
  | Some InProgress => o = Some InProgress
  | Some (Completed a) => o = Some (Completed a) \/ o = None /\ retention <= last - a
  end.

Record represents (retention last : Z) (st : TrackerState) (s : Reference.state) : Prop := {
  rp_queued : queued (transactions st) (completed_order st) last;
  rp_agrees client x : agrees retention last (entry (transactions st) client x) (s !! (client, x))
}.

Lemma queued_later m q last now : queued m q last -> last <= now -> queued m q now.
Proof. intros [Q1 Q2 Q3 Q4] Hl. split; try done. eapply Forall_impl; [done|]. simpl. lia. Qed.

Lemma represents_housekeeping retention last now st s :
  represents retention last st s -> last <= now -> represents retention now (housekeeping st now retention) s.
Proof.
  intros [Hq Ha] Hl. destruct (housekeeping_spec _ _ _ _ retention Hq Hl) as [Hq' He].
  split; [by eapply queued_later|]. intros client x. specialize (Ha client x). unfold housekeeping. rewrite He. clear He Hq'.
  destruct (s !! (client, x)) as [[|a]|]; unfold agrees in *; [by rewrite Ha| |by rewrite Ha].
  destruct Ha as [->|[-> Hr]]; cbn [expired]; [|right; split; [done|lia]].
  destruct (Z.leb_spec retention (now - a)); [by right|by left].
Qed.

(** After expiry an entry is there exactly when it is remembered. *)
Lemma housekeeping_remembers retention last now st s client x :
  represents retention last st s -> last <= now ->
  (is_Some (entry (transactions (housekeeping st now retention)) client x) <->
   Reference.remembered retention now (s !! (client, x)) = true).
Proof.
  intros [Hq Ha] Hl. destruct (housekeeping_spec _ _ _ _ retention Hq Hl) as [_ He]. specialize (Ha client x).
  unfold housekeeping. rewrite He. unfold agrees in Ha. destruct (s !! (client, x)) as [[|a]|]; cbn [Reference.remembered].
  - rewrite Ha. simpl. split; [done|by eexists].
  - rewrite Z.ltb_lt. destruct Ha as [->|[-> Hr]]; cbn [expired].
    + destruct (Z.leb_spec retention (now - a)); split; try (intros [? ?]; done); try lia; by eexists.
    + split; [by intros [? ?]|lia].
  - rewrite Ha. simpl. by split; [intros [? ?]|].
Qed.

Lemma agrees_insert (retention last : Z) m (s : Reference.state) (client : string) (x : Z) (t : TransactionState.t) :
  (forall c y, agrees retention last (entry m c y) (s !! (c, y))) -> agrees retention last (Some t) (Some t) ->
  forall c y, agrees retention last (entry (<[client := <[x := t]> (default ∅ (m !! client))]> m) c y)
    (<[(client, x) := t]> s !! (c, y)).
Proof.
  intros Ha Ht c y. rewrite entry_insert. destruct (decide (client = c /\ x = y)) as [[-> ->]|Hne].
  - by rewrite lookup_insert_eq.
  - rewrite lookup_insert_ne by naive_solver. apply Ha.
Qed.

Lemma queued_insert m q last client x t q' :
  queued m q last -> (forall a, t = Completed a -> mkCompleted client x a ∈ q ++ q') ->
  StronglySorted (fun k1 k2 => completed_at k1 <= completed_at k2) (q ++ q') -> Forall (fun k => completed_at k <= last) q' ->
  queued (<[client := <[x := t]> (default ∅ (m !! client))]> m) (q ++ q') last.
Proof.
  intros [Q1 Q2 Q3 Q4] Ht Hs Hf. split; [|done|by apply Forall_app|by apply tidy_insert].
  intros c y a. rewrite entry_insert. destruct (decide (client = c /\ x = y)) as [[-> ->]|Hne].
  - intros [= Ea]. by apply Ht.
  - intros He. apply elem_of_app. left. by apply Q1.
Qed.

Lemma sorted_snoc (q : list CompletedTransaction) k :
  StronglySorted (fun k1 k2 => completed_at k1 <= completed_at k2) q -> Forall (fun k' => completed_at k' <= completed_at k) q ->
  StronglySorted (fun k1 k2 => completed_at k1 <= completed_at k2) (q ++ [k]).
Proof.
  induction 1 as [|k' q Hs IH Hf]; intros Hk; cbn [app]; [by repeat constructor|].
  apply Forall_cons in Hk as [Hk Hq]. constructor; [by apply IH|]. apply Forall_app. split; [done|by apply Forall_singleton].
Qed.

Lemma arrives_agrees retention last now x client st s :
  represents retention last st s -> last <= now ->
  let '(b, st') := is_retransmission retention now x client st in
  let '(b', s') := Reference.is_retransmission retention now x client s in
  b = b' /\ represents retention now st' s'.
Proof.
  intros Hr Hl. pose proof (housekeeping_remembers _ _ _ _ _ client x Hr Hl) as Hm.
  pose proof (represents_housekeeping _ _ _ _ _ Hr Hl) as Hr'. unfold is_retransmission, Reference.is_retransmission.
  rewrite entry_default. destruct (entry _ client x) as [t|] eqn:Ee.
  - rewrite (proj1 Hm ltac:(by eexists)). done.
  - assert (Reference.remembered retention now (s !! (client, x)) = false) as ->.
    { destruct (Reference.remembered _ _ _); [|done]. by destruct (proj2 Hm eq_refl). }
    split; [done|]. destruct Hr' as [Hq Ha]. split; cbn [transactions completed_order].
    + rewrite <- (app_nil_r (completed_order _)). apply queued_insert; [done|done| |done]. rewrite app_nil_r. apply Hq.
    + by apply agrees_insert.
Qed.

Lemma completes_agrees retention last now x client st s :
  represents retention last st s -> last <= now -> s !! (client, x) = Some InProgress ->
  represents retention now (mark_processed now x client st) (Reference.mark_processed now x client s).
Proof.
  intros [Hq Ha] Hl Hs. pose proof (Ha client x) as He. rewrite Hs in He. cbn [agrees] in He.
  unfold mark_processed. unfold entry in He. destruct (transactions st !! client) as [inner|] eqn:Em; [|done].
  cbn [mbind option_bind] in He. rewrite He. pose proof (queued_later _ _ _ _ Hq Hl) as Hq'.
  assert (inner = default ∅ (transactions st !! client)) as -> by (by rewrite Em).
  split; cbn [transactions completed_order].
  - apply queued_insert; [done| | |by apply Forall_singleton].
    + intros a [= <-]. apply elem_of_app. right. by apply list_elem_of_singleton.
    + apply sorted_snoc; [apply Hq|apply Hq'].
  - apply agrees_insert; [|by left]. intros c y. specialize (Ha c y). unfold agrees in *.
    destruct (s !! (c, y)) as [[|a]|]; [done| |done]. destruct Ha as [?|[? ?]]; [by left|right; split; [done|lia]].
Qed.

(** Once a request has arrived, nothing is kept beyond its retention period. *)
Lemma arrival_leaves_recent retention last now x client st s c y a :
  represents retention last st s -> last <= now ->
  entry (transactions (is_retransmission retention now x client st).2) c y = Some (Completed a) -> now - a < retention.
Proof.
  intros [Hq Ha] Hl. destruct (housekeeping_spec _ _ _ _ retention Hq Hl) as [_ He]. unfold is_retransmission.
  assert (entry (transactions (housekeeping st now retention)) c y = Some (Completed a) -> now - a < retention) as Hk.
  { unfold housekeeping. rewrite He. destruct (expired _ _ _) eqn:E; [done|]. intros Hc. rewrite Hc in E. cbn in E. lia. }
  rewrite entry_default. destruct (entry _ client x); [done|]. cbn [snd transactions]. rewrite entry_insert.
  by destruct (decide _).
Qed.

Fixpoint end_time (last : Z) (l : list call) : Z :=
  match l with [] => last | c :: l' => end_time (call_time c) l' end.

Lemma replies_agree retention last l st s :
  represents retention last st s -> disciplined retention last l s ->
  (replies (perform retention) l st).1 = (replies (perform_reference retention) l s).1 /\
  represents retention (end_time last l) (replies (perform retention) l st).2 (replies (perform_reference retention) l s).2.
Proof.
  revert last st s. induction l as [|c l IH]; intros last st s Hr Hd; [done|].
  destruct Hd as (Hl & Hc & Hd). cbn [replies end_time]. destruct c as [now x client|now x client]; cbn [call_time] in *.
  - pose proof (arrives_agrees retention last now x client st s Hr Hl) as Hs. cbn [perform perform_reference] in *.
    destruct (is_retransmission retention now x client st) as [b st'].
    destruct (Reference.is_retransmission retention now x client s) as [b' s']. destruct Hs as [-> Hr'].
    destruct (IH now st' s' Hr' Hd) as [IH1 IH2].
    destruct (replies (perform retention) l st'), (replies (perform_reference retention) l s'). cbn in *. by rewrite IH1.
  - pose proof (completes_agrees retention last now x client st s Hr Hl Hc) as Hs. cbn [perform perform_reference] in *.
    destruct (IH now _ _ Hs Hd) as [IH1 IH2].
    destruct (replies (perform retention) l _), (replies (perform_reference retention) l _). cbn in *. by rewrite IH1.
Qed.

Lemma represents_new retention last : represents retention last new ∅.
Proof.
  split; [split|]; cbn [new transactions completed_order]; try done; try constructor.
Qed.

(** C25: the tracker of the demo server detects retransmissions exactly. For any
    sequence of calls in clock order in which only requests that were let through
    complete, the nested map with its expiry queue answers every call as the
    reference does, where a transaction is remembered from its arrival until the
    retention period after its completion. What it keeps is bounded by that: no
    client without transactions stays in the map, and once the next request has
    arrived no completion older than the retention period is left. *)
Theorem tracker_refines retention start l :
  disciplined retention start l ∅ ->
  let st := (replies (perform retention) l new).2 in
  (replies (perform retention) l new).1 = (replies (perform_reference retention) l ∅).1 /\
  (forall client inner, transactions st !! client = Some inner -> inner <> ∅) /\
  forall now x client c y a, end_time start l <= now ->
    entry (transactions (is_retransmission retention now x client st).2) c y = Some (Completed a) -> now - a < retention.
Proof.
  intros Hd st. destruct (replies_agree retention start l new ∅ (represents_new _ _) Hd) as [H1 H2]. split_and!; [done| |].
  - apply (qd_tidy _ _ _ (rp_queued _ _ _ _ H2)).
  - intros now x client c y a Hn. by eapply arrival_leaves_recent.
Qed.

Definition toy_calls : list call :=
  [Arrives 0 7 "a"; Arrives 1 7 "a"; Completes 2 7 "a"; Arrives 3 7 "b"; Arrives 5 7 "a"; Arrives 70 7 "a"].

Lemma tracker_refines_witness :
  (replies (perform 60) toy_calls new).1 = (replies (perform_reference 60) toy_calls ∅).1 /\
  (replies (perform 60) toy_calls new).1 = [Some false; Some true; None; Some false; Some true; Some false].
Proof.
  split; [|by vm_compute]. apply (tracker_refines 60 0 toy_calls). unfold toy_calls. cbn [disciplined call_time].
  split_and!; try lia; try done.
Defined.
