(* ===== verification/Xdr.v ===== *)
(** * [src/xdr.rs]: the XDR trait of the demo server

    The trait [XDR] as a class, its instances for the base types, and the three
    macros that generate instances: [xdr_enum_serde], [xdr_struct] and
    [xdr_bool_union]. The class [Lawful] states what an instance promises its
    clients: a well-formed value can be written and is read back, whatever
    follows it. *)
From S2P Require Import Prelude.
From stdpp Require Import list.
#[local] Open Scope Z_scope.

(** The kinds of [std::io::Error] that reading from a buffer produces. *)
Inductive XdrError : Type := UnexpectedEof | InvalidData.

(** [serialize] appends to a buffer in memory, which cannot fail; [None] is a
    failed assertion. [deserialize] overwrites [self], whose old value some
    instances keep, and returns the unread input. *)
Class XDR (A : Type) : Type := {
  serialize : A -> option (list byte);
  deserialize : A -> list byte -> result XdrError (A * list byte)
}.

(** Writing one thing after the other. *)
Definition then_ (a b : option (list byte)) : option (list byte) := x ← a; y ← b; Some (x ++ y).
Infix "+++" := then_ (at level 60, right associativity).

(** Machine integers of the source's types. *)
Definition u32 : Type := Z.
Definition u64 : Type := Z.
Definition i32 : Type := Z.
Definition i64 : Type := Z.
#[global] Typeclasses Opaque u32 u64 i32 i64.

Definition read_exact (n : nat) (s : list byte) : result XdrError (list byte * list byte) :=
  if (n <=? length s)%nat then Ok (take n s, drop n s) else Err UnexpectedEof.

Definition read_u32 (s : list byte) : result XdrError (Z * list byte) := '(b, s') ← read_exact 4 s; Ok (be_value b, s').
Definition read_u64 (s : list byte) : result XdrError (Z * list byte) := '(b, s') ← read_exact 8 s; Ok (be_value b, s').

(** Two's complement. *)
Definition to_unsigned (width z : Z) : Z := z mod 2 ^ width.
Definition to_signed (width z : Z) : Z := if z <? 2 ^ (width - 1) then z else z - 2 ^ width.

#[global] Instance xdr_u32 : XDR u32 := {| serialize v := Some (be_bytes 4 v); deserialize _ s := read_u32 s |}.
#[global] Instance xdr_u64 : XDR u64 := {| serialize v := Some (be_bytes 8 v); deserialize _ s := read_u64 s |}.
#[global] Instance xdr_i32 : XDR i32 := {|
  serialize v := Some (be_bytes 4 (to_unsigned 32 v));
  deserialize _ s := '(v, s') ← read_u32 s; Ok (to_signed 32 v, s')
|}.
#[global] Instance xdr_i64 : XDR i64 := {|
  serialize v := Some (be_bytes 8 (to_unsigned 64 v));
  deserialize _ s := '(v, s') ← read_u64 s; Ok (to_signed 64 v, s')
|}.
#[global] Instance xdr_bool : XDR bool := {|
  serialize (b : bool) := Some (be_bytes 4 (if b then 1 else 0));
  deserialize _ s := '(v, s') ← read_u32 s; Ok (0 <? v, s')
|}.

(** [[u8; N]]: the length is part of the type, so the old value carries it. *)
Record array (n : nat) : Type := mkArray { array_bytes : list byte }.
Arguments mkArray {n} _.
Arguments array_bytes {n} _.
#[global] Instance xdr_array n : XDR (array n) := {|
  serialize a := Some (array_bytes a);
  deserialize _ s := '(b, s') ← read_exact n s; Ok (mkArray b, s')
|}.

Definition padding (length : Z) : Z := (4 - length mod 4) mod 4.

#[global] Instance xdr_vec_u8 : XDR (list byte) := {|
  serialize v :=
    if zlen v <? u32_max then serialize (zlen v : u32) +++ Some v +++ Some (zeros (padding (zlen v))) else None;
  deserialize _ s :=
    '(length, s1) ← deserialize (0 : u32) s;
    '(v, s2) ← read_exact (Z.to_nat length) s1;
    '(_, s3) ← read_exact (Z.to_nat (padding length)) s2;
    Ok (v, s3)
|}.

Fixpoint serialize_all {A} `{XDR A} (l : list A) : option (list byte) :=
  match l with [] => Some [] | v :: l' => serialize v +++ serialize_all l' end.
Fixpoint deserialize_all {A} `{XDR A} (l : list A) (s : list byte) : result XdrError (list A * list byte) :=
  match l with
  | [] => Ok ([], s)
  | v :: l' => '(w, s1) ← deserialize v s; '(ws, s2) ← deserialize_all l' s1; Ok (w :: ws, s2)
  end.

#[global] Instance xdr_vec_u32 : XDR (list u32) := {|
  serialize v := if zlen v <? u32_max then serialize (zlen v : u32) +++ serialize_all v else None;
  deserialize _ s := '(length, s1) ← deserialize (0 : u32) s; deserialize_all (replicate (Z.to_nat length) (0 : u32)) s1
|}.

(** [nfsstring] *)
Record nfsstring : Type := mkNfsString { string_bytes : list byte }.
#[global] Instance xdr_nfsstring : XDR nfsstring := {|
  serialize v := serialize (string_bytes v);
  deserialize self s := '(v, s') ← deserialize (string_bytes self) s; Ok (mkNfsString v, s')
|}.

(** [xdr_enum_serde]: [code] is the cast to [u32], [from] is [FromPrimitive]. *)
Definition xdr_enum {A} (code : A -> Z) (from : Z -> option A) : XDR A := {|
  serialize v := Some (be_bytes 4 (code v));
  deserialize _ s :=
    '(c, s') ← read_u32 s;
    match from c with Some v => Ok (v, s') | None => Err InvalidData end
|}.

(** [xdr_struct]: the fields in order. Generated instances go through the tuple
    of the fields. *)
#[global] Instance xdr_unit : XDR unit := {| serialize _ := Some []; deserialize _ s := Ok (tt, s) |}.
#[global] Instance xdr_pair {A B} `{XDR A} `{XDR B} : XDR (A * B) := {|
  serialize v := serialize v.1 +++ serialize v.2;
  deserialize self s := '(a, s1) ← deserialize self.1 s; '(b, s2) ← deserialize self.2 s1; Ok ((a, b), s2)
|}.
Definition xdr_struct {A F} `{XDR F} (fields : A -> F) (make : F -> A) : XDR A := {|
  serialize v := serialize (fields v);
  deserialize self s := '(f, s') ← deserialize (fields self) s; Ok (make f, s')
|}.

(** [xdr_bool_union]: [default] is the value of [Default::default]. *)
Definition xdr_bool_union {A V} `{XDR V} (case : A -> option V) (void : A) (make : V -> A) (default : V) : XDR A := {|
  serialize v :=
    match case v with
    | None => serialize false
    | Some w => serialize true +++ serialize w
    end;
  deserialize _ s :=
    '(c, s1) ← deserialize false s;
    if (c : bool) then '(w, s2) ← deserialize default s1; Ok (make w, s2) else Ok (void, s1)
|}.

(** A discriminated union written out by hand: the discriminant, then the arm. *)
Definition union_arm {A V} `{XDR V} (make : V -> A) (default : V) (s : list byte) : result XdrError (A * list byte) :=
  '(w, s') ← deserialize default s; Ok (make w, s').

(** ** Laws *)

Class Lawful (A : Type) `{XDR A} : Type := {
  wf : A -> Prop;
  roundtrip v : wf v -> exists bytes, serialize v = Some bytes /\
    forall self rest, deserialize self (bytes ++ rest) = Ok (v, rest)
}.

Lemma then_some a b : Some a +++ Some b = Some (a ++ b).
Proof. done. Qed.

Lemma take_exact_app n b rest : length b = n -> read_exact n (b ++ rest) = Ok (b, rest).
Proof.
  intros <-. unfold read_exact. rewrite length_app, (proj2 (Nat.leb_le _ _)) by lia.
  by rewrite take_app_length, drop_app_length.
Qed.

Lemma read_u32_app v rest : u32_range v -> read_u32 (be_bytes 4 v ++ rest) = Ok (v, rest).
Proof.
  intros Hv. unfold read_u32. rewrite take_exact_app by apply length_be_bytes. cbn [mbind result_bind].
  by rewrite be_value_be4.
Qed.

Lemma read_u64_app v rest : u64_range v -> read_u64 (be_bytes 8 v ++ rest) = Ok (v, rest).
Proof.
  intros Hv. unfold read_u64. rewrite take_exact_app by apply length_be_bytes. cbn [mbind result_bind].
  by rewrite be_value_be8.
Qed.

#[global] Instance lawful_u32 : Lawful u32.
Proof. refine {| wf := u32_range |}. intros v Hv. eexists. split; [done|]. intros self rest. by apply read_u32_app. Defined.

#[global] Instance lawful_u64 : Lawful u64.
Proof. refine {| wf := u64_range |}. intros v Hv. eexists. split; [done|]. intros self rest. by apply read_u64_app. Defined.

Lemma signed_unsigned w z : 0 < w -> - 2 ^ (w - 1) <= z < 2 ^ (w - 1) -> to_signed w (to_unsigned w z) = z.
Proof.
  intros Hw Hz. unfold to_signed, to_unsigned. assert (2 ^ w = 2 * 2 ^ (w - 1)) as E.
  { rewrite <- Z.pow_succ_r by lia. f_equal. lia. }
  destruct (Z.ltb_spec z 0).
  - rewrite <- (Z.mod_unique z (2 ^ w) (-1) (z + 2 ^ w)) by lia. rewrite (proj2 (Z.ltb_ge _ _)); lia.
  - rewrite Z.mod_small by lia. rewrite (proj2 (Z.ltb_lt _ _)); lia.
Qed.

#[global] Instance lawful_i32 : Lawful i32.
Proof.
  refine {| wf := fun z => - 2 ^ 31 <= z < 2 ^ 31 |}. intros v Hv. eexists. split; [done|]. intros self rest.
  cbn [deserialize xdr_i32]. rewrite read_u32_app.
  - cbn [mbind result_bind]. by rewrite signed_unsigned.
  - unfold u32_range, u32_max, to_unsigned. pose proof (Z.mod_pos_bound v (2 ^ 32) ltac:(lia)). lia.
Defined.

#[global] Instance lawful_i64 : Lawful i64.
Proof.
  refine {| wf := fun z => - 2 ^ 63 <= z < 2 ^ 63 |}. intros v Hv. eexists. split; [done|]. intros self rest.
  cbn [deserialize xdr_i64]. rewrite read_u64_app.
  - cbn [mbind result_bind]. by rewrite signed_unsigned.
  - unfold u64_range, u64_max, to_unsigned. pose proof (Z.mod_pos_bound v (2 ^ 64) ltac:(lia)). lia.
Defined.

#[global] Instance lawful_bool : Lawful bool.
Proof.
  refine {| wf := fun _ => True |}. intros v _. eexists. split; [done|]. intros self rest.
  cbn [deserialize xdr_bool]. rewrite read_u32_app by (destruct v; unfold u32_range, u32_max; lia). by destruct v.
Defined.

#[global] Instance lawful_array n : Lawful (array n).
Proof.
  refine {| wf := fun a => length (array_bytes a) = n |}. intros [v] Hv. eexists. split; [done|]. intros self rest.
  cbn [deserialize xdr_array array_bytes] in *. by rewrite take_exact_app.
Defined.

#[global] Instance lawful_vec_u8 : Lawful (list byte).
Proof.
  refine {| wf := fun v => zlen v < u32_max |}. intros v Hv. pose proof (zlen_nonneg v) as Hn.
  assert (u32_range (zlen v)) as Hr by (unfold u32_range; lia).
  assert (0 <= padding (zlen v)) as Hp by (unfold padding; apply Z.mod_pos_bound; lia).
  cbn [serialize xdr_vec_u8]. rewrite (proj2 (Z.ltb_lt _ _) Hv). cbn [serialize xdr_u32]. rewrite !then_some.
  eexists. split; [done|]. intros self rest. rewrite <- !app_assoc. cbn [deserialize xdr_vec_u8 xdr_u32].
  rewrite read_u32_app by done. cbn [mbind result_bind].
  rewrite take_exact_app by (unfold zlen; lia). cbn [mbind result_bind].
  rewrite take_exact_app; [done|]. unfold zeros. by rewrite length_replicate.
Defined.

Lemma all_roundtrip {A} `{Lawful A} (l : list A) :
  Forall wf l -> exists bytes, serialize_all l = Some bytes /\
    forall l0 rest, length l0 = length l -> deserialize_all l0 (bytes ++ rest) = Ok (l, rest).
Proof.
  induction 1 as [|v l Hv Hl (bs & Hs & Hd)].
  - exists []. split; [done|]. by intros [|] rest.
  - destruct (roundtrip v Hv) as (b & Hb & Hr). exists (b ++ bs). cbn [serialize_all]. rewrite Hb, Hs. split; [done|].
    intros [|v0 l0] rest Hlen; [done|]. cbn [deserialize_all]. rewrite <- app_assoc, Hr. cbn [mbind result_bind].
    rewrite Hd by (simpl in Hlen; lia). done.
Qed.

#[global] Instance lawful_vec_u32 : Lawful (list u32).
Proof.
  refine {| wf := fun (v : list u32) => zlen v < u32_max /\ Forall (wf (A := u32)) v |}. intros v [Hv Hf]. pose proof (zlen_nonneg v) as Hn.
  destruct (@all_roundtrip u32 xdr_u32 lawful_u32 v Hf) as (bs & Hs & Hd). cbn [serialize xdr_vec_u32]. rewrite (proj2 (Z.ltb_lt _ _) Hv), Hs.
  cbn [serialize xdr_u32]. rewrite then_some. eexists. split; [done|]. intros self rest. rewrite <- app_assoc.
  cbn [deserialize xdr_vec_u32 xdr_u32]. rewrite read_u32_app by (unfold u32_range; lia). cbn [mbind result_bind].
  apply Hd. rewrite length_replicate. unfold zlen. lia.
Defined.

(** Reading back through a bijection with another type. *)
Lemma struct_roundtrip {A F} `{Lawful F} (fields : A -> F) (make : F -> A) v :
  make (fields v) = v -> wf (fields v) -> exists bytes, @serialize A (xdr_struct fields make) v = Some bytes /\
    forall self rest, @deserialize A (xdr_struct fields make) self (bytes ++ rest) = Ok (v, rest).
Proof.
  intros Hm Hv. destruct (roundtrip _ Hv) as (bs & Hs & Hd). exists bs. split; [done|]. intros self rest.
  cbn [deserialize xdr_struct]. rewrite Hd. cbn [mbind result_bind]. by rewrite Hm.
Qed.

Definition lawful_struct {A F} `{Lawful F} (fields : A -> F) (make : F -> A) (mf : forall v, make (fields v) = v) :
    @Lawful A (xdr_struct fields make) :=
  @Build_Lawful A (xdr_struct fields make) (fun v => wf (fields v)) (fun v Hv => struct_roundtrip fields make v (mf v) Hv).

#[global] Instance lawful_nfsstring : Lawful nfsstring.
Proof.
  refine {| wf := fun v => wf (string_bytes v) |}. intros [v] Hv. destruct (roundtrip v Hv) as (bs & Hs & Hd).
  exists bs. split; [done|]. intros [self] rest. cbn [deserialize xdr_nfsstring string_bytes]. by rewrite Hd.
Defined.

#[global] Instance lawful_unit : Lawful unit.
Proof. refine {| wf := fun _ => True |}. intros [] _. by exists []. Defined.

#[global] Instance lawful_pair {A B} `{Lawful A} `{Lawful B} : Lawful (A * B).
Proof.
  refine {| wf := fun v => wf v.1 /\ wf v.2 |}. intros [a b] [Ha Hb]. cbn [fst snd] in *.
  destruct (roundtrip a Ha) as (ba & Hsa & Hda). destruct (roundtrip b Hb) as (bb & Hsb & Hdb).
  exists (ba ++ bb). cbn [serialize xdr_pair fst snd]. rewrite Hsa, Hsb. split; [done|]. intros self rest.
  cbn [deserialize xdr_pair]. rewrite <- app_assoc, Hda. cbn [mbind result_bind]. by rewrite Hdb.
Defined.

Lemma enum_roundtrip {A} (code : A -> Z) (from : Z -> option A) v :
  u32_range (code v) -> from (code v) = Some v -> exists bytes, @serialize A (xdr_enum code from) v = Some bytes /\
    forall self rest, @deserialize A (xdr_enum code from) self (bytes ++ rest) = Ok (v, rest).
Proof.
  intros Hr Hf. eexists. split; [done|]. intros self rest. cbn [deserialize xdr_enum]. rewrite read_u32_app by done.
  cbn [mbind result_bind]. by rewrite Hf.
Qed.

Definition lawful_enum {A} (code : A -> Z) (from : Z -> option A)
    (ok : forall v, u32_range (code v) /\ from (code v) = Some v) : @Lawful A (xdr_enum code from) :=
  @Build_Lawful A (xdr_enum code from) (fun _ => True)
    (fun v _ => enum_roundtrip code from v (proj1 (ok v)) (proj2 (ok v))).

Lemma bool_union_roundtrip {A V} `{Lawful V} (case : A -> option V) (void : A) (make : V -> A) (default : V) v :
  match case v with None => v = void | Some w => v = make w /\ wf w end ->
  exists bytes, @serialize A (xdr_bool_union case void make default) v = Some bytes /\
    forall self rest, @deserialize A (xdr_bool_union case void make default) self (bytes ++ rest) = Ok (v, rest).
Proof.
  cbn [serialize deserialize xdr_bool_union]. destruct (case v) as [w|].
  - intros [-> Hw]. destruct (roundtrip w Hw) as (bs & Hs & Hd). destruct (@roundtrip bool xdr_bool lawful_bool true I) as (bt & Ht & Hdt).
    exists (bt ++ bs). rewrite Ht, Hs. split; [done|]. intros self rest. rewrite <- app_assoc, Hdt.
    cbn [mbind result_bind]. by rewrite Hd.
  - intros ->. destruct (@roundtrip bool xdr_bool lawful_bool false I) as (bt & Ht & Hdt). exists bt. split; [done|]. intros self rest. by rewrite Hdt.
Qed.
