(* ===== verification/LegacyMessage.v ===== *)
(** * [src/rpc/message_legacy.rs]: RPC messages of the demo server

    The message types of RFC 1057 with their XDR instances, and the constructors
    of the replies the server sends. Reading an unknown discriminant leaves the
    old value in place, which is why [deserialize] takes one. *)
From S2P Require Import Prelude Xdr.
From stdpp Require Import list.
#[local] Open Scope Z_scope.

Inductive msg_type : Type := CALL_ | REPLY_.
Definition msg_type_code (t : msg_type) : Z := match t with CALL_ => 0 | REPLY_ => 1 end.
Definition msg_type_from (z : Z) : option msg_type :=
  if z =? 0 then Some CALL_ else if z =? 1 then Some REPLY_ else None.
#[global] Instance xdr_msg_type : XDR msg_type := xdr_enum msg_type_code msg_type_from.

Inductive reply_stat : Type := MSG_ACCEPTED_ | MSG_DENIED_.
Definition reply_stat_code (t : reply_stat) : Z := match t with MSG_ACCEPTED_ => 0 | MSG_DENIED_ => 1 end.
Definition reply_stat_from (z : Z) : option reply_stat :=
  if z =? 0 then Some MSG_ACCEPTED_ else if z =? 1 then Some MSG_DENIED_ else None.
#[global] Instance xdr_reply_stat : XDR reply_stat := xdr_enum reply_stat_code reply_stat_from.

Inductive accept_stat : Type := SUCCESS_ | PROG_UNAVAIL_ | PROG_MISMATCH_ | PROC_UNAVAIL_ | GARBAGE_ARGS_.
Definition accept_stat_code (t : accept_stat) : Z :=
  match t with SUCCESS_ => 0 | PROG_UNAVAIL_ => 1 | PROG_MISMATCH_ => 2 | PROC_UNAVAIL_ => 3 | GARBAGE_ARGS_ => 4 end.
Definition accept_stat_from (z : Z) : option accept_stat :=
  if z =? 0 then Some SUCCESS_ else if z =? 1 then Some PROG_UNAVAIL_ else if z =? 2 then Some PROG_MISMATCH_
  else if z =? 3 then Some PROC_UNAVAIL_ else if z =? 4 then Some GARBAGE_ARGS_ else None.
#[global] Instance xdr_accept_stat : XDR accept_stat := xdr_enum accept_stat_code accept_stat_from.

Inductive reject_stat : Type := RPC_MISMATCH_ | AUTH_ERROR_.
Definition reject_stat_code (t : reject_stat) : Z := match t with RPC_MISMATCH_ => 0 | AUTH_ERROR_ => 1 end.
Definition reject_stat_from (z : Z) : option reject_stat :=
  if z =? 0 then Some RPC_MISMATCH_ else if z =? 1 then Some AUTH_ERROR_ else None.
#[global] Instance xdr_reject_stat : XDR reject_stat := xdr_enum reject_stat_code reject_stat_from.

Inductive auth_stat : Type := AUTH_BADCRED | AUTH_REJECTEDCRED | AUTH_BADVERF | AUTH_REJECTEDVERF | AUTH_TOOWEAK.
Definition auth_stat_code (t : auth_stat) : Z :=
  match t with AUTH_BADCRED => 1 | AUTH_REJECTEDCRED => 2 | AUTH_BADVERF => 3 | AUTH_REJECTEDVERF => 4 | AUTH_TOOWEAK => 5 end.
Definition auth_stat_from (z : Z) : option auth_stat :=
  if z =? 1 then Some AUTH_BADCRED else if z =? 2 then Some AUTH_REJECTEDCRED else if z =? 3 then Some AUTH_BADVERF
  else if z =? 4 then Some AUTH_REJECTEDVERF else if z =? 5 then Some AUTH_TOOWEAK else None.
Definition auth_stat_default : auth_stat := AUTH_BADCRED.
#[global] Instance xdr_auth_stat : XDR auth_stat := xdr_enum auth_stat_code auth_stat_from.

Inductive auth_flavor : Type := AUTH_NULL | AUTH_UNIX | AUTH_SHORT | AUTH_DES.
Definition auth_flavor_code (t : auth_flavor) : Z :=
  match t with AUTH_NULL => 0 | AUTH_UNIX => 1 | AUTH_SHORT => 2 | AUTH_DES => 3 end.
Definition auth_flavor_from (z : Z) : option auth_flavor :=
  if z =? 0 then Some AUTH_NULL else if z =? 1 then Some AUTH_UNIX else if z =? 2 then Some AUTH_SHORT
  else if z =? 3 then Some AUTH_DES else None.
#[global] Instance xdr_auth_flavor : XDR auth_flavor := xdr_enum auth_flavor_code auth_flavor_from.

Record auth_unix : Type := mkAuthUnix { stamp : u32; machinename : list byte; uid : u32; gid : u32; gids : list u32 }.
Definition auth_unix_default : auth_unix := mkAuthUnix 0 [] 0 0 [].
#[global] Instance xdr_auth_unix : XDR auth_unix :=
  xdr_struct (fun v => (stamp v, (machinename v, (uid v, (gid v, gids v)))))
    (fun '(a, (b, (c, (d, e)))) => mkAuthUnix a b c d e).

Record opaque_auth : Type := mkOpaqueAuth { flavor : auth_flavor; body : list byte }.
Definition opaque_auth_default : opaque_auth := mkOpaqueAuth AUTH_NULL [].
#[global] Instance xdr_opaque_auth : XDR opaque_auth :=
  xdr_struct (fun v => (flavor v, body v)) (fun '(a, b) => mkOpaqueAuth a b).

Record call_body : Type := mkCallBody {
  rpcvers : u32;
  prog : u32;
  vers : u32;
  proc : u32;
  cred : opaque_auth;
  verf : opaque_auth
}.
Definition call_body_default : call_body := mkCallBody 0 0 0 0 opaque_auth_default opaque_auth_default.
#[global] Instance xdr_call_body : XDR call_body :=
  xdr_struct (fun v => (rpcvers v, (prog v, (vers v, (proc v, (cred v, verf v))))))
    (fun '(a, (b, (c, (d, (e, f))))) => mkCallBody a b c d e f).

Record mismatch_info : Type := mkMismatch { low : u32; high : u32 }.
Definition mismatch_info_default : mismatch_info := mkMismatch 0 0.
#[global] Instance xdr_mismatch_info : XDR mismatch_info :=
  xdr_struct (fun v => (low v, high v)) (fun '(a, b) => mkMismatch a b).

Inductive accept_body : Type := SUCCESS | PROG_UNAVAIL | PROG_MISMATCH (v : mismatch_info) | PROC_UNAVAIL | GARBAGE_ARGS.
#[global] Instance xdr_accept_body : XDR accept_body := {|
  serialize b :=
    match b with
    | SUCCESS => serialize (0 : u32)
    | PROG_UNAVAIL => serialize (1 : u32)
    | PROG_MISMATCH v => serialize (2 : u32) +++ serialize v
    | PROC_UNAVAIL => serialize (3 : u32)
    | GARBAGE_ARGS => serialize (4 : u32)
    end;
  deserialize _ s :=
    '(c, s1) ← deserialize (0 : u32) s;
    if c =? 0 then Ok (SUCCESS, s1)
    else if c =? 1 then Ok (PROG_UNAVAIL, s1)
    else if c =? 2 then union_arm PROG_MISMATCH mismatch_info_default s1
    else if c =? 3 then Ok (PROC_UNAVAIL, s1)
    else Ok (GARBAGE_ARGS, s1)
|}.

Record accepted_reply : Type := mkAccepted { reply_verf : opaque_auth; reply_data : accept_body }.
Definition accepted_reply_default : accepted_reply := mkAccepted opaque_auth_default SUCCESS.
#[global] Instance xdr_accepted_reply : XDR accepted_reply :=
  xdr_struct (fun v => (reply_verf v, reply_data v)) (fun '(a, b) => mkAccepted a b).

Inductive rejected_reply : Type := RPC_MISMATCH (v : mismatch_info) | AUTH_ERROR (v : auth_stat).
Definition rejected_reply_default : rejected_reply := RPC_MISMATCH mismatch_info_default.
#[global] Instance xdr_rejected_reply : XDR rejected_reply := {|
  serialize r :=
    match r with
    | RPC_MISMATCH v => serialize (0 : u32) +++ serialize v
    | AUTH_ERROR v => serialize (1 : u32) +++ serialize v
    end;
  deserialize self s :=
    '(c, s1) ← deserialize (0 : u32) s;
    if c =? 0 then union_arm RPC_MISMATCH mismatch_info_default s1
    else if c =? 1 then union_arm AUTH_ERROR auth_stat_default s1
    else Ok (self, s1)
|}.

Inductive reply_body : Type := MSG_ACCEPTED (v : accepted_reply) | MSG_DENIED (v : rejected_reply).
Definition reply_body_default : reply_body := MSG_ACCEPTED accepted_reply_default.
#[global] Instance xdr_reply_body : XDR reply_body := {|
  serialize r :=
    match r with
    | MSG_ACCEPTED v => serialize (0 : u32) +++ serialize v
    | MSG_DENIED v => serialize (1 : u32) +++ serialize v
    end;
  deserialize self s :=
    '(c, s1) ← deserialize (0 : u32) s;
    if c =? 0 then union_arm MSG_ACCEPTED accepted_reply_default s1
    else if c =? 1 then union_arm MSG_DENIED rejected_reply_default s1
    else Ok (self, s1)
|}.

Inductive rpc_body : Type := CALL (v : call_body) | REPLY (v : reply_body).
Definition rpc_body_default : rpc_body := CALL call_body_default.
#[global] Instance xdr_rpc_body : XDR rpc_body := {|
  serialize r :=
    match r with
    | CALL v => serialize (0 : u32) +++ serialize v
    | REPLY v => serialize (1 : u32) +++ serialize v
    end;
  deserialize self s :=
    '(c, s1) ← deserialize (0 : u32) s;
    if c =? 0 then union_arm CALL call_body_default s1
    else if c =? 1 then union_arm REPLY reply_body_default s1
    else Ok (self, s1)
|}.

Record rpc_msg : Type := mkMsg { xid : u32; msg_body : rpc_body }.
Definition rpc_msg_default : rpc_msg := mkMsg 0 rpc_body_default.
#[global] Instance xdr_rpc_msg : XDR rpc_msg :=
  xdr_struct (fun v => (xid v, msg_body v)) (fun '(a, b) => mkMsg a b).

(** ** Replies *)
Definition accepted (x : u32) (b : accept_body) : rpc_msg :=
  mkMsg x (REPLY (MSG_ACCEPTED (mkAccepted opaque_auth_default b))).
Definition proc_unavail_reply_message (x : u32) : rpc_msg := accepted x PROC_UNAVAIL.
Definition prog_unavail_reply_message (x : u32) : rpc_msg := accepted x PROG_UNAVAIL.
Definition prog_mismatch_reply_message (x : u32) (accepted_ver : u32) : rpc_msg :=
  accepted x (PROG_MISMATCH (mkMismatch accepted_ver accepted_ver)).
Definition garbage_args_reply_message (x : u32) : rpc_msg := accepted x GARBAGE_ARGS.
Definition make_success_reply (x : u32) : rpc_msg := accepted x SUCCESS.
Definition rpc_vers_mismatch (x : u32) : rpc_msg := mkMsg x (REPLY (MSG_DENIED (RPC_MISMATCH mismatch_info_default))).

(** ** Laws *)

Ltac enum_ok := intros []; (split; [unfold u32_range, u32_max; simpl; lia|done]).
#[global] Instance lawful_auth_flavor : Lawful auth_flavor.
Proof. apply lawful_enum. enum_ok. Defined.
#[global] Instance lawful_auth_stat : Lawful auth_stat.
Proof. apply lawful_enum. enum_ok. Defined.
#[global] Instance lawful_msg_type : Lawful msg_type.
Proof. apply lawful_enum. enum_ok. Defined.
#[global] Instance lawful_reply_stat : Lawful reply_stat.
Proof. apply lawful_enum. enum_ok. Defined.
#[global] Instance lawful_accept_stat : Lawful accept_stat.
Proof. apply lawful_enum. enum_ok. Defined.
#[global] Instance lawful_reject_stat : Lawful reject_stat.
Proof. apply lawful_enum. enum_ok. Defined.

#[global] Instance lawful_auth_unix : Lawful auth_unix.
Proof. apply lawful_struct. by intros []. Defined.
#[global] Instance lawful_opaque_auth : Lawful opaque_auth.
Proof. apply lawful_struct. by intros []. Defined.
#[global] Instance lawful_call_body : Lawful call_body.
Proof. apply lawful_struct. by intros []. Defined.
#[global] Instance lawful_mismatch_info : Lawful mismatch_info.
Proof. apply lawful_struct. by intros []. Defined.

Lemma discriminant c bytes rest :
  u32_range c -> deserialize (0 : u32) ((be_bytes 4 c ++ bytes) ++ rest) = Ok (c, bytes ++ rest).
Proof. intros Hc. rewrite <- app_assoc. by apply read_u32_app. Qed.

Ltac small_code := unfold u32_range, u32_max; lia.
(** An arm without and with contents. *)
Ltac plain_arm := eexists; split; [done|]; intros self rest; cbn [deserialize]; rewrite <- ?app_assoc; 
  cbn [deserialize xdr_u32]; rewrite read_u32_app by small_code; done.
Ltac value_arm c v Hv :=
  let bs := fresh "bs" in let Hs := fresh "Hs" in let Hd := fresh "Hd" in
  destruct (roundtrip v Hv) as (bs & Hs & Hd); exists (be_bytes 4 c ++ bs); cbn [serialize]; rewrite Hs;
  (split; [done|]); intros self rest; cbn [deserialize]; rewrite discriminant by small_code;
  cbn [mbind result_bind]; simpl (_ =? _); cbv iota; unfold union_arm; by rewrite Hd.

#[global] Instance lawful_accept_body : Lawful accept_body.
Proof.
  refine {| wf := fun b => match b with PROG_MISMATCH v => wf v | _ => True end |}. unfold xdr_accept_body.
  intros [| |v| |] Hb; [plain_arm|plain_arm|value_arm 2 v Hb|plain_arm|plain_arm].
Defined.

#[global] Instance lawful_accepted_reply : Lawful accepted_reply.
Proof. apply lawful_struct. by intros []. Defined.

#[global] Instance lawful_rejected_reply : Lawful rejected_reply.
Proof.
  refine {| wf := fun b => match b with RPC_MISMATCH v => wf v | AUTH_ERROR v => wf v end |}. unfold xdr_rejected_reply.
  intros [v|v] Hb; [value_arm 0 v Hb|value_arm 1 v Hb].
Defined.

#[global] Instance lawful_reply_body : Lawful reply_body.
Proof.
  refine {| wf := fun b => match b with MSG_ACCEPTED v => wf v | MSG_DENIED v => wf v end |}. unfold xdr_reply_body.
  intros [v|v] Hb; [value_arm 0 v Hb|value_arm 1 v Hb].
Defined.

#[global] Instance lawful_rpc_body : Lawful rpc_body.
Proof.
  refine {| wf := fun b => match b with CALL v => wf v | REPLY v => wf v end |}. unfold xdr_rpc_body.
  intros [v|v] Hb; [value_arm 0 v Hb|value_arm 1 v Hb].
Defined.

#[global] Instance lawful_rpc_msg : Lawful rpc_msg.
Proof. apply lawful_struct. by intros []. Defined.

(** A reply to a call of another RPC version names version 0 as the lowest and
    highest supported one, although the server speaks version 2. *)
Example mismatch_reports_zero x :
  serialize (rpc_vers_mismatch x) = Some (be_bytes 4 x ++ be_bytes 4 1 ++ be_bytes 4 1 ++ be_bytes 4 0 ++ be_bytes 4 0 ++ be_bytes 4 0).
Proof. reflexivity. Qed.

(** An unknown message type is taken for the message the reader started from. *)
Example unknown_type_is_kept x self rest :
  u32_range x -> deserialize self (be_bytes 4 x ++ be_bytes 4 2 ++ rest) = Ok (mkMsg x (msg_body self), rest).
Proof.
  intros Hx. cbn [deserialize xdr_rpc_msg xdr_struct xdr_pair fst snd xdr_u32]. rewrite read_u32_app by done.
  cbn [mbind result_bind deserialize xdr_rpc_body xdr_u32]. by rewrite read_u32_app by small_code.
Qed.
