(* ===== verification/LegacyNfs.v ===== *)
(** * [src/nfs.rs]: NFSv3 types of the demo server

    The types of RFC 1813 with their XDR instances. Every instance is [Lawful]:
    a value within its bounds is written and read back, whatever follows it. *)
From S2P Require Import Prelude Xdr LegacyMessage.
From stdpp Require Import list.
#[local] Open Scope Z_scope.

Definition PROGRAM : Z := 100003.
Definition VERSION : Z := 3.
Definition NFS3_FHSIZE : Z := 64.
Definition NFS3_COOKIEVERFSIZE : nat := 8.
Definition NFS3_CREATEVERFSIZE : nat := 8.
Definition NFS3_WRITEVERFSIZE : nat := 8.

Abbreviation filename3 := nfsstring.
Abbreviation nfspath3 := nfsstring.
Abbreviation fileid3 := u64.
Abbreviation cookie3 := u64.
Abbreviation cookieverf3 := (array 8).
Abbreviation createverf3 := (array 8).
Abbreviation writeverf3 := (array 8).
Abbreviation uid3 := u32.
Abbreviation gid3 := u32.
Abbreviation size3 := u64.
Abbreviation offset3 := u64.
Abbreviation mode3 := u32.
Abbreviation count3 := u32.

Definition nfsstring_len (s : nfsstring) : Z := zlen (string_bytes s).
Definition nfsstring_default : nfsstring := mkNfsString [].
Definition cookieverf3_default : cookieverf3 := mkArray (zeros 8).

Inductive nfsstat3 : Type :=
| NFS3_OK | NFS3ERR_PERM | NFS3ERR_NOENT | NFS3ERR_IO | NFS3ERR_NXIO | NFS3ERR_ACCES | NFS3ERR_EXIST | NFS3ERR_XDEV
| NFS3ERR_NODEV | NFS3ERR_NOTDIR | NFS3ERR_ISDIR | NFS3ERR_INVAL | NFS3ERR_FBIG | NFS3ERR_NOSPC | NFS3ERR_ROFS
| NFS3ERR_MLINK | NFS3ERR_NAMETOOLONG | NFS3ERR_NOTEMPTY | NFS3ERR_DQUOT | NFS3ERR_STALE | NFS3ERR_REMOTE
| NFS3ERR_BADHANDLE | NFS3ERR_NOT_SYNC | NFS3ERR_BAD_COOKIE | NFS3ERR_NOTSUPP | NFS3ERR_TOOSMALL
| NFS3ERR_SERVERFAULT | NFS3ERR_BADTYPE | NFS3ERR_JUKEBOX.
#[global] Instance nfsstat3_eq_dec : EqDecision nfsstat3.
Proof. solve_decision. Defined.

Definition nfsstat3_code (s : nfsstat3) : Z :=
  match s with
  | NFS3_OK => 0
  | NFS3ERR_PERM => 1
  | NFS3ERR_NOENT => 2
  | NFS3ERR_IO => 5
  | NFS3ERR_NXIO => 6
  | NFS3ERR_ACCES => 13
  | NFS3ERR_EXIST => 17
  | NFS3ERR_XDEV => 18
  | NFS3ERR_NODEV => 19
  | NFS3ERR_NOTDIR => 20
  | NFS3ERR_ISDIR => 21
  | NFS3ERR_INVAL => 22
  | NFS3ERR_FBIG => 27
  | NFS3ERR_NOSPC => 28
  | NFS3ERR_ROFS => 30
  | NFS3ERR_MLINK => 31
  | NFS3ERR_NAMETOOLONG => 63
  | NFS3ERR_NOTEMPTY => 66
  | NFS3ERR_DQUOT => 69
  | NFS3ERR_STALE => 70
  | NFS3ERR_REMOTE => 71
  | NFS3ERR_BADHANDLE => 10001
  | NFS3ERR_NOT_SYNC => 10002
  | NFS3ERR_BAD_COOKIE => 10003
  | NFS3ERR_NOTSUPP => 10004
  | NFS3ERR_TOOSMALL => 10005
  | NFS3ERR_SERVERFAULT => 10006
  | NFS3ERR_BADTYPE => 10007
  | NFS3ERR_JUKEBOX => 10008
  end.
Definition nfsstat3_all : list nfsstat3 :=
  [NFS3_OK; NFS3ERR_PERM; NFS3ERR_NOENT; NFS3ERR_IO; NFS3ERR_NXIO; NFS3ERR_ACCES; NFS3ERR_EXIST; NFS3ERR_XDEV;
   NFS3ERR_NODEV; NFS3ERR_NOTDIR; NFS3ERR_ISDIR; NFS3ERR_INVAL; NFS3ERR_FBIG; NFS3ERR_NOSPC; NFS3ERR_ROFS;
   NFS3ERR_MLINK; NFS3ERR_NAMETOOLONG; NFS3ERR_NOTEMPTY; NFS3ERR_DQUOT; NFS3ERR_STALE; NFS3ERR_REMOTE;
   NFS3ERR_BADHANDLE; NFS3ERR_NOT_SYNC; NFS3ERR_BAD_COOKIE; NFS3ERR_NOTSUPP; NFS3ERR_TOOSMALL;
   NFS3ERR_SERVERFAULT; NFS3ERR_BADTYPE; NFS3ERR_JUKEBOX].
(** [FromPrimitive::from_u32]: the variant whose discriminant it is. *)
Definition from_code {A} (code : A -> Z) (all : list A) (z : Z) : option A :=
  List.find (fun v => code v =? z) all.
Definition nfsstat3_from : Z -> option nfsstat3 := from_code nfsstat3_code nfsstat3_all.
#[global] Instance xdr_nfsstat3 : XDR nfsstat3 := xdr_enum nfsstat3_code nfsstat3_from.

Inductive ftype3 : Type := NF3REG | NF3DIR | NF3BLK | NF3CHR | NF3LNK | NF3SOCK | NF3FIFO.
Definition ftype3_code (t : ftype3) : Z :=
  match t with NF3REG => 1 | NF3DIR => 2 | NF3BLK => 3 | NF3CHR => 4 | NF3LNK => 5 | NF3SOCK => 6 | NF3FIFO => 7 end.
Definition ftype3_from : Z -> option ftype3 :=
  from_code ftype3_code [NF3REG; NF3DIR; NF3BLK; NF3CHR; NF3LNK; NF3SOCK; NF3FIFO].
#[global] Instance xdr_ftype3 : XDR ftype3 := xdr_enum ftype3_code ftype3_from.

Record specdata3 : Type := mkSpecdata { specdata1 : u32; specdata2 : u32 }.
#[global] Instance xdr_specdata3 : XDR specdata3 :=
  xdr_struct (fun v => (specdata1 v, specdata2 v)) (fun '(a, b) => mkSpecdata a b).

Record nfs_fh3 : Type := mkFh { fh_data : list byte }.
Definition nfs_fh3_default : nfs_fh3 := mkFh [].
#[global] Instance xdr_nfs_fh3 : XDR nfs_fh3 := xdr_struct fh_data mkFh.

Record nfstime3 : Type := mkTime { seconds : u32; nseconds : u32 }.
Definition nfstime3_default : nfstime3 := mkTime 0 0.
#[global] Instance xdr_nfstime3 : XDR nfstime3 :=
  xdr_struct (fun v => (seconds v, nseconds v)) (fun '(a, b) => mkTime a b).

Record fattr3 : Type := mkFattr {
  fattr_ftype : ftype3;
  fattr_mode : mode3;
  fattr_nlink : u32;
  fattr_uid : uid3;
  fattr_gid : gid3;
  fattr_size : size3;
  fattr_used : size3;
  fattr_rdev : specdata3;
  fattr_fsid : u64;
  fattr_fileid : fileid3;
  fattr_atime : nfstime3;
  fattr_mtime : nfstime3;
  fattr_ctime : nfstime3
}.
Definition fattr3_default : fattr3 :=
  mkFattr NF3REG 0 0 0 0 0 0 (mkSpecdata 0 0) 0 0 nfstime3_default nfstime3_default nfstime3_default.
#[global] Instance xdr_fattr3 : XDR fattr3 :=
  xdr_struct
    (fun v => (fattr_ftype v, (fattr_mode v, (fattr_nlink v, (fattr_uid v, (fattr_gid v, (fattr_size v, (fattr_used v,
      (fattr_rdev v, (fattr_fsid v, (fattr_fileid v, (fattr_atime v, (fattr_mtime v, fattr_ctime v)))))))))))))
    (fun '(a, (b, (c, (d, (e, (f, (g, (h, (i, (j, (k, (l, m)))))))))))) => mkFattr a b c d e f g h i j k l m).

Definition FSF_LINK : Z := 0x0001.
Definition FSF_SYMLINK : Z := 0x0002.
Definition FSF_HOMOGENEOUS : Z := 0x0008.
Definition FSF_CANSETTIME : Z := 0x0010.

Record wcc_attr : Type := mkWccAttr { wcc_size : size3; wcc_mtime : nfstime3; wcc_ctime : nfstime3 }.
Definition wcc_attr_default : wcc_attr := mkWccAttr 0 nfstime3_default nfstime3_default.
#[global] Instance xdr_wcc_attr : XDR wcc_attr :=
  xdr_struct (fun v => (wcc_size v, (wcc_mtime v, wcc_ctime v))) (fun '(a, (b, c)) => mkWccAttr a b c).

Inductive pre_op_attr : Type := pre_Void | pre_attributes (v : wcc_attr).
Definition pre_op_attr_case (a : pre_op_attr) : option wcc_attr := match a with pre_Void => None | pre_attributes v => Some v end.
#[global] Instance xdr_pre_op_attr : XDR pre_op_attr := xdr_bool_union pre_op_attr_case pre_Void pre_attributes wcc_attr_default.

Inductive post_op_attr : Type := post_Void | post_attributes (v : fattr3).
Definition post_op_attr_case (a : post_op_attr) : option fattr3 := match a with post_Void => None | post_attributes v => Some v end.
#[global] Instance xdr_post_op_attr : XDR post_op_attr := xdr_bool_union post_op_attr_case post_Void post_attributes fattr3_default.

Record wcc_data : Type := mkWcc { before : pre_op_attr; after : post_op_attr }.
Definition wcc_data_default : wcc_data := mkWcc pre_Void post_Void.
#[global] Instance xdr_wcc_data : XDR wcc_data := xdr_struct (fun v => (before v, after v)) (fun '(a, b) => mkWcc a b).

Inductive post_op_fh3 : Type := fh_Void | fh_handle (v : nfs_fh3).
Definition post_op_fh3_case (a : post_op_fh3) : option nfs_fh3 := match a with fh_Void => None | fh_handle v => Some v end.
#[global] Instance xdr_post_op_fh3 : XDR post_op_fh3 := xdr_bool_union post_op_fh3_case fh_Void fh_handle nfs_fh3_default.

Record fsinfo3 : Type := mkFsinfo {
  fsinfo_obj_attributes : post_op_attr;
  rtmax : u32;
  rtpref : u32;
  rtmult : u32;
  wtmax : u32;
  wtpref : u32;
  wtmult : u32;
  dtpref : u32;
  maxfilesize : size3;
  time_delta : nfstime3;
  properties : u32
}.
#[global] Instance xdr_fsinfo3 : XDR fsinfo3 :=
  xdr_struct
    (fun v => (fsinfo_obj_attributes v, (rtmax v, (rtpref v, (rtmult v, (wtmax v, (wtpref v, (wtmult v, (dtpref v,
      (maxfilesize v, (time_delta v, properties v)))))))))))
    (fun '(a, (b, (c, (d, (e, (f, (g, (h, (i, (j, k)))))))))) => mkFsinfo a b c d e f g h i j k).

Inductive time_how : Type := how_DONT_CHANGE | how_SET_TO_SERVER_TIME | how_SET_TO_CLIENT_TIME.
Definition time_how_code (t : time_how) : Z :=
  match t with how_DONT_CHANGE => 0 | how_SET_TO_SERVER_TIME => 1 | how_SET_TO_CLIENT_TIME => 2 end.
#[global] Instance xdr_time_how : XDR time_how :=
  xdr_enum time_how_code (from_code time_how_code [how_DONT_CHANGE; how_SET_TO_SERVER_TIME; how_SET_TO_CLIENT_TIME]).

Inductive set_mode3 : Type := mode_Void | set_mode (v : mode3).
#[global] Instance xdr_set_mode3 : XDR set_mode3 :=
  xdr_bool_union (fun a => match a with mode_Void => None | set_mode v => Some v end) mode_Void set_mode 0.
Inductive set_uid3 : Type := uid_Void | set_uid (v : uid3).
#[global] Instance xdr_set_uid3 : XDR set_uid3 :=
  xdr_bool_union (fun a => match a with uid_Void => None | set_uid v => Some v end) uid_Void set_uid 0.
Inductive set_gid3 : Type := gid_Void | set_gid (v : gid3).
#[global] Instance xdr_set_gid3 : XDR set_gid3 :=
  xdr_bool_union (fun a => match a with gid_Void => None | set_gid v => Some v end) gid_Void set_gid 0.
Inductive set_size3 : Type := size_Void | set_size (v : size3).
#[global] Instance xdr_set_size3 : XDR set_size3 :=
  xdr_bool_union (fun a => match a with size_Void => None | set_size v => Some v end) size_Void set_size 0.

Inductive set_atime : Type := atime_DONT_CHANGE | atime_SET_TO_SERVER_TIME | atime_SET_TO_CLIENT_TIME (v : nfstime3).
#[global] Instance xdr_set_atime : XDR set_atime := {|
  serialize t :=
    match t with
    | atime_DONT_CHANGE => serialize (0 : u32)
    | atime_SET_TO_SERVER_TIME => serialize (1 : u32)
    | atime_SET_TO_CLIENT_TIME v => serialize (2 : u32) +++ serialize v
    end;
  deserialize _ s :=
    '(c, s1) ← deserialize (0 : u32) s;
    if c =? 0 then Ok (atime_DONT_CHANGE, s1)
    else if c =? 1 then Ok (atime_SET_TO_SERVER_TIME, s1)
    else if c =? 2 then union_arm atime_SET_TO_CLIENT_TIME nfstime3_default s1
    else Err InvalidData
|}.

Inductive set_mtime : Type := mtime_DONT_CHANGE | mtime_SET_TO_SERVER_TIME | mtime_SET_TO_CLIENT_TIME (v : nfstime3).
#[global] Instance xdr_set_mtime : XDR set_mtime := {|
  serialize t :=
    match t with
    | mtime_DONT_CHANGE => serialize (0 : u32)
    | mtime_SET_TO_SERVER_TIME => serialize (1 : u32)
    | mtime_SET_TO_CLIENT_TIME v => serialize (2 : u32) +++ serialize v
    end;
  deserialize _ s :=
    '(c, s1) ← deserialize (0 : u32) s;
    if c =? 0 then Ok (mtime_DONT_CHANGE, s1)
    else if c =? 1 then Ok (mtime_SET_TO_SERVER_TIME, s1)
    else if c =? 2 then union_arm mtime_SET_TO_CLIENT_TIME nfstime3_default s1
    else Err InvalidData
|}.

Record sattr3 : Type := mkSattr {
  sattr_mode : set_mode3;
  sattr_uid : set_uid3;
  sattr_gid : set_gid3;
  sattr_size : set_size3;
  sattr_atime : set_atime;
  sattr_mtime : set_mtime
}.
Definition sattr3_default : sattr3 := mkSattr mode_Void uid_Void gid_Void size_Void atime_DONT_CHANGE mtime_DONT_CHANGE.
#[global] Instance xdr_sattr3 : XDR sattr3 :=
  xdr_struct
    (fun v => (sattr_mode v, (sattr_uid v, (sattr_gid v, (sattr_size v, (sattr_atime v, sattr_mtime v))))))
    (fun '(a, (b, (c, (d, (e, f))))) => mkSattr a b c d e f).

Record diropargs3 : Type := mkDirop { dirop_dir : nfs_fh3; dirop_name : filename3 }.
Definition diropargs3_default : diropargs3 := mkDirop nfs_fh3_default nfsstring_default.
#[global] Instance xdr_diropargs3 : XDR diropargs3 := xdr_struct (fun v => (dirop_dir v, dirop_name v)) (fun '(a, b) => mkDirop a b).

Record symlinkdata3 : Type := mkSymlinkdata { symlink_attributes : sattr3; symlink_data : nfspath3 }.
Definition symlinkdata3_default : symlinkdata3 := mkSymlinkdata sattr3_default nfsstring_default.
#[global] Instance xdr_symlinkdata3 : XDR symlinkdata3 :=
  xdr_struct (fun v => (symlink_attributes v, symlink_data v)) (fun '(a, b) => mkSymlinkdata a b).

(** ** Laws *)

#[global] Instance lawful_nfsstat3 : Lawful nfsstat3.
Proof. apply lawful_enum. enum_ok. Defined.
#[global] Instance lawful_ftype3 : Lawful ftype3.
Proof. apply lawful_enum. enum_ok. Defined.
#[global] Instance lawful_time_how : Lawful time_how.
Proof. apply lawful_enum. enum_ok. Defined.
#[global] Instance lawful_specdata3 : Lawful specdata3.
Proof. apply lawful_struct. by intros []. Defined.
#[global] Instance lawful_nfs_fh3 : Lawful nfs_fh3.
Proof. apply lawful_struct. by intros []. Defined.
#[global] Instance lawful_nfstime3 : Lawful nfstime3.
Proof. apply lawful_struct. by intros []. Defined.
#[global] Instance lawful_fattr3 : Lawful fattr3.
Proof. apply lawful_struct. by intros []. Defined.
#[global] Instance lawful_wcc_attr : Lawful wcc_attr.
Proof. apply lawful_struct. by intros []. Defined.

(** A union on a boolean discriminant is lawful when its payload is. *)
Definition lawful_bool_union {A V} `{Lawful V} (case : A -> option V) (void : A) (make : V -> A) (default : V)
    (ok : forall v, match case v with None => v = void | Some w => v = make w end) :
    @Lawful A (xdr_bool_union case void make default).
Proof.
  refine (@Build_Lawful A (xdr_bool_union case void make default)
    (fun v => match case v with None => True | Some w => wf w end) _).
  intros v Hv. apply bool_union_roundtrip. specialize (ok v). by destruct (case v).
Defined.

#[global] Instance lawful_pre_op_attr : Lawful pre_op_attr.
Proof. apply lawful_bool_union. by intros []. Defined.
#[global] Instance lawful_post_op_attr : Lawful post_op_attr.
Proof. apply lawful_bool_union. by intros []. Defined.
#[global] Instance lawful_post_op_fh3 : Lawful post_op_fh3.
Proof. apply lawful_bool_union. by intros []. Defined.
#[global] Instance lawful_set_mode3 : Lawful set_mode3.
Proof. apply lawful_bool_union. by intros []. Defined.
#[global] Instance lawful_set_uid3 : Lawful set_uid3.
Proof. apply lawful_bool_union. by intros []. Defined.
#[global] Instance lawful_set_gid3 : Lawful set_gid3.
Proof. apply lawful_bool_union. by intros []. Defined.
#[global] Instance lawful_set_size3 : Lawful set_size3.
Proof. apply lawful_bool_union. by intros []. Defined.
#[global] Instance lawful_wcc_data : Lawful wcc_data.
Proof. apply lawful_struct. by intros []. Defined.
#[global] Instance lawful_fsinfo3 : Lawful fsinfo3.
Proof. apply lawful_struct. by intros []. Defined.

#[global] Instance lawful_set_atime : Lawful set_atime.
Proof.
  refine {| wf := fun t => match t with atime_SET_TO_CLIENT_TIME v => wf v | _ => True end |}. unfold xdr_set_atime.
  intros [| |v] Hv; [plain_arm|plain_arm|value_arm 2 v Hv].
Defined.
#[global] Instance lawful_set_mtime : Lawful set_mtime.
Proof.
  refine {| wf := fun t => match t with mtime_SET_TO_CLIENT_TIME v => wf v | _ => True end |}. unfold xdr_set_mtime.
  intros [| |v] Hv; [plain_arm|plain_arm|value_arm 2 v Hv].
Defined.

#[global] Instance lawful_sattr3 : Lawful sattr3.
Proof. apply lawful_struct. by intros []. Defined.
#[global] Instance lawful_diropargs3 : Lawful diropargs3.
Proof. apply lawful_struct. by intros []. Defined.
#[global] Instance lawful_symlinkdata3 : Lawful symlinkdata3.
Proof. apply lawful_struct. by intros []. Defined.
