(* ===== verification/Free.v ===== *)
(** * Programs over a signature of effects

    A program asks the environment for effects and goes on with the answers; the
    signature says what an effect is answered with. [wp] states what a program
    may ask for and what it returns, whatever the answers; [exec] runs it against
    a concrete environment. *)
From S2P Require Import Prelude.
From stdpp Require Import list.

Class Effects (E : Type) : Type := reply_of : E -> Type.

(** [Crash] is a panic of the task that runs the program. *)
Inductive free (E : Type) `{Effects E} (A : Type) : Type :=
| Done (a : A)
| Ask (e : E) (k : reply_of e -> free E A)
| Crash.
Arguments Done {E _ A} a.
Arguments Ask {E _ A} e k.
Arguments Crash {E _ A}.

Fixpoint free_bind_ {E} `{Effects E} {A B} (f : A -> free E B) (p : free E A) : free E B :=
  match p with
  | Done a => f a
  | Ask e k => Ask e (fun r => free_bind_ f (k r))
  | Crash => Crash
  end.
#[global] Instance free_ret {E} `{Effects E} : MRet (free E) := fun A a => Done a.
#[global] Instance free_bind {E} `{Effects E} : MBind (free E) := fun A B f p => free_bind_ f p.

Definition ask {E} `{Effects E} (e : E) : free E (reply_of e) := Ask e Done.

Section Programs.
Context {E : Type} `{Effects E}.

Section Exec.
Context {St : Type} (answer : forall e : E, St -> reply_of e * St).

Fixpoint exec {A} (p : free E A) (s : St) : option A * St * list E :=
  match p with
  | Done a => (Some a, s, [])
  | Crash => (None, s, [])
  | Ask e k =>
      let '(r, s1) := answer e s in
      let '(out, s2, trace) := exec (k r) s1 in
      (out, s2, e :: trace)
  end.
End Exec.

(** [P] holds of every effect and [Q] of the result, provided every answer
    satisfies [R]; [C] holds if the program crashes. *)
Fixpoint fwp {A} (C : Prop) (P : E -> Prop) (R : forall e, reply_of e -> Prop) (Q : A -> Prop) (p : free E A) : Prop :=
  match p with
  | Done a => Q a
  | Ask e k => P e /\ forall r, R e r -> fwp C P R Q (k r)
  | Crash => C
  end.

(** At most [n] effects satisfy [b] on every path. *)
Fixpoint at_most {A} (b : E -> bool) (n : nat) (p : free E A) : Prop :=
  match p with
  | Done _ | Crash => True
  | Ask e k =>
      if b e then match n with O => False | S n' => forall r, at_most b n' (k r) end else forall r, at_most b n (k r)
  end.

Lemma fwp_bind {A B} C P R (Q : B -> Prop) (p : free E A) (f : A -> free E B) :
  fwp C P R (fun a => fwp C P R Q (f a)) p -> fwp C P R Q (p ≫= f).
Proof. induction p as [a|e k IH|]; simpl; [auto| |done]. intros [HP Hk]. eauto. Qed.

Lemma fwp_mono {A} (C1 C2 : Prop) (P1 P2 : E -> Prop) (R1 R2 : forall e, reply_of e -> Prop) (Q1 Q2 : A -> Prop) p :
  (C1 -> C2) -> (forall e, P1 e -> P2 e) -> (forall e r, R2 e r -> R1 e r) -> (forall a, Q1 a -> Q2 a) ->
  fwp C1 P1 R1 Q1 p -> fwp C2 P2 R2 Q2 p.
Proof.
  intros HC HP HR HQ. induction p as [a|e k IH|]; simpl; [auto| |done]. intros [He Hk].
  split; [auto|]. intros r Hr. apply IH. auto.
Qed.

Lemma fwp_and {A} C (P1 P2 : E -> Prop) R (Q1 Q2 : A -> Prop) p :
  fwp C P1 R Q1 p -> fwp C P2 R Q2 p -> fwp C (fun e => P1 e /\ P2 e) R (fun a => Q1 a /\ Q2 a) p.
Proof.
  induction p as [a|e k IH|]; simpl; [auto| |done]. intros [? ?] [? ?].
  split; [done|]. intros r Hr. auto.
Qed.

(** What is known of the result alone can be added. *)
Lemma fwp_also {A} C P R (Q1 Q2 : A -> Prop) p :
  fwp C P R Q1 p -> fwp True (fun _ => True) R Q2 p -> fwp C P R (fun a => Q1 a /\ Q2 a) p.
Proof.
  induction p as [a|e k IH|]; simpl; [auto| |done]. intros [? ?] [_ ?]. split; [done|]. intros r Hr. auto.
Qed.

Lemma fwp_any {A} R (p : free E A) : fwp True (fun _ => True) R (fun _ => True) p.
Proof. induction p as [a|e k IH|]; simpl; auto. Qed.

Lemma fwp_exec {A St} (answer : forall e : E, St -> reply_of e * St) P R (Q : A -> Prop) p s :
  (forall e s, R e (answer e s).1) -> fwp False P R Q p ->
  exists a s' trace, exec answer p s = (Some a, s', trace) /\ Q a /\ Forall P trace.
Proof.
  intros HR. revert s. induction p as [a|e k IH|]; intros s; simpl; [|intros [HP Hk]|done].
  - exists a, s, []. by repeat constructor.
  - destruct (answer e s) as [r s1] eqn:Ea. assert (R e r) as Hr by (specialize (HR e s); by rewrite Ea in HR).
    destruct (IH r s1 (Hk r Hr)) as (a & s' & trace & -> & HQ & Ht). exists a, s', (e :: trace).
    split_and!; [done|done|by constructor].
Qed.

Lemma exec_bind {A B St} (answer : forall e : E, St -> reply_of e * St) (p : free E A) (f : A -> free E B) s :
  exec answer (p ≫= f) s =
  match exec answer p s with
  | (Some a, s1, t1) => let '(out, s2, t2) := exec answer (f a) s1 in (out, s2, t1 ++ t2)
  | (None, s1, t1) => (None, s1, t1)
  end.
Proof.
  revert s. induction p as [a|e k IH|]; intros s; [|simpl|done].
  - simpl. by destruct (exec answer (f a) s) as [[out s2] t2].
  - destruct (answer e s) as [r s1]. change (free_bind _ _ f (k r)) with (k r ≫= f). rewrite (IH r s1).
    destruct (exec answer (k r) s1) as [[[a|] s2] t1]; [|done]. by destruct (exec answer (f a) s2) as [[out s3] t2].
Qed.

Lemma at_most_mono {A} b n m (p : free E A) : (n <= m)%nat -> at_most b n p -> at_most b m p.
Proof.
  revert n m. induction p as [a|e k IH|]; intros n m Hn; simpl; try done.
  destruct (b e); [|intros; by eapply IH]. destruct n as [|n]; [done|]. destruct m as [|m]; [lia|].
  intros Hk r. eapply IH; [|done]. lia.
Qed.

Lemma at_most_bind {A B} b n m (p : free E A) (f : A -> free E B) :
  at_most b n p -> (forall a, at_most b m (f a)) -> at_most b (n + m) (p ≫= f).
Proof.
  intros Hp Hf. revert n Hp. induction p as [a|e k IH|]; intros n Hp; simpl in *; [|destruct (b e)|done].
  - eapply at_most_mono; [|apply Hf]. lia.
  - destruct n as [|n]; [done|]. simpl. intros r. by apply IH.
  - intros r. by apply IH.
Qed.

(** What holds of the effects of a program holds of the trace of each run, crashed
    or not. *)
Lemma fwp_trace {A St} (answer : forall e : E, St -> reply_of e * St) C P R (Q : A -> Prop) p s :
  (forall e s, R e (answer e s).1) -> fwp C P R Q p -> Forall P (exec answer p s).2.
Proof.
  intros HR. revert s. induction p as [a|e k IH|]; intros s; simpl; [by constructor|intros [HP Hk]|by constructor].
  destruct (answer e s) as [r s1] eqn:Ea. assert (R e r) as Hr by (specialize (HR e s); by rewrite Ea in HR).
  specialize (IH r s1 (Hk r Hr)). destruct (exec answer (k r) s1) as [[out s2] trace]. by constructor.
Qed.

(** The same when the answers satisfy [R] only in states with an invariant that
    the effects keep. *)
Lemma fwp_exec_inv {A St} (answer : forall e : E, St -> reply_of e * St) (I : St -> Prop) C P R (Q : A -> Prop) p s :
  (forall e s, I s -> P e -> R e (answer e s).1 /\ I (answer e s).2) -> I s -> fwp C P R Q p ->
  let '(out, s', trace) := exec answer p s in
  Forall P trace /\ I s' /\ match out with Some a => Q a | None => C end.
Proof.
  intros HR. revert s. induction p as [a|e k IH|]; intros s Hs; simpl; [done|intros [HP Hk]|done].
  destruct (HR e s Hs HP) as [Hr Hi]. destruct (answer e s) as [r s1]. specialize (IH r s1 Hi (Hk r Hr)).
  destruct (exec answer (k r) s1) as [[out s2] trace]. destruct IH as (Ht & ? & ?). split_and!; [by constructor|done..].
Qed.

(** A bound on the effects bounds the trace of a run. *)
Lemma at_most_exec {A St} (answer : forall e : E, St -> reply_of e * St) b n (p : free E A) s :
  at_most b n p -> (length (filter (fun e => b e = true) (exec answer p s).2) <= n)%nat.
Proof.
  revert n s. induction p as [a|e k IH|]; intros n s Hp; simpl; [lia| |lia].
  simpl in Hp. destruct (answer e s) as [r s1]. specialize (IH r).
  destruct (exec answer (k r) s1) as [[out s2] trace] eqn:Ex. simpl. destruct (b e) eqn:Eb.
  - rewrite filter_cons_True by done. destruct n as [|n]; [done|]. specialize (IH n s1 (Hp r)). rewrite Ex in IH. simpl in *. lia.
  - rewrite filter_cons_False by congruence. specialize (IH n s1 (Hp r)). by rewrite Ex in IH.
Qed.
End Programs.
