(* ===== verification/LegacyVfs.v ===== *)
(** * [src/vfs/legacy.rs]: the file system interface of the demo server

    [NFSFileSystem] has required methods, whose implementation the application
    supplies: they are effects. Its provided methods have a default body that an
    implementation may replace: they are the class [Provided], with the default
    bodies as its instance [provided_default]. *)
From S2P Require Import Prelude Xdr LegacyNfs Free.
From stdpp Require Import list strings.
#[local] Open Scope Z_scope.

Record DirEntrySimple : Type := mkEntrySimple { simple_fileid : fileid3; simple_name : filename3 }.
Record ReadDirSimpleResult : Type := mkSimpleResult { simple_entries : list DirEntrySimple; simple_end : bool }.
Record DirEntry : Type := mkEntry { entry_fileid : fileid3; entry_name : filename3; entry_attr : fattr3 }.
Record ReadDirResult : Type := mkDirResult { dir_entries : list DirEntry; dir_end : bool }.

Definition from_readdir_result (result : ReadDirResult) : ReadDirSimpleResult :=
  mkSimpleResult (map (fun e => mkEntrySimple (entry_fileid e) (entry_name e)) (dir_entries result)) (dir_end result).

Inductive VFSCapabilities : Type := ReadOnly | ReadWrite.

(** ** Required methods *)
Module FsOp.
Inductive t : Type :=
| capabilities
| root_dir
| lookup (dirid : fileid3) (filename : filename3)
| getattr (id : fileid3)
| setattr (id : fileid3) (attributes : sattr3)
| read (id : fileid3) (offset count : Z)
| write (id : fileid3) (offset : Z) (data : list byte)
| create (dirid : fileid3) (filename : filename3) (attr : sattr3)
| create_exclusive (dirid : fileid3) (filename : filename3)
| mkdir (dirid : fileid3) (dirname : filename3)
| remove (dirid : fileid3) (filename : filename3)
| rename (from_dirid : fileid3) (from_filename : filename3) (to_dirid : fileid3) (to_filename : filename3)
| readdir (dirid start_after : fileid3) (max_entries : Z)
| symlink (dirid : fileid3) (linkname : filename3) (target : nfspath3) (attr : sattr3)
| readlink (id : fileid3).

Definition response (op : t) : Type :=
  match op with
  | capabilities => VFSCapabilities
  | root_dir => fileid3
  | lookup _ _ => result nfsstat3 fileid3
  | getattr _ => result nfsstat3 fattr3
  | setattr _ _ => result nfsstat3 fattr3
  | read _ _ _ => result nfsstat3 (list byte * bool)
  | write _ _ _ => result nfsstat3 fattr3
  | create _ _ _ => result nfsstat3 (fileid3 * fattr3)
  | create_exclusive _ _ => result nfsstat3 fileid3
  | mkdir _ _ => result nfsstat3 (fileid3 * fattr3)
  | remove _ _ => result nfsstat3 unit
  | rename _ _ _ _ => result nfsstat3 unit
  | readdir _ _ _ => result nfsstat3 ReadDirResult
  | symlink _ _ _ _ => result nfsstat3 (fileid3 * fattr3)
  | readlink _ => result nfsstat3 nfspath3
  end.

Definition mutates (op : t) : bool :=
  match op with
  | setattr _ _ | write _ _ _ | create _ _ _ | create_exclusive _ _ | mkdir _ _ | remove _ _ | rename _ _ _ _
  | symlink _ _ _ _ => true
  | _ => false
  end.
End FsOp.

(** What a request task does outside itself: file system calls, the signal to
    the mount listener, and the two calls of the transaction tracker. *)
Inductive demo_effect : Type :=
| Fs (op : FsOp.t)
| MountSignal (mounted : bool)
| IsRetransmission (xid : Z) (client_addr : string)
| MarkProcessed (xid : Z) (client_addr : string).
#[global] Instance demo_effects : Effects demo_effect := fun e =>
  match e with
  | Fs op => FsOp.response op
  | MountSignal _ => unit
  | IsRetransmission _ _ => bool
  | MarkProcessed _ _ => unit
  end.
Abbreviation prog := (free demo_effect).
Definition call (op : FsOp.t) : prog (FsOp.response op) := ask (Fs op).
Definition effect_mutates (e : demo_effect) : bool := match e with Fs op => FsOp.mutates op | _ => false end.

(** ** Provided methods *)
Class Provided : Type := {
  readdir_simple : fileid3 -> Z -> prog (result nfsstat3 ReadDirSimpleResult);
  fsinfo : fileid3 -> prog (result nfsstat3 fsinfo3);
  id_to_fh : fileid3 -> nfs_fh3;
  fh_to_id : nfs_fh3 -> result nfsstat3 fileid3;
  path_to_id : list byte -> prog (result nfsstat3 fileid3);
  serverid : cookieverf3
}.

(** [u64::to_le_bytes] and [u64::from_le_bytes] *)
Definition to_le_bytes (z : Z) : list byte := rev (be_bytes 8 z).
Definition from_le_bytes (l : list byte) : Z := be_value (rev l).

Definition default_readdir_simple (dirid : fileid3) (count : Z) : prog (result nfsstat3 ReadDirSimpleResult) :=
  r ← call (FsOp.readdir dirid 0 count);
  mret (match r with Ok result => Ok (from_readdir_result result) | Err e => Err e end).

Definition default_fsinfo (root_fileid : fileid3) : prog (result nfsstat3 fsinfo3) :=
  r ← call (FsOp.getattr root_fileid);
  let dir_attr := match r with Ok v => post_attributes v | Err _ => post_Void end in
  mret (Ok {|
    fsinfo_obj_attributes := dir_attr;
    rtmax := 1024 * 1024;
    rtpref := 1024 * 124;
    rtmult := 1024 * 1024;
    wtmax := 1024 * 1024;
    wtpref := 1024 * 1024;
    wtmult := 1024 * 1024;
    dtpref := 1024 * 1024;
    maxfilesize := 128 * 1024 * 1024 * 1024;
    time_delta := mkTime 0 1000000;
    properties := Z.lor (Z.lor FSF_SYMLINK FSF_HOMOGENEOUS) FSF_CANSETTIME
  |}).

Definition slash : byte := Byte.x2f.
(** [path.split(|&r| r == b'/')] *)
Fixpoint split_slash (path : list byte) : list (list byte) :=
  match path with
  | [] => [[]]
  | b :: path' =>
      if bool_decide (b = slash) then [] :: split_slash path'
      else match split_slash path' with w :: ws => (b :: w) :: ws | [] => [[b]] end
  end.

(** The loop of [path_to_id]. *)
Fixpoint walk (fid : fileid3) (splits : list (list byte)) : prog (result nfsstat3 fileid3) :=
  match splits with
  | [] => mret (Ok fid)
  | [] :: splits' => walk fid splits'
  | component :: splits' =>
      r ← call (FsOp.lookup fid (mkNfsString component));
      match r with
      | Ok fid' => walk fid' splits'
      | Err e => mret (Err e)
      end
  end.
Definition default_path_to_id (path : list byte) : prog (result nfsstat3 fileid3) :=
  fid ← call FsOp.root_dir;
  walk fid (split_slash path).

(** The generation number is the wall clock when it is first asked for. *)
Definition default_id_to_fh (gennum : Z) (id : fileid3) : nfs_fh3 := mkFh (to_le_bytes gennum ++ to_le_bytes id).
Definition default_fh_to_id (gennum : Z) (fh : nfs_fh3) : result nfsstat3 fileid3 :=
  if negb (zlen (fh_data fh) =? 16) then Err NFS3ERR_BADHANDLE
  else
    let gen := from_le_bytes (slice 0 8 (fh_data fh)) in
    let id := from_le_bytes (slice 8 16 (fh_data fh)) in
    match gen ?= gennum with
    | Lt => Err NFS3ERR_STALE
    | Gt => Err NFS3ERR_BADHANDLE
    | Eq => Ok id
    end.
Definition default_serverid (gennum : Z) : cookieverf3 := mkArray (to_le_bytes gennum).

Definition provided_default (gennum : Z) : Provided := {|
  readdir_simple := default_readdir_simple;
  fsinfo := default_fsinfo;
  id_to_fh := default_id_to_fh gennum;
  fh_to_id := default_fh_to_id gennum;
  path_to_id := default_path_to_id;
  serverid := default_serverid gennum
|}.

(** ** File handles *)

Lemma zlen_to_le_bytes z : zlen (to_le_bytes z) = 8.
Proof. unfold to_le_bytes, zlen. by rewrite length_rev, length_be_bytes. Qed.

Lemma from_to_le_bytes z : u64_range z -> from_le_bytes (to_le_bytes z) = z.
Proof. intros Hz. unfold from_le_bytes, to_le_bytes. by rewrite rev_involutive, be_value_be8. Qed.

Lemma from_le_bytes_range l : zlen l = 8 -> u64_range (from_le_bytes l).
Proof. intros Hl. unfold from_le_bytes. apply be_value_u64. rewrite length_rev. unfold zlen in Hl. lia. Qed.

Lemma to_from_le_bytes l : zlen l = 8 -> to_le_bytes (from_le_bytes l) = l.
Proof.
  intros Hl. unfold from_le_bytes, to_le_bytes. assert (length (rev l) = 8%nat) as H8 by (rewrite length_rev; unfold zlen in Hl; lia).
  rewrite <- H8 at 1. by rewrite be_bytes_be_value, rev_involutive.
Qed.

Lemma halves (l : list byte) : zlen l = 16 -> l = slice 0 8 l ++ slice 8 16 l /\ zlen (slice 0 8 l) = 8 /\ zlen (slice 8 16 l) = 8.
Proof.
  intros Hl. unfold slice. change (Z.to_nat (8 - 0)) with 8%nat. change (Z.to_nat (16 - 8)) with 8%nat.
  change (Z.to_nat 0) with 0%nat. change (Z.to_nat 8) with 8%nat. unfold zlen in *. rewrite drop_0. split_and!.
  - rewrite (take_ge (drop 8 l)) by (rewrite length_drop; lia). by rewrite take_drop.
  - rewrite length_take. lia.
  - rewrite length_take, length_drop. lia.
Qed.

(** Every handle the file system makes from a file id names that file again, and
    no other handle is accepted: one of another length or of a later generation
    is malformed, one of an earlier generation is stale. *)
Lemma handle_laws gennum fh :
  u64_range gennum ->
  match default_fh_to_id gennum fh with
  | Ok id => u64_range id /\ fh = default_id_to_fh gennum id
  | Err NFS3ERR_STALE => exists gen id, 0 <= gen < gennum /\ fh = default_id_to_fh gen id
  | Err NFS3ERR_BADHANDLE => zlen (fh_data fh) <> 16 \/ exists gen id, gennum < gen <= u64_max /\ fh = default_id_to_fh gen id
  | Err _ => False
  end.
Proof.
  intros Hg. destruct fh as [l]. unfold default_fh_to_id. cbn [fh_data]. destruct (Z.eqb_spec (zlen l) 16) as [Hl|Hl]; simpl; [|by left].
  destruct (halves l Hl) as (Hsplit & H1 & H2). pose proof (from_le_bytes_range _ H1) as Hr1.
  pose proof (from_le_bytes_range _ H2) as Hr2.
  assert (forall gen, gen = from_le_bytes (slice 0 8 l) -> mkFh l = default_id_to_fh gen (from_le_bytes (slice 8 16 l))) as Hfh.
  { intros gen ->. unfold default_id_to_fh. rewrite !to_from_le_bytes by done. by rewrite <- Hsplit. }
  unfold u64_range in *. destruct (Z.compare_spec (from_le_bytes (slice 0 8 l)) gennum) as [He|He|He].
  - split; [lia|]. by apply Hfh.
  - eexists _, _. split; [|by apply Hfh]. lia.
  - right. eexists _, _. split; [|by apply Hfh]. lia.
Qed.

Lemma handle_roundtrip gennum id :
  u64_range gennum -> u64_range id -> default_fh_to_id gennum (default_id_to_fh gennum id) = Ok id.
Proof.
  intros Hg Hi. unfold default_fh_to_id, default_id_to_fh. cbn [fh_data].
  assert (forall a b, zlen a = 8 -> slice 0 8 (a ++ b : list byte) = a) as Hl.
  { intros a b Ha. unfold slice. change (Z.to_nat 0) with 0%nat. rewrite drop_0. apply take_app_length'. unfold zlen in Ha. lia. }
  assert (forall a b, zlen a = 8 -> zlen b = 8 -> slice 8 16 (a ++ b : list byte) = b) as Hr.
  { intros a b Ha Hb. unfold slice, zlen in *. rewrite drop_app_length' by lia. apply take_ge. lia. }
  rewrite zlen_app, !zlen_to_le_bytes. simpl. rewrite Hl, Hr by apply zlen_to_le_bytes. rewrite !from_to_le_bytes by done.
  by rewrite Z.compare_refl.
Qed.

(** ** Paths *)

(** The components of a path: what lies between slashes, empty parts left out. *)
Definition components (path : list byte) : list (list byte) := filter (fun w => w <> []) (split_slash path).

Fixpoint lookups (fid : fileid3) (names : list (list byte)) : prog (result nfsstat3 fileid3) :=
  match names with
  | [] => mret (Ok fid)
  | name :: names' =>
      r ← call (FsOp.lookup fid (mkNfsString name));
      match r with Ok fid' => lookups fid' names' | Err e => mret (Err e) end
  end.

(** The default [path_to_id] looks the components of the path up one after the
    other from the root; how many slashes separate or surround them is
    irrelevant. *)
Lemma walk_lookups {St} (answer : forall e, St -> reply_of e * St) splits fid s :
  exec answer (walk fid splits) s = exec answer (lookups fid (filter (fun w => w <> []) splits)) s.
Proof.
  revert fid s. induction splits as [|[|b w] splits IH]; intros fid s; [done| |].
  - rewrite filter_cons_False by (intros H; by apply H). apply IH.
  - rewrite filter_cons_True by done. cbn [walk lookups]. unfold call, ask. cbn [mbind free_bind free_bind_ exec].
    destruct (answer _ s) as [[fid'|e] s1]; [by rewrite IH|done].
Qed.

Lemma split_slash_nonempty path : split_slash path <> [].
Proof. destruct path as [|b path]; [done|]. simpl. case_bool_decide; [done|]. by destruct (split_slash path). Qed.

Lemma split_slash_app a b : split_slash (a ++ slash :: b) = split_slash a ++ split_slash b.
Proof.
  induction a as [|c a IH]; simpl; [done|]. case_bool_decide; [by rewrite IH|]. rewrite IH.
  pose proof (split_slash_nonempty a). by destruct (split_slash a).
Qed.

Lemma split_slash_word w : slash ∉ w -> split_slash w = [w].
Proof.
  induction w as [|b w IH]; intros Hw; [done|]. simpl. apply not_elem_of_cons in Hw as [H1 H2].
  rewrite bool_decide_eq_false_2 by congruence. by rewrite IH.
Qed.

Lemma components_app a b : components (a ++ slash :: b) = components a ++ components b.
Proof. unfold components. by rewrite split_slash_app, filter_app. Qed.

(** A path written with one slash before each name. *)
Definition path_of (names : list (list byte)) : list byte := concat (map (fun w => slash :: w) names).

Lemma components_path_of names :
  Forall (fun w => w <> [] /\ slash ∉ w) names -> components (path_of names) = names.
Proof.
  assert (forall w, w <> [] -> slash ∉ w -> components w = [w]) as Hw.
  { intros w Hn Hs. unfold components. rewrite split_slash_word by done. by rewrite filter_cons_True, filter_nil. }
  assert (forall names prefix, slash ∉ prefix -> Forall (fun w => w <> [] /\ slash ∉ w) names ->
    components (prefix ++ path_of names) = components prefix ++ names) as Hgen.
  { clear names. induction names as [|w names IH]; intros prefix Hp Hf; [by rewrite !app_nil_r|].
    apply Forall_cons in Hf as [[Hn Hs] Hf]. unfold path_of. cbn [map concat]. fold (path_of names).
    rewrite <- app_comm_cons, components_app, (IH w Hs Hf), (Hw w Hn Hs). done. }
  intros Hf. specialize (Hgen names [] ltac:(apply not_elem_of_nil) Hf). done.
Qed.
