(* ===== verification/LegacyHandlers.v ===== *)
(** * [src/nfs_handlers.rs]: the NFSv3 procedures of the demo server

    Each procedure reads its arguments from the request and appends its reply to
    the output, one XDR item after the other. A procedure is a [handler]: a
    program over the file system with these two buffers as its state, that fails
    when the arguments cannot be read and crashes when an assertion of the
    encoder or an arithmetic check fails. *)
From S2P Require Import Prelude Xdr LegacyMessage LegacyNfs Free LegacyVfs.
From stdpp Require Import list.
#[local] Open Scope Z_scope.

(** ** Handlers *)

(** [anyhow::Error]: what the handlers fail with. *)
Inductive Failure : Type := Io (e : XdrError) | BadCallFormat.

(** Input left to read, output written so far. The output of a failed call is
    dropped by the caller. *)
Definition handler (A : Type) : Type :=
  list byte * list byte -> prog (result Failure (A * (list byte * list byte))).

#[global] Instance handler_ret : MRet handler := fun A a s => mret (Ok (a, s)).
#[global] Instance handler_bind : MBind handler := fun A B f m s =>
  r ← m s;
  match r with
  | Ok (a, s') => f a s'
  | Err e => mret (Err e)
  end.

Definition lift {A} (p : prog A) : handler A := fun s => a ← p; mret (Ok (a, s)).
Definition fs (op : FsOp.t) : handler (FsOp.response op) := lift (call op).
Definition crash {A} : handler A := fun s => Crash.

(** [v.deserialize(input)?] and [v.serialize(output)?] *)
Definition get {A} `{XDR A} (default : A) : handler A := fun s =>
  match deserialize default s.1 with
  | Ok (v, input) => mret (Ok (v, (input, s.2)))
  | Err e => mret (Err (Io e))
  end.
Definition put {A} `{XDR A} (v : A) : handler unit := fun s =>
  match serialize v with
  | Some bytes => mret (Ok (tt, (s.1, s.2 ++ bytes)))
  | None => Crash
  end.

(** Subtraction of [usize] values: an underflow panics when overflow checks are
    compiled in and wraps around otherwise. *)
Definition usize_sub (overflow_checks : bool) (a b : Z) : option Z :=
  if a <? b then if overflow_checks then None else Some (a - b + 2 ^ 64) else Some (a - b).

(** ** [src/write_counter.rs] *)
Record WriteCounter : Type := mkCounter { inner : list byte; count : Z }.
Definition counter_new (out : list byte) : WriteCounter := mkCounter out 0.
Definition bytes_written (w : WriteCounter) : Z := count w.
Definition counter_write (buf : list byte) (w : WriteCounter) : WriteCounter :=
  mkCounter (inner w ++ buf) (count w + zlen buf).
Definition counter_put {A} `{XDR A} (v : A) (w : WriteCounter) : option WriteCounter :=
  buf ← serialize v; Some (counter_write buf w).
(** Writing through a counter around the output; [None] is a failed assertion. *)
Definition counted (f : WriteCounter -> option WriteCounter) : handler unit := fun s =>
  match f (counter_new s.2) with
  | Some w => mret (Ok (tt, (s.1, inner w)))
  | None => Crash
  end.

(** ** Arguments and results *)

Inductive NFSProgram : Type :=
| NFSPROC3_NULL | NFSPROC3_GETATTR | NFSPROC3_SETATTR | NFSPROC3_LOOKUP | NFSPROC3_ACCESS | NFSPROC3_READLINK
| NFSPROC3_READ | NFSPROC3_WRITE | NFSPROC3_CREATE | NFSPROC3_MKDIR | NFSPROC3_SYMLINK | NFSPROC3_MKNOD
| NFSPROC3_REMOVE | NFSPROC3_RMDIR | NFSPROC3_RENAME | NFSPROC3_LINK | NFSPROC3_READDIR | NFSPROC3_READDIRPLUS
| NFSPROC3_FSSTAT | NFSPROC3_FSINFO | NFSPROC3_PATHCONF | NFSPROC3_COMMIT | INVALID.
Definition NFSProgram_all : list NFSProgram :=
  [NFSPROC3_NULL; NFSPROC3_GETATTR; NFSPROC3_SETATTR; NFSPROC3_LOOKUP; NFSPROC3_ACCESS; NFSPROC3_READLINK;
   NFSPROC3_READ; NFSPROC3_WRITE; NFSPROC3_CREATE; NFSPROC3_MKDIR; NFSPROC3_SYMLINK; NFSPROC3_MKNOD;
   NFSPROC3_REMOVE; NFSPROC3_RMDIR; NFSPROC3_RENAME; NFSPROC3_LINK; NFSPROC3_READDIR; NFSPROC3_READDIRPLUS;
   NFSPROC3_FSSTAT; NFSPROC3_FSINFO; NFSPROC3_PATHCONF; NFSPROC3_COMMIT; INVALID].
Definition NFSProgram_code (p : NFSProgram) : Z :=
  match p with
  | NFSPROC3_NULL => 0
  | NFSPROC3_GETATTR => 1
  | NFSPROC3_SETATTR => 2
  | NFSPROC3_LOOKUP => 3
  | NFSPROC3_ACCESS => 4
  | NFSPROC3_READLINK => 5
  | NFSPROC3_READ => 6
  | NFSPROC3_WRITE => 7
  | NFSPROC3_CREATE => 8
  | NFSPROC3_MKDIR => 9
  | NFSPROC3_SYMLINK => 10
  | NFSPROC3_MKNOD => 11
  | NFSPROC3_REMOVE => 12
  | NFSPROC3_RMDIR => 13
  | NFSPROC3_RENAME => 14
  | NFSPROC3_LINK => 15
  | NFSPROC3_READDIR => 16
  | NFSPROC3_READDIRPLUS => 17
  | NFSPROC3_FSSTAT => 18
  | NFSPROC3_FSINFO => 19
  | NFSPROC3_PATHCONF => 20
  | NFSPROC3_COMMIT => 21
  | INVALID => 22
  end.

Record READ3args : Type := mkReadArgs { read_file : nfs_fh3; read_offset : offset3; read_count : count3 }.
Definition READ3args_default : READ3args := mkReadArgs nfs_fh3_default 0 0.
#[global] Instance xdr_READ3args : XDR READ3args :=
  xdr_struct (fun v => (read_file v, (read_offset v, read_count v))) (fun '(a, (b, c)) => mkReadArgs a b c).

Record READ3resok : Type := mkReadOk { file_attributes : post_op_attr; res_count : count3; eof : bool; data : list byte }.
#[global] Instance xdr_READ3resok : XDR READ3resok :=
  xdr_struct (fun v => (file_attributes v, (res_count v, (eof v, data v)))) (fun '(a, (b, (c, d))) => mkReadOk a b c d).

Definition ACCESS3_READ : Z := 0x0001.
Definition ACCESS3_LOOKUP : Z := 0x0002.
Definition ACCESS3_MODIFY : Z := 0x0004.
Definition ACCESS3_EXTEND : Z := 0x0008.
Definition ACCESS3_DELETE : Z := 0x0010.
Definition ACCESS3_EXECUTE : Z := 0x0020.

Record PATHCONF3resok : Type := mkPathconf {
  pathconf_obj_attributes : post_op_attr;
  linkmax : u32;
  name_max : u32;
  no_trunc : bool;
  chown_restricted : bool;
  case_insensitive : bool;
  case_preserving : bool
}.
#[global] Instance xdr_PATHCONF3resok : XDR PATHCONF3resok :=
  xdr_struct
    (fun v => (pathconf_obj_attributes v, (linkmax v, (name_max v, (no_trunc v, (chown_restricted v,
      (case_insensitive v, case_preserving v)))))))
    (fun '(a, (b, (c, (d, (e, (f, g)))))) => mkPathconf a b c d e f g).

Record FSSTAT3resok : Type := mkFsstat {
  fsstat_obj_attributes : post_op_attr;
  tbytes : size3;
  fbytes : size3;
  abytes : size3;
  tfiles : size3;
  ffiles : size3;
  afiles : size3;
  invarsec : u32
}.
#[global] Instance xdr_FSSTAT3resok : XDR FSSTAT3resok :=
  xdr_struct
    (fun v => (fsstat_obj_attributes v, (tbytes v, (fbytes v, (abytes v, (tfiles v, (ffiles v, (afiles v, invarsec v))))))))
    (fun '(a, (b, (c, (d, (e, (f, (g, h))))))) => mkFsstat a b c d e f g h).

Record READDIRPLUS3args : Type := mkReaddirplusArgs {
  plus_dir : nfs_fh3;
  plus_cookie : cookie3;
  plus_cookieverf : cookieverf3;
  plus_dircount : count3;
  plus_maxcount : count3
}.
Definition READDIRPLUS3args_default : READDIRPLUS3args := mkReaddirplusArgs nfs_fh3_default 0 cookieverf3_default 0 0.
#[global] Instance xdr_READDIRPLUS3args : XDR READDIRPLUS3args :=
  xdr_struct (fun v => (plus_dir v, (plus_cookie v, (plus_cookieverf v, (plus_dircount v, plus_maxcount v)))))
    (fun '(a, (b, (c, (d, e)))) => mkReaddirplusArgs a b c d e).

Record entry3 : Type := mkEntry3 { entry3_fileid : fileid3; entry3_name : filename3; entry3_cookie : cookie3 }.
#[global] Instance xdr_entry3 : XDR entry3 :=
  xdr_struct (fun v => (entry3_fileid v, (entry3_name v, entry3_cookie v))) (fun '(a, (b, c)) => mkEntry3 a b c).

Record READDIR3args : Type := mkReaddirArgs {
  readdir_dir : nfs_fh3;
  readdir_cookie : cookie3;
  readdir_cookieverf : cookieverf3;
  readdir_dircount : count3
}.
Definition READDIR3args_default : READDIR3args := mkReaddirArgs nfs_fh3_default 0 cookieverf3_default 0.
#[global] Instance xdr_READDIR3args : XDR READDIR3args :=
  xdr_struct (fun v => (readdir_dir v, (readdir_cookie v, (readdir_cookieverf v, readdir_dircount v))))
    (fun '(a, (b, (c, d))) => mkReaddirArgs a b c d).

Record entryplus3 : Type := mkEntryplus {
  entryplus_fileid : fileid3;
  entryplus_name : filename3;
  entryplus_cookie : cookie3;
  name_attributes : post_op_attr;
  name_handle : post_op_fh3
}.
#[global] Instance xdr_entryplus3 : XDR entryplus3 :=
  xdr_struct (fun v => (entryplus_fileid v, (entryplus_name v, (entryplus_cookie v, (name_attributes v, name_handle v)))))
    (fun '(a, (b, (c, (d, e)))) => mkEntryplus a b c d e).

Inductive stable_how : Type := UNSTABLE | DATA_SYNC | FILE_SYNC.
Definition stable_how_code (h : stable_how) : Z := match h with UNSTABLE => 0 | DATA_SYNC => 1 | FILE_SYNC => 2 end.
#[global] Instance xdr_stable_how : XDR stable_how := xdr_enum stable_how_code (from_code stable_how_code [UNSTABLE; DATA_SYNC; FILE_SYNC]).

Record WRITE3args : Type := mkWriteArgs {
  write_file : nfs_fh3;
  write_offset : offset3;
  write_count : count3;
  write_stable : u32;
  write_data : list byte
}.
Definition WRITE3args_default : WRITE3args := mkWriteArgs nfs_fh3_default 0 0 0 [].
#[global] Instance xdr_WRITE3args : XDR WRITE3args :=
  xdr_struct (fun v => (write_file v, (write_offset v, (write_count v, (write_stable v, write_data v)))))
    (fun '(a, (b, (c, (d, e)))) => mkWriteArgs a b c d e).

Record WRITE3resok : Type := mkWriteOk { file_wcc : wcc_data; written_count : count3; committed : stable_how; write_verf : writeverf3 }.
#[global] Instance xdr_WRITE3resok : XDR WRITE3resok :=
  xdr_struct (fun v => (file_wcc v, (written_count v, (committed v, write_verf v)))) (fun '(a, (b, (c, d))) => mkWriteOk a b c d).

Inductive createmode3 : Type := UNCHECKED | GUARDED | EXCLUSIVE.
Definition createmode3_code (m : createmode3) : Z := match m with UNCHECKED => 0 | GUARDED => 1 | EXCLUSIVE => 2 end.
#[global] Instance xdr_createmode3 : XDR createmode3 := xdr_enum createmode3_code (from_code createmode3_code [UNCHECKED; GUARDED; EXCLUSIVE]).

Inductive sattrguard3 : Type := guard_Void | obj_ctime (v : nfstime3).
#[global] Instance xdr_sattrguard3 : XDR sattrguard3 :=
  xdr_bool_union (fun a => match a with guard_Void => None | obj_ctime v => Some v end) guard_Void obj_ctime nfstime3_default.

Record SETATTR3args : Type := mkSetattrArgs { setattr_object : nfs_fh3; new_attribute : sattr3; setattr_guard : sattrguard3 }.
Definition SETATTR3args_default : SETATTR3args := mkSetattrArgs nfs_fh3_default sattr3_default guard_Void.
#[global] Instance xdr_SETATTR3args : XDR SETATTR3args :=
  xdr_struct (fun v => (setattr_object v, (new_attribute v, setattr_guard v))) (fun '(a, (b, c)) => mkSetattrArgs a b c).

Record MKDIR3args : Type := mkMkdirArgs { mkdir_dirops : diropargs3; mkdir_attributes : sattr3 }.
Definition MKDIR3args_default : MKDIR3args := mkMkdirArgs diropargs3_default sattr3_default.
#[global] Instance xdr_MKDIR3args : XDR MKDIR3args :=
  xdr_struct (fun v => (mkdir_dirops v, mkdir_attributes v)) (fun '(a, b) => mkMkdirArgs a b).

Record SYMLINK3args : Type := mkSymlinkArgs { symlink_dirops : diropargs3; symlink_symlink : symlinkdata3 }.
Definition SYMLINK3args_default : SYMLINK3args := mkSymlinkArgs diropargs3_default symlinkdata3_default.
#[global] Instance xdr_SYMLINK3args : XDR SYMLINK3args :=
  xdr_struct (fun v => (symlink_dirops v, symlink_symlink v)) (fun '(a, b) => mkSymlinkArgs a b).

(** ** Procedures *)

(** The attributes in a reply: present when the file system gave them. *)
Definition post_of (r : result nfsstat3 fattr3) : post_op_attr :=
  match r with Ok v => post_attributes v | Err _ => post_Void end.
Definition pre_of (v : fattr3) : pre_op_attr :=
  pre_attributes (mkWccAttr (fattr_size v) (fattr_mtime v) (fattr_ctime v)).
Definition read_write (c : VFSCapabilities) : bool := match c with ReadWrite => true | ReadOnly => false end.

Section Procedures.
Context `{Provided} (overflow_checks : bool).

Definition nfsproc3_null (xid : u32) : handler unit := put (make_success_reply xid).

Definition nfsproc3_getattr (xid : u32) : handler unit :=
  handle ← get nfs_fh3_default;
  match fh_to_id handle with
  | Err stat => put (make_success_reply xid);; put stat
  | Ok id =>
      r ← fs (FsOp.getattr id);
      match r with
      | Ok fh => put (make_success_reply xid);; put NFS3_OK;; put fh
      | Err stat => put (make_success_reply xid);; put stat
      end
  end.

Definition nfsproc3_lookup (xid : u32) : handler unit :=
  dirops ← get diropargs3_default;
  match fh_to_id (dirop_dir dirops) with
  | Err stat => put (make_success_reply xid);; put stat;; put post_Void
  | Ok dirid =>
      dir ← fs (FsOp.getattr dirid);
      let dir_attr := post_of dir in
      r ← fs (FsOp.lookup dirid (dirop_name dirops));
      match r with
      | Ok fid =>
          obj ← fs (FsOp.getattr fid);
          let obj_attr := post_of obj in
          put (make_success_reply xid);; put NFS3_OK;; put (id_to_fh fid);; put obj_attr;; put dir_attr
      | Err stat => put (make_success_reply xid);; put stat;; put dir_attr
      end
  end.

Definition nfsproc3_read (xid : u32) : handler unit :=
  args ← get READ3args_default;
  match fh_to_id (read_file args) with
  | Err stat => put (make_success_reply xid);; put stat;; put post_Void
  | Ok id =>
      obj ← fs (FsOp.getattr id);
      let obj_attr := post_of obj in
      r ← fs (FsOp.read id (read_offset args) (read_count args));
      match r with
      | Ok (bytes, eof) =>
          let res := mkReadOk obj_attr (as_u32 (zlen bytes)) eof bytes in
          put (make_success_reply xid);; put NFS3_OK;; put res
      | Err stat => put (make_success_reply xid);; put stat;; put obj_attr
      end
  end.

Definition nfsproc3_fsinfo (xid : u32) : handler unit :=
  handle ← get nfs_fh3_default;
  match fh_to_id handle with
  | Err stat => put (make_success_reply xid);; put stat;; put post_Void
  | Ok id =>
      r ← lift (fsinfo id);
      match r with
      | Ok info => put (make_success_reply xid);; put NFS3_OK;; put info
      | Err stat => put (make_success_reply xid);; put stat
      end
  end.

Definition nfsproc3_access (xid : u32) : handler unit :=
  handle ← get nfs_fh3_default;
  access ← get (0 : u32);
  match fh_to_id handle with
  | Err stat => put (make_success_reply xid);; put stat;; put post_Void
  | Ok id =>
      obj ← fs (FsOp.getattr id);
      let obj_attr := post_of obj in
      caps ← fs FsOp.capabilities;
      let access : u32 := if negb (read_write caps) then Z.land access (Z.lor ACCESS3_READ ACCESS3_LOOKUP) else access in
      put (make_success_reply xid);; put NFS3_OK;; put obj_attr;; put access
  end.

Definition nfsproc3_pathconf (xid : u32) : handler unit :=
  handle ← get nfs_fh3_default;
  match fh_to_id handle with
  | Err stat => put (make_success_reply xid);; put stat;; put post_Void
  | Ok id =>
      obj ← fs (FsOp.getattr id);
      let res := {|
        pathconf_obj_attributes := post_of obj;
        linkmax := 0;
        name_max := 32768;
        no_trunc := true;
        chown_restricted := true;
        case_insensitive := false;
        case_preserving := true
      |} in
      put (make_success_reply xid);; put NFS3_OK;; put res
  end.

Definition nfsproc3_fsstat (xid : u32) : handler unit :=
  handle ← get nfs_fh3_default;
  match fh_to_id handle with
  | Err stat => put (make_success_reply xid);; put stat;; put post_Void
  | Ok id =>
      obj ← fs (FsOp.getattr id);
      let res := {|
        fsstat_obj_attributes := post_of obj;
        tbytes := 1024 * 1024 * 1024 * 1024;
        fbytes := 1024 * 1024 * 1024 * 1024;
        abytes := 1024 * 1024 * 1024 * 1024;
        tfiles := 1024 * 1024 * 1024;
        ffiles := 1024 * 1024 * 1024;
        afiles := 1024 * 1024 * 1024;
        invarsec := u32_max
      |} in
      put (make_success_reply xid);; put NFS3_OK;; put res
  end.

(** The version of a directory: the cookie verifier of a listing. *)
Definition dirversion (dir : result nfsstat3 fattr3) : cookieverf3 :=
  match dir with
  | Ok a => mkArray (be_bytes 8 (Z.lor (Z.shiftl (seconds (fattr_mtime a)) 32) (nseconds (fattr_mtime a))))
  | Err _ => cookieverf3_default
  end.

(** What an entry adds to the directory bytes: file id, name and cookie. *)
Definition added_dircount (name : filename3) : Z := 8 + 4 + nfsstring_len name + 8.

(** The loop over the entries of a listing. [encode] is the item written for an
    entry, [room] the test whether it still fits. *)
Fixpoint write_entries {X} (encode : X -> option (list byte)) (cost : X -> Z) (room : Z -> Z -> bool)
    (entries : list X) (w : WriteCounter) (accumulated_dircount : Z) : option (WriteCounter * bool) :=
  match entries with
  | [] => Some (w, true)
  | entry :: entries' =>
      write_buf ← encode entry;
      if room (zlen write_buf + bytes_written w) (cost entry + accumulated_dircount)
      then write_entries encode cost room entries' (counter_write write_buf w) (accumulated_dircount + cost entry)
      else Some (w, false)
  end.

(** The head of a listing, its entries, and the end marks. *)
Definition write_listing {X} (xid : u32) (dir_attr : post_op_attr) (version : cookieverf3)
    (encode : X -> option (list byte)) (cost : X -> Z) (room : Z -> Z -> bool) (entries : list X) (last : bool)
    (w : WriteCounter) : option WriteCounter :=
  w ← counter_put (make_success_reply xid) w;
  w ← counter_put NFS3_OK w;
  w ← counter_put dir_attr w;
  w ← counter_put version w;
  '(w, all_entries_written) ← write_entries encode cost room entries w 0;
  w ← counter_put false w;
  if all_entries_written : bool then counter_put last w else counter_put false w.

Definition encode_plus (entry : DirEntry) : option (list byte) :=
  let handle := fh_handle (id_to_fh (entry_fileid entry)) in
  serialize true +++
  serialize {|
    entryplus_fileid := entry_fileid entry;
    entryplus_name := entry_name entry;
    entryplus_cookie := entry_fileid entry;
    name_attributes := post_attributes (entry_attr entry);
    name_handle := handle
  |}.

Definition nfsproc3_readdirplus (xid : u32) : handler unit :=
  args ← get READDIRPLUS3args_default;
  match fh_to_id (plus_dir args) with
  | Err stat => put (make_success_reply xid);; put stat;; put post_Void
  | Ok dirid =>
      dir ← fs (FsOp.getattr dirid);
      let dir_attr := post_of dir in
      match usize_sub overflow_checks (plus_maxcount args) 128 with
      | None => crash
      | Some max_bytes_allowed =>
          let max_dircount_bytes := plus_dircount args in
          r ← fs (FsOp.readdir dirid (plus_cookie args) (plus_dircount args / 16));
          match r with
          | Ok result =>
              counted (write_listing xid dir_attr (dirversion dir) encode_plus (fun e => added_dircount (entry_name e))
                (fun bytes dircount => (bytes <? max_bytes_allowed) && (dircount <? max_dircount_bytes))
                (dir_entries result) (dir_end result))
          | Err stat => put (make_success_reply xid);; put stat;; put dir_attr
          end
      end
  end.

Definition encode_simple (entry : DirEntrySimple) : option (list byte) :=
  serialize true +++ serialize (mkEntry3 (simple_fileid entry) (simple_name entry) (simple_fileid entry)).

Definition nfsproc3_readdir (xid : u32) : handler unit :=
  args ← get READDIR3args_default;
  match fh_to_id (readdir_dir args) with
  | Err stat => put (make_success_reply xid);; put stat;; put post_Void
  | Ok dirid =>
      dir ← fs (FsOp.getattr dirid);
      let dir_attr := post_of dir in
      match usize_sub overflow_checks (readdir_dircount args) 128 with
      | None => crash
      | Some max_bytes_allowed =>
          r ← lift (readdir_simple dirid (readdir_dircount args / 16));
          match r with
          | Ok result =>
              counted (write_listing xid dir_attr (dirversion dir) encode_simple (fun e => added_dircount (simple_name e))
                (fun bytes _ => bytes <? max_bytes_allowed) (simple_entries result) (simple_end result))
          | Err stat => put (make_success_reply xid);; put stat;; put dir_attr
          end
      end
  end.

(** The head of every procedure that changes the file system. *)
Definition if_writable (xid : u32) (k : handler unit) : handler unit :=
  caps ← fs FsOp.capabilities;
  if negb (read_write caps)
  then put (make_success_reply xid);; put NFS3ERR_ROFS;; put wcc_data_default
  else k.

(** An error reply with the weak cache consistency data left out. *)
Definition fail_wcc (xid : u32) (stat : nfsstat3) : handler unit :=
  put (make_success_reply xid);; put stat;; put wcc_data_default.

Definition nfsproc3_write (xid : u32) : handler unit :=
  if_writable xid (
    args ← get WRITE3args_default;
    if negb (zlen (write_data args) =? write_count args) then put (garbage_args_reply_message xid)
    else match fh_to_id (write_file args) with
    | Err stat => fail_wcc xid stat
    | Ok id =>
        obj ← fs (FsOp.getattr id);
        let pre_obj_attr := match obj with Ok v => pre_of v | Err _ => pre_Void end in
        r ← fs (FsOp.write id (write_offset args) (write_data args));
        match r with
        | Ok fattr =>
            let res := {|
              file_wcc := mkWcc pre_obj_attr (post_attributes fattr);
              written_count := write_count args;
              committed := FILE_SYNC;
              write_verf := serverid
            |} in
            put (make_success_reply xid);; put NFS3_OK;; put res
        | Err stat => fail_wcc xid stat
        end
    end).

Definition nfsproc3_create (xid : u32) : handler unit :=
  if_writable xid (
    dirops ← get diropargs3_default;
    createhow ← get UNCHECKED;
    match fh_to_id (dirop_dir dirops) with
    | Err stat => fail_wcc xid stat
    | Ok dirid =>
        dir ← fs (FsOp.getattr dirid);
        match dir with
        | Err stat => fail_wcc xid stat
        | Ok v =>
            let pre_dir_attr := pre_of v in
            (* the attributes, or [None] when the reply is already written *)
            target ← (match createhow with
              | UNCHECKED => a ← get sattr3_default; mret (Some a)
              | GUARDED =>
                  a ← get sattr3_default;
                  found ← fs (FsOp.lookup dirid (dirop_name dirops));
                  match found with
                  | Ok _ =>
                      post ← fs (FsOp.getattr dirid);
                      put (make_success_reply xid);; put NFS3ERR_EXIST;; put (mkWcc pre_dir_attr (post_of post));; mret None
                  | Err _ => mret (Some a)
                  end
              | EXCLUSIVE => mret (Some sattr3_default)
              end : handler (option sattr3));
            match target with
            | None => mret tt
            | Some target_attributes =>
                created ← (match createhow with
                  | EXCLUSIVE => r ← fs (FsOp.create_exclusive dirid (dirop_name dirops)); mret (r, post_Void)
                  | _ =>
                      r ← fs (FsOp.create dirid (dirop_name dirops) target_attributes);
                      mret (match r with Ok x => (Ok x.1, post_attributes x.2) | Err e => (Err e, post_Void) end)
                  end : handler (result nfsstat3 fileid3 * post_op_attr));
                post ← fs (FsOp.getattr dirid);
                let wcc_res := mkWcc pre_dir_attr (post_of post) in
                match created.1 with
                | Ok fid =>
                    put (make_success_reply xid);; put NFS3_OK;; put (fh_handle (id_to_fh fid));; put created.2;; put wcc_res
                | Err e => put (make_success_reply xid);; put e;; put wcc_res
                end
            end
        end
    end).

Definition nfsproc3_setattr (xid : u32) : handler unit :=
  if_writable xid (
    args ← get SETATTR3args_default;
    match fh_to_id (setattr_object args) with
    | Err stat => put (make_success_reply xid);; put stat
    | Ok id =>
        obj ← fs (FsOp.getattr id);
        match obj with
        | Err stat => fail_wcc xid stat
        | Ok v =>
            let ctime := fattr_ctime v in
            match setattr_guard args with
            | guard_Void => mret tt
            | obj_ctime c =>
                if negb (seconds c =? seconds ctime) || negb (nseconds c =? nseconds ctime)
                then fail_wcc xid NFS3ERR_NOT_SYNC
                else mret tt
            end;;
            r ← fs (FsOp.setattr id (new_attribute args));
            match r with
            | Ok post =>
                put (make_success_reply xid);; put NFS3_OK;; put (mkWcc (pre_of v) (post_attributes post))
            | Err stat => fail_wcc xid stat
            end
        end
    end).

Definition nfsproc3_remove (xid : u32) : handler unit :=
  if_writable xid (
    dirops ← get diropargs3_default;
    match fh_to_id (dirop_dir dirops) with
    | Err stat => fail_wcc xid stat
    | Ok dirid =>
        dir ← fs (FsOp.getattr dirid);
        match dir with
        | Err stat => fail_wcc xid stat
        | Ok v =>
            res ← fs (FsOp.remove dirid (dirop_name dirops));
            post ← fs (FsOp.getattr dirid);
            let wcc_res := mkWcc (pre_of v) (post_of post) in
            match res with
            | Ok _ => put (make_success_reply xid);; put NFS3_OK;; put wcc_res
            | Err e => put (make_success_reply xid);; put e;; put wcc_res
            end
        end
    end).

Definition nfsproc3_rename (xid : u32) : handler unit :=
  if_writable xid (
    fromdirops ← get diropargs3_default;
    todirops ← get diropargs3_default;
    match fh_to_id (dirop_dir fromdirops) with
    | Err stat => fail_wcc xid stat
    | Ok from_dirid =>
    match fh_to_id (dirop_dir todirops) with
    | Err stat => fail_wcc xid stat
    | Ok to_dirid =>
        from_dir ← fs (FsOp.getattr from_dirid);
        match from_dir with
        | Err stat => fail_wcc xid stat
        | Ok from_v =>
            to_dir ← fs (FsOp.getattr to_dirid);
            match to_dir with
            | Err stat => fail_wcc xid stat
            | Ok to_v =>
                res ← fs (FsOp.rename from_dirid (dirop_name fromdirops) to_dirid (dirop_name todirops));
                post_from ← fs (FsOp.getattr from_dirid);
                post_to ← fs (FsOp.getattr to_dirid);
                let from_wcc_res := mkWcc (pre_of from_v) (post_of post_from) in
                let to_wcc_res := mkWcc (pre_of to_v) (post_of post_to) in
                match res with
                | Ok _ => put (make_success_reply xid);; put NFS3_OK;; put from_wcc_res;; put to_wcc_res
                | Err e => put (make_success_reply xid);; put e;; put from_wcc_res;; put to_wcc_res
                end
            end
        end
    end
    end).

Definition nfsproc3_mkdir (xid : u32) : handler unit :=
  if_writable xid (
    args ← get MKDIR3args_default;
    match fh_to_id (dirop_dir (mkdir_dirops args)) with
    | Err stat => fail_wcc xid stat
    | Ok dirid =>
        dir ← fs (FsOp.getattr dirid);
        match dir with
        | Err stat => fail_wcc xid stat
        | Ok v =>
            res ← fs (FsOp.mkdir dirid (dirop_name (mkdir_dirops args)));
            post ← fs (FsOp.getattr dirid);
            let wcc_res := mkWcc (pre_of v) (post_of post) in
            match res with
            | Ok (fid, fattr) =>
                put (make_success_reply xid);; put NFS3_OK;; put (fh_handle (id_to_fh fid));;
                put (post_attributes fattr);; put wcc_res
            | Err e => put (make_success_reply xid);; put e;; put wcc_res
            end
        end
    end).

Definition nfsproc3_symlink (xid : u32) : handler unit :=
  if_writable xid (
    args ← get SYMLINK3args_default;
    match fh_to_id (dirop_dir (symlink_dirops args)) with
    | Err stat => fail_wcc xid stat
    | Ok dirid =>
        dir ← fs (FsOp.getattr dirid);
        match dir with
        | Err stat => fail_wcc xid stat
        | Ok v =>
            res ← fs (FsOp.symlink dirid (dirop_name (symlink_dirops args)) (symlink_data (symlink_symlink args))
              (symlink_attributes (symlink_symlink args)));
            post ← fs (FsOp.getattr dirid);
            let wcc_res := mkWcc (pre_of v) (post_of post) in
            match res with
            | Ok (fid, fattr) =>
                put (make_success_reply xid);; put NFS3_OK;; put (fh_handle (id_to_fh fid));;
                put (post_attributes fattr);; put wcc_res
            | Err e => put (make_success_reply xid);; put e;; put wcc_res
            end
        end
    end).

Definition nfsproc3_readlink (xid : u32) : handler unit :=
  handle ← get nfs_fh3_default;
  match fh_to_id handle with
  | Err stat => put (make_success_reply xid);; put stat
  | Ok id =>
      obj ← fs (FsOp.getattr id);
      match obj with
      | Err stat => put (make_success_reply xid);; put stat;; put post_Void
      | Ok v =>
          let symlink_attr := post_attributes v in
          r ← fs (FsOp.readlink id);
          match r with
          | Ok path => put (make_success_reply xid);; put NFS3_OK;; put symlink_attr;; put path
          | Err stat => put (make_success_reply xid);; put stat;; put symlink_attr
          end
      end
  end.

Definition handle_nfs (xid : u32) (call : call_body) : handler unit :=
  if negb (vers call =? VERSION) then put (prog_mismatch_reply_message xid VERSION)
  else match default INVALID (from_code NFSProgram_code NFSProgram_all (proc call)) with
  | NFSPROC3_NULL => nfsproc3_null xid
  | NFSPROC3_GETATTR => nfsproc3_getattr xid
  | NFSPROC3_LOOKUP => nfsproc3_lookup xid
  | NFSPROC3_READ => nfsproc3_read xid
  | NFSPROC3_FSINFO => nfsproc3_fsinfo xid
  | NFSPROC3_ACCESS => nfsproc3_access xid
  | NFSPROC3_PATHCONF => nfsproc3_pathconf xid
  | NFSPROC3_FSSTAT => nfsproc3_fsstat xid
  | NFSPROC3_READDIR => nfsproc3_readdir xid
  | NFSPROC3_READDIRPLUS => nfsproc3_readdirplus xid
  | NFSPROC3_WRITE => nfsproc3_write xid
  | NFSPROC3_CREATE => nfsproc3_create xid
  | NFSPROC3_SETATTR => nfsproc3_setattr xid
  | NFSPROC3_REMOVE => nfsproc3_remove xid
  | NFSPROC3_RMDIR => nfsproc3_remove xid
  | NFSPROC3_RENAME => nfsproc3_rename xid
  | NFSPROC3_MKDIR => nfsproc3_mkdir xid
  | NFSPROC3_SYMLINK => nfsproc3_symlink xid
  | NFSPROC3_READLINK => nfsproc3_readlink xid
  | NFSPROC3_MKNOD | NFSPROC3_LINK | NFSPROC3_COMMIT | INVALID => put (proc_unavail_reply_message xid)
  end.
End Procedures.
