(* ===== verification/LegacyReplies.v ===== *)
(** * What the procedures of the demo server answer

    A small program logic for handlers ([writes]: what is appended to the output,
    which effects are performed), the result types that RFC 1813 gives each
    procedure (as quoted in [src/nfs_handlers.rs]), and the theorems that every
    reply is a value of its result type, with the exceptions the code makes; that a
    call fails just where its arguments cannot be read ([reading]); that
    a read-only file system is never changed; and that a listing is a prefix of
    the directory within the client's limits. *)
From S2P Require Import Prelude Xdr LegacyMessage LegacyNfs Free LegacyVfs LegacyHandlers.
From stdpp Require Import list sets.
#[local] Open Scope Z_scope.

(** ** Types whose every value can be encoded *)

Class Encodable (A : Type) `{XDR A} : Prop := encodable : forall v : A, is_Some (serialize v).

#[global] Instance encodable_u32 : Encodable u32.
Proof. by eexists. Qed.
#[global] Instance encodable_u64 : Encodable u64.
Proof. by eexists. Qed.
#[global] Instance encodable_bool : Encodable bool.
Proof. by eexists. Qed.
#[global] Instance encodable_unit : Encodable unit.
Proof. by eexists. Qed.
#[global] Instance encodable_array n : Encodable (array n).
Proof. by eexists. Qed.
#[global] Instance encodable_pair {A B} `{Encodable A} `{Encodable B} : Encodable (A * B).
Proof.
  intros [a b]. destruct (encodable a) as [x Hx]. destruct (encodable b) as [y Hy]. exists (x ++ y).
  cbn [serialize xdr_pair fst snd]. by rewrite Hx, Hy.
Qed.
Lemma encodable_struct {A F} `{Encodable F} (fields : A -> F) (make : F -> A) : @Encodable A (xdr_struct fields make).
Proof. intros v. apply (encodable (fields v)). Qed.
Lemma encodable_enum {A} (code : A -> Z) (from : Z -> option A) : @Encodable A (xdr_enum code from).
Proof. by eexists. Qed.
Lemma encodable_bool_union {A V} `{Encodable V} (case : A -> option V) void make default :
  @Encodable A (xdr_bool_union case void make default).
Proof.
  intros v. cbn [serialize xdr_bool_union]. destruct (case v) as [w|]; [|by eexists].
  destruct (encodable w) as [y Hy]. cbn [serialize xdr_bool]. rewrite Hy. by eexists.
Qed.
#[export] Hint Extern 1 (@Encodable _ (xdr_struct _ _)) => apply encodable_struct : typeclass_instances.
#[export] Hint Extern 1 (@Encodable _ (xdr_enum _ _)) => apply encodable_enum : typeclass_instances.
#[export] Hint Extern 1 (@Encodable _ (xdr_bool_union _ _ _ _)) => apply encodable_bool_union : typeclass_instances.

#[global] Instance encodable_nfsstat3 : Encodable nfsstat3 := encodable_enum _ _.
#[global] Instance encodable_ftype3 : Encodable ftype3 := encodable_enum _ _.
#[global] Instance encodable_nfstime3 : Encodable nfstime3 := encodable_struct _ _.
#[global] Instance encodable_specdata3 : Encodable specdata3 := encodable_struct _ _.
#[global] Instance encodable_fattr3 : Encodable fattr3 := encodable_struct _ _.
#[global] Instance encodable_wcc_attr : Encodable wcc_attr := encodable_struct _ _.
#[global] Instance encodable_pre_op_attr : Encodable pre_op_attr := encodable_bool_union _ _ _ _.
#[global] Instance encodable_post_op_attr : Encodable post_op_attr := encodable_bool_union _ _ _ _.
#[global] Instance encodable_wcc_data : Encodable wcc_data := encodable_struct _ _.
#[global] Instance encodable_fsinfo3 : Encodable fsinfo3 := encodable_struct _ _.
#[global] Instance encodable_PATHCONF3resok : Encodable PATHCONF3resok := encodable_struct _ _.
#[global] Instance encodable_FSSTAT3resok : Encodable FSSTAT3resok := encodable_struct _ _.
#[global] Instance encodable_stable_how : Encodable stable_how := encodable_enum _ _.
#[global] Instance encodable_WRITE3resok : Encodable WRITE3resok := encodable_struct _ _.

(** Data whose length fits: a lawful value within its bounds. *)
Lemma lawful_encodes {A} `{Lawful A} (v : A) : wf v -> is_Some (serialize v).
Proof. intros Hv. destruct (roundtrip v Hv) as (b & Hb & _). by exists b. Qed.

(** ** The logic *)

Section Logic.
Context (C : Prop) (P : demo_effect -> Prop) (R : forall e : demo_effect, reply_of e -> Prop).

(** The handler appends [w] to the output and [Q] holds of its result and of
    [w]; if it fails, then because the arguments could not be read. *)
Definition writes {A} (Q : A -> list byte -> Prop) (m : handler A) : Prop :=
  forall i o, fwp C P R (fun r : result Failure (A * (list byte * list byte)) =>
    match r with
    | Ok (a, (i', o')) => exists w, o' = o ++ w /\ Q a w
    | Err e => exists x, e = Io x
    end) (m (i, o)).

Lemma writes_ret {A} Q (a : A) : Q a [] -> writes Q (mret a).
Proof. intros HQ i o. exists []. by rewrite app_nil_r. Qed.

Lemma writes_bind {A B} Q (m : handler A) (f : A -> handler B) :
  writes (fun a w => writes (fun b w' => Q b (w ++ w')) (f a)) m -> writes Q (m ≫= f).
Proof.
  intros Hm i o. unfold mbind, handler_bind. apply fwp_bind. eapply fwp_mono; [..|apply Hm]; [done|done|done|].
  intros [[a [i' o']]|e]; [|done]. intros (w & -> & Hf). eapply fwp_mono; [..|apply Hf]; [done|done|done|].
  intros [[b [i'' o'']]|e]; [|done]. intros (w' & -> & HQ). exists (w ++ w'). by rewrite app_assoc.
Qed.

Lemma writes_mono {A} (Q1 Q2 : A -> list byte -> Prop) m : (forall a w, Q1 a w -> Q2 a w) -> writes Q1 m -> writes Q2 m.
Proof.
  intros HQ Hm i o. eapply fwp_mono; [..|apply Hm]; [done|done|done|]. intros [[a [i' o']]|e]; [|done].
  intros (w & -> & H1). eauto.
Qed.

Lemma writes_get {A} `{XDR A} (d : A) Q : (forall v, Q v []) -> writes Q (get d).
Proof.
  intros HQ i o. unfold get. cbn [fst snd]. destruct (deserialize d i) as [[v i']|e]; simpl; [|by eexists].
  exists []. by rewrite app_nil_r.
Qed.

Lemma writes_put {A} `{XDR A} (v : A) (Q : unit -> list byte -> Prop) :
  is_Some (serialize v) -> (forall b, serialize v = Some b -> Q tt b) -> writes Q (put v).
Proof. intros [b Hb] HQ i o. unfold put. cbn [fst snd]. rewrite Hb. simpl. eauto. Qed.

Lemma writes_lift {A} (p : prog A) (Q : A -> list byte -> Prop) : fwp C P R (fun a => Q a []) p -> writes Q (lift p).
Proof.
  intros Hp i o. unfold lift. apply fwp_bind. eapply fwp_mono; [..|apply Hp]; [done|done|done|].
  intros a Ha. exists []. by rewrite app_nil_r.
Qed.

Lemma writes_fs op (Q : FsOp.response op -> list byte -> Prop) :
  P (Fs op) -> (forall r, R (Fs op) r -> Q r []) -> writes Q (fs op).
Proof. intros HP HQ. apply writes_lift. by split. Qed.

Lemma writes_crash {A} (Q : A -> list byte -> Prop) : C -> writes Q crash.
Proof. by intros HC i o. Qed.

Lemma writes_counted f (Q : unit -> list byte -> Prop) :
  (forall o, exists w, f (counter_new o) = Some w /\ exists b, inner w = o ++ b /\ Q tt b) -> writes Q (counted f).
Proof. intros Hf i o. unfold counted. cbn [fst snd]. destruct (Hf o) as (w & -> & b & -> & HQ). simpl. eauto. Qed.
End Logic.

(** ** Listings *)

(** [entry3 *entries; bool eof]: an optional-data list. *)
Record dirlist (X : Type) : Type := mkDirlist { listed : list X; list_eof : bool }.
Arguments mkDirlist {X} _ _.
Arguments listed {X} _.
Arguments list_eof {X} _.

Fixpoint encode_list {X} (encode : X -> option (list byte)) (l : list X) : option (list byte) :=
  match l with [] => Some [] | x :: l' => encode x +++ encode_list encode l' end.

Fixpoint read_list {X} `{XDR X} (default : X) (fuel : nat) (s : list byte) : result XdrError (list X * list byte) :=
  match fuel with
  | O => Err UnexpectedEof
  | S fuel' =>
      '(more, s1) ← deserialize false s;
      if more : bool then '(x, s2) ← deserialize default s1; '(l, s3) ← read_list default fuel' s2; Ok (x :: l, s3)
      else Ok ([], s1)
  end.

(** What a client reads and writes; each entry takes at least four bytes, so the
    length of the input is enough fuel. *)
Definition xdr_dirlist {X} `{XDR X} (default : X) : XDR (dirlist X) := {|
  serialize d := encode_list (fun x => serialize true +++ serialize x) (listed d) +++ serialize false +++ serialize (list_eof d);
  deserialize _ s :=
    '(l, s1) ← read_list default (S (length s)) s;
    '(e, s2) ← deserialize false s1;
    Ok (mkDirlist l e, s2)
|}.

Lemma bool_encoding b rest : deserialize false (be_bytes 4 (if b : bool then 1 else 0) ++ rest) = Ok (b, rest).
Proof. destruct (@roundtrip bool xdr_bool lawful_bool b I) as (x & Hx & Hr). injection Hx as <-. apply Hr. Qed.

Lemma read_list_encoded {X} `{Lawful X} (default : X) l rest fuel :
  Forall wf l -> (length l < fuel)%nat -> exists b, encode_list (fun x => serialize true +++ serialize x) l = Some b /\
    (4 * length l <= length b)%nat /\ read_list default fuel (b ++ be_bytes 4 0 ++ rest) = Ok (l, rest).
Proof.
  intros Hl. revert fuel. induction Hl as [|x l Hx Hl IH]; intros fuel Hf; (destruct fuel as [|fuel]; [lia|]).
  - exists []. split_and!; [done|simpl; lia|]. cbn [read_list app]. by rewrite (bool_encoding false).
  - destruct (IH fuel ltac:(simpl in Hf; lia)) as (b & Hb & Hlen & Hr). destruct (roundtrip x Hx) as (y & Hy & Hd).
    exists ((be_bytes 4 1 ++ y) ++ b). cbn [encode_list]. rewrite Hy, Hb. split_and!; [done| |].
    + rewrite !length_app, length_be_bytes. simpl. lia.
    + rewrite <- !app_assoc. cbn [read_list]. rewrite (bool_encoding true). cbn [mbind result_bind].
      rewrite Hd. cbn [mbind result_bind]. by rewrite Hr.
Qed.

Definition lawful_dirlist {X} `{Lawful X} (default : X) : @Lawful (dirlist X) (xdr_dirlist default).
Proof.
  refine (@Build_Lawful (dirlist X) (xdr_dirlist default) (fun d => Forall wf (listed d)) _). intros [l e] Hl. cbn [listed] in Hl.
  destruct (read_list_encoded default l [] (S (length l)) Hl ltac:(lia)) as (b & Hb & Hlen & _).
  exists (b ++ be_bytes 4 0 ++ be_bytes 4 (if e then 1 else 0)). cbn [serialize deserialize xdr_dirlist listed list_eof].
  split; [by rewrite Hb|]. intros self rest. rewrite <- !app_assoc.
  destruct (read_list_encoded default l (be_bytes 4 (if e then 1 else 0) ++ rest)
    (S (length (b ++ be_bytes 4 0 ++ be_bytes 4 (if e then 1 else 0) ++ rest))) Hl) as (b' & Hb' & _ & Hr).
  { rewrite !length_app. lia. }
  rewrite Hb in Hb'. injection Hb' as <-. rewrite Hr. cbn [mbind result_bind]. by rewrite bool_encoding.
Defined.

(** ** The loop over the entries *)

Section Entries.
Context {X : Type} (encode : X -> option (list byte)) (cost : X -> Z) (room : Z -> Z -> bool).

Definition total_cost (l : list X) : Z := fold_right (fun x n => cost x + n) 0 l.

(** The loop writes a prefix of the entries: every entry of it had room when its
    turn came, and the next one, if there is one, has not. *)
Lemma write_entries_prefix entries w acc :
  Forall (fun e => is_Some (encode e)) entries ->
  exists n b, (n <= length entries)%nat /\ encode_list encode (take n entries) = Some b /\
    write_entries encode cost room entries w acc = Some (counter_write b w, bool_decide (n = length entries)) /\
    (n = 0%nat \/ room (zlen b + count w) (total_cost (take n entries) + acc) = true) /\
    (forall x bx, entries !! n = Some x -> encode x = Some bx ->
      room (zlen bx + (count w + zlen b)) (cost x + (total_cost (take n entries) + acc)) = false).
Proof.
  revert w acc. induction entries as [|e entries IH]; intros w acc Hs.
  - exists 0%nat, []. split_and!; [done|done| |by left|done]. destruct w as [i c]. cbn [write_entries]. unfold counter_write. cbn [inner count].
    by rewrite app_nil_r, zlen_nil, Z.add_0_r.
  - apply Forall_cons in Hs as [[be Hbe] Hs]. cbn [write_entries]. rewrite Hbe. cbn [mbind option_bind].
    unfold bytes_written. destruct (room (zlen be + count w) (cost e + acc)) eqn:Er.
    + destruct (IH (counter_write be w) (acc + cost e) Hs) as (n & b & Hn & Hb & Hw & Hroom & Hnext).
      assert (forall z, (cost e + z + acc) = (z + (acc + cost e))) as Hc by (intros; lia).
      exists (S n), (be ++ b). cbn [length take encode_list total_cost fold_right]. fold (total_cost (take n entries)).
      rewrite Hbe, Hb. split_and!; [lia|done| | |].
      * rewrite Hw. unfold counter_write. cbn [inner count]. rewrite <- app_assoc, zlen_app, Z.add_assoc.
        do 2 f_equal. apply bool_decide_ext. lia.
      * right. unfold counter_write in Hroom. cbn [count] in Hroom. rewrite Hc, zlen_app.
        destruct Hroom as [->|Hroom].
        -- cbn [take encode_list] in Hb. injection Hb as <-. cbn [take total_cost fold_right]. rewrite zlen_nil. rewrite <- Er. f_equal; [lia|]. change (total_cost (take 0 entries)) with 0. lia.
        -- rewrite <- Hroom. f_equal; lia.
      * intros x bx Hx Hbx. unfold counter_write in Hnext. cbn [count] in Hnext. rewrite <- (Hnext x bx Hx Hbx).
        rewrite Hc, zlen_app. f_equal; lia.
    + exists 0%nat, []. cbn [take encode_list total_cost fold_right length]. split_and!; [lia|done| |by left|].
      * destruct w as [i c]. unfold counter_write. cbn [inner count]. by rewrite app_nil_r, zlen_nil, Z.add_0_r.
      * intros x bx [= <-] Hbx. rewrite Hbe in Hbx. injection Hbx as <-. rewrite zlen_nil, Z.add_0_r. exact Er.
Qed.
End Entries.

Lemma counter_put_some {A} `{XDR A} (v : A) b w : serialize v = Some b -> counter_put v w = Some (counter_write b w).
Proof. intros Hb. unfold counter_put. by rewrite Hb. Qed.

Lemma success_encodes xid : exists h, serialize (make_success_reply xid) = Some h /\ zlen h = 24.
Proof. eexists. split; [reflexivity|]. vm_compute. reflexivity. Qed.

(** A listing: the head, a prefix of the entries, the end marks. [eof] is claimed
    only when every entry was written and the file system says there are no
    more. *)
Lemma write_listing_prefix {X} xid dir_attr version (encode : X -> option (list byte)) cost room entries last o :
  Forall (fun e => is_Some (encode e)) entries ->
  exists n b h head, (n <= length entries)%nat /\ encode_list encode (take n entries) = Some b /\
    serialize (make_success_reply xid) = Some h /\ serialize (NFS3_OK, (dir_attr, version)) = Some head /\
    (exists w, write_listing xid dir_attr version encode cost room entries last (counter_new o) = Some w /\
      inner w = o ++ h ++ head ++ b ++ be_bytes 4 0 ++ be_bytes 4 (if bool_decide (n = length entries) && last then 1 else 0)) /\
    (n = 0%nat \/ room (zlen (h ++ head ++ b)) (total_cost cost (take n entries)) = true) /\
    (forall x bx, entries !! n = Some x -> encode x = Some bx ->
      room (zlen (h ++ head ++ b ++ bx)) (total_cost cost (take n entries ++ [x])) = false).
Proof.
  intros Hs. destruct (encodable dir_attr) as [d Hd]. destruct (success_encodes xid) as (h & Hh & _).
  assert (forall l x, total_cost cost (l ++ [x]) = cost x + (total_cost cost l + 0)) as Htc.
  { intros l x. induction l as [|y l IH]; cbn [total_cost fold_right app] in *; [lia|]. fold (total_cost cost (l ++ [x])). fold (total_cost cost l). lia. }
  unfold write_listing. rewrite (counter_put_some _ _ _ Hh). cbn [mbind option_bind].
  rewrite (counter_put_some NFS3_OK (be_bytes 4 0)) by done. cbn [mbind option_bind].
  rewrite (counter_put_some _ _ _ Hd). cbn [mbind option_bind].
  rewrite (counter_put_some version (array_bytes version)) by done. cbn [mbind option_bind].
  set (w0 := counter_write _ _). assert (count w0 = zlen (h ++ be_bytes 4 0 ++ d ++ array_bytes version)) as Hc.
  { unfold w0, counter_write, counter_new. cbn [count]. rewrite !zlen_app. lia. }
  assert (inner w0 = o ++ h ++ be_bytes 4 0 ++ d ++ array_bytes version) as Hi.
  { unfold w0, counter_write, counter_new. cbn [inner]. by rewrite <- !app_assoc. }
  clearbody w0. destruct (write_entries_prefix encode cost room entries w0 0 Hs) as (n & b & Hn & Hb & Hw & Hroom & Hnext).
  exists n, b, h, (be_bytes 4 0 ++ d ++ array_bytes version). split_and!; try done.
  - cbn [serialize xdr_pair fst snd]. by rewrite Hd.
  - rewrite Hw. cbn [mbind option_bind]. rewrite (counter_put_some false (be_bytes 4 0)) by done. cbn [mbind option_bind].
    destruct (bool_decide (n = length entries)); cbn [andb]; (eexists; split; [by apply counter_put_some|]);
      unfold counter_write; cbn [inner]; rewrite Hi; by rewrite <- !app_assoc.
  - destruct Hroom as [->|Hroom]; [by left|right]. rewrite <- Hroom, Hc. f_equal; [|lia]. rewrite !zlen_app. lia.
  - intros x bx Hx Hbx. rewrite <- (Hnext x bx Hx Hbx), Htc, Hc. f_equal. rewrite !zlen_app. lia.
Qed.

(** ** Result types *)

Inductive result_type : Type := Result (A B : Type) (xa : XDR A) (xb : XDR B).
Arguments Result _ _ {_ _}.

(** [union res switch (nfsstat3 status) { case NFS3_OK: A; default: B }] *)
Definition conforms (t : result_type) (body : list byte) : Prop :=
  match t with
  | Result A B =>
      (exists v : A, serialize (NFS3_OK, v) = Some body) \/
      (exists stat (v : B), stat <> NFS3_OK /\ serialize (stat, v) = Some body)
  end.

Definition entry3_default : entry3 := mkEntry3 0 nfsstring_default 0.
Definition entryplus3_default : entryplus3 := mkEntryplus 0 nfsstring_default 0 post_Void fh_Void.
#[global] Instance xdr_dirlist3 : XDR (dirlist entry3) := xdr_dirlist entry3_default.
#[global] Instance xdr_dirlistplus3 : XDR (dirlist entryplus3) := xdr_dirlist entryplus3_default.

Definition result_of (p : NFSProgram) : option result_type :=
  match p with
  | NFSPROC3_GETATTR => Some (Result fattr3 unit)
  | NFSPROC3_SETATTR | NFSPROC3_REMOVE | NFSPROC3_RMDIR => Some (Result wcc_data wcc_data)
  | NFSPROC3_LOOKUP => Some (Result (nfs_fh3 * (post_op_attr * post_op_attr)) post_op_attr)
  | NFSPROC3_ACCESS => Some (Result (post_op_attr * u32) post_op_attr)
  | NFSPROC3_READLINK => Some (Result (post_op_attr * nfspath3) post_op_attr)
  | NFSPROC3_READ => Some (Result READ3resok post_op_attr)
  | NFSPROC3_WRITE => Some (Result WRITE3resok wcc_data)
  | NFSPROC3_CREATE | NFSPROC3_MKDIR | NFSPROC3_SYMLINK =>
      Some (Result (post_op_fh3 * (post_op_attr * wcc_data)) wcc_data)
  | NFSPROC3_RENAME => Some (Result (wcc_data * wcc_data) (wcc_data * wcc_data))
  | NFSPROC3_READDIR => Some (Result (post_op_attr * (cookieverf3 * dirlist entry3)) post_op_attr)
  | NFSPROC3_READDIRPLUS => Some (Result (post_op_attr * (cookieverf3 * dirlist entryplus3)) post_op_attr)
  | NFSPROC3_FSSTAT => Some (Result FSSTAT3resok post_op_attr)
  | NFSPROC3_FSINFO => Some (Result fsinfo3 post_op_attr)
  | NFSPROC3_PATHCONF => Some (Result PATHCONF3resok post_op_attr)
  | NFSPROC3_NULL | NFSPROC3_MKNOD | NFSPROC3_LINK | NFSPROC3_COMMIT | INVALID => None
  end.

(** The replies of procedure [p]. The last three cases are what the code answers
    outside its result type: an error status without the data that belongs to it
    (four procedures, RENAME with a part of it), and two replies in one. *)
Inductive proc_reply (xid : u32) (p : NFSProgram) : list byte -> Prop :=
| reply_unavailable w :
    p ∈ [NFSPROC3_MKNOD; NFSPROC3_LINK; NFSPROC3_COMMIT; INVALID] ->
    serialize (proc_unavail_reply_message xid) = Some w -> proc_reply xid p w
| reply_null w : p = NFSPROC3_NULL -> serialize (make_success_reply xid) = Some w -> proc_reply xid p w
| reply_garbage w : p = NFSPROC3_WRITE -> serialize (garbage_args_reply_message xid) = Some w -> proc_reply xid p w
| reply_result t h body :
    result_of p = Some t -> serialize (make_success_reply xid) = Some h -> conforms t body -> proc_reply xid p (h ++ body)
| reply_status_only stat h body :
    p ∈ [NFSPROC3_SETATTR; NFSPROC3_READLINK; NFSPROC3_FSINFO] -> stat <> NFS3_OK ->
    serialize (make_success_reply xid) = Some h -> serialize stat = Some body -> proc_reply xid p (h ++ body)
| reply_one_wcc stat h body :
    p = NFSPROC3_RENAME -> stat <> NFS3_OK ->
    serialize (make_success_reply xid) = Some h -> serialize (stat, wcc_data_default) = Some body -> proc_reply xid p (h ++ body)
| reply_twice h body1 body2 :
    p = NFSPROC3_SETATTR -> serialize (make_success_reply xid) = Some h ->
    serialize (NFS3ERR_NOT_SYNC, wcc_data_default) = Some body1 -> conforms (Result wcc_data wcc_data) body2 ->
    proc_reply xid p ((h ++ body1) ++ (h ++ body2)).

(** ** Assumptions on the file system *)

Definition honest {A} (ok : A -> Prop) (r : result nfsstat3 A) : Prop :=
  match r with Ok a => ok a | Err stat => stat <> NFS3_OK end.

(** Errors are not [NFS3_OK], and data can be encoded; the capabilities are [c]. *)
Definition answers (c : VFSCapabilities) (e : demo_effect) : reply_of e -> Prop :=
  match e with
  | Fs op =>
      match op as op return FsOp.response op -> Prop with
      | FsOp.capabilities => fun r => r = c
      | FsOp.root_dir => fun _ => True
      | FsOp.lookup _ _ => honest (fun _ => True)
      | FsOp.getattr _ => honest (fun _ => True)
      | FsOp.setattr _ _ => honest (fun _ => True)
      | FsOp.read _ _ _ => honest (fun '(data, _) => zlen data < u32_max)
      | FsOp.write _ _ _ => honest (fun _ => True)
      | FsOp.create _ _ _ => honest (fun _ => True)
      | FsOp.create_exclusive _ _ => honest (fun _ => True)
      | FsOp.mkdir _ _ => honest (fun _ => True)
      | FsOp.remove _ _ => honest (fun _ => True)
      | FsOp.rename _ _ _ _ => honest (fun _ => True)
      | FsOp.readdir _ _ _ => honest (fun d => Forall (fun e => wf (entry_name e)) (dir_entries d))
      | FsOp.symlink _ _ _ _ => honest (fun _ => True)
      | FsOp.readlink _ => honest wf
      end
  | _ => fun _ => True
  end.

(** File system calls only, and changing ones only on a writable file system. *)
Definition effects (c : VFSCapabilities) (e : demo_effect) : Prop :=
  match e with Fs op => FsOp.mutates op = true -> c = ReadWrite | _ => False end.

(** What the handlers rely on of the provided methods. *)
Class ProvidedLaws `{Provided} : Prop := {
  handles_fit id : wf (id_to_fh id);
  handle_errors fh : honest (fun _ => True) (fh_to_id fh);
  fsinfo_sane c id : fwp False (effects c) (answers c) (honest (fun _ => True)) (fsinfo id);
  readdir_simple_sane c dirid n :
    fwp False (effects c) (answers c) (honest (fun d => Forall (fun e => wf (simple_name e)) (simple_entries d)))
      (readdir_simple dirid n);
  path_to_id_sane c path : fwp False (effects c) (answers c) (fun _ => True) (path_to_id path)
}.

Lemma walk_sane c splits fid : fwp False (effects c) (answers c) (fun _ => True) (walk fid splits).
Proof.
  revert fid. induction splits as [|[|b w] splits IH]; intros fid; [done|apply IH|]. split; [done|]. intros [fid'|e] _; [apply IH|done].
Qed.

(** The default methods keep these laws. *)
#[global] Instance provided_default_laws gennum : @ProvidedLaws (provided_default gennum).
Proof.
  split.
  - intros id. cbn -[Z.lt u32_max]. rewrite zlen_app, !zlen_to_le_bytes. unfold u32_max. lia.
  - intros fh. cbn [fh_to_id provided_default]. unfold default_fh_to_id. destruct (negb _); [done|]. by destruct (_ ?= _).
  - intros c id. split; [done|]. intros r _. done.
  - intros c dirid n. split; [done|]. intros [[l e]|stat] Hr; simpl in *; [|done]. by apply Forall_map.
  - intros c path. split; [done|]. intros r _. apply walk_sane.
Qed.

(** ** Every reply *)

Create HintDb encode.

Lemma serialize_pair {A B} `{XDR A} `{XDR B} (a : A) (b : B) x y :
  serialize a = Some x -> serialize b = Some y -> serialize (a, b) = Some (x ++ y).
Proof. intros Ha Hb. cbn [serialize xdr_pair fst snd]. by rewrite Ha, Hb. Qed.

Lemma serialize_status (stat : nfsstat3) x : serialize stat = Some x -> serialize (stat, tt) = Some x.
Proof. intros Hs. rewrite (serialize_pair stat tt x []) by done. by rewrite app_nil_r. Qed.

(** What was written in pieces is the encoding of the tuple of the pieces. *)
Ltac piece :=
  lazymatch goal with
  | |- serialize _ = Some (_ ++ _) => eapply serialize_pair
  | H : serialize _ = Some ?x |- @serialize (_ * unit) _ _ = Some ?x => apply serialize_status; exact H
  | |- @serialize (_ * _) _ _ = _ => fail
  | H : serialize _ = Some ?x |- serialize _ = Some ?x => exact H
  end.
Ltac pieces := repeat piece.
Ltac conform :=
  first
  [ eapply reply_result; [reflexivity|eassumption|]; left; eexists; solve [pieces]
  | eapply reply_result; [reflexivity|eassumption|]; right; eexists _, _; split; [|solve [pieces]]; done ].

(** One step through a handler. *)
Ltac encodes := first [apply encodable | by eexists | solve [auto with encode] | idtac].
Ltac handler_step :=
  match goal with
  | |- writes _ _ _ _ (_ ≫= _) => apply writes_bind
  | |- writes _ _ _ _ (get _) => apply writes_get; intros ?
  | |- writes _ _ _ _ (mret _) => apply writes_ret
  | |- writes _ _ _ _ (fs _) => apply writes_fs; [solve [done | by intros _]|intros ? ?]
  | |- writes _ _ _ _ (put _) => apply writes_put; [encodes|intros ? ?]
  | |- writes _ _ _ _ (fail_wcc _ _) => unfold fail_wcc
  | |- writes _ _ _ _ (match fh_to_id ?x with _ => _ end) =>
      let Hh := fresh "Hh" in pose proof (handle_errors x) as Hh; destruct (fh_to_id x); cbn [honest] in Hh
  | |- writes _ _ _ _ (match (match ?r with Ok _ => _ | Err _ => _ end).1 with Ok _ => _ | Err _ => _ end) => destruct r
  | |- writes _ _ _ _ (match ?r with Ok _ => _ | Err _ => _ end) =>
      first [is_var r; destruct r | destruct r eqn:?]
  | |- writes _ _ _ _ (if ?b then _ else _) => destruct b eqn:?
  | |- writes _ _ _ _ (match ?x with (_, _) => _ end) => destruct x
  end; cbv beta; cbn [app fst snd].

Section Conformance.
Context `{ProvidedLaws} (overflow_checks : bool) (c : VFSCapabilities) (xid : u32).
Abbreviation answered p := (writes (overflow_checks = true) (effects c) (answers c) (fun _ => proc_reply xid p)).

Lemma getattr_conforms : answered NFSPROC3_GETATTR (nfsproc3_getattr xid).
Proof. unfold nfsproc3_getattr. repeat handler_step; conform. Qed.

Lemma pathconf_conforms : answered NFSPROC3_PATHCONF (nfsproc3_pathconf xid).
Proof. unfold nfsproc3_pathconf. repeat handler_step; conform. Qed.

Lemma fsstat_conforms : answered NFSPROC3_FSSTAT (nfsproc3_fsstat xid).
Proof. unfold nfsproc3_fsstat. repeat handler_step; conform. Qed.

Lemma access_conforms : answered NFSPROC3_ACCESS (nfsproc3_access xid).
Proof. unfold nfsproc3_access. repeat handler_step; conform. Qed.

Lemma handle_encodes id : is_Some (serialize (id_to_fh id)).
Proof. apply lawful_encodes, handles_fit. Qed.
Lemma post_handle_encodes id : is_Some (serialize (fh_handle (id_to_fh id))).
Proof. apply lawful_encodes, handles_fit. Qed.
Hint Resolve handle_encodes post_handle_encodes : encode.

Lemma lookup_conforms : answered NFSPROC3_LOOKUP (nfsproc3_lookup xid).
Proof. unfold nfsproc3_lookup. repeat handler_step; conform. Qed.

Lemma read_ok_encodes a n e d : wf d -> is_Some (serialize (mkReadOk a n e d)).
Proof.
  intros Hd. destruct (lawful_encodes d Hd) as [y Hy]. destruct (encodable a) as [x Hx].
  eexists. cbn [serialize xdr_READ3resok xdr_struct]. eapply serialize_pair; [exact Hx|]. do 2 (eapply serialize_pair; [done|]). exact Hy.
Qed.

Lemma read_conforms : answered NFSPROC3_READ (nfsproc3_read xid).
Proof. unfold nfsproc3_read. repeat handler_step; try conform. by apply read_ok_encodes. Qed.

Lemma readlink_conforms : answered NFSPROC3_READLINK (nfsproc3_readlink xid).
Proof.
  unfold nfsproc3_readlink. repeat handler_step; try conform; [by apply lawful_encodes|].
  eapply reply_status_only; [set_solver|done|done|done].
Qed.

Lemma fsinfo_conforms : answered NFSPROC3_FSINFO (nfsproc3_fsinfo xid).
Proof.
  unfold nfsproc3_fsinfo. repeat handler_step; try conform. apply writes_lift.
  eapply fwp_mono; [..|apply (fsinfo_sane c)]; [done|done|done|].
  intros [info|stat] Hr; cbn [honest app] in *; repeat handler_step; [conform|].
  eapply reply_status_only; [set_solver|done|done|done].
Qed.

(** The head of the procedures that change the file system. *)
Lemma writes_if_writable p k :
  (forall h b1 b2, serialize (make_success_reply xid) = Some h -> serialize NFS3ERR_ROFS = Some b1 ->
    serialize wcc_data_default = Some b2 -> proc_reply xid p (h ++ b1 ++ b2)) ->
  (c = ReadWrite -> answered p k) -> answered p (if_writable xid k).
Proof.
  intros Hro Hk. unfold if_writable. handler_step. apply writes_fs; [done|]. intros r Hr. cbn [answers] in Hr. subst r.
  destruct c; cbn [read_write negb app]; [|by apply Hk]. repeat handler_step. by apply Hro.
Qed.

(** A procedure behind that head whose failure carries [wcc_data]. *)
Ltac changing := apply writes_if_writable; [intros; conform|intros Hrw].

Lemma write_conforms : answered NFSPROC3_WRITE (nfsproc3_write xid).
Proof. unfold nfsproc3_write. changing. repeat handler_step; try conform. by apply reply_garbage. Qed.

Lemma remove_conforms : answered NFSPROC3_REMOVE (nfsproc3_remove xid).
Proof. unfold nfsproc3_remove. changing. repeat handler_step; conform. Qed.
Lemma rmdir_conforms : answered NFSPROC3_RMDIR (nfsproc3_remove xid).
Proof. unfold nfsproc3_remove. changing. repeat handler_step; conform. Qed.

Lemma mkdir_conforms : answered NFSPROC3_MKDIR (nfsproc3_mkdir xid).
Proof. unfold nfsproc3_mkdir. changing. repeat handler_step; conform. Qed.
Lemma symlink_conforms : answered NFSPROC3_SYMLINK (nfsproc3_symlink xid).
Proof. unfold nfsproc3_symlink. changing. repeat handler_step; conform. Qed.

Lemma rename_conforms : answered NFSPROC3_RENAME (nfsproc3_rename xid).
Proof.
  unfold nfsproc3_rename. apply writes_if_writable; [intros; apply (reply_one_wcc _ _ NFS3ERR_ROFS); by pieces|intros Hrw].
  repeat handler_step; try conform; eapply reply_one_wcc; try done; by pieces.
Qed.

Lemma create_conforms : answered NFSPROC3_CREATE (nfsproc3_create xid).
Proof.
  unfold nfsproc3_create. changing. repeat handler_step; try conform. destruct v0; repeat handler_step; rewrite ?app_nil_r; try conform.
Qed.

Lemma setattr_conforms : answered NFSPROC3_SETATTR (nfsproc3_setattr xid).
Proof.
  unfold nfsproc3_setattr. changing. repeat handler_step; try conform.
  - destruct (setattr_guard v) as [|ctime]; [handler_step|]; repeat handler_step; try conform.
    all: match goal with H1 : serialize (make_success_reply xid) = Some ?h, H2 : serialize (make_success_reply xid) = Some ?h' |- _ =>
      assert (h' = h) as -> by congruence end.
    all: eapply reply_twice; [done|done|by pieces|].
    + left. eexists. by pieces.
    + right. eexists _, _. split; [|by pieces]. done.
  - eapply reply_status_only; [set_solver|done|done|done].
Qed.
Lemma usize_sub_none checks a b : usize_sub checks a b = None -> checks = true.
Proof. unfold usize_sub. destruct (a <? b); [|done]. by destruct checks. Qed.

(** A listing of entries [x] sent as items [item x] is a [dirlist] of the items. *)
Lemma encode_list_items {X Y} `{XDR Y} (item : X -> Y) l :
  encode_list (fun x => serialize true +++ serialize (item x)) l =
  encode_list (fun y : Y => serialize true +++ serialize y) (map item l).
Proof. induction l as [|x l IH]; [done|]. cbn [encode_list map]. by rewrite IH. Qed.

Lemma listing_conforms {X Y} `{XDR Y} (default : Y) (item : X -> Y) p dir_attr version cost room entries last :
  result_of p = Some (Result (post_op_attr * (cookieverf3 * dirlist Y)) post_op_attr (xa := @xdr_pair _ _ _ (@xdr_pair _ _ _ (xdr_dirlist default)))) ->
  Forall (fun x => is_Some (serialize (item x))) entries ->
  answered p (counted (write_listing xid dir_attr version (fun x => serialize true +++ serialize (item x)) cost room entries last)).
Proof.
  intros Hp Hs. apply writes_counted. intros o.
  destruct (write_listing_prefix xid dir_attr version (fun x => serialize true +++ serialize (item x)) cost room entries last o)
    as (n & b & h & head & Hn & Hb & Hh & Hd & (w & Hw & Hi) & _ & _).
  { eapply Forall_impl; [exact Hs|]. intros x [y Hy]. cbn [serialize xdr_bool]. rewrite Hy. by eexists. }
  exists w. split; [done|]. eexists. split; [exact Hi|]. eapply reply_result; [exact Hp|done|]. left.
  exists (dir_attr, (version, mkDirlist (map item (take n entries)) (bool_decide (n = length entries) && last))).
  rewrite encode_list_items in Hb. cbn [serialize xdr_pair xdr_dirlist fst snd listed list_eof] in Hd |- *.
  destruct (encodable dir_attr) as [d Hda]. rewrite Hda in *. cbn [serialize xdr_array xdr_nfsstat3 xdr_enum] in *.
  rewrite Hb. cbn in Hd |- *. injection Hd as <-. by rewrite <- !app_assoc.
Qed.

Lemma entry3_encodes e : wf (simple_name e) -> is_Some (serialize (mkEntry3 (simple_fileid e) (simple_name e) (simple_fileid e))).
Proof.
  intros He. destruct (lawful_encodes _ He) as [y Hy]. eexists.
  cbn [serialize xdr_entry3 xdr_struct]. eapply serialize_pair; [done|]. by eapply serialize_pair.
Qed.

Lemma readdir_conforms : answered NFSPROC3_READDIR (nfsproc3_readdir overflow_checks xid).
Proof.
  unfold nfsproc3_readdir. repeat handler_step; try conform. 
  destruct (usize_sub _ _ _) as [limit|] eqn:Hsub; [|apply writes_crash; by eapply usize_sub_none].
  handler_step; apply writes_lift; (eapply fwp_mono; [..|apply (readdir_simple_sane c)]; [done|done|done|]).
  intros [d|stat] Hr; cbn [honest app] in *; [|repeat handler_step; conform].
  eapply (listing_conforms entry3_default (fun e => mkEntry3 (simple_fileid e) (simple_name e) (simple_fileid e))); [done|].
  eapply Forall_impl; [exact Hr|apply entry3_encodes].
Qed.

Definition entryplus_of (e : DirEntry) : entryplus3 :=
  mkEntryplus (entry_fileid e) (entry_name e) (entry_fileid e) (post_attributes (entry_attr e)) (fh_handle (id_to_fh (entry_fileid e))).

Lemma entryplus3_encodes e : wf (entry_name e) -> is_Some (serialize (entryplus_of e)).
Proof.
  intros He. destruct (lawful_encodes _ He) as [y Hy]. destruct (post_handle_encodes (entry_fileid e)) as [z Hz].
  destruct (encodable (post_attributes (entry_attr e))) as [u Hu]. eexists.
  cbn [serialize xdr_entryplus3 xdr_struct]. eapply serialize_pair; [done|]. eapply serialize_pair; [exact Hy|].
  eapply serialize_pair; [done|]. eapply serialize_pair; [exact Hu|exact Hz].
Qed.

Lemma readdirplus_conforms : answered NFSPROC3_READDIRPLUS (nfsproc3_readdirplus overflow_checks xid).
Proof.
  unfold nfsproc3_readdirplus. repeat handler_step; try conform. 
  destruct (usize_sub _ _ _) as [limit|] eqn:Hsub; [|apply writes_crash; by eapply usize_sub_none].
  repeat handler_step; try conform; cbn [answers honest] in *.
  eapply (listing_conforms entryplus3_default entryplus_of); [done|].
  eapply Forall_impl; [eassumption|apply entryplus3_encodes].
Qed.

(** What [handle_nfs] answers to a call. *)
Definition nfs_reply (call : call_body) (w : list byte) : Prop :=
  if vers call =? VERSION then proc_reply xid (default INVALID (from_code NFSProgram_code NFSProgram_all (proc call))) w
  else serialize (prog_mismatch_reply_message xid VERSION) = Some w.

Lemma null_conforms : answered NFSPROC3_NULL (nfsproc3_null xid).
Proof. unfold nfsproc3_null. handler_step. by apply reply_null. Qed.

Lemma unavailable_conforms p :
  p ∈ [NFSPROC3_MKNOD; NFSPROC3_LINK; NFSPROC3_COMMIT; INVALID] -> answered p (put (proc_unavail_reply_message xid)).
Proof. intros Hp. handler_step. by apply reply_unavailable. Qed.

Hint Resolve null_conforms getattr_conforms setattr_conforms lookup_conforms access_conforms readlink_conforms read_conforms
  write_conforms create_conforms mkdir_conforms symlink_conforms remove_conforms rmdir_conforms rename_conforms
  readdir_conforms readdirplus_conforms fsstat_conforms fsinfo_conforms pathconf_conforms : conformance.

Lemma handle_nfs_conforms call :
  writes (overflow_checks = true) (effects c) (answers c) (fun _ => nfs_reply call) (handle_nfs overflow_checks xid call).
Proof.
  unfold handle_nfs, nfs_reply. destruct (vers call =? VERSION); cbn [negb]; [|by handler_step].
  destruct (default INVALID _); auto with conformance; apply unavailable_conforms; set_solver.
Qed.
End Conformance.

(** ** Reading the arguments *)

Definition skip {A} `{XDR A} (d : A) (s : list byte) : result XdrError (list byte) := '(_, s') ← deserialize d s; Ok s'.

(** The arguments of each procedure, by type; what follows them is ignored. An
    exclusive CREATE has a verifier, which is not read. *)
Definition read_args (p : NFSProgram) (s : list byte) : result XdrError (list byte) :=
  match p with
  | NFSPROC3_NULL | NFSPROC3_MKNOD | NFSPROC3_LINK | NFSPROC3_COMMIT | INVALID => Ok s
  | NFSPROC3_GETATTR | NFSPROC3_READLINK | NFSPROC3_FSSTAT | NFSPROC3_FSINFO | NFSPROC3_PATHCONF => skip nfs_fh3_default s
  | NFSPROC3_SETATTR => skip SETATTR3args_default s
  | NFSPROC3_LOOKUP | NFSPROC3_REMOVE | NFSPROC3_RMDIR => skip diropargs3_default s
  | NFSPROC3_ACCESS => skip nfs_fh3_default s ≫= skip (0 : u32)
  | NFSPROC3_READ => skip READ3args_default s
  | NFSPROC3_WRITE => skip WRITE3args_default s
  | NFSPROC3_CREATE =>
      s ← skip diropargs3_default s;
      '(how, s) ← deserialize UNCHECKED s;
      match how with EXCLUSIVE => Ok s | _ => skip sattr3_default s end
  | NFSPROC3_MKDIR => skip MKDIR3args_default s
  | NFSPROC3_SYMLINK => skip SYMLINK3args_default s
  | NFSPROC3_RENAME => skip diropargs3_default s ≫= skip diropargs3_default
  | NFSPROC3_READDIR => skip READDIR3args_default s
  | NFSPROC3_READDIRPLUS => skip READDIRPLUS3args_default s
  end.

Definition changing_proc (p : NFSProgram) : bool :=
  match p with
  | NFSPROC3_SETATTR | NFSPROC3_WRITE | NFSPROC3_CREATE | NFSPROC3_MKDIR | NFSPROC3_SYMLINK | NFSPROC3_REMOVE
  | NFSPROC3_RMDIR | NFSPROC3_RENAME => true
  | _ => false
  end.

#[global] Instance NFSProgram_eq_dec : EqDecision NFSProgram.
Proof. solve_decision. Defined.

(** The procedure a call names. *)
Definition procedure (call : call_body) : NFSProgram := default INVALID (from_code NFSProgram_code NFSProgram_all (proc call)).

(** What a call makes the server read: nothing when the version is not 3, or when
    the file system is read-only and the procedure would change it. *)
Definition nfs_arguments (c : VFSCapabilities) (call : call_body) (s : list byte) : result XdrError (list byte) :=
  if negb (vers call =? VERSION) || (changing_proc (procedure call) && negb (read_write c)) then Ok s
  else read_args (procedure call) s.

Section Reading.
Context (c : VFSCapabilities).

(** The handler reads what [parse] takes off the input, and fails exactly when
    that cannot be read. *)
Definition reading {A} (parse : list byte -> result XdrError (list byte)) (m : handler A) : Prop :=
  forall i o, fwp True (fun _ => True) (answers c) (fun r : result Failure (A * (list byte * list byte)) =>
    match parse i with
    | Ok i' => exists a o', r = Ok (a, (i', o'))
    | Err x => r = Err (Io x)
    end) (m (i, o)).
Abbreviation silent := (reading Ok).

(** It fails only when [parse] does. *)
Definition failing {A} (parse : list byte -> result XdrError (list byte)) (m : handler A) : Prop :=
  forall i o, fwp True (fun _ => True) (answers c) (fun r : result Failure (A * (list byte * list byte)) =>
    forall e, r = Err e -> exists x, e = Io x /\ parse i = Err x) (m (i, o)).

Lemma reading_get {A} `{XDR A} (d : A) : reading (skip d) (get d).
Proof.
  intros i o. unfold get, skip. cbn [fst snd]. destruct (deserialize d i) as [[v i']|e]; simpl; [|done]. by exists v, o.
Qed.

Lemma reading_bind {A B} p q (m : handler A) (f : A -> handler B) :
  reading p m -> (forall a, reading q (f a)) -> reading (fun s => p s ≫= q) (m ≫= f).
Proof.
  intros Hm Hf i o. unfold mbind at 2, handler_bind. apply fwp_bind. eapply fwp_mono; [..|apply Hm]; [done|done|done|].
  intros r Hr. destruct (p i) as [i'|x]; cbn [mbind result_bind].
  - destruct Hr as (a & o' & ->). apply Hf.
  - by rewrite Hr.
Qed.

Lemma reading_last {A B} p (m : handler A) (f : A -> handler B) : reading p m -> (forall a, silent (f a)) -> reading p (m ≫= f).
Proof.
  intros Hm Hf i o. eapply fwp_mono; [..|apply (reading_bind p Ok m f Hm Hf)]; [done|done|done|].
  intros r. by destruct (p i).
Qed.

Lemma failing_silent {A} p (m : handler A) : silent m -> failing p m.
Proof. intros Hm i o. eapply fwp_mono; [..|apply Hm]; [done|done|done|]. by intros r (a & o' & ->). Qed.

Lemma failing_first {A B} q (m : handler A) (f : A -> handler B) : silent m -> (forall a, failing q (f a)) -> failing q (m ≫= f).
Proof.
  intros Hm Hf i o. unfold mbind, handler_bind. apply fwp_bind. eapply fwp_mono; [..|apply Hm]; [done|done|done|].
  intros r (a & o' & ->). apply Hf.
Qed.

Lemma failing_get {A B} `{XDR A} (d : A) q (f : A -> handler B) :
  (forall v, failing (q v) (f v)) -> failing (fun s => '(v, s') ← deserialize d s; q v s') (get d ≫= f).
Proof.
  intros Hf i o. unfold mbind at 2, handler_bind, get. cbn [fst snd]. destruct (deserialize d i) as [[v i']|x]; simpl; [apply Hf|].
  intros e [= <-]. eauto.
Qed.

Lemma silent_ret {A} (a : A) : silent (mret a).
Proof. intros i o. by exists a, o. Qed.
Lemma silent_put {A} `{XDR A} (v : A) : silent (put v).
Proof. intros i o. unfold put. cbn [fst snd]. destruct (serialize v); simpl; eauto. Qed.
Lemma silent_lift {A} (p : prog A) : silent (lift p).
Proof.
  intros i o. unfold lift. apply fwp_bind. eapply fwp_mono; [..|apply fwp_any]; [done|done|done|]. intros a _. by exists a, o.
Qed.
Lemma silent_crash {A} : silent (@crash A).
Proof. by intros i o. Qed.
Lemma silent_counted f : silent (counted f).
Proof. intros i o. unfold counted. cbn [fst snd]. destruct (f _); simpl; eauto. Qed.

Lemma failing_last {A B} p (m : handler A) (f : A -> handler B) : failing p m -> (forall a, silent (f a)) -> failing p (m ≫= f).
Proof.
  intros Hm Hf i o. unfold mbind, handler_bind. apply fwp_bind. eapply fwp_mono; [..|apply Hm]; [done|done|done|].
  intros [[a [i' o']]|e] Hr.
  - eapply fwp_mono; [..|apply Hf]; [done|done|done|]. by intros r (b & o'' & ->).
  - intros e' [= <-]. by apply Hr.
Qed.

Lemma failing_reading {A} p (m : handler A) : reading p m -> failing p m.
Proof.
  intros Hm i o. eapply fwp_mono; [..|apply Hm]; [done|done|done|]. intros r Hr e ->.
  destruct (p i) as [i'|x]; [by destruct Hr as (? & ? & ?)|]. simplify_eq. eauto.
Qed.

Lemma failing_ext {A} p q (m : handler A) : (forall s, p s = q s) -> failing p m -> failing q m.
Proof. intros Hpq Hm i o. rewrite <- Hpq. apply Hm. Qed.

Lemma reading_ext {A} p q (m : handler A) : (forall s, p s = q s) -> reading p m -> reading q m.
Proof. intros Hpq Hm i o. rewrite <- Hpq. apply Hm. Qed.

Lemma reading_readable {A} (G : Prop) `{Decision G} p (m : handler A) i o :
  (G -> reading p m) ->
  fwp True (fun _ => True) (answers c) (fun r => forall v, r = Ok v -> G -> exists rest, p i = Ok rest) (m (i, o)).
Proof.
  intros Hm. destruct (decide G) as [HG|HG]; [|by eapply fwp_mono; [..|apply fwp_any]].
  eapply fwp_mono; [..|apply (Hm HG)]; [done|done|done|]. intros r Hr v -> _. destruct (p i); [by eexists|done].
Qed.

Lemma ask_capabilities {A} (f : VFSCapabilities -> handler A) Q s :
  fwp True (fun _ => True) (answers c) Q (f c s) -> fwp True (fun _ => True) (answers c) Q ((fs FsOp.capabilities ≫= f) s).
Proof. intros Hf. split; [done|]. by intros r ->. Qed.
End Reading.

(** A handler that reads nothing. *)
Ltac silence :=
  match goal with
  | |- reading _ Ok (_ ≫= _) => apply reading_last; [|intros ?]
  | |- reading _ Ok (mret _) => apply silent_ret
  | |- reading _ Ok (put _) => apply silent_put
  | |- reading _ Ok (lift _) => apply silent_lift
  | |- reading _ Ok (fs _) => apply silent_lift
  | |- reading _ Ok (counted _) => apply silent_counted
  | |- reading _ Ok crash => apply silent_crash
  | |- reading _ Ok (fail_wcc _ _) => unfold fail_wcc
  | |- reading _ Ok (match ?r with Ok _ => _ | Err _ => _ end) => destruct r
  | |- reading _ Ok (match ?r with Some _ => _ | None => _ end) => destruct r
  | |- reading _ Ok (match ?r with guard_Void => _ | obj_ctime _ => _ end) => destruct r
  | |- reading _ Ok (match ?r with (_, _) => _ end) => destruct r
  | |- reading _ Ok (match ?r with EXCLUSIVE => _ | _ => _ end) => destruct r
  | |- reading _ Ok (if ?b then _ else _) => destruct b
  end.
Ltac reads := apply reading_last; [apply reading_get|intros ?]; repeat silence.
Ltac reads_two := apply reading_bind; [apply reading_get|intros ?]; reads.

Section Procedures.
Context `{Provided} (overflow_checks : bool) (c : VFSCapabilities) (xid : u32).

Lemma refuses_silently : reading c Ok (put (make_success_reply xid);; put NFS3ERR_ROFS;; put wcc_data_default).
Proof. repeat silence. Qed.

Lemma reading_if_writable q k : reading c q k -> reading c (if read_write c then q else Ok) (if_writable xid k).
Proof.
  intros Hk i o. unfold if_writable. apply ask_capabilities. destruct (read_write c); cbn [negb]; [apply Hk|apply refuses_silently].
Qed.

Lemma failing_if_writable q k : failing c q k -> failing c (if read_write c then q else Ok) (if_writable xid k).
Proof.
  intros Hk i o. unfold if_writable. apply ask_capabilities. destruct (read_write c); cbn [negb]; [apply Hk|].
  apply failing_silent, refuses_silently.
Qed.

Lemma create_fails : failing c (if read_write c then read_args NFSPROC3_CREATE else Ok) (nfsproc3_create xid).
Proof.
  unfold nfsproc3_create. apply failing_if_writable.
  apply (failing_ext c (fun s => '(_, s) ← deserialize diropargs3_default s; '(how, s) ← deserialize UNCHECKED s;
    match how with EXCLUSIVE => Ok s | _ => skip sattr3_default s end)).
  { intros s. cbn [read_args]. unfold skip. by destruct (deserialize diropargs3_default s) as [[]|]. }
  apply failing_get. intros dirops. apply failing_get. intros how.
  destruct (fh_to_id _) as [dirid|]; [|apply failing_silent; repeat silence].
  apply failing_first; [apply silent_lift|]. intros [v|]; [|apply failing_silent; repeat silence].
  apply failing_last; [|intros ?; repeat silence]. destruct how; [| |apply failing_silent; repeat silence];
    apply failing_reading; reads.
Qed.

Ltac open_procedure :=
  match goal with
  | |- reading _ _ (nfsproc3_readdir _ _) => unfold nfsproc3_readdir
  | |- reading _ _ (nfsproc3_readdirplus _ _) => unfold nfsproc3_readdirplus
  | |- reading _ _ (put _) => idtac
  | |- reading _ _ (?m _ _) => unfold m
  | |- _ => idtac
  end.
Ltac reads_args := first [solve [reads]|solve [reads_two]|solve [apply silent_put]].
Ltac reads_writable := eapply reading_ext; [|apply reading_if_writable; reads_args]; by (destruct (read_write c)).

(** Every procedure but CREATE reads its arguments before anything else. *)
Lemma handle_nfs_reads call :
  procedure call <> NFSPROC3_CREATE -> reading c (nfs_arguments c call) (handle_nfs overflow_checks xid call).
Proof.
  unfold nfs_arguments, handle_nfs. fold (procedure call). intros Hc. destruct (vers call =? VERSION); cbn [negb orb]; [|apply silent_put].
  destruct (procedure call); try done; cbn [changing_proc andb read_args]; open_procedure; first [reads_args|reads_writable].
Qed.

Lemma handle_nfs_fails call : failing c (nfs_arguments c call) (handle_nfs overflow_checks xid call).
Proof.
  destruct (decide (procedure call = NFSPROC3_CREATE)) as [Hc|Hc]; [|by apply failing_reading, handle_nfs_reads].
  unfold nfs_arguments, handle_nfs. fold (procedure call). rewrite Hc.
  destruct (vers call =? VERSION); cbn [negb orb]; [|apply failing_silent, silent_put].
  eapply failing_ext; [|apply create_fails]. by destruct (read_write c).
Qed.
End Procedures.

(** What the result of [handle_nfs] says: the reply, and that the arguments were
    readable (CREATE, refused before the attributes are read, apart); or what made
    the arguments unreadable. *)
Definition nfs_result c xid call input (r : result Failure (unit * (list byte * list byte))) : Prop :=
  match r with
  | Ok (_, (_, w)) =>
      nfs_reply xid call w /\ (procedure call <> NFSPROC3_CREATE -> exists rest, nfs_arguments c call input = Ok rest)
  | Err e => exists x, e = Io x /\ nfs_arguments c call input = Err x
  end.

Lemma handle_nfs_result `{ProvidedLaws} overflow_checks c xid call input :
  fwp (overflow_checks = true) (effects c) (answers c) (nfs_result c xid call input)
    (handle_nfs overflow_checks xid call (input, [])).
Proof.
  eapply fwp_mono; [..|apply fwp_also; [apply (handle_nfs_conforms overflow_checks c xid call input [])|
    apply (fwp_also True (fun _ => True)); [apply (handle_nfs_fails overflow_checks c xid call)|
    apply (reading_readable c _ _ _ input [] (handle_nfs_reads overflow_checks c xid call))]]];
    [done|done|done|].
  intros [[u [i' o']]|e] (Hw & He & Hr); [|by apply He]. destruct Hw as (w & -> & Hw). split; [done|]. by eapply Hr.
Qed.

