(* ===== verification/LegacyBehaviour.v ===== *)
(** * Behaviour of single procedures of the demo server

    A bound on the changes a request makes, what READDIRPLUS returns, and two
    procedures that do not do what they mean to: the guard of SETATTR and the
    cookie of READDIR. *)
From S2P Require Import Prelude Xdr LegacyMessage LegacyNfs Free LegacyVfs LegacyHandlers LegacyReplies.
From stdpp Require Import list sets.
#[local] Open Scope Z_scope.

(** ** A concrete file system

    One directory, object 1, with the files 2 and 3; the state is the log of the
    changes. *)
Definition sample_attr (id : Z) : fattr3 :=
  mkFattr (if id =? 1 then NF3DIR else NF3REG) 493 1 0 0 0 0 (mkSpecdata 0 0) 0 id (mkTime 5 6) (mkTime 7 8) (mkTime 9 10).
Definition sample_page : ReadDirResult :=
  mkDirResult [mkEntry 2 (mkNfsString [Byte.x61]) (sample_attr 2); mkEntry 3 (mkNfsString [Byte.x62]) (sample_attr 3)] true.
Definition sample_answer (c : VFSCapabilities) (e : demo_effect) (log : list FsOp.t) : reply_of e * list FsOp.t :=
  (match e as e return reply_of e with
   | Fs op =>
       match op as op return FsOp.response op with
       | FsOp.capabilities => c
       | FsOp.root_dir => 1
       | FsOp.lookup _ _ => Ok 2
       | FsOp.getattr id => Ok (sample_attr id)
       | FsOp.setattr id _ => Ok (sample_attr id)
       | FsOp.read _ _ _ => Ok ([Byte.x68; Byte.x69], true)
       | FsOp.write id _ _ => Ok (sample_attr id)
       | FsOp.create _ _ _ => Ok (4, sample_attr 4)
       | FsOp.create_exclusive _ _ => Ok 4
       | FsOp.mkdir _ _ => Ok (4, sample_attr 1)
       | FsOp.remove _ _ => Ok tt
       | FsOp.rename _ _ _ _ => Ok tt
       | FsOp.readdir _ start _ => Ok (if start =? 0 then sample_page else mkDirResult [] true)
       | FsOp.symlink _ _ _ _ => Ok (4, sample_attr 4)
       | FsOp.readlink _ => Err NFS3ERR_INVAL
       end
   | MountSignal _ => tt
   | IsRetransmission _ _ => false
   | MarkProcessed _ _ => tt
   end,
   match e with Fs op => if FsOp.mutates op then log ++ [op] else log | _ => log end).

Lemma sample_answers c e log : answers c e (sample_answer c e log).1.
Proof.
  destruct e as [op|m|x a|x a]; [|done..]. destruct op; try done.
  cbn [answers sample_answer fst honest]. destruct (_ =? 0); [|by constructor]. repeat constructor; by vm_compute.
Qed.

Definition sample_call (p : NFSProgram) : call_body :=
  mkCallBody 2 PROGRAM VERSION (NFSProgram_code p) opaque_auth_default opaque_auth_default.
Definition encoded (o : option (list byte)) : list byte := default [] o.
Definition sample_handle (id : Z) : nfs_fh3 := default_id_to_fh 77 id.


(** ** Changes *)

(** At most [n] effects of the kind [b], on every path of a handler. *)
Definition bounded (b : demo_effect -> bool) {A} (n : nat) (m : handler A) : Prop := forall s, at_most b n (m s).
Abbreviation changes := (bounded effect_mutates).

Section Bounded.
Context (b : demo_effect -> bool).

Lemma bounded_mono {A} n k (m : handler A) : (n <= k)%nat -> bounded b n m -> bounded b k m.
Proof. intros Hn Hm s. by eapply at_most_mono. Qed.

Lemma bounded_bind {A B} n k (m : handler A) (f : A -> handler B) :
  bounded b n m -> (forall a, bounded b k (f a)) -> bounded b (n + k) (m ≫= f).
Proof.
  intros Hm Hf s. unfold mbind, handler_bind. apply at_most_bind; [apply Hm|]. intros [[a s']|e]; [apply Hf|done].
Qed.

Lemma bounded_ret {A} (a : A) : bounded b 0 (mret a).
Proof. done. Qed.
Lemma bounded_get {A} `{XDR A} (d : A) : bounded b 0 (get d).
Proof. intros s. unfold get. by destruct (deserialize d s.1) as [[]|]. Qed.
Lemma bounded_put {A} `{XDR A} (v : A) : bounded b 0 (put v).
Proof. intros s. unfold put. by destruct (serialize v). Qed.
Lemma bounded_crash {A} : bounded b 0 (@crash A).
Proof. done. Qed.
Lemma bounded_counted f : bounded b 0 (counted f).
Proof. intros s. unfold counted. by destruct (f _). Qed.
Lemma bounded_lift {A} n (p : prog A) : at_most b n p -> bounded b n (lift p).
Proof. intros Hp s. unfold lift. replace n with (n + 0)%nat by lia. by apply at_most_bind. Qed.
Lemma bounded_fs_other op : b (Fs op) = false -> bounded b 0 (fs op).
Proof. intros Ho. apply bounded_lift. simpl. by rewrite Ho. Qed.
Lemma bounded_fs op : bounded b 1 (fs op).
Proof. apply bounded_lift. simpl. by destruct (b (Fs op)). Qed.
End Bounded.

(** Leaves and binds without a counted effect. *)
Ltac quiet_step :=
  lazymatch goal with
  | |- bounded _ _ (_ ≫= _) => eapply (bounded_bind _ 0); [|intros ?]
  | |- bounded _ _ (fail_wcc _ _) => unfold fail_wcc
  | |- bounded _ _ (match ?x with _ => _ end) => destruct x
  | |- bounded _ (S ?n) _ => apply (bounded_mono _ 0 (S n)); [lia|]
  | |- bounded _ 0 (put _) => apply bounded_put
  | |- bounded _ 0 (get _) => apply bounded_get
  | |- bounded _ 0 (counted _) => apply bounded_counted
  | |- bounded _ 0 crash => apply bounded_crash
  | |- bounded _ 0 (mret _) => apply bounded_ret
  | |- bounded ?b 0 (fs ?op) => by apply (bounded_fs_other b op)
  | |- bounded _ 0 (lift _) => apply bounded_lift; intros ?; exact I
  end.
Ltac changes_step :=
  lazymatch goal with
  | |- changes 1 (?m ≫= _) =>
      lazymatch m with
      | fs ?op =>
          lazymatch eval cbv in (FsOp.mutates op) with
          | true => apply (bounded_bind _ 1 0); [apply (bounded_fs _ op)|intros ?]
          | false => quiet_step
          end
      | context [FsOp.create_exclusive] => apply (bounded_bind _ 1 0); [|intros ?]
      | _ => quiet_step
      end
  | |- _ => quiet_step
  end.

Lemma nfs_changes_once gennum overflow_checks xid call :
  changes 1 (@handle_nfs (provided_default gennum) overflow_checks xid call).
Proof.
  unfold handle_nfs. destruct (negb _); [repeat changes_step|]. destruct (default INVALID _).
  all: unfold nfsproc3_null, nfsproc3_getattr, nfsproc3_lookup, nfsproc3_read, nfsproc3_fsinfo, nfsproc3_access, nfsproc3_pathconf,
    nfsproc3_fsstat, nfsproc3_readdir, nfsproc3_readdirplus, nfsproc3_write, nfsproc3_create, nfsproc3_setattr, nfsproc3_remove,
    nfsproc3_rename, nfsproc3_mkdir, nfsproc3_symlink, nfsproc3_readlink, if_writable.
  all: repeat changes_step.
Qed.

(** A call changes the file system at most once: on every run, whatever the
    file system answers, at most one of the calls made to it is a changing one. *)
Lemma demo_changes_once {St} (answer : forall e, St -> reply_of e * St) gennum overflow_checks xid call input s :
  (length (filter (fun e => effect_mutates e = true)
    (exec answer (@handle_nfs (provided_default gennum) overflow_checks xid call (input, [])) s).2) <= 1)%nat.
Proof. apply at_most_exec, nfs_changes_once. Qed.

(** ** Straight-line runs *)

Section Runs.
Context {St : Type} (answer : forall e : demo_effect, St -> reply_of e * St).

(** A run of a handler: input, output and world before and after, effects. *)
Definition runs {A} (m : handler A) (i o : list byte) (s : St) (r : result Failure (A * (list byte * list byte)))
    (s' : St) (trace : list demo_effect) : Prop := exec answer (m (i, o)) s = (Some r, s', trace).

Lemma runs_bind {A B} (m : handler A) (f : A -> handler B) i o s a i1 o1 s1 t1 r s2 t2 :
  runs m i o s (Ok (a, (i1, o1))) s1 t1 -> runs (f a) i1 o1 s1 r s2 t2 -> runs (m ≫= f) i o s r s2 (t1 ++ t2).
Proof. unfold runs, mbind, handler_bind. intros Hm Hf. by rewrite exec_bind, Hm, Hf. Qed.

Lemma runs_ret {A} (a : A) i o s : runs (mret a) i o s (Ok (a, (i, o))) s [].
Proof. done. Qed.

Lemma runs_get {A} `{XDR A} (d v : A) i i' o s : deserialize d i = Ok (v, i') -> runs (get d) i o s (Ok (v, (i', o))) s [].
Proof. intros Hd. unfold runs, get. cbn [fst snd]. by rewrite Hd. Qed.

Lemma runs_put {A} `{XDR A} (v : A) b i o s : serialize v = Some b -> runs (put v) i o s (Ok (tt, (i, o ++ b))) s [].
Proof. intros Hb. unfold runs, put. cbn [fst snd]. by rewrite Hb. Qed.

Lemma runs_fs op i o s r s' : answer (Fs op) s = (r, s') -> runs (fs op) i o s (Ok (r, (i, o))) s' [Fs op].
Proof. intros Ha. unfold runs, fs, lift, call, ask. cbn [mbind free_bind free_bind_ exec]. by rewrite Ha. Qed.

Lemma runs_counted f i o s w : f (counter_new o) = Some w -> runs (counted f) i o s (Ok (tt, (i, inner w))) s [].
Proof. intros Hf. unfold runs, counted. cbn [fst snd]. by rewrite Hf. Qed.

Lemma runs_silent {A B} (m : handler A) (f : A -> handler B) i o s a i1 o1 s1 r s2 t :
  runs m i o s (Ok (a, (i1, o1))) s1 [] -> runs (f a) i1 o1 s1 r s2 t -> runs (m ≫= f) i o s r s2 t.
Proof. apply (runs_bind m f i o s a i1 o1 s1 []). Qed.

Lemma runs_ask {B} op (f : FsOp.response op -> handler B) i o s a s1 r s2 t :
  answer (Fs op) s = (a, s1) -> runs (f a) i o s1 r s2 t -> runs (fs op ≫= f) i o s r s2 (Fs op :: t).
Proof. intros Ha. apply (runs_bind (fs op) f i o s a i o s1 [Fs op]). by apply runs_fs. Qed.
End Runs.

(** One step of a run whose inputs and answers are known. *)
Ltac run_leaf :=
  lazymatch goal with
  | |- runs _ (get _) _ _ _ _ _ _ => eapply runs_get; eassumption
  | |- runs _ (put _) _ _ _ _ _ _ => eapply runs_put; first [eassumption | reflexivity]
  | |- runs _ (mret _) _ _ _ _ _ _ => eapply runs_ret
  end.
Ltac run_step :=
  lazymatch goal with
  | |- runs ?ans (?m ≫= _) _ _ _ _ _ _ =>
      lazymatch m with
      | fs ?op => eapply (runs_ask ans op); [eassumption|cbv iota beta]
      | _ => eapply runs_silent; [try run_leaf|]
      end
  | |- _ => run_leaf
  end.

(** ** READDIRPLUS *)

Lemma zlen_serialize_post (a : post_op_attr) d : serialize a = Some d -> zlen d <= 88.
Proof. destruct a as [|[]]; intros [= <-]; vm_compute; congruence. Qed.

Lemma zlen_dirversion dir : zlen (array_bytes (dirversion dir)) = 8.
Proof. destruct dir; [apply zlen_be_bytes|done]. Qed.

Lemma encode_plus_item `{Provided} : encode_plus = fun e => serialize true +++ serialize (entryplus_of e).
Proof. done. Qed.

(** What READDIRPLUS returns. The directory is asked for the entries after
    the client's cookie, a sixteenth of [dircount] at most, and the reply lists the
    longest prefix of the answer that fits: the reply with its RPC header stays
    below [maxcount] (or is the bare 132 bytes of an empty listing), and the names,
    ids and cookies below [dircount]. The entries come in order and complete, each
    with its own id as cookie, and the end of the directory is reported exactly
    when no entry was left out and the file system says that these were the last. *)
Lemma readdirplus_page `{ProvidedLaws} {St} (answer : forall e, St -> reply_of e * St) overflow_checks xid
    input args rest dirid dir page s s1 s2 :
  deserialize READDIRPLUS3args_default input = Ok (args, rest) -> fh_to_id (plus_dir args) = Ok dirid ->
  128 <= plus_maxcount args ->
  answer (Fs (FsOp.getattr dirid)) s = (dir, s1) ->
  answer (Fs (FsOp.readdir dirid (plus_cookie args) (plus_dircount args / 16))) s1 = (Ok page, s2) ->
  Forall (fun e => wf (entry_name e)) (dir_entries page) ->
  exists n h body, runs answer (nfsproc3_readdirplus overflow_checks xid) input [] s (Ok (tt, (rest, h ++ body))) s2
      [Fs (FsOp.getattr dirid); Fs (FsOp.readdir dirid (plus_cookie args) (plus_dircount args / 16))] /\
    serialize (make_success_reply xid) = Some h /\
    serialize (NFS3_OK, (post_of dir, (dirversion dir,
      mkDirlist (map entryplus_of (take n (dir_entries page))) (bool_decide (n = length (dir_entries page)) && dir_end page)))) = Some body /\
    (n <= length (dir_entries page))%nat /\
    zlen (h ++ body) <= Z.max 132 (plus_maxcount args - 121) /\
    (n = 0%nat \/ total_cost (fun e => added_dircount (entry_name e)) (take n (dir_entries page)) < plus_dircount args) /\
    (forall e b, dir_entries page !! n = Some e -> encode_plus e = Some b ->
      plus_maxcount args - 128 <= zlen (h ++ body) - 8 + zlen b \/
      plus_dircount args <= total_cost (fun e => added_dircount (entry_name e)) (take (S n) (dir_entries page))).
Proof.
  intros Hd Hh Hm Hg Hr Hf.
  destruct (write_listing_prefix xid (post_of dir) (dirversion dir) encode_plus (fun e => added_dircount (entry_name e))
    (fun bytes dircount => (bytes <? plus_maxcount args - 128) && (dircount <? plus_dircount args)) (dir_entries page) (dir_end page) [])
    as (n & b & h & head & Hn & Hb & Hsh & Hhead & (w & Hw & Hi) & Hroom & Hnext).
  { eapply Forall_impl; [exact Hf|]. intros e He. rewrite encode_plus_item. destruct (entryplus3_encodes e He) as [y Hy].
    cbn [serialize xdr_bool]. rewrite Hy. by eexists. }
  set (tail := be_bytes 4 0 ++ be_bytes 4 (if bool_decide (n = length (dir_entries page)) && dir_end page then 1 else 0)) in *.
  assert (zlen tail = 8) as Ht by (unfold tail; by rewrite zlen_app, !zlen_be_bytes). exists n, h, (head ++ b ++ tail).
  assert (zlen h = 24) as Hzh by (destruct (success_encodes xid) as (h' & E & ?); congruence).
  assert (zlen head <= 100) as Hzhead.
  { destruct (encodable (post_of dir)) as [d Hda]. cbn [serialize xdr_pair fst snd] in Hhead. rewrite Hda in Hhead. injection Hhead as <-.
    apply zlen_serialize_post in Hda. rewrite !zlen_app, zlen_be_bytes, zlen_dirversion. lia. }
  pose proof (zlen_nonneg head). pose proof (zlen_nonneg b). split_and!; try done.
  - unfold nfsproc3_readdirplus. run_step. rewrite Hh. run_step.
    unfold usize_sub. rewrite (proj2 (Z.ltb_ge _ _)) by lia. run_step.
    change (h ++ head ++ b ++ tail) with ([] ++ h ++ head ++ b ++ tail). rewrite <- Hi. by apply runs_counted.
  - destruct (encodable (post_of dir)) as [d Hda]. cbn [serialize xdr_pair fst snd] in Hhead |- *. rewrite Hda in *. injection Hhead as <-.
    rewrite encode_plus_item, encode_list_items in Hb. cbn [serialize xdr_dirlistplus3 xdr_dirlist listed list_eof]. rewrite Hb.
    cbn. by rewrite <- !app_assoc.
  - rewrite !zlen_app in *. destruct Hroom as [->|Hroom].
    + cbn [take encode_list] in Hb. injection Hb as <-. rewrite zlen_nil. lia.
    + apply andb_true_iff in Hroom as [Hroom _]. zbool. lia.
  - destruct Hroom as [->|Hroom]; [by left|right]. apply andb_true_iff in Hroom as [_ Hroom]. zbool. lia.
  - intros e be He Hbe. specialize (Hnext e be He Hbe). apply andb_false_iff in Hnext. rewrite (take_S_r _ _ _ He).
    rewrite !zlen_app in *. destruct Hnext as [Hx|Hx]; zbool; [left|right]; lia.
Qed.

(** ** READDIR *)

Definition with_cookie (args : READDIR3args) (cookie : cookie3) (verf : cookieverf3) : READDIR3args :=
  mkReaddirArgs (readdir_dir args) cookie verf (readdir_dircount args).

(** READDIR does not look at the cookie: two requests that differ only in
    where the listing should continue have the same run and the same reply. A
    client that asks for the rest of a directory is given its beginning again. *)
Theorem readdir_ignores_cookie `{Provided} {St} (answer : forall e, St -> reply_of e * St) overflow_checks xid
    input input' args cookie verf rest output s :
  deserialize READDIR3args_default input = Ok (args, rest) ->
  deserialize READDIR3args_default input' = Ok (with_cookie args cookie verf, rest) ->
  exec answer (nfsproc3_readdir overflow_checks xid (input, output)) s =
  exec answer (nfsproc3_readdir overflow_checks xid (input', output)) s.
Proof.
  intros H1 H2. unfold nfsproc3_readdir, get, mbind, handler_bind. cbn [fst snd]. by rewrite H1, H2.
Qed.

Lemma readdir_ignores_cookie_witness :
  let args := mkReaddirArgs (sample_handle 1) 0 cookieverf3_default 4096 in
  exec (sample_answer ReadWrite) (@nfsproc3_readdir (provided_default 77) true 5 (encoded (serialize args), [])) [] =
  exec (sample_answer ReadWrite) (@nfsproc3_readdir (provided_default 77) true 5
    (encoded (serialize (with_cookie args 3 cookieverf3_default)), [])) [].
Proof. intros args. by apply (readdir_ignores_cookie _ true 5 _ _ args 3 cookieverf3_default []). Defined.

(** A count below 128 makes the limit underflow: with overflow checks the task
    panics, without them there is no limit at all. *)
Example readdir_underflow :
  let args := mkReaddirArgs (sample_handle 1) 0 cookieverf3_default 127 in
  let run checks := exec (sample_answer ReadWrite) (@nfsproc3_readdir (provided_default 77) checks 5 (encoded (serialize args), [])) [] in
  (run true).1.1 = None /\ match (run false).1.1 with Some (Ok (_, (_, reply))) => zlen reply = 188 | _ => False end.
Proof. by vm_compute. Qed.

(** ** SETATTR *)

(** The guard of SETATTR is checked but not enforced. When the client's
    change time differs from the object's, the error is written, and the
    attributes are set all the same; the record sent back holds two replies, the
    error and then the outcome of the change. *)
Theorem setattr_guard_not_enforced `{Provided} {St} (answer : forall e, St -> reply_of e * St) xid
    input args rest id v ctime post s s0 s1 s2 :
  deserialize SETATTR3args_default input = Ok (args, rest) -> fh_to_id (setattr_object args) = Ok id ->
  answer (Fs FsOp.capabilities) s = (ReadWrite, s0) ->
  answer (Fs (FsOp.getattr id)) s0 = (Ok v, s1) ->
  setattr_guard args = obj_ctime ctime -> ctime <> fattr_ctime v ->
  answer (Fs (FsOp.setattr id (new_attribute args))) s1 = (Ok post, s2) ->
  exists h refused changed,
    serialize (make_success_reply xid) = Some h /\
    serialize (NFS3ERR_NOT_SYNC, wcc_data_default) = Some refused /\
    serialize (NFS3_OK, mkWcc (pre_of v) (post_attributes post)) = Some changed /\
    runs answer (nfsproc3_setattr xid) input [] s (Ok (tt, (rest, (h ++ refused) ++ (h ++ changed)))) s2
      [Fs FsOp.capabilities; Fs (FsOp.getattr id); Fs (FsOp.setattr id (new_attribute args))].
Proof.
  intros Hd Hh Hc Hg Hguard Hne Hs. destruct (success_encodes xid) as (h & Hsh & _).
  destruct (encodable (mkWcc (pre_of v) (post_attributes post))) as [y Hy].
  exists h, (be_bytes 4 10002 ++ be_bytes 4 0 ++ be_bytes 4 0), (be_bytes 4 0 ++ y). split_and!; [done|done|by apply serialize_pair|].
  unfold nfsproc3_setattr, if_writable.
  replace ((h ++ _) ++ h ++ be_bytes 4 0 ++ y) with (((((([] ++ h) ++ be_bytes 4 10002) ++ (be_bytes 4 0 ++ be_bytes 4 0)) ++ h) ++ be_bytes 4 0) ++ y)
    by (by rewrite <- !app_assoc).
  run_step. cbn [read_write negb]. run_step. rewrite Hh. run_step. rewrite Hguard.
  assert (negb (seconds ctime =? seconds (fattr_ctime v)) || negb (nseconds ctime =? nseconds (fattr_ctime v)) = true) as ->.
  { destruct ctime as [a b], (fattr_ctime v) as [a' b']. cbn [seconds nseconds]. destruct (Z.eqb_spec a a'), (Z.eqb_spec b b'); try done. congruence. }
  unfold fail_wcc. run_step; repeat run_step.
Qed.

Definition sample_setattr : SETATTR3args := mkSetattrArgs (sample_handle 2) sattr3_default (obj_ctime (mkTime 1 1)).

Lemma setattr_guard_not_enforced_witness :
  exists h refused changed,
    serialize (make_success_reply 5) = Some h /\
    serialize (NFS3ERR_NOT_SYNC, wcc_data_default) = Some refused /\
    serialize (NFS3_OK, mkWcc (pre_of (sample_attr 2)) (post_attributes (sample_attr 2))) = Some changed /\
    runs (sample_answer ReadWrite) (@nfsproc3_setattr (provided_default 77) 5) (encoded (serialize sample_setattr)) []
      [] (Ok (tt, ([], (h ++ refused) ++ (h ++ changed)))) [FsOp.setattr 2 sattr3_default]
      [Fs FsOp.capabilities; Fs (FsOp.getattr 2); Fs (FsOp.setattr 2 sattr3_default)].
Proof.
  apply (@setattr_guard_not_enforced (provided_default 77) _ (sample_answer ReadWrite) 5 (encoded (serialize sample_setattr)) sample_setattr [] 2
    (sample_attr 2) (mkTime 1 1) (sample_attr 2) [] [] []); try done; by vm_compute.
Defined.

(** ** File handles *)

(** A file handle names one file of one run of the server. The handle made
    from a file id gives that id back; any other handle is refused, as stale when
    it comes from an earlier generation and as malformed when its length or its
    generation is wrong. *)
Theorem demo_handle_roundtrip gennum id fh :
  u64_range gennum -> u64_range id ->
  default_fh_to_id gennum (default_id_to_fh gennum id) = Ok id /\
  (default_fh_to_id gennum fh = Ok id <-> fh = default_id_to_fh gennum id) /\
  match default_fh_to_id gennum fh with
  | Ok _ => True
  | Err NFS3ERR_STALE => exists gen id, 0 <= gen < gennum /\ fh = default_id_to_fh gen id
  | Err NFS3ERR_BADHANDLE => zlen (fh_data fh) <> 16 \/ exists gen id, gennum < gen <= u64_max /\ fh = default_id_to_fh gen id
  | Err _ => False
  end.
Proof.
  intros Hg Hi. pose proof (handle_laws gennum fh Hg) as Hl. split; [by apply handle_roundtrip|]. split.
  - split; [|intros ->; by apply handle_roundtrip]. intros Hf. rewrite Hf in Hl. apply Hl.
  - by destruct (default_fh_to_id gennum fh) as [?|[]].
Qed.

Lemma demo_handle_roundtrip_witness : default_fh_to_id 77 (default_id_to_fh 77 12) = Ok 12.
Proof. apply (demo_handle_roundtrip 77 12 nfs_fh3_default); unfold u64_range, u64_max; lia. Defined.
