(* ===== verification/LegacyRpc.v ===== *)
(** * [src/rpcwire.rs], [src/mount_handlers.rs], [src/portmap_handlers.rs]: one RPC call of the demo server

    The MOUNT and portmapper procedures, and [handle_rpc], which decodes a call,
    drops retransmissions and dispatches to the three programs. *)
From S2P Require Import Prelude Xdr LegacyMessage LegacyNfs Free LegacyVfs LegacyHandlers LegacyReplies.
From stdpp Require Import list sets strings.
#[local] Open Scope Z_scope.

(** ** [src/context.rs] *)

(** The file system and the tracker are effects; of the mount signal only its
    presence matters. Names are UTF-8. *)
Record RPCContext : Type := mkContext {
  local_port : Z;
  client_addr : string;
  auth : auth_unix;
  mount_signal : bool;
  export_name : list byte
}.
Definition set_auth (a : auth_unix) (c : RPCContext) : RPCContext :=
  mkContext (local_port c) (client_addr c) a (mount_signal c) (export_name c).

(** ** Strings *)

(** [std::str::from_utf8]: the well-formed byte sequences. *)
Definition in_range (lo hi : Z) (b : byte) : bool := (lo <=? byte_val b) && (byte_val b <=? hi).
Definition continuation : byte -> bool := in_range 0x80 0xbf.
Fixpoint utf8 (l : list byte) : bool :=
  match l with
  | [] => true
  | b0 :: t0 =>
      if in_range 0 0x7f b0 then utf8 t0
      else match t0 with
      | [] => false
      | b1 :: t1 =>
          if in_range 0xc2 0xdf b0 then continuation b1 && utf8 t1
          else match t1 with
          | [] => false
          | b2 :: t2 =>
              if in_range 0xe0 0xef b0 then
                in_range (if byte_val b0 =? 0xe0 then 0xa0 else 0x80) (if byte_val b0 =? 0xed then 0x9f else 0xbf) b1
                  && continuation b2 && utf8 t2
              else match t2 with
              | [] => false
              | b3 :: t3 =>
                  in_range 0xf0 0xf4 b0
                    && in_range (if byte_val b0 =? 0xf0 then 0x90 else 0x80) (if byte_val b0 =? 0xf4 then 0x8f else 0xbf) b1
                    && continuation b2 && continuation b3 && utf8 t3
              end
          end
      end
  end.

Fixpoint strip_prefix (prefix l : list byte) : option (list byte) :=
  match prefix, l with
  | [], _ => Some l
  | b :: prefix', c :: l' => if bool_decide (b = c) then strip_prefix prefix' l' else None
  | _, [] => None
  end.

(** [trim_start_matches('/')] and [trim_end_matches('/')] *)
Fixpoint trim_start_slash (l : list byte) : list byte :=
  match l with b :: l' => if bool_decide (b = slash) then trim_start_slash l' else l | [] => [] end.
Definition trim_end_slash (l : list byte) : list byte := rev (trim_start_slash (rev l)).

(** The encodings of the characters with the property White_Space. *)
Definition whitespace : list (list byte) :=
  map (map byte_of)
    ([[0x09]; [0x0a]; [0x0b]; [0x0c]; [0x0d]; [0x20]; [0xc2; 0x85]; [0xc2; 0xa0]; [0xe1; 0x9a; 0x80]] ++
     map (fun b => [0xe2; 0x80; b]) [0x80; 0x81; 0x82; 0x83; 0x84; 0x85; 0x86; 0x87; 0x88; 0x89; 0x8a; 0xa8; 0xa9; 0xaf] ++
     [[0xe2; 0x81; 0x9f]; [0xe3; 0x80; 0x80]]).

(** Removing characters from [chars] at the front, as often as possible; the
    characters are not empty, so the length of the string is enough fuel. *)
Fixpoint strip_any (chars : list (list byte)) (l : list byte) : option (list byte) :=
  match chars with
  | [] => None
  | c :: chars' => match strip_prefix c l with Some rest => Some rest | None => strip_any chars' l end
  end.
Fixpoint trim_chars (fuel : nat) (chars : list (list byte)) (l : list byte) : list byte :=
  match fuel with
  | O => l
  | S fuel' => match strip_any chars l with Some rest => trim_chars fuel' chars rest | None => l end
  end.
(** [str::trim] *)
Definition trim (l : list byte) : list byte :=
  let l := trim_chars (length l) whitespace l in
  rev (trim_chars (length l) (map (@rev byte) whitespace) (rev l)).

(** ** [src/mount.rs] *)

Definition MOUNT_PROGRAM : Z := 100005.
Definition MOUNT_VERSION : Z := 3.
Definition MNTPATHLEN : Z := 1024.
Definition MNTNAMLEN : Z := 255.
Definition FHSIZE3 : Z := 64.

Inductive mountstat3 : Type :=
| MNT3_OK | MNT3ERR_PERM | MNT3ERR_NOENT | MNT3ERR_IO | MNT3ERR_ACCES | MNT3ERR_NOTDIR | MNT3ERR_INVAL
| MNT3ERR_NAMETOOLONG | MNT3ERR_NOTSUPP | MNT3ERR_SERVERFAULT.
Definition mountstat3_code (s : mountstat3) : Z :=
  match s with
  | MNT3_OK => 0
  | MNT3ERR_PERM => 1
  | MNT3ERR_NOENT => 2
  | MNT3ERR_IO => 5
  | MNT3ERR_ACCES => 13
  | MNT3ERR_NOTDIR => 20
  | MNT3ERR_INVAL => 22
  | MNT3ERR_NAMETOOLONG => 63
  | MNT3ERR_NOTSUPP => 10004
  | MNT3ERR_SERVERFAULT => 10006
  end.
#[global] Instance xdr_mountstat3 : XDR mountstat3 :=
  xdr_enum mountstat3_code (from_code mountstat3_code
    [MNT3_OK; MNT3ERR_PERM; MNT3ERR_NOENT; MNT3ERR_IO; MNT3ERR_ACCES; MNT3ERR_NOTDIR; MNT3ERR_INVAL;
     MNT3ERR_NAMETOOLONG; MNT3ERR_NOTSUPP; MNT3ERR_SERVERFAULT]).
#[global] Instance lawful_mountstat3 : Lawful mountstat3.
Proof. apply lawful_enum. enum_ok. Defined.

(** ** [src/mount_handlers.rs] *)

Inductive MountProgram : Type :=
| MOUNTPROC3_NULL | MOUNTPROC3_MNT | MOUNTPROC3_DUMP | MOUNTPROC3_UMNT | MOUNTPROC3_UMNTALL | MOUNTPROC3_EXPORT | MOUNT_INVALID.
Definition MountProgram_code (p : MountProgram) : Z :=
  match p with
  | MOUNTPROC3_NULL => 0
  | MOUNTPROC3_MNT => 1
  | MOUNTPROC3_DUMP => 2
  | MOUNTPROC3_UMNT => 3
  | MOUNTPROC3_UMNTALL => 4
  | MOUNTPROC3_EXPORT => 5
  | MOUNT_INVALID => 6
  end.
Definition MountProgram_all : list MountProgram :=
  [MOUNTPROC3_NULL; MOUNTPROC3_MNT; MOUNTPROC3_DUMP; MOUNTPROC3_UMNT; MOUNTPROC3_UMNTALL; MOUNTPROC3_EXPORT; MOUNT_INVALID].

Record mountres3_ok : Type := mkMountOk { fhandle : list byte; auth_flavors : list u32 }.
#[global] Instance xdr_mountres3_ok : XDR mountres3_ok :=
  xdr_struct (fun v => (fhandle v, auth_flavors v)) (fun '(a, b) => mkMountOk a b).
#[global] Instance lawful_mountres3_ok : Lawful mountres3_ok.
Proof. apply lawful_struct. by intros []. Defined.

Definition signal (context : RPCContext) (mounted : bool) : handler unit :=
  if mount_signal context then lift (ask (MountSignal mounted)) else mret tt.

(** The path below the export that a client's path names; [None] if it is not
    below the export. *)
Definition export_path (name path : list byte) : option (list byte) :=
  let utf8path := if utf8 path then path else [] in
  match strip_prefix name utf8path with
  | Some path => Some (slash :: trim (trim_end_slash (trim_start_slash path)))
  | None => None
  end.

Section Programs.
Context `{Provided} (overflow_checks : bool).

Definition mountproc3_null (xid : u32) : handler unit := put (make_success_reply xid).

Definition mountproc3_mnt (xid : u32) (context : RPCContext) : handler unit :=
  path ← get ([] : list byte);
  match export_path (export_name context) path with
  | None => put (make_success_reply xid);; put MNT3ERR_NOENT
  | Some path =>
      r ← lift (path_to_id path);
      match r with
      | Ok fileid =>
          let response := mkMountOk (fh_data (id_to_fh fileid)) [auth_flavor_code AUTH_NULL; auth_flavor_code AUTH_UNIX] in
          signal context true;;
          put (make_success_reply xid);; put MNT3_OK;; put response
      | Err _ => put (make_success_reply xid);; put MNT3ERR_NOENT
      end
  end.

Definition mountproc3_export (xid : u32) (context : RPCContext) : handler unit :=
  put (make_success_reply xid);;
  put true;;
  put (export_name context);;
  put false;;
  put false.

Definition mountproc3_umnt (xid : u32) (context : RPCContext) : handler unit :=
  _ ← get ([] : list byte);
  signal context false;;
  put (make_success_reply xid);; put MNT3_OK.

Definition mountproc3_umnt_all (xid : u32) (context : RPCContext) : handler unit :=
  signal context false;;
  put (make_success_reply xid);; put MNT3_OK.

Definition handle_mount (xid : u32) (call : call_body) (context : RPCContext) : handler unit :=
  match default MOUNT_INVALID (from_code MountProgram_code MountProgram_all (proc call)) with
  | MOUNTPROC3_NULL => mountproc3_null xid
  | MOUNTPROC3_MNT => mountproc3_mnt xid context
  | MOUNTPROC3_UMNT => mountproc3_umnt xid context
  | MOUNTPROC3_UMNTALL => mountproc3_umnt_all xid context
  | MOUNTPROC3_EXPORT => mountproc3_export xid context
  | MOUNTPROC3_DUMP | MOUNT_INVALID => put (proc_unavail_reply_message xid)
  end.

(** ** [src/portmap_handlers.rs] *)

Definition PORTMAP_PROGRAM : Z := 100000.
Definition PORTMAP_VERSION : Z := 2.

Record pmap_mapping : Type := mkPmap { pmap_prog : u32; pmap_vers : u32; pmap_prot : u32; pmap_port : u32 }.
Definition pmap_mapping_default : pmap_mapping := mkPmap 0 0 0 0.
#[local] Instance xdr_pmap_mapping : XDR pmap_mapping :=
  xdr_struct (fun v => (pmap_prog v, (pmap_vers v, (pmap_prot v, pmap_port v)))) (fun '(a, (b, (c, d))) => mkPmap a b c d).

Inductive PortmapProgram : Type :=
| PMAPPROC_NULL | PMAPPROC_SET | PMAPPROC_UNSET | PMAPPROC_GETPORT | PMAPPROC_DUMP | PMAPPROC_CALLIT | PMAP_INVALID.
Definition PortmapProgram_code (p : PortmapProgram) : Z :=
  match p with
  | PMAPPROC_NULL => 0
  | PMAPPROC_SET => 1
  | PMAPPROC_UNSET => 2
  | PMAPPROC_GETPORT => 3
  | PMAPPROC_DUMP => 4
  | PMAPPROC_CALLIT => 5
  | PMAP_INVALID => 6
  end.
Definition PortmapProgram_all : list PortmapProgram :=
  [PMAPPROC_NULL; PMAPPROC_SET; PMAPPROC_UNSET; PMAPPROC_GETPORT; PMAPPROC_DUMP; PMAPPROC_CALLIT; PMAP_INVALID].

Definition pmapproc_null (xid : u32) : handler unit := put (make_success_reply xid).
Definition pmapproc_getport (xid : u32) (context : RPCContext) : handler unit :=
  _ ← get pmap_mapping_default;
  put (make_success_reply xid);;
  put (local_port context : u32).

Definition handle_portmap (xid : u32) (call : call_body) (context : RPCContext) : handler unit :=
  if negb (vers call =? PORTMAP_VERSION) then put (prog_mismatch_reply_message xid PORTMAP_VERSION)
  else match default PMAP_INVALID (from_code PortmapProgram_code PortmapProgram_all (proc call)) with
  | PMAPPROC_NULL => pmapproc_null xid
  | PMAPPROC_GETPORT => pmapproc_getport xid context
  | PMAPPROC_SET | PMAPPROC_UNSET | PMAPPROC_DUMP | PMAPPROC_CALLIT | PMAP_INVALID => put (proc_unavail_reply_message xid)
  end.

(** ** [src/rpcwire.rs] *)

Definition NFS_ACL_PROGRAM : Z := 100227.
Definition NFS_ID_MAP_PROGRAM : Z := 100270.
Definition NFS_METADATA_PROGRAM : Z := 200024.

Definition dispatch (xid : u32) (call : call_body) (context : RPCContext) : handler unit :=
  if LegacyMessage.prog call =? PROGRAM then handle_nfs overflow_checks xid call
  else if LegacyMessage.prog call =? PORTMAP_PROGRAM then handle_portmap xid call context
  else if LegacyMessage.prog call =? MOUNT_PROGRAM then handle_mount xid call context
  else if (LegacyMessage.prog call =? NFS_ACL_PROGRAM) || (LegacyMessage.prog call =? NFS_ID_MAP_PROGRAM) || (LegacyMessage.prog call =? NFS_METADATA_PROGRAM)
  then put (prog_unavail_reply_message xid)
  else put (prog_unavail_reply_message xid).

(** [let res = m.map(|_| true); mark_processed(..); res]: completion is recorded
    whether the call succeeded or not. *)
Definition then_mark (xid : Z) (client : string) (m : handler unit) : handler bool := fun s =>
  r ← m s;
  ask (MarkProcessed xid client) ≫= fun _ =>
  mret (match r with Ok (_, s') => Ok (true, s') | Err e => Err e end).

(** The result says whether the output is to be sent. *)
Definition handle_rpc (context : RPCContext) : handler bool :=
  recv ← get rpc_msg_default;
  let xid := LegacyMessage.xid recv in
  match msg_body recv with
  | CALL call =>
      context ← (match flavor (cred call) with
        | AUTH_UNIX => fun s =>
            match deserialize auth_unix_default (LegacyMessage.body (cred call)) with
            | Ok (a, _) => mret (Ok (set_auth a context, s))
            | Err e => mret (Err (Io e))
            end
        | _ => mret context
        end : handler RPCContext);
      if negb (rpcvers call =? 2) then put (rpc_vers_mismatch xid);; mret true
      else
        seen ← lift (ask (IsRetransmission xid (client_addr context)));
        if (seen : bool) then mret false
        else then_mark xid (client_addr context) (dispatch xid call context)
  | REPLY _ => fun s => mret (Err BadCallFormat)
  end.

(** The task [SocketMessageHandler::read] spawns for a record: what it puts in
    the reply queue. *)
Definition serve_record (context : RPCContext) (record : list byte) : LegacyVfs.prog (option (result Failure (list byte))) :=
  maybe_reply ← handle_rpc context (record, []);
  mret (match maybe_reply with
    | Err e => Some (Err e)
    | Ok (true, (_, write_buf)) => Some (Ok write_buf)
    | Ok (false, _) => None
    end).
End Programs.

(** ** What a call is answered with *)

Inductive mount_reply (context : RPCContext) (xid : u32) (p : MountProgram) : list byte -> Prop :=
| mount_unavailable w :
    p ∈ [MOUNTPROC3_DUMP; MOUNT_INVALID] -> serialize (proc_unavail_reply_message xid) = Some w -> mount_reply context xid p w
| mount_null w : p = MOUNTPROC3_NULL -> serialize (make_success_reply xid) = Some w -> mount_reply context xid p w
| mount_granted (v : mountres3_ok) h body :
    p = MOUNTPROC3_MNT -> serialize (make_success_reply xid) = Some h -> serialize (MNT3_OK, v) = Some body ->
    mount_reply context xid p (h ++ body)
| mount_refused h body :
    p = MOUNTPROC3_MNT -> serialize (make_success_reply xid) = Some h -> serialize MNT3ERR_NOENT = Some body ->
    mount_reply context xid p (h ++ body)
| mount_exports h body :
    p = MOUNTPROC3_EXPORT -> serialize (make_success_reply xid) = Some h ->
    serialize (true, (export_name context, (false, false))) = Some body -> mount_reply context xid p (h ++ body)
| mount_released h body :
    p ∈ [MOUNTPROC3_UMNT; MOUNTPROC3_UMNTALL] -> serialize (make_success_reply xid) = Some h ->
    serialize MNT3_OK = Some body -> mount_reply context xid p (h ++ body).

Inductive portmap_reply (context : RPCContext) (xid : u32) (p : PortmapProgram) : list byte -> Prop :=
| portmap_unavailable w :
    p ∈ [PMAPPROC_SET; PMAPPROC_UNSET; PMAPPROC_DUMP; PMAPPROC_CALLIT; PMAP_INVALID] ->
    serialize (proc_unavail_reply_message xid) = Some w -> portmap_reply context xid p w
| portmap_null w : p = PMAPPROC_NULL -> serialize (make_success_reply xid) = Some w -> portmap_reply context xid p w
| portmap_port h body :
    p = PMAPPROC_GETPORT -> serialize (make_success_reply xid) = Some h -> serialize (local_port context : u32) = Some body ->
    portmap_reply context xid p (h ++ body).

Definition program_reply (context : RPCContext) (xid : u32) (call : call_body) (w : list byte) : Prop :=
  if LegacyMessage.prog call =? PROGRAM then nfs_reply xid call w
  else if LegacyMessage.prog call =? PORTMAP_PROGRAM then
    if vers call =? PORTMAP_VERSION
    then portmap_reply context xid (default PMAP_INVALID (from_code PortmapProgram_code PortmapProgram_all (proc call))) w
    else serialize (prog_mismatch_reply_message xid PORTMAP_VERSION) = Some w
  else if LegacyMessage.prog call =? MOUNT_PROGRAM then
    mount_reply context xid (default MOUNT_INVALID (from_code MountProgram_code MountProgram_all (proc call))) w
  else serialize (prog_unavail_reply_message xid) = Some w.

(** The effects of a program: the file system and the mount listener. *)
Definition program_effects (c : VFSCapabilities) (e : demo_effect) : Prop :=
  match e with
  | Fs _ => effects c e
  | MountSignal _ => True
  | IsRetransmission _ _ | MarkProcessed _ _ => False
  end.

(** What the call makes the program read after the message, by type. *)
Definition portmap_procedure (call : call_body) : PortmapProgram :=
  default PMAP_INVALID (from_code PortmapProgram_code PortmapProgram_all (proc call)).
Definition mount_procedure (call : call_body) : MountProgram :=
  default MOUNT_INVALID (from_code MountProgram_code MountProgram_all (proc call)).
Definition program_arguments (c : VFSCapabilities) (call : call_body) (s : list byte) : result XdrError (list byte) :=
  if LegacyMessage.prog call =? PROGRAM then nfs_arguments c call s
  else if LegacyMessage.prog call =? PORTMAP_PROGRAM then
    if vers call =? PORTMAP_VERSION
    then match portmap_procedure call with PMAPPROC_GETPORT => @skip _ xdr_pmap_mapping pmap_mapping_default s | _ => Ok s end
    else Ok s
  else if LegacyMessage.prog call =? MOUNT_PROGRAM then
    match mount_procedure call with MOUNTPROC3_MNT | MOUNTPROC3_UMNT => skip ([] : list byte) s | _ => Ok s end
  else Ok s.

(** CREATE of NFS may answer before it has read its attributes. *)
Definition creates (call : call_body) : bool :=
  (LegacyMessage.prog call =? PROGRAM) && bool_decide (procedure call = NFSPROC3_CREATE).

#[global] Instance encodable_mountstat3 : Encodable mountstat3 := encodable_enum _ _.

Section Answers.
Context `{ProvidedLaws} (overflow_checks : bool) (c : VFSCapabilities) (xid : u32) (context : RPCContext).
Context (Hname : wf (export_name context)).
Abbreviation answering Q := (writes (overflow_checks = true) (program_effects c) (answers c) (fun _ : unit => Q)).

Lemma name_encodes : is_Some (serialize (export_name context)).
Proof. by apply lawful_encodes. Qed.

Lemma mount_ok_encodes id : is_Some (serialize (mkMountOk (fh_data (id_to_fh id)) [auth_flavor_code AUTH_NULL; auth_flavor_code AUTH_UNIX])).
Proof.
  apply lawful_encodes. split; cbn [fst snd]; [apply handles_fit|]. split; [done|]. by repeat constructor.
Qed.
Hint Resolve name_encodes mount_ok_encodes : encode.

Lemma signal_answers b (Q : unit -> list byte -> Prop) :
  Q tt [] -> writes (overflow_checks = true) (program_effects c) (answers c) Q (signal context b).
Proof. intros HQ. unfold signal. destruct (mount_signal context); [|by apply writes_ret]. apply writes_lift. split; [done|]. by intros []. Qed.

Lemma mnt_answers : answering (mount_reply context xid MOUNTPROC3_MNT) (mountproc3_mnt xid context).
Proof.
  unfold mountproc3_mnt. repeat handler_step.
  destruct (export_path (export_name context) v) as [path|]; repeat handler_step; [|by apply mount_refused].
  apply writes_lift. eapply fwp_mono; [..|apply (path_to_id_sane c)]; [done|by intros []|done|].
  intros [id|e] _; cbn [app]; [|repeat handler_step; by apply mount_refused].
  handler_step. apply signal_answers. cbn [app]. repeat handler_step. eapply mount_granted; [done|done|]. by apply serialize_pair.
Qed.

Lemma umnt_answers p m : p ∈ [MOUNTPROC3_UMNT; MOUNTPROC3_UMNTALL] ->
  m = mountproc3_umnt xid context \/ m = mountproc3_umnt_all xid context -> answering (mount_reply context xid p) m.
Proof.
  intros Hp [->| ->]; [unfold mountproc3_umnt; handler_step; handler_step|unfold mountproc3_umnt_all].
  all: handler_step; apply signal_answers; cbn [app]; repeat handler_step; by eapply mount_released.
Qed.

Lemma mount_answers call :
  answering (mount_reply context xid (default MOUNT_INVALID (from_code MountProgram_code MountProgram_all (proc call)))) (handle_mount xid call context).
Proof.
  unfold handle_mount. destruct (default MOUNT_INVALID _).
  - unfold mountproc3_null. handler_step. by apply mount_null.
  - apply mnt_answers.
  - handler_step. apply mount_unavailable; [set_solver|done].
  - apply umnt_answers; [set_solver|by left].
  - apply umnt_answers; [set_solver|by right].
  - unfold mountproc3_export. repeat handler_step. apply mount_exports; [done|done|]. by pieces.
  - handler_step. apply mount_unavailable; [set_solver|done].
Qed.

Lemma dispatch_answers call : answering (program_reply context xid call) (dispatch overflow_checks xid call context).
Proof.
  unfold dispatch, program_reply. destruct (_ =? PROGRAM).
  { intros i o. eapply fwp_mono; [..|apply (handle_nfs_conforms overflow_checks c xid call i o)]; [done|by intros []|done|done]. }
  destruct (_ =? PORTMAP_PROGRAM).
  { unfold handle_portmap. destruct (vers call =? PORTMAP_VERSION); cbn [negb]; [|by handler_step].
    destruct (default PMAP_INVALID _); try (handler_step; apply portmap_unavailable; [set_solver|done]).
    - unfold pmapproc_null. handler_step. by apply portmap_null.
    - unfold pmapproc_getport. repeat handler_step. by apply portmap_port. }
  destruct (_ =? MOUNT_PROGRAM); [apply mount_answers|]. destruct (_ || _ || _); by handler_step.
Qed.
End Answers.

Section Arguments.
Context `{Provided} (overflow_checks : bool) (c : VFSCapabilities) (xid : u32) (context : RPCContext).

Lemma signal_silent b : reading c Ok (signal context b).
Proof. unfold signal. repeat silence. Qed.

Lemma mount_reads call :
  reading c (fun s => match mount_procedure call with MOUNTPROC3_MNT | MOUNTPROC3_UMNT => skip ([] : list byte) s | _ => Ok s end)
    (handle_mount xid call context).
Proof.
  unfold handle_mount. fold (mount_procedure call). destruct (mount_procedure call).
  - apply silent_put.
  - unfold mountproc3_mnt. apply reading_last; [apply reading_get|]. intros path.
    destruct (export_path _ _); repeat first [silence|apply signal_silent].
  - apply silent_put.
  - unfold mountproc3_umnt. apply reading_last; [apply reading_get|]. intros path. repeat first [silence|apply signal_silent].
  - unfold mountproc3_umnt_all. apply reading_last; [apply signal_silent|]. intros ?. repeat silence.
  - unfold mountproc3_export. apply reading_last; [apply silent_put|]. intros ?. repeat silence.
  - apply silent_put.
Qed.

Lemma dispatch_reads call : creates call = false -> reading c (program_arguments c call) (dispatch overflow_checks xid call context).
Proof.
  unfold creates, dispatch, program_arguments. intros Hc. destruct (_ =? PROGRAM).
  { apply handle_nfs_reads. by apply bool_decide_eq_false in Hc. }
  destruct (_ =? PORTMAP_PROGRAM).
  { unfold handle_portmap. fold (portmap_procedure call). destruct (vers call =? PORTMAP_VERSION); cbn [negb]; [|apply silent_put].
    destruct (portmap_procedure call); try apply silent_put. unfold pmapproc_getport. reads. }
  destruct (_ =? MOUNT_PROGRAM); [apply mount_reads|]. destruct (_ || _ || _); apply silent_put.
Qed.

Lemma dispatch_fails call : failing c (program_arguments c call) (dispatch overflow_checks xid call context).
Proof.
  destruct (creates call) eqn:Hc; [|by apply failing_reading, dispatch_reads].
  unfold creates in Hc. apply andb_true_iff in Hc as [Hp _]. unfold dispatch, program_arguments. rewrite Hp. apply handle_nfs_fails.
Qed.
End Arguments.

(** What a program does with a call: the reply, and that the arguments were
    readable; or what made them unreadable. *)
Definition program_result c context xid call args (r : result Failure (unit * (list byte * list byte))) : Prop :=
  match r with
  | Ok (_, (_, w)) =>
      program_reply context xid call w /\ (creates call = false -> exists rest, program_arguments c call args = Ok rest)
  | Err e => exists x, e = Io x /\ program_arguments c call args = Err x
  end.

Lemma dispatch_result `{ProvidedLaws} overflow_checks c xid context call args :
  wf (export_name context) ->
  fwp (overflow_checks = true) (program_effects c) (answers c) (program_result c context xid call args)
    (dispatch overflow_checks xid call context (args, [])).
Proof.
  intros Hn. eapply fwp_mono; [..|apply fwp_also; [apply (dispatch_answers overflow_checks c xid context Hn call args [])|
    apply (fwp_also True (fun _ => True)); [apply (dispatch_fails overflow_checks c xid context call)|
    apply (reading_readable c _ _ _ args [] (dispatch_reads overflow_checks c xid context call))]]]; [done|done|done|].
  intros [[u [i' o']]|e] (Hw & He & Hr); [|by apply He]. destruct Hw as (w & -> & Hw). split; [done|]. by eapply Hr.
Qed.

(** ** One record *)

(** The credentials of a call: only those of AUTH_UNIX are looked at. *)
Definition credentials (call : call_body) : result XdrError unit :=
  match flavor (cred call) with
  | AUTH_UNIX => '(_, _) ← deserialize auth_unix_default (LegacyMessage.body (cred call)); Ok tt
  | _ => Ok tt
  end.

(** How a call that reached its program ends: it is answered by the program, and
    its arguments were readable; or it breaks off where they are not. *)
Definition call_outcome c context xid call args (out : option (result Failure (list byte))) : Prop :=
  match out with
  | Some (Ok w) =>
      program_reply context xid call w /\ (creates call = false -> exists rest, program_arguments c call args = Ok rest)
  | Some (Err e) => exists x, e = Io x /\ program_arguments c call args = Err x
  | None => False
  end.

(** What the task for a record does, [seen] being what the tracker says of a
    transaction: its outcome and the effects it performs. *)
Definition record_outcome (seen : Z -> string -> bool) c context record
  (out : option (result Failure (list byte))) (trace : list demo_effect) : Prop :=
  match deserialize rpc_msg_default record with
  | Err x => out = Some (Err (Io x)) /\ trace = []
  | Ok (msg, args) =>
      let xid := LegacyMessage.xid msg in
      let client := client_addr context in
      match msg_body msg with
      | REPLY _ => out = Some (Err BadCallFormat) /\ trace = []
      | CALL call =>
          match credentials call with
          | Err x => out = Some (Err (Io x)) /\ trace = []
          | Ok _ =>
              if negb (rpcvers call =? 2) then
                (exists w, out = Some (Ok w) /\ serialize (rpc_vers_mismatch xid) = Some w) /\ trace = []
              else if seen xid client then out = None /\ trace = [IsRetransmission xid client]
              else call_outcome c context xid call args out /\
                exists performed, trace = IsRetransmission xid client :: performed ++ [MarkProcessed xid client] /\
                  Forall (program_effects c) performed
          end
      end
  end.

(** The credentials do not matter. *)
Lemma program_reply_auth a context xid call w : program_reply (set_auth a context) xid call w -> program_reply context xid call w.
Proof.
  unfold program_reply. destruct (_ =? PROGRAM); [done|]. destruct (_ =? PORTMAP_PROGRAM).
  - destruct (_ =? PORTMAP_VERSION); [|done]. destruct 1; [by apply portmap_unavailable|by apply portmap_null|by apply portmap_port].
  - destruct (_ =? MOUNT_PROGRAM); [|done].
    destruct 1; [by apply mount_unavailable|by apply mount_null|by eapply mount_granted|by eapply mount_refused|by apply mount_exports|by apply mount_released].
Qed.

Section Record.
Context `{ProvidedLaws} {St : Type} (answer : forall e, St -> reply_of e * St) (c : VFSCapabilities).
Context (Ha : forall e s, answers c e (answer e s).1).

(** [handle_rpc] once the credentials are read. *)
Definition after_credentials (xid : u32) (call : call_body) (context : RPCContext) : handler bool :=
  if negb (rpcvers call =? 2) then put (rpc_vers_mismatch xid);; mret true
  else
    seen ← lift (ask (IsRetransmission xid (client_addr context)));
    if (seen : bool) then mret false
    else then_mark xid (client_addr context) (dispatch false xid call context).

Definition queued (r : result Failure (bool * (list byte * list byte))) : option (result Failure (list byte)) :=
  match r with
  | Err e => Some (Err e)
  | Ok (true, (_, write_buf)) => Some (Ok write_buf)
  | Ok (false, _) => None
  end.

Lemma then_mark_outcome xid call context args s :
  wf (export_name context) ->
  exists r s' performed,
    exec answer (then_mark xid (client_addr context) (dispatch false xid call context) (args, [])) s =
      (Some r, s', performed ++ [MarkProcessed xid (client_addr context)]) /\
    call_outcome c context xid call args (queued r) /\ Forall (program_effects c) performed.
Proof.
  intros Hn. unfold then_mark. rewrite exec_bind.
  destruct (fwp_exec answer (program_effects c) (answers c) (program_result c context xid call args)
    (dispatch false xid call context (args, [])) s Ha) as (r & s1 & performed & -> & Hr & Hp).
  { eapply fwp_mono; [..|apply (dispatch_result false)]; done. }
  simpl. destruct (answer _ s1) as [[] s2]. do 3 eexists. split; [reflexivity|]. split; [|done].
  by destruct r as [[u [i' w]]|e].
Qed.

Lemma after_credentials_outcome xid call context args s :
  wf (export_name context) ->
  exists r s' trace, exec answer (after_credentials xid call context (args, [])) s = (Some r, s', trace) /\
    let client := client_addr context in
    if negb (rpcvers call =? 2) then
      (exists w, queued r = Some (Ok w) /\ serialize (rpc_vers_mismatch xid) = Some w) /\ trace = []
    else if (answer (IsRetransmission xid client) s).1 then queued r = None /\ trace = [IsRetransmission xid client]
    else call_outcome c context xid call args (queued r) /\
      exists performed, trace = IsRetransmission xid client :: performed ++ [MarkProcessed xid client] /\
        Forall (program_effects c) performed.
Proof.
  intros Hn. unfold after_credentials. destruct (rpcvers call =? 2); cbn [negb].
  - unfold mbind, handler_bind, lift. rewrite exec_bind. cbn [ask exec mbind free_bind free_bind_ mret free_ret].
    destruct (answer (IsRetransmission xid (client_addr context)) s) as [[] s1]; cbn [fst].
    + do 3 eexists. split; [reflexivity|]. done.
    + destruct (then_mark_outcome xid call context args s1 Hn) as (r & s' & performed & He & Hr & Hp).
      rewrite He. do 3 eexists. split; [reflexivity|]. split; [done|]. by exists performed.
  - do 3 eexists. split; [reflexivity|]. split; [|done]. by eexists.
Qed.

Lemma handle_rpc_call context record msg call args :
  deserialize rpc_msg_default record = Ok (msg, args) -> msg_body msg = CALL call ->
  match credentials call with
  | Ok _ => exists a, handle_rpc false context (record, []) = after_credentials (LegacyMessage.xid msg) call (set_auth a context) (args, [])
  | Err x => handle_rpc false context (record, []) = mret (Err (Io x))
  end.
Proof.
  intros Hd Hb. unfold handle_rpc, get, mbind, handler_bind. cbv beta. cbn [fst snd]. rewrite Hd.
  cbn [mbind free_bind free_bind_ mret free_ret]. rewrite Hb. unfold credentials. destruct (flavor (cred call)).
  2: destruct (deserialize auth_unix_default (LegacyMessage.body (cred call))) as [[a ?]|x]; [by exists a|done].
  all: exists (auth context); by destruct context.
Qed.

Lemma serve_record_outcome context record s :
  wf (export_name context) ->
  exists out s' trace, exec answer (serve_record false context record) s = (Some out, s', trace) /\
    record_outcome (fun x client => (answer (IsRetransmission x client) s).1) c context record out trace.
Proof.
  intros Hn. unfold serve_record, record_outcome. rewrite exec_bind.
  destruct (deserialize rpc_msg_default record) as [[msg args]|x] eqn:Hd.
  2: { unfold handle_rpc, get, mbind, handler_bind. cbv beta. cbn [fst snd]. rewrite Hd. simpl. by do 3 eexists. }
  destruct (msg_body msg) as [call|r] eqn:Hb.
  2: { unfold handle_rpc, get, mbind, handler_bind. cbv beta. cbn [fst snd]. rewrite Hd.
       cbn [mbind free_bind free_bind_ mret free_ret]. rewrite Hb. simpl. by do 3 eexists. }
  pose proof (handle_rpc_call context record msg call args Hd Hb) as Hc.
  destruct (credentials call) as [[]|x]; [|rewrite Hc; simpl; by do 3 eexists]. destruct Hc as [a ->].
  destruct (after_credentials_outcome (LegacyMessage.xid msg) call (set_auth a context) args s Hn) as (r & s' & trace & -> & Hr).
  exists (queued r), s', trace. split; [by cbn; rewrite app_nil_r|]. cbn [client_addr set_auth] in Hr.
  destruct (negb _); [done|]. destruct (answer _ s).1; [done|]. destruct Hr as [Hr ?]. split; [|done].
  destruct (queued r) as [[w|e]|]; [|done|done]. destruct Hr as [Hr ?]. split; [|done]. by eapply program_reply_auth.
Qed.
End Record.

(** The transaction id and the direction of a reply are its first two words. *)
Definition answers_to (xid : u32) (w : list byte) : Prop := exists rest, w = be_bytes 4 xid ++ be_bytes 4 1 ++ rest.

Lemma success_answers_to xid h body : serialize (make_success_reply xid) = Some h -> answers_to xid (h ++ body).
Proof. intros [= <-]. eexists. by rewrite <- !app_assoc. Qed.

Lemma accepted_answers_to xid b w : serialize (accepted xid b) = Some w -> answers_to xid w.
Proof. destruct b; intros [= <-]; by eexists. Qed.

Lemma program_reply_answers_to context xid call w : program_reply context xid call w -> answers_to xid w.
Proof.
  assert (forall h, serialize (make_success_reply xid) = Some h -> answers_to xid h) as Hs.
  { intros h Hh. rewrite <- (app_nil_r h). by apply success_answers_to. }
  unfold program_reply, nfs_reply. intros Hr. repeat case_match; try (by eapply accepted_answers_to).
  - destruct Hr; eauto using accepted_answers_to, success_answers_to. rewrite <- app_assoc. by apply success_answers_to.
  - destruct Hr; eauto using accepted_answers_to, success_answers_to.
  - destruct Hr; eauto using accepted_answers_to, success_answers_to.
Qed.

(** C32: one record, one outcome. A task never panics (built without overflow
    checks). A record that is not a call, or whose credentials cannot be read, ends
    the connection with that error, and nothing is touched. A call of another RPC
    version is answered so. Any other call is first asked of the tracker, under its
    own transaction: it is left unanswered if and only if the tracker knows it, and
    then nothing else happens; otherwise the program it names runs, touching only
    the file system and the mount listener, and completion is marked at the end.
    The call is then answered under its own transaction id by that program, or with
    the error for an unknown version, program or procedure, unless its arguments,
    read in order by their types, break off, which ends the connection with that
    error. *)
Theorem demo_record_answered `{ProvidedLaws} {St} (answer : forall e, St -> reply_of e * St) c context record s :
  (forall e s, answers c e (answer e s).1) -> wf (export_name context) ->
  exists out s' trace, exec answer (serve_record false context record) s = (Some out, s', trace) /\
    record_outcome (fun x client => (answer (IsRetransmission x client) s).1) c context record out trace /\
    match out with
    | Some (Ok w) => exists msg rest, deserialize rpc_msg_default record = Ok (msg, rest) /\ answers_to (LegacyMessage.xid msg) w
    | _ => True
    end.
Proof.
  intros Ha Hn. destruct (serve_record_outcome answer c Ha context record s Hn) as (out & s' & trace & He & HQ).
  exists out, s', trace. split_and!; [done|done|]. destruct out as [[w|e]|]; [|done|done]. unfold record_outcome in HQ.
  destruct (deserialize rpc_msg_default record) as [[msg rest]|e]; [|by destruct HQ]. exists msg, rest. split; [done|].
  destruct (msg_body msg) as [call|]; [|by destruct HQ]. destruct (credentials call); [|by destruct HQ].
  destruct (rpcvers call =? 2); cbn [negb] in HQ.
  - case_match; [by destruct HQ|]. destruct HQ as [[HQ _] _]. by eapply program_reply_answers_to.
  - destruct HQ as [(w' & [= <-] & [= <-]) _]. by eexists.
Qed.
