(* ===== verification/LegacyServer.v ===== *)
(** * The request tasks of the demo server, sharing one transaction tracker

    Every record received spawns a task; the tasks of all connections interleave
    at their effects and share the [TransactionTracker]. The step relation lets
    any task take its next step at any time, with any answer of the file system.
    The theorems compose [handle_rpc] with the tracker's refinement: a transaction
    is not executed again until the retention period after its completion has
    passed. *)
From S2P Require Import Prelude Tracker Xdr LegacyMessage LegacyNfs Free LegacyVfs LegacyHandlers LegacyReplies LegacyBehaviour LegacyRpc.
From stdpp Require Import list sets strings gmap relations.
#[local] Open Scope Z_scope.
Import TransactionState.

(** ** The shape of a task *)

Definition is_tracker (e : demo_effect) : bool :=
  match e with IsRetransmission _ _ | MarkProcessed _ _ => true | _ => false end.

(** A task that was let through for the transaction [(client, x)]: file system
    calls and signals, then the completion, unless it crashes. *)
Fixpoint executing {A} (client : string) (x : Z) (p : LegacyVfs.prog A) : Prop :=
  match p with
  | Done _ => False
  | Ask e k =>
      is_tracker e = false /\ (forall r, executing client x (k r)) \/
      e = MarkProcessed x client /\ exists a, forall r, k r = Done a
  | Crash => True
  end.

(** A task that has not asked the tracker yet, or is finished. *)
Definition waiting {A} (p : LegacyVfs.prog A) : Prop :=
  match p with
  | Done _ => True
  | Ask e k =>
      match e as e return (reply_of e -> LegacyVfs.prog A) -> Prop with
      | IsRetransmission x client => fun k => (exists a, k true = Done a) /\ executing client x (k false)
      | _ => fun _ => False
      end k
  | Crash => False
  end.

Lemma executing_then_mark {A B} client x (p : LegacyVfs.prog A) (g : A -> B) :
  at_most is_tracker 0 p ->
  executing client x (p ≫= fun a => ask (MarkProcessed x client) ≫= fun _ => mret (g a)).
Proof.
  induction p as [a|e k IH|]; intros Hp; [|simpl in Hp; destruct (is_tracker e) eqn:Ee; [done|]|done].
  - right. split; [done|]. by eexists.
  - left. split; [done|]. intros r. apply IH, Hp.
Qed.

Lemma executing_fmap {A B} client x (p : LegacyVfs.prog A) (g : A -> B) :
  executing client x p -> executing client x (p ≫= fun a => mret (g a)).
Proof.
  induction p as [a|e k IH|]; [done| |done]. intros [[He Hk]|[-> [a Ha]]]; [left|right].
  - split; [done|]. intros r. apply IH, Hk.
  - split; [done|]. exists (g a). intros r. cbn [mbind free_bind free_bind_]. by rewrite Ha.
Qed.

Lemma walk_quiet b splits fid : (forall op, b (Fs op) = false) -> at_most b 0 (walk fid splits).
Proof.
  intros Hb. revert fid. induction splits as [|[|c w] splits IH]; intros fid; [done|apply IH|].
  cbn [walk]. unfold call, ask. cbn [mbind free_bind free_bind_ at_most]. rewrite Hb. intros [fid'|e]; [apply IH|done].
Qed.

Section Tasks.
Context (gennum : Z) (overflow_checks : bool).
#[local] Instance demo_methods : Provided := provided_default gennum.

Lemma nfs_quiet xid call : bounded is_tracker 0 (handle_nfs overflow_checks xid call).
Proof.
  unfold handle_nfs. destruct (negb _); [repeat quiet_step|]. destruct (default INVALID _).
  all: unfold nfsproc3_null, nfsproc3_getattr, nfsproc3_lookup, nfsproc3_read, nfsproc3_fsinfo, nfsproc3_access, nfsproc3_pathconf,
    nfsproc3_fsstat, nfsproc3_readdir, nfsproc3_readdirplus, nfsproc3_write, nfsproc3_create, nfsproc3_setattr, nfsproc3_remove,
    nfsproc3_rename, nfsproc3_mkdir, nfsproc3_symlink, nfsproc3_readlink, if_writable.
  all: repeat quiet_step.
Qed.

Lemma dispatch_quiet xid call context : bounded is_tracker 0 (dispatch overflow_checks xid call context).
Proof.
  unfold dispatch. destruct (_ =? PROGRAM); [apply nfs_quiet|].
  unfold handle_portmap, handle_mount, mountproc3_null, mountproc3_mnt, mountproc3_umnt, mountproc3_umnt_all, mountproc3_export,
    pmapproc_null, pmapproc_getport, signal.
  repeat first [quiet_step | apply bounded_lift; simpl; intros ?; by apply walk_quiet].
Qed.

(** Every task asks the tracker first, if it gets that far, and is over when it
    is told that the request is a retransmission. *)
Lemma serve_record_waiting context record : waiting (serve_record overflow_checks context record).
Proof.
  unfold serve_record, handle_rpc, get, mbind, handler_bind. cbv beta. cbn [fst snd].
  destruct (deserialize rpc_msg_default record) as [[[x b] rest]|e]; [|done].
  cbn [mbind handler_bind free_bind free_bind_ mret free_ret handler_ret msg_body LegacyMessage.xid].
  destruct b as [call|r]; [|done]. destruct (flavor (cred call)).
  2: destruct (deserialize auth_unix_default (LegacyMessage.body (cred call))) as [[a ?]|?]; [|done].
  all: cbn [mbind handler_bind free_bind free_bind_ mret free_ret handler_ret]; destruct (negb (rpcvers call =? 2)); [done|].
  all: split; [by eexists|].
  all: apply executing_fmap, executing_then_mark, dispatch_quiet.
Qed.
End Tasks.

(** ** The pool of tasks *)

Abbreviation key := (string * Z)%type.
Abbreviation task := (LegacyVfs.prog (option (result Failure (list byte)))).

(** What happened to transactions: let through, completed. *)
Inductive event : Type := Started (at_ : Z) (k : key) | Finished (at_ : Z) (k : key).

(** With each task the transaction it was let through for. *)
Record world : Type := mkWorld {
  clock : Z;
  tracker : TrackerState;
  pool : list (option key * task);
  log : list event
}.

Section Pool.
Context (gennum : Z) (overflow_checks : bool) (retention : Z).

(** A task takes its next step: the file system answers as it likes, the tracker
    as [src/transaction_tracker.rs] does. Time does not go backwards. *)
Inductive step : world -> world -> Prop :=
| step_spawn w context record :
    step w (mkWorld (clock w) (tracker w)
      (pool w ++ [(None, @serve_record (provided_default gennum) overflow_checks context record)]) (log w))
| step_outside w (i : nat) (o : option key) e (k : reply_of e -> task) (r : reply_of e) now :
    pool w !! i = Some (o, Ask e k) -> is_tracker e = false -> clock w <= now ->
    step w (mkWorld now (tracker w) (<[i := (o, k r)]> (pool w)) (log w))
| step_let_through w (i : nat) (o : option key) x client (k : bool -> task) now st :
    pool w !! i = Some (o, @Ask _ demo_effects _ (IsRetransmission x client) k) -> clock w <= now ->
    is_retransmission retention now x client (tracker w) = (false, st) ->
    step w (mkWorld now st (<[i := (Some (client, x), k false)]> (pool w)) (log w ++ [Started now (client, x)]))
| step_drop w (i : nat) (o : option key) x client (k : bool -> task) now st :
    pool w !! i = Some (o, @Ask _ demo_effects _ (IsRetransmission x client) k) -> clock w <= now ->
    is_retransmission retention now x client (tracker w) = (true, st) ->
    step w (mkWorld now st (<[i := (None, k true)]> (pool w)) (log w))
| step_complete w (i : nat) (o : option key) x client (k : unit -> task) now :
    pool w !! i = Some (o, @Ask _ demo_effects _ (MarkProcessed x client) k) -> clock w <= now ->
    step w (mkWorld now (mark_processed now x client (tracker w)) (<[i := (None, k tt)]> (pool w))
      (log w ++ [Finished now (client, x)])).

Definition initial (now : Z) : world := mkWorld now Tracker.new [] [].

(** ** Invariant *)

(** The last event of a transaction. *)
Fixpoint last_event (k : key) (l : list event) : option TransactionState.t :=
  match l with
  | [] => None
  | e :: l' =>
      match last_event k l' with
      | Some s => Some s
      | None =>
          match e with
          | Started _ k' => if decide (k' = k) then Some InProgress else None
          | Finished t k' => if decide (k' = k) then Some (Completed t) else None
          end
      end
  end.

Lemma last_event_snoc k l e :
  last_event k (l ++ [e]) =
  match e with
  | Started _ k' => if decide (k' = k) then Some InProgress else last_event k l
  | Finished t k' => if decide (k' = k) then Some (Completed t) else last_event k l
  end.
Proof.
  induction l as [|e' l IH]; cbn [app last_event].
  - destruct e; by destruct (decide _).
  - rewrite IH. destruct e; by destruct (decide _).
Qed.

(** Every transaction is started afresh or at least the retention period after
    its last completion. *)
Inductive spaced : list event -> Prop :=
| spaced_nil : spaced []
| spaced_start l t k : spaced l -> Reference.remembered retention t (last_event k l) = false -> spaced (l ++ [Started t k])
| spaced_finish l t k : spaced l -> last_event k l = Some InProgress -> spaced (l ++ [Finished t k]).

Record valid (w : world) (s : Reference.state) : Prop := {
  v_tracker : represents retention (clock w) (tracker w) s;
  v_log k : s !! k = last_event k (log w);
  v_spaced : spaced (log w);
  v_waiting i p : pool w !! i = Some (None, p) -> waiting p;
  v_running i client x p : pool w !! i = Some (Some (client, x), p) -> executing client x p /\ s !! (client, x) = Some InProgress;
  v_distinct i j k p q : pool w !! i = Some (Some k, p) -> pool w !! j = Some (Some k, q) -> i = j
}.

Lemma represents_later last now st s : represents retention last st s -> last <= now -> represents retention now st s.
Proof.
  intros [Hq Ha] Hl. split; [by eapply queued_later|]. intros client x. specialize (Ha client x). unfold agrees in *.
  destruct (s !! (client, x)) as [[|a]|]; [done| |done]. destruct Ha as [?|[? ?]]; [by left|right; split; [done|lia]].
Qed.

Implicit Types (w : world) (s : Reference.state).

(** Changing one task of the pool. *)
Lemma lookup_task (l : list (option key * task)) i o p j q :
  is_Some (l !! i) -> <[i := (o, p)]> l !! j = Some q -> (i = j /\ q = (o, p)) \/ (i <> j /\ l !! j = Some q).
Proof.
  intros Hi Hq. destruct (decide (i = j)) as [<-|Hne]; [left|right].
  - rewrite list_lookup_insert_eq in Hq by (by apply lookup_lt_is_Some_1). by simplify_eq.
  - by rewrite list_lookup_insert_ne in Hq.
Qed.

(** A task that asks the tracker has not been let through; one that reports
    completion has, for that transaction. *)
Lemma asks_is_waiting w s i o x client k :
  valid w s -> pool w !! i = Some (o, @Ask _ demo_effects _ (IsRetransmission x client) k) ->
  o = None /\ (exists a, k true = Done a) /\ executing client x (k false).
Proof.
  intros Hv Hp. destruct o as [[c y]|].
  - destruct (v_running _ _ Hv _ _ _ _ Hp) as [[[? _]|[? _]] _]; done.
  - split; [done|]. apply (v_waiting _ _ Hv _ _ Hp).
Qed.

Lemma completes_is_running w s i o x client k :
  valid w s -> pool w !! i = Some (o, @Ask _ demo_effects _ (MarkProcessed x client) k) ->
  o = Some (client, x) /\ s !! (client, x) = Some InProgress /\ exists a, forall u, k u = Done a.
Proof.
  intros Hv Hp. destruct o as [[c y]|].
  - destruct (v_running _ _ Hv _ _ _ _ Hp) as [[[? _]|[[= -> ->] Hk]] Hs]; done.
  - destruct (v_waiting _ _ Hv _ _ Hp).
Qed.

Lemma valid_spawn w s context record : valid w s ->
  valid (mkWorld (clock w) (tracker w) (pool w ++ [(None, @serve_record (provided_default gennum) overflow_checks context record)]) (log w)) s.
Proof.
  intros Hv. split; cbn [clock tracker pool log]; try apply Hv.
  - intros i p. rewrite lookup_app_Some. intros [Hp|[_ Hp]]; [by apply Hv in Hp|].
    apply list_lookup_singleton_Some in Hp as [_ [= <-]]. apply serve_record_waiting.
  - intros i client x p. rewrite lookup_app_Some. intros [Hp|[_ Hp]]; [by apply (v_running _ _ Hv) in Hp|].
    by apply list_lookup_singleton_Some in Hp as [_ ?].
  - intros i j k p q. rewrite !lookup_app_Some.
    intros [Hp|[_ Hp]] [Hq|[_ Hq]]; try (by apply list_lookup_singleton_Some in Hp as [_ ?]);
      try (by apply list_lookup_singleton_Some in Hq as [_ ?]). by eapply (v_distinct _ _ Hv).
Qed.

Lemma valid_update w s i o p o' p' now st s' l :
  valid w s -> pool w !! i = Some (o, p) ->
  represents retention now st s' -> (forall k, s' !! k = last_event k l) -> spaced l ->
  match o' with None => waiting p' | Some (client, x) => executing client x p' /\ s' !! (client, x) = Some InProgress end ->
  (forall j k q, i <> j -> pool w !! j = Some (Some k, q) -> s' !! k = Some InProgress /\ o' <> Some k) ->
  valid (mkWorld now st (<[i := (o', p')]> (pool w)) l) s'.
Proof.
  intros Hv Hi Hr Hl Hs Hp Ho. assert (is_Some (pool w !! i)) as Hi' by (by eexists).
  split; cbn [clock tracker pool log]; try done.
  - intros j q Hj. destruct (lookup_task _ _ _ _ _ _ Hi' Hj) as [[<- [= <- <-]]|[Hne Hj']]; [done|]. by apply Hv in Hj'.
  - intros j client x q Hj. destruct (lookup_task _ _ _ _ _ _ Hi' Hj) as [[<- [= <- <-]]|[Hne Hj']]; [done|].
    split; [by apply (v_running _ _ Hv _ _ _ _ Hj')|]. by apply (Ho j _ q).
  - intros j1 j2 k q1 q2 H1 H2.
    destruct (lookup_task _ _ _ _ _ _ Hi' H1) as [[<- [= E1 _]]|[Hn1 H1']],
      (lookup_task _ _ _ _ _ _ Hi' H2) as [[<- [= E2 _]]|[Hn2 H2']]; [done| | |by eapply (v_distinct _ _ Hv)].
    + by destruct (Ho _ _ _ Hn2 H2') as [_ []].
    + by destruct (Ho _ _ _ Hn1 H1') as [_ []].
Qed.

Lemma valid_step w w' s : valid w s -> step w w' -> exists s', valid w' s'.
Proof.
  intros Hv Hs. inversion Hs as [? context record|? i o e k r now Hp He Hn|? i o x client k now st Hp Hn Ht|
    ? i o x client k now st Hp Hn Ht|? i o x client k now Hp Hn]; subst.
  - exists s. by apply valid_spawn.
  - exists s. eapply valid_update; [done|done|by eapply represents_later, Hn; apply Hv|apply Hv|apply Hv| |].
    + destruct o as [[client x]|].
      * destruct (v_running _ _ Hv _ _ _ _ Hp) as [[[_ Hk]|[-> _]] Hs']; [|done]. by split.
      * pose proof (v_waiting _ _ Hv _ _ Hp) as Hw. by destruct e.
    + intros j [c y] q Hne Hj. split; [by apply (v_running _ _ Hv _ _ _ _ Hj)|]. intros ->.
      by apply Hne, (v_distinct _ _ Hv _ _ _ _ _ Hp Hj).
  - destruct (asks_is_waiting _ _ _ _ _ _ _ Hv Hp) as (-> & Ha & Hk).
    pose proof (arrives_agrees retention (clock w) now x client _ _ (v_tracker _ _ Hv) Hn) as Hr. rewrite Ht in Hr.
    unfold Reference.is_retransmission in Hr. destruct (Reference.remembered _ _ _) eqn:Em; [by destruct Hr|]. destruct Hr as [_ Hr].
    rewrite (v_log _ _ Hv) in Em. exists (<[(client, x) := InProgress]> s). eapply valid_update; [done|done|done| | | |].
    + intros y. rewrite last_event_snoc. destruct (decide _) as [<-|Hne]; [by rewrite lookup_insert_eq|].
      rewrite lookup_insert_ne by done. apply Hv.
    + by apply spaced_start; [apply Hv|].
    + split; [done|by rewrite lookup_insert_eq].
    + intros j y q _ Hj. destruct y as [c y]. pose proof (v_running _ _ Hv _ _ _ _ Hj) as [_ Hy].
      assert ((client, x) <> (c, y)) as Hne.
      { intros E. rewrite <- E, (v_log _ _ Hv) in Hy. by rewrite Hy in Em. }
      split; [by rewrite lookup_insert_ne|congruence].
  - destruct (asks_is_waiting _ _ _ _ _ _ _ Hv Hp) as (-> & [a Ha] & Hk).
    pose proof (arrives_agrees retention (clock w) now x client _ _ (v_tracker _ _ Hv) Hn) as Hr. rewrite Ht in Hr.
    unfold Reference.is_retransmission in Hr. destruct (Reference.remembered _ _ _) eqn:Em; [|by destruct Hr]. destruct Hr as [_ Hr].
    exists s. eapply valid_update; [done|done|done|apply Hv|apply Hv|by rewrite Ha|].
    intros j [c y] q _ Hj. split; [by apply (v_running _ _ Hv _ _ _ _ Hj)|done].
  - destruct (completes_is_running _ _ _ _ _ _ _ Hv Hp) as (-> & Hx & a & Ha).
    pose proof (completes_agrees retention (clock w) now x client _ _ (v_tracker _ _ Hv) Hn Hx) as Hr.
    exists (Reference.mark_processed now x client s). unfold Reference.mark_processed in *.
    eapply valid_update; [done|done|done| | |by rewrite Ha|].
    + intros y. rewrite last_event_snoc. destruct (decide _) as [<-|Hne]; [by rewrite lookup_insert_eq|].
      rewrite lookup_insert_ne by done. apply Hv.
    + apply spaced_finish; [apply Hv|]. by rewrite <- (v_log _ _ Hv).
    + intros j y q Hne Hj. split; [|done]. assert ((client, x) <> y) as Hk.
      { intros <-. by apply Hne, (v_distinct _ _ Hv _ _ _ _ _ Hp Hj). }
      destruct y as [c y]. rewrite lookup_insert_ne by done. by apply (v_running _ _ Hv _ _ _ _ Hj).
Qed.

Lemma valid_reachable now w : rtc step (initial now) w -> exists s, valid w s.
Proof.
  assert (forall w0 w1, rtc step w0 w1 -> (exists s, valid w0 s) -> exists s, valid w1 s) as H.
  { induction 1 as [|w0 w1 w2 Hs _ IH]; [done|]. intros [s Hv]. apply IH. by eapply valid_step. }
  intros Hr. apply (H _ _ Hr). exists ∅. split; cbn [initial clock tracker pool log]; try done.
  - apply represents_new.
  - apply spaced_nil.
Qed.

Lemma spaced_prefix l r : spaced (l ++ r) -> spaced l.
Proof.
  revert l. induction r as [|e r IH] using rev_ind; intros l Hs; [by rewrite app_nil_r in Hs|].
  rewrite app_assoc in Hs. apply IH. inversion Hs as [E|? ? ? ? ? E|? ? ? ? ? E]; [by destruct (l ++ r)| |];
    by apply app_inj_tail in E as [-> _].
Qed.

Lemma spaced_restart l t k r : spaced (l ++ Started t k :: r) -> Reference.remembered retention t (last_event k l) = false.
Proof.
  intros Hs. change (Started t k :: r) with ([Started t k] ++ r) in Hs. rewrite app_assoc in Hs. apply spaced_prefix in Hs.
  inversion Hs as [E|? ? ? ? ? E|? ? ? ? ? E]; [by destruct l| |]; by apply app_inj_tail in E as [-> [= -> ->]].
Qed.

Lemma last_event_since k l1 l2 t a :
  last_event k (l1 ++ Started t k :: l2) = Some (Completed a) -> Finished a k ∈ l2.
Proof.
  induction l2 as [|e l2 IH] using rev_ind.
  - rewrite last_event_snoc. by rewrite decide_True.
  - rewrite app_comm_cons, app_assoc, last_event_snoc. intros He. apply elem_of_app.
    destruct e as [t' k'|t' k']; destruct (decide (k' = k)) as [->|]; [done|left; by apply IH| |left; by apply IH].
    right. injection He as ->. by apply list_elem_of_singleton.
Qed.

Lemma last_event_started k l1 l2 t : last_event k (l1 ++ Started t k :: l2) <> None.
Proof.
  induction l2 as [|e l2 IH] using rev_ind.
  - rewrite last_event_snoc. by rewrite decide_True.
  - rewrite app_comm_cons, app_assoc, last_event_snoc. destruct e; by destruct (decide _).
Qed.

(** C27: the demo server does not execute a transaction twice. However the tasks
    of all its connections interleave, if the call with one transaction id of one
    client is let through at [t1] and again at [t2], then it was completed in
    between, at least the retention period before [t2]; and no two tasks execute
    the same transaction at the same time. *)
Theorem executed_at_most_once now w :
  rtc step (initial now) w ->
  (forall l1 l2 l3 t1 t2 k, log w = l1 ++ Started t1 k :: l2 ++ Started t2 k :: l3 ->
    exists t, Finished t k ∈ l2 /\ retention <= t2 - t) /\
  (forall i j k p q, pool w !! i = Some (Some k, p) -> pool w !! j = Some (Some k, q) -> i = j).
Proof.
  intros Hr. destruct (valid_reachable _ _ Hr) as [s Hv]. split; [|apply Hv]. intros l1 l2 l3 t1 t2 k Hl.
  pose proof (v_spaced _ _ Hv) as Hs. rewrite Hl, app_comm_cons, app_assoc in Hs. apply spaced_restart in Hs.
  pose proof (last_event_started k l1 l2 t1) as Hne.
  destruct (last_event k (l1 ++ Started t1 k :: l2)) as [[|a]|] eqn:E; [done| |done]. exists a.
  split; [by eapply last_event_since|]. cbn [Reference.remembered] in Hs. lia.
Qed.

(** A crashed task stays in the pool with its transaction. *)
Lemma crashed_stays w w' i k : rtc step w w' -> pool w !! i = Some (k, Crash) -> pool w' !! i = Some (k, Crash).
Proof.
  induction 1 as [|w0 w1 w2 Hs _ IH]; intros Hi; [done|]. apply IH. destruct Hs; cbn [pool]; [by apply lookup_app_l_Some|..].
  all: destruct (decide (i0 = i)) as [->|Hne]; [congruence|by rewrite list_lookup_insert_ne].
Qed.

(** A panic loses its transaction for good. When a task panics while it
    executes a call, the call is never completed in the tracker: from then on
    every retransmission of it is dropped without an answer, however much later
    it arrives. *)
Theorem panicked_call_is_never_answered now w w' i client x t :
  rtc step (initial now) w -> pool w !! i = Some (Some (client, x), Crash) -> rtc step w w' -> clock w' <= t ->
  (is_retransmission retention t x client (tracker w')).1 = true.
Proof.
  intros Hr Hi Hr' Ht. destruct (valid_reachable now w') as [s Hv]; [by etrans|].
  pose proof (v_running _ _ Hv _ _ _ _ (crashed_stays _ _ _ _ Hr' Hi)) as [_ Hx].
  pose proof (arrives_agrees retention (clock w') t x client _ _ (v_tracker _ _ Hv) Ht) as Ha.
  destruct (is_retransmission retention t x client (tracker w')) as [b st]. unfold Reference.is_retransmission in Ha.
  rewrite Hx in Ha. by destruct Ha as [-> _].
Qed.
End Pool.

(** ** A concrete run *)

Definition sample_context : RPCContext := mkContext 2049 "a" auth_unix_default false [slash].
Definition sample_record (p : NFSProgram) (args : list byte) : list byte :=
  encoded (serialize (mkMsg 7 (CALL (sample_call p)))) ++ args.

(** A task that reaches the tracker, with what it does when let through. *)
Lemma sample_task p args : exists k : bool -> task,
  @serve_record (provided_default 77) true sample_context (sample_record p args) = @Ask _ demo_effects _ (IsRetransmission 7 "a") k /\
  k false =
    (maybe_reply ← then_mark 7 "a" (@dispatch (provided_default 77) true 7 (sample_call p) sample_context) (args, []);
     mret (match maybe_reply with
       | Err e => Some (Err e)
       | Ok (true, (_, write_buf)) => Some (Ok write_buf)
       | Ok (false, _) => None
       end)).
Proof.
  assert (deserialize rpc_msg_default (sample_record p args) = Ok (mkMsg 7 (CALL (sample_call p)), args)) as Hd.
  { unfold sample_record. destruct (roundtrip (mkMsg 7 (CALL (sample_call p)))) as (b & Hb & Hr); [|unfold encoded; rewrite Hb; apply Hr].
    destruct p; cbn; unfold u32_range, u32_max, PROGRAM, VERSION, zlen; simpl; lia. }
  unfold serve_record, handle_rpc, get, mbind, handler_bind. cbv beta. cbn [fst snd]. rewrite Hd. by eexists.
Qed.

Lemma lookup_last {A} (l : list A) x : (l ++ [x]) !! length l = Some x.
Proof. by rewrite list_lookup_middle. Qed.

(** A NULL call, let through at [t1] and completed at [t2]. *)
Lemma null_run retention w t1 t2 st :
  clock w <= t1 -> t1 <= t2 -> is_retransmission retention t1 7 "a" (tracker w) = (false, st) ->
  exists pl, rtc (step 77 true retention) w
    (mkWorld t2 (mark_processed t2 7 "a" st) pl (log w ++ [Started t1 ("a", 7); Finished t2 ("a", 7)])).
Proof.
  intros H1 H2 Ht. destruct (sample_task NFSPROC3_NULL []) as (k & Hk & Hf).
  assert (exists r, k false = @Ask _ demo_effects _ (MarkProcessed 7 "a") (fun _ => Done r)) as [r Hr] by (rewrite Hf; by eexists).
  pose proof (step_spawn 77 true retention w sample_context (sample_record NFSPROC3_NULL [])) as S0. rewrite Hk in S0.
  eexists. eapply rtc_l; [exact S0|]. eapply rtc_l.
  { eapply (step_let_through _ _ _ _ (length (pool w)) None); [apply lookup_last|exact H1|exact Ht]. }
  cbn [pool log tracker clock]. rewrite Hr.
  replace (log w ++ [Started t1 ("a", 7); Finished t2 ("a", 7)]) with ((log w ++ [Started t1 ("a", 7)]) ++ [Finished t2 ("a", 7)]) by (by rewrite <- app_assoc).
  apply rtc_once. match goal with |- step _ _ _ ?w' _ =>
    refine (step_complete 77 true retention w' (length (pool w)) (Some ("a", 7)) 7 "a" (fun _ => Done r) t2 _ _) end; [|done].
  cbn [pool]. apply list_lookup_insert_eq. rewrite length_app. simpl. lia.
Qed.

(** The same call again, a minute after its completion. *)
Lemma executed_at_most_once_witness : exists w,
  rtc (step 77 true 60) (initial 0) w /\
  log w = [Started 0 ("a", 7); Finished 1 ("a", 7); Started 61 ("a", 7); Finished 62 ("a", 7)] /\
  exists t, Finished t ("a", 7) ∈ [Finished 1 ("a", 7)] /\ 60 <= 61 - t.
Proof.
  destruct (null_run 60 (initial 0) 0 1 (is_retransmission 60 0 7 "a" Tracker.new).2) as [pl R1]; [done|done|by vm_compute|].
  set (w1 := mkWorld 1 _ _ _) in R1.
  destruct (null_run 60 w1 61 62 (is_retransmission 60 61 7 "a" (tracker w1)).2) as [pl' R2]; [done|done|by vm_compute|].
  match type of R2 with rtc _ _ ?w2 => assert (rtc (step 77 true 60) (initial 0) w2) as R by (by etrans) end.
  eexists. split; [exact R|]. split; [done|].
  apply (proj1 (executed_at_most_once 77 true 60 0 _ R) [] [Finished 1 ("a", 7)] [Finished 62 ("a", 7)] 0 61 ("a", 7)). done.
Defined.

(** READDIR with a count of 100 panics when overflow checks are on. *)
Lemma panicked_call_is_never_answered_witness : exists w,
  rtc (step 77 true 60) (initial 0) w /\ (is_retransmission 60 1000000 7 "a" (tracker w)).1 = true.
Proof.
  set (args := encoded (serialize (mkReaddirArgs (sample_handle 1) 0 cookieverf3_default 100))).
  destruct (sample_task NFSPROC3_READDIR args) as (k & Hk & Hf).
  pose proof (step_spawn 77 true 60 (initial 0) sample_context (sample_record NFSPROC3_READDIR args)) as S0. rewrite Hk in S0.
  assert (deserialize READDIR3args_default args = Ok (mkReaddirArgs (sample_handle 1) 0 cookieverf3_default 100, [])) as Ha by (by vm_compute).
  assert (exists k' : result nfsstat3 fattr3 -> task,
    k false = @Ask _ demo_effects _ (Fs (FsOp.getattr 1)) k' /\ k' (Ok (sample_attr 1)) = Crash) as (k' & Hk' & Hc).
  { rewrite Hf. unfold then_mark. change (@dispatch (provided_default 77) true 7 (sample_call NFSPROC3_READDIR) sample_context) with (@nfsproc3_readdir (provided_default 77) true 7).
    unfold nfsproc3_readdir, get, mbind, handler_bind. cbv beta. cbn [fst snd]. rewrite Ha. cbn [mbind free_bind free_bind_ mret free_ret readdir_dir].
    assert (@fh_to_id (provided_default 77) (sample_handle 1) = Ok 1) as Hh by (by vm_compute). rewrite Hh. by eexists. }
  pose proof (step_let_through 77 true 60 _ 0%nat None 7 "a" k 0 (is_retransmission 60 0 7 "a" Tracker.new).2
    (eq_refl : pool (mkWorld 0 Tracker.new [(None, @Ask _ demo_effects _ (IsRetransmission 7 "a") k)] []) !! 0%nat = _) (Z.le_refl 0) ltac:(by vm_compute)) as S1.
  cbn [pool log tracker list_insert insert] in S1. rewrite Hk' in S1.
  match type of S1 with step _ _ _ _ ?w1 => pose proof (step_outside 77 true 60 w1 0%nat (Some ("a", 7)) (Fs (FsOp.getattr 1)) k' (Ok (sample_attr 1)) 0
    eq_refl eq_refl (Z.le_refl 0)) as S2 end.
  rewrite Hc in S2. match type of S2 with step _ _ _ _ ?w2 =>
    assert (rtc (step 77 true 60) (initial 0) w2) as R by (eapply rtc_l; [exact S0|]; eapply rtc_l; [exact S1|]; by apply rtc_once) end.
  eexists. split; [exact R|].
  apply (panicked_call_is_never_answered 77 true 60 0 _ _ 0%nat "a" 7 1000000 R); [reflexivity|apply rtc_refl|done].
Defined.

(** A REMOVE call in its record, on a writable file system: the tracker has not
    seen it, so it is carried out and answered. *)
Lemma demo_record_answered_witness :
  let record := sample_record NFSPROC3_REMOVE (encoded (serialize (mkDirop (sample_handle 1) (mkNfsString [Byte.x61])))) in
  exists out s' trace,
    exec (sample_answer ReadWrite) (@serve_record (provided_default 77) false sample_context record) [] = (Some out, s', trace) /\
    record_outcome (fun _ _ => false) ReadWrite sample_context record out trace /\
    match out with
    | Some (Ok w) => exists msg rest, deserialize rpc_msg_default record = Ok (msg, rest) /\ answers_to (LegacyMessage.xid msg) w
    | _ => True
    end.
Proof.
  intros record. apply (@demo_record_answered (provided_default 77) (provided_default_laws 77) _ (sample_answer ReadWrite) ReadWrite sample_context record []);
    [apply sample_answers|by vm_compute].
Defined.
