(* ===== verification/LegacyTcp.v ===== *)
(** * [src/tcp.rs] and the wire side of [src/rpcwire.rs]

    How the demo server chooses its address and its export name, what context a
    connection gets, and how a reply is framed. The listening socket is supplied
    by the environment: [try_bind] says what binding to an address gives. *)
From S2P Require Import Prelude RpcRecord Xdr LegacyMessage LegacyNfs Free LegacyVfs LegacyHandlers LegacyReplies LegacyBehaviour LegacyRpc.
From stdpp Require Import list sets strings.
#[local] Open Scope Z_scope.

Definition MAX_LEGACY_CONNECTIONS : Z := 1024.
Definition MAX_LEGACY_BUFFERED_REQUEST_BYTES : Z := 64 * 1024 * 1024.
Definition MAX_IN_FLIGHT_MESSAGES : Z := 64.
Definition MAX_QUEUED_REPLIES : Z := 64.
Definition RPC_RECORD_LIMITS : RecordLimits := mkRecordLimits (2 * 1024 * 1024) (1024 * 1024) 16.

(** ** Addresses *)

Definition chr (z : Z) : byte := byte_of z.
Definition colon : byte := chr 0x3a.
Definition dot : byte := chr 0x2e.
Definition plus : byte := chr 0x2b.
Definition digit (d : Z) : byte := chr (0x30 + d).

(** [Display] of a [u8] *)
Definition show_u8 (z : Z) : list byte :=
  if z <? 10 then [digit z]
  else if z <? 100 then [digit (z / 10); digit (z mod 10)]
  else [digit (z / 100); digit (z / 10 mod 10); digit (z mod 10)].

(** "127.88.{}.{}" *)
Definition generate_host_ip (hostnum : Z) : list byte :=
  show_u8 127 ++ [dot] ++ show_u8 88 ++ [dot] ++
  show_u8 (Z.land (Z.shiftr hostnum 8) 0xff) ++ [dot] ++ show_u8 (Z.land hostnum 0xff).

(** [str::split_once(':')] *)
Fixpoint split_once (sep : byte) (l : list byte) : option (list byte * list byte) :=
  match l with
  | [] => None
  | b :: l' =>
      if bool_decide (b = sep) then Some ([], l')
      else match split_once sep l' with Some (x, y) => Some (b :: x, y) | None => None end
  end.

(** [str::parse::<u16>]: an optional plus sign and at least one digit. *)
Definition digit_value (b : byte) : option Z :=
  let v := byte_val b - 0x30 in if (0 <=? v) && (v <=? 9) then Some v else None.
Fixpoint parse_digits (l : list byte) (acc : Z) : option Z :=
  match l with
  | [] => Some acc
  | b :: l' => d ← digit_value b; if acc * 10 + d <=? 65535 then parse_digits l' (acc * 10 + d) else None
  end.
Definition parse_u16 (l : list byte) : option Z :=
  let l := match l with b :: (_ :: _) as l' => if bool_decide (b = plus) then tail l else l | _ => l end in
  match l with [] => None | _ => parse_digits l 0 end.

Inductive BindError : Type := AddressForm | PortRange | Bind (code : Z).

Section Binding.
(** [TcpListener::bind] on "ip:port", and [local_addr] of the listener. *)
Context {Listener : Type} (try_bind : list byte -> Z -> result Z Listener) (port_of : Listener -> Z).

Record NFSTcpListener : Type := mkListener {
  listener : Listener;
  port : Z;
  listener_mount_signal : bool;
  listener_export_name : list byte
}.

Definition bind_internal (ip : list byte) (port : Z) : result BindError NFSTcpListener :=
  match try_bind ip port with
  | Err code => Err (Bind code)
  | Ok l => Ok (mkListener l (port_of l) false [slash])
  end.

(** The loop over [try_ip] for "auto". *)
Fixpoint bind_auto (num_tries_left : nat) (try_ip port : Z) : result BindError NFSTcpListener :=
  match bind_internal (generate_host_ip try_ip) port with
  | Ok l => Ok l
  | Err e => match num_tries_left with O => Err e | S n => bind_auto n (try_ip + 1) port end
  end.

Definition auto : list byte := map chr [0x61; 0x75; 0x74; 0x6f].
Definition bind (ipstr : list byte) : result BindError NFSTcpListener :=
  match split_once colon ipstr with
  | None => Err AddressForm
  | Some (ip, p) =>
      match parse_u16 p with
      | None => Err PortRange
      | Some port => if bool_decide (ip = auto) then bind_auto 32 1 port else bind_internal ip port
      end
  end.

Definition with_export_name (name : list byte) (l : NFSTcpListener) : NFSTcpListener :=
  mkListener (listener l) (port l) (listener_mount_signal l) (slash :: trim_start_slash (trim_end_slash name)).
Definition set_mount_listener (l : NFSTcpListener) : NFSTcpListener :=
  mkListener (listener l) (port l) true (listener_export_name l).

(** The context [handle_forever] gives a connection. *)
Definition connection_context (l : NFSTcpListener) (peer : string) : RPCContext :=
  mkContext (port l) peer auth_unix_default (listener_mount_signal l) (listener_export_name l).

(** ** Binding *)

Lemma bind_auto_ok n i p :
  match bind_auto n i p with
  | Ok l => exists k, 0 <= k <= Z.of_nat n /\ try_bind (generate_host_ip (i + k)) p = Ok (listener l) /\
      forall j, 0 <= j < k -> exists e, try_bind (generate_host_ip (i + j)) p = Err e
  | Err _ => forall j, 0 <= j <= Z.of_nat n -> exists e, try_bind (generate_host_ip (i + j)) p = Err e
  end.
Proof.
  revert i. induction n as [|n IH]; intros i; cbn [bind_auto]; unfold bind_internal;
    destruct (try_bind (generate_host_ip i) p) as [l|e] eqn:E.
  - exists 0. rewrite Z.add_0_r. split_and!; [lia|lia|done|]. intros; lia.
  - intros j Hj. replace j with 0 by lia. rewrite Z.add_0_r. by eexists.
  - exists 0. rewrite Z.add_0_r. split_and!; [lia|lia|done|]. intros; lia.
  - assert (forall j, 0 <= j -> i + 1 + (j - 1) = i + j) as Hs by (intros; lia).
    specialize (IH (i + 1)). destruct (bind_auto n (i + 1) p) as [l|e'].
    + destruct IH as (k & Hk & Ht & Hj). exists (k + 1). split_and!; [lia|lia|by replace (i + (k + 1)) with (i + 1 + k) by lia|].
      intros j Hj'. destruct (decide (j = 0)) as [->|]; [rewrite Z.add_0_r; by eexists|]. rewrite <- Hs by lia. apply Hj. lia.
    + intros j Hj. destruct (decide (j = 0)) as [->|]; [rewrite Z.add_0_r; by eexists|]. rewrite <- Hs by lia. apply IH. lia.
Qed.
End Binding.
Arguments mkListener {Listener} _ _ _ _.

(** Different host numbers give different addresses. *)
Definition show_table : list (list byte) := map (fun n => show_u8 (Z.of_nat n)) (seq 0 256).
Lemma show_table_distinct : base.NoDup show_table.
Proof. apply (bool_decide_unpack _). vm_compute. exact I. Qed.

Lemma show_u8_inj a b : 0 <= a < 256 -> 0 <= b < 256 -> show_u8 a = show_u8 b -> a = b.
Proof.
  intros Ha Hb E. assert (forall n, 0 <= n < 256 -> show_table !! Z.to_nat n = Some (show_u8 n)) as Hl.
  { intros n Hn. unfold show_table. rewrite list_lookup_fmap, lookup_seq_lt by lia. simpl. by rewrite Z2Nat.id by lia. }
  apply Z2Nat.inj; [lia|lia|]. eapply NoDup_lookup; [apply show_table_distinct|by apply Hl|]. rewrite E. by apply Hl.
Qed.

Lemma show_u8_no_dot z : 0 <= z < 256 -> dot ∉ show_u8 z.
Proof.
  intros Hz. assert (Forall (fun l => dot ∉ l) show_table) as Hf by (apply (bool_decide_unpack _); vm_compute; exact I).
  rewrite Forall_forall in Hf. apply Hf. apply list_elem_of_fmap. exists (Z.to_nat z). rewrite Z2Nat.id by lia. split; [done|].
  apply elem_of_seq. lia.
Qed.

Lemma split_at_dot (a a' b b' : list byte) : dot ∉ a -> dot ∉ a' -> a ++ dot :: b = a' ++ dot :: b' -> a = a' /\ b = b'.
Proof.
  revert a'. induction a as [|x a IH]; intros [|y a'] Ha Ha' E; cbn [app] in E.
  - by injection E as ->.
  - injection E as E0 _. destruct Ha'. rewrite <- E0. apply elem_of_cons. by left.
  - injection E as E0 _. destruct Ha. rewrite E0. apply elem_of_cons. by left.
  - injection E as -> E. apply not_elem_of_cons in Ha as [_ Ha], Ha' as [_ Ha']. by destruct (IH _ Ha Ha' E) as [-> ->].
Qed.

Lemma low_byte z : Z.land z 0xff = z mod 256.
Proof. change 0xff with (Z.ones 8). by rewrite Z.land_ones. Qed.

Lemma host_ip_inj a b : 0 <= a < 65536 -> 0 <= b < 65536 -> generate_host_ip a = generate_host_ip b -> a = b.
Proof.
  intros Ha Hb E. unfold generate_host_ip in E. do 4 apply app_inv_head in E. rewrite !low_byte, !Z.shiftr_div_pow2 in E by lia.
  change (2 ^ 8) with 256 in E. pose proof (Z.mod_pos_bound a 256). pose proof (Z.mod_pos_bound b 256).
  pose proof (Z.mod_pos_bound (a / 256) 256). pose proof (Z.mod_pos_bound (b / 256) 256).
  apply split_at_dot in E as [E1 E2]; [|apply show_u8_no_dot; lia|apply show_u8_no_dot; lia].
  apply show_u8_inj in E1, E2; [|lia..]. rewrite !Z.mod_small in E1 by (split; [apply Z.div_pos|apply Z.div_lt_upper_bound]; lia).
  rewrite (Z.div_mod a 256), (Z.div_mod b 256), E1, E2 by lia. done.
Qed.

(** The address [auto] chooses: the first of 33 addresses that can be bound. *)
Lemma auto_binds_first {Listener} (try_bind : list byte -> Z -> result Z Listener) port_of p :
  match bind_auto try_bind port_of 32 1 p with
  | Ok l => exists n, 1 <= n <= 33 /\ try_bind (generate_host_ip n) p = Ok (listener l) /\
      forall m, 1 <= m < n -> exists e, try_bind (generate_host_ip m) p = Err e
  | Err _ => forall m, 1 <= m <= 33 -> exists e, try_bind (generate_host_ip m) p = Err e
  end.
Proof.
  pose proof (bind_auto_ok try_bind port_of 32 1 p) as Hb. destruct (bind_auto _ _ _ _ _) as [l|e].
  - destruct Hb as (k & Hk & Ht & Hj). exists (1 + k). split_and!; [lia|lia|done|]. intros m Hm.
    replace m with (1 + (m - 1)) by lia. apply Hj. lia.
  - intros m Hm. replace m with (1 + (m - 1)) by lia. apply Hb. lia.
Qed.

(** ** Export names *)

Lemma trim_start_slash_spec l : exists n, l = replicate n slash ++ trim_start_slash l /\ forall r, trim_start_slash l <> slash :: r.
Proof.
  induction l as [|b l (n & Hl & Hr)]; [by exists 0%nat|]. cbn [trim_start_slash]. case_bool_decide as Hb; subst.
  - exists (S n). cbn [replicate app]. by rewrite <- Hl.
  - exists 0%nat. split; [done|]. congruence.
Qed.

Lemma trim_start_slash_id l : (forall r, l <> slash :: r) -> trim_start_slash l = l.
Proof. intros Hl. destruct l as [|b l]; [done|]. cbn [trim_start_slash]. case_bool_decide; subst; [by destruct (Hl l)|done]. Qed.

Lemma trim_start_slashes n l : (forall r, l <> slash :: r) -> trim_start_slash (replicate n slash ++ l) = l.
Proof. intros Hl. induction n as [|n IH]; cbn [replicate app trim_start_slash]; [by apply trim_start_slash_id|]. by rewrite bool_decide_eq_true_2. Qed.

Lemma trim_end_slashes n l : (forall r, rev l <> slash :: r) -> trim_end_slash (l ++ replicate n slash) = l.
Proof.
  intros Hl. unfold trim_end_slash. rewrite rev_app_distr. assert (rev (replicate n slash) = replicate n slash) as ->.
  { induction n as [|n IH]; [done|]. cbn [replicate rev]. rewrite IH. symmetry. apply replicate_cons_app. }
  by rewrite trim_start_slashes, rev_involutive.
Qed.

Lemma strip_prefix_string_app e l : LegacyRpc.strip_prefix e (e ++ l) = Some l.
Proof. induction e as [|b e IH]; cbn [LegacyRpc.strip_prefix app]; [by destruct l|]. by rewrite bool_decide_eq_true_2. Qed.

(** Any number of slashes around the path below the export is ignored. *)
Lemma export_path_slashes e p k m :
  (forall r, p <> slash :: r) -> (forall r, rev p <> slash :: r) -> trim p = p ->
  utf8 (e ++ replicate k slash ++ p ++ replicate m slash) = true ->
  export_path e (e ++ replicate k slash ++ p ++ replicate m slash) = Some (slash :: p).
Proof.
  intros H1 H2 Ht Hu. unfold export_path. rewrite Hu, strip_prefix_string_app. do 2 f_equal. destruct p as [|b p].
  - cbn [app]. rewrite <- replicate_add, <- (app_nil_r (replicate _ _)), trim_start_slashes by done. done.
  - rewrite trim_start_slashes, trim_end_slashes by (try done; intros r [= -> _]; by eapply H1). done.
Qed.

Lemma path_of_tail names : names <> [] -> path_of names = slash :: tail (path_of names).
Proof. by destruct names. Qed.

Lemma path_of_ends names :
  Forall (fun w => w <> [] /\ slash ∉ w) names ->
  (forall r, tail (path_of names) <> slash :: r) /\ (forall r, rev (tail (path_of names)) <> slash :: r).
Proof.
  intros Hf. split; intros r.
  - destruct names as [|[|b w] names]; [done|by apply Forall_cons in Hf as [[? _] _]|]. apply Forall_cons in Hf as [[_ Hs] _].
    intros [= -> _]. apply Hs, elem_of_cons. by left.
  - destruct names as [|w names _] using rev_ind; [done|]. apply Forall_app in Hf as [_ Hf]. apply Forall_singleton in Hf as [Hne Hs].
    assert (exists q, tail (path_of (names ++ [w])) = q ++ w) as [q ->].
    { unfold path_of. rewrite map_app, concat_app. cbn [map concat]. rewrite app_nil_r. destruct (concat _) as [|b l]; [by exists []|].
      exists (l ++ [slash]). cbn [tail app]. by rewrite <- app_assoc. }
    rewrite rev_app_distr. intros E. destruct (rev w) as [|b v] eqn:Er.
    + apply (f_equal (@rev byte)) in Er. rewrite rev_involutive in Er. done.
    + cbn [app] in E. injection E as -> _. apply Hs. rewrite <- (rev_involutive w), Er. apply list_elem_of_In, in_rev. rewrite rev_involutive. by left.
Qed.

(** What MNT resolves. A client that asks for the export followed by names,
    separated by a slash and surrounded by any number of them, is led to the
    object found by looking the names up one after the other from the root,
    whatever the export is called. *)
Lemma mount_resolves_names {St} (answer : forall e, St -> reply_of e * St) (export : list byte) names k m s :
  Forall (fun w => w <> [] /\ slash ∉ w) names ->
  let p := tail (path_of names) in
  let asked := export ++ replicate k slash ++ p ++ replicate m slash in
  trim p = p -> utf8 asked = true ->
  exists path, export_path export asked = Some path /\
    exec answer (default_path_to_id path) s =
    exec answer (root ← call FsOp.root_dir; lookups root names) s.
Proof.
  intros Hf p asked Ht Hu. destruct (path_of_ends names Hf) as [H1 H2].
  exists (slash :: p). split; [by apply export_path_slashes|].
  assert (components (slash :: p) = names) as Hc.
  { destruct names as [|w names]; [done|]. unfold p. rewrite <- path_of_tail by done. by apply components_path_of. }
  unfold default_path_to_id, call, ask. cbn [mbind free_bind free_bind_ exec].
  destruct (answer _ s) as [root s1]. rewrite walk_lookups. fold (components (slash :: p)). by rewrite Hc.
Qed.

Definition word (l : list Z) : list byte := map chr l.

(** The export name is matched as a prefix of the string: on a server that exports
    "/foo", a client that asks for "/foobar" is given "/bar" of that export. *)
Example export_prefix_unseparated :
  export_path (word [0x2f; 0x66; 0x6f; 0x6f]) (word [0x2f; 0x66; 0x6f; 0x6f; 0x62; 0x61; 0x72]) = Some (word [0x2f; 0x62; 0x61; 0x72]).
Proof. by vm_compute. Qed.

(** ** Framing *)

(** [write_fragment]; [None] is the failed assertion. *)
Definition write_fragment (buf : list byte) : option sink_m :=
  if zlen buf <? Z.shiftl 1 31
  then Some (sink_then (write_all (be_bytes 4 (zlen buf + Z.shiftl 1 31))) (write_all buf))
  else None.

(** A reply is sent as a single last fragment, whatever partial writes the socket
    makes, and a client whose limits admit it reads back exactly that reply. *)
Lemma fragment_roundtrip alloc limits buf tail e :
  zlen buf < 2 ^ 31 -> zlen buf <= max_fragment_size limits -> zlen buf <= max_record_size limits ->
  1 <= max_fragments limits -> max_record_size limits <= usize_max -> alloc_grants alloc (max_record_size limits) ->
  exists f, write_fragment buf = Some f /\ Sends f (frames [buf]) /\
    read_record alloc limits (mkStream (frames [buf] ++ tail) e) = Ok (buf, mkStream tail e).
Proof.
  intros Hb H1 H2 H3 H4 Ha. pose proof (zlen_nonneg buf) as Hn. unfold write_fragment. change (Z.shiftl 1 31) with (2 ^ 31).
  rewrite (proj2 (Z.ltb_lt _ _) Hb). eexists. split; [done|]. split.
  - cbn [frames]. rewrite app_nil_r. apply sends_then; [|apply sends_write_all]. unfold fragment_header.
    assert (Z.lor (zlen buf) LAST_BIT = zlen buf + 2 ^ 31) as E by (apply lor_last; unfold LENGTH_MASK; lia).
    rewrite E. apply sends_write_all.
  - apply read_record_spec; [done|lia|done|]. exists [buf]. cbn [concat s_bytes s_end]. rewrite app_nil_r. split_and!; try done.
    unfold fragments_ok. cbn [concat]. rewrite app_nil_r. split_and!; [done|exact H3| |done|done].
    apply Forall_singleton. unfold LENGTH_MASK. lia.
Qed.
