(* ===== verification/LegacyListener.v ===== *)
(** * The tasks of the demo server: [src/tcp.rs] and [SocketMessageHandler] of [src/rpcwire.rs]

    [handle_forever] accepts connections; for each of them [process_socket] pumps
    bytes between the socket and an in-memory pipe, a reader task takes records
    from the pipe, and every record gets a task that answers it through a bounded
    queue. Connection permits and the bytes of records being served are shared by
    all connections. [act] is one step of one connection, [wstep] one step of the
    listener; both compute the next state, and which step comes next is free. *)
From S2P Require Import Prelude RpcRecord Xdr LegacyMessage LegacyNfs Free LegacyVfs LegacyHandlers LegacyReplies LegacyBehaviour LegacyRpc LegacyTcp.
From stdpp Require Import list gmap sets strings.
#[local] Open Scope Z_scope.

(** ** State *)

Definition PIPE_CAPACITY : Z := 256000.
Definition READ_BUFFER : Z := 128000.

(** What a request task hands to the pump. *)
Abbreviation queued := (result Failure (list byte)).

Inductive pump_end : Type := Closed | Failed | Panicked.
Inductive pump_phase : Type :=
| Selecting
| Forwarding (rest : list byte)
| Writing (rest : list byte)
| PumpDone (r : pump_end).

(** The reader inside [read_record_with_timeout], with the bytes it has taken for
    this record and whether it holds a reservation; waiting for an in-flight slot;
    or gone. *)
Inductive reader_phase : Type :=
| Reading (fetched : list byte) (reserved : bool)
| WaitSlot (record : list byte)
| ReaderDone.

Inductive task : Type := Running (record : list byte) | Sending (reply : queued).

(** The end of what the peer sends. *)
Inductive socket_end : Type := Eof | Broken.

(** [accepted], [forwarded], [answered], [disturbed] and [arrived] are histories:
    the records read, the bytes put into the pipe, the replies taken from the queue
    with the number of their record, whether a write to the socket has failed, and
    the bytes the peer sent. [output] is what the socket has accepted, that is the
    operating system: when and whether the peer reads it is not modelled. *)
Record conn : Type := mkConn {
  peer : string;
  incoming : list byte;
  input_end : option socket_end;
  pump : pump_phase;
  pipe : list byte;
  reader : reader_phase;
  tasks : gmap nat task;
  queue : list (nat * queued);
  output : list byte;
  accepted : list (list byte);
  forwarded : list byte;
  answered : list (nat * list byte);
  disturbed : bool;
  arrived : list byte
}.

(** The permits of the listener: connections and bytes of records. *)
Record quota : Type := mkQuota { slots : Z; bytes : Z }.

Definition charge : Z := max_record_size RPC_RECORD_LIMITS.
Definition release_bytes (p : quota) : quota := mkQuota (slots p) (bytes p + charge).
Definition release_slot (p : quota) : quota := mkQuota (slots p + 1) (bytes p).

Definition pump_done (c : conn) : bool := match pump c with PumpDone _ => true | _ => false end.
Definition reader_done (c : conn) : bool := match reader c with ReaderDone => true | _ => false end.

Definition set_pump (p : pump_phase) (c : conn) : conn :=
  mkConn (peer c) (incoming c) (input_end c) p (pipe c) (reader c) (tasks c) (queue c) (output c) (accepted c) (forwarded c)
    (answered c) (disturbed c) (arrived c).
Definition set_reader (r : reader_phase) (c : conn) : conn :=
  mkConn (peer c) (incoming c) (input_end c) (pump c) (pipe c) r (tasks c) (queue c) (output c) (accepted c) (forwarded c)
    (answered c) (disturbed c) (arrived c).
Definition set_incoming (bs : list byte) (e : option socket_end) (c : conn) : conn :=
  mkConn (peer c) bs e (pump c) (pipe c) (reader c) (tasks c) (queue c) (output c) (accepted c) (forwarded c)
    (answered c) (disturbed c) (arrived c).
Definition set_pipe (bs : list byte) (c : conn) : conn :=
  mkConn (peer c) (incoming c) (input_end c) (pump c) bs (reader c) (tasks c) (queue c) (output c) (accepted c) (forwarded c)
    (answered c) (disturbed c) (arrived c).
Definition set_tasks (m : gmap nat task) (c : conn) : conn :=
  mkConn (peer c) (incoming c) (input_end c) (pump c) (pipe c) (reader c) m (queue c) (output c) (accepted c) (forwarded c)
    (answered c) (disturbed c) (arrived c).
Definition set_queue (q : list (nat * queued)) (c : conn) : conn :=
  mkConn (peer c) (incoming c) (input_end c) (pump c) (pipe c) (reader c) (tasks c) q (output c) (accepted c) (forwarded c)
    (answered c) (disturbed c) (arrived c).
Definition set_output (bs : list byte) (broken : bool) (c : conn) : conn :=
  mkConn (peer c) (incoming c) (input_end c) (pump c) (pipe c) (reader c) (tasks c) (queue c) bs (accepted c) (forwarded c)
    (answered c) broken (arrived c).
Definition log_accepted (record : list byte) (c : conn) : conn :=
  mkConn (peer c) (incoming c) (input_end c) (pump c) (pipe c) (reader c) (tasks c) (queue c) (output c) (accepted c ++ [record])
    (forwarded c) (answered c) (disturbed c) (arrived c).
Definition log_forwarded (bs : list byte) (c : conn) : conn :=
  mkConn (peer c) (incoming c) (input_end c) (pump c) (pipe c) (reader c) (tasks c) (queue c) (output c) (accepted c)
    (forwarded c ++ bs) (answered c) (disturbed c) (arrived c).
Definition log_answered (id : nat) (msg : list byte) (c : conn) : conn :=
  mkConn (peer c) (incoming c) (input_end c) (pump c) (pipe c) (reader c) (tasks c) (queue c) (output c) (accepted c)
    (forwarded c) (answered c ++ [(id, msg)]) (disturbed c) (arrived c).

Definition log_arrived (bs : list byte) (c : conn) : conn :=
  mkConn (peer c) (incoming c) (input_end c) (pump c) (pipe c) (reader c) (tasks c) (queue c) (output c) (accepted c)
    (forwarded c) (answered c) (disturbed c) (arrived c ++ bs).

(** [SocketMessageHandler::new] and the start of [process_socket]. *)
Definition opened (who : string) : conn :=
  mkConn who [] None Selecting [] (Reading [] false) ∅ [] [] [] [] [] false [].

(** The bytes [write_fragment] puts on the socket; [None] is its assertion. *)
Definition fragment (buf : list byte) : option (list byte) :=
  if zlen buf <? Z.shiftl 1 31 then Some (be_bytes 4 (zlen buf + Z.shiftl 1 31) ++ buf) else None.

Section Tasks.
Context (alloc : Z -> option Z).

(** What [read_record_budgeted] makes of the bytes it has taken so far, holding a
    reservation or not. The end of the stream is marked by an error of a kind of
    its own, so that running out of bytes is recognised. *)
Inductive verdict : Type :=
| More
| WantsBudget
| Got (record : list byte)
| Refused (e : RecordError).

Definition judge (reserved : bool) (fetched : list byte) : verdict :=
  match read_record_budgeted alloc RPC_RECORD_LIMITS (mkSemaphore (if reserved then charge else 0) false) (mkStream fetched OtherIo) with
  | Pending => WantsBudget
  | Ready (Ok (record, _), _) => Got record
  | Ready (Err (RpcRecord.Io OtherIo), _) => More
  | Ready (Err e, _) => Refused e
  end.

(** ** Steps of a connection *)

(** [Taken n]: the socket accepts [n] bytes of the reply being written. *)

Inductive action : Type :=
(* the peer and the network *)
| Arrive (bs : list byte)
| Close
| Break
| Taken (n : Z)
| WriteFails
(* [process_socket] *)
| TryRead
| Forward
| Recv
(* [SocketMessageHandler::read] in its loop *)
| Fetch
| Reserve
| Complete
| ReadFails
| TimesOut
| Spawn
(* the task of a record *)
| Return (id : nat) (out : option (option queued))
| Send (id : nat).

(** The task ends: the receiver of the queue, the write half of the pipe and its
    share of the connection permit are dropped. *)
Definition end_pump (r : pump_end) (p : quota) (c : conn) : quota * conn :=
  (if reader_done c then release_slot p else p, set_queue [] (set_pump (PumpDone r) c)).

(** The loop breaks: the read half of the pipe, a reservation and its share of the
    connection permit are dropped. *)
Definition end_reader (reserved : bool) (p : quota) (c : conn) : quota * conn :=
  let p := if reserved then release_bytes p else p in
  (if pump_done c then release_slot p else p, set_pipe [] (set_reader ReaderDone c)).

(** A task ends: its in-flight slot and its reservation are dropped. *)
Definition end_task (id : nat) (p : quota) (c : conn) : quota * conn :=
  (release_bytes p, set_tasks (delete id (tasks c)) c).

Definition act (a : action) (p : quota) (c : conn) : option (quota * conn) :=
  match a with
  | Arrive bs =>
      match input_end c with None => Some (p, log_arrived bs (set_incoming (incoming c ++ bs) None c)) | Some _ => None end
  | Close =>
      match input_end c with None => Some (p, set_incoming (incoming c) (Some Eof) c) | Some _ => None end
  | Break => Some (p, set_incoming [] (Some Broken) c)
  | Taken n =>
      match pump c with
      | Writing rest =>
          if (1 <=? n) && (n <=? zlen rest) then
            let rest' := drop (Z.to_nat n) rest in
            Some (p, set_pump (match rest' with [] => Selecting | _ => Writing rest' end)
              (set_output (output c ++ take (Z.to_nat n) rest) (disturbed c) c))
          else None
      | _ => None
      end
  | WriteFails =>
      match pump c with Writing _ => Some (p, set_pump Selecting (set_output (output c) true c)) | _ => None end
  | TryRead =>
      match pump c with
      | Selecting =>
          match incoming c with
          | [] =>
              match input_end c with
              | Some Eof => Some (end_pump Closed p c)
              | Some Broken => Some (end_pump Failed p c)
              | None => None
              end
          | _ =>
              Some (p, set_pump (Forwarding (take (Z.to_nat READ_BUFFER) (incoming c)))
                (set_incoming (drop (Z.to_nat READ_BUFFER) (incoming c)) (input_end c) c))
          end
      | _ => None
      end
  | Forward =>
      match pump c with
      | Forwarding rest =>
          let n := Z.min (PIPE_CAPACITY - zlen (pipe c)) (zlen rest) in
          if zlen rest =? 0 then Some (p, set_pump Selecting c)
          else if reader_done c then Some (p, set_pump Selecting c)
          else if n =? 0 then None
          else Some (p, set_pump (Forwarding (drop (Z.to_nat n) rest)) (log_forwarded (take (Z.to_nat n) rest)
            (set_pipe (pipe c ++ take (Z.to_nat n) rest) c)))
      | _ => None
      end
  | Recv =>
      match pump c with
      | Selecting =>
          match queue c with
          | (id, Ok msg) :: q =>
              match fragment msg with
              | Some w => Some (p, set_pump (Writing w) (log_answered id msg (set_queue q c)))
              | None => Some (end_pump Panicked p c)
              end
          | (id, Err _) :: q => Some (end_pump Failed p c)
          | [] => if reader_done c && bool_decide (tasks c = ∅) then Some (end_pump Failed p c) else None
          end
      | _ => None
      end
  | Fetch =>
      match reader c, pipe c with
      | Reading fetched reserved, b :: pipe' =>
          match judge reserved fetched with
          | More => Some (p, set_reader (Reading (fetched ++ [b]) reserved) (set_pipe pipe' c))
          | _ => None
          end
      | _, _ => None
      end
  | Reserve =>
      match reader c with
      | Reading fetched false =>
          match judge false fetched with
          | WantsBudget =>
              if charge <=? bytes p then Some (mkQuota (slots p) (bytes p - charge), set_reader (Reading fetched true) c) else None
          | _ => None
          end
      | _ => None
      end
  | Complete =>
      match reader c with
      | Reading fetched true =>
          match judge true fetched with
          | Got record => Some (p, set_reader (WaitSlot record) (log_accepted record c))
          | _ => None
          end
      | _ => None
      end
  | ReadFails =>
      match reader c with
      | Reading fetched reserved =>
          match judge reserved fetched with
          | Refused _ => Some (end_reader reserved p c)
          | More => match pipe c with [] => if pump_done c then Some (end_reader reserved p c) else None | _ => None end
          | _ => None
          end
      | _ => None
      end
  | TimesOut => match reader c with Reading _ reserved => Some (end_reader reserved p c) | _ => None end
  | Spawn =>
      match reader c with
      | WaitSlot record =>
          if Z.of_nat (size (tasks c)) <? MAX_IN_FLIGHT_MESSAGES then
            Some (p, set_reader (Reading [] false)
              (set_tasks (<[pred (length (accepted c)) := Running record]> (tasks c)) c))
          else None
      | _ => None
      end
  | Return id out =>
      match tasks c !! id with
      | Some (Running _) =>
          match out with
          | Some (Some r) => Some (p, set_tasks (<[id := Sending r]> (tasks c)) c)
          | _ => Some (end_task id p c)
          end
      | _ => None
      end
  | Send id =>
      match tasks c !! id with
      | Some (Sending r) =>
          if pump_done c then Some (end_task id p c)
          else if zlen (queue c) <? MAX_QUEUED_REPLIES then Some (end_task id p (set_queue (queue c ++ [(id, r)]) c))
          else None
      | _ => None
      end
  end.

(** ** The listener *)

Inductive accept_phase : Type := Acquiring | Accepting | Returned.
Record world : Type := mkWorld { accepting : accept_phase; free : quota; conns : list conn }.

Inductive step_label : Type :=
| TakePermit
| Accept (who : string)
| AcceptFails
| On (i : nat) (a : action).

(** One iteration of [handle_forever] is [TakePermit] and [Accept]; it returns when
    [accept] fails, or panics when the peer has no address any more. *)
Definition move (l : step_label) (w : world) : option world :=
  match l with
  | TakePermit =>
      match accepting w with
      | Acquiring => if 1 <=? slots (free w) then Some (mkWorld Accepting (mkQuota (slots (free w) - 1) (bytes (free w))) (conns w)) else None
      | _ => None
      end
  | Accept who =>
      match accepting w with
      | Accepting => Some (mkWorld Acquiring (free w) (conns w ++ [opened who]))
      | _ => None
      end
  | AcceptFails =>
      match accepting w with Accepting => Some (mkWorld Returned (release_slot (free w)) (conns w)) | _ => None end
  | On i a =>
      match conns w !! i with
      | Some c => match act a (free w) c with Some (p, c') => Some (mkWorld (accepting w) p (<[i := c']> (conns w))) | None => None end
      | None => None
      end
  end.

Definition started : world :=
  mkWorld Acquiring (mkQuota MAX_LEGACY_CONNECTIONS MAX_LEGACY_BUFFERED_REQUEST_BYTES) [].

(** What a program may return, for some answers of the environment. *)
Inductive outcome {A} : LegacyVfs.prog A -> option A -> Prop :=
| outcome_done a : outcome (Done a) (Some a)
| outcome_crash : outcome Crash None
| outcome_ask e k r o : outcome (k r) o -> outcome (Ask e k) o.

Context `{Provided} (overflow_checks : bool) {Socket : Type} (listener : @NFSTcpListener Socket).

Definition may_answer (c : conn) (record : list byte) (out : option (option queued)) : Prop :=
  outcome (serve_record overflow_checks (connection_context listener (peer c)) record) out.

(** A task returns what the program of its record may return. *)
Definition allowed (l : step_label) (w : world) : Prop :=
  match l with
  | On i (Return id out) =>
      exists c record, conns w !! i = Some c /\ tasks c !! id = Some (Running record) /\ may_answer c record out
  | _ => True
  end.

Inductive wsteps : world -> list step_label -> world -> Prop :=
| wsteps_nil w : wsteps w [] w
| wsteps_snoc w ls w1 l w2 : wsteps w ls w1 -> allowed l w1 -> move l w1 = Some w2 -> wsteps w (ls ++ [l]) w2.
End Tasks.
