(* ===== verification/LegacyListenerSpec.v ===== *)
(** * What the listener of the demo server keeps

    Permits are conserved in every interleaving, so that connections and the bytes
    of records being served stay within their limits; a connection answers each
    record it reads at most once, with a reply that record may have; and a peer
    that does not take its replies can hold the whole byte budget. *)
From S2P Require Import Prelude RpcRecord Xdr LegacyMessage LegacyNfs Free LegacyVfs LegacyHandlers LegacyReplies LegacyBehaviour LegacyRpc LegacyTcp LegacyListener.
From stdpp Require Import list gmap sets strings.
#[local] Open Scope Z_scope.

#[local] Opaque READ_BUFFER PIPE_CAPACITY charge.

(** ** Sums over connections *)

Definition sum_over (f : conn -> Z) (l : list conn) : Z := fold_right (fun c n => f c + n) 0 l.

Lemma sum_over_cons f c l : sum_over f (c :: l) = f c + sum_over f l.
Proof. done. Qed.

Lemma sum_over_app f l1 l2 : sum_over f (l1 ++ l2) = sum_over f l1 + sum_over f l2.
Proof. induction l1 as [|c l1 IH]; [done|]. cbn [app]. rewrite !sum_over_cons. lia. Qed.

Lemma sum_over_insert f l i c c' : l !! i = Some c -> sum_over f (<[i := c']> l) = sum_over f l - f c + f c'.
Proof.
  intros Hi. rewrite insert_take_drop by (by eapply lookup_lt_Some). rewrite <- (take_drop_middle l i c) at 3 by done.
  rewrite !sum_over_app, !sum_over_cons. lia.
Qed.

Lemma sum_over_nonneg f l : (forall c, 0 <= f c) -> 0 <= sum_over f l.
Proof. intros Hf. induction l as [|c l IH]; [done|]. rewrite sum_over_cons. specialize (Hf c). lia. Qed.

Lemma sum_over_pick f l i c : (forall c, 0 <= f c) -> l !! i = Some c -> f c <= sum_over f l.
Proof.
  intros Hf Hi. rewrite <- (take_drop_middle l i c) by done. rewrite sum_over_app, sum_over_cons.
  pose proof (sum_over_nonneg f (take i l) Hf). pose proof (sum_over_nonneg f (drop (S i) l) Hf). lia.
Qed.

(** ** Permits *)

(** A connection permit is shared by the pump and the reader. *)
Definition alive (c : conn) : Z := if pump_done c && reader_done c then 0 else 1.

(** Reservations: of the record being read, of the record waiting for a slot, and
    one per task. *)
Definition reading (c : conn) : Z :=
  match reader c with Reading _ reserved => if reserved then 1 else 0 | WaitSlot _ => 1 | ReaderDone => 0 end.
Definition held (c : conn) : Z := reading c + Z.of_nat (size (tasks c)).

Lemma alive_bounds c : 0 <= alive c <= 1.
Proof. unfold alive. destruct (_ && _); lia. Qed.
Lemma reading_nonneg c : 0 <= reading c.
Proof. unfold reading. destruct (reader c) as [? []| |]; lia. Qed.
Lemma held_nonneg c : 0 <= held c.
Proof. unfold held. pose proof (reading_nonneg c). lia. Qed.

(** The number of records whose task has been started. *)
Definition issued (c : conn) : nat :=
  match reader c with WaitSlot _ => pred (length (accepted c)) | _ => length (accepted c) end.

Record bounded_conn (c : conn) : Prop := {
  b_pipe : zlen (pipe c) <= PIPE_CAPACITY;
  b_queue : zlen (queue c) <= MAX_QUEUED_REPLIES;
  b_tasks : Z.of_nat (size (tasks c)) <= MAX_IN_FLIGHT_MESSAGES;
  b_fresh id t : tasks c !! id = Some t -> (id < issued c)%nat;
  b_waiting record : reader c = WaitSlot record -> exists before, accepted c = before ++ [record]
}.

(** Case analysis of a step that happened. *)
Ltac step_cases H :=
  repeat (match type of H with
    | context [match ?x with _ => _ end] => let E := fresh "E" in destruct x eqn:E; try discriminate H
    end); try (injection H as <- <-).

(** Projections of an updated connection. *)
Ltac proj :=
  cbn [peer incoming input_end pump pipe reader tasks queue output accepted forwarded answered disturbed arrived
       set_pump set_reader set_incoming set_pipe set_tasks set_queue set_output log_accepted log_forwarded log_answered log_arrived
       end_pump end_reader end_task fst snd slots bytes release_slot release_bytes] in *.

Section Spec.
Context (alloc : Z -> option Z).

Lemma size_delete_task (m : gmap nat task) id t : m !! id = Some t -> Z.of_nat (size (delete id m)) = Z.of_nat (size m) - 1.
Proof. intros Ht. rewrite map_size_delete, Ht. assert (size m <> 0%nat) by (apply map_size_non_empty_iff; by intros ->). lia. Qed.

Lemma size_update_task (m : gmap nat task) id t t' : m !! id = Some t -> size (<[id := t']> m) = size m.
Proof. intros Ht. by rewrite map_size_insert, Ht. Qed.

Lemma zlen_forward (pipe rest : list byte) :
  zlen pipe <= PIPE_CAPACITY -> zlen (pipe ++ take (Z.to_nat (Z.min (PIPE_CAPACITY - zlen pipe) (zlen rest))) rest) <= PIPE_CAPACITY.
Proof. intros Hp. pose proof (zlen_nonneg rest). rewrite zlen_app, zlen_take by lia. lia. Qed.

Lemma act_bounded a p c p' c' : bounded_conn c -> act alloc a p c = Some (p', c') -> bounded_conn c'.
Proof.
  intros [Hp Hq Ht Hf Hw] H. unfold act, end_pump, end_reader, end_task in H.
  destruct a; step_cases H; split; unfold issued in *; proj; try done; try lia.
  all: try (by apply zlen_forward).
  all: rewrite ?zlen_cons in *; try lia.
  all: try match goal with E : lookup _ _ = Some _ |- context [delete _ _] =>
    first [rewrite (size_delete_task _ _ _ E); lia | intros j u [_ Hj]%lookup_delete_Some; by eapply Hf] end.
  all: try match goal with E : lookup _ _ = Some _ |- context [<[_ := Sending _]> _] =>
    first [rewrite (size_update_task _ _ _ _ E); lia | intros j u [[<- _]|[_ Hj]]%lookup_insert_Some; by eapply Hf] end.
  all: try match goal with E : reader ?x = _ |- forall _ _, tasks _ !! _ = Some _ -> _ => rewrite E in Hf; intros j u Hj; specialize (Hf j u Hj) end.
  all: try done.
  - rewrite length_app. cbn [length]. lia.
  - intros r [= <-]. by eexists.
  - apply Z.ltb_lt in E0. rewrite map_size_insert. destruct (_ !! _); unfold id; lia.
  - rewrite E in Hf. destruct (Hw record eq_refl) as [before Hb]. assert (length (accepted c) = S (length before)) as Hl by (rewrite Hb, length_app; cbn; lia).
    intros j u [[<- _]|[_ Hj%Hf]]%lookup_insert_Some; lia.
  - rewrite zlen_app, zlen_cons, zlen_nil. zbool. lia.
Qed.

(** The task of a record is a new one. *)
Lemma spawn_size c record :
  bounded_conn c -> reader c = WaitSlot record ->
  Z.of_nat (size (<[pred (length (accepted c)) := Running record]> (tasks c))) = Z.of_nat (size (tasks c)) + 1.
Proof.
  intros Hb Hr. rewrite map_size_insert. destruct (tasks c !! _) as [t|] eqn:Et; [|lia].
  apply (b_fresh _ Hb) in Et. unfold issued in Et. rewrite Hr in Et. lia.
Qed.

(** Whatever a step takes or gives back, the listener has the rest. *)
Lemma act_conserves a p c p' c' :
  bounded_conn c -> act alloc a p c = Some (p', c') ->
  slots p' + alive c' = slots p + alive c /\ bytes p' + charge * held c' = bytes p + charge * held c /\
  (0 <= slots p -> 0 <= bytes p -> 0 <= slots p' /\ 0 <= bytes p').
Proof.
  intros Hb H. pose proof (spawn_size c) as Hs. unfold act, end_pump, end_reader, end_task in H. assert (0 < charge) as Hc by done.
  unfold alive, held, reading, pump_done, reader_done in *.
  destruct a; step_cases H; proj; simplify_eq.
  all: repeat match goal with E : pump ?x = _ |- _ => rewrite E in * | E : reader ?x = _ |- _ => rewrite E in * end; cbn [andb] in *.
  all: try (split_and!; lia).
  all: repeat match goal with
    | |- context [match reader ?x with _ => _ end] => destruct (reader x) as [? []| |]
    | |- context [match pump ?x with _ => _ end] => destruct (pump x)
    end; cbn [andb] in *; try discriminate.
  all: try match goal with E : lookup _ _ = Some _ |- _ =>
    rewrite ?(size_delete_task _ _ _ E), ?(size_update_task _ _ _ _ E) end.
  all: try (split_and!; lia).
  all: rewrite (Hs _ Hb eq_refl); split_and!; lia.
Qed.

(** ** The listener *)

Definition pending_permit (w : world) : Z := match accepting w with Accepting => 1 | _ => 0 end.

Record sound (w : world) : Prop := {
  s_slots : 0 <= slots (free w);
  s_free : 0 <= bytes (free w);
  s_connections : slots (free w) + pending_permit w + sum_over alive (conns w) = MAX_LEGACY_CONNECTIONS;
  s_reserved : bytes (free w) + charge * sum_over held (conns w) = MAX_LEGACY_BUFFERED_REQUEST_BYTES;
  s_conns i c : conns w !! i = Some c -> bounded_conn c
}.

Lemma started_sound : sound started.
Proof. by split. Qed.

Lemma opened_bounded who : bounded_conn (opened who).
Proof. split; cbn; try done. Qed.

Lemma move_sound l w w' : sound w -> move alloc l w = Some w' -> sound w'.
Proof.
  intros [H1 H2 H3 H4 H5] H. destruct l as [|who| |i a]; cbn [move] in H.
  - destruct (accepting w) eqn:Ea; try done. destruct (1 <=? slots (free w)) eqn:Es; [|done]. injection H as <-.
    apply Z.leb_le in Es. unfold pending_permit in *. rewrite Ea in H3. split; cbn [pending_permit free accepting conns slots bytes]; try done; lia.
  - destruct (accepting w) eqn:Ea; try done. injection H as <-. unfold pending_permit in *. rewrite Ea in H3.
    split; cbn [pending_permit free accepting conns]; try done; rewrite ?sum_over_app, ?sum_over_cons; cbn [sum_over fold_right].
    + change (alive (opened who)) with 1. lia.
    + change (held (opened who)) with 0. lia.
    + intros j c Hj. apply lookup_app_Some in Hj as [?|[_ Hj]]; [by eapply H5|].
      apply list_lookup_singleton_Some in Hj as [_ <-]. apply opened_bounded.
  - destruct (accepting w) eqn:Ea; try done. injection H as <-. unfold pending_permit in *. rewrite Ea in H3.
    split; cbn [pending_permit free accepting conns release_slot slots bytes]; try done; lia.
  - destruct (conns w !! i) as [c|] eqn:Ec; [|done]. destruct (act alloc a (free w) c) as [[p' c']|] eqn:Eq; [|done]. injection H as <-.
    pose proof (H5 i c Ec) as Hb. destruct (act_conserves _ _ _ _ _ Hb Eq) as (Hs & Hy & Hn). destruct (Hn H1 H2) as [Hn1 Hn2].
    split; unfold pending_permit in *; cbn [pending_permit free accepting conns]; try done; rewrite ?(sum_over_insert _ _ _ _ _ Ec); [lia|lia|].
    intros j x Hj. apply list_lookup_insert_Some in Hj as [(<- & <- & _)|[_ Hj]]; [by eapply act_bounded|by eapply H5].
Qed.

Context `{Provided} (overflow_checks : bool) {Socket : Type} (listener : @NFSTcpListener Socket).

Lemma wsteps_sound w ls w' : sound w -> wsteps alloc overflow_checks listener w ls w' -> sound w'.
Proof. induction 2; eauto using move_sound. Qed.

Lemma sum_over_le f g l : (forall c, f c <= g c) -> sum_over f l <= sum_over g l.
Proof. intros Hf. induction l as [|c l IH]; [done|]. rewrite !sum_over_cons. specialize (Hf c). lia. Qed.

Definition running_tasks (c : conn) : Z := Z.of_nat (size (tasks c)).

(** C28: permits of the demo server's listener. In every interleaving of the accept
    loop, the pumps, the readers, the request tasks and the peers, the connections
    with a live pump or reader, a permit taken for the next one and the free permits
    are 1024 together, and the reservations of records being read, waiting and
    served and the free bytes are 64 MiB together. At most 32 records are served at
    once on all connections, so that the limit of 64 records in flight on each
    connection never makes a reader wait. The pipe and the reply queue of a
    connection stay within their capacities. *)
Theorem demo_listener_bounds ls w :
  wsteps alloc overflow_checks listener started ls w ->
  slots (free w) + pending_permit w + sum_over alive (conns w) = 1024 /\ 0 <= slots (free w) /\
  bytes (free w) + 2 * 1024 * 1024 * sum_over held (conns w) = 64 * 1024 * 1024 /\ 0 <= bytes (free w) /\
  sum_over running_tasks (conns w) <= 32 /\
  forall i c, conns w !! i = Some c ->
    zlen (pipe c) <= 256000 /\ zlen (queue c) <= 64 /\
    forall record, reader c = WaitSlot record -> is_Some (act alloc Spawn (free w) c).
Proof.
  intros Hs. destruct (wsteps_sound _ _ _ started_sound Hs) as [H1 H2 H3 H4 H5].
  assert (2 * 1024 * 1024 * sum_over held (conns w) <= 64 * 1024 * 1024) as Hh.
  { assert (charge = 2 * 1024 * 1024) as Hc by done. rewrite Hc in H4. unfold MAX_LEGACY_BUFFERED_REQUEST_BYTES in H4. lia. }
  split_and!; try done.
  - assert (sum_over running_tasks (conns w) <= sum_over held (conns w)); [|lia]. apply sum_over_le. intros c. unfold held, running_tasks.
    pose proof (reading_nonneg c). lia.
  - intros i c Hc. destruct (H5 i c Hc) as [Hp Hq _ _ _]. split_and!; [exact Hp|exact Hq|]. intros record Hr.
    pose proof (sum_over_pick held (conns w) i c held_nonneg Hc) as Hl.
    assert (held c = 1 + Z.of_nat (size (tasks c))) as Hh' by (unfold held, reading; by rewrite Hr).
    unfold act. rewrite Hr. rewrite (proj2 (Z.ltb_lt _ _)) by (unfold MAX_IN_FLIGHT_MESSAGES; lia). by eexists.
Qed.

(** ** The byte stream *)

Definition fetched_of (c : conn) : list byte := match reader c with Reading f _ => f | _ => [] end.
Definition to_forward (c : conn) : list byte := match pump c with Forwarding rest => rest | _ => [] end.

Lemma judge_more r f : judge alloc r f = More -> read_record alloc RPC_RECORD_LIMITS (mkStream f OtherIo) = Err (RpcRecord.Io OtherIo).
Proof.
  unfold judge. set (sem := mkSemaphore _ false).
  destruct (read_budgeted_cases alloc RPC_RECORD_LIMITS sem (mkStream f OtherIo)) as [Hok Hno]; [done|done|done|].
  destruct (decide (charge <= permits sem)) as [Hp|Hp].
  - rewrite (Hok Hp). unfold budgeted. by destruct (read_record _ _ _) as [[? ?]|[[]| | | | |]].
  - destruct r; [by destruct Hp|]. intros He.
    assert (read_record_budgeted alloc RPC_RECORD_LIMITS (mkSemaphore charge false) (mkStream f OtherIo) =
      Ready (Err (RpcRecord.Io OtherIo), mkSemaphore charge false)) as He'.
    { clear -He. unfold read_record_budgeted in *. destruct (stream_read_u32 _) as [[h s]|e]; [|by destruct e as [[]| | | | |]].
      repeat match goal with |- context [if ?b then _ else _] => destruct b; [done|] end. done. }
    destruct (read_budgeted_cases alloc RPC_RECORD_LIMITS (mkSemaphore charge false) (mkStream f OtherIo)) as [Hok' _]; [done|done|done|].
    rewrite Hok' in He' by done. unfold budgeted in He'. by destruct (read_record _ _ _) as [[? ?]|?]; simplify_eq.
Qed.

Lemma judge_got f record :
  judge alloc true f = Got record -> exists s, read_record alloc RPC_RECORD_LIMITS (mkStream f OtherIo) = Ok (record, s).
Proof.
  unfold judge. destruct (read_budgeted_cases alloc RPC_RECORD_LIMITS (mkSemaphore charge false) (mkStream f OtherIo)) as [Hok _]; [done|done|done|].
  rewrite Hok by done. unfold budgeted. destruct (read_record _ _ _) as [[r s]|[[]| | | | |]]; [|done..]. intros [= ->]. by eexists.
Qed.

Context (memory : alloc_grants alloc charge).

(** The reader takes no byte beyond its record. *)
Lemma exact_record f' b r record :
  judge alloc r f' = More -> judge alloc true (f' ++ [b]) = Got record ->
  exists cs, fragments_ok RPC_RECORD_LIMITS cs /\ record = concat cs /\ f' ++ [b] = frames cs.
Proof.
  intros Hm [s Hg]%judge_got. apply judge_more in Hm. apply read_record_spec in Hg as (cs & Hok & -> & Hb & _); [|done|done|done].
  cbn [s_bytes] in Hb. exists cs. split_and!; [done|done|]. destruct (s_bytes s) as [|x rest _] using rev_ind; [by rewrite app_nil_r in Hb|].
  rewrite app_assoc in Hb. apply app_inj_tail in Hb as [Hb ->].
  assert (read_record alloc RPC_RECORD_LIMITS (mkStream f' OtherIo) = Ok (concat cs, mkStream rest OtherIo)) as E.
  { apply read_record_spec; [done..|]. by exists cs. }
  by rewrite E in Hm.
Qed.

(** Nothing is left to read of an empty stream. *)
Lemma judge_empty r : judge alloc r [] = More.
Proof. by destruct r. Qed.

Record streamed (c : conn) : Prop := {
  t_records : exists css rest, accepted c = map (@concat byte) css /\ Forall (fragments_ok RPC_RECORD_LIMITS) css /\
    forwarded c = concat (map frames css) ++ rest /\ (reader_done c = false -> rest = fetched_of c ++ pipe c);
  t_fetched : match reader c with Reading f _ => f = [] \/ exists f' b r, f = f' ++ [b] /\ judge alloc r f' = More | _ => True end;
  t_arrived : exists rest, arrived c = forwarded c ++ rest /\
    (reader_done c = false -> exists lost, rest = to_forward c ++ incoming c ++ lost /\ (input_end c <> Some Broken -> lost = []))
}.

Lemma opened_streamed who : streamed (opened who).
Proof. split; [by exists [], []|by left|]. exists []. split; [done|]. by exists []. Qed.

(** Only these parts of a connection matter to the stream. *)
Lemma streamed_same c c' :
  accepted c' = accepted c -> forwarded c' = forwarded c -> reader c' = reader c -> pipe c' = pipe c ->
  to_forward c' = to_forward c -> incoming c' = incoming c -> input_end c' = input_end c -> arrived c' = arrived c ->
  streamed c -> streamed c'.
Proof.
  intros E1 E2 E3 E4 E5 E6 E7 E8 [H1 H2 H3]. split; unfold reader_done, fetched_of in *.
  - by rewrite E1, E2, E3, E4.
  - by rewrite E3.
  - by rewrite E2, E3, E5, E6, E7, E8.
Qed.

(** The reader is gone: what it had not read is lost. *)
Lemma streamed_ends c c' :
  accepted c' = accepted c -> forwarded c' = forwarded c -> reader c' = ReaderDone -> arrived c' = arrived c -> streamed c -> streamed c'.
Proof.
  intros E1 E2 E3 E4 [(css & rest & Ha & Hf & Hr & _) _ (rest' & Ht & _)]. split; unfold reader_done; rewrite ?E1, ?E2, ?E3, ?E4; [|done|].
  - by exists css, rest.
  - by exists rest'.
Qed.

(** The peer sends or hangs up, the pump reads: the bytes between arrival and the
    pipe change. *)
Lemma streamed_input c c' bs :
  accepted c' = accepted c -> forwarded c' = forwarded c -> reader c' = reader c -> pipe c' = pipe c -> arrived c' = arrived c ++ bs ->
  (reader_done c = false -> forall lost, (input_end c <> Some Broken -> lost = []) ->
    exists lost', to_forward c ++ incoming c ++ lost ++ bs = to_forward c' ++ incoming c' ++ lost' /\ (input_end c' <> Some Broken -> lost' = [])) ->
  streamed c -> streamed c'.
Proof.
  intros E1 E2 E3 E4 E5 Hi [H1 H2 (rest & Ht & Hl)]. split; unfold reader_done, fetched_of in *.
  - by rewrite E1, E2, E3, E4.
  - by rewrite E3.
  - exists (rest ++ bs). split; [by rewrite E5, E2, Ht, <- app_assoc|]. rewrite E3. intros Hd.
    destruct (Hl Hd) as (lost & -> & Hlost). destruct (Hi Hd lost Hlost) as (lost' & Hb & Hl'). exists lost'. by rewrite <- Hb, <- !app_assoc.
Qed.

Ltac same := by eapply streamed_same; [..|eassumption]; unfold to_forward; proj; repeat match goal with E : pump _ = _ |- _ => rewrite E end.

Lemma act_streamed a p c p' c' : streamed c -> act alloc a p c = Some (p', c') -> streamed c'.
Proof.
  intros Hc Hs. unfold act, end_pump, end_reader, end_task in Hs.
  destruct a; step_cases Hs; try same; try (by apply (streamed_ends c)).
  - apply (streamed_input c _ bs); [done..| |done]. unfold to_forward. proj. intros _ lost Hl. rewrite E in Hl. rewrite (Hl ltac:(done)).
    exists []. by rewrite !app_nil_r.
  - apply (streamed_input c _ []); [try done..|done]; [by rewrite app_nil_r|]. unfold to_forward. proj. intros _ lost Hl. rewrite E in Hl.
    rewrite (Hl ltac:(done)). by exists [].
  - apply (streamed_input c _ []); [try done..|done]; [by rewrite app_nil_r|]. unfold to_forward. proj. intros _ lost _.
    exists (incoming c ++ lost). by rewrite app_nil_r.
  - apply (streamed_input c _ []); [try done..|done]; [by rewrite app_nil_r|]. unfold to_forward. proj. rewrite E, E0. intros _ lost Hl.
    exists lost. split; [|done]. rewrite app_nil_r. cbn [app]. by rewrite app_assoc, take_drop.
  - apply streamed_same with c; try done. unfold to_forward. proj. rewrite E. zbool. by rewrite (zlen_nil_inv rest).
  - apply (streamed_input c _ []); [try done..|done]; [by rewrite app_nil_r|]. by rewrite E1.
  - destruct Hc as [(css & r & Ha & Hf & Hr & Hd) Hj (r' & Ht & Hl)]. set (n := Z.to_nat _). split; unfold to_forward in *; proj.
    + exists css, (r ++ take n rest). rewrite Hr, <- app_assoc. split_and!; [done|done|done|]. intros Hn. unfold fetched_of. proj.
      rewrite (Hd Hn). by rewrite <- app_assoc.
    + done.
    + destruct (Hl E1) as (lost & -> & Hlost). rewrite E in Ht. exists (drop n rest ++ incoming c ++ lost).
      split; [|intros _; by exists lost]. rewrite Ht, <- !app_assoc. f_equal. by rewrite (app_assoc (take n rest)), take_drop.
  - destruct Hc as [(css & r & Ha & Hf & Hr & Hd) Hj (r' & Ht & Hl)]. unfold reader_done, fetched_of in *. rewrite E in *. rewrite E0 in *.
    split; unfold reader_done, fetched_of, to_forward in *; proj.
    + exists css, r. split_and!; [done..|]. intros _. rewrite (Hd eq_refl). by rewrite <- app_assoc.
    + right. by exists fetched, b, reserved.
    + by exists r'.
  - destruct Hc as [(css & r & Ha & Hf & Hr & Hd) Hj (r' & Ht & Hl)]. unfold reader_done, fetched_of in *. rewrite E in *.
    split; unfold reader_done, fetched_of, to_forward in *; proj; [by exists css, r|done|by exists r'].
  - destruct Hc as [(css & r & Ha & Hf & Hr & Hd) Hj (r' & Ht & Hl)]. unfold reader_done, fetched_of in *. rewrite E in *.
    destruct Hj as [->|(f' & b & r0 & -> & Hm)]; [by rewrite judge_empty in E1|].
    destruct (exact_record _ _ _ _ Hm E1) as (cs & Hok & -> & Hb).
    split; unfold reader_done, fetched_of, to_forward in *; proj; [|done|by exists r'].
    exists (css ++ [cs]), (pipe c). rewrite !map_app, concat_app, Ha. cbn [map concat]. rewrite app_nil_r. split_and!; [done|by apply Forall_app_2; [|constructor]| |done].
    by rewrite Hr, (Hd eq_refl), Hb, app_assoc.
  - destruct Hc as [(css & r & Ha & Hf & Hr & Hd) Hj (r' & Ht & Hl)]. unfold reader_done, fetched_of in *. rewrite E in *.
    split; unfold reader_done, fetched_of, to_forward in *; proj; [by exists css, r|by left|by exists r'].
Qed.

(** ** Replies *)

(** [r] is a reply to the record with number [id]. *)
Definition replies_to (c : conn) (id : nat) (r : queued) : Prop :=
  exists record, accepted c !! id = Some record /\ may_answer overflow_checks listener c record (Some (Some r)).

Definition taken_ids (c : conn) : list nat := (answered c).*1 ++ (queue c).*1.

Record genuine (c : conn) : Prop := {
  g_running id record : tasks c !! id = Some (Running record) -> accepted c !! id = Some record;
  g_sending id r : tasks c !! id = Some (Sending r) -> replies_to c id r;
  g_queue id r : (id, r) ∈ queue c -> replies_to c id r;
  g_answered id msg : (id, msg) ∈ answered c -> replies_to c id (Ok msg);
  g_distinct : base.NoDup (taken_ids c);
  g_apart id : id ∈ taken_ids c -> tasks c !! id = None /\ (id < issued c)%nat
}.

(** A reply stays a reply when more records arrive. *)
Lemma replies_to_mono c c' id r :
  peer c' = peer c -> (exists more, accepted c' = accepted c ++ more) -> replies_to c id r -> replies_to c' id r.
Proof.
  intros Hp [more Ha] (record & Hr & Hm). exists record. split; [|unfold may_answer in *; by rewrite Hp].
  rewrite Ha, lookup_app_l; [done|by eapply lookup_lt_Some].
Qed.

Lemma genuine_same c c' :
  peer c' = peer c -> accepted c' = accepted c -> tasks c' = tasks c -> queue c' = queue c -> answered c' = answered c ->
  issued c' = issued c -> genuine c -> genuine c'.
Proof.
  intros E1 E2 E3 E4 E5 E6 [H1 H2 H3 H4 H5 H6].
  assert (forall id r, replies_to c id r -> replies_to c' id r) as Hm.
  { intros id r. apply replies_to_mono; [done|]. exists []. by rewrite E2, app_nil_r. }
  split; unfold taken_ids in *; rewrite ?E2, ?E3, ?E4, ?E5, ?E6; eauto.
Qed.

Lemma opened_genuine who : genuine (opened who).
Proof. split; try done; [intros ? ? []%not_elem_of_nil..|constructor|intros ? []%not_elem_of_nil]. Qed.

(** The queue loses its head, or everything. *)
Lemma genuine_drop c c' q1 :
  peer c' = peer c -> accepted c' = accepted c -> tasks c' = tasks c -> issued c' = issued c ->
  queue c = q1 ++ queue c' -> answered c' = answered c -> genuine c -> genuine c'.
Proof.
  intros E1 E2 E3 E4 E5 E6 [H1 H2 H3 H4 H5 H6].
  assert (forall id r, replies_to c id r -> replies_to c' id r) as Hm.
  { intros id r. apply replies_to_mono; [done|]. exists []. by rewrite E2, app_nil_r. }
  unfold taken_ids in *. rewrite E5, fmap_app in H5, H6. split; unfold taken_ids; rewrite ?E2, ?E3, ?E4, ?E6; eauto.
  - intros id r Hr. apply Hm, H3. rewrite E5. by apply elem_of_app; right.
  - apply NoDup_app in H5 as (Hn1 & Hn2 & Hn3). apply NoDup_app in Hn3 as (_ & Hn3 & Hn4). apply NoDup_app. split_and!; [done| |done].
    intros x Hx Hx'. apply (Hn2 x Hx). by apply elem_of_app; right.
  - intros id Hid. apply H6. rewrite !elem_of_app in *. tauto.
Qed.

(** A task ends, with or without putting its reply in the queue. *)
Lemma genuine_end c c' id t extra :
  tasks c !! id = Some t -> (extra = [] \/ exists r, extra = [(id, r)] /\ t = Sending r) ->
  bounded_conn c ->
  peer c' = peer c -> accepted c' = accepted c -> tasks c' = delete id (tasks c) -> issued c' = issued c ->
  queue c' = queue c ++ extra -> answered c' = answered c -> genuine c -> genuine c'.
Proof.
  intros Ht Hx Hb E1 E2 E3 E4 E5 E6 [H1 H2 H3 H4 H5 H6].
  assert (forall id r, replies_to c id r -> replies_to c' id r) as Hm.
  { intros j r. apply replies_to_mono; [done|]. exists []. by rewrite E2, app_nil_r. }
  assert (id ∉ taken_ids c) as Hid by (intros Hin; apply H6 in Hin as [Hin _]; congruence).
  assert (taken_ids c' = taken_ids c ++ extra.*1) as Et by (unfold taken_ids; by rewrite E5, E6, fmap_app, app_assoc).
  split; rewrite ?E2, ?E3, ?E4, ?Et, ?E5, ?E6.
  - intros j record [_ Hj]%lookup_delete_Some. by apply H1.
  - intros j r [_ Hj]%lookup_delete_Some. by apply Hm, H2.
  - intros j r [Hj|Hj]%elem_of_app; [by apply Hm, H3|]. destruct Hx as [->|(r' & -> & ->)]; [by apply not_elem_of_nil in Hj|].
    apply list_elem_of_singleton in Hj as [= -> ->]. by apply Hm, H2.
  - eauto.
  - apply NoDup_app. destruct Hx as [->|(r & -> & _)].
    + split_and!; [done| |constructor]. intros x _ Hn. by apply not_elem_of_nil in Hn.
    + split_and!; [done| |apply NoDup_singleton]. intros x Hn Hn'. by apply list_elem_of_singleton in Hn' as ->.
  - intros j [Hj|Hj]%elem_of_app.
    + destruct (H6 j Hj) as [Hj1 Hj2]. split; [|done]. apply lookup_delete_None. by right.
    + destruct Hx as [->|(r & -> & _)]; [by apply not_elem_of_nil in Hj|]. apply list_elem_of_singleton in Hj as ->.
      split; [apply lookup_delete_None; by left|]. by eapply b_fresh.
Qed.

(** The pump takes a reply from the queue. *)
Lemma genuine_recv c c' id msg q :
  peer c' = peer c -> accepted c' = accepted c -> tasks c' = tasks c -> issued c' = issued c ->
  queue c = (id, Ok msg) :: q -> queue c' = q -> answered c' = answered c ++ [(id, msg)] -> genuine c -> genuine c'.
Proof.
  intros E1 E2 E3 E4 E5 E6 E7 [H1 H2 H3 H4 H5 H6].
  assert (forall id r, replies_to c id r -> replies_to c' id r) as Hm.
  { intros j r. apply replies_to_mono; [done|]. exists []. by rewrite E2, app_nil_r. }
  assert (taken_ids c' = taken_ids c) as Et.
  { unfold taken_ids. by rewrite E5, E6, E7, fmap_app, <- app_assoc. }
  split; rewrite ?E2, ?E3, ?E4, ?Et, ?E6, ?E7; eauto.
  - intros j r Hj. apply Hm, H3. rewrite E5. by apply elem_of_cons; right.
  - intros j m [Hj|Hj]%elem_of_app; [by apply Hm, H4|]. apply list_elem_of_singleton in Hj as [= -> ->].
    apply Hm, H3. rewrite E5. apply elem_of_cons. by left.
Qed.

(** A record has been read. *)
Lemma genuine_accept c record :
  issued c = length (accepted c) -> genuine c -> genuine (set_reader (WaitSlot record) (log_accepted record c)).
Proof.
  intros Hi [H1 H2 H3 H4 H5 H6]. set (c' := set_reader _ _).
  assert (forall id r, replies_to c id r -> replies_to c' id r) as Hm.
  { intros j r. apply replies_to_mono; [done|]. by exists [record]. }
  assert (issued c' = issued c) as Ei by (rewrite Hi; unfold issued; cbn; rewrite length_app; cbn; lia).
  split; rewrite ?Ei; [|by eauto..]. intros id r Hr%H1. cbn. rewrite lookup_app_l; [done|by eapply lookup_lt_Some].
Qed.

(** The task of the record is started. *)
Lemma genuine_spawn c record :
  bounded_conn c -> reader c = WaitSlot record -> genuine c ->
  genuine (set_reader (Reading [] false) (set_tasks (<[pred (length (accepted c)) := Running record]> (tasks c)) c)).
Proof.
  intros Hb Hr [H1 H2 H3 H4 H5 H6]. set (c' := set_reader _ _). destruct (b_waiting _ Hb record Hr) as [before Ha].
  assert (length (accepted c) = S (length before)) as Hl by (rewrite Ha, length_app; cbn; lia).
  assert (forall id r, replies_to c id r -> replies_to c' id r) as Hm.
  { intros j r. apply replies_to_mono; [done|]. exists []. by rewrite app_nil_r. }
  unfold issued in H6. rewrite Hr in H6. split; cbn [c' set_reader set_tasks tasks queue answered accepted]; eauto.
  - intros id r [[<- [= <-]]|[_ Hi]]%lookup_insert_Some; [|by eauto]. rewrite Hl, Ha. cbn [pred]. by apply list_lookup_middle.
  - intros id r [[_ [=]]|[_ Hi]]%lookup_insert_Some. by eauto.
  - intros id Hid. destruct (H6 id Hid) as [Hn Hlt]. unfold issued. cbn. split; [|lia]. apply lookup_insert_None. split; [done|lia].
Qed.

(** A task has its reply. *)
Lemma genuine_return c id record r :
  tasks c !! id = Some (Running record) -> may_answer overflow_checks listener c record (Some (Some r)) -> genuine c ->
  genuine (set_tasks (<[id := Sending r]> (tasks c)) c).
Proof.
  intros Ht Hm [H1 H2 H3 H4 H5 H6]. split; cbn [set_tasks tasks queue answered accepted]; eauto.
  - intros j x [[_ [=]]|[_ Hi]]%lookup_insert_Some. by eauto.
  - intros j x [[<- [= <-]]|[_ Hi]]%lookup_insert_Some; [|by eauto]. exists record. split; [by eauto|done].
  - intros j Hj. destruct (H6 j Hj) as [Hn Hlt]. split; [|done]. apply lookup_insert_None. split; [done|]. congruence.
Qed.

Lemma act_genuine a p c p' c' :
  (forall id out record, a = Return id out -> tasks c !! id = Some (Running record) -> may_answer overflow_checks listener c record out) ->
  bounded_conn c -> genuine c -> act alloc a p c = Some (p', c') -> genuine c'.
Proof.
  intros Hret Hb Hc Hs. unfold act, end_pump, end_reader, end_task in Hs.
  destruct a; step_cases Hs; try (by apply (genuine_same c)).
  all: try (apply (genuine_same c); [done..| |done]; unfold issued; proj; by repeat match goal with E : reader _ = _ |- _ => rewrite E end).
  all: try (apply (genuine_drop c _ (queue c)); [done..|by rewrite app_nil_r|done|done]).
  - eapply (genuine_recv c); [done..|eassumption|done|done|done].
  - apply genuine_accept; [|done]. unfold issued. by rewrite E.
  - by apply genuine_spawn.
  - eapply genuine_return; [done| |done]. by eapply Hret.
  - eapply (genuine_end c _ id _ []); [done|by left|done|done..|by rewrite app_nil_r|done|done].
  - eapply (genuine_end c _ id _ []); [done|by left|done|done..|by rewrite app_nil_r|done|done].
  - eapply (genuine_end c _ id _ []); [done|by left|done|done..|by rewrite app_nil_r|done|done].
  - eapply (genuine_end c _ id _ [(id, reply)]); [done|right; by exists reply|done..].
Qed.

(** ** What is handed to the socket *)

Definition to_write (c : conn) : list byte := match pump c with Writing rest => rest | _ => [] end.

(** Replies are framed one after the other. *)
Definition written_out (c : conn) : Prop :=
  disturbed c = false -> output c ++ to_write c = concat (map (fun x => frames [x.2]) (answered c)).

Lemma fragment_frames buf w : fragment buf = Some w -> w = frames [buf].
Proof.
  unfold fragment. destruct (Z.ltb_spec (zlen buf) (Z.shiftl 1 31)) as [Hl|]; [|done]. intros [= <-].
  change (Z.shiftl 1 31) with (2 ^ 31) in *. pose proof (zlen_nonneg buf). cbn [frames]. rewrite app_nil_r. unfold fragment_header.
  assert (Z.lor (zlen buf) LAST_BIT = zlen buf + 2 ^ 31) as -> by (apply lor_last; unfold LENGTH_MASK; lia). done.
Qed.

Lemma act_written a p c p' c' : written_out c -> act alloc a p c = Some (p', c') -> written_out c'.
Proof.
  intros Hc Hs. unfold act, end_pump, end_reader, end_task in Hs. unfold written_out, to_write in *.
  destruct a; step_cases Hs; proj; try done; rewrite ?E in Hc; try done; intros Hd.
  - rewrite <- (Hc Hd), <- app_assoc, <- E1, take_drop. done.
  - rewrite <- (Hc Hd), <- app_assoc, <- E1, take_drop. done.
  - specialize (Hc Hd). rewrite map_app, concat_app, <- Hc. cbn [map concat snd]. by rewrite !app_nil_r, (fragment_frames _ _ E3).
Qed.

Record served (c : conn) : Prop := { v_bounded : bounded_conn c; v_stream : streamed c; v_genuine : genuine c; v_written : written_out c }.

Lemma wsteps_served ls w i c :
  wsteps alloc overflow_checks listener started ls w -> conns w !! i = Some c -> served c.
Proof.
  intros Hs. remember started as w0 eqn:Ew. revert i c. induction Hs as [|w ls w1 l w2 Hs IH Hl Hm]; intros i c Hc; [by subst|].
  specialize (IH Ew). destruct l as [|who| |j a]; cbn [move] in Hm; repeat case_match; simplify_eq; cbn [conns] in Hc; eauto.
  - apply lookup_app_Some in Hc as [Hc|[_ Hc]]; [by eauto|]. apply list_lookup_singleton_Some in Hc as [_ <-].
    split; [apply opened_bounded|apply opened_streamed|apply opened_genuine|done].
  - apply list_lookup_insert_Some in Hc as [(<- & <- & _)|[_ Hc]]; [|by eauto].
    destruct (IH j _ ltac:(done)) as [Hv1 Hv2 Hv3 Hv4].
    split; [by eapply act_bounded|by eapply act_streamed| |by eapply act_written]. eapply act_genuine; [|done|done|done].
    intros id out record -> Ht. destruct Hl as (x & y & Hx & Hy & Hz). by simplify_eq.
Qed.

(** C29: what a connection of the demo server delivers. In every interleaving, the
    records read are those the bytes sent by the peer are framed into, in order,
    each within the limits of record marking; the replies sent belong to different
    records among them, each is one that serving its record may produce, and, unless
    a write to the socket has failed, the bytes the socket accepted together with
    the rest of the reply being written are these replies, each framed as one
    fragment. After a failed write nothing is claimed: the pump logs the error and
    goes on with the next reply. *)
Theorem demo_connection_answers ls w i c :
  wsteps alloc overflow_checks listener started ls w -> conns w !! i = Some c ->
  (exists css rest, accepted c = map (@concat byte) css /\ Forall (fragments_ok RPC_RECORD_LIMITS) css /\
    arrived c = concat (map frames css) ++ rest) /\
  base.NoDup (answered c).*1 /\
  (forall id msg, (id, msg) ∈ answered c -> exists record, accepted c !! id = Some record /\
    may_answer overflow_checks listener c record (Some (Some (Ok msg)))) /\
  (disturbed c = false -> output c ++ to_write c = concat (map (fun x => frames [x.2]) (answered c))).
Proof.
  intros Hs Hc. destruct (wsteps_served _ _ _ _ Hs Hc) as [_ [(css & rest & Ha & Hf & Hr & _) _ (rest' & Ht & _)] Hg Hw].
  split_and!; [|by destruct (NoDup_app (answered c).*1 (queue c).*1) as [Hn _]; destruct (Hn (g_distinct _ Hg))|apply (g_answered _ Hg)|exact Hw].
  exists css, (rest ++ rest'). split_and!; [done|done|]. by rewrite Ht, Hr, <- app_assoc.
Qed.
End Spec.
