(* ===== verification/LegacyStarvation.v ===== *)
(** * A socket that takes no more replies

    The bytes of a record stay reserved until its reply is in the queue of its
    connection, and the pump that empties the queue waits for the socket without a
    time limit. Once the socket of one connection takes no more bytes, because its
    peer does not read and the buffers of the operating system are full, replies
    that pile up behind it can hold all reservations; as long as that socket
    neither takes bytes nor fails, no record is read on any connection. *)
From S2P Require Import Prelude RpcRecord Xdr LegacyMessage LegacyNfs Free LegacyVfs LegacyHandlers LegacyReplies LegacyBehaviour LegacyRpc LegacyTcp LegacyListener LegacyListenerSpec.
From stdpp Require Import list gmap sets strings.
#[local] Open Scope Z_scope.
#[local] Opaque READ_BUFFER PIPE_CAPACITY charge.

Section Starvation.
Context (alloc : Z -> option Z) `{Provided} (overflow_checks : bool) {Socket : Type} (listener : @NFSTcpListener Socket).

(** No reservation, of the reader or of a task. *)
Definition idle_conn (c : conn) : Prop := reading c = 0 /\ tasks c = ∅.

(** Its pump waits for the socket, its queue is full and its tasks wait for the
    queue. *)
Definition clogged (c : conn) : Prop :=
  reading c = 0 /\ (exists rest, pump c = Writing rest) /\ zlen (queue c) = MAX_QUEUED_REPLIES /\
  forall id t, tasks c !! id = Some t -> exists r, t = Sending r.

(** Connection [i] holds all reservations. *)
Record starved (i : nat) (w : world) : Prop := {
  z_bytes : bytes (free w) = 0;
  z_holder : exists c, conns w !! i = Some c /\ clogged c;
  z_others j c : conns w !! j = Some c -> j <> i -> idle_conn c
}.

(** The socket of connection [i] takes bytes, or a write to it fails. *)
Definition socket_moves (i : nat) (l : step_label) : Prop :=
  match l with On j (Taken _) | On j WriteFails => j = i | _ => False end.

Lemma idle_act a p c p' c' :
  bytes p < charge -> idle_conn c -> act alloc a p c = Some (p', c') ->
  bytes p' = bytes p /\ idle_conn c' /\ accepted c' = accepted c.
Proof.
  intros Hp [Hr Ht] Hs. unfold idle_conn, reading in *. unfold act, end_pump, end_reader, end_task in Hs. rewrite Ht in *.
  destruct a; step_cases Hs; proj; repeat match goal with E : reader _ = _ |- _ => rewrite E in * end; zbool; try done; try lia.
Qed.

Lemma clogged_act a p c p' c' :
  (forall n, a <> Taken n) -> a <> WriteFails -> bytes p < charge -> clogged c -> act alloc a p c = Some (p', c') ->
  bytes p' = bytes p /\ clogged c' /\ accepted c' = accepted c.
Proof.
  intros Ha1 Ha2 Hp (Hr & [rest Hw] & Hq & Ht) Hs. unfold clogged, reading in *. unfold act, end_pump, end_reader, end_task, pump_done in Hs.
  rewrite Hw in Hs. destruct a; try (by destruct (Ha1 n)); try done; step_cases Hs; proj;
    repeat match goal with E : reader _ = _ |- _ => rewrite E in * end; zbool; try done; try lia.
  all: try (by eauto 10).
  all: try (by destruct (Ht _ _ ltac:(eassumption))).
Qed.

Lemma starved_step i l w w' :
  starved i w -> ~ socket_moves i l -> move alloc l w = Some w' ->
  starved i w' /\ forall j c', conns w' !! j = Some c' -> match conns w !! j with Some c => accepted c' = accepted c | None => accepted c' = [] end.
Proof.
  intros [Hb (c & Hc & Hk) Ho] Hl Hm. assert (bytes (free w) < charge) as Hlt by (by rewrite Hb).
  destruct l as [|who| |j a]; cbn [move] in Hm.
  - repeat case_match; simplify_eq. split; [split; cbn; eauto|]. intros j x Hx. cbn in Hx. by rewrite Hx.
  - repeat case_match; simplify_eq. split; [split; cbn [free conns]; [done| |]|].
    + exists c. split; [|done]. apply lookup_app_l_Some. done.
    + intros j x Hx Hj. apply lookup_app_Some in Hx as [?|[_ Hx]]; [by eauto|]. by apply list_lookup_singleton_Some in Hx as [_ <-].
    + intros j x Hx. cbn [conns] in Hx. apply lookup_app_Some in Hx as [Hx|[Hge Hx]]; [by rewrite Hx|].
      apply list_lookup_singleton_Some in Hx as [_ <-]. by rewrite lookup_ge_None_2.
  - repeat case_match; simplify_eq. split; [split; cbn; eauto|]. intros j x Hx. cbn in Hx. by rewrite Hx.
  - destruct (conns w !! j) as [x|] eqn:Ej; [|done]. destruct (act alloc a (free w) x) as [[p' x']|] eqn:Ea; [|done]. injection Hm as <-.
    assert (bytes p' = bytes (free w) /\ (if decide (j = i) then clogged x' else idle_conn x') /\ accepted x' = accepted x) as (Hp & Hx & Hacc).
    { destruct (decide (j = i)) as [->|Hne].
      - simplify_eq. eapply (clogged_act a); [intros n ->; by apply Hl|intros ->; by apply Hl|done|done|exact Ea].
      - by eapply idle_act; [|eapply Ho|exact Ea]. }
    split; [split; cbn [free conns]|].
    + lia.
    + destruct (decide (j = i)) as [->|Hne]; [exists x'; split; [|done]; by apply list_lookup_insert_eq; eapply lookup_lt_Some|].
      exists c. by rewrite list_lookup_insert_ne.
    + intros k y Hk' Hne. apply list_lookup_insert_Some in Hk' as [(<- & <- & _)|[_ Hk']]; [|by eauto].
      by rewrite decide_False in Hx.
    + intros k y Hk'. cbn [conns] in Hk'. apply list_lookup_insert_Some in Hk' as [(<- & <- & _)|[_ Hk']]; [by rewrite Ej|by rewrite Hk'].
Qed.

Lemma wsteps_length w ls w' : wsteps alloc overflow_checks listener w ls w' -> (length (conns w) <= length (conns w'))%nat.
Proof.
  induction 1 as [|w ls w1 l w2 Hs IH Hl Hm]; [done|]. etrans; [exact IH|].
  destruct l; cbn [move] in Hm; repeat case_match; simplify_eq; cbn [conns]; rewrite ?length_app, ?length_insert; lia.
Qed.

Lemma starved_steps i w ls w' :
  starved i w -> Forall (fun l => ~ socket_moves i l) ls -> wsteps alloc overflow_checks listener w ls w' ->
  starved i w' /\ forall j c', conns w' !! j = Some c' -> match conns w !! j with Some c => accepted c' = accepted c | None => accepted c' = [] end.
Proof.
  intros Hz Hf Hs. induction Hs as [w|w ls w1 l w2 Hs IH Hl Hm].
  - split; [done|]. intros j c Hc. by rewrite Hc.
  - apply Forall_app in Hf as [Hf Hf1]. apply Forall_cons in Hf1 as [Hf1 _]. destruct (IH Hz Hf) as [Hz1 H1].
    destruct (starved_step _ _ _ _ Hz1 Hf1 Hm) as [Hz2 H2]. split; [done|]. intros j c' Hc'. specialize (H2 j c' Hc').
    destruct (conns w1 !! j) as [c1|] eqn:E1.
    + specialize (H1 j c1 E1). destruct (conns w !! j); congruence.
    + destruct (conns w !! j) as [c|] eqn:E; [|done]. apply lookup_lt_Some in E. apply lookup_ge_None in E1.
      pose proof (wsteps_length _ _ _ Hs). lia.
Qed.

(** ** Runs that are computed *)

Fixpoint run (ls : list step_label) (w : world) : option world :=
  match ls with
  | [] => Some w
  | l :: ls' => match move alloc l w with Some w' => run ls' w' | None => None end
  end.

(** Whether every task that returns serves [record] and returns [msg]. *)
Fixpoint answers_with (record msg : list byte) (ls : list step_label) (w : world) : bool :=
  match ls with
  | [] => true
  | l :: ls' =>
      match l with
      | On i (Return id out) =>
          match conns w !! i with
          | Some c =>
              match tasks c !! id, out with
              | Some (Running r), Some (Some (Ok m)) => bool_decide (r = record) && bool_decide (m = msg)
              | _, _ => false
              end
          | None => false
          end
      | _ => true
      end && match move alloc l w with Some w' => answers_with record msg ls' w' | None => false end
  end.

Lemma run_wsteps record msg ls w0 ls0 w :
  (forall c, may_answer overflow_checks listener c record (Some (Some (Ok msg)))) ->
  wsteps alloc overflow_checks listener w0 ls0 w -> answers_with record msg ls w = true ->
  exists w', run ls w = Some w' /\ wsteps alloc overflow_checks listener w0 (ls0 ++ ls) w'.
Proof.
  intros Hm. revert ls0 w. induction ls as [|l ls IH]; intros ls0 w Hs Ha; [exists w; by rewrite app_nil_r|].
  cbn [run answers_with] in *. apply andb_prop in Ha as [Hl Ha]. destruct (move alloc l w) as [w1|] eqn:E1; [|done].
  replace (ls0 ++ l :: ls) with ((ls0 ++ [l]) ++ ls) by (by rewrite <- app_assoc). apply IH; [|done]. econstructor; [done| |done].
  destruct l as [|who| |i []]; try done. cbn [allowed]. repeat case_match; try done. apply andb_prop in Hl as [->%bool_decide_eq_true ->%bool_decide_eq_true].
  eauto.
Qed.
End Starvation.

(** ** The run *)

Section Run.
Context `{Provided} (overflow_checks : bool) {Socket : Type} (listener : @NFSTcpListener Socket).

(** A call of an RPC version other than 2, and what it is answered with. *)
Definition odd_call : list byte := concat (map (be_bytes 4) [7; 0; 3; 100003; 3; 0; 0; 0; 0; 0]).
Definition odd_reply : list byte := default [] (serialize (rpc_vers_mismatch 7)).

Lemma odd_answered c : may_answer overflow_checks listener c odd_call (Some (Some (Ok odd_reply))).
Proof.
  unfold may_answer, serve_record, handle_rpc, get, mbind, handler_bind. cbv beta. cbn [fst snd].
  assert (exists b rest, deserialize rpc_msg_default odd_call = Ok (mkMsg 7 (CALL b), rest) /\ flavor (cred b) = AUTH_NULL /\ rpcvers b = 3) as (b & rest & -> & Hf & Hv).
  { eexists _, _. vm_compute. by split_and!. }
  cbn [mbind handler_bind free_bind free_bind_ mret free_ret handler_ret msg_body LegacyMessage.xid]. rewrite Hf, Hv. 
  cbn. constructor.
Qed.

(** The listener accepts a connection, whose peer sends [n] calls at once. *)
Definition arrival (n : nat) : list step_label :=
  [TakePermit; Accept "10.0.0.1:700"] ++
  map (On 0) [Arrive (concat (replicate n (frames [odd_call]))); TryRead; Forward; Forward].

(** The reader takes the next call, which is answered. *)
Definition serving (k : nat) : list action :=
  replicate 4 Fetch ++ [Reserve] ++ replicate 40 Fetch ++ [Complete; Spawn; Return k (Some (Some (Ok odd_reply)))].

(** The first reply is taken by the pump, the next 64 fill the queue, and 32 are
    left with their tasks. *)
Definition flood : list step_label :=
  arrival 97 ++ map (On 0) (serving 0 ++ [Send 0; Recv] ++
    concat (map (fun k => serving k ++ if (k <=? 64)%nat then [Send k] else []) (seq 1 96))).

Definition flooded : option world := run Some flood started.

Lemma flood_answers : answers_with Some odd_call odd_reply flood started = true.
Proof. vm_compute. reflexivity. Qed.

(** What is checked of the state at the end of the run. *)
Definition starved_now (w : world) : bool :=
  (bytes (free w) =? 0) &&
  match conns w with
  | [c] =>
      match pump c, reader c with
      | Writing _, Reading _ false =>
          (zlen (queue c) =? MAX_QUEUED_REPLIES) &&
          forallb (fun x => match x.2 with Sending _ => true | Running _ => false end) (map_to_list (tasks c))
      | _, _ => false
      end
  | _ => false
  end.

Lemma starved_now_sound w : starved_now w = true -> starved 0 w.
Proof.
  unfold starved_now. intros [Hb Hc]%andb_prop. apply Z.eqb_eq in Hb. destruct (conns w) as [|c [|? ?]] eqn:Ec; [done| |done].
  destruct (pump c) as [|?|rest|?] eqn:Ep; try done. destruct (reader c) as [f []| |] eqn:Er; try done.
  apply andb_prop in Hc as [Hq Ht]. apply Z.eqb_eq in Hq. split.
  - done.
  - exists c. rewrite Ec. split; [done|]. split_and!; [unfold reading; by rewrite Er|by exists rest|done|].
    intros id t Hi. rewrite forallb_forall in Ht. specialize (Ht (id, t)). rewrite <- list_elem_of_In, elem_of_map_to_list in Ht.
    specialize (Ht Hi). destruct t as [?|r]; [done|by exists r].
  - rewrite Ec. intros [|j] x Hx Hj; [done|]. by destruct j.
Qed.

Lemma flooded_starved : match flooded with Some w => starved_now w | None => false end = true.
Proof. vm_compute. reflexivity. Qed.
End Run.

(** Such a state is reachable: with a socket that takes nothing, 97 calls of 40
    bytes suffice, and then no further record is read on any connection, existing
    or new, for as long as that socket neither takes bytes nor fails. With a socket
    that takes some bytes first it takes accordingly more calls. *)
Lemma full_socket_starves_listener `{Provided} (overflow_checks : bool) {Socket} (listener : @NFSTcpListener Socket) :
  exists w, wsteps Some overflow_checks listener started flood w /\
    forall ls' w', Forall (fun l => ~ socket_moves 0 l) ls' -> wsteps Some overflow_checks listener w ls' w' ->
      bytes (free w') = 0 /\
      forall j c', conns w' !! j = Some c' -> match conns w !! j with Some c => accepted c' = accepted c | None => accepted c' = [] end.
Proof.
  destruct (run_wsteps Some overflow_checks listener odd_call odd_reply flood started [] started) as (w & Hr & Hs);
    [apply odd_answered|constructor|apply flood_answers|].
  pose proof flooded_starved as Hf. unfold flooded in Hf. rewrite Hr in Hf.
  exists w. split; [done|]. intros ls' w' Hl Hs'.
  destruct (starved_steps Some overflow_checks listener 0 w ls' w' (starved_now_sound _ Hf) Hl Hs') as [[Hb _ _] Hacc].
  by split.
Qed.

(** ** The bounds and the deliveries of this run *)

Definition sample_listener : @NFSTcpListener unit := mkListener tt 2049 false [slash].
Abbreviation sample_steps := (@wsteps Some (provided_default 77) false unit sample_listener).

Lemma flood_run : exists w, sample_steps started flood w /\ starved 0 w.
Proof.
  destruct (@run_wsteps Some (provided_default 77) false unit sample_listener odd_call odd_reply flood started [] started) as (w & Hr & Hs);
    [apply odd_answered|constructor|apply flood_answers|].
  exists w. split; [exact Hs|]. apply starved_now_sound. pose proof flooded_starved as Hf. unfold flooded in Hf. by rewrite Hr in Hf.
Qed.

Lemma demo_listener_bounds_witness :
  exists w, sample_steps started flood w /\ sum_over running_tasks (conns w) <= 32 /\ slots (free w) + pending_permit w + sum_over alive (conns w) = 1024.
Proof.
  destruct flood_run as (w & Hs & _). exists w. split; [exact Hs|].
  destruct (@demo_listener_bounds Some (provided_default 77) false unit sample_listener flood w Hs) as (H1 & _ & _ & _ & H2 & _). by split.
Defined.

Lemma demo_connection_answers_witness :
  exists w c, sample_steps started flood w /\ conns w !! 0%nat = Some c /\ base.NoDup (answered c).*1.
Proof.
  destruct flood_run as (w & Hs & [_ (c & Hc & _) _]). exists w, c. split_and!; [exact Hs|exact Hc|].
  destruct (@demo_connection_answers Some (provided_default 77) false unit sample_listener) with (3 := Hc) (2 := Hs) as (_ & Hn & _); [|exact Hn].
  intros n _. by exists n.
Defined.
