(* ===== verification/DemoFs.v ===== *)
(** * [examples/demo.rs]: the in-memory file system of the demo

    A backend of the server: a vector of entries behind a mutex, each a file with
    its bytes or a directory with the ids of its children. An operation is a
    function of the state; [None] is no answer: a panic, which happens while the
    mutex is held and poisons it for every later operation, or the end of the
    process, when memory for a file cannot be had. The clock and the allocator are
    parameters: the [n]-th reading of the clock, and whether at that moment a file
    can grow to a given size. Other allocations are taken to succeed. *)
From S2P Require Import Prelude VfsTypes Vfs.
From stdpp Require Import list sets.
#[local] Open Scope Z_scope.

Definition ROOT_ID : Z := 1.
Definition GENERATION : Z := 1.
(** [*b"DEMODIR1"] *)
Definition READDIR_VERIFIER : list byte := [Byte.x44; Byte.x45; Byte.x4d; Byte.x4f; Byte.x44; Byte.x49; Byte.x52; Byte.x31].

Inductive Contents : Type := File (bytes : list byte) | Directory (children : list Z).

Record Entry : Type := mkEntry {
  e_id : Z;
  e_attributes : FileAttributes;
  e_name : list byte;
  e_parent : Z;
  e_contents : Contents;
  exclusive_verifier : option (list byte)
}.

(** What the operations get from their surroundings. *)
Record host : Type := mkHost { clock : nat -> NfsTime; grants : nat -> Z -> bool }.

Record state : Type := mkState { entries : list Entry; poisoned : bool; ticks : nat; aborted : bool }.

Section DemoFs.
Context (h : host).

Definition now (s : state) : NfsTime * state := (clock h (ticks s), mkState (entries s) (poisoned s) (S (ticks s)) (aborted s)).

(** [make_file] and [make_directory], given the time they read. *)
Definition new_attributes (kind : FileType.t) (mode links size id : Z) (time : NfsTime) : FileAttributes :=
  mkFileAttributes kind mode links 507 507 size size None 0 id time time time.
Definition make_file (name : list byte) (id parent : Z) (contents : list byte) (time : NfsTime) : Entry :=
  mkEntry id (new_attributes FileType.Regular 493 1 (zlen contents) id time) name parent (File contents) None.
Definition make_directory (name : list byte) (id parent : Z) (children : list Z) (time : NfsTime) : Entry :=
  mkEntry id (new_attributes FileType.Directory 511 2 0 id time) name parent (Directory children) None.

Definition text (l : list Z) : list byte := map byte_of l.
(** [DemoFs::default] *)
Definition default_fs : state :=
  mkState
    [make_file [] 0 0 [] (clock h 0);
     make_directory (text [0x2f]) ROOT_ID ROOT_ID [2; 3; 4] (clock h 1);
     make_file (text [0x61; 0x2e; 0x74; 0x78; 0x74]) 2 ROOT_ID
       (text [0x68; 0x65; 0x6c; 0x6c; 0x6f; 0x20; 0x77; 0x6f; 0x72; 0x6c; 0x64; 0x0a]) (clock h 2);
     make_file (text [0x62; 0x2e; 0x74; 0x78; 0x74]) 3 ROOT_ID
       (text [0x47; 0x72; 0x65; 0x65; 0x74; 0x69; 0x6e; 0x67; 0x73; 0x20; 0x74; 0x6f; 0x20; 0x78; 0x65; 0x74; 0x20;
              0x64; 0x61; 0x74; 0x61; 0x0a]) (clock h 3);
     make_directory (text [0x61; 0x6e; 0x6f; 0x74; 0x68; 0x65; 0x72; 0x5f; 0x64; 0x69; 0x72]) 4 ROOT_ID [5] (clock h 4);
     make_file (text [0x74; 0x68; 0x69; 0x73; 0x77; 0x6f; 0x72; 0x6b; 0x73; 0x2e; 0x74; 0x78; 0x74]) 5 4
       (text [0x69; 0x20; 0x68; 0x6f; 0x70; 0x65; 0x0a]) (clock h 5)]
    false 6 false.

Definition key (id : Z) : ObjectKey := mkObjectKey id GENERATION.
Definition id (o : ObjectKey) : result NfsError.t Z :=
  if generation o =? GENERATION then Ok (file_id o) else Err NfsError.Stale.
Definition wcc (a : FileAttributes) : WccAttributes := mkWccAttributes (fa_size a) (modify_time a) (change_time a).
Definition created (e : Entry) : CreatedObject := mkCreatedObject (key (e_id e)) (Some (e_attributes e)).

(** [entries.get(i as usize)] *)
Definition entry (s : state) (i : Z) : option Entry := entries s !! Z.to_nat i.
Definition set_entry (i : Z) (e : Entry) (s : state) : state := mkState (<[Z.to_nat i := e]> (entries s)) (poisoned s) (ticks s) (aborted s).

(** [Vec::resize(n, 0)]: a length above [isize::MAX] panics, and an allocation that
    fails ends the process. *)
Inductive stop : Type := Panic | Abort.
Definition resize (tick : nat) (n : Z) (bytes : list byte) : result stop (list byte) :=
  if n <=? zlen bytes then Ok (take (Z.to_nat n) bytes)
  else if isize_max <? n then Err Panic
  else if grants h tick n then Ok (bytes ++ replicate (Z.to_nat n - length bytes) Byte.x00)
  else Err Abort.
Definition stopped (st : stop) (s : state) : state :=
  match st with Panic => s | Abort => mkState (entries s) (poisoned s) (ticks s) true end.

(** ** The operations *)

Definition op (A : Type) : Type := state -> option (result NfsError.t A) * state.

(** [self.entries.lock().unwrap()]; a panic inside poisons the mutex. *)
Definition locked {A} (f : op A) : op A := fun s =>
  if poisoned s then (None, s)
  else match f s with
  | (None, s') => (None, mkState (entries s') (negb (aborted s')) (ticks s') (aborted s'))
  | r => r
  end.

Definition with_time (t : FileAttributes -> NfsTime -> FileAttributes) (v : NfsTime) (e : Entry) : Entry :=
  mkEntry (e_id e) (t (e_attributes e) v) (e_name e) (e_parent e) (e_contents e) (exclusive_verifier e).
Definition with_attributes (a : FileAttributes) (e : Entry) : Entry :=
  mkEntry (e_id e) a (e_name e) (e_parent e) (e_contents e) (exclusive_verifier e).
Definition with_contents (c : Contents) (e : Entry) : Entry :=
  mkEntry (e_id e) (e_attributes e) (e_name e) (e_parent e) c (exclusive_verifier e).
Definition set_mode (m : Z) (a : FileAttributes) : FileAttributes :=
  mkFileAttributes (file_type a) m (links a) (fa_uid a) (fa_gid a) (fa_size a) (used a) (device a) (fs_id a) (fa_file_id a) (access_time a) (modify_time a) (change_time a).
Definition set_uid (u : Z) (a : FileAttributes) : FileAttributes :=
  mkFileAttributes (file_type a) (fa_mode a) (links a) u (fa_gid a) (fa_size a) (used a) (device a) (fs_id a) (fa_file_id a) (access_time a) (modify_time a) (change_time a).
Definition set_gid (g : Z) (a : FileAttributes) : FileAttributes :=
  mkFileAttributes (file_type a) (fa_mode a) (links a) (fa_uid a) g (fa_size a) (used a) (device a) (fs_id a) (fa_file_id a) (access_time a) (modify_time a) (change_time a).
Definition set_size (n : Z) (a : FileAttributes) : FileAttributes :=
  mkFileAttributes (file_type a) (fa_mode a) (links a) (fa_uid a) (fa_gid a) n n (device a) (fs_id a) (fa_file_id a) (access_time a) (modify_time a) (change_time a).
Definition set_access (t : NfsTime) (a : FileAttributes) : FileAttributes :=
  mkFileAttributes (file_type a) (fa_mode a) (links a) (fa_uid a) (fa_gid a) (fa_size a) (used a) (device a) (fs_id a) (fa_file_id a) t (modify_time a) (change_time a).
Definition set_modify (t : NfsTime) (a : FileAttributes) : FileAttributes :=
  mkFileAttributes (file_type a) (fa_mode a) (links a) (fa_uid a) (fa_gid a) (fa_size a) (used a) (device a) (fs_id a) (fa_file_id a) (access_time a) t (change_time a).
Definition set_change (t : NfsTime) (a : FileAttributes) : FileAttributes :=
  mkFileAttributes (file_type a) (fa_mode a) (links a) (fa_uid a) (fa_gid a) (fa_size a) (used a) (device a) (fs_id a) (fa_file_id a) (access_time a) (modify_time a) t.

(** The time a [SetTime] stands for, with the number of clock readings. *)
Definition set_time (t : option SetTime) (old : NfsTime) (tick : nat) : NfsTime * nat :=
  match t with
  | Some ServerTime => (clock h tick, S tick)
  | Some (ClientTime v) => (v, tick)
  | None => (old, tick)
  end.

(** [apply_attributes]: the entry as far as it was changed, also when the result
    is an error. *)
Definition apply_attributes (e : Entry) (a : SetAttributes) (tick : nat) : result stop (result NfsError.t unit) * Entry * nat :=
  let attrs := e_attributes e in
  let attrs := match sa_mode a with Some m => set_mode m attrs | None => attrs end in
  let attrs := match sa_uid a with Some u => set_uid u attrs | None => attrs end in
  let attrs := match sa_gid a with Some g => set_gid g attrs | None => attrs end in
  let e := with_attributes attrs e in
  let sized :=
    match sa_size a with
    | None => inl e
    | Some size =>
        match e_contents e with
        | Directory _ => inr (Ok (Err NfsError.Invalid))
        | File bytes =>
            match resize tick size bytes with
            | Err st => inr (Err st)
            | Ok bytes => inl (with_attributes (set_size size (e_attributes e)) (with_contents (File bytes) e))
            end
        end
    end in
  match sized with
  | inr r => (r, e, tick)
  | inl e =>
      let '(t, tick) := set_time (sa_access_time a) (access_time (e_attributes e)) tick in
      let e := with_attributes (set_access t (e_attributes e)) e in
      let '(t, tick) := set_time (sa_modify_time a) (modify_time (e_attributes e)) tick in
      let e := with_attributes (set_modify t (e_attributes e)) e in
      (Ok (Ok tt), with_attributes (set_change (clock h tick) (e_attributes e)) e, S tick)
  end.

Definition getattr (o : ObjectKey) : op FileAttributes := locked (fun s =>
  (Some (i ← id o; ok_or (e_attributes <$> entry s i) NfsError.Stale), s)).

(** The children of a directory that exist, in order, and the one of a name. *)
Definition child_entries (s : state) (children : list Z) : list Entry := omap (entry s) children.
Definition find_child (s : state) (children : list Z) (name : list byte) : option Entry :=
  List.find (fun e => bool_decide (e_name e = name)) (child_entries s children).

Definition dot_name : list byte := [Byte.x2e].
Definition dotdot_name : list byte := [Byte.x2e; Byte.x2e].

Definition lookup (parent : ObjectKey) (name : NfsName.t) : op CreatedObject := fun s =>
  match id parent with
  | Err e => (Some (Err e), s)
  | Ok parent => locked (fun s =>
      (Some (directory ← ok_or (entry s parent) NfsError.Stale;
       match e_contents directory with
       | File _ => Err NfsError.NotDirectory
       | Directory children =>
           if bool_decide (NfsName.as_bytes name = dot_name) then Ok (created directory)
           else if bool_decide (NfsName.as_bytes name = dotdot_name)
           then ok_or (created <$> entry s (e_parent directory)) NfsError.Stale
           else ok_or (created <$> find_child s children (NfsName.as_bytes name)) NfsError.NotFound
       end), s)) s
  end.

Definition access (o : ObjectKey) (requested : Z) : op Z := fun s => (Some (Ok requested), s).

Definition setattr (o : ObjectKey) (attributes : SetAttributes) (guard : option NfsTime) : op (MutationResult unit) :=
  locked (fun s =>
    match (i ← id o; e ← ok_or (entry s i) NfsError.Stale; Ok (i, e)) with
    | Err err => (Some (Err err), s)
    | Ok (i, e) =>
        if match guard with Some g => negb (bool_decide (g = change_time (e_attributes e))) | None => false end
        then (Some (Err NfsError.NotSynchronized), s)
        else
          let before := Some (wcc (e_attributes e)) in
          let '(r, e', tick) := apply_attributes e attributes (ticks s) in
          let s := set_entry i e' (mkState (entries s) (poisoned s) tick (aborted s)) in
          match r with
          | Err st => (None, stopped st s)
          | Ok (Err err) => (Some (Err err), s)
          | Ok (Ok _) => (Some (Ok (mkMutationResult tt before (Some (e_attributes e')))), s)
          end
    end).

Definition read (o : ObjectKey) (offset count : Z) : op ReadBytesResult := locked (fun s =>
  (Some (i ← id o;
   e ← ok_or (entry s i) NfsError.Stale;
   match e_contents e with
   | Directory _ => Err NfsError.IsDirectory
   | File bytes =>
       let start := Z.min offset (zlen bytes) in
       let finish := Z.min (saturating_add start count) (zlen bytes) in
       Ok (mkReadBytesResult (slice start finish bytes) (finish =? zlen bytes) (Some (e_attributes e)))
   end), s)).

(** [bytes[start..end].copy_from_slice(data)] *)
Definition overwrite (start : Z) (data bytes : list byte) : list byte :=
  take (Z.to_nat start) bytes ++ data ++ drop (Z.to_nat (start + zlen data)) bytes.

Definition write (o : ObjectKey) (offset : Z) (data : list byte) (requested : WriteStability.t)
    : op (MutationResult BackendWriteResult) := locked (fun s =>
  match (i ← id o; e ← ok_or (entry s i) NfsError.Stale; Ok (i, e)) with
  | Err err => (Some (Err err), s)
  | Ok (i, e) =>
      let before := Some (wcc (e_attributes e)) in
      match e_contents e with
      | Directory _ => (Some (Err NfsError.IsDirectory), s)
      | File bytes =>
          let start := offset in
          match checked_add start (zlen data) with
          | None => (Some (Err NfsError.FileTooLarge), s)
          | Some finish =>
              match (if zlen bytes <? finish then resize (ticks s) finish bytes else Ok bytes) with
              | Err st => (None, stopped st s)
              | Ok bytes =>
                  let bytes := overwrite start data bytes in
                  let '(t, s) := now s in
                  let attrs := set_change t (set_modify t (set_size (zlen bytes) (e_attributes e))) in
                  let e' := with_attributes attrs (with_contents (File bytes) e) in
                  (Some (Ok (mkMutationResult (mkBackendWriteResult (as_u32 (zlen data)) requested) before (Some attrs))), set_entry i e' s)
              end
          end
      end
  end).

Definition with_verifier (v : option (list byte)) (e : Entry) : Entry :=
  mkEntry (e_id e) (e_attributes e) (e_name e) (e_parent e) (e_contents e) v.

Definition create (parent : ObjectKey) (name : NfsName.t) (attributes : SetAttributes) (mode : CreateMode)
    : op (MutationResult CreatedObject) := fun s =>
  match id parent with
  | Err e => (Some (Err e), s)
  | Ok parent => locked (fun s =>
      match entry s parent with
      | None => (Some (Err NfsError.Stale), s)
      | Some directory =>
          match e_contents directory with
          | File _ => (Some (Err NfsError.NotDirectory), s)
          | Directory children =>
              match find_child s children (NfsName.as_bytes name) with
              | Some existing =>
                  let replayed_exclusive :=
                    match mode with Exclusive verifier => bool_decide (exclusive_verifier existing = Some verifier) | _ => false end in
                  if bool_decide (mode = Unchecked) || replayed_exclusive
                  then (Some (Ok (mkMutationResult (created existing) (Some (wcc (e_attributes directory))) (Some (e_attributes directory)))), s)
                  else (Some (Err NfsError.Exists), s)
              | None =>
                  let before := Some (wcc (e_attributes directory)) in
                  let id := zlen (entries s) in
                  let '(t, s) := now s in
                  let new := make_file (NfsName.as_bytes name) id parent [] t in
                  let new := match mode with Exclusive verifier => with_verifier (Some verifier) new | _ => new end in
                  let '(r, new, tick) := apply_attributes new attributes (ticks s) in
                  let s := mkState (entries s) (poisoned s) tick (aborted s) in
                  match r with
                  | Err st => (None, stopped st s)
                  | Ok (Err e) => (Some (Err e), s)
                  | Ok (Ok _) =>
                      let s := mkState (entries s ++ [new]) (poisoned s) (ticks s) (aborted s) in
                      let '(t, s) := now s in
                      let directory := with_attributes (set_change t (e_attributes directory)) (with_contents (Directory (children ++ [id])) directory) in
                      (Some (Ok (mkMutationResult (created new) before (Some (e_attributes directory)))), set_entry parent directory s)
                  end
              end
          end
      end) s
  end.

(** [children.iter().enumerate().skip(start).take(n).filter_map(..).map(..)]; an
    invalid name panics. *)
Definition page_entry (e : Entry) (index : nat) : option DirectoryEntry :=
  match NfsName.new (e_name e) with
  | Ok name => Some (mkDirectoryEntry (key (e_id e)) (e_id e) name (Z.of_nat index + 1) (Some (e_attributes e)))
  | Err _ => None
  end.
Definition page (s : state) (children : list Z) (start hint : Z) : option (list DirectoryEntry) :=
  mapM (fun '(e, index) => page_entry e index)
    (omap (fun '(index, i) => e ← entry s i; Some (e, index))
      (take (Z.to_nat (Z.max hint 1)) (drop (Z.to_nat start) (imap pair children)))).

Definition readdir (directory : ObjectKey) (cookie : Z) (verifier : list byte) (backend_hint : Z) : op ReadDirectoryPage := fun s =>
  if negb (cookie =? 0) && negb (bool_decide (verifier = READDIR_VERIFIER)) then (Some (Err NfsError.BadCookie), s)
  else locked (fun s =>
    match (i ← id directory; ok_or (entry s i) NfsError.Stale) with
    | Err e => (Some (Err e), s)
    | Ok directory =>
        match e_contents directory with
        | File _ => (Some (Err NfsError.NotDirectory), s)
        | Directory children =>
            let start := cookie in
            match page s children start backend_hint with
            | None => (None, s)
            | Some page =>
                (Some (Ok (mkReadDirectoryPage READDIR_VERIFIER page (zlen children <=? saturating_add start (zlen page)))), s)
            end
        end
    end) s.

Definition fsstat : FsStat := mkFsStat (Z.shiftl 1 30) (Z.shiftl 1 29) (Z.shiftl 1 29) 1000000 999000 999000 1.
Definition default_fs_info : FsInfo :=
  mkFsInfo (1024 * 1024) (128 * 1024) 4096 (1024 * 1024) (128 * 1024) 4096 (32 * 1024) (128 * 1024 * 1024 * 1024) (mkNfsTime 0 1000000).
Definition default_path_conf : PathConf := mkPathConf u32_max NfsName.MAX_LEN true true false true.
Definition capabilities : VfsCapabilities := mkVfsCapabilities false false false false true true.

(** The backend as the server sees it: the methods above, and the defaults of the
    trait for the others. *)
Definition respond (o : VfsOp.t) (s : state) : option (VfsOp.response o) * state :=
  match o as o return option (VfsOp.response o) * state with
  | VfsOp.capabilities => (Some capabilities, s)
  | VfsOp.root => (Some (key ROOT_ID), s)
  | VfsOp.getattr _ o => getattr o s
  | VfsOp.lookup _ parent name => lookup parent name s
  | VfsOp.access _ o requested => access o requested s
  | VfsOp.setattr _ o attributes guard => setattr o attributes guard s
  | VfsOp.read_bytes _ o offset count => read o offset count s
  | VfsOp.write _ o offset data requested => write o offset data requested s
  | VfsOp.create _ parent name attributes mode => create parent name attributes mode s
  | VfsOp.readdir _ o cookie verifier hint => readdir o cookie verifier hint s
  | VfsOp.fsstat _ _ => (Some (Ok fsstat), s)
  | VfsOp.fsinfo _ _ => (Some (Ok default_fs_info), s)
  | VfsOp.pathconf _ _ => (Some (Ok default_path_conf), s)
  | VfsOp.readlink c o => (VfsOp.default_body capabilities (VfsOp.readlink c o), s)
  | VfsOp.mkdir c p n a => (VfsOp.default_body capabilities (VfsOp.mkdir c p n a), s)
  | VfsOp.symlink c p n t a => (VfsOp.default_body capabilities (VfsOp.symlink c p n t a), s)
  | VfsOp.mknod c p n k a => (VfsOp.default_body capabilities (VfsOp.mknod c p n k a), s)
  | VfsOp.remove c p n => (VfsOp.default_body capabilities (VfsOp.remove c p n), s)
  | VfsOp.rmdir c p n => (VfsOp.default_body capabilities (VfsOp.rmdir c p n), s)
  | VfsOp.rename c p n q m => (VfsOp.default_body capabilities (VfsOp.rename c p n q m), s)
  | VfsOp.link c o p n => (VfsOp.default_body capabilities (VfsOp.link c o p n), s)
  | VfsOp.commit c o f n => (VfsOp.default_body capabilities (VfsOp.commit c o f n), s)
  end.

(** A process that has ended answers nothing. *)
Definition demo (o : VfsOp.t) (s : state) : option (VfsOp.response o) * state :=
  if aborted s then (None, s) else respond o s.
End DemoFs.
