(* ===== verification/DemoFsLaws.v ===== *)
(** * The demo file system keeps a well-formed tree

    [wf] is the invariant of the entry vector: ids are indices, a file's size is
    the number of its bytes, the children of a directory exist, point back to it
    and have valid and distinct names, and every object is a child of its parent.
    Every operation keeps it, and answers unless a size is asked for that is above
    [isize::MAX] or for which there is no memory. What WRITE, CREATE and READDIR promise follows from it. *)
From S2P Require Import Prelude VfsTypes Vfs DemoFs.
From stdpp Require Import list sets.
#[local] Open Scope Z_scope.

(** ** The invariant *)

Definition slot (l : list Entry) (i : Z) : option (list byte * Z) := (fun e => (e_name e, e_parent e)) <$> l !! Z.to_nat i.
Definition kids (l : list Entry) (i : Z) : option (list Z) :=
  l !! Z.to_nat i ≫= fun e => match e_contents e with Directory cs => Some cs | File _ => None end.
Definition named (n : list byte) : Prop := is_ok (NfsName.new n) = true.

Record shaped (i : Z) (e : Entry) : Prop := {
  sh_id : e_id e = i;
  sh_file_id : fa_file_id (e_attributes e) = i;
  sh_contents :
    match e_contents e with
    | File bytes =>
        file_type (e_attributes e) = FileType.Regular /\ fa_size (e_attributes e) = zlen bytes /\
        used (e_attributes e) = zlen bytes /\ zlen bytes <= isize_max
    | Directory _ => file_type (e_attributes e) = FileType.Directory
    end
}.

Record linked (l : list Entry) (i : Z) (e : Entry) : Prop := {
  lk_up : i <= ROOT_ID \/ exists cs, kids l (e_parent e) = Some cs /\ i ∈ cs;
  lk_parent : 0 <= e_parent e;
  lk_down cs : e_contents e = Directory cs ->
    NoDup cs /\ forall c, c ∈ cs -> 0 <= c /\ exists n, slot l c = Some (n, i) /\ named n;
  lk_names cs c c' n p p' : e_contents e = Directory cs -> c ∈ cs -> c' ∈ cs ->
    slot l c = Some (n, p) -> slot l c' = Some (n, p') -> c = c'
}.

Record wf (l : list Entry) : Prop := {
  wf_entries (i : nat) e : l !! i = Some e -> shaped (Z.of_nat i) e /\ linked l (Z.of_nat i) e;
  wf_root : exists cs, kids l ROOT_ID = Some cs
}.

(** A later vector keeps names, parents and children. *)
Record grows (l l' : list Entry) : Prop := {
  gr_slot i x : slot l i = Some x -> slot l' i = Some x;
  gr_kids i cs : kids l i = Some cs -> exists cs', kids l' i = Some cs' /\ cs ⊆ cs'
}.

Lemma linked_grows l l' i e : grows l l' -> linked l i e -> linked l' i e.
Proof.
  intros [Hs Hk] [Hu Hp Hd Hn]. split; [|done| |].
  - destruct Hu as [?|(cs & Hcs & Hi)]; [by left|right]. destruct (Hk _ _ Hcs) as (cs' & ? & Hsub). exists cs'. auto.
  - intros cs He. destruct (Hd cs He) as [? Hc]. split; [done|]. intros c Hin. destruct (Hc c Hin) as (? & n & ? & ?). eauto 6.
  - intros cs c c' n p p' He Hc Hc' Hsc Hsc'. destruct (Hd cs He) as [_ Hall].
    destruct (Hall c Hc) as (_ & m & Hm & _), (Hall c' Hc') as (_ & m' & Hm' & _).
    pose proof (Hs _ _ Hm). pose proof (Hs _ _ Hm'). assert (m = n) by congruence. assert (m' = n) by congruence. subst.
    by eapply Hn.
Qed.

(** Changing one entry in place, its children only by adding to them. *)
Definition same_place (e e' : Entry) : Prop := e_name e' = e_name e /\ e_parent e' = e_parent e.
Definition children_of (e : Entry) : option (list Z) := match e_contents e with Directory cs => Some cs | File _ => None end.

Lemma kids_lookup l i e : l !! Z.to_nat i = Some e -> kids l i = children_of e.
Proof. unfold kids. by intros ->. Qed.

Lemma insert_grows l (i : nat) e e' :
  l !! i = Some e -> same_place e e' ->
  (forall cs, children_of e = Some cs -> exists cs', children_of e' = Some cs' /\ cs ⊆ cs') ->
  grows l (<[i := e']> l).
Proof.
  intros Hi [Hn Hp] Hc. pose proof (lookup_lt_Some _ _ _ Hi) as Hlt. split.
  - intros j x. unfold slot. destruct (decide (Z.to_nat j = i)) as [->|Hne].
    + rewrite Hi, list_lookup_insert_eq by done. simpl. by rewrite Hn, Hp.
    + by rewrite list_lookup_insert_ne.
  - intros j cs. destruct (decide (Z.to_nat j = i)) as [<-|Hne].
    + rewrite (kids_lookup _ _ _ Hi), (kids_lookup _ j e') by (by apply list_lookup_insert_eq). apply Hc.
    + unfold kids. rewrite list_lookup_insert_ne by done. intros ->. exists cs. auto.
Qed.

Lemma linked_same l i e e' :
  same_place e e' -> children_of e' = children_of e -> linked l i e -> linked l i e'.
Proof.
  intros [Hn Hp] Hc [Hu Hq Hd Hm]. unfold children_of in Hc. split.
  - by rewrite Hp.
  - by rewrite Hp.
  - intros cs He'. rewrite He' in Hc. destruct (e_contents e) as [?|cs0] eqn:He; simplify_eq. by apply Hd.
  - intros cs c c' n p p' He'. rewrite He' in Hc. destruct (e_contents e) as [?|cs0] eqn:He; simplify_eq. by eapply Hm.
Qed.

Lemma wf_update l (i : nat) e e' :
  wf l -> l !! i = Some e -> same_place e e' -> children_of e' = children_of e -> shaped (Z.of_nat i) e' ->
  wf (<[i := e']> l).
Proof.
  intros [He Hr] Hi Hsp Hc Hs. pose proof (lookup_lt_Some _ _ _ Hi) as Hlt.
  assert (Hg : grows l (<[i := e']> l)) by (eapply insert_grows; eauto; intros cs; rewrite Hc; eauto).
  split.
  - intros j x. destruct (decide (j = i)) as [->|Hne].
    + rewrite list_lookup_insert_eq by done. intros [= <-]. split; [done|].
      eapply linked_grows; [done|]. eapply linked_same; [done..|]. by apply He.
    + rewrite list_lookup_insert_ne by done. intros Hj. destruct (He _ _ Hj). split; [done|]. by eapply linked_grows.
  - destruct Hr as [cs Hcs]. destruct (gr_kids _ _ Hg _ _ Hcs) as (cs' & ? & _). eauto.
Qed.

Lemma snoc_grows l x : grows l (l ++ [x]).
Proof.
  assert (Hl : forall i e, l !! i = Some e -> (l ++ [x]) !! i = Some e) by (intros i e Hi; by apply lookup_app_l_Some).
  split.
  - intros i y. unfold slot. destruct (l !! Z.to_nat i) as [e|] eqn:He; [|done]. by rewrite (Hl _ _ He).
  - intros i cs. unfold kids. destruct (l !! Z.to_nat i) as [e|] eqn:He; [|done]. rewrite (Hl _ _ He). eauto.
Qed.

Lemma grows_trans l1 l2 l3 : grows l1 l2 -> grows l2 l3 -> grows l1 l3.
Proof.
  intros [Hs Hk] [Hs' Hk']. split; [auto|]. intros i cs Hc.
  destruct (Hk _ _ Hc) as (cs' & Hc' & ?). destruct (Hk' _ _ Hc') as (cs'' & ? & ?). exists cs''. split; [done|]. by etrans.
Qed.

(** Adding a file to a directory. *)
Section Adding.
Context (l : list Entry) (p : nat) (dir dir' new : Entry) (cs : list Z) (bytes : list byte).
Context (Hwf : wf l) (Hp : l !! p = Some dir) (Hdir : e_contents dir = Directory cs).
Context (Hplace : same_place dir dir') (Hdir' : e_contents dir' = Directory (cs ++ [zlen l])) (Hshaped' : shaped (Z.of_nat p) dir').
Context (Hnew : e_contents new = File bytes) (Hparent : e_parent new = Z.of_nat p) (Hshaped : shaped (zlen l) new).
Context (Hnamed : named (e_name new)).
Context (Hfresh : forall c m q, c ∈ cs -> slot l c = Some (m, q) -> m <> e_name new).

Definition added : list Entry := <[p := dir']> (l ++ [new]).

Lemma added_grows : grows l added.
Proof using Hp Hdir Hplace Hdir'.
  apply (grows_trans _ _ _ (snoc_grows l new)). eapply insert_grows; [by apply lookup_app_l_Some|done|].
  intros cs0. unfold children_of. rewrite Hdir, Hdir'. intros [= <-]. eexists. split; [done|]. intros c ?. apply elem_of_app. by left.
Qed.

Lemma added_lookup i e :
  added !! i = Some e -> i = p /\ e = dir' \/ i = length l /\ e = new \/ i <> p /\ l !! i = Some e.
Proof using Hp.
  unfold added. pose proof (lookup_lt_Some _ _ _ Hp) as Hlt. destruct (decide (i = p)) as [->|Hne].
  - rewrite list_lookup_insert_eq by (rewrite length_app; simpl; lia). intros [= <-]. auto.
  - rewrite list_lookup_insert_ne by done. rewrite lookup_snoc_Some. intros [[? ?]|[? ?]]; auto.
Qed.

Lemma added_dir : added !! p = Some dir'.
Proof using Hp. apply list_lookup_insert_eq. apply lookup_lt_Some in Hp. rewrite length_app. simpl. lia. Qed.
Lemma added_new : added !! length l = Some new.
Proof using Hp.
  apply lookup_lt_Some in Hp. unfold added. rewrite list_lookup_insert_ne by lia. by apply list_lookup_middle.
Qed.
Lemma added_slot_new : slot added (zlen l) = Some (e_name new, Z.of_nat p).
Proof using Hp Hparent. unfold slot, zlen. rewrite Nat2Z.id, added_new. simpl. by rewrite Hparent. Qed.

Lemma old_child_slot c : c ∈ cs -> 0 <= c < zlen l /\ exists n, slot l c = Some (n, Z.of_nat p) /\ slot added c = Some (n, Z.of_nat p) /\ named n.
Proof using Hwf Hp Hdir Hplace Hdir'.
  intros Hc. destruct (wf_entries _ Hwf _ _ Hp) as [_ Hl]. destruct (lk_down _ _ _ Hl _ Hdir) as [_ Hd].
  destruct (Hd c Hc) as (H0 & n & Hs & ?). split.
  - split; [done|]. unfold slot in Hs. destruct (l !! Z.to_nat c) eqn:E; [|done]. apply lookup_lt_Some in E. unfold zlen. lia.
  - exists n. split_and!; [done| |done]. by apply (gr_slot _ _ added_grows).
Qed.

Lemma wf_added : wf added.
Proof using All.
  pose proof added_grows as Hg. split.
  - intros i e Hi. destruct (added_lookup i e Hi) as [[-> ->]|[[-> ->]|[Hne Hl]]].
    + split; [done|]. destruct (wf_entries _ Hwf _ _ Hp) as [_ Hlk]. destruct (linked_grows _ _ _ _ Hg Hlk) as [Hu Hq Hd Hn].
      destruct Hplace as [En Ep]. split; [by rewrite Ep|by rewrite Ep| |].
      * intros cs0 E. rewrite Hdir' in E. injection E as <-. destruct (Hd _ Hdir) as [Hnd _]. split.
        -- apply NoDup_app. split_and!; [done| |apply NoDup_singleton].
           intros c Hc Hc'. apply list_elem_of_singleton in Hc'. destruct (old_child_slot c Hc). lia.
        -- intros c [Hc|Hc%list_elem_of_singleton]%elem_of_app.
           ++ destruct (old_child_slot c Hc) as ([] & n & _ & ? & ?). eauto.
           ++ subst c. split; [unfold zlen; lia|]. rewrite added_slot_new. eauto.
      * intros cs0 c c' n q q' E. rewrite Hdir' in E. injection E as <-.
        intros [Hc|Hc%list_elem_of_singleton]%elem_of_app [Hc'|Hc'%list_elem_of_singleton]%elem_of_app Hs Hs'; subst; [by eapply Hn| | |done].
        -- exfalso. rewrite added_slot_new in Hs'. destruct (old_child_slot c Hc) as (_ & m & Hm & Hm' & _).
           apply (Hfresh c m _ Hc Hm). congruence.
        -- exfalso. rewrite added_slot_new in Hs. destruct (old_child_slot c' Hc') as (_ & m & Hm & Hm' & _).
           apply (Hfresh c' m _ Hc' Hm). congruence.
    + split; [done|]. split; [|rewrite Hparent; lia|intros ?; by rewrite Hnew|intros ?; by rewrite Hnew].
      right. exists (cs ++ [zlen l]). rewrite Hparent. split; [|set_solver].
      rewrite (kids_lookup _ _ dir') by (rewrite Nat2Z.id; apply added_dir). unfold children_of. by rewrite Hdir'.
    + destruct (wf_entries _ Hwf _ _ Hl). split; [done|]. by eapply linked_grows.
  - destruct (wf_root _ Hwf) as [cs0 H0]. destruct (gr_kids _ _ Hg _ _ H0) as (? & ? & _). eauto.
Qed.
End Adding.

(** ** The operations keep the invariant *)

Definition size_ok (a : SetAttributes) : Prop := forall n, sa_size a = Some n -> 0 <= n.

Lemma resize_len h tick n bytes bytes' :
  0 <= n -> zlen bytes <= isize_max -> DemoFs.resize h tick n bytes = Ok bytes' -> zlen bytes' = n /\ n <= isize_max.
Proof.
  unfold DemoFs.resize, zlen. intros H0 Hb. destruct (Z.leb_spec n (Z.of_nat (length bytes))).
  - intros [= <-]. rewrite length_take. lia.
  - destruct (Z.ltb_spec isize_max n); [done|]. destruct (grants h tick n); [|done]. intros [= <-].
    rewrite length_app, length_replicate. lia.
Qed.

(** Why a file cannot have the size asked for. *)
Definition too_big (h : host) (n : Z) (st : stop) : Prop :=
  match st with Panic => isize_max < n | Abort => exists tick, grants h tick n = false end.

Lemma resize_stops h tick n bytes st : DemoFs.resize h tick n bytes = Err st -> too_big h n st.
Proof.
  unfold DemoFs.resize. destruct (n <=? _); [done|]. destruct (Z.ltb_spec isize_max n); [by intros [= <-]|].
  destruct (grants h tick n) eqn:Hg; [done|]. intros [= <-]. by exists tick.
Qed.

(** Changing attributes keeps the shape, and fails only on the size of a directory. *)
Lemma apply_attributes_keeps h i e a tick r e' tick' :
  shaped i e -> size_ok a -> apply_attributes h e a tick = (r, e', tick') ->
  shaped i e' /\ same_place e e' /\ children_of e' = children_of e /\ exclusive_verifier e' = exclusive_verifier e /\
  match r with
  | Err st => exists n, sa_size a = Some n /\ too_big h n st
  | Ok (Err err) => err = NfsError.Invalid /\ children_of e <> None
  | Ok (Ok _) => True
  end.
Proof.
  intros [Hi Hf Hc] Hs. unfold apply_attributes.
  set (attrs := match sa_gid a with Some _ => _ | None => _ end).
  assert (Hattrs : fa_file_id attrs = i /\ file_type attrs = file_type (e_attributes e) /\ fa_size attrs = fa_size (e_attributes e) /\ used attrs = used (e_attributes e)).
  { unfold attrs. by destruct (sa_mode a), (sa_uid a), (sa_gid a). }
  clearbody attrs. destruct Hattrs as (Ha & Ht & Hz & Hu). destruct e as [id0 at0 nm par cont ex].
  simpl in *. rewrite <-Ht, <-Hz, <-Hu in Hc.
  destruct (sa_size a) as [n|] eqn:Hn.
  - specialize (Hs n Hn). destruct cont as [bytes|cs]; simpl.
    + destruct (DemoFs.resize h tick n bytes) as [bytes'|st] eqn:Hr.
      * destruct (resize_len _ _ _ _ _ Hs (proj2 (proj2 (proj2 Hc))) Hr) as [Hl Hm]. destruct (set_time _ _ _ _) as [t1 k1], (set_time _ _ _ _) as [t2 k2].
        intros [= <- <- <-]. split_and!; try done. split; simpl; [done..|]. destruct Hc as (? & _). by rewrite Hl.
      * intros [= <- <- <-]. split_and!; try done. exists n. split; [done|]. by eapply resize_stops.
    + intros [= <- <- <-]. split_and!; done.
  - destruct (set_time _ _ _ _) as [t1 k1], (set_time _ _ _ _) as [t2 k2]. intros [= <- <- <-].
    split_and!; try done.
Qed.

Lemma find_child_none s cs name c m q : find_child s cs name = None -> c ∈ cs -> slot (entries s) c = Some (m, q) -> m <> name.
Proof.
  unfold find_child, slot, entry. intros Hf Hc Hs. destruct (entries s !! Z.to_nat c) as [e|] eqn:He; [|done].
  injection Hs as <- _. pose proof (List.find_none _ _ Hf e) as Hno. rewrite bool_decide_eq_false in Hno. apply Hno.
  apply list_elem_of_In, list_elem_of_omap. exists c. by rewrite <-He.
Qed.

Lemma find_child_some s cs name e :
  find_child s cs name = Some e -> e_name e = name /\ exists c, c ∈ cs /\ entries s !! Z.to_nat c = Some e.
Proof.
  intros [Hin Hn]%List.find_some. apply bool_decide_eq_true in Hn. split; [done|].
  by apply list_elem_of_In, list_elem_of_omap in Hin.
Qed.

(** A request as the server makes it: unsigned numbers and valid names; and the
    largest file size it asks for. *)
Definition request_ok (o : VfsOp.t) : Prop :=
  Forall (fun k => 0 <= file_id k) (VfsOp.objects_of o) /\ Forall NfsName.valid (VfsOp.names_of o) /\
  match o with
  | VfsOp.setattr _ _ a _ | VfsOp.create _ _ _ a _ => size_ok a
  | VfsOp.write _ _ offset _ _ => 0 <= offset
  | VfsOp.read_bytes _ _ offset count => 0 <= offset /\ 0 <= count
  | VfsOp.readdir _ _ cookie _ hint => 0 <= cookie /\ 0 <= hint
  | _ => True
  end.
Definition demanded (o : VfsOp.t) : Z :=
  match o with
  | VfsOp.setattr _ _ a _ | VfsOp.create _ _ _ a _ => default 0 (sa_size a)
  | VfsOp.write _ _ offset data _ => offset + zlen data
  | _ => 0
  end.

(** How an operation that asks for [n] bytes ends: it answers, or the process ends
    because they cannot be had. *)
Definition survives (h : host) (n : Z) {A} (r : option A) (s : state) : Prop :=
  poisoned s = false /\
  (is_Some r /\ aborted s = false \/ r = None /\ aborted s = true /\ exists tick, grants h tick n = false).

(** It keeps the tree in any case. *)
Definition keeps (h : host) (n : Z) {A} (f : op A) (s : state) : Prop :=
  wf (entries (f s).2) /\
  (n <= isize_max -> poisoned s = false -> aborted s = false -> survives h n (f s).1 (f s).2).

Lemma stops_survives h n {A} st s :
  too_big h n st -> n <= isize_max -> poisoned s = false -> @survives h n A None (stopped st s).
Proof. destruct st; [by intros ? ?%Z.lt_nge|]. intros Hg _ Hp. split; [done|]. by right. Qed.

Ltac survive := intros _ ? ?; split; simpl; [done|]; left; by eauto.
Ltac answers := split; [done|survive].

Lemma locked_keeps {A} h n (f : op A) s :
  wf (entries s) -> (poisoned s = false -> keeps h n f s) -> keeps h n (locked f) s.
Proof.
  intros Hs Hf. unfold keeps, locked. destruct (poisoned s) eqn:Hp; simpl; [done|].
  destruct (Hf eq_refl) as [Hw Ha]. destruct (f s) as [[r|] s']; simpl in *.
  - split; [done|]. intros Hsm _. auto.
  - split; [done|]. intros Hsm _ Hup. destruct (Ha Hsm Hp Hup) as [_ [[[??] _]|(_ & Hab & Hg)]]; [done|].
    unfold survives. simpl. rewrite Hab. split; [done|]. by right.
Qed.

Lemma pure_keeps {A} h n (r : state -> result NfsError.t A) s : wf (entries s) -> keeps h n (fun s => (Some (r s), s)) s.
Proof. intros Hs. answers. Qed.

(** An entry found by a request. *)
Lemma located o s i e :
  (i ← id o; e ← ok_or (entry s i) NfsError.Stale; Ok (i, e)) = Ok (i, e) <-> generation o = GENERATION /\ file_id o = i /\ entry s i = Some e.
Proof.
  unfold id, ok_or. destruct (Z.eqb_spec (generation o) GENERATION) as [Hg|Hg]; simpl; [|naive_solver].
  destruct (entry s (file_id o)) as [e0|] eqn:He; simpl; naive_solver.
Qed.

Lemma wf_shaped s i e : wf (entries s) -> 0 <= i -> entry s i = Some e -> shaped i e.
Proof. unfold entry. intros Hs Hi He. rewrite <-(Z2Nat.id i) by done. by apply (wf_entries _ Hs). Qed.

Lemma wf_set_entry s i e e' s0 :
  wf (entries s) -> entries s0 = entries s -> 0 <= i -> entry s i = Some e -> same_place e e' -> children_of e' = children_of e ->
  shaped i e' -> wf (entries (set_entry i e' s0)).
Proof. intros Hs E Hi He Hp Hc Hsh. simpl. rewrite E. eapply wf_update; eauto. by rewrite Z2Nat.id. Qed.

Lemma setattr_keeps h o a g s :
  wf (entries s) -> 0 <= file_id o -> size_ok a -> keeps h (default 0 (sa_size a)) (setattr h o a g) s.
Proof.
  intros Hs Ho Ha. apply locked_keeps; [done|]. intros Hp. unfold keeps.
  destruct (_ ← id o; _) as [[i e]|err] eqn:HX; [|answers]. apply located in HX as (_ & Hi & He). rewrite Hi in Ho.
  destruct (match g with Some _ => _ | None => _ end); [answers|].
  destruct (apply_attributes h e a (ticks s)) as [[r e'] tick] eqn:Hr.
  destruct (apply_attributes_keeps _ _ _ _ _ _ _ _ (wf_shaped _ _ _ Hs Ho He) Ha Hr) as (Hsh & Hsp & Hc & _ & Hres).
  assert (Hw : wf (entries (set_entry i e' (mkState (entries s) (poisoned s) tick (aborted s))))) by (by eapply wf_set_entry).
  destruct r as [[[]|err]|st]; [answers..|]. destruct Hres as (n & -> & Hst). split; [by destruct st|].
  intros Hsm _ _. by apply stops_survives.
Qed.

Lemma overwrite_len start data bytes :
  0 <= start -> start + zlen data <= zlen bytes -> zlen (overwrite start data bytes) = zlen bytes.
Proof.
  intros H0 Hl. unfold overwrite, zlen in *. rewrite !length_app, length_take, length_drop. lia.
Qed.

(** The bytes a write works on: the old ones, padded with zeros up to its end. *)
Definition padded (h : host) (tick : nat) (finish : Z) (bytes : list byte) : result stop (list byte) :=
  if zlen bytes <? finish then DemoFs.resize h tick finish bytes else Ok bytes.
Lemma padded_len h tick finish bytes bytes' :
  0 <= finish -> zlen bytes <= isize_max -> padded h tick finish bytes = Ok bytes' ->
  zlen bytes' = Z.max (zlen bytes) finish /\ zlen bytes' <= isize_max.
Proof.
  unfold padded. intros H0 Hb. destruct (Z.ltb_spec (zlen bytes) finish); [|intros [= <-]; lia].
  intros Hr. apply resize_len in Hr; [|done..]. lia.
Qed.
Lemma padded_stops h tick finish bytes st : padded h tick finish bytes = Err st -> too_big h finish st.
Proof. unfold padded. destruct (_ <? _); [|done]. apply resize_stops. Qed.

Lemma write_keeps h o offset data st s :
  wf (entries s) -> 0 <= file_id o -> 0 <= offset -> keeps h (offset + zlen data) (write h o offset data st) s.
Proof.
  intros Hs Ho H0. apply locked_keeps; [done|]. intros Hp. unfold keeps.
  destruct (_ ← id o; _) as [[i e]|err] eqn:HX; [|answers]. apply located in HX as (_ & Hi & He). rewrite Hi in Ho.
  destruct (e_contents e) as [bytes|cs] eqn:Hc; [|answers].
  unfold checked_add. destruct (_ <=? _) eqn:Hadd; [|answers].
  fold (padded h (ticks s) (offset + zlen data) bytes). destruct (padded _ _ _ _) as [bytes'|st'] eqn:Hpad; simpl.
  - destruct (wf_shaped _ _ _ Hs Ho He) as [H1 H2 H3]. rewrite Hc in H3. destruct H3 as (Ht & _ & _ & Hb).
    pose proof (zlen_nonneg data). apply padded_len in Hpad as [Hl Hm]; [|lia|done].
    split; [|survive]. apply (wf_set_entry s i e _ s); try done.
    + unfold children_of. simpl. by rewrite Hc.
    + split; simpl; [done..|]. rewrite !overwrite_len by lia. auto.
  - split; [by destruct st'|]. intros Hsm _ _. apply stops_survives; [by eapply padded_stops|done..].
Qed.

Lemma make_file_shaped name i p t v : shaped i (with_verifier v (make_file name i p [] t)).
Proof. by split. Qed.

Definition verifier_of (mode : CreateMode) : option (list byte) := match mode with Exclusive v => Some v | _ => None end.

(** What creating a new file does: the file is appended to the vector and its id
    to its directory, or the demanded size is too large and nothing changes. *)
Record creates (s : state) (parent : Z) (name : list byte) (mode : CreateMode) (dir : Entry) (cs : list Z) (new dir' : Entry) : Prop := {
  cr_name : e_name new = name;
  cr_parent : e_parent new = parent;
  cr_verifier : exclusive_verifier new = verifier_of mode;
  cr_shaped : shaped (zlen (entries s)) new;
  cr_file : exists bytes, e_contents new = File bytes;
  cr_place : same_place dir dir';
  cr_dir : e_contents dir' = Directory (cs ++ [zlen (entries s)]);
  cr_dir_shaped : shaped parent dir'
}.

Lemma create_fresh h o name a mode s dir cs :
  wf (entries s) -> poisoned s = false -> generation o = GENERATION -> 0 <= file_id o -> size_ok a ->
  entry s (file_id o) = Some dir -> e_contents dir = Directory cs -> find_child s cs (NfsName.as_bytes name) = None ->
  (exists tick st, create h o name a mode s =
     (None, let s' := stopped st (mkState (entries s) false tick (aborted s)) in mkState (entries s) (negb (aborted s')) tick (aborted s')) /\
     too_big h (default 0 (sa_size a)) st) \/
  exists new dir' tick,
    create h o name a mode s =
      (Some (Ok (mkMutationResult (created new) (Some (wcc (e_attributes dir))) (Some (e_attributes dir')))),
       mkState (added (entries s) (Z.to_nat (file_id o)) dir' new) false tick (aborted s)) /\
    creates s (file_id o) (NfsName.as_bytes name) mode dir cs new dir'.
Proof.
  intros Hs Hp Hg Ho Ha Hd Hc Hf. unfold create, id. rewrite Hg, Z.eqb_refl. unfold locked. rewrite Hp, Hd, Hc, Hf. simpl.
  set (new0 := match mode with Exclusive _ => _ | _ => _ end).
  assert (Hnew : exists t, new0 = with_verifier (verifier_of mode) (make_file (NfsName.as_bytes name) (zlen (entries s)) (file_id o) [] t))
    by (eexists; unfold new0; by destruct mode).
  clearbody new0. destruct Hnew as [t Hnew]. destruct (apply_attributes h new0 a _) as [[r new] tick] eqn:Hr.
  assert (Hsh : shaped (zlen (entries s)) new0) by (subst new0; apply make_file_shaped).
  destruct (apply_attributes_keeps _ _ _ _ _ _ _ _ Hsh Ha Hr) as (Hsh' & [Hn Hpar] & Hk & Hv & Hres). subst new0.
  destruct r as [[[]|err]|st]; [right|by destruct Hres|left].
  - rewrite Hp. simpl.
    eexists new, (with_attributes (set_change (clock h tick) (e_attributes dir)) (with_contents (Directory (cs ++ [zlen (entries s)])) dir)), _.
    split; [reflexivity|]. pose proof (wf_shaped _ _ _ Hs Ho Hd) as [H1 H2 H3].
    split; simpl; try done.
    + unfold children_of in Hk. simpl in Hk. destruct (e_contents new); [eauto|done].
    + split; simpl; try done. by rewrite Hc in H3.
  - exists tick, st. rewrite Hp. split; [by destruct st|]. by destruct Hres as (n & -> & ?).
Qed.

(** The directory after a file was created in it is well formed. *)
Lemma creates_wf s p name mode dir cs new dir' :
  wf (entries s) -> 0 <= p -> entry s p = Some dir -> e_contents dir = Directory cs ->
  find_child s cs name = None -> named name -> creates s p name mode dir cs new dir' ->
  wf (added (entries s) (Z.to_nat p) dir' new).
Proof.
  intros Hs Hp Hd Hc Hf Hn [H1 H2 H3 H4 [bytes H5] H6 H7 H8].
  eapply wf_added; rewrite ?Z2Nat.id by done; try done; [by rewrite H1|].
  intros c m q Hin Hsl. rewrite H1. by eapply find_child_none.
Qed.

Lemma valid_named n : NfsName.valid n -> named (NfsName.as_bytes n).
Proof. intros Hv. unfold named. by rewrite (proj2 (NfsName_new_ok _ n) (conj eq_refl Hv)). Qed.

Lemma create_keeps h o name a mode s :
  wf (entries s) -> 0 <= file_id o -> NfsName.valid name -> size_ok a ->
  keeps h (default 0 (sa_size a)) (create h o name a mode) s.
Proof.
  intros Hs Ho Hn Ha. destruct (id o) as [i|err] eqn:Hid; [|unfold keeps, create; rewrite Hid; simpl; answers].
  destruct (poisoned s) eqn:Hp; [unfold keeps, create; rewrite Hid; unfold locked; rewrite Hp; simpl; done|].
  assert (generation o = GENERATION /\ file_id o = i) as [Hg <-].
  { unfold id in Hid. destruct (Z.eqb_spec (generation o) GENERATION); by simplify_eq. }
  destruct (entry s (file_id o)) as [dir|] eqn:Hd;
    [|unfold keeps, create, locked; rewrite Hid, Hp, Hd; simpl; answers].
  destruct (e_contents dir) as [bytes|cs] eqn:Hc;
    [unfold keeps, create, locked; rewrite Hid, Hp, Hd, Hc; simpl; answers|].
  destruct (find_child s cs (NfsName.as_bytes name)) as [ex|] eqn:Hf.
  - unfold keeps, create, locked. rewrite Hid, Hp, Hd, Hc, Hf. destruct (_ || _); simpl; answers.
  - unfold keeps.
    destruct (create_fresh h o name a mode s dir cs) as [(tick & st & -> & Hst)|(new & dir' & tick & -> & Hcr)]; try done; simpl.
    + split; [done|]. intros Hsm _ _. destruct st; [simpl in Hst; lia|]. split; [done|]. by right.
    + split; [|survive]. eapply creates_wf; eauto. by apply valid_named.
Qed.

(** ** Directory pages *)

Definition dirent (e : Entry) (index : nat) : DirectoryEntry :=
  mkDirectoryEntry (key (e_id e)) (e_id e) (NfsName.mk (e_name e)) (Z.of_nat index + 1) (Some (e_attributes e)).
(** The whole directory, in order. *)
Definition listing (s : state) (cs : list Z) : list DirectoryEntry :=
  omap (fun '(index, i) => e ← entry s i; Some (dirent e index)) (imap pair cs).

Section Total.
Context {A B} (f : A -> option B).
Definition total (l : list A) : Prop := Forall (fun a => is_Some (f a)) l.
Lemma omap_total_length l : total l -> length (omap f l) = length l.
Proof. induction 1 as [|a l [b Hb] Hl IH]; csimpl; [done|]. rewrite Hb. csimpl. by rewrite IH. Qed.
Lemma omap_total_take n l : total l -> omap f (take n l) = take n (omap f l).
Proof. intros Hl. revert n. induction Hl as [|a l [b Hb] Hl IH]; intros [|n]; csimpl; try done. rewrite Hb. csimpl. by rewrite IH. Qed.
Lemma omap_total_drop n l : total l -> omap f (drop n l) = drop n (omap f l).
Proof. intros Hl. revert n. induction Hl as [|a l [b Hb] Hl IH]; intros [|n]; csimpl; try done; rewrite Hb; csimpl; auto. Qed.
Lemma omap_total_lookup l n : total l -> omap f l !! n = l !! n ≫= f.
Proof. intros Hl. revert n. induction Hl as [|a l [b Hb] Hl IH]; intros [|n]; csimpl; try done; rewrite Hb; csimpl; auto. Qed.
End Total.

Lemma mapM_omap {A B C} (f : B -> option C) (g : A -> option B) (h : A -> option C) l :
  (forall x, x ∈ l -> exists y z, g x = Some y /\ f y = Some z /\ h x = Some z) -> mapM f (omap g l) = Some (omap h l).
Proof.
  intros Hl. apply mapM_Some_2. induction l as [|x l IH]; [constructor|]. destruct (Hl x) as (y & z & Hg & Hf & Hh); [set_solver|].
  csimpl. rewrite Hg, Hh. csimpl. constructor; [done|]. apply IH. set_solver.
Qed.

Section Paging.
Context (s : state) (i : Z) (dir : Entry) (cs : list Z).
Context (Hwf : wf (entries s)) (Hi : 0 <= i) (Hdir : entry s i = Some dir) (Hcs : e_contents dir = Directory cs).

Lemma child_entry c : c ∈ cs -> exists e, entry s c = Some e /\ e_id e = c /\ named (e_name e) /\ e_parent e = i.
Proof using All.
  intros Hc. destruct (wf_entries _ Hwf _ _ Hdir) as [_ Hl]. rewrite Z2Nat.id in Hl by done.
  destruct (lk_down _ _ _ Hl _ Hcs) as [_ Hd]. destruct (Hd c Hc) as (H0 & n & Hn & Hv).
  unfold slot in Hn. fold (entry s c) in Hn. destruct (entry s c) as [e|] eqn:He; [|done]. injection Hn as <- Hp.
  exists e. split_and!; try done. by apply (wf_shaped s).
Qed.

Lemma listing_total : total (fun '(index, c) => e ← entry s c; Some (dirent e index)) (imap pair cs).
Proof using All.
  apply Forall_forall. intros [n c] Hin. apply elem_of_lookup_imap in Hin as (k & c' & [= -> ->] & Hk).
  destruct (child_entry c') as (e & -> & _); [by eapply list_elem_of_lookup_2|]. simpl. eauto.
Qed.

Lemma length_listing : length (listing s cs) = length cs.
Proof using All. unfold listing. rewrite omap_total_length by apply listing_total. apply length_imap. Qed.

Lemma listing_lookup n c e : cs !! n = Some c -> entry s c = Some e -> listing s cs !! n = Some (dirent e n).
Proof using All.
  intros Hn He. unfold listing. rewrite omap_total_lookup by apply listing_total. rewrite list_lookup_imap, Hn. simpl. by rewrite He.
Qed.

Lemma page_sublist (l : list (nat * Z)) :
  (forall x, x ∈ l -> x.2 ∈ cs) ->
  mapM (fun '(e, index) => page_entry e index) (omap (fun '(index, c) => e ← entry s c; Some (e, index)) l) =
  Some (omap (fun '(index, c) => e ← entry s c; Some (dirent e index)) l).
Proof using All.
  intros Hl. apply mapM_omap. intros [n c] Hx. destruct (child_entry c) as (e & -> & _ & Hn & _); [by apply (Hl (n, c))|].
  exists (e, n), (dirent e n). split_and!; [done| |done]. unfold page_entry, named in *.
  destruct (NfsName.new (e_name e)) as [nm|] eqn:E; [|done]. apply NfsName_new_ok in E as [E _]. destruct nm. simpl in E. by subst.
Qed.

(** A page is a segment of the listing. *)
Lemma page_listing start hint :
  page s cs start hint = Some (take (Z.to_nat (Z.max hint 1)) (drop (Z.to_nat start) (listing s cs))).
Proof using All.
  unfold page. rewrite page_sublist.
  - f_equal. rewrite omap_total_take by apply Forall_drop, listing_total. rewrite omap_total_drop by apply listing_total. done.
  - intros [n c] (j & Hj & _)%elem_of_take. rewrite lookup_drop, list_lookup_imap in Hj.
    destruct (cs !! _) as [c'|] eqn:Hc; [|done]. injection Hj as _ <-. by eapply list_elem_of_lookup_2.
Qed.
End Paging.

Lemma readdir_keeps h n o cookie v hint s : wf (entries s) -> 0 <= file_id o -> keeps h n (readdir o cookie v hint) s.
Proof.
  intros Hs Ho. unfold keeps, readdir. destruct (_ && _); [answers|]. apply locked_keeps; [done|]. intros _. unfold keeps.
  unfold id. destruct (_ =? GENERATION); simpl; [|answers].
  destruct (entry s (file_id o)) as [dir|] eqn:Hd; simpl; [|answers]. destruct (e_contents dir) as [?|cs] eqn:Hc; [answers|].
  rewrite (page_listing s _ _ _ Hs Ho Hd Hc). answers.
Qed.

(** Every operation keeps the tree, and answers or meets the end of the process. *)
Lemma respond_keeps h o s :
  wf (entries s) -> request_ok o ->
  wf (entries (respond h o s).2) /\
  (demanded o <= isize_max -> poisoned s = false -> aborted s = false -> survives h (demanded o) (respond h o s).1 (respond h o s).2).
Proof.
  intros Hs (Hk & Hn & Ho).
  destruct o; cbn [respond VfsOp.objects_of VfsOp.names_of demanded] in *; decompose_Forall_hyps; try answers.
  - by apply (locked_keeps h 0); [|intros _; apply pure_keeps].
  - unfold DemoFs.lookup. destruct (id parent); [|answers].
    by apply (locked_keeps h 0); [|intros _; apply pure_keeps].
  - by apply setattr_keeps.
  - by apply (locked_keeps h 0); [|intros _; apply pure_keeps].
  - by apply write_keeps.
  - by apply create_keeps.
  - by apply (readdir_keeps h 0).
Qed.

(** With the process up or not. *)
Lemma demo_keeps h o s :
  wf (entries s) -> poisoned s = false -> request_ok o -> demanded o <= isize_max ->
  let '(r, s') := demo h o s in
  wf (entries s') /\ poisoned s' = false /\ (is_Some r <-> aborted s' = false) /\
  (aborted s' = true -> aborted s = true \/ exists tick, grants h tick (demanded o) = false).
Proof.
  intros Hs Hp Ho Hd. unfold demo. destruct (aborted s) eqn:Ha.
  - rewrite Ha. split_and!; [done..| |by left]. split; [by intros []|done].
  - destruct (respond_keeps h o s Hs Ho) as [Hw H]. specialize (H Hd Hp Ha). destruct (respond h o s) as [r s'].
    destruct H as [Hp' [[Hr Hup]|(Hr & Hup & Hg)]]; simpl in *; rewrite Hup; split_and!; try done; [|by right].
    split; [subst r; by intros []|done].
Qed.
