(* ===== verification/DemoFsSpec.v ===== *)
(** * What the demo file system promises its clients

    From the invariant of [DemoFsLaws]: requests bring the file system down only by
    asking for a file that cannot be had, a read returns what was written, a
    created file is found again, and the pages of a directory list each child once.
    Some of its corner cases are recorded at the end. *)
From S2P Require Import Prelude VfsTypes Vfs DemoFs DemoFsLaws.
From stdpp Require Import list sets.
#[local] Open Scope Z_scope.

(** ** Serving requests *)

Fixpoint served (h : host) (requests : list VfsOp.t) (s : state) : state :=
  match requests with [] => s | o :: requests => served h requests (demo h o s).2 end.

Ltac each_child H := repeat (apply elem_of_cons in H as [->|H]); try (by apply elem_of_nil in H).
Ltac link :=
  split; simpl;
  [first [by left; vm_compute|right; eexists; split; [reflexivity|refine (bool_decide_unpack _ _); by vm_compute]]
  |unfold ROOT_ID; lia
  |intros cs E; first [discriminate E|injection E as <-; split;
     [refine (bool_decide_unpack _ _); by vm_compute
     |intros c Hc; each_child Hc; (split; [lia|]); eexists; (split; [reflexivity|by vm_compute])]]
  |intros cs c c' n p p' E; first [discriminate E|injection E as <-; intros Hc Hc'; each_child Hc; each_child Hc';
     first [reflexivity|intros H1 H2; exfalso; vm_compute in H1, H2; congruence]]].
Lemma default_links h i e :
  entries (default_fs h) !! i = Some e -> linked (entries (default_fs h)) (Z.of_nat i) e.
Proof. do 6 (destruct i as [|i]; [intros [= <-]; link|]). done. Qed.

Lemma default_wf h : wf (entries (default_fs h)).
Proof.
  split.
  - intros i e Hi. split; [|by apply default_links].
    do 6 (destruct i as [|i]; [injection Hi as <-; split; simpl; try done; unfold isize_max; zlen_lia|]). done.
  - by exists [2; 3; 4].
Qed.

Lemma served_keeps h requests s :
  wf (entries s) -> poisoned s = false -> Forall request_ok requests -> Forall (fun o => demanded o <= isize_max) requests ->
  let s' := served h requests s in
  wf (entries s') /\ poisoned s' = false /\
  (aborted s' = true -> aborted s = true \/ exists o tick, o ∈ requests /\ grants h tick (demanded o) = false).
Proof.
  revert s. induction requests as [|o requests IH]; intros s Hs Hp Hr Hd; [by split_and!; [..|left]|].
  apply Forall_cons in Hr as [? ?], Hd as [? ?]. change (served h (o :: requests) s) with (served h requests (demo h o s).2).
  pose proof (demo_keeps h o s) as Hk. destruct (demo h o s) as [r s1]. destruct Hk as (Hw & Hp1 & _ & Ha); [done..|].
  destruct (IH s1) as (? & ? & Ha'); [done..|]. split_and!; [done..|]. intros Hup.
  destruct (Ha' Hup) as [Hab|(o' & tick & ? & ?)]; [|right; exists o', tick; set_solver].
  destruct (Ha Hab) as [|[tick ?]]; [by left|]. right. exists o, tick. set_solver.
Qed.

(** C36: however many requests the demo file system has served since it started,
    whatever the clock reads and whatever the allocator does, its tree is well
    formed (ids are indices, sizes are byte counts, children exist, point to their
    directory and have valid distinct names, every object is in its parent) and its
    mutex is not poisoned, provided no request asked for a file above [isize::MAX]
    bytes. The next request is answered as long as the process is up, and the
    process ends only because some request asked for a file size whose memory the
    allocator refused. *)
Theorem demo_fs_serves h requests o :
  Forall request_ok (requests ++ [o]) -> Forall (fun o => demanded o <= isize_max) (requests ++ [o]) ->
  let s := served h requests (default_fs h) in
  let s' := (demo h o s).2 in
  wf (entries s) /\ wf (entries s') /\ poisoned s' = false /\ (is_Some (demo h o s).1 <-> aborted s' = false) /\
  (aborted s' = true -> exists o' tick, o' ∈ requests ++ [o] /\ grants h tick (demanded o') = false).
Proof.
  intros [Hr Ho]%Forall_app [Hd Hd']%Forall_app. decompose_Forall_hyps.
  destruct (served_keeps h requests (default_fs h)) as (Hw & Hp & Ha); [apply default_wf|done..|].
  pose proof (demo_keeps h o (served h requests (default_fs h))) as Hk. destruct (demo h o _) as [r s'].
  destruct Hk as (Hw' & Hp' & Hup & Ha'); [done..|]. split_and!; try done. intros Hab.
  destruct (Ha' Hab) as [[|(o' & tick & ? & ?)]%Ha|[tick ?]]; [done|exists o', tick; set_solver|exists o, tick; set_solver].
Qed.

(** ** Reading what was written *)

Definition contents_at (s : state) (i : Z) : option (list byte) :=
  entry s i ≫= fun e => match e_contents e with File bytes => Some bytes | Directory _ => None end.

(** The [k]-th byte after writing [data] at [offset] over [old]. *)
Definition byte_after (offset : Z) (data old : list byte) (k : nat) : option byte :=
  if bool_decide (offset <= Z.of_nat k < offset + zlen data) then data !! (k - Z.to_nat offset)%nat
  else if bool_decide (Z.of_nat k < zlen old) then old !! k
  else if bool_decide (Z.of_nat k < offset) then Some Byte.x00 else None.

Lemma resize_lookup h tick n (bytes bytes' : list byte) k :
  0 <= n -> zlen bytes < n -> DemoFs.resize h tick n bytes = Ok bytes' ->
  bytes' !! k = if bool_decide (Z.of_nat k < zlen bytes) then bytes !! k
                else if bool_decide (Z.of_nat k < n) then Some Byte.x00 else None.
Proof.
  intros H0 Hn. unfold DemoFs.resize. rewrite (proj2 (Z.leb_gt _ _) Hn). destruct (isize_max <? n); [done|].
  destruct (grants h tick n); [|done]. intros [= <-]. unfold zlen in *. repeat case_bool_decide.
  - apply lookup_app_l. lia.
  - rewrite lookup_app_r by lia. apply lookup_replicate_2. lia.
  - apply lookup_ge_None_2. rewrite length_app, length_replicate. lia.
Qed.

Lemma overwrite_lookup start data bytes k :
  0 <= start -> start + zlen data <= zlen bytes ->
  overwrite start data bytes !! k =
    if bool_decide (start <= Z.of_nat k < start + zlen data) then data !! (k - Z.to_nat start)%nat else bytes !! k.
Proof.
  intros H0 Hl. unfold overwrite, zlen in *. case_bool_decide.
  - rewrite lookup_app_r by (rewrite length_take; lia). rewrite length_take, Nat.min_l by lia. apply lookup_app_l. lia.
  - destruct (decide (Z.of_nat k < start)).
    + rewrite lookup_app_l by (rewrite length_take; lia). by rewrite lookup_take_lt by lia.
    + rewrite lookup_app_r by (rewrite length_take; lia). rewrite length_take, Nat.min_l by lia.
      rewrite lookup_app_r by lia. rewrite lookup_drop. f_equal. lia.
Qed.

Lemma write_bytes h tick offset data old padded_old k :
  0 <= offset -> zlen old <= isize_max -> padded h tick (offset + zlen data) old = Ok padded_old ->
  overwrite offset data padded_old !! k = byte_after offset data old k.
Proof.
  intros H0 Hm Hp. pose proof (zlen_nonneg data). assert (H1 : 0 <= offset + zlen data) by lia.
  destruct (padded_len _ _ _ _ _ H1 Hm Hp) as [Hl _].
  rewrite overwrite_lookup by lia. unfold byte_after. case_bool_decide; [done|]. unfold padded in Hp.
  destruct (Z.ltb_spec (zlen old) (offset + zlen data)).
  - rewrite (resize_lookup h tick (offset + zlen data) old padded_old k) by (done || lia).
    repeat case_bool_decide; done || lia.
  - injection Hp as <-. repeat case_bool_decide; try done; try lia; apply lookup_ge_None_2; unfold zlen in *; lia.
Qed.

Lemma overwrite_slice start data bytes :
  0 <= start -> start + zlen data <= zlen bytes -> slice start (start + zlen data) (overwrite start data bytes) = data.
Proof.
  intros H0 Hl. unfold slice, overwrite, zlen in *. rewrite drop_app_length' by (rewrite length_take; lia).
  apply take_app_length'. lia.
Qed.

Lemma locked_some {A} (f : op A) s r s' : locked f s = (Some r, s') <-> poisoned s = false /\ f s = (Some r, s').
Proof.
  unfold locked. destruct (poisoned s) eqn:Hp; [naive_solver|]. destruct (f s) as [[r'|] s0]; naive_solver.
Qed.

Lemma write_ok h o offset data st s m s' :
  write h o offset data st s = (Some (Ok m), s') ->
  exists e old full attrs,
    poisoned s = false /\ generation o = GENERATION /\ entry s (file_id o) = Some e /\ e_contents e = File old /\
    padded h (ticks s) (offset + zlen data) old = Ok full /\ offset + zlen data <= usize_max /\
    m = mkMutationResult (mkBackendWriteResult (as_u32 (zlen data)) st) (Some (wcc (e_attributes e))) (Some attrs) /\
    fa_size attrs = zlen (overwrite offset data full) /\
    s' = set_entry (file_id o) (with_attributes attrs (with_contents (File (overwrite offset data full)) e))
      (mkState (entries s) false (S (ticks s)) (aborted s)).
Proof.
  intros [Hp H]%locked_some. destruct (_ ← id o; _) as [[i e]|err] eqn:HX; [|done].
  apply located in HX as (Hg & <- & He). destruct (e_contents e) as [old|cs] eqn:Hc; [|done].
  unfold checked_add in H. destruct (Z.leb_spec (offset + zlen data) usize_max) as [Hle|]; [|done].
  fold (padded h (ticks s) (offset + zlen data) old) in H. destruct (padded _ _ _ _) as [full|] eqn:Hpad; [|done].
  simpl in H. rewrite Hp in H. injection H as <- <-. eexists e, old, full, _. by split_and!.
Qed.

Lemma entry_set_eq i e e' s : entry s i = Some e -> entry (set_entry i e' s) i = Some e'.
Proof. unfold entry. simpl. intros Hi. apply list_lookup_insert_eq. by eapply lookup_lt_Some. Qed.
Lemma entry_set_ne i j e' s : 0 <= i -> 0 <= j -> i <> j -> entry (set_entry i e' s) j = entry s j.
Proof. unfold entry. simpl. intros Hi Hj Hne. apply list_lookup_insert_ne. lia. Qed.

(** C37: a successful WRITE replaces exactly the bytes of its range, fills a gap
    after the old end with zeros, changes no other object and reports the new size;
    reading the range afterwards returns the data that was written. *)
Theorem write_then_read h o offset data st s m s' :
  wf (entries s) -> 0 <= file_id o -> 0 <= offset ->
  write h o offset data st s = (Some (Ok m), s') ->
  exists old new attrs,
    contents_at s (file_id o) = Some old /\ contents_at s' (file_id o) = Some new /\
    (forall k, new !! k = byte_after offset data old k) /\
    VfsTypes.after m = Some attrs /\ fa_size attrs = Z.max (zlen old) (offset + zlen data) /\
    getattr o s' = (Some (Ok attrs), s') /\
    read o offset (zlen data) s' = (Some (Ok (mkReadBytesResult data (zlen old <=? offset + zlen data) (Some attrs))), s') /\
    (forall i, 0 <= i -> i <> file_id o -> entry s' i = entry s i).
Proof.
  intros Hw Ho H0 H. destruct (write_ok _ _ _ _ _ _ _ _ H) as (e & old & full & attrs & Hp & Hg & He & Hc & Hpad & Hle & -> & Hsz & ->).
  assert (Hshape := wf_shaped _ _ _ Hw Ho He). pose proof (zlen_nonneg data).
  assert (Hfull := sh_contents _ _ Hshape). rewrite Hc in Hfull. destruct Hfull as (_ & _ & _ & Hmax).
  assert (Hfin : 0 <= offset + zlen data) by lia. destruct (padded_len _ _ _ _ _ Hfin Hmax Hpad) as [Hl Hm].
  assert (Hlen : zlen (overwrite offset data full) = Z.max (zlen old) (offset + zlen data)) by (rewrite overwrite_len; lia).
  set (e' := with_attributes attrs _). set (s0 := mkState (entries s) false (S (ticks s)) (aborted s)).
  assert (He' : entry (set_entry (file_id o) e' s0) (file_id o) = Some e') by (by eapply (entry_set_eq _ e)).
  assert (Hother : forall i, 0 <= i -> i <> file_id o -> entry (set_entry (file_id o) e' s0) i = entry s i) by (intros; by rewrite entry_set_ne).
  assert (Hp' : poisoned (set_entry (file_id o) e' s0) = false) by done. set (s' := set_entry _ _ _) in *. clearbody s'.
  exists old, (overwrite offset data full), attrs. unfold contents_at. rewrite He, He'. simpl. rewrite Hc.
  split_and!; try done.
  - intros k. by eapply write_bytes.
  - by rewrite Hsz.
  - unfold getattr, locked, id. rewrite Hp', Hg. simpl. by rewrite He'.
  - unfold read, locked, id. rewrite Hp', Hg. simpl. rewrite He'. simpl. unfold saturating_add. unfold isize_max, usize_max in *.
    rewrite Z.min_l by lia. rewrite (Z.min_r _ (offset + zlen data)) by lia. rewrite Z.min_l by lia.
    rewrite overwrite_slice by lia. do 3 f_equal. rewrite Hlen. destruct (Z.leb_spec (zlen old) (offset + zlen data)), (Z.eqb_spec (offset + zlen data) (Z.max (zlen old) (offset + zlen data))); by try lia.
Qed.

(** ** Finding what was created *)

(** In a well-formed tree the child of a name is the one with that name. *)
Lemma find_child_iff s i dir cs name e :
  wf (entries s) -> 0 <= i -> entry s i = Some dir -> e_contents dir = Directory cs ->
  find_child s cs name = Some e <-> exists c, c ∈ cs /\ entry s c = Some e /\ e_name e = name.
Proof.
  intros Hw Hi Hd Hc. split; [intros [? (c & ? & ?)]%find_child_some; eauto|]. intros (c & Hin & He & Hn).
  destruct (find_child s cs name) as [e0|] eqn:Hf.
  - apply find_child_some in Hf as [Hn0 (c0 & Hin0 & He0)]. destruct (wf_entries _ Hw _ _ Hd) as [_ Hl].
    assert (c0 = c) as ->; [|unfold entry in He; congruence].
    eapply (lk_names _ _ _ Hl); eauto; unfold slot; [rewrite He0|unfold entry in He; rewrite He]; simpl; by rewrite ?Hn0, ?Hn.
  - exfalso. eapply (find_child_none s cs name c); eauto. unfold slot. fold (entry s c). rewrite He. simpl. by rewrite Hn.
Qed.

Definition is_dot (n : NfsName.t) : bool := bool_decide (NfsName.as_bytes n = dot_name) || bool_decide (NfsName.as_bytes n = dotdot_name).

Lemma lookup_child o name s dir cs :
  poisoned s = false -> generation o = GENERATION -> entry s (file_id o) = Some dir -> e_contents dir = Directory cs -> is_dot name = false ->
  DemoFs.lookup o name s = (Some (ok_or (created <$> find_child s cs (NfsName.as_bytes name)) NfsError.NotFound), s).
Proof.
  intros Hp Hg Hd Hc [H1 H2]%orb_false_iff. unfold DemoFs.lookup, id. rewrite Hg. simpl. unfold locked. rewrite Hp, Hd. simpl.
  by rewrite Hc, H1, H2.
Qed.

(** Creating a name that exists. *)
Lemma create_existing h o name a mode s dir cs e :
  poisoned s = false -> generation o = GENERATION -> entry s (file_id o) = Some dir -> e_contents dir = Directory cs ->
  find_child s cs (NfsName.as_bytes name) = Some e ->
  create h o name a mode s =
    (Some (if match mode with Unchecked => true | Guarded => false | Exclusive v => bool_decide (exclusive_verifier e = Some v) end
           then Ok (mkMutationResult (created e) (Some (wcc (e_attributes dir))) (Some (e_attributes dir))) else Err NfsError.Exists), s).
Proof.
  intros Hp Hg Hd Hc Hf. unfold create, id. rewrite Hg. simpl. unfold locked. rewrite Hp, Hd, Hc, Hf.
  destruct mode; simpl; try done. by case_bool_decide.
Qed.

(** A successful create: the name was there and nothing changed, or it is new. *)
Lemma create_ok h o name a mode s m s' :
  wf (entries s) -> 0 <= file_id o -> NfsName.valid name -> size_ok a -> create h o name a mode s = (Some (Ok m), s') ->
  poisoned s = false /\ generation o = GENERATION /\ exists dir cs,
    entry s (file_id o) = Some dir /\ e_contents dir = Directory cs /\
    ((exists e, find_child s cs (NfsName.as_bytes name) = Some e /\ s' = s /\ value m = created e /\
        forall v, mode = Exclusive v -> exclusive_verifier e = Some v) \/
     find_child s cs (NfsName.as_bytes name) = None /\ exists new dir' tick,
       value m = created new /\ s' = mkState (added (entries s) (Z.to_nat (file_id o)) dir' new) false tick (aborted s) /\
       creates s (file_id o) (NfsName.as_bytes name) mode dir cs new dir').
Proof.
  intros Hw Ho Hn Ha H. assert (Hid : generation o = GENERATION /\ poisoned s = false).
  { unfold create, id in H. destruct (Z.eqb_spec (generation o) GENERATION); [|done]. by apply locked_some in H as [? _]. }
  destruct Hid as [Hg Hp]. split_and!; [done..|]. destruct (entry s (file_id o)) as [dir|] eqn:Hd.
  2: { unfold create, id, locked in H. rewrite Hg in H. simpl in H. by rewrite Hp, Hd in H. }
  destruct (e_contents dir) as [bytes|cs] eqn:Hc.
  { unfold create, id, locked in H. rewrite Hg in H. simpl in H. by rewrite Hp, Hd, Hc in H. }
  exists dir, cs. split_and!; [done..|]. destruct (find_child s cs (NfsName.as_bytes name)) as [e|] eqn:Hf.
  - left. exists e. rewrite (create_existing _ _ _ _ _ _ _ _ _ Hp Hg Hd Hc Hf) in H. destruct mode as [| |v]; simplify_eq; [done|].
    case_bool_decide; simplify_eq. split_and!; try done. by intros v' [= <-].
  - right. split; [done|]. destruct (create_fresh h o name a mode s dir cs) as [(tick & st & E & _)|(new & dir' & tick & E & Hcr)]; try done;
      rewrite E in H; simplify_eq. eauto 8.
Qed.

(** The children by name, through the names and parents alone. *)
Lemma find_child_slot s i dir cs name c :
  wf (entries s) -> 0 <= i -> entry s i = Some dir -> e_contents dir = Directory cs ->
  e_id <$> find_child s cs name = Some c <-> c ∈ cs /\ exists p, slot (entries s) c = Some (name, p).
Proof.
  intros Hw Hi Hd Hc. rewrite fmap_Some. split.
  - intros (e & Hf & ->). apply (find_child_iff _ _ _ _ _ _ Hw Hi Hd Hc) in Hf as (c & Hin & He & Hn).
    destruct (child_entry _ _ _ _ Hw Hi Hd Hc c Hin) as (e0 & He0 & <- & _). rewrite He in He0. injection He0 as <-.
    split; [done|]. exists (e_parent e). unfold slot. fold (entry s (e_id e)). rewrite He. simpl. by rewrite Hn.
  - intros (Hin & p & Hs). destruct (child_entry _ _ _ _ Hw Hi Hd Hc c Hin) as (e & He & Hid & _). exists e. split; [|done].
    apply (find_child_iff _ _ _ _ _ _ Hw Hi Hd Hc). exists c. split_and!; [done..|].
    unfold slot in Hs. fold (entry s c) in Hs. rewrite He in Hs. by injection Hs.
Qed.

(** The directory after a successful create. *)
Lemma created_child h o name a mode s m s' :
  wf (entries s) -> 0 <= file_id o -> NfsName.valid name -> size_ok a -> create h o name a mode s = (Some (Ok m), s') ->
  exists dir cs dir' cs' e,
    poisoned s = false /\ generation o = GENERATION /\ entry s (file_id o) = Some dir /\ e_contents dir = Directory cs /\
    wf (entries s') /\ poisoned s' = false /\ entry s' (file_id o) = Some dir' /\ e_contents dir' = Directory cs' /\
    find_child s' cs' (NfsName.as_bytes name) = Some e /\ value m = created e /\
    (forall v, mode = Exclusive v -> exclusive_verifier e = Some v) /\
    (forall n, n <> NfsName.as_bytes name -> e_id <$> find_child s' cs' n = e_id <$> find_child s cs n).
Proof.
  intros Hw Ho Hn Ha H. destruct (create_ok _ _ _ _ _ _ _ _ Hw Ho Hn Ha H) as (Hp & Hg & dir & cs & Hd & Hc & [Hex|Hnew]).
  { destruct Hex as (e & Hf & -> & Hv & Hex). exists dir, cs, dir, cs, e. by split_and!. }
  destruct Hnew as (Hf & new & dir' & tick & Hv & -> & Hcr).
  set (s' := mkState _ _ _ _).
  assert (Hw' : wf (entries s')) by exact (creates_wf _ _ _ _ _ _ _ _ Hw Ho Hd Hc Hf (valid_named _ Hn) Hcr).
  destruct Hcr as [C1 C2 C3 C4 C5 C6 C7 C8].
  assert (Hd' : entry s' (file_id o) = Some dir') by (by eapply added_dir).
  assert (Hnw : entry s' (zlen (entries s)) = Some new) by (unfold entry; rewrite to_nat_zlen; by eapply added_new).
  assert (Hg' : grows (entries s) (entries s')) by exact (added_grows _ _ _ _ new _ Hd Hc C6 C7).
  assert (Hp' : poisoned s' = false) by done. clearbody s'.
  exists dir, cs, dir', (cs ++ [zlen (entries s)]), new. split_and!; try done.
  - apply (find_child_iff _ _ _ _ _ _ Hw' Ho Hd' C7). exists (zlen (entries s)). split_and!; [set_solver|done..].
  - intros v ->. by rewrite C3.
  - intros n Hne. apply option_eq. intros c.
    rewrite (find_child_slot s' _ _ _ n c Hw' Ho Hd' C7), (find_child_slot s _ _ _ n c Hw Ho Hd Hc), elem_of_app, list_elem_of_singleton.
    split; [intros [[Hin| ->] [p Hs]]|intros [Hin [p Hs]]].
    + split; [done|]. destruct (child_entry _ _ _ _ Hw Ho Hd Hc c Hin) as (e & He & _).
      assert (Hs0 : slot (entries s) c = Some (e_name e, e_parent e)) by (unfold slot; fold (entry s c); by rewrite He).
      pose proof (gr_slot _ _ Hg' _ _ Hs0) as Hs1. simpl in Hs. rewrite Hs1 in Hs. injection Hs as <- _. eauto.
    + exfalso. unfold slot in Hs. fold (entry s' (zlen (entries s))) in Hs. rewrite Hnw in Hs. injection Hs as Hs _. congruence.
    + split; [by left|]. exists p. by apply (gr_slot _ _ Hg').
Qed.

(** The object a lookup finds, or its error. *)
Definition found (o : ObjectKey) (name : NfsName.t) (s : state) : option (result NfsError.t ObjectKey) :=
  (fun r => c ← r; Ok (object c)) <$> (DemoFs.lookup o name s).1.

Lemma found_child o name s dir cs :
  poisoned s = false -> generation o = GENERATION -> entry s (file_id o) = Some dir -> e_contents dir = Directory cs -> is_dot name = false ->
  found o name s = Some (ok_or (key <$> (e_id <$> find_child s cs (NfsName.as_bytes name))) NfsError.NotFound).
Proof.
  intros Hp Hg Hd Hc Hdot. unfold found. rewrite (lookup_child _ _ _ _ _ Hp Hg Hd Hc Hdot). simpl. by destruct (find_child _ _ _).
Qed.


(** ** Listing a directory *)

(** A client that follows the cookies from page to page until the end. *)
Fixpoint list_directory (fuel : nat) (o : ObjectKey) (cookie : Z) (hint : Z) (s : state) : option (list DirectoryEntry) :=
  match fuel with
  | O => None
  | S fuel =>
      match (readdir o cookie READDIR_VERIFIER hint s).1 with
      | Some (Ok page) =>
          if page_eof page then Some (page_entries page)
          else e ← last (page_entries page); rest ← list_directory fuel o (de_cookie e) hint s; Some (page_entries page ++ rest)
      | _ => None
      end
  end.

Section Listing.
Context (s : state) (o : ObjectKey) (dir : Entry) (cs : list Z) (hint : Z).
Context (Hwf : wf (entries s)) (Hp : poisoned s = false) (Ho : 0 <= file_id o) (Hg : generation o = GENERATION).
Context (Hdir : entry s (file_id o) = Some dir) (Hcs : e_contents dir = Directory cs) (Hlen : zlen cs <= usize_max).

Lemma readdir_page k :
  readdir o (Z.of_nat k) READDIR_VERIFIER hint s =
    let page := take (Z.to_nat (Z.max hint 1)) (drop k (listing s cs)) in
    (Some (Ok (mkReadDirectoryPage READDIR_VERIFIER page (zlen cs <=? Z.of_nat k + zlen page))), s).
Proof using All.
  unfold readdir. rewrite (bool_decide_eq_true_2 (READDIR_VERIFIER = _)) by done. rewrite andb_false_r. unfold locked, id.
  rewrite Hp, Hg. simpl. rewrite Hdir. simpl. rewrite Hcs, (page_listing _ _ _ _ Hwf Ho Hdir Hcs), Nat2Z.id. simpl.
  unfold saturating_add. do 4 f_equal. apply Bool.eq_iff_eq_true. rewrite !Z.leb_le. lia.
Qed.

Lemma listing_cookie k e : listing s cs !! k = Some e -> de_cookie e = Z.of_nat k + 1.
Proof using All.
  intros He. assert (Hk : (k < length cs)%nat) by (rewrite <-(length_listing s _ _ _ Hwf Ho Hdir Hcs); by eapply lookup_lt_Some).
  destruct (lookup_lt_is_Some_2 _ _ Hk) as [c Hc].
  destruct (child_entry _ _ _ _ Hwf Ho Hdir Hcs c) as (x & Hx & _); [by eapply list_elem_of_lookup_2|].
  rewrite (listing_lookup _ _ _ _ Hwf Ho Hdir Hcs _ _ _ Hc Hx) in He. by injection He as <-.
Qed.

Lemma list_from fuel k :
  (k <= length cs)%nat -> (length cs - k < fuel)%nat -> list_directory fuel o (Z.of_nat k) hint s = Some (drop k (listing s cs)).
Proof using All.
  assert (Hll := length_listing s _ _ _ Hwf Ho Hdir Hcs). assert (Hck := listing_cookie). assert (Hpg := readdir_page).
  revert k. induction fuel as [|fuel IH]; intros k Hk Hf; [lia|]. simpl. rewrite Hpg. simpl.
  set (n := Z.to_nat (Z.max hint 1)). assert (Hn : (1 <= n)%nat) by lia. clearbody n.
  assert (Hz : zlen (take n (drop k (listing s cs))) = Z.of_nat (n `min` (length cs - k))) by (unfold zlen; rewrite length_take, length_drop, Hll; lia).
  rewrite Hz. unfold zlen. destruct (Z.leb_spec (Z.of_nat (length cs)) (Z.of_nat k + Z.of_nat (n `min` (length cs - k)))).
  - rewrite take_ge by (rewrite length_drop, Hll; lia). done.
  - assert (Hnk : (n < length cs - k)%nat) by lia.
    destruct (lookup_lt_is_Some_2 (listing s cs) (k + (n - 1))) as [e He]; [rewrite Hll; lia|].
    assert (Hlast : last (take n (drop k (listing s cs))) = Some e).
    { rewrite last_lookup, length_take, length_drop, Hll, Nat.min_l by lia. rewrite lookup_take_lt, lookup_drop by lia. rewrite <-He. f_equal. lia. }
    rewrite Hlast. simpl. rewrite (Hck _ _ He). replace (Z.of_nat (k + (n - 1)) + 1) with (Z.of_nat (k + n)) by lia.
    rewrite IH by lia. simpl. by rewrite <-drop_drop, take_drop.
Qed.
End Listing.

(** Whatever page size it asks for, a client that follows the cookies from
    zero to the end lists the directory completely: one entry per child, in order,
    with the child's id, name and attributes, and no two of the same name. *)
Lemma readdir_lists_all s o dir cs hint :
  wf (entries s) -> poisoned s = false -> 0 <= file_id o -> generation o = GENERATION ->
  entry s (file_id o) = Some dir -> e_contents dir = Directory cs -> zlen cs <= usize_max ->
  exists l,
    list_directory (S (length cs)) o 0 hint s = Some l /\ de_file_id <$> l = cs /\ NoDup (de_file_id <$> l) /\ NoDup (de_name <$> l) /\
    Forall (fun d => exists e, entry s (de_file_id d) = Some e /\ NfsName.as_bytes (de_name d) = e_name e /\
                               de_object d = key (de_file_id d) /\ de_attributes d = Some (e_attributes e)) l.
Proof.
  intros Hwf Hp Ho Hg Hd Hc Hlen. exists (listing s cs).
  assert (Hll := length_listing s _ _ _ Hwf Ho Hd Hc).
  assert (Hat : forall n d, listing s cs !! n = Some d -> exists c e, cs !! n = Some c /\ entry s c = Some e /\ e_id e = c /\ d = dirent e n).
  { intros n d Hn. destruct (lookup_lt_is_Some_2 cs n) as [c Hcn]; [rewrite <-Hll; by eapply lookup_lt_Some|].
    destruct (child_entry _ _ _ _ Hwf Ho Hd Hc c) as (e & He & Hid & _); [by eapply list_elem_of_lookup_2|].
    rewrite (listing_lookup _ _ _ _ Hwf Ho Hd Hc _ _ _ Hcn He) in Hn. injection Hn as <-. eauto 6. }
  assert (Hids : de_file_id <$> listing s cs = cs).
  { apply list_eq_same_length with (length cs); [done|by rewrite length_fmap|]. intros n x y _ Hx Hy.
    rewrite list_lookup_fmap in Hx. apply fmap_Some in Hx as (d & Hx & ->). destruct (Hat _ _ Hx) as (c & e & ? & _ & Hid & ->). simpl. congruence. }
  destruct (wf_entries _ Hwf _ _ Hd) as [_ Hl]. destruct (lk_down _ _ _ Hl _ Hc) as [Hnd _].
  split_and!; [by apply (list_from _ _ _ _ _ Hwf Hp Ho Hg Hd Hc Hlen _ 0); lia|done|by rewrite Hids| |].
  - apply NoDup_alt. intros i j x Hi Hj. rewrite list_lookup_fmap in Hi, Hj.
    apply fmap_Some in Hi as (d1 & Hi & ->), Hj as (d2 & Hj & Hx).
    destruct (Hat _ _ Hi) as (c1 & e1 & Hc1 & He1 & Hid1 & ->), (Hat _ _ Hj) as (c2 & e2 & Hc2 & He2 & Hid2 & ->).
    injection Hx as Hx. assert (c1 = c2) as <-; [|by eapply NoDup_lookup].
    eapply (lk_names _ _ _ Hl cs c1 c2 (e_name e1) (e_parent e1) (e_parent e2)); eauto using list_elem_of_lookup_2; unfold slot.
    + fold (entry s c1). by rewrite He1.
    + fold (entry s c2). rewrite He2. simpl. by rewrite Hx.
  - apply Forall_lookup. intros n d Hn. destruct (Hat _ _ Hn) as (c & e & _ & He & <- & ->). exists e. done.
Qed.

(** ** Corner cases *)

(** A size above [isize::MAX] panics while the lock is held, and from then on every
    operation on an object panics. *)
Theorem oversized_size_poisons h o a n s e bytes :
  poisoned s = false -> generation o = GENERATION -> entry s (file_id o) = Some e -> e_contents e = File bytes ->
  aborted s = false -> zlen bytes <= isize_max -> sa_size a = Some n -> isize_max < n ->
  exists s', setattr h o a None s = (None, s') /\ forall k, getattr k s' = (None, s').
Proof.
  intros Hp Hg He Hc Hup Hb Ha Hn. unfold setattr, locked, id. rewrite Hp, Hg. simpl. rewrite He. simpl. unfold apply_attributes.
  rewrite Ha. unfold with_attributes at 1. simpl. rewrite Hc. unfold DemoFs.resize.
  rewrite (proj2 (Z.leb_gt _ _)), (proj2 (Z.ltb_lt _ _) Hn) by lia. simpl. rewrite Hup. eexists. split; [reflexivity|]. done.
Qed.

(** A clock that counts its readings, and an allocator that grants up to a gigabyte. *)
Definition ticking : host := mkHost (fun n => mkNfsTime (Z.of_nat n) 0) (fun _ n => n <=? 2 ^ 30).
Definition sample_fs : state := default_fs ticking.
Definition sample_client : RequestContext := mkRequestContext (Principal.AuthSys 0 0 [] []) (mkSocketAddr (V4 1) 700) 1.
Definition truncate_to (n : Z) : SetAttributes := mkSetAttributes None None None (Some n) None None.

Example oversized_size_poisons_witness :
  exists s', setattr ticking (key 2) (truncate_to (2 ^ 63)) None sample_fs = (None, s') /\ forall k, getattr k s' = (None, s').
Proof. by eapply (oversized_size_poisons ticking (key 2) (truncate_to (2 ^ 63)) (2 ^ 63) sample_fs). Defined.

(** A size whose memory cannot be had ends the process, and with it every later
    request. *)
Example oversized_size_aborts :
  let '(r, s') := demo ticking (VfsOp.setattr sample_client (key 2) (truncate_to (2 ^ 62)) None) sample_fs in
  r = None /\ aborted s' = true /\ (demo ticking (VfsOp.root) s').1 = None.
Proof. done. Qed.

(** A SETATTR that is refused because it names the size of a directory has already
    changed the mode. *)
Example refused_setattr_changes_mode :
  let '(r, s') := setattr ticking (key 4) (mkSetAttributes (Some 0) None None (Some 10) None None) None sample_fs in
  r = Some (Err NfsError.Invalid) /\ (fa_mode ∘ e_attributes) <$> entry sample_fs 4 = Some 511 /\
  (fa_mode ∘ e_attributes) <$> entry s' 4 = Some 0.
Proof. done. Qed.

(** ** The claims at work *)

Definition plain : SetAttributes := mkSetAttributes (Some 420) None None None None None.
Definition notes : NfsName.t := NfsName.mk (text [0x6e]).

Lemma demo_fs_serves_witness :
  let s := served ticking [VfsOp.create sample_client (key 4) notes plain Guarded; VfsOp.write sample_client (key 6) 3 notes.(NfsName.as_bytes) WriteStability.FileSync] sample_fs in
  wf (entries s) /\ is_Some (demo ticking (VfsOp.readdir sample_client (key 4) 0 READDIR_VERIFIER 1) s).1 /\
  contents_at s 6 = Some [Byte.x00; Byte.x00; Byte.x00; Byte.x6e].
Proof.
  pose proof (demo_fs_serves ticking
    [VfsOp.create sample_client (key 4) notes plain Guarded; VfsOp.write sample_client (key 6) 3 notes.(NfsName.as_bytes) WriteStability.FileSync]
    (VfsOp.readdir sample_client (key 4) 0 READDIR_VERIFIER 1)) as H.
  destruct H as (H1 & _ & _ & Hr & _).
  - repeat constructor; simpl; try lia; try done; by refine (bool_decide_unpack _ _); vm_compute.
  - repeat constructor; by vm_compute.
  - split_and!; [exact H1|apply Hr; by vm_compute|by vm_compute].
Defined.

Lemma write_then_read_witness :
  exists m s', write ticking (key 2) 14 (text [1; 2]) WriteStability.Unstable sample_fs = (Some (Ok m), s') /\
  exists attrs, read (key 2) 14 2 s' = (Some (Ok (mkReadBytesResult (text [1; 2]) true (Some attrs))), s') /\ fa_size attrs = 16.
Proof.
  destruct (write ticking (key 2) 14 (text [1; 2]) WriteStability.Unstable sample_fs) as [r s'] eqn:E.
  assert (exists m, r = Some (Ok m)) as [m ->] by (vm_compute in E; injection E as <- _; eauto). exists m, s'. split; [done|].
  destruct (write_then_read ticking (key 2) 14 (text [1; 2]) WriteStability.Unstable sample_fs m s')
    as (old & new & attrs & Hold & _ & _ & _ & Hsz & _ & Hr & _); [apply default_wf|by vm_compute|by vm_compute|done|].
  exists attrs. vm_compute in Hold. injection Hold as <-. by vm_compute in Hsz.
Defined.


