(* ===== verification/MirrorMap.v ===== *)
(** * [examples/mirrorfs.rs]: the identities of the mirrored files

    [FsMap] gives every path below the mirrored directory that a client has seen a
    number, through a table from numbers to paths and a reverse index, and keeps
    the verifiers of exclusive creates. The unix build is modelled: the key of a
    path is the path. Hash maps iterate in an unspecified order, which is the
    parameter [order]. The theorems show that the three tables together are an
    injective map from numbers to paths that intern, remove and rename update as
    one expects. *)
From S2P Require Import Prelude VfsTypes.
From stdpp Require Import list gmap sets.
#[local] Open Scope Z_scope.

Definition ROOT_ID : Z := 1.
Definition GENERATION : Z := 1.

(** Unix: an [OsString] is its bytes, and the key of a relative path the path. *)
Abbreviation OsString := (list byte).
Abbreviation Relative := (list OsString).
Abbreviation RelativeKey := Relative.
Abbreviation Bucket := (list (Relative * list byte)).

Record FsMap : Type := mkFsMap {
  root : list byte;
  next_file_id : Z;
  id_to_relative : gmap Z Relative;
  id_to_key : gmap Z RelativeKey;
  relative_to_id : gmap RelativeKey (list Z);
  exclusive_verifiers : gmap RelativeKey Bucket
}.

Definition relative_key (r : Relative) : result NfsError.t RelativeKey := Ok r.
Definition relative_eq (a b : Relative) : bool := bool_decide (a = b).
Definition starts_with (r prefix : Relative) : bool := bool_decide (prefix `prefix_of` r).
Definition relative_starts_with (r prefix : Relative) : bool := starts_with r prefix.
Definition nfs_name_to_os_string (name : NfsName.t) : result NfsError.t OsString := Ok (NfsName.as_bytes name).

Definition new (root : list byte) : FsMap :=
  mkFsMap root (ROOT_ID + 1) {[ROOT_ID := []]} {[ROOT_ID := []]} {[[] := [ROOT_ID]]} ∅.

Definition relative (m : FsMap) (o : ObjectKey) : result NfsError.t Relative :=
  if negb (generation o =? GENERATION) then Err NfsError.Stale
  else ok_or (id_to_relative m !! file_id o) NfsError.Stale.

(** [PathBuf::push]: an absolute component replaces the path. *)
Definition push (path : list byte) (component : OsString) : list byte :=
  match component with
  | Byte.x2f :: _ => component
  | _ => match last path with
         | Some b => if bool_decide (b = Byte.x2f) then path ++ component else path ++ Byte.x2f :: component
         | None => component
         end
  end.
Definition extend (path : list byte) (r : Relative) : list byte := fold_left push r path.
Definition path (m : FsMap) (r : Relative) : list byte := extend (root m) r.

Definition child_relative (m : FsMap) (parent : ObjectKey) (name : NfsName.t) : result NfsError.t Relative :=
  r ← relative m parent; c ← nfs_name_to_os_string name; Ok (r ++ [c]).

(** [entry(key).or_default().push(x)] *)
Definition push_entry {A} (key : RelativeKey) (x : A) (t : gmap RelativeKey (list A)) : gmap RelativeKey (list A) :=
  <[key := default [] (t !! key) ++ [x]]> t.

(** [intern]; the counter would overflow after 2^64 paths. *)
Definition intern (r : Relative) (m : FsMap) : result NfsError.t Z * FsMap :=
  match relative_key r with
  | Err e => (Err e, m)
  | Ok key =>
      match List.find (fun i => match id_to_relative m !! i with Some c => relative_eq c r | None => false end)
              (default [] (relative_to_id m !! key)) with
      | Some file_id => (Ok file_id, m)
      | None =>
          let file_id := next_file_id m in
          (Ok file_id,
           mkFsMap (root m) (file_id + 1) (<[file_id := r]> (id_to_relative m)) (<[file_id := key]> (id_to_key m))
             (push_entry key file_id (relative_to_id m)) (exclusive_verifiers m))
      end
  end.

Definition remove_indexed_id (key : RelativeKey) (file_id : Z) (t : gmap RelativeKey (list Z)) : gmap RelativeKey (list Z) :=
  match t !! key with
  | Some ids =>
      let ids := List.filter (fun c => negb (c =? file_id)) ids in
      if bool_decide (ids = []) then delete key t else <[key := ids]> t
  | None => t
  end.

Definition forget_id (m : FsMap) (file_id : Z) : FsMap :=
  mkFsMap (root m) (next_file_id m) (delete file_id (id_to_relative m)) (delete file_id (id_to_key m))
    (match id_to_key m !! file_id with Some key => remove_indexed_id key file_id (relative_to_id m) | None => relative_to_id m end)
    (exclusive_verifiers m).

Section Iterating.
Context (order : gmap Z RelativeKey -> list (Z * RelativeKey)).

(** The entries below a prefix, as [forget_prefix] and [move_prefix] select them. *)
Definition below (m : FsMap) (prefix : Relative) (prefix_key : RelativeKey) : list (Z * RelativeKey) :=
  List.filter (fun '(file_id, key) =>
    starts_with key prefix_key &&
    match id_to_relative m !! file_id with Some r => relative_starts_with r prefix | None => false end) (order (id_to_key m)).

(** [exclusive_verifiers.retain(..)] *)
Definition retain_verifiers (prefix : Relative) (prefix_key : RelativeKey) (t : gmap RelativeKey Bucket) : gmap RelativeKey Bucket :=
  map_imap (fun key verifiers =>
    let verifiers := if starts_with key prefix_key then List.filter (fun '(r, _) => negb (relative_starts_with r prefix)) verifiers else verifiers in
    if bool_decide (verifiers = []) then None else Some verifiers) t.

Definition forget_ids (forgotten : list (Z * RelativeKey)) (m : FsMap) : FsMap :=
  fold_left (fun m '(file_id, _) => forget_id m file_id) forgotten m.

Definition forget_prefix (prefix : Relative) (m : FsMap) : result NfsError.t unit * FsMap :=
  match relative_key prefix with
  | Err e => (Err e, m)
  | Ok prefix_key =>
      let m := forget_ids (below m prefix prefix_key) m in
      (Ok tt, mkFsMap (root m) (next_file_id m) (id_to_relative m) (id_to_key m) (relative_to_id m)
                (retain_verifiers prefix prefix_key (exclusive_verifiers m)))
  end.

Definition exclusive_verifier (m : FsMap) (r : Relative) : result NfsError.t (option (list byte)) :=
  key ← relative_key r;
  Ok (bucket ← exclusive_verifiers m !! key; snd <$> List.find (fun '(c, _) => relative_eq c r) bucket).

Definition remember_exclusive_verifier (r : Relative) (verifier : list byte) (m : FsMap) : result NfsError.t unit * FsMap :=
  match relative_key r with
  | Err e => (Err e, m)
  | Ok key =>
      let bucket := List.filter (fun '(c, _) => negb (relative_eq c r)) (default [] (exclusive_verifiers m !! key)) in
      (Ok tt, mkFsMap (root m) (next_file_id m) (id_to_relative m) (id_to_key m) (relative_to_id m)
                (<[key := bucket ++ [(r, verifier)]]> (exclusive_verifiers m)))
  end.

(** The last removed verifier is the one returned. *)
Definition take_exclusive_verifier (key : RelativeKey) (r : Relative) (t : gmap RelativeKey Bucket)
    : option (list byte) * gmap RelativeKey Bucket :=
  match t !! key with
  | Some verifiers =>
      let taken := snd <$> last (List.filter (fun '(c, _) => relative_eq c r) verifiers) in
      let verifiers := List.filter (fun '(c, _) => negb (relative_eq c r)) verifiers in
      (taken, if bool_decide (verifiers = []) then delete key t else <[key := verifiers]> t)
  | None => (None, t)
  end.

(** One round of the loop of [move_prefix]. *)
Definition move_id (from to : Relative) (from_key to_key : RelativeKey) (file_id : Z) (old_key : RelativeKey) (m : FsMap)
    : result NfsError.t unit * FsMap :=
  match id_to_relative m !! file_id with
  | None => (Err NfsError.Stale, m)
  | Some old_relative =>
      let new_relative := to ++ drop (length from) old_relative in
      let new_key := to_key ++ drop (length from_key) old_key in
      let '(taken, verifiers) := take_exclusive_verifier old_key old_relative (exclusive_verifiers m) in
      (Ok tt, mkFsMap (root m) (next_file_id m) (<[file_id := new_relative]> (id_to_relative m)) (<[file_id := new_key]> (id_to_key m))
        (push_entry new_key file_id (remove_indexed_id old_key file_id (relative_to_id m)))
        (match taken with Some v => push_entry new_key (new_relative, v) verifiers | None => verifiers end))
  end.

Fixpoint move_ids (from to : Relative) (from_key to_key : RelativeKey) (moved : list (Z * RelativeKey)) (m : FsMap)
    : result NfsError.t unit * FsMap :=
  match moved with
  | [] => (Ok tt, m)
  | (file_id, old_key) :: moved =>
      match move_id from to from_key to_key file_id old_key m with
      | (Ok _, m) => move_ids from to from_key to_key moved m
      | r => r
      end
  end.

Definition move_prefix (from to : Relative) (m : FsMap) : result NfsError.t unit * FsMap :=
  match relative_key from, relative_key to with
  | Err e, _ | _, Err e => (Err e, m)
  | Ok from_key, Ok to_key =>
      match (if negb (relative_eq from to) then forget_prefix to m else (Ok tt, m)) with
      | (Err e, m) => (Err e, m)
      | (Ok _, m) => move_ids from to from_key to_key (below m from from_key) m
      end
  end.
End Iterating.

(** ** The specification: an injective map from numbers to paths *)

Record Names : Type := mkNames { next : Z; paths : gmap Z Relative; verifiers : gmap Relative (list byte) }.

(** The tables represent a map. *)
Record represents (m : FsMap) (a : Names) : Prop := {
  rp_next : next_file_id m = next a;
  rp_relative : id_to_relative m = paths a;
  rp_key : id_to_key m = paths a;
  rp_index i r : paths a !! i = Some r -> relative_to_id m !! r = Some [i];
  rp_indexed r ids : relative_to_id m !! r = Some ids -> exists i, ids = [i] /\ paths a !! i = Some r;
  rp_verifiers r : exclusive_verifiers m !! r = (fun v => [(r, v)]) <$> verifiers a !! r;
  rp_fresh i r : paths a !! i = Some r -> i < next a
}.

Lemma represents_inj m a i j r : represents m a -> paths a !! i = Some r -> paths a !! j = Some r -> i = j.
Proof. intros H Hi Hj. pose proof (rp_index _ _ H _ _ Hi). pose proof (rp_index _ _ H _ _ Hj). congruence. Qed.

Lemma represents_start dir : represents (new dir) (mkNames (ROOT_ID + 1) {[ROOT_ID := []]} ∅).
Proof.
  split; simpl; try done.
  - intros i r [<- <-]%lookup_singleton_Some. apply lookup_singleton_eq.
  - intros r ids [<- <-]%lookup_singleton_Some. exists ROOT_ID. split; [done|]. apply lookup_singleton_eq.
  - intros i r [<- _]%lookup_singleton_Some. unfold ROOT_ID. lia.
Qed.

(** *** Interning *)

Inductive interned (r : Relative) (a : Names) : Z -> Names -> Prop :=
| known i : paths a !! i = Some r -> interned r a i a
| fresh : (forall j, paths a !! j <> Some r) -> interned r a (next a) (mkNames (next a + 1) (<[next a := r]> (paths a)) (verifiers a)).

Lemma intern_refines r m a : represents m a ->
  exists i a', interned r a i a' /\ (intern r m).1 = Ok i /\ represents (intern r m).2 a'.
Proof.
  intros H. unfold intern. simpl. destruct (relative_to_id m !! r) as [ids|] eqn:Hr.
  - destruct (rp_indexed _ _ H _ _ Hr) as (i & -> & Hi). simpl. rewrite (rp_relative _ _ H). rewrite Hi. unfold relative_eq.
    rewrite bool_decide_eq_true_2 by done. exists i, a. split; [by constructor|done].
  - simpl. rewrite (rp_next _ _ H). assert (Hno : forall j, paths a !! j <> Some r).
    { intros j Hj. by rewrite (rp_index _ _ H _ _ Hj) in Hr. }
    eexists _, _. split; [by constructor|]. split; [done|]. destruct H as [H1 H2 H3 H4 H5 H6 H7].
    unfold push_entry. rewrite Hr. simpl. split; simpl; try done.
    + by rewrite H2.
    + by rewrite H3.
    + intros i r' [[<- <-]|[Hne Hi]]%lookup_insert_Some; [apply lookup_insert_eq|].
      rewrite lookup_insert_ne by (intros <-; by apply (Hno i)). auto.
    + intros r' ids [[<- <-]|[Hne Hi]]%lookup_insert_Some.
      * exists (next a). split; [done|]. apply lookup_insert_eq.
      * destruct (H5 _ _ Hi) as (i & -> & Hp). exists i. split; [done|]. rewrite lookup_insert_ne; [done|].
        intros <-. specialize (H7 _ _ Hp). lia.
    + intros i r' [[<- <-]|[Hne Hi]]%lookup_insert_Some; [lia|]. specialize (H7 _ _ Hi). lia.
Qed.

(** *** Forgetting *)

Definition drop_id (a : Names) (i : Z) : Names := mkNames (next a) (delete i (paths a)) (verifiers a).

Lemma remove_indexed_single m a i r r' : represents m a -> paths a !! i = Some r ->
  remove_indexed_id r i (relative_to_id m) !! r' = if bool_decide (r' = r) then None else relative_to_id m !! r'.
Proof.
  intros H Hi. unfold remove_indexed_id. rewrite (rp_index _ _ H _ _ Hi). simpl. rewrite Z.eqb_refl. simpl.
  case_bool_decide as Hr; [subst; apply lookup_delete_eq|by apply lookup_delete_ne].
Qed.

Lemma forget_id_refines m a i : represents m a -> represents (forget_id m i) (drop_id a i).
Proof.
  intros H. unfold forget_id. rewrite (rp_key _ _ H). destruct (paths a !! i) as [r|] eqn:Hi.
  - pose proof (fun r' => remove_indexed_single _ _ _ _ r' H Hi) as Hrm. assert (Hinj := fun j => represents_inj _ _ i j r H Hi).
    destruct H as [H1 H2 H3 H4 H5 H6 H7]. split; simpl; try done.
    + by rewrite H2.
    + intros j r' [Hne Hj]%lookup_delete_Some. rewrite Hrm, bool_decide_eq_false_2; [auto|]. intros ->. by apply Hne, Hinj.
    + intros r' ids. rewrite Hrm. case_bool_decide as Hr; [done|]. intros Hids. destruct (H5 _ _ Hids) as (j & -> & Hj). exists j. split; [done|].
      rewrite lookup_delete_ne; [done|]. intros <-. congruence.
    + intros j r' [_ Hj]%lookup_delete_Some. eauto.
  - destruct H as [H1 H2 H3 H4 H5 H6 H7]. rewrite H2. unfold drop_id. rewrite !delete_id by done. split; simpl; done.
Qed.

(** Hash maps iterate over all entries, in any order. *)
Class AnyOrder (order : gmap Z RelativeKey -> list (Z * RelativeKey)) : Prop := order_perm t : order t ≡ₚ map_to_list t.

(** The map without the paths below a prefix. *)
Definition cleared (prefix : Relative) (a : Names) : Names :=
  mkNames (next a) (filter (fun x => ~ prefix `prefix_of` x.2) (paths a)) (filter (fun x => ~ prefix `prefix_of` x.1) (verifiers a)).

Definition drop_ids (l : list (Z * Relative)) (a : Names) : Names := fold_left (fun a '(i, _) => drop_id a i) l a.

Section Order.
Context (order : gmap Z RelativeKey -> list (Z * RelativeKey)) {Horder : AnyOrder order}.

Lemma below_spec m a prefix i k : represents m a ->
  (i, k) ∈ below order m prefix prefix <-> paths a !! i = Some k /\ prefix `prefix_of` k.
Proof.
  intros H. unfold below. rewrite list_elem_of_In, filter_In, <-list_elem_of_In, (order_perm (id_to_key m)), elem_of_map_to_list, (rp_key _ _ H).
  split.
  - intros [Hi [Hk _]%andb_true_iff]. by apply bool_decide_eq_true in Hk.
  - intros [Hi Hk]. rewrite (rp_relative _ _ H), Hi. unfold relative_starts_with, starts_with. by rewrite bool_decide_eq_true_2.
Qed.

Lemma below_NoDup m prefix : NoDup (below order m prefix prefix).*1.
Proof.
  unfold below. assert (Hn : NoDup (order (id_to_key m)).*1) by (rewrite (order_perm (id_to_key m)); apply NoDup_fst_map_to_list).
  revert Hn. induction (order (id_to_key m)) as [|[i k] l IH]; simpl; [done|]. intros [Hi Hn]%NoDup_cons.
  destruct (_ && _); [|auto]. simpl. constructor; [|auto]. intros Hin. apply Hi. apply list_elem_of_fmap in Hin as ([i' k'] & Hx & Hin).
  apply list_elem_of_In, filter_In in Hin as [Hin _]. apply list_elem_of_fmap. exists (i', k'). split; [done|]. by apply list_elem_of_In.
Qed.

Lemma forget_ids_refines l m a : represents m a ->
  represents (forget_ids l m) (drop_ids l a).
Proof. revert m a. induction l as [|[i k] l IH]; intros m a H; simpl; [done|]. by apply IH, forget_id_refines. Qed.

Lemma drop_ids_spec l (a : Names) :
  next (drop_ids l a) = next a /\ verifiers (drop_ids l a) = verifiers a /\
  forall j, paths (drop_ids l a) !! j = if bool_decide (j ∈ l.*1) then None else paths a !! j.
Proof.
  revert a. induction l as [|[i k] l IH]; intros a; simpl; [done|]. destruct (IH (drop_id a i)) as (-> & -> & Hj). split_and!; [done..|].
  intros j. rewrite Hj. simpl. destruct (decide (j = i)) as [->|Hne].
  - rewrite lookup_delete_eq. rewrite (bool_decide_eq_true_2 (i ∈ i :: _)) by set_solver. by case_bool_decide.
  - rewrite lookup_delete_ne by done. case_bool_decide as H1; case_bool_decide as H2; try done; set_solver.
Qed.

Lemma retain_refines m a prefix r : represents m a ->
  retain_verifiers prefix prefix (exclusive_verifiers m) !! r = (fun v => [(r, v)]) <$> verifiers (cleared prefix a) !! r.
Proof.
  intros H. unfold retain_verifiers, cleared. cbn [verifiers]. rewrite map_lookup_imap, (rp_verifiers _ _ H), map_lookup_filter.
  destruct (verifiers a !! r) as [v|]; [|done]. simpl. unfold relative_starts_with, starts_with. simpl.
  destruct (decide (prefix `prefix_of` r)) as [Hp|Hp].
  - rewrite (bool_decide_eq_true_2 _ Hp). simpl. by case_guard.
  - rewrite (bool_decide_eq_false_2 _ Hp). simpl. by case_guard.
Qed.

Lemma forget_prefix_refines prefix m a : represents m a ->
  (forget_prefix order prefix m).1 = Ok tt /\ represents (forget_prefix order prefix m).2 (cleared prefix a).
Proof.
  intros H. unfold forget_prefix. simpl. split; [done|]. set (l := below order m prefix prefix).
  assert (Hf := forget_ids_refines l _ _ H). destruct (drop_ids_spec l a) as (Hn & Hv & Hp).
  assert (Hpaths : paths (drop_ids l a) = paths (cleared prefix a)).
  { apply map_eq. intros j. rewrite Hp. simpl. rewrite map_lookup_filter. case_bool_decide as Hj.
    - apply list_elem_of_fmap in Hj as ([j' k] & -> & Hin). apply (below_spec _ _ _ _ _ H) in Hin as [Hj Hk]. simpl. rewrite Hj. simpl.
      rewrite option_guard_False; [done|]. naive_solver.
    - destruct (paths a !! j) as [r|] eqn:Hr; [|done]. simpl. rewrite option_guard_True; [done|]. simpl. intros Hk. apply Hj.
      apply list_elem_of_fmap. exists (j, r). split; [done|]. by apply (below_spec _ _ _ _ _ H). }
  destruct Hf as [F1 F2 F3 F4 F5 F6 F7]. rewrite Hpaths in *. rewrite Hn in *.
  assert (Hev : exclusive_verifiers (forget_ids l m) = exclusive_verifiers m).
  { clear. clearbody l. revert m. induction l as [|[i k] l IH]; intros m; simpl; [done|]. by rewrite IH. }
  split; simpl; try done. intros r. rewrite Hev. by apply retain_refines.
Qed.
End Order.

(** *** Moving *)

Section Moving.
Context (from to : Relative).
Definition reroot (k : Relative) : Relative := to ++ drop (length from) k.

Definition move_name (a : Names) (i : Z) (k : Relative) : Names :=
  mkNames (next a) (<[i := reroot k]> (paths a))
    (match verifiers a !! k with Some v => <[reroot k := v]> (delete k (verifiers a)) | None => verifiers a end).

Lemma move_verifier m a k : represents m a -> verifiers a !! reroot k = None \/ reroot k = k ->
  let '(taken, t) := take_exclusive_verifier k k (exclusive_verifiers m) in
  forall r, match taken with Some v => push_entry (reroot k) (reroot k, v) t | None => t end !! r =
    (fun v => [(r, v)]) <$> match verifiers a !! k with Some v => <[reroot k := v]> (delete k (verifiers a)) | None => verifiers a end !! r.
Proof.
  intros H Hfree. unfold take_exclusive_verifier. rewrite (rp_verifiers _ _ H). destruct (verifiers a !! k) as [v|] eqn:Hk; simpl.
  - unfold relative_eq. rewrite bool_decide_eq_true_2 by done. simpl. intros r. unfold push_entry.
    assert (delete k (exclusive_verifiers m) !! reroot k = None) as ->.
    { destruct Hfree as [Hv| ->]; [|apply lookup_delete_eq]. apply lookup_delete_None. right. by rewrite (rp_verifiers _ _ H), Hv. }
    simpl. destruct (decide (r = reroot k)) as [->|Hne]; [by rewrite !lookup_insert_eq|]. rewrite !lookup_insert_ne by done.
    destruct (decide (r = k)) as [->|Hne']; [by rewrite !lookup_delete_eq|]. rewrite !lookup_delete_ne by done. apply (rp_verifiers _ _ H).
  - intros r. apply (rp_verifiers _ _ H).
Qed.

Lemma move_index m a i k : represents m a -> paths a !! i = Some k -> (forall j, paths a !! j = Some (reroot k) -> j = i) ->
  push_entry (reroot k) i (remove_indexed_id k i (relative_to_id m)) = <[reroot k := [i]]> (delete k (relative_to_id m)).
Proof.
  intros H Hi Hfree. unfold push_entry. rewrite (remove_indexed_single _ _ _ _ (reroot k) H Hi).
  assert ((if bool_decide (reroot k = k) then None else relative_to_id m !! reroot k) = None) as ->.
  { case_bool_decide as Hk; [done|]. destruct (relative_to_id m !! reroot k) as [ids|] eqn:Hids; [|done].
    destruct (rp_indexed _ _ H _ _ Hids) as (j & _ & Hj). rewrite (Hfree j Hj) in Hj. congruence. }
  simpl. f_equal. apply map_eq. intros r. rewrite (remove_indexed_single _ _ _ _ r H Hi). case_bool_decide as Hr.
  - by rewrite Hr, lookup_delete_eq.
  - by rewrite lookup_delete_ne.
Qed.

Lemma move_id_refines m a i k : represents m a -> paths a !! i = Some k ->
  (forall j, paths a !! j = Some (reroot k) -> j = i) -> verifiers a !! reroot k = None \/ reroot k = k ->
  (move_id from to from to i k m).1 = Ok tt /\ represents (move_id from to from to i k m).2 (move_name a i k).
Proof.
  intros H Hi Hfree Hv. unfold move_id. rewrite (rp_relative _ _ H), Hi. fold (reroot k). pose proof (move_verifier _ _ k H Hv) as Hmv.
  destruct (take_exclusive_verifier k k (exclusive_verifiers m)) as [taken t]. simpl. split; [done|].
  rewrite (move_index _ _ _ _ H Hi Hfree). assert (Hinj := fun j => represents_inj _ _ i j k H Hi).
  destruct H as [H1 H2 H3 H4 H5 H6 H7]. split; simpl; try done.
  - by rewrite H3.
  - intros j r [[<- <-]|[Hne Hj]]%lookup_insert_Some; [apply lookup_insert_eq|].
    rewrite lookup_insert_ne by (intros Hr; subst r; by apply Hne, eq_sym, Hfree). rewrite lookup_delete_ne; [auto|]. intros <-. by apply Hne, Hinj.
  - intros r ids [[<- <-]|[Hne [Hne' Hr]%lookup_delete_Some]]%lookup_insert_Some.
    + exists i. split; [done|]. apply lookup_insert_eq.
    + destruct (H5 _ _ Hr) as (j & -> & Hj). exists j. split; [done|]. rewrite lookup_insert_ne; [done|]. intros <-. congruence.
  - intros j r [[<- <-]|[Hne Hj]]%lookup_insert_Some; eauto.
Qed.

Definition move_names (l : list (Z * Relative)) (a : Names) : Names := fold_left (fun a '(i, k) => move_name a i k) l a.

Lemma reroot_inj k k' : from `prefix_of` k -> from `prefix_of` k' -> reroot k = reroot k' -> k = k'.
Proof.
  intros [x ->] [y ->]. unfold reroot. rewrite !drop_app_length. intros ->%app_inv_head. done.
Qed.

(** The entries of a loop over what is below [from]: their targets are free. *)
Record movable (l : list (Z * Relative)) (a : Names) : Prop := {
  mo_nodup : NoDup l.*1;
  mo_path i k : (i, k) ∈ l -> paths a !! i = Some k /\ from `prefix_of` k;
  mo_distinct i j k : (i, k) ∈ l -> paths a !! j = Some k -> i = j;
  mo_free i k j : (i, k) ∈ l -> paths a !! j = Some (reroot k) -> j = i;
  mo_verifier i k : (i, k) ∈ l -> verifiers a !! reroot k = None \/ reroot k = k;
  mo_apart i j k : (i, k) ∈ l -> (j, reroot k) ∈ l -> reroot k = k
}.

Lemma movable_head i k l a : movable ((i, k) :: l) a ->
  forall i' k', (i', k') ∈ l -> i <> i' /\ k <> k' /\ reroot k <> reroot k' /\ reroot k <> k' /\ k <> reroot k'.
Proof.
  intros [Hn Hp Hd Hf Hv Ha] i' k' Hin. assert (Hi : i <> i').
  { intros <-. apply NoDup_cons in Hn as [Hn _]. apply Hn. apply list_elem_of_fmap. by exists (i, k'). }
  destruct (Hp i k) as [Hi1 Hk1]; [set_solver|]. destruct (Hp i' k') as [Hi2 Hk2]; [set_solver|].
  assert (Hk : k <> k') by (intros <-; apply Hi; eapply Hd; [|done]; set_solver). split_and!; try done.
  - intros Hr. by apply Hk, reroot_inj.
  - intros <-. apply Hk. symmetry. apply (Ha i i' k); set_solver.
  - intros ->. apply Hk, (Ha i' i k'); set_solver.
Qed.

Lemma movable_tail i k l a : movable ((i, k) :: l) a -> movable l (move_name a i k).
Proof.
  intros H. pose proof (movable_head _ _ _ _ H) as Hh. destruct H as [Hn Hp Hd Hf Hv Ha]. apply NoDup_cons in Hn as [_ Hn].
  split; simpl; try done.
  - intros i' k' Hin. destruct (Hh _ _ Hin) as (Hi & _). rewrite lookup_insert_ne by done. apply Hp. set_solver.
  - intros i' j k' Hin. destruct (Hh _ _ Hin) as (Hi & _ & _ & Hr & _). intros [[<- Hj]|[_ Hj]]%lookup_insert_Some; [done|]. eapply Hd; [|done]. set_solver.
  - intros i' k' j Hin. destruct (Hh _ _ Hin) as (Hi & _ & Hr & _). intros [[<- Hj]|[_ Hj]]%lookup_insert_Some; [done|]. eapply Hf; [|done]. set_solver.
  - intros i' k' Hin. destruct (Hh _ _ Hin) as (Hi & _ & Hr & _). destruct (Hv i' k') as [Hk|Hk]; [set_solver|left|by right].
    destruct (verifiers a !! k); [|done]. rewrite lookup_insert_ne by done. apply lookup_delete_None. auto.
  - intros i' j k' Hi Hj. apply (Ha i' j); set_solver.
Qed.

Lemma move_ids_refines l m a : represents m a -> movable l a ->
  (move_ids from to from to l m).1 = Ok tt /\ represents (move_ids from to from to l m).2 (move_names l a).
Proof.
  revert m a. induction l as [|[i k] l IH]; intros m a H Hm; simpl; [done|].
  destruct (mo_path _ _ Hm i k) as [Hi _]; [set_solver|].
  destruct (move_id_refines m a i k H Hi) as [Hok Hr].
  - intros j. apply (mo_free _ _ Hm). set_solver.
  - apply (mo_verifier _ _ Hm i). set_solver.
  - destruct (move_id from to from to i k m) as [[[]|e] m1]; simpl in *; [|done]. apply IH; [done|]. by apply movable_tail.
Qed.

Lemma move_names_spec l a : movable l a ->
  next (move_names l a) = next a /\
  (forall i k, (i, k) ∈ l -> paths (move_names l a) !! i = Some (reroot k) /\ verifiers (move_names l a) !! reroot k = verifiers a !! k) /\
  (forall i, i ∉ l.*1 -> paths (move_names l a) !! i = paths a !! i) /\
  (forall q, (forall i k, (i, k) ∈ l -> q <> reroot k) ->
    verifiers (move_names l a) !! q = if bool_decide (q ∈ l.*2) then None else verifiers a !! q).
Proof.
  revert a. induction l as [|[i k] l IH]; intros a Hm; simpl; [split_and!; try done; set_solver|].
  pose proof (movable_head _ _ _ _ Hm) as Hh. destruct (IH _ (movable_tail _ _ _ _ Hm)) as (H1 & H2 & H3 & H4). split_and!.
  - done.
  - intros i' k' [[= -> ->]|Hin]%elem_of_cons.
    + rewrite H3; [|intros ([i' k'] & -> & Hin)%list_elem_of_fmap; destruct (Hh _ _ Hin); done].
      rewrite H4; [|intros i' k' Hin; destruct (Hh _ _ Hin) as (_ & _ & ? & _); done]. simpl. split; [apply lookup_insert_eq|].
      rewrite bool_decide_eq_false_2; [|intros ([i' k'] & Hr & Hin)%list_elem_of_fmap; destruct (Hh _ _ Hin) as (_ & _ & _ & ? & _); done].
      destruct (verifiers a !! k) as [v|] eqn:Hk; [apply lookup_insert_eq|]. destruct (mo_verifier _ _ Hm i k) as [?|Hr]; [set_solver|done|by rewrite Hr].
    + destruct (H2 _ _ Hin) as [Hp Hv]. split; [done|]. rewrite Hv. simpl. destruct (Hh _ _ Hin) as (_ & Hk & _ & Hr & _).
      destruct (verifiers a !! k); [|done]. by rewrite lookup_insert_ne, lookup_delete_ne.
  - intros j Hj. apply not_elem_of_cons in Hj as [Hj Hl]. rewrite H3 by done. simpl. by rewrite lookup_insert_ne.
  - intros q Hq. rewrite H4 by (intros i' k' Hin; apply (Hq i'); set_solver). simpl. assert (Hqk : q <> reroot k) by (apply (Hq i); set_solver).
    destruct (decide (q ∈ l.*2)) as [Hl|Hl]; [by rewrite !bool_decide_eq_true_2 by set_solver|]. rewrite (bool_decide_eq_false_2 (q ∈ l.*2)) by done.
    destruct (decide (q = k)) as [->|Hne].
    + rewrite bool_decide_eq_true_2 by set_solver. destruct (verifiers a !! k) eqn:Hk; [|done]. rewrite lookup_insert_ne by done. apply lookup_delete_eq.
    + rewrite bool_decide_eq_false_2 by set_solver. destruct (verifiers a !! k); [|done]. by rewrite lookup_insert_ne, lookup_delete_ne.
Qed.
End Moving.

(** What a rename does to the map: what was below the target is forgotten, what is
    below the source keeps its number under its new path, and takes its verifier
    along. *)
Definition base (from to : Relative) (a : Names) : Names := if decide (from = to) then a else cleared to a.
Record moved (from to : Relative) (a a' : Names) : Prop := {
  mv_next : next a' = next a;
  mv_paths : paths a' = (fun r => if bool_decide (from `prefix_of` r) then reroot from to r else r) <$> paths (base from to a);
  mv_carried i k : paths (base from to a) !! i = Some k -> from `prefix_of` k ->
    verifiers a' !! reroot from to k = verifiers (base from to a) !! k;
  mv_taken i q : paths (base from to a) !! i = Some q -> from `prefix_of` q -> from <> to -> verifiers a' !! q = None;
  mv_left q : (forall i k, paths (base from to a) !! i = Some k -> from `prefix_of` k -> q <> k /\ q <> reroot from to k) ->
    verifiers a' !! q = verifiers (base from to a) !! q
}.

Lemma prefix_reroot from to k : to `prefix_of` reroot from to k.
Proof. by exists (drop (length from) k). Qed.
Lemma reroot_same k p : p `prefix_of` k -> reroot p p k = k.
Proof. intros [x ->]. unfold reroot. by rewrite drop_app_length. Qed.

Section Refinement.
Context (order : gmap Z RelativeKey -> list (Z * RelativeKey)) {Horder : AnyOrder order}.

(** After the target was cleared nothing is below it. *)
Lemma below_movable from to m a : represents m a -> from = to \/
    (forall i r, paths a !! i = Some r -> ~ to `prefix_of` r) /\ (forall r v, verifiers a !! r = Some v -> ~ to `prefix_of` r) ->
  movable from to (below order m from from) a.
Proof.
  intros H Hcl. assert (Hspec := fun i k => below_spec order m a from i k H). split.
  - by apply below_NoDup.
  - intros i k Hin. by apply Hspec.
  - intros i j k [Hi _]%Hspec Hj. by eapply represents_inj.
  - intros i k j [Hi Hk]%Hspec Hj. destruct Hcl as [->|[Hcl _]]; [|by destruct (Hcl _ _ Hj); apply prefix_reroot].
    rewrite reroot_same in Hj by done. by eapply represents_inj.
  - intros i k [Hi Hk]%Hspec. destruct Hcl as [->|[_ Hcl]]; [right; by apply reroot_same|left].
    destruct (verifiers a !! reroot from to k) eqn:Hv; [|done]. by destruct (Hcl _ _ Hv); apply prefix_reroot.
  - intros i j k [Hi Hk]%Hspec [Hj _]%Hspec. destruct Hcl as [->|[Hcl _]]; [by apply reroot_same|].
    by destruct (Hcl _ _ Hj); apply prefix_reroot.
Qed.

Lemma move_prefix_refines from to m a : represents m a ->
  exists a', moved from to a a' /\ (move_prefix order from to m).1 = Ok tt /\ represents (move_prefix order from to m).2 a'.
Proof.
  intros H. assert (exists m0, (if negb (relative_eq from to) then forget_prefix order to m else (Ok tt, m)) = (Ok tt, m0) /\ represents m0 (base from to a)) as (m0 & E & H0).
  { unfold base, relative_eq. destruct (decide (from = to)) as [Heq|Hne].
    - rewrite bool_decide_eq_true_2 by done. by exists m.
    - rewrite bool_decide_eq_false_2 by done. destruct (forget_prefix_refines order to m a H) as [H1 H2]. simpl.
      destruct (forget_prefix order to m) as [r m0]. simpl in *. subst. by exists m0. }
  unfold move_prefix. simpl. rewrite E. set (l := below order m0 from from).
  assert (Hmov : movable from to l (base from to a)).
  { apply below_movable; [done|]. unfold base. destruct (decide (from = to)) as [Heq|Hne]; [by left|right]. simpl. split.
    - intros i r [_ Hr]%map_lookup_filter_Some. done.
    - intros r v [_ Hr]%map_lookup_filter_Some. done. }
  destruct (move_ids_refines from to l m0 _ H0 Hmov) as [Hok Hr]. destruct (move_names_spec from to l _ Hmov) as (H1 & H2 & H3 & H4).
  assert (Hspec := fun i k => below_spec order m0 (base from to a) from i k H0). exists (move_names from to l (base from to a)). split; [|done]. split.
  - rewrite H1. unfold base. by destruct (decide _).
  - apply map_eq. intros i. rewrite lookup_fmap. destruct (paths (base from to a) !! i) as [k|] eqn:Hi; simpl.
    + case_bool_decide as Hk; [by apply H2, Hspec|]. rewrite H3; [done|]. intros ([i' k'] & -> & [Hi' Hk']%Hspec)%list_elem_of_fmap. simpl in Hi. congruence.
    + rewrite H3; [done|]. intros ([i' k'] & -> & [Hi' _]%Hspec)%list_elem_of_fmap. simpl in Hi. congruence.
  - intros i k Hi Hk. by apply (H2 i), Hspec.
  - intros i q Hi Hq Hne. rewrite H4.
    + rewrite bool_decide_eq_true_2; [done|]. apply list_elem_of_fmap. exists (i, q). split; [done|]. by apply Hspec.
    + intros i' k' [_ Hk']%Hspec ->. unfold base in Hi. rewrite decide_False in Hi by done. simpl in Hi.
      apply map_lookup_filter_Some in Hi as [_ Hi]. apply Hi. simpl. apply prefix_reroot.
  - intros q Hq. rewrite H4.
    + rewrite bool_decide_eq_false_2; [done|]. intros ([i k] & -> & [Hi Hk]%Hspec)%list_elem_of_fmap. by destruct (Hq i k Hi Hk).
    + intros i k [Hi Hk]%Hspec. by apply (Hq i k).
Qed.

Lemma remember_refines r v m a : represents m a ->
  (remember_exclusive_verifier r v m).1 = Ok tt /\
  represents (remember_exclusive_verifier r v m).2 (mkNames (next a) (paths a) (<[r := v]> (verifiers a))).
Proof.
  intros [H1 H2 H3 H4 H5 H6 H7]. split; [done|]. split; simpl; try done. intros q.
  assert (List.filter (fun '(c, _) => negb (relative_eq c r)) (default [] (exclusive_verifiers m !! r)) = []) as ->.
  { rewrite H6. destruct (verifiers a !! r); [|done]. simpl. unfold relative_eq. by rewrite bool_decide_eq_true_2. }
  simpl. destruct (decide (q = r)) as [->|Hne]; [by rewrite !lookup_insert_eq|]. by rewrite !lookup_insert_ne.
Qed.

Lemma exclusive_verifier_refines r m a : represents m a -> exclusive_verifier m r = Ok (verifiers a !! r).
Proof.
  intros H. unfold exclusive_verifier. simpl. rewrite (rp_verifiers _ _ H). destruct (verifiers a !! r); [|done]. simpl.
  unfold relative_eq. by rewrite bool_decide_eq_true_2.
Qed.
End Refinement.

(** ** Sequences of calls *)

Inductive MapCall : Type :=
| Intern (r : Relative)
| Forget (prefix : Relative)
| Move (from to : Relative)
| Remember (r : Relative) (verifier : list byte).

(** The number [intern] answers with, and nothing for the others. *)
Definition map_call (order : gmap Z RelativeKey -> list (Z * RelativeKey)) (c : MapCall) (m : FsMap) : result NfsError.t (option Z) * FsMap :=
  match c with
  | Intern r => let '(out, m) := intern r m in (i ← out; Ok (Some i), m)
  | Forget p => let '(out, m) := forget_prefix order p m in (_ ← out; Ok None, m)
  | Move f t => let '(out, m) := move_prefix order f t m in (_ ← out; Ok None, m)
  | Remember r v => let '(out, m) := remember_exclusive_verifier r v m in (_ ← out; Ok None, m)
  end.
Fixpoint map_calls order (l : list MapCall) (m : FsMap) : list (result NfsError.t (option Z)) * FsMap :=
  match l with
  | [] => ([], m)
  | c :: l => let '(out, m) := map_call order c m in let '(outs, m) := map_calls order l m in (out :: outs, m)
  end.

Inductive call_spec : MapCall -> Names -> option Z -> Names -> Prop :=
| spec_intern r a i a' : interned r a i a' -> call_spec (Intern r) a (Some i) a'
| spec_forget p a : call_spec (Forget p) a None (cleared p a)
| spec_move f t a a' : moved f t a a' -> call_spec (Move f t) a None a'
| spec_remember r v a : call_spec (Remember r v) a None (mkNames (next a) (paths a) (<[r := v]> (verifiers a))).
Inductive calls_spec : list MapCall -> Names -> list (option Z) -> Names -> Prop :=
| spec_nil a : calls_spec [] a [] a
| spec_cons c l a out a1 outs a2 : call_spec c a out a1 -> calls_spec l a1 outs a2 -> calls_spec (c :: l) a (out :: outs) a2.

Lemma map_call_refines order `{AnyOrder order} c m a : represents m a ->
  exists out a', call_spec c a out a' /\ (map_call order c m).1 = Ok out /\ represents (map_call order c m).2 a'.
Proof.
  intros Hr. destruct c as [r|p|f t|r v]; unfold map_call.
  - destruct (intern_refines r m a Hr) as (i & a' & Hi & H1 & H2). destruct (intern r m) as [out m']. simpl in *. subst. eexists _, _. split; [by constructor|done].
  - destruct (forget_prefix_refines order p m a Hr) as [H1 H2]. destruct (forget_prefix order p m) as [out m']. simpl in *. subst. eexists _, _. split; [constructor|done].
  - destruct (move_prefix_refines order f t m a Hr) as (a' & Hm & H1 & H2). destruct (move_prefix order f t m) as [out m']. simpl in *. subst. eexists _, _. split; [by constructor|done].
  - destruct (remember_refines r v m a Hr) as [H1 H2]. destruct (remember_exclusive_verifier r v m) as [out m']. simpl in *. subst. eexists _, _. split; [constructor|done].
Qed.

Lemma map_calls_refine order `{AnyOrder order} l m a : represents m a ->
  exists outs a', calls_spec l a outs a' /\ (map_calls order l m).1 = Ok <$> outs /\ represents (map_calls order l m).2 a'.
Proof.
  revert m a. induction l as [|c l IH]; intros m a Hr; simpl; [exists [], a; split; [constructor|done]|].
  destruct (map_call_refines order c m a Hr) as (out & a1 & Hc & H1 & H2). destruct (map_call order c m) as [o m1]. simpl in *. subst.
  destruct (IH m1 a1 H2) as (outs & a2 & Hl & H3 & H4). destruct (map_calls order l m1) as [os m2]. simpl in *. subst.
  exists (out :: outs), a2. split; [by econstructor|done].
Qed.

Lemma relative_refines m a o : represents m a ->
  relative m o = if generation o =? GENERATION then ok_or (paths a !! file_id o) NfsError.Stale else Err NfsError.Stale.
Proof. intros H. unfold relative. rewrite (rp_relative _ _ H). by destruct (_ =? _). Qed.

(** A number that resolves to nothing is not given out again. *)
Lemma call_spec_gone c a out a' i : call_spec c a out a' -> i < next a -> paths a !! i = None -> i < next a' /\ paths a' !! i = None.
Proof.
  intros Hc Hi Hp. destruct Hc as [r a i' a' Hin|p a|f t a a' Hm|r v a]; simpl.
  - destruct Hin as [i'|]; [done|]. simpl. split; [lia|]. rewrite lookup_insert_ne by lia. done.
  - split; [done|]. by rewrite map_lookup_filter, Hp.
  - rewrite (mv_next _ _ _ _ Hm), (mv_paths _ _ _ _ Hm), lookup_fmap. split; [done|]. unfold base. destruct (decide (f = t)); simpl; [by rewrite Hp|].
    by rewrite map_lookup_filter, Hp.
  - done.
Qed.
Lemma calls_spec_gone l a outs a' i : calls_spec l a outs a' -> i < next a -> paths a !! i = None -> i < next a' /\ paths a' !! i = None.
Proof. induction 1 as [|c l a out a1 outs a2 Hc Hl IH]; intros Hi Hp; [done|]. apply IH; by eapply call_spec_gone. Qed.

Lemma call_spec_next c a out a' : call_spec c a out a' -> next a <= next a'.
Proof. intros Hc. destruct Hc as [r a i a' Hi|p a|f t a a' Hm|r v a]; simpl; try lia; [destruct Hi; simpl; lia|]. by rewrite (mv_next _ _ _ _ Hm). Qed.
Lemma calls_spec_next l a outs a' : calls_spec l a outs a' -> next a <= next a'.
Proof. induction 1 as [|c l a out a1 outs a2 Hc Hl IH]; [done|]. apply call_spec_next in Hc. lia. Qed.

(** C34: the tables of the mirror are one map from numbers to paths. Whatever calls
    are made, and in whatever order the hash maps iterate, a path is interned under
    its number or a fresh one, removing a path forgets exactly what is at or below
    it, renaming forgets what is at or below the target and keeps the numbers, with
    their verifiers, of what is at or below the source; no call fails; and handles
    and verifiers are resolved by that map. *)
Theorem mirror_map_refines order `{AnyOrder order} dir calls :
  let '(outs, m) := map_calls order calls (new dir) in
  exists ids a,
    outs = Ok <$> ids /\ calls_spec calls (mkNames (ROOT_ID + 1) {[ROOT_ID := []]} ∅) ids a /\
    (forall i j r, paths a !! i = Some r -> paths a !! j = Some r -> i = j) /\
    (forall o, relative m o = if generation o =? GENERATION then ok_or (paths a !! file_id o) NfsError.Stale else Err NfsError.Stale) /\
    (forall r, exclusive_verifier m r = Ok (verifiers a !! r)).
Proof.
  destruct (map_calls_refine order calls _ _ (represents_start dir)) as (ids & a & Hs & H1 & H2).
  destruct (map_calls order calls (new dir)) as [outs m]. simpl in *. exists ids, a. split_and!; try done.
  - intros i j r. by eapply represents_inj.
  - intros o. by apply relative_refines.
  - intros r. by apply exclusive_verifier_refines.
Qed.

#[global] Instance map_to_list_order : AnyOrder map_to_list.
Proof. by intros t. Qed.

Definition sample_name (z : Z) : OsString := [byte_of z].
Lemma mirror_map_refines_witness :
  let calls := [Intern [sample_name 97]; Remember [sample_name 97] []; Intern [sample_name 97; sample_name 98]; Move [sample_name 97] [sample_name 99];
                Intern [sample_name 97]; Forget [sample_name 99; sample_name 98]; Intern [sample_name 99]] in
  exists ids a,
    (map_calls map_to_list calls (new [])).1 = Ok <$> ids /\
    ids = [Some 2; None; Some 3; None; Some 4; None; Some 2] /\
    calls_spec calls (mkNames (ROOT_ID + 1) {[ROOT_ID := []]} ∅) ids a.
Proof.
  intros calls. pose proof (mirror_map_refines map_to_list [] calls) as H.
  assert (Ho : (map_calls map_to_list calls (new [])).1 = Ok <$> [Some 2; None; Some 3; None; Some 4; None; Some 2]) by (vm_compute; reflexivity).
  destruct (map_calls map_to_list calls (new [])) as [outs m]. destruct H as (ids & a & H1 & H2 & _). exists ids, a. split_and!; [done| |done].
  assert (Inj eq eq (@Ok NfsError.t (option Z))) by (intros x y Hxy; by injection Hxy).
  cbn [fst] in Ho. rewrite Ho in H1. by apply (inj (fmap (@Ok NfsError.t (option Z)))) in H1.
Defined.

(** Handles of removed files stay stale, whatever happens later. *)
Theorem removed_stays_stale order `{AnyOrder order} dir one two three o r :
  let m1 := (map_calls order one (new dir)).2 in
  let m2 := (map_calls order two m1).2 in
  relative m1 o = Ok r -> relative m2 o = Err NfsError.Stale -> relative (map_calls order three m2).2 o = Err NfsError.Stale.
Proof.
  intros m1 m2 H1 H2. destruct (map_calls_refine order one _ _ (represents_start dir)) as (_ & a1 & _ & _ & R1). fold m1 in R1.
  destruct (map_calls_refine order two _ _ R1) as (o2 & a2 & S2 & _ & R2). fold m2 in R2.
  destruct (map_calls_refine order three _ _ R2) as (o3 & a3 & S3 & _ & R3).
  rewrite (relative_refines _ _ _ R1) in H1. rewrite (relative_refines _ _ _ R2) in H2. rewrite (relative_refines _ _ _ R3).
  destruct (_ =? _); [|done]. destruct (paths a1 !! file_id o) as [r1|] eqn:P1; [|done]. destruct (paths a2 !! file_id o) eqn:P2; [done|].
  assert (Hlt := rp_fresh _ _ R1 _ _ P1). assert (Hle := calls_spec_next _ _ _ _ S2).
  destruct (calls_spec_gone _ _ _ _ (file_id o) S3) as [_ ->]; [lia|done..].
Qed.
