(* ===== verification/MirrorFs.v ===== *)
(** * [examples/mirrorfs.rs]: serving a directory of the host

    The file system of the host is reached through [std::fs] and [tokio::fs]: its
    operations are effects, answered by the operating system. The sections of a
    request that hold the lock of the map are effects as well, answered by
    [map_step], so that other requests may run between them. The unix build is
    modelled. *)
From S2P Require Import Prelude VfsTypes Vfs Free MirrorMap.
From stdpp Require Import list gmap.
#[local] Open Scope Z_scope.

(** ** The host *)

(** [io::Error]: the kinds the code tells apart, and the error number. *)
Module ErrorKind.
Inductive t : Type := NotFound | PermissionDenied | AlreadyExists | InvalidInput | InvalidData | StorageFull | Other.
End ErrorKind.
Record io_error : Type := mkIoError { kind : ErrorKind.t; raw_os_error : option Z }.

(** The type of a file: exactly one of the tests of [FileType] holds. *)
Module HostType.
Inductive t : Type := File | Dir | Symlink | BlockDevice | CharDevice | Socket | Other.
#[global] Instance t_eq_dec : EqDecision t.
Proof. solve_decision. Defined.
End HostType.
Record Metadata : Type := mkMetadata {
  md_type : HostType.t;
  md_len : Z; md_mode : Z; md_nlink : Z; md_uid : Z; md_gid : Z; md_blocks : Z; md_dev : Z; md_ino : Z;
  md_atime : Z; md_atime_nsec : Z; md_mtime : Z; md_mtime_nsec : Z; md_ctime : Z; md_ctime_nsec : Z
}.
Definition is_dir (m : Metadata) : bool := bool_decide (md_type m = HostType.Dir).
Definition is_file (m : Metadata) : bool := bool_decide (md_type m = HostType.File).
Definition is_symlink (m : Metadata) : bool := bool_decide (md_type m = HostType.Symlink).

Record OpenOptions : Type := mkOpen { o_read : bool; o_write : bool; o_create : bool; o_create_new : bool }.
Definition reading : OpenOptions := mkOpen true false false false.
Definition writing : OpenOptions := mkOpen false true false false.

Abbreviation PathBuf := (list byte).

Module HostOp.
(** [Fd] is an open file. *)
Definition Fd : Type := Z.
Inductive t : Type :=
| symlink_metadata (path : PathBuf)
| open (path : PathBuf) (options : OpenOptions)
| metadata (file : Fd)
| seek (file : Fd) (offset : Z)
| read_exact (file : Fd) (len : Z)
| write_all (file : Fd) (data : list byte)
| sync_data (file : Fd)
| sync_all (file : Fd)
| set_len (file : Fd) (len : Z)
| create_dir (path : PathBuf)
| remove_dir (path : PathBuf)
| remove_file (path : PathBuf)
| rename (from to : PathBuf)
| symlink (target : list byte) (path : PathBuf)
| read_link (path : PathBuf)
| read_dir (path : PathBuf)
| set_permissions (path : PathBuf) (mode : Z)
| set_file_permissions (file : Fd) (mode : Z)
| set_file_atime (path : PathBuf) (seconds nanoseconds : Z)
| set_file_mtime (path : PathBuf) (seconds nanoseconds : Z)
| now.

(** [read_dir] answers with the names its reader yields, each or an error. *)
Definition response (o : t) : Type :=
  match o with
  | symlink_metadata _ | metadata _ => result io_error Metadata
  | open _ _ => result io_error Fd
  | read_exact _ _ | read_link _ => result io_error (list byte)
  | read_dir _ => result io_error (list (result io_error OsString))
  | now => Z * Z
  | _ => result io_error unit
  end.

(** The paths an operation names, the one it changes last. *)
Definition paths_of (o : t) : list PathBuf :=
  match o with
  | symlink_metadata p | open p _ | create_dir p | remove_dir p | remove_file p | symlink _ p | read_link p | read_dir p
  | set_permissions p _ | set_file_atime p _ _ | set_file_mtime p _ _ => [p]
  | rename p q => [p; q]
  | _ => []
  end.
End HostOp.

(** ** Sections under the lock of the map *)
Module MapOp.
Inductive t : Type :=
| object_path (object : ObjectKey)
| child_path (parent : ObjectKey) (name : NfsName.t)
| relative (object : ObjectKey)
| child_relative (parent : ObjectKey) (name : NfsName.t)
| path (r : Relative)
| intern (r : Relative)
| exclusive_verifier (r : Relative)
| remember_exclusive_verifier (r : Relative) (verifier : list byte)
| forget_prefix (prefix : Relative)
| move_prefix (from to : Relative).

Definition response (o : t) : Type :=
  match o with
  | object_path _ => result NfsError.t (Z * PathBuf)
  | child_path _ _ => result NfsError.t (Relative * PathBuf)
  | relative _ | child_relative _ _ => result NfsError.t Relative
  | path _ => PathBuf
  | intern _ => result NfsError.t Z
  | exclusive_verifier _ => result NfsError.t (option (list byte))
  | _ => result NfsError.t unit
  end.

Section Step.
Context (order : gmap Z RelativeKey -> list (Z * RelativeKey)).
Definition step (o : t) (m : FsMap) : response o * FsMap :=
  match o with
  | object_path o => ((r ← MirrorMap.relative m o; Ok (file_id o, MirrorMap.path m r)), m)
  | child_path parent name => ((r ← MirrorMap.child_relative m parent name; Ok (r, MirrorMap.path m r)), m)
  | relative o => (MirrorMap.relative m o, m)
  | child_relative parent name => (MirrorMap.child_relative m parent name, m)
  | path r => (MirrorMap.path m r, m)
  | intern r => MirrorMap.intern r m
  | exclusive_verifier r => (MirrorMap.exclusive_verifier m r, m)
  | remember_exclusive_verifier r v => MirrorMap.remember_exclusive_verifier r v m
  | forget_prefix p => MirrorMap.forget_prefix order p m
  | move_prefix f t => MirrorMap.move_prefix order f t m
  end.
End Step.
End MapOp.

Inductive effect : Type := Host (o : HostOp.t) | Locked (o : MapOp.t).
#[global] Instance mirror_effects : Effects effect :=
  fun e => match e with Host o => HostOp.response o | Locked o => MapOp.response o end.

Definition prog (A : Type) : Type := free effect (result NfsError.t A).
#[global] Instance prog_ret : MRet prog := fun A a => Done (Ok a).
#[global] Instance prog_bind : MBind prog := fun A B f p =>
  free_bind_ (fun r => match r with Ok a => f a | Err e => Done (Err e) end) p.
Definition fail {A} (e : NfsError.t) : prog A := Done (Err e).
Definition locked (o : MapOp.t) : free effect (MapOp.response o) := ask (Locked o).

(** ** Errors and metadata *)

Definition map_raw_os_error (error : Z) : option NfsError.t :=
  match error with
  | 18 => Some NfsError.CrossDevice
  | 20 => Some NfsError.NotDirectory
  | 21 => Some NfsError.IsDirectory
  | 36 => Some NfsError.NameTooLong
  | 39 | 66 => Some NfsError.NotEmpty
  | _ => None
  end.
Definition map_io_error (error : io_error) : NfsError.t :=
  match kind error with
  | ErrorKind.NotFound => NfsError.NotFound
  | ErrorKind.PermissionDenied => NfsError.Access
  | ErrorKind.AlreadyExists => NfsError.Exists
  | ErrorKind.InvalidInput | ErrorKind.InvalidData => NfsError.Invalid
  | ErrorKind.StorageFull => NfsError.NoSpace
  | ErrorKind.Other => default NfsError.Io (raw_os_error error ≫= map_raw_os_error)
  end.

(** [.await.map_err(map_io_error)?] and [.await.ok()] *)
Definition try {A} (p : free effect (result io_error A)) : prog A := free_bind_ (fun r => Done (map_err map_io_error r)) p.
(** [.await] without [?] *)
Definition await {A} (p : free effect A) : prog A := free_bind_ (fun a => Done (Ok a)) p.
Definition host (o : HostOp.t) : free effect (HostOp.response o) := ask (Host o).

Definition symlink_metadata (p : PathBuf) : prog Metadata := try (A := Metadata) (host (HostOp.symlink_metadata p)).
Definition open (p : PathBuf) (options : OpenOptions) : prog HostOp.Fd := try (A := HostOp.Fd) (host (HostOp.open p options)).
Definition file_metadata (f : HostOp.Fd) : prog Metadata := try (A := Metadata) (host (HostOp.metadata f)).
Definition host_unit (o : HostOp.t) (H : HostOp.response o = result io_error unit) : prog unit :=
  try (A := unit) (eq_rect _ (free effect) (host o) _ H).

Definition metadata_time (seconds nanoseconds : Z) : NfsTime :=
  mkNfsTime (Z.max seconds 0) (clamp 0 999999999 nanoseconds).
Definition metadata_file_type (m : Metadata) : FileType.t :=
  match md_type m with
  | HostType.File => FileType.Regular
  | HostType.Dir => FileType.Directory
  | HostType.Symlink => FileType.Symlink
  | HostType.BlockDevice => FileType.BlockDevice
  | HostType.CharDevice => FileType.CharacterDevice
  | HostType.Socket => FileType.Socket
  | HostType.Other => FileType.Fifo
  end.
(** Mode, links, owner, group, bytes used, file system, and the three times. *)
Definition metadata_platform_attributes (m : Metadata) : Z * Z * Z * Z * Z * Z * NfsTime * NfsTime * NfsTime :=
  (Z.land (md_mode m) 0xfff, as_u32 (md_nlink m), md_uid m, md_gid m, Z.min u64_max (md_blocks m * 512), md_dev m,
   metadata_time (md_atime m) (md_atime_nsec m), metadata_time (md_mtime m) (md_mtime_nsec m), metadata_time (md_ctime m) (md_ctime_nsec m)).
Definition metadata_to_attributes (file_id : Z) (m : Metadata) : FileAttributes :=
  let '(mode, links, uid, gid, used, fs_id, access_time, modify_time, change_time) := metadata_platform_attributes m in
  mkFileAttributes (metadata_file_type m) mode links uid gid (md_len m) used None fs_id file_id access_time modify_time change_time.
Definition metadata_to_wcc (m : Metadata) : WccAttributes :=
  let '(_, _, _, _, _, _, _, modify_time, change_time) := metadata_platform_attributes m in
  mkWccAttributes (md_len m) modify_time change_time.

Definition as_u64 (z : Z) : Z := z mod 2 ^ 64.
Definition rotate_left (z n : Z) : Z := Z.lor (as_u64 (Z.shiftl z n)) (Z.shiftr z (64 - n)).
Definition directory_verifier (m : Metadata) : list byte :=
  be_bytes 8 (Z.lxor (Z.lxor (rotate_left (as_u64 (md_mtime m)) 17) (as_u64 (md_mtime_nsec m))) (md_ino m)).

Definition os_component_to_nfs_bytes (value : OsString) : result NfsError.t (list byte) := Ok value.
Definition os_path_to_nfs_bytes (value : OsString) : result NfsError.t (list byte) := Ok value.

(** ** Attributes *)

Definition validate_attributes (a : SetAttributes) : result NfsError.t unit :=
  match sa_uid a, sa_gid a with None, None => Ok tt | _, _ => Err NfsError.NotSupported end.

Definition from_result {A} (r : result NfsError.t A) : prog A := Done r.
Definition apply_mode (p : PathBuf) (mode : Z) : prog unit :=
  host_unit (HostOp.set_permissions p (Z.land (Z.lor mode 0x80) 0xfff)) eq_refl.
Definition as_i64 (z : Z) : Z := if z <? 2 ^ 63 then z else z - 2 ^ 64.
(** [set_time_to_file_time]: seconds and nanoseconds *)
Definition set_time_to_file_time (t : SetTime) : prog (Z * Z) :=
  match t with
  | ServerTime => await (A := Z * Z) (host HostOp.now)
  | ClientTime t => mret (as_i64 (seconds t), nanoseconds t)
  end.
Definition apply_attributes (p : PathBuf) (a : SetAttributes) : prog unit :=
  _ ← from_result (validate_attributes a);
  _ ← (match sa_mode a with Some mode => apply_mode p mode | None => mret tt end : prog unit);
  _ ← (match sa_size a with
       | Some size => f ← open p writing; host_unit (HostOp.set_len f size) eq_refl
       | None => mret tt
       end : prog unit);
  _ ← (match sa_access_time a with
       | Some t => t ← set_time_to_file_time t; host_unit (HostOp.set_file_atime p t.1 t.2) eq_refl
       | None => mret tt
       end : prog unit);
  match sa_modify_time a with
  | Some t => t ← set_time_to_file_time t; host_unit (HostOp.set_file_mtime p t.1 t.2) eq_refl
  | None => mret tt
  end.

(** ** The operations *)

Definition key (file_id : Z) : ObjectKey := mkObjectKey file_id GENERATION.
Definition object_path (o : ObjectKey) : prog (Z * PathBuf) := locked (MapOp.object_path o).
Definition child_path (parent : ObjectKey) (name : NfsName.t) : prog (Relative * PathBuf) := locked (MapOp.child_path parent name).
Definition intern (r : Relative) : prog Z := locked (MapOp.intern r).
Definition created_object (file_id : Z) (m : Metadata) : CreatedObject :=
  mkCreatedObject (key file_id) (Some (metadata_to_attributes file_id m)).
Definition created (r : Relative) (m : Metadata) : prog CreatedObject :=
  file_id ← intern r; mret (created_object file_id m).

Definition parent_snapshot (parent : ObjectKey) : prog (option WccAttributes * PathBuf) :=
  x ← object_path parent;
  m ← symlink_metadata x.2;
  mret (Some (metadata_to_wcc m), x.2).

(** The attributes of a parent after the change: [.await.ok().map(..)] *)
Definition after_attributes (parent : ObjectKey) (p : PathBuf) : prog (option FileAttributes) :=
  r ← await (A := result io_error Metadata) (host (HostOp.symlink_metadata p));
  mret (metadata_to_attributes (file_id parent) <$> ok r).

Inductive CreateKind : Type := File (mode : CreateMode) | Directory | Symlink (target : list byte).

Definition create_host (r : Relative) (p : PathBuf) (attributes : SetAttributes) (kind : CreateKind) : prog unit :=
  match kind with
  | File (Exclusive verifier) =>
      there ← await (A := result io_error Metadata) (host (HostOp.symlink_metadata p));
      if is_ok there then
        v ← (locked (MapOp.exclusive_verifier r) : prog (option (list byte)));
        if bool_decide (v = Some verifier) then mret tt else fail NfsError.Exists
      else
        _ ← open p (mkOpen false true false true);
        (locked (MapOp.remember_exclusive_verifier r verifier) : prog unit)
  | File Unchecked => _ ← open p (mkOpen false true true false); apply_attributes p attributes
  | File Guarded => _ ← open p (mkOpen false true false true); apply_attributes p attributes
  | Directory => _ ← host_unit (HostOp.create_dir p) eq_refl; apply_attributes p attributes
  | Symlink target => host_unit (HostOp.symlink target p) eq_refl
  end.

Definition create_object (parent : ObjectKey) (name : NfsName.t) (attributes : SetAttributes) (kind : CreateKind)
    : prog (MutationResult CreatedObject) :=
  _ ← from_result (validate_attributes attributes);
  snapshot ← parent_snapshot parent;
  m ← symlink_metadata snapshot.2;
  if negb (is_dir m) then fail NfsError.NotDirectory
  else
    child ← child_path parent name;
    _ ← create_host child.1 child.2 attributes kind;
    m ← symlink_metadata child.2;
    c ← created child.1 m;
    after ← after_attributes parent snapshot.2;
    mret (mkMutationResult c snapshot.1 after).

Definition remove_object (parent : ObjectKey) (name : NfsName.t) (directory : bool) : prog (MutationResult unit) :=
  snapshot ← parent_snapshot parent;
  child ← child_path parent name;
  m ← symlink_metadata child.2;
  _ ← (if directory then
         if negb (is_dir m) then fail NfsError.NotDirectory else host_unit (HostOp.remove_dir child.2) eq_refl
       else if is_dir m then fail NfsError.IsDirectory else host_unit (HostOp.remove_file child.2) eq_refl : prog unit);
  _ ← (locked (MapOp.forget_prefix child.1) : prog unit);
  after ← after_attributes parent snapshot.2;
  mret (mkMutationResult tt snapshot.1 after).

Definition getattr (o : ObjectKey) : prog FileAttributes :=
  x ← object_path o; m ← symlink_metadata x.2; mret (metadata_to_attributes x.1 m).

Definition dot_name : list byte := [Byte.x2e].
Definition dotdot_name : list byte := [Byte.x2e; Byte.x2e].

(** The lock is held from [relative] to [intern] for the two dot names. *)
Definition lookup (parent : ObjectKey) (name : NfsName.t) : prog CreatedObject :=
  if bool_decide (NfsName.as_bytes name = dot_name) || bool_decide (NfsName.as_bytes name = dotdot_name) then
    r ← (locked (MapOp.relative parent) : prog Relative);
    let r := if bool_decide (NfsName.as_bytes name = dotdot_name) then removelast r else r in
    p ← await (A := PathBuf) (locked (MapOp.path r));
    m ← symlink_metadata p;
    file_id ← intern r;
    mret (created_object file_id m)
  else
    child ← child_path parent name;
    m ← symlink_metadata child.2;
    created child.1 m.

Definition access (o : ObjectKey) (requested : Z) : prog Z := mret requested.

Definition setattr (o : ObjectKey) (attributes : SetAttributes) (guard : option NfsTime) : prog (MutationResult unit) :=
  x ← object_path o;
  b ← symlink_metadata x.2;
  if match guard with Some g => negb (bool_decide (g = change_time (metadata_to_attributes x.1 b))) | None => false end
  then fail NfsError.NotSynchronized
  else
    _ ← apply_attributes x.2 attributes;
    a ← symlink_metadata x.2;
    mret (mkMutationResult tt (Some (metadata_to_wcc b)) (Some (metadata_to_attributes x.1 a))).

Definition readlink (o : ObjectKey) : prog (list byte) :=
  x ← object_path o;
  m ← symlink_metadata x.2;
  if negb (is_symlink m) then fail NfsError.BadType
  else
    target ← try (A := list byte) (host (HostOp.read_link x.2));
    from_result (os_path_to_nfs_bytes target).

Definition u64_saturating_add (a b : Z) : Z := Z.min u64_max (a + b).
Definition not_a_file (m : Metadata) : NfsError.t := if is_dir m then NfsError.IsDirectory else NfsError.Invalid.

Definition read (o : ObjectKey) (offset count : Z) : prog ReadBytesResult :=
  x ← object_path o;
  file ← open x.2 reading;
  m ← file_metadata file;
  if negb (is_file m) then fail (not_a_file m)
  else
    let start := Z.min offset (md_len m) in
    let finish := Z.min (u64_saturating_add offset count) (md_len m) in
    _ ← host_unit (HostOp.seek file start) eq_refl;
    data ← try (A := list byte) (host (HostOp.read_exact file (finish - start)));
    mret (mkReadBytesResult data (finish =? md_len m) (Some (metadata_to_attributes x.1 m))).

Definition write (o : ObjectKey) (offset : Z) (data : list byte) (requested : WriteStability.t) : prog (MutationResult BackendWriteResult) :=
  x ← object_path o;
  b ← symlink_metadata x.2;
  if negb (is_file b) then fail (not_a_file b)
  else
    file ← open x.2 writing;
    _ ← host_unit (HostOp.seek file offset) eq_refl;
    _ ← host_unit (HostOp.write_all file data) eq_refl;
    committed ← (match requested with
                 | WriteStability.Unstable => mret WriteStability.Unstable
                 | WriteStability.DataSync => _ ← host_unit (HostOp.sync_data file) eq_refl; mret WriteStability.DataSync
                 | WriteStability.FileSync => _ ← host_unit (HostOp.sync_all file) eq_refl; mret WriteStability.FileSync
                 end : prog WriteStability.t);
    a ← file_metadata file;
    mret (mkMutationResult (mkBackendWriteResult (Z.min (zlen data) u32_max) committed) (Some (metadata_to_wcc b)) (Some (metadata_to_attributes x.1 a))).

Definition create (parent : ObjectKey) (name : NfsName.t) (a : SetAttributes) (mode : CreateMode) := create_object parent name a (File mode).
Definition mkdir (parent : ObjectKey) (name : NfsName.t) (a : SetAttributes) := create_object parent name a Directory.
Definition symlink (parent : ObjectKey) (name : NfsName.t) (target : list byte) (a : SetAttributes) := create_object parent name a (Symlink target).
Definition remove (parent : ObjectKey) (name : NfsName.t) := remove_object parent name false.
Definition rmdir (parent : ObjectKey) (name : NfsName.t) := remove_object parent name true.
Definition rename_host_path (from to : PathBuf) (case_only : bool) : prog unit := host_unit (HostOp.rename from to) eq_refl.

Definition rename (from_parent : ObjectKey) (from_name : NfsName.t) (to_parent : ObjectKey) (to_name : NfsName.t)
    : prog (MutationResult unit * MutationResult unit) :=
  from_snapshot ← parent_snapshot from_parent;
  to_snapshot ← parent_snapshot to_parent;
  from ← child_path from_parent from_name;
  to ← child_path to_parent to_name;
  _ ← rename_host_path from.2 to.2 (relative_eq from.1 to.1);
  _ ← (locked (MapOp.move_prefix from.1 to.1) : prog unit);
  from_after ← after_attributes from_parent from_snapshot.2;
  to_after ← after_attributes to_parent to_snapshot.2;
  mret (mkMutationResult tt from_snapshot.1 from_after, mkMutationResult tt to_snapshot.1 to_after).

Definition commit (o : ObjectKey) : prog (MutationResult unit) :=
  x ← object_path o;
  b ← symlink_metadata x.2;
  file ← open x.2 (mkOpen true true false false);
  _ ← host_unit (HostOp.sync_all file) eq_refl;
  a ← symlink_metadata x.2;
  mret (mkMutationResult tt (Some (metadata_to_wcc b)) (Some (metadata_to_attributes x.1 a))).

(** *** READDIR *)

(** [while let Some(entry) = reader.next_entry().await?], over what the reader
    yields; [entry.path()] is the directory joined with the name. *)
Fixpoint read_children (directory : PathBuf) (yielded : list (result io_error OsString)) : prog (list (list byte * Metadata)) :=
  match yielded with
  | [] => mret []
  | Err e :: _ => fail (map_io_error e)
  | Ok name :: yielded =>
      bytes ← from_result (os_component_to_nfs_bytes name);
      m ← symlink_metadata (push directory name);
      children ← read_children directory yielded;
      mret ((bytes, m) :: children)
  end.

(** [children.sort_by(|left, right| left.0.cmp(&right.0))], a stable sort *)
Fixpoint bytes_leb (a b : list byte) : bool :=
  match a, b with
  | [], _ => true
  | _ :: _, [] => false
  | x :: a, y :: b => (byte_val x <? byte_val y) || (byte_val x =? byte_val y) && bytes_leb a b
  end.
Fixpoint insert_child (c : list byte * Metadata) (l : list (list byte * Metadata)) : list (list byte * Metadata) :=
  match l with
  | [] => [c]
  | d :: l => if bytes_leb c.1 d.1 then c :: d :: l else d :: insert_child c l
  end.
Definition sort_children (l : list (list byte * Metadata)) : list (list byte * Metadata) := foldr insert_child [] l.

Fixpoint list_entries (directory : ObjectKey) (cookie : Z) (selected : list (list byte * Metadata)) : prog (list DirectoryEntry) :=
  match selected with
  | [] => mret []
  | (bytes, m) :: selected =>
      name ← from_result (NfsName.new bytes);
      r ← (locked (MapOp.child_relative directory name) : prog Relative);
      file_id ← intern r;
      entries ← list_entries directory (cookie + 1) selected;
      mret (mkDirectoryEntry (key file_id) file_id name (cookie + 1) (Some (metadata_to_attributes file_id m)) :: entries)
  end.

Definition readdir (directory : ObjectKey) (cookie : Z) (verifier : list byte) (backend_hint : Z) : prog ReadDirectoryPage :=
  x ← object_path directory;
  m ← symlink_metadata x.2;
  if negb (is_dir m) then fail NfsError.NotDirectory
  else
    let current_verifier := directory_verifier m in
    if negb (cookie =? 0) && negb (bool_decide (verifier = current_verifier)) then fail NfsError.BadCookie
    else
      yielded ← try (A := list (result io_error OsString)) (host (HostOp.read_dir x.2));
      children ← read_children x.2 yielded;
      let children := sort_children children in
      let start := cookie in
      entries ← list_entries directory start (take (Z.to_nat (Z.max backend_hint 1)) (drop (Z.to_nat start) children));
      mret (mkReadDirectoryPage current_verifier entries (zlen children <=? saturating_add start (zlen entries))).

Definition fsstat : FsStat := mkFsStat (Z.shiftl 1 40) (Z.shiftl 1 39) (Z.shiftl 1 39) 1000000 999000 999000 1.
Definition fsinfo : FsInfo :=
  mkFsInfo (1024 * 1024) (128 * 1024) 4096 (1024 * 1024) (128 * 1024) 4096 (32 * 1024) u64_max (mkNfsTime 0 1).
Definition pathconf : PathConf := mkPathConf u32_max NfsName.MAX_LEN true true false true.
Definition capabilities : VfsCapabilities := mkVfsCapabilities false false true false true true.

(** The backend as the server sees it: a program for each operation that answers
    with a result, the defaults of the trait for [mknod] and [link]. *)
Definition mirror (o : VfsOp.t) : free effect (VfsOp.response o) :=
  match o as o return free effect (VfsOp.response o) with
  | VfsOp.capabilities => Done capabilities
  | VfsOp.root => Done (key ROOT_ID)
  | VfsOp.getattr _ o => getattr o
  | VfsOp.lookup _ parent name => lookup parent name
  | VfsOp.access _ o requested => access o requested
  | VfsOp.setattr _ o attributes guard => setattr o attributes guard
  | VfsOp.readlink _ o => readlink o
  | VfsOp.read_bytes _ o offset count => read o offset count
  | VfsOp.write _ o offset data requested => write o offset data requested
  | VfsOp.create _ parent name attributes mode => create parent name attributes mode
  | VfsOp.mkdir _ parent name attributes => mkdir parent name attributes
  | VfsOp.symlink _ parent name target attributes => symlink parent name target attributes
  | VfsOp.mknod _ _ _ _ _ => Done (Err (unsupported_mutation capabilities))
  | VfsOp.remove _ parent name => remove parent name
  | VfsOp.rmdir _ parent name => rmdir parent name
  | VfsOp.rename _ from_parent from_name to_parent to_name => rename from_parent from_name to_parent to_name
  | VfsOp.link _ _ _ _ => Done (Err (unsupported_mutation capabilities))
  | VfsOp.readdir _ o cookie verifier hint => readdir o cookie verifier hint
  | VfsOp.fsstat _ _ => Done (Ok fsstat)
  | VfsOp.fsinfo _ _ => Done (Ok fsinfo)
  | VfsOp.pathconf _ _ => Done (Ok pathconf)
  | VfsOp.commit _ o _ _ => commit o
  end.

(** A run of a request: the map answers the locked sections, [host] the rest. *)
Definition answers {H} (order : gmap Z RelativeKey -> list (Z * RelativeKey)) (host : forall o : HostOp.t, H -> HostOp.response o * H)
    (e : effect) (s : FsMap * H) : reply_of e * (FsMap * H) :=
  match e as e return reply_of e * (FsMap * H) with
  | Host o => let '(r, h) := host o s.2 in (r, (s.1, h))
  | Locked o => let '(r, m) := MapOp.step order o s.1 in (r, (m, s.2))
  end.
