(* ===== verification/MirrorFsSpec.v ===== *)
(** * The mirror stays inside its directory

    Requests of many clients run at the same time, their effects interleaved in any
    way. Objects are only ever reached by paths of plain names below the mirrored
    directory, and a request adds to such a path no more than the name it was given
    or one the host listed. What is assumed of the host is [polite]. *)
From S2P Require Import Prelude VfsTypes Vfs Free MirrorMap MirrorFs.
From stdpp Require Import list gmap sets.
#[local] Open Scope Z_scope.

(** ** Plain paths *)

Definition dots (n : OsString) : Prop := n = dot_name \/ n = dotdot_name.
#[global] Instance dots_dec n : Decision (dots n).
Proof. unfold dots. apply _. Defined.
(** A component is a name without separators; a plain one is not a dot name. *)
Definition component (n : OsString) : Prop := n <> [] /\ NfsName.slash ∉ n.
Definition plain (r : Relative) : Prop := Forall (fun n => component n /\ ~ dots n) r.

Lemma plain_snoc r n : plain r -> component n -> ~ dots n -> plain (r ++ [n]).
Proof. intros Hr Hn Hd. apply Forall_app. split; [done|]. by constructor. Qed.
Lemma plain_removelast r : plain r -> plain (removelast r).
Proof.
  intros Hr. induction Hr as [|n r Hn Hr IH]; [constructor|]. simpl. destruct r; [constructor|]. by constructor.
Qed.
Lemma plain_reroot from to r : plain to -> plain r -> plain (reroot from to r).
Proof. intros Ht Hr. apply Forall_app. split; [done|]. by apply Forall_drop. Qed.

Lemma valid_component n : NfsName.valid n -> component (NfsName.as_bytes n).
Proof. intros (Hl & Hs & _). split; [|done]. intros E. rewrite E in Hl. unfold zlen in Hl. simpl in Hl. lia. Qed.

(** A component never replaces the path it is joined to. *)
Lemma push_component p n : component n ->
  push p n = match last p with
             | Some b => if bool_decide (b = Byte.x2f) then p ++ n else p ++ Byte.x2f :: n
             | None => n
             end.
Proof. intros [_ Hs]. destruct n as [|b n]; [done|]. destruct b; try reflexivity. exfalso. apply Hs. by left. Qed.
Lemma push_prefix p n : component n -> p `prefix_of` push p n.
Proof.
  intros Hn. rewrite (push_component p n Hn). destruct (last p) as [d|] eqn:E; [destruct (bool_decide _); by eexists|].
  apply last_None in E as ->. apply prefix_nil.
Qed.
Lemma extend_prefix dir r : Forall component r -> dir `prefix_of` extend dir r.
Proof.
  intros Hr. revert dir. induction Hr as [|n r Hn Hr IH]; intros dir; simpl; [done|]. etrans; [by apply push_prefix|]. apply IH.
Qed.
Lemma extend_snoc dir r n : extend dir (r ++ [n]) = push (extend dir r) n.
Proof. unfold extend. by rewrite fold_left_app. Qed.

(** ** What is assumed of the host *)

(** A path that ends in a dot name. *)
Definition dotted (p : PathBuf) : Prop := exists b n, dots n /\ p = push b n.

(** The host creates nothing under a dot name (such a path names a directory that
    exists, or is in none), moves nothing onto one, and lists no dot names; what it
    lists are names. *)
Definition polite (o : HostOp.t) : HostOp.response o -> Prop :=
  match o with
  | HostOp.open p options => fun r => dotted p -> o_create options || o_create_new options = true -> is_ok r = false
  | HostOp.create_dir p => fun r => dotted p -> is_ok r = false
  | HostOp.symlink _ p => fun r => dotted p -> is_ok r = false
  | HostOp.rename _ p => fun r => dotted p -> is_ok r = false
  | HostOp.read_dir _ => fun r => forall l n, r = Ok l -> Ok n ∈ l -> component n /\ ~ dots n
  | _ => fun _ => True
  end.

(** ** Requests ask for paths inside *)

Section Inside.
Context (dir : PathBuf).

Definition within (p : PathBuf) : Prop := exists r, plain r /\ p = extend dir r.

(** What a request with these names may ask for, and what it is answered. *)
Definition asks (names : list NfsName.t) (e : effect) : Prop :=
  match e with
  | Host o => Forall (fun p => within p \/ exists r n, plain r /\ n ∈ names /\ p = extend dir (r ++ [NfsName.as_bytes n])) (HostOp.paths_of o)
  | Locked (MapOp.intern r) => plain r
  | Locked (MapOp.remember_exclusive_verifier r _) => plain r
  | Locked (MapOp.move_prefix _ to) => plain to
  | Locked _ => True
  end.
Definition gets (e : effect) : reply_of e -> Prop :=
  match e as e return reply_of e -> Prop with
  | Host o => polite o
  | Locked (MapOp.object_path _) => fun x => forall i p, x = Ok (i, p) -> within p
  | Locked (MapOp.child_path _ name) => fun x => forall r p, x = Ok (r, p) ->
      exists r0, plain r0 /\ r = r0 ++ [NfsName.as_bytes name] /\ p = extend dir r
  | Locked (MapOp.relative _) => fun x => forall r, x = Ok r -> plain r
  | Locked (MapOp.child_relative _ name) => fun x => forall r, x = Ok r -> exists r0, plain r0 /\ r = r0 ++ [NfsName.as_bytes name]
  | Locked (MapOp.path r) => fun x => x = extend dir r
  | Locked (MapOp.exclusive_verifier r) => fun x => forall v, x = Ok (Some v) -> plain r
  | Locked _ => fun _ => True
  end.

Context (names : list NfsName.t) (Hnames : Forall NfsName.valid names).

Definition safe {A} (Q : A -> Prop) (p : prog A) : Prop :=
  fwp True (asks names) gets (fun r => match r with Ok a => Q a | Err _ => True end) p.

Lemma safe_bind {A B} (Q : B -> Prop) (p : prog A) (f : A -> prog B) : safe (fun a => safe Q (f a)) p -> safe Q (p ≫= f).
Proof. intros H. apply (fwp_bind (H := mirror_effects)). eapply fwp_mono; [..|exact H]; try done. by intros [a|e]. Qed.
Lemma safe_mono {A} (Q1 Q2 : A -> Prop) p : (forall a, Q1 a -> Q2 a) -> safe Q1 p -> safe Q2 p.
Proof. intros HQ. apply fwp_mono; try done. intros [a|e]; auto. Qed.
Lemma safe_ret {A} (Q : A -> Prop) a : Q a -> safe Q (mret a).
Proof. done. Qed.
Lemma safe_fail {A} (Q : A -> Prop) e : safe Q (fail e).
Proof. done. Qed.
Lemma safe_result {A} (Q : A -> Prop) r : (forall a, r = Ok a -> Q a) -> safe Q (from_result r).
Proof. destruct r; unfold safe, from_result; simpl; auto. Qed.

Lemma reaches_within p : within p -> Forall (fun p => within p \/ exists r n, plain r /\ n ∈ names /\ p = extend dir (r ++ [NfsName.as_bytes n])) [p].
Proof. intros H. apply Forall_singleton. by left. Qed.
Lemma reaches_child r n : plain r -> n ∈ names ->
  Forall (fun p => within p \/ exists r n, plain r /\ n ∈ names /\ p = extend dir (r ++ [NfsName.as_bytes n])) [extend dir (r ++ [NfsName.as_bytes n])].
Proof. intros Hr Hn. apply Forall_singleton. right. eauto. Qed.

Lemma fwp_cast (T : Type) e (E : reply_of e = T) (K : T -> Prop) :
  asks names e -> (forall r, gets e r -> K (eq_rect _ (fun T => T) r _ E)) -> fwp True (asks names) gets K (eq_rect _ (free effect) (ask e) _ E).
Proof. destruct E. simpl. intros Ha Hk. split; [done|]. intros r Hr. by apply Hk. Qed.

(** Host operations: their paths are allowed, and the answer is polite. *)
Lemma safe_try {A} (Q : A -> Prop) o (E : HostOp.response o = result io_error A) :
  asks names (Host o) -> (forall r : HostOp.response o, polite o r -> forall a, eq_rect _ (fun T => T) r _ E = Ok a -> Q a) ->
  safe Q (try (eq_rect _ (free effect) (host o) _ E)).
Proof.
  intros Ha Hq. apply (fwp_bind (H := mirror_effects)).
  apply (fwp_mono True True (asks names) (asks names) gets gets (fun r : result io_error A => forall a, r = Ok a -> Q a)); try done.
  - intros [a|e]; simpl; auto.
  - by apply (fwp_cast _ (Host o) E).
Qed.

Lemma safe_symlink_metadata Q p : asks names (Host (HostOp.symlink_metadata p)) -> (forall m, Q m) -> safe Q (symlink_metadata p).
Proof. intros Ha Hq. by apply (safe_try Q (HostOp.symlink_metadata p) eq_refl). Qed.
Lemma safe_open (Q : HostOp.Fd -> Prop) p options :
  asks names (Host (HostOp.open p options)) ->
  (forall f, (dotted p -> o_create options || o_create_new options = true -> False) -> Q f) -> safe Q (open p options).
Proof.
  intros Ha Hq. apply (safe_try Q (HostOp.open p options) eq_refl); [done|]. simpl. intros r Hr a ->. apply Hq.
  intros Hd Ho. by specialize (Hr Hd Ho).
Qed.
Lemma safe_unit Q o E : asks names (Host o) -> (forall r, polite o r -> eq_rect _ (fun T => T) r _ E = Ok tt -> Q tt) -> safe Q (host_unit o E).
Proof. intros Ha Hq. apply safe_try; [done|]. intros r Hr []. by apply Hq. Qed.
Lemma safe_await {A} (Q : A -> Prop) e (E : reply_of e = A) :
  asks names e -> (forall r, gets e r -> Q (eq_rect _ (fun T => T) r _ E)) -> safe Q (await (eq_rect _ (free effect) (ask e) _ E)).
Proof.
  intros Ha Hq. apply (fwp_bind (H := mirror_effects)). by apply fwp_cast.
Qed.
Lemma safe_object_path Q o : (forall i p, within p -> Q (i, p)) -> safe Q (object_path o).
Proof. intros Hq. split; [done|]. intros [[i p]|e] Hr; simpl; [|done]. apply Hq. by apply (Hr i). Qed.
Lemma safe_child_path Q parent name :
  (forall r0, plain r0 -> Q (r0 ++ [NfsName.as_bytes name], extend dir (r0 ++ [NfsName.as_bytes name]))) -> safe Q (child_path parent name).
Proof. intros Hq. split; [done|]. intros [[r p]|e] Hr; simpl; [|done]. destruct (Hr r p eq_refl) as (r0 & H0 & -> & ->). auto. Qed.
Lemma safe_intern Q r : plain r -> (forall i, Q i) -> safe Q (intern r).
Proof. intros Hr Hq. split; [done|]. intros [i|e] _; [apply Hq|done]. Qed.
Lemma safe_created Q r m : plain r -> (forall c, Q c) -> safe Q (created r m).
Proof. intros Hr Hq. apply safe_bind, safe_intern; [done|]. intros i. apply Hq. Qed.
Lemma safe_file_metadata Q f : (forall m, Q m) -> safe Q (file_metadata f).
Proof. intros Hq. apply (safe_try Q (HostOp.metadata f) eq_refl); [constructor|]. auto. Qed.
Lemma safe_after Q parent p : asks names (Host (HostOp.symlink_metadata p)) -> (forall a, Q a) -> safe Q (after_attributes parent p).
Proof. intros Ha Hq. apply safe_bind, (safe_await _ (Host (HostOp.symlink_metadata p)) eq_refl); [done|]. intros r _. apply Hq. Qed.
Lemma safe_parent_snapshot Q parent : (forall w p, within p -> Q (w, p)) -> safe Q (parent_snapshot parent).
Proof.
  intros Hq. apply safe_bind, safe_object_path. intros i p Hp. apply safe_bind, safe_symlink_metadata; [by apply reaches_within|].
  intros m. apply safe_ret. auto.
Qed.

(** *** The operations *)

Definition child_ok (r : Relative) (p : PathBuf) : Prop :=
  exists r0 n, plain r0 /\ n ∈ names /\ r = r0 ++ [NfsName.as_bytes n] /\ p = extend dir r.

Lemma reaches_ok r p : child_ok r p -> asks names (Host (HostOp.symlink_metadata p)).
Proof. intros (r0 & n & H0 & Hn & -> & ->). by apply reaches_child. Qed.

(** A child that is not dotted is plain. *)
Lemma child_plain r p : child_ok r p -> ~ dotted p -> plain r.
Proof using Hnames.
  intros (r0 & n & H0 & Hn & -> & ->) Hd. rewrite Forall_forall in Hnames. apply plain_snoc; [done|apply valid_component; auto|].
  intros Hdots. apply Hd. exists (extend dir r0), (NfsName.as_bytes n). split; [done|]. apply extend_snoc.
Qed.

Lemma safe_set_time (Q : Z * Z -> Prop) t : (forall t, Q t) -> safe Q (set_time_to_file_time t).
Proof.
  intros Hq. destruct t; simpl; [|by apply safe_ret]. apply (safe_await _ (Host HostOp.now) eq_refl); [constructor|]. intros r _. apply Hq.
Qed.

Lemma safe_apply_attributes Q p a : asks names (Host (HostOp.symlink_metadata p)) -> Q tt -> safe Q (apply_attributes p a).
Proof.
  intros Hp Hq. unfold apply_attributes. apply safe_bind, safe_result. intros _ _. apply safe_bind.
  assert (H4 : safe Q (match sa_modify_time a with
    | Some t => t ← set_time_to_file_time t; host_unit (HostOp.set_file_mtime p t.1 t.2) eq_refl | None => mret tt end)).
  { destruct (sa_modify_time a); [|done]. apply safe_bind, safe_set_time. intros t. by apply safe_unit. }
  apply (safe_mono (fun _ => True)).
  2: { destruct (sa_mode a); [|done]. by apply safe_unit. }
  intros _ _. apply safe_bind, (safe_mono (fun _ => True)).
  2: { destruct (sa_size a); [|done]. apply safe_bind, safe_open; [done|]. intros f _. apply safe_unit; [constructor|done]. }
  intros _ _. apply safe_bind, (safe_mono (fun _ => True)); [intros _ _; exact H4|].
  destruct (sa_access_time a); [|done]. apply safe_bind, safe_set_time. intros t. by apply safe_unit.
Qed.

Lemma safe_create_host (Q : unit -> Prop) r p a k : child_ok r p -> (plain r -> Q tt) -> safe Q (create_host r p a k).
Proof using Hnames.
  intros Hc Hq. pose proof (reaches_ok _ _ Hc) as Hp. pose proof (child_plain _ _ Hc) as Hpl.
  unfold create_host. destruct k as [[| |v]| |target].
  - apply safe_bind, safe_open; [done|]. intros f Hd. apply safe_apply_attributes; [done|]. apply Hq, Hpl. intros ?. by apply Hd.
  - apply safe_bind, safe_open; [done|]. intros f Hd. apply safe_apply_attributes; [done|]. apply Hq, Hpl. intros ?. by apply Hd.
  - apply safe_bind, (safe_await _ (Host (HostOp.symlink_metadata p)) eq_refl); [done|]. intros [m|e] _; simpl.
    + apply safe_bind. split; [done|]. intros [x|e] Hx; simpl; [|done]. case_bool_decide as Hv; [|done]. apply safe_ret, Hq. by eapply (Hx v); rewrite Hv.
    + apply safe_bind, safe_open; [done|]. intros f Hd. assert (plain r) by (apply Hpl; intros ?; by apply Hd).
      split; [done|]. intros [[]|err] _; simpl; auto.
  - apply safe_bind, (safe_unit _ (HostOp.create_dir p) eq_refl); [done|]. intros x Hx Hok. simpl in *. apply safe_apply_attributes; [done|]. apply Hq, Hpl. intros Hd. specialize (Hx Hd). by subst.
  - apply (safe_unit _ (HostOp.symlink target p) eq_refl); [done|]. intros x Hx Hok. simpl in *. apply Hq, Hpl. intros Hd. specialize (Hx Hd). by subst.
Qed.

Lemma safe_create_object parent n a k : n ∈ names -> safe (fun _ => True) (create_object parent n a k).
Proof using Hnames.
  intros Hn. unfold create_object. apply safe_bind, safe_result. intros _ _. apply safe_bind, safe_parent_snapshot. intros w p Hp.
  apply safe_bind, safe_symlink_metadata; [by apply reaches_within|]. intros m. destruct (negb _); [done|].
  apply safe_bind, safe_child_path. intros r0 H0. simpl. set (r := r0 ++ [NfsName.as_bytes n]).
  assert (Hc : child_ok r (extend dir r)) by (exists r0, n; by split_and!). apply safe_bind, safe_create_host; [done|]. intros Hr.
  apply safe_bind, safe_symlink_metadata; [by eapply reaches_ok|]. intros m'. apply safe_bind, safe_created; [done|]. intros c.
  apply safe_bind, safe_after; [by apply reaches_within|]. done.
Qed.

Lemma safe_remove_object parent n d : n ∈ names -> safe (fun _ => True) (remove_object parent n d).
Proof using Hnames.
  intros Hn. unfold remove_object. apply safe_bind, safe_parent_snapshot. intros w p Hp. apply safe_bind, safe_child_path. intros r0 H0. simpl.
  assert (Hc := reaches_child r0 n H0 Hn). apply safe_bind, safe_symlink_metadata; [done|]. intros m. apply safe_bind, (safe_mono (fun _ => True)).
  - intros [] _. apply safe_bind. split; [done|]. intros [[]|e] _; simpl; [|done]. apply safe_bind, safe_after; [by apply reaches_within|]. done.
  - destruct d; [destruct (negb _)|destruct (is_dir m)]; try done; by apply safe_unit.
Qed.

Ltac step_safe :=
  match goal with
  | |- safe _ (_ ≫= _) => apply safe_bind
  | |- safe _ (object_path _) => apply safe_object_path; intros ? ? ?
  | |- safe _ (symlink_metadata _) => apply safe_symlink_metadata; [first [by apply reaches_within | by eapply reaches_child]|intros ?]
  | |- safe _ (open _ _) => apply safe_open; [by apply reaches_within|intros ? _]
  | |- safe _ (file_metadata _) => apply safe_file_metadata; intros ?
  | |- safe _ (host_unit _ _) => apply safe_unit; [first [by constructor | by apply reaches_within]|intros ? _ _]
  | |- safe _ (fail _) => done
  | |- safe _ (mret _) => done
  | |- safe _ (from_result _) => apply safe_result; intros ? _
  | |- safe _ (if _ then _ else _) => case_match
  end; cbn beta; cbn [fst snd].

Lemma safe_getattr o : safe (fun _ => True) (getattr o).
Proof. unfold getattr. by repeat step_safe. Qed.
Lemma safe_setattr o a g : safe (fun _ => True) (setattr o a g).
Proof.
  unfold setattr. repeat step_safe. apply safe_apply_attributes; [by apply reaches_within|]. by repeat step_safe.
Qed.
Lemma safe_readlink o : safe (fun _ => True) (readlink o).
Proof.
  unfold readlink. repeat step_safe. apply (safe_try _ (HostOp.read_link _) eq_refl); [by apply reaches_within|]. intros ? _ ? _. done.
Qed.
Lemma safe_read o offset count : safe (fun _ => True) (read o offset count).
Proof.
  unfold read. repeat step_safe. apply (safe_try _ (HostOp.read_exact _ _) eq_refl); [constructor|]. intros ? _ ? _. by repeat step_safe.
Qed.
Lemma safe_write o offset data st : safe (fun _ => True) (write o offset data st).
Proof.
  unfold write. repeat step_safe. apply (safe_mono (fun _ => True)); [intros; by repeat step_safe|]. destruct st; by repeat step_safe.
Qed.
Lemma safe_commit o : safe (fun _ => True) (commit o).
Proof. unfold commit. by repeat step_safe. Qed.

Lemma safe_lookup parent n : n ∈ names -> safe (fun _ => True) (MirrorFs.lookup parent n).
Proof using Hnames.
  intros Hn. unfold MirrorFs.lookup. destruct (bool_decide (NfsName.as_bytes n = dot_name) || bool_decide (NfsName.as_bytes n = dotdot_name)) eqn:Hd.
  - apply safe_bind. split; [done|]. intros [r|e] Hr; simpl; [|done]. set (r' := if bool_decide _ then removelast r else r).
    assert (Hp : plain r') by (unfold r'; specialize (Hr r eq_refl); destruct (bool_decide (NfsName.as_bytes n = dotdot_name)); [by apply plain_removelast|done]). clearbody r'.
    apply safe_bind, (safe_await _ (Locked (MapOp.path r')) eq_refl); [done|]. intros p Hpath. simpl in *. subst p.
    apply safe_bind, safe_symlink_metadata; [apply reaches_within; by exists r'|]. intros m. apply safe_bind, safe_intern; [done|]. by intros i.
  - apply orb_false_iff in Hd as [H1 H2]. apply bool_decide_eq_false in H1, H2. apply safe_bind, safe_child_path. intros r0 H0. simpl.
    apply safe_bind, safe_symlink_metadata; [by apply reaches_child|]. intros m. rewrite Forall_forall in Hnames.
    apply safe_created; [|done]. apply plain_snoc; [done|by apply valid_component, Hnames|]. unfold dots. tauto.
Qed.

Lemma safe_rename fp fn tp tn : fn ∈ names -> tn ∈ names -> safe (fun _ => True) (rename fp fn tp tn).
Proof using Hnames.
  intros Hf Ht. unfold rename. apply safe_bind, safe_parent_snapshot. intros w1 p1 Hp1. apply safe_bind, safe_parent_snapshot. intros w2 p2 Hp2.
  apply safe_bind, safe_child_path. intros r1 H1. apply safe_bind, safe_child_path. intros r2 H2. cbn [fst snd].
  set (from := r1 ++ _). set (to := r2 ++ _). assert (Hto : child_ok to (extend dir to)) by (exists r2, tn; by split_and!).
  apply safe_bind, (safe_unit _ (HostOp.rename _ _) eq_refl).
  - constructor; [right; exists r1, fn; done|]. by apply (reaches_child r2 tn).
  - intros x Hx Hok. simpl in *. assert (plain to) by (eapply child_plain; [done|]; intros Hd; specialize (Hx Hd); by subst).
    apply safe_bind. split; [done|]. intros [[]|e] _; simpl; [|done]. apply safe_bind, safe_after; [by apply reaches_within|]. intros a1.
    apply safe_bind, safe_after; [by apply reaches_within|]. done.
Qed.

Lemma safe_read_children p l : within p -> (forall n, Ok n ∈ l -> component n /\ ~ dots n) ->
  safe (Forall (fun c => component c.1 /\ ~ dots c.1)) (read_children p l).
Proof.
  intros (r & Hr & ->). induction l as [|[n|e] l IH]; intros Hl; [by constructor| |done]. destruct (Hl n) as [Hc Hd]; [by left|].
  simpl. apply safe_bind, safe_result. intros b [= <-]. apply safe_bind, safe_symlink_metadata.
  - apply reaches_within. exists (r ++ [n]). split; [by apply plain_snoc|]. by rewrite extend_snoc.
  - intros m. apply safe_bind. eapply safe_mono; [|apply IH]; [|intros n' Hn'; apply Hl; by right]. intros cs Hcs. apply safe_ret. by constructor.
Qed.

Lemma insert_child_Forall (P : list byte * Metadata -> Prop) c l : P c -> Forall P l -> Forall P (insert_child c l).
Proof. intros Hc Hl. induction Hl as [|d l Hd Hl IH]; simpl; [by constructor|]. destruct (bytes_leb _ _); by repeat constructor. Qed.
Lemma sort_children_Forall (P : list byte * Metadata -> Prop) l : Forall P l -> Forall P (sort_children l).
Proof. induction 1 as [|c l Hc Hl IH]; simpl; [constructor|]. by apply insert_child_Forall. Qed.

Lemma safe_list_entries o k l : Forall (fun c => component c.1 /\ ~ dots c.1) l -> safe (fun _ => True) (list_entries o k l).
Proof.
  intros Hl. revert k. induction Hl as [|[b m] l [Hc Hd] Hl IH]; intros k; [done|]. simpl. apply safe_bind, safe_result. intros n [<- Hv]%NfsName_new_ok.
  apply safe_bind. split; [done|]. intros [r|e] Hr; simpl; [|done]. destruct (Hr r eq_refl) as (r0 & H0 & ->).
  apply safe_bind, safe_intern; [by apply plain_snoc|]. intros i. apply safe_bind. eapply safe_mono; [|apply IH]. done.
Qed.

Lemma safe_readdir o k v h : safe (fun _ => True) (readdir o k v h).
Proof.
  unfold readdir. apply safe_bind, safe_object_path. intros i p Hp. apply safe_bind, safe_symlink_metadata; [by apply reaches_within|]. intros m.
  destruct (negb _); [done|]. destruct (_ && _); [done|]. apply safe_bind, (safe_try _ (HostOp.read_dir p) eq_refl); [by apply reaches_within|].
  intros l Hl l' E. simpl in *. subst l. apply safe_bind. eapply safe_mono; [|apply safe_read_children; [done|intros n Hn; by apply (Hl l' n)]].
  intros cs Hcs. apply safe_bind. eapply safe_mono; [|apply safe_list_entries, Forall_take, Forall_drop, sort_children_Forall, Hcs]. done.
Qed.

(** Every request, whatever it is answered. *)
Lemma mirror_safe o : names = VfsOp.names_of o -> fwp True (asks names) gets (fun _ => True) (mirror o).
Proof using Hnames.
  intros En. assert (Hs : forall A (p : prog A), safe (fun _ => True) p -> fwp True (asks names) gets (fun _ => True) p).
  { intros A p. apply fwp_mono; done. }
  destruct o; simpl in En; cbn [mirror]; try done; apply Hs.
  - apply safe_getattr.
  - apply safe_lookup. rewrite En. by left.
  - apply safe_setattr.
  - apply safe_readlink.
  - apply safe_read.
  - apply safe_write.
  - unfold create, mkdir, symlink, MirrorFs.remove, rmdir. apply safe_create_object. rewrite En. by left.
  - unfold create, mkdir, symlink, MirrorFs.remove, rmdir. apply safe_create_object. rewrite En. by left.
  - unfold create, mkdir, symlink, MirrorFs.remove, rmdir. apply safe_create_object. rewrite En. by left.
  - unfold create, mkdir, symlink, MirrorFs.remove, rmdir. apply safe_remove_object. rewrite En. by left.
  - unfold create, mkdir, symlink, MirrorFs.remove, rmdir. apply safe_remove_object. rewrite En. by left.
  - apply safe_rename; rewrite En; set_solver.
  - apply safe_readdir.
  - apply safe_commit.
Qed.
End Inside.

(** ** The map keeps plain paths *)

Definition tidy (dir : PathBuf) (m : FsMap) : Prop :=
  root m = dir /\ exists a, represents m a /\ (forall i r, paths a !! i = Some r -> plain r) /\ (forall r v, verifiers a !! r = Some v -> plain r).

Lemma tidy_new dir : tidy dir (new dir).
Proof.
  split; [done|]. eexists. split; [apply represents_start|]. split; simpl; [|done]. intros i r [_ <-]%lookup_singleton_Some. constructor.
Qed.

Section Keeping.
Context (order : gmap Z RelativeKey -> list (Z * RelativeKey)) {Horder : AnyOrder order}.

Lemma forget_root p m : root (forget_prefix order p m).2 = root m.
Proof.
  unfold forget_prefix. simpl. unfold forget_ids. generalize (below order m p p). intros l. revert m.
  induction l as [|[i k] l IH]; intros m; simpl; [done|]. by rewrite IH.
Qed.
Lemma move_ids_root f t l m : root (move_ids f t f t l m).2 = root m.
Proof.
  revert m. induction l as [|[i k] l IH]; intros m; simpl; [done|]. unfold move_id. destruct (id_to_relative m !! i); [|done].
  destruct (take_exclusive_verifier _ _ _). by rewrite IH.
Qed.
Lemma map_call_root c m : root (map_call order c m).2 = root m.
Proof.
  destruct c as [r|p|f t|r v]; unfold map_call.
  - unfold MirrorMap.intern. simpl. by destruct (List.find _ (default _ _)) as [i|].
  - pose proof (forget_root p m). by destruct (forget_prefix order p m).
  - unfold move_prefix. simpl. destruct (negb _).
    + pose proof (forget_root t m) as Hr. destruct (forget_prefix order t m) as [[[]|e] m1]; simpl in *; [|done].
      pose proof (move_ids_root f t (below order m1 f f) m1). destruct (move_ids _ _ _ _ _ _). simpl in *. congruence.
    + pose proof (move_ids_root f t (below order m f f) m). by destruct (move_ids _ _ _ _ _ _).
  - done.
Qed.

Definition call_plain (c : MapCall) : Prop :=
  match c with Intern r => plain r | Remember r _ => plain r | Move _ to => plain to | Forget _ => True end.

Lemma call_spec_plain c a out a' : call_spec c a out a' -> call_plain c ->
  (forall i r, paths a !! i = Some r -> plain r) /\ (forall r v, verifiers a !! r = Some v -> plain r) ->
  (forall i r, paths a' !! i = Some r -> plain r) /\ (forall r v, verifiers a' !! r = Some v -> plain r).
Proof.
  intros Hc Hp [Hr Hv]. destruct Hc as [r a i a' Hi|p a|f t a a' Hm|r v a]; simpl in *.
  - destruct Hi; [done|]. simpl. split; [|done]. intros j r' [[_ <-]|[_ Hj]]%lookup_insert_Some; eauto.
  - split; [intros i r [Hi _]%map_lookup_filter_Some|intros r v [Hi _]%map_lookup_filter_Some]; eauto.
  - assert (Hb : (forall i r, paths (base f t a) !! i = Some r -> plain r) /\ (forall r v, verifiers (base f t a) !! r = Some v -> plain r)).
    { unfold base. destruct (decide _); [done|]. simpl. split; [intros i r [Hi _]%map_lookup_filter_Some|intros r v [Hi _]%map_lookup_filter_Some]; eauto. }
    destruct Hb as [Hbr Hbv]. split.
    + intros i r. rewrite (mv_paths _ _ _ _ Hm), lookup_fmap. intros (r0 & Hi & ->)%fmap_Some. case_bool_decide; [|eauto]. apply plain_reroot; eauto.
    + intros q v Hq. destruct (decide (Exists (fun x => f `prefix_of` x.2 /\ (q = reroot f t x.2 \/ q = x.2)) (map_to_list (paths (base f t a))))) as [Hx|Hx].
      * apply Exists_exists in Hx as ([i k] & Hin%elem_of_map_to_list & Hk & Hqk). destruct Hqk as [-> | ->]; simpl in *; [apply plain_reroot; eauto|eauto].
      * rewrite (mv_left _ _ _ _ Hm) in Hq; [eauto|]. intros i k Hi Hk. split; intros ->; apply Hx, Exists_exists; exists (i, k);
          (split; [by apply elem_of_map_to_list|auto]).
  - split; [done|]. intros q v' [[<- _]|[_ Hq]]%lookup_insert_Some; eauto.
Qed.

Lemma map_call_tidy dir c m : tidy dir m -> call_plain c -> tidy dir (map_call order c m).2.
Proof using Horder.
  intros (Hroot & a & Hr & Hp) Hc. split; [by rewrite map_call_root|]. destruct (map_call_refines order c m a Hr) as (out & a' & Hs & _ & Hr').
  exists a'. split; [done|]. by eapply call_spec_plain.
Qed.

(** A locked section answers as [gets] says and keeps the map tidy. *)
Lemma locked_tidy dir names o m : tidy dir m -> asks dir names (Locked o) ->
  gets dir (Locked o) (MapOp.step order o m).1 /\ tidy dir (MapOp.step order o m).2.
Proof using Horder.
  intros Ht Ha. pose proof Ht as (Hroot & a & Hr & Hp & Hv).
  assert (Hrel : forall o r, relative m o = Ok r -> plain r).
  { intros k r. rewrite (relative_refines _ _ _ Hr). destruct (_ =? _); [|done]. destruct (paths a !! file_id k) eqn:E; [|done]. intros [= <-]. eauto. }
  assert (Hch : forall parent name r, child_relative m parent name = Ok r -> exists r0, plain r0 /\ r = r0 ++ [NfsName.as_bytes name]).
  { intros parent name r. unfold child_relative. destruct (relative m parent) as [r0|] eqn:E; simpl; [|done]. intros [= <-]. eauto. }
  destruct o as [k|parent name|k|parent name|r|r|r|r v|p|f t]; cbn [MapOp.step gets fst snd].
  - split; [|done]. intros i p. destruct (relative m k) as [r|] eqn:E; simpl; [|done]. intros [= _ <-]. exists r. split; [eauto|]. unfold path. by rewrite Hroot.
  - split; [|done]. intros r p. destruct (child_relative m parent name) as [r'|] eqn:E; simpl; [|done]. intros [= <- <-].
    destruct (Hch _ _ _ E) as (r0 & ? & ->). exists r0. split_and!; [done..|]. unfold path. by rewrite Hroot.
  - split; [|done]. apply Hrel.
  - split; [|done]. apply Hch.
  - split; [|done]. unfold path. by rewrite Hroot.
  - pose proof (map_call_tidy dir (Intern r) m Ht Ha) as Hk. unfold map_call in Hk. by destruct (MirrorMap.intern r m).
  - split; [|done]. intros v. rewrite (exclusive_verifier_refines _ _ _ Hr). intros [= Hq]. eauto.
  - split; [done|]. exact (map_call_tidy dir (Remember r v) m Ht Ha).
  - split; [done|]. pose proof (map_call_tidy dir (Forget p) m Ht I) as Hk. unfold map_call in Hk. by destruct (forget_prefix order p m).
  - split; [done|]. pose proof (map_call_tidy dir (Move f t) m Ht Ha) as Hk. unfold map_call in Hk. by destruct (move_prefix order f t m).
Qed.
End Keeping.

(** ** Interleaved requests *)

(** A request in progress: its names and the rest of its program. *)
Abbreviation task := (list NfsName.t * free effect unit)%type.
Definition start (o : VfsOp.t) : task := (VfsOp.names_of o, mirror o ≫= fun _ => Done tt).

(** Requests arrive at any time; the host answers politely but otherwise as it
    likes, and also changes on its own; a locked section is atomic. *)
Inductive serves (order : gmap Z RelativeKey -> list (Z * RelativeKey)) :
    list task * FsMap -> list (list NfsName.t * effect) -> list task * FsMap -> Prop :=
| serves_nil s : serves order s [] s
| serves_arrive s evs ts m o : serves order s evs (ts, m) -> Forall NfsName.valid (VfsOp.names_of o) ->
    serves order s evs (ts ++ [start o], m)
| serves_host s evs ts m (j : nat) names o (k : HostOp.response o -> free effect unit) r : serves order s evs (ts, m) -> ts !! j = Some (names, @Ask _ mirror_effects _ (Host o) k) -> polite o r ->
    serves order s (evs ++ [(names, Host o)]) (<[j := (names, k r)]> ts, m)
| serves_locked s evs ts m (j : nat) names o (k : MapOp.response o -> free effect unit) : serves order s evs (ts, m) -> ts !! j = Some (names, @Ask _ mirror_effects _ (Locked o) k) ->
    serves order s (evs ++ [(names, Locked o)]) (<[j := (names, k (MapOp.step order o m).1)]> ts, (MapOp.step order o m).2).

Definition task_ok (dir : PathBuf) (t : task) : Prop := Forall NfsName.valid t.1 /\ fwp True (asks dir t.1) (gets dir) (fun _ => True) t.2.

Lemma request_task_ok dir o : Forall NfsName.valid (VfsOp.names_of o) -> task_ok dir (start o).
Proof.
  intros Hn. split; [done|]. simpl. apply (fwp_bind (H := mirror_effects)). eapply fwp_mono; [..|apply (mirror_safe dir _ Hn o eq_refl)]; done.
Qed.

Lemma serves_ok order `{AnyOrder order} dir s evs s' : serves order s evs s' -> s = ([], new dir) ->
  Forall (fun x => Forall NfsName.valid x.1 /\ asks dir x.1 x.2) evs /\ Forall (task_ok dir) s'.1 /\ tidy dir s'.2.
Proof.
  induction 1 as [s|s evs ts m o Hs IH Hn|s evs ts m j names o k r Hs IH Hj Hp|s evs ts m j names o k Hs IH Hj]; intros E.
  - subst. simpl. split_and!; [constructor..|apply tidy_new].
  - destruct (IH E) as (He & Ht & Hm). simpl in *. split_and!; [done| |done]. apply Forall_app. split; [done|]. apply Forall_singleton. by apply request_task_ok.
  - destruct (IH E) as (He & Ht & Hm). simpl in *. pose proof (Forall_lookup_1 _ _ _ _ Ht Hj) as [Hn [Ha Hk]]. split_and!; [|  |done].
    + apply Forall_app. split; [done|]. by apply Forall_singleton.
    + apply Forall_insert; [done|]. split; [done|]. by apply Hk.
  - destruct (IH E) as (He & Ht & Hm). simpl in *. pose proof (Forall_lookup_1 _ _ _ _ Ht Hj) as [Hn [Ha Hk]].
    destruct (locked_tidy order dir names o m Hm Ha) as [Hg Ht']. split_and!; [|  |done].
    + apply Forall_app. split; [done|]. by apply Forall_singleton.
    + apply Forall_insert; [done|]. split; [done|]. by apply Hk.
Qed.

(** A request that runs alone, against a polite host, is one way to serve it. *)
Lemma serves_exec {H} order (host : forall o : HostOp.t, H -> HostOp.response o * H) (p : free effect unit) : (forall o h, polite o (host o h).1) ->
  forall s evs ts m h (j : nat) names, serves order s evs (ts, m) -> ts !! j = Some (names, p) ->
  let '(out, (m', h'), trace) := exec (answers order host) p (m, h) in
  exists ts', serves order s (evs ++ map (pair names) trace) (ts', m').
Proof.
  intros Hpol. induction p as [a|e k IH|]; intros s evs ts m h j names Hs Hj; simpl; [rewrite app_nil_r; by eexists| |rewrite app_nil_r; by eexists].
  assert (Hlt := lookup_lt_Some _ _ _ Hj). destruct e as [o|o]; simpl.
  - pose proof (Hpol o h) as Hp. destruct (host o h) as [r h1]. specialize (IH r s _ _ m h1 j names (serves_host order _ _ _ _ _ _ _ _ r Hs Hj Hp)).
    rewrite list_lookup_insert_eq in IH by done. specialize (IH eq_refl). destruct (exec _ (k r) (m, h1)) as [[out [m' h']] trace].
    destruct IH as (ts' & Hts). exists ts'. by rewrite <-app_assoc in Hts.
  - pose proof (serves_locked order _ _ _ _ _ _ _ _ Hs Hj) as Hs'. destruct (MapOp.step order o m) as [r m1]. simpl in Hs'.
    specialize (IH r s _ _ m1 h j names Hs'). rewrite list_lookup_insert_eq in IH by done. specialize (IH eq_refl).
    destruct (exec _ (k r) (m1, h)) as [[out [m' h']] trace]. destruct IH as (ts' & Hts). exists ts'. by rewrite <-app_assoc in Hts.
Qed.

(** C33: the mirror stays inside its directory. However the requests of its clients
    interleave, every path given to the host begins with the mirrored directory and
    joins it with plain names, none of them a dot name or containing a separator,
    except that the last one may be the name the request itself carries; and every
    handle resolves to a path of plain names. *)
Theorem mirror_confined order `{AnyOrder order} dir evs ts m :
  serves order ([], new dir) evs (ts, m) ->
  (forall names o p, (names, Host o) ∈ evs -> p ∈ HostOp.paths_of o ->
    dir `prefix_of` p /\
    exists r, plain r /\ (p = extend dir r \/ exists n, n ∈ names /\ NfsName.valid n /\ p = push (extend dir r) (NfsName.as_bytes n))) /\
  (forall o r, relative m o = Ok r -> plain r).
Proof.
  intros Hs. destruct (serves_ok order dir _ _ _ Hs eq_refl) as (He & _ & Ht). split.
  - intros names o p Hin Hp. rewrite Forall_forall in He. destruct (He _ Hin) as [Hv Ha]. simpl in *. rewrite Forall_forall in Ha. rewrite Forall_forall in Hv.
    assert (Hc : forall r, plain r -> Forall component r) by (intros r Hr; eapply Forall_impl; [exact Hr|]; by intros n [Hn _]).
    destruct (Ha p Hp) as [(r & Hr & ->)|(r & n & Hr & Hn & ->)].
    + split; [by apply extend_prefix, Hc|]. exists r. auto.
    + split; [apply extend_prefix, Forall_app; split; [by apply Hc|]; apply Forall_singleton, valid_component; auto|].
      exists r. split; [done|]. right. exists n. rewrite extend_snoc. auto.
  - intros o r. destruct Ht as (_ & a & Hr & Hp & _). rewrite (relative_refines _ _ _ Hr). destruct (_ =? _); [|done].
    destruct (paths a !! file_id o) eqn:E; [|done]. intros [= <-]. eauto.
Qed.

(** ** A host at work *)

Definition sample_metadata (t : HostType.t) : Metadata := mkMetadata t 0 493 1 0 0 0 0 7 0 0 0 0 0 0.
Definition srv : PathBuf := [Byte.x2f; Byte.x73].
Definition file_name : NfsName.t := NfsName.mk [Byte.x61].
Definition parent_name : NfsName.t := NfsName.mk dotdot_name.
Definition sample_client : RequestContext := mkRequestContext (Principal.AuthSys 0 0 [] []) (mkSocketAddr (V4 1) 700) 1.

(** Everything exists and is of one type; nothing is created or removed. *)
Definition sample_host (t : HostType.t) (o : HostOp.t) (_ : unit) : HostOp.response o * unit :=
  (match o as o return HostOp.response o with
   | HostOp.symlink_metadata _ | HostOp.metadata _ => Ok (sample_metadata t)
   | HostOp.open _ options => if o_create options || o_create_new options then Err (mkIoError ErrorKind.AlreadyExists None) else Ok 3
   | HostOp.create_dir _ | HostOp.symlink _ _ | HostOp.rename _ _ => Err (mkIoError ErrorKind.AlreadyExists None)
   | HostOp.read_exact _ _ | HostOp.read_link _ => Ok []
   | HostOp.read_dir _ => Ok []
   | HostOp.now => (0, 0)
   | HostOp.remove_dir _ => Err (mkIoError ErrorKind.Other (Some 39))
   | _ => Ok tt
   end, tt).
Definition sample_run {A} (t : HostType.t) (p : free effect A) : option A * list effect :=
  let '(out, _, trace) := exec (answers map_to_list (sample_host t)) p (new srv, tt) in (out, trace).

(** RMDIR of the parent name asks the host to remove the directory above the
    mirrored one; the refusal is the host's. *)
Example parent_name_reaches_host :
  sample_run HostType.Dir (rmdir (key ROOT_ID) parent_name) =
    (Some (Err NfsError.NotEmpty),
     [Locked (MapOp.object_path (key ROOT_ID)); Host (HostOp.symlink_metadata srv); Locked (MapOp.child_path (key ROOT_ID) parent_name);
      Host (HostOp.symlink_metadata (srv ++ [Byte.x2f; Byte.x2e; Byte.x2e])); Host (HostOp.remove_dir (srv ++ [Byte.x2f; Byte.x2e; Byte.x2e]))]).
Proof. vm_compute. reflexivity. Qed.

(** SETATTR follows a symbolic link: the mode of an object whose own metadata say
    that it is a link is set through its path. *)
Example setattr_follows_link :
  (sample_run HostType.Symlink (setattr (key ROOT_ID) (mkSetAttributes (Some 0) None None None None None) None)).2 =
    [Locked (MapOp.object_path (key ROOT_ID)); Host (HostOp.symlink_metadata srv); Host (HostOp.set_permissions srv 128); Host (HostOp.symlink_metadata srv)].
Proof. vm_compute. reflexivity. Qed.

(** A lookup from its arrival to its answer. *)
Definition sample_lookup : VfsOp.t := VfsOp.lookup sample_client (key ROOT_ID) file_name.
Lemma sample_serves :
  exists evs ts m, serves map_to_list ([], new srv) evs (ts, m) /\ relative m (key 2) = Ok [NfsName.as_bytes file_name] /\
    ([file_name], Host (HostOp.symlink_metadata (srv ++ [Byte.x2f; Byte.x61]))) ∈ evs.
Proof.
  assert (Hv : Forall NfsName.valid (VfsOp.names_of sample_lookup)) by (apply Forall_singleton; refine (bool_decide_unpack _ _); by vm_compute).
  assert (Hpol : forall o h, polite o (sample_host HostType.File o h).1).
  { intros [] []; simpl; try done; [by intros _ -> | by intros l n [= <-] Hn%elem_of_nil]. }
  pose proof (serves_arrive map_to_list _ _ _ _ sample_lookup (serves_nil map_to_list ([], new srv)) Hv) as H1.
  pose proof (serves_exec map_to_list (sample_host HostType.File) _ Hpol _ _ _ _ tt 0 _ H1 eq_refl) as H2.
  set (x := exec _ _ (new srv, tt)) in H2.
  assert (Hr : relative x.1.2.1 (key 2) = Ok [NfsName.as_bytes file_name]) by (vm_compute; reflexivity).
  assert (Ht : x.2 = [Locked (MapOp.child_path (key ROOT_ID) file_name); Host (HostOp.symlink_metadata (srv ++ [Byte.x2f; Byte.x61]));
                      Locked (MapOp.intern [NfsName.as_bytes file_name])]) by (vm_compute; reflexivity).
  destruct x as [[out [m h]] trace]. destruct H2 as [ts H2]. exists ([] ++ map (pair [file_name]) trace), ts, m.
  cbn [fst snd] in Hr, Ht. split; [exact H2|]. split; [done|]. rewrite Ht. apply list_elem_of_In. simpl. auto.
Qed.

Lemma mirror_confined_witness :
  exists evs ts m, serves map_to_list ([], new srv) evs (ts, m) /\ evs <> [] /\
    (forall names o p, (names, Host o) ∈ evs -> p ∈ HostOp.paths_of o -> srv `prefix_of` p) /\ plain [NfsName.as_bytes file_name].
Proof.
  destruct sample_serves as (evs & ts & m & Hs & Hr & Hin). exists evs, ts, m.
  destruct (mirror_confined map_to_list srv evs ts m Hs) as [Hp Hm]. split_and!; [done|by intros ->; apply elem_of_nil in Hin| |by apply (Hm (key 2))].
  intros names o p Ho Hpath. by apply (Hp names o p).
Defined.
