(* ===== verification/FsUtil.v ===== *)
(** * [src/fs_util.rs]: host files as the demo server presents them

    Conversions from host metadata to the attributes of [nfs.rs], and the two
    functions that set attributes on host files. The host is the one of
    [MirrorFs]; the unix build is modelled. *)
From S2P Require Import Prelude Xdr LegacyNfs Free MirrorMap MirrorFs.
From stdpp Require Import list.
#[local] Open Scope Z_scope.

(** [u32::try_from(z).unwrap_or(u32::MAX)] for what is not negative *)
Definition saturating_u32 (z : Z) : Z := default u32_max (u32_try_from z).

(** [nfs_time], of a time given as seconds and nanoseconds since the epoch; a time
    before it counts as the epoch. *)
Definition nfs_time (seconds nanoseconds : Z) : nfstime3 :=
  if seconds <? 0 then mkTime 0 0 else mkTime (saturating_u32 seconds) nanoseconds.
Definition metadata_accessed (m : Metadata) : nfstime3 := nfs_time (md_atime m) (md_atime_nsec m).
Definition metadata_modified (m : Metadata) : nfstime3 := nfs_time (md_mtime m) (md_mtime_nsec m).
Definition metadata_changed (m : Metadata) : nfstime3 :=
  mkTime (saturating_u32 (Z.max (md_ctime m) 0)) (default 0 (u32_try_from (clamp 0 999999999 (md_ctime_nsec m)))).
Definition metadata_identity (m : Metadata) : Z := md_ino m.
Definition metadata_mode (m : Metadata) : Z := Z.land (Z.lor (md_mode m) 0x80) 0x1ff.
Definition metadata_owner (m : Metadata) : Z * Z := (md_uid m, md_gid m).

Definition metadata_differ (lhs rhs : Metadata) : bool :=
  let lhs_modified := metadata_modified lhs in
  let rhs_modified := metadata_modified rhs in
  negb (metadata_identity lhs =? metadata_identity rhs)
  || negb (seconds lhs_modified =? seconds rhs_modified)
  || negb (nseconds lhs_modified =? nseconds rhs_modified)
  || negb (md_len lhs =? md_len rhs)
  || negb (bool_decide (md_type lhs = md_type rhs)).

Definition fattr3_differ (lhs rhs : fattr3) : bool :=
  negb (fattr_fileid lhs =? fattr_fileid rhs)
  || negb (seconds (fattr_mtime lhs) =? seconds (fattr_mtime rhs))
  || negb (nseconds (fattr_mtime lhs) =? nseconds (fattr_mtime rhs))
  || negb (fattr_size lhs =? fattr_size rhs)
  || negb (ftype3_code (fattr_ftype lhs) =? ftype3_code (fattr_ftype rhs)).

Definition metadata_to_fattr3 (fid : fileid3) (m : Metadata) : fattr3 :=
  let size := md_len m in
  let '(uid, gid) := metadata_owner m in
  let '(ftype, nlink) := if is_file m then (NF3REG, 1) else if is_symlink m then (NF3LNK, 1) else (NF3DIR, 2) in
  mkFattr ftype (metadata_mode m) nlink uid gid size size (mkSpecdata 0 0) 0 fid (metadata_accessed m) (metadata_modified m) (metadata_changed m).

Definition io_error_to_nfs (error : io_error) : nfsstat3 :=
  match kind error with
  | ErrorKind.NotFound => NFS3ERR_NOENT
  | ErrorKind.PermissionDenied => NFS3ERR_ACCES
  | ErrorKind.AlreadyExists => NFS3ERR_EXIST
  | ErrorKind.InvalidInput | ErrorKind.InvalidData => NFS3ERR_INVAL
  | ErrorKind.StorageFull => NFS3ERR_NOSPC
  | ErrorKind.Other => NFS3ERR_IO
  end.

(** ** Programs over the host that end in an NFS status *)

Definition fsprog (A : Type) : Type := free effect (result nfsstat3 A).
#[global] Instance fsprog_ret : MRet fsprog := fun A a => Done (Ok a).
#[global] Instance fsprog_bind : MBind fsprog := fun A B f p =>
  free_bind_ (fun r => match r with Ok a => f a | Err e => Done (Err e) end) p.
Definition attempt {A} (p : free effect (result io_error A)) : fsprog A := free_bind_ (fun r => Done (map_err io_error_to_nfs r)) p.
Definition attempt_unit (o : HostOp.t) (H : HostOp.response o = result io_error unit) : fsprog unit :=
  attempt (eq_rect _ (free effect) (host o) _ H).

Definition exists_no_traverse (p : PathBuf) : free effect bool :=
  free_bind_ (fun r : result io_error Metadata => Done (is_ok r)) (host (HostOp.symlink_metadata p)).

Definition host_mode (mode : Z) : Z := Z.land (Z.lor mode 0x80) 0x1ff.
Definition set_path_mode (p : PathBuf) (mode : Z) : fsprog unit := attempt_unit (HostOp.set_permissions p (host_mode mode)) eq_refl.
Definition set_file_mode (f : HostOp.Fd) (mode : Z) : fsprog unit := attempt_unit (HostOp.set_file_permissions f (host_mode mode)) eq_refl.

Definition owner_change (s : sattr3) : bool :=
  match sattr_uid s with set_uid _ => true | uid_Void => false end || match sattr_gid s with set_gid _ => true | gid_Void => false end.
(** [filetime::FileTime::now()] *)
Definition file_time_now : fsprog (Z * Z) := free_bind_ (fun t : Z * Z => Done (Ok t)) (host HostOp.now).

Definition path_setattr (p : PathBuf) (s : sattr3) : fsprog unit :=
  if owner_change s then Done (Err NFS3ERR_NOTSUPP)
  else
    _ ← (match sattr_atime s with
         | atime_SET_TO_SERVER_TIME => t ← file_time_now; attempt_unit (HostOp.set_file_atime p t.1 t.2) eq_refl
         | atime_SET_TO_CLIENT_TIME t => attempt_unit (HostOp.set_file_atime p (seconds t) (nseconds t)) eq_refl
         | atime_DONT_CHANGE => mret tt
         end : fsprog unit);
    _ ← (match sattr_mtime s with
         | mtime_SET_TO_SERVER_TIME => t ← file_time_now; attempt_unit (HostOp.set_file_mtime p t.1 t.2) eq_refl
         | mtime_SET_TO_CLIENT_TIME t => attempt_unit (HostOp.set_file_mtime p (seconds t) (nseconds t)) eq_refl
         | mtime_DONT_CHANGE => mret tt
         end : fsprog unit);
    _ ← (match sattr_mode s with set_mode m => set_path_mode p m | mode_Void => mret tt end : fsprog unit);
    match sattr_size s with
    | set_size size =>
        f ← attempt (A := HostOp.Fd) (host (HostOp.open p (mkOpen true true false false)));
        attempt_unit (HostOp.set_len f size) eq_refl
    | size_Void => mret tt
    end.

Definition file_setattr (f : HostOp.Fd) (s : sattr3) : fsprog unit :=
  if owner_change s then Done (Err NFS3ERR_NOTSUPP)
  else
    _ ← (match sattr_mode s with set_mode m => set_file_mode f m | mode_Void => mret tt end : fsprog unit);
    match sattr_size s with
    | set_size size => attempt_unit (HostOp.set_len f size) eq_refl
    | size_Void => mret tt
    end.

(** ** What the conversions keep *)

(** Metadata as a unix host reports them. *)
Definition host_metadata (m : Metadata) : Prop :=
  u64_range (md_len m) /\ u32_range (md_mode m) /\ u32_range (md_uid m) /\ u32_range (md_gid m) /\ u64_range (md_ino m) /\
  0 <= md_atime_nsec m < 1000000000 /\ 0 <= md_mtime_nsec m < 1000000000.

Lemma saturating_u32_range z : 0 <= z -> u32_range (saturating_u32 z).
Proof.
  unfold saturating_u32, u32_try_from, u32_range. intros Hz. destruct (Z.leb_spec z u32_max); simpl; [lia|]. by unfold u32_max.
Qed.
Lemma nfs_time_wf s n : 0 <= n < 1000000000 -> wf (nfs_time s n).
Proof.
  intros Hn. unfold nfs_time. destruct (Z.ltb_spec s 0); [by vm_compute|]. pose proof (saturating_u32_range s ltac:(lia)) as Hs.
  split; [exact Hs|]. simpl. unfold u32_range, u32_max. lia.
Qed.
Lemma clamp_range lo hi z : lo <= hi -> lo <= clamp lo hi z <= hi.
Proof. unfold clamp. intros H. destruct (Z.ltb_spec z lo); [lia|]. destruct (Z.ltb_spec hi z); lia. Qed.
Lemma metadata_changed_wf m : wf (metadata_changed m).
Proof.
  pose proof (saturating_u32_range (Z.max (md_ctime m) 0) ltac:(lia)) as Hs. pose proof (clamp_range 0 999999999 (md_ctime_nsec m) ltac:(lia)) as Hc.
  split; [exact Hs|]. unfold metadata_changed. cbn [nseconds]. unfold u32_try_from. case_match; simpl; unfold u32_range, u32_max; lia.
Qed.
Lemma masked_mode z : 0 <= z -> 0 <= Z.land (Z.lor z 0x80) 0x1ff <= 0x1ff.
Proof.
  intros Hz. assert (Z.land (Z.lor z 0x80) 0x1ff = Z.lor z 0x80 mod 512) as -> by (apply (Z.land_ones _ 9); lia).
  pose proof (Z.mod_pos_bound (Z.lor z 0x80) 512 ltac:(lia)). lia.
Qed.

(** The attributes of a host file can be sent: times saturate instead of wrapping. *)
Theorem host_attributes_encodable fid m : host_metadata m -> u64_range fid -> wf (metadata_to_fattr3 fid m).
Proof.
  intros (Hl & Hm & Hu & Hg & _ & Ha & Ht) Hf. pose proof (nfs_time_wf (md_atime m) _ Ha) as H1. pose proof (nfs_time_wf (md_mtime m) _ Ht) as H2.
  pose proof (metadata_changed_wf m) as H3. destruct Hm as [Hm _]. pose proof (masked_mode (md_mode m) Hm) as H4.
  unfold metadata_to_fattr3. simpl. unfold metadata_mode. set (mode := Z.land _ _) in *. clearbody mode.
  assert (Hmode : u32_range mode) by (unfold u32_range, u32_max; lia).
  destruct (is_file m); [|destruct (is_symlink m)]; repeat split; try done; try apply Hmode; try apply Hl; try apply Hf; try apply Hu; try apply Hg; try apply H1; try apply H2; try apply H3.
Qed.

(** A change that the host does not show is not shown to clients. *)
Theorem unchanged_metadata_unchanged_attributes lhs rhs :
  metadata_differ lhs rhs = false ->
  fattr3_differ (metadata_to_fattr3 (metadata_identity lhs) lhs) (metadata_to_fattr3 (metadata_identity rhs) rhs) = false.
Proof.
  unfold metadata_differ. rewrite !orb_false_iff, !negb_false_iff, !Z.eqb_eq, bool_decide_eq_true. intros ((((H1 & H2) & H3) & H4) & H5).
  unfold fattr3_differ, metadata_to_fattr3, is_file, is_symlink. simpl. rewrite H5.
  repeat case_match; simplify_eq; simpl; rewrite H1, H2, H3, H4, !Z.eqb_refl; done.
Qed.

(** Setting an owner is refused before anything is touched. *)
Theorem owner_change_refused {St} (answer : forall e, St -> reply_of e * St) p f s st :
  owner_change s = true ->
  exec answer (path_setattr p s) st = (Some (Err NFS3ERR_NOTSUPP), st, []) /\ exec answer (file_setattr f s) st = (Some (Err NFS3ERR_NOTSUPP), st, []).
Proof. intros H. unfold path_setattr, file_setattr. by rewrite H. Qed.

(** The modification time is set before the size, whose change sets it again. *)
Example size_set_after_times (p : PathBuf) :
  (exec (St := unit) (fun e s => (match e as e return reply_of e with
     | Host o => match o as o return HostOp.response o with HostOp.open _ _ => Ok 3 | HostOp.now => (0, 0) | HostOp.symlink_metadata _ | HostOp.metadata _ | HostOp.read_dir _
                   | HostOp.read_exact _ _ | HostOp.read_link _ => Err (mkIoError ErrorKind.Other None) | _ => Ok tt end
     | Locked o => (MapOp.step (fun _ => []) o (new [])).1 end, s))
    (path_setattr p (mkSattr mode_Void uid_Void gid_Void (set_size 5) atime_DONT_CHANGE (mtime_SET_TO_CLIENT_TIME (mkTime 9 0)))) tt).2 =
  [Host (HostOp.set_file_mtime p 9 0); Host (HostOp.open p (mkOpen true true false false)); Host (HostOp.set_len 3 5)].
Proof. done. Qed.
