(* ===== verification/FuzzNfs.v ===== *)
(** * [fuzz/fuzz_targets]: the assertions of the NFS targets hold for every input

    [nfs_write.rs] and [nfs_readdir.rs] build a request and a reply from fuzzed
    bytes, run the codecs over them and assert what they read back. A target
    is modelled in the option monad: [None] is a failed assertion or an [unwrap]
    of an error. The theorems say that no input makes them fail, and that every
    input gets past the decoder, which is what the requests are built for. Calls
    whose result a target drops ([let _ =]) have no effect and are left out. *)
From S2P Require Import Prelude RpcCodec VfsTypes NfsProcedures NfsCodec Handles.
From stdpp Require Import list option.
#[local] Open Scope Z_scope.
Import Format.

(** [assert!], [unwrap] *)
Definition check (b : bool) : option unit := if b then Some () else None.
Definition unwrap {E A} (r : result E A) : option A := ok r.

(** [data.get(i).copied().unwrap_or(d)] *)
Definition byte_at (data : list byte) (i : nat) (d : Z) : Z := from_option byte_val d (data !! i).

Definition u32_saturating_add (a b : Z) : Z := Z.min u32_max (a + b).
Definition u32_saturating_mul (a b : Z) : Z := Z.min u32_max (a * b).

Section Targets.
Context (hmac : list byte -> list byte -> list byte) (handles : HandleCodec).

Definition fuzz_handle (data : list byte) : list byte := Handles.encode hmac handles 1 (mkObjectKey (byte_at data 0 0) 1).

(** ** [nfs_write.rs] *)

Definition MAX_WRITE : Z := 4096.

Definition write_payload (data : list byte) : list byte := take (Z.to_nat (Z.min (zlen data) MAX_WRITE)) data.

(** The complete request built from fuzzed fields. *)
Definition write_request (data : list byte) : option (list byte) :=
  let payload := write_payload data in
  let requested_count :=
    if Z.land (byte_at data 0 0) 1 =? 0 then zlen payload else saturating_add (zlen payload) 1 in
  encoded ← unwrap (Encoder.write_opaque (fuzz_handle data) Encoder.new);
  let encoded := Encoder.write_u64 (if 8 <=? zlen data then be_value (take 8 data) else 0) encoded in
  let encoded := Encoder.write_u32 (default u32_max (u32_try_from requested_count)) encoded in
  let encoded := Encoder.write_u32 (byte_at data 1 0 mod 3) encoded in
  encoded ← unwrap (Encoder.write_opaque payload encoded);
  Some (Encoder.into_bytes encoded).

(** The reply to the decoded request, and what is read back from it. *)
Definition write_reply (arguments : WriteArgs) : WriteResult.t :=
  if is_ok (WriteArgs_validate arguments)
  then WriteResult.Ok (mkWccData None None) (wa_count arguments) WriteStability.FileSync (zeros 8)
  else WriteResult.Err NfsStatus.Invalid (mkWccData None None).

Definition check_write_reply (arguments : WriteArgs) (reply : list byte) : option unit :=
  '(status, d) ← unwrap (Decoder.read_u32 (Decoder.new reply));
  '(before, d) ← unwrap (Decoder.read_bool d);
  _ ← check (negb before);
  '(after, d) ← unwrap (Decoder.read_bool d);
  _ ← check (negb after);
  d ← (if is_ok (WriteArgs_validate arguments) then
    _ ← check (status =? 0);
    '(count, d) ← unwrap (Decoder.read_u32 d);
    _ ← check (count =? wa_count arguments);
    '(committed, d) ← unwrap (Decoder.read_u32 d);
    _ ← check (committed =? 2);
    '(verifier, d) ← unwrap (Decoder.read_fixed 8 d);
    _ ← check (bool_decide (verifier = zeros 8));
    Some d
  else
    _ ← check (status =? NfsStatus.code NfsStatus.Invalid);
    Some d);
  unwrap (Decoder.finish d).

Definition nfs_write (data : list byte) : option unit :=
  request ← write_request data;
  match NfsProcedures.decode 7 request MAX_WRITE with
  | Ok (NfsArguments.Write arguments) =>
      reply ← unwrap (encode_result (write_reply arguments) Encoder.new);
      check_write_reply arguments (Encoder.into_bytes reply)
  | _ => Some ()
  end.

(** ** [nfs_readdir.rs], one iteration of its loop over the two procedures *)

Definition readdir_count (data : list byte) : Z := u32_saturating_add (byte_at data 0 64) 24.

Definition readdir_request (plus : bool) (data : list byte) : option (list byte) :=
  encoded ← unwrap (Encoder.write_opaque (fuzz_handle data) Encoder.new);
  let encoded := Encoder.write_u64 (byte_at data 1 0) encoded in
  let encoded := Encoder.write_fixed (replicate 8 (byte_of (byte_at data 2 0))) encoded in
  let encoded := Encoder.write_u32 (readdir_count data) encoded in
  let encoded := if plus then Encoder.write_u32 (u32_saturating_mul (readdir_count data) 2) encoded else encoded in
  Some (Encoder.into_bytes encoded).

(** [data.chunks(8)] *)
Fixpoint chunks8 (fuel : nat) (data : list byte) : list (list byte) :=
  match fuel, data with
  | S fuel', _ :: _ => take 8 data :: chunks8 fuel' (drop 8 data)
  | _, _ => []
  end.

Definition readdir_entry (plus : bool) (handle : list byte) (index : nat) (chunk : list byte) : ReadDirEntry :=
  mkReadDirEntry (Z.of_nat index + 1) (match chunk with [] => [Byte.x78] | _ => chunk end) (Z.of_nat index + 1)
    (if plus then ReadDirEntryExtension.Plus None (Some handle) else ReadDirEntryExtension.Basic).

Definition readdir_entries (plus : bool) (data : list byte) : list ReadDirEntry :=
  imap (readdir_entry plus (fuzz_handle data)) (take 32 (chunks8 (length data) data)).

Definition readdir_limit (plus : bool) (data : list byte) : Z :=
  if plus then u32_saturating_mul (readdir_count data) 2 else readdir_count data.

(** The [while] loop over the entries of the reply; every turn but the last takes
    some bytes. *)
Fixpoint check_entries (fuel : nat) (plus : bool) (handle : list byte) (d : Decoder.decoder) : option Decoder.decoder :=
  match fuel with
  | O => None
  | S fuel' =>
      '(more, d) ← unwrap (Decoder.read_bool d);
      if (more : bool) then
        '(_, d) ← unwrap (Decoder.read_u64 d);
        '(_, d) ← unwrap (Decoder.read_opaque "fuzz READDIR name" 8 d);
        '(_, d) ← unwrap (Decoder.read_u64 d);
        d ← (if plus then
          '(attributes, d) ← unwrap (Decoder.read_bool d);
          _ ← check (negb attributes);
          '(present, d) ← unwrap (Decoder.read_bool d);
          _ ← check present;
          '(decoded_handle, d) ← unwrap (Decoder.read_opaque "fuzz READDIR handle" 64 d);
          _ ← check (bool_decide (decoded_handle = handle));
          Some d
        else Some d);
        check_entries fuel' plus handle d
      else Some d
  end.

Definition check_readdir_reply (plus : bool) (handle : list byte) (limit : Z) (reply : list byte) : option unit :=
  _ ← check (saturating_sub (zlen reply) 4 <=? limit);
  '(status, d) ← unwrap (Decoder.read_u32 (Decoder.new reply));
  _ ← check (status =? 0);
  '(attributes, d) ← unwrap (Decoder.read_bool d);
  _ ← check (negb attributes);
  '(verifier, d) ← unwrap (Decoder.read_fixed 8 d);
  _ ← check (bool_decide (verifier = zeros 8));
  d ← check_entries (S (length reply)) plus handle d;
  '(_, d) ← unwrap (Decoder.read_bool d);
  unwrap (Decoder.finish d).

Definition nfs_readdir (plus : bool) (data : list byte) : option unit :=
  request ← readdir_request plus data;
  let result := ReadDirResult.Ok None (zeros 8) (readdir_entries plus data) true in
  match truncate_readdir_result result (readdir_limit plus data) with
  | Ok (true, result) =>
      reply ← unwrap (encode_result result Encoder.new);
      check_readdir_reply plus (fuzz_handle data) (readdir_limit plus data) (Encoder.into_bytes reply)
  | _ => Some ()
  end.
End Targets.

(** ** Reading back what was written *)

Section Passing.
Context (hmac : list byte -> list byte -> list byte) (hmac_length : forall k m, zlen (hmac k m) = 32).
Context (handles : HandleCodec) (wf_handles : codec_wf handles).

Lemma read_back {A} (p : Decoder.reader A) F `{!Implements p F} d a bs tail :
  wf d -> rest d = bs ++ tail -> F a bs -> exists d', p d = Ok (a, d') /\ wf d' /\ rest d' = tail /\ Decoder.input d' = Decoder.input d.
Proof.
  intros Hd Hr Hf. exists (advance (zlen bs) d).
  split_and!; [by eapply implements_complete|by eapply advance_wf|by apply rest_advance|done].
Qed.

Lemma finish_empty d : wf d -> rest d = [] -> Decoder.finish d = Ok ().
Proof.
  intros Hd Hr. pose proof (zlen_rest d Hd) as Hl. rewrite Hr, zlen_nil in Hl. unfold Decoder.finish. by rewrite (proj2 (Z.eqb_eq _ _)) by lia.
Qed.

#[local] Instance implements_verifier : Implements (Decoder.read_fixed 8) (fixed 8).
Proof. by apply implements_read_fixed. Qed.

Ltac run_checks := cbn [check negb Z.eqb Pos.eqb unwrap ok mbind option_bind].
Ltac to_end := match goal with R : rest _ = ?l |- _ => rewrite <- (app_nil_r l) in R end.

(** One read of a value whose encoding is next. *)
Ltac next_read p v :=
  let d := fresh "d" in let E := fresh "E" in let W := fresh "W" in let R := fresh "R" in
  match goal with
  | Hw : wf ?d0, Hr : rest ?d0 = _ |- context [p ?d0] =>
      edestruct (read_back p _ d0 v _ _ Hw Hr) as (d & E & W & R & _);
      [|rewrite E; run_checks; clear E Hw Hr]
  end.

Lemma byte_at_range data i d : 0 <= d <= 255 -> 0 <= byte_at data i d <= 255.
Proof. unfold byte_at. destruct (data !! i) as [b|]; cbn; [pose proof (byte_val_range b)|]; lia. Qed.

Lemma zlen_fuzz_handle data : zlen (fuzz_handle hmac handles data) = HANDLE_SIZE.
Proof. by apply zlen_encode. Qed.

(** *** The request of [nfs_write] *)

Definition write_arguments (data : list byte) : WriteArgs :=
  mkWriteArgs (fuzz_handle hmac handles data) (if 8 <=? zlen data then be_value (take 8 data) else 0)
    (zlen (write_payload data) + Z.land (byte_at data 0 0) 1)
    (match byte_at data 1 0 mod 3 with 0 => WriteStability.Unstable | 1 => WriteStability.DataSync | _ => WriteStability.FileSync end)
    (write_payload data).

Lemma zlen_write_payload data : zlen (write_payload data) <= 4096.
Proof. unfold write_payload, MAX_WRITE. pose proof (zlen_nonneg data). rewrite zlen_take; lia. Qed.

Lemma write_opaque_ok v e :
  zlen v <= u32_max -> zlen (Encoder.output e) + zlen (opaque_bytes v) <= usize_max ->
  Encoder.write_opaque v e = Ok (Encoder.mk (Encoder.output e ++ opaque_bytes v)).
Proof. apply (Emit.emits_ok (f := Encoder.write_opaque v)). Qed.

Lemma zlen_opaque_le v : zlen (opaque_bytes v) <= zlen v + 7.
Proof. rewrite zlen_opaque_bytes. pose proof (xdr_padding_range (zlen v)). lia. Qed.

Lemma fuzz_handle_written data :
  Encoder.write_opaque (fuzz_handle hmac handles data) Encoder.new = Ok (Encoder.mk (opaque_bytes (fuzz_handle hmac handles data))) /\
  zlen (opaque_bytes (fuzz_handle hmac handles data)) <= 60.
Proof.
  pose proof (zlen_fuzz_handle data) as Hh. pose proof (zlen_opaque_le (fuzz_handle hmac handles data)). unfold HANDLE_SIZE, PAYLOAD_SIZE, INSTANCE_SIZE, TAG_SIZE in Hh.
  split; [|lia]. apply (write_opaque_ok _ Encoder.new); cbn [Encoder.output Encoder.new]; rewrite ?zlen_nil; unfold u32_max, usize_max; lia.
Qed.

Lemma land_1_cases x : Z.land x 1 = 0 \/ Z.land x 1 = 1.
Proof. assert (Z.land x 1 = x mod 2 ^ 1) as -> by (change 1 with (Z.ones 1) at 1; by apply Z.land_ones). change (2 ^ 1) with 2. pose proof (Z.mod_pos_bound x 2). lia. Qed.

Lemma requested_count data :
  default u32_max (u32_try_from (if Z.land (byte_at data 0 0) 1 =? 0 then zlen (write_payload data) else saturating_add (zlen (write_payload data)) 1)) =
  zlen (write_payload data) + Z.land (byte_at data 0 0) 1.
Proof.
  pose proof (zlen_write_payload data). pose proof (zlen_nonneg (write_payload data)).
  destruct (land_1_cases (byte_at data 0 0)) as [E|E].
  all: rewrite E; unfold u32_try_from, saturating_add, usize_max, u32_max; cbn [Z.eqb].
  - rewrite (proj2 (Z.leb_le _ _)) by lia. cbn. lia.
  - rewrite Z.min_r, (proj2 (Z.leb_le _ _)) by lia. done.
Qed.

Lemma stability_byte (x : Z) :
  0 <= x -> stability_code (match x mod 3 with 0 => WriteStability.Unstable | 1 => WriteStability.DataSync | _ => WriteStability.FileSync end) = x mod 3.
Proof.
  intros Hx. pose proof (Z.mod_pos_bound x 3). assert (x mod 3 = 0 \/ x mod 3 = 1 \/ x mod 3 = 2) as [E|[E|E]] by lia; by rewrite E.
Qed.

Lemma write_request_bytes data : write_request hmac handles data = Some (arguments_bytes (NfsArguments.Write (write_arguments data))).
Proof.
  unfold write_request. destruct (fuzz_handle_written data) as [-> Hh]. pose proof (zlen_write_payload data) as Hp. pose proof (zlen_opaque_le (write_payload data)) as Ho.
  cbn [unwrap ok mbind option_bind]. rewrite requested_count. rewrite write_opaque_ok.
  - cbn [ok mbind option_bind Encoder.into_bytes Encoder.output Encoder.write_u64 Encoder.write_u32]. f_equal. unfold write_arguments.
    cbn [arguments_bytes wa_object wa_offset wa_count wa_requested wa_data]. rewrite stability_byte by (by apply byte_at_range).
    by rewrite <- !app_assoc.
  - unfold u32_max. lia.
  - cbn [Encoder.output Encoder.write_u64 Encoder.write_u32]. autorewrite with zlen. unfold usize_max. lia.
Qed.

Lemma write_arguments_wf data : arguments_wf MAX_WRITE (NfsArguments.Write (write_arguments data)).
Proof.
  pose proof (zlen_fuzz_handle data) as Hh. pose proof (zlen_write_payload data) as Hp. pose proof (zlen_nonneg (write_payload data)).
  pose proof (land_1_cases (byte_at data 0 0)).
  cbn [arguments_wf write_arguments wa_object wa_offset wa_count wa_data]. unfold handle_wf, MAX_WRITE, u32_range, u32_max. rewrite Hh.
  split_and!; try done; try lia. destruct (8 <=? zlen data) eqn:E; [|done]. zbool. apply be_value_u64. rewrite length_take. unfold zlen in E. lia.
Qed.

Lemma write_request_decodes data :
  exists request, write_request hmac handles data = Some request /\
    NfsProcedures.decode 7 request MAX_WRITE = Ok (NfsArguments.Write (write_arguments data)).
Proof.
  eexists. split; [apply write_request_bytes|]. apply decode_iff; [|split_and!; [done|apply write_arguments_wf|done]].
  destruct (fuzz_handle_written data) as [_ Hh]. pose proof (zlen_write_payload data). pose proof (zlen_opaque_le (write_payload data)).
  cbn [arguments_bytes write_arguments wa_object wa_offset wa_count wa_requested wa_data]. autorewrite with zlen. unfold isize_max. lia.
Qed.

(** *** The reply of [nfs_write] *)

Definition write_reply_bytes (a : WriteArgs) : list byte :=
  if is_ok (WriteArgs_validate a)
  then be_bytes 4 0 ++ be_bytes 4 0 ++ be_bytes 4 0 ++ be_bytes 4 (wa_count a) ++ be_bytes 4 2 ++ zeros 8
  else be_bytes 4 (NfsStatus.code NfsStatus.Invalid) ++ be_bytes 4 0 ++ be_bytes 4 0.

Lemma write_reply_encoded a : encode_result (write_reply a) Encoder.new = Ok (Encoder.mk (write_reply_bytes a)).
Proof.
  unfold write_reply, write_reply_bytes. destruct (is_ok _); cbn; by rewrite <- ?app_assoc.
Qed.

(** Decoding starts on the whole reply. *)
Lemma start_reading reply : zlen reply <= isize_max -> wf (Decoder.new reply) /\ rest (Decoder.new reply) = reply.
Proof. intros Hl. split; [by apply wf_new|apply rest_new]. Qed.

Lemma check_write_reply_ok a : u32_range (wa_count a) -> check_write_reply a (write_reply_bytes a) = Some ().
Proof.
  intros Hc. unfold check_write_reply, write_reply_bytes. destruct (is_ok (WriteArgs_validate a)).
  - destruct (start_reading (be_bytes 4 0 ++ be_bytes 4 0 ++ be_bytes 4 0 ++ be_bytes 4 (wa_count a) ++ be_bytes 4 2 ++ zeros 8)) as [W R];
      [by autorewrite with zlen|].
    next_read Decoder.read_u32 0; [by split|]. next_read Decoder.read_bool false; [done|].
    next_read Decoder.read_bool false; [done|]. next_read Decoder.read_u32 (wa_count a); [by split|].
    rewrite Z.eqb_refl. run_checks. next_read Decoder.read_u32 2; [by split|]. to_end.
    next_read (Decoder.read_fixed 8) (zeros 8); [by split|]. rewrite bool_decide_eq_true_2 by done. run_checks. by rewrite finish_empty.
  - destruct (start_reading (be_bytes 4 (NfsStatus.code NfsStatus.Invalid) ++ be_bytes 4 0 ++ be_bytes 4 0)) as [W R]; [by autorewrite with zlen|].
    next_read Decoder.read_u32 (NfsStatus.code NfsStatus.Invalid); [by split|]. next_read Decoder.read_bool false; [done|]. to_end.
    next_read Decoder.read_bool false; [done|]. rewrite Z.eqb_refl. run_checks. by rewrite finish_empty.
Qed.

Lemma nfs_write_passes data : nfs_write hmac handles data = Some ().
Proof.
  unfold nfs_write. destruct (write_request_decodes data) as (request & -> & Hd). cbn [mbind option_bind]. rewrite Hd, write_reply_encoded.
  cbn [unwrap ok mbind option_bind Encoder.into_bytes Encoder.output]. apply check_write_reply_ok. apply (write_arguments_wf data).
Qed.

(** *** The request of [nfs_readdir] *)

Lemma readdir_count_range data : 24 <= readdir_count data <= 279.
Proof. unfold readdir_count, u32_saturating_add, u32_max. pose proof (byte_at_range data 0 64 ltac:(lia)). lia. Qed.

Lemma readdir_limit_range plus data : 0 <= readdir_limit plus data <= 558.
Proof. unfold readdir_limit, u32_saturating_mul, u32_max. pose proof (readdir_count_range data). destruct plus; lia. Qed.

Definition readdir_arguments (plus : bool) (data : list byte) : NfsArguments.t :=
  let verifier := replicate 8 (byte_of (byte_at data 2 0)) in
  if plus
  then NfsArguments.ReadDirPlus (mkReadDirPlusArgs (fuzz_handle hmac handles data) (byte_at data 1 0) verifier
    (readdir_count data) (u32_saturating_mul (readdir_count data) 2))
  else NfsArguments.ReadDir (mkReadDirArgs (fuzz_handle hmac handles data) (byte_at data 1 0) verifier (readdir_count data)).

Lemma readdir_request_decodes plus data :
  exists request, readdir_request hmac handles plus data = Some request /\
    NfsProcedures.decode (if plus then 17 else 16) request 4096 = Ok (readdir_arguments plus data).
Proof.
  destruct (fuzz_handle_written data) as [Hw Hl]. pose proof (zlen_fuzz_handle data) as Hh. pose proof (byte_at_range data 1 0 ltac:(lia)).
  pose proof (readdir_count_range data). pose proof (readdir_limit_range true data) as Hlim. cbn [readdir_limit] in Hlim.
  exists (arguments_bytes (readdir_arguments plus data)). split.
  - unfold readdir_request. rewrite Hw. run_checks. f_equal. destruct plus; cbn; by rewrite <- !app_assoc.
  - apply decode_iff.
    + destruct plus; cbn [readdir_arguments arguments_bytes rda_directory rda_cookie rda_verifier rda_count rdp_directory rdp_cookie rdp_verifier rdp_directory_count rdp_max_count];
        autorewrite with zlen; change (zlen (replicate 8 (byte_of (byte_at data 2 0)))) with 8; unfold isize_max; lia.
    + split_and!; [by destruct plus| |done]. destruct plus; cbn [readdir_arguments arguments_wf rda_directory rda_cookie rda_verifier rda_count rdp_directory rdp_cookie rdp_verifier rdp_directory_count rdp_max_count];
        unfold handle_wf, u32_range, u64_range, u32_max, u64_max; rewrite Hh; split_and!; try done; lia.
Qed.

(** *** The reply of [nfs_readdir] *)

Record fuzz_entry (plus : bool) (handle : list byte) (x : ReadDirEntry) : Prop := {
  fe_id : u64_range (rde_file_id x);
  fe_cookie : u64_range (rde_cookie x);
  fe_name : zlen (rde_name x) <= 8;
  fe_extension : rde_extension x = if plus then ReadDirEntryExtension.Plus None (Some handle) else ReadDirEntryExtension.Basic
}.

Lemma chunks8_le fuel data : Forall (fun c => zlen c <= 8) (chunks8 fuel data).
Proof.
  revert data. induction fuel as [|fuel IH]; intros [|b data]; cbn [chunks8]; constructor; [|apply IH].
  pose proof (length_take (b :: data) 8). unfold zlen. lia.
Qed.

Lemma readdir_entries_ok plus data : Forall (fuzz_entry plus (fuzz_handle hmac handles data)) (readdir_entries hmac handles plus data).
Proof.
  apply Forall_lookup. intros i x Hx. unfold readdir_entries in Hx. rewrite list_lookup_imap in Hx. apply fmap_Some in Hx as (c & Hc & ->).
  assert (i < 32)%nat as Hi by (apply lookup_lt_Some in Hc; rewrite length_take in Hc; lia).
  assert (zlen c <= 8) as Hl.
  { pose proof (chunks8_le (length data) data) as Hf. rewrite Forall_lookup in Hf. eapply Hf. by rewrite lookup_take_lt in Hc. }
  split; cbn [readdir_entry rde_file_id rde_cookie rde_name rde_extension]; unfold u64_range, u64_max; [lia|lia| |done]. by destruct c.
Qed.

Lemma entry_bytes_long x : (1 <= length (entry_bytes x))%nat.
Proof. unfold entry_bytes. rewrite length_app, length_be_bytes. lia. Qed.

Lemma entries_bytes_long l : (length l <= length (entries_bytes l))%nat.
Proof.
  induction l as [|x l IH]; [done|]. unfold entries_bytes in *. cbn [map concat length]. rewrite length_app. pose proof (entry_bytes_long x). lia.
Qed.

Lemma check_entries_ok plus handle l fuel d tail :
  Forall (fuzz_entry plus handle) l -> zlen handle <= 64 -> (length l < fuel)%nat ->
  wf d -> rest d = entries_bytes l ++ be_bytes 4 0 ++ tail ->
  exists d', check_entries fuel plus handle d = Some d' /\ wf d' /\ rest d' = tail.
Proof.
  intros Hl Hh. revert fuel d. induction Hl as [|x l [Hi Hc Hn Hx] _ IH]; intros [|fuel] d Hf W R; cbn [length] in Hf; try lia; cbn [check_entries].
  - change (rest d = be_bytes 4 0 ++ tail) in R. next_read Decoder.read_bool false; [done|]. eauto.
  - unfold entries_bytes in R. cbn [map concat] in R. unfold entry_bytes in R. rewrite <- !app_assoc in R.
    next_read Decoder.read_bool true; [done|]. next_read Decoder.read_u64 (rde_file_id x); [by split|].
    next_read (Decoder.read_opaque "fuzz READDIR name" 8) (rde_name x); [split_and!; try done; unfold u32_max; lia|].
    next_read Decoder.read_u64 (rde_cookie x); [by split|]. rewrite Hx in *. destruct plus; cbn [extension_bytes option_bytes] in *.
    + rewrite <- !app_assoc in *. next_read Decoder.read_bool false; [done|]. next_read Decoder.read_bool true; [done|].
      next_read (Decoder.read_opaque "fuzz READDIR handle" 64) handle; [split_and!; try done; unfold u32_max; lia|].
      rewrite bool_decide_eq_true_2 by done. run_checks. apply IH; [lia|done|done].
    + run_checks. apply IH; [lia|done|done].
Qed.

Lemma nfs_readdir_passes plus data : nfs_readdir hmac handles plus data = Some ().
Proof.
  unfold nfs_readdir. destruct (readdir_request_decodes plus data) as (request & -> & _). cbn [mbind option_bind].
  destruct (truncate_readdir_result _ _) as [[[] r]|] eqn:Et; [|done|done]. rewrite truncate_readdir_reference in Et.
  apply reference_loop_fits in Et as (kept & dropped & eof & e & Hk & -> & He & Hs). rewrite rev_involutive in Hk.
  pose proof (readdir_entries_ok plus data) as Hf. rewrite Hk in Hf. apply Forall_app in Hf as [Hf _].
  pose proof (readdir_limit_range plus data) as Hlim. rewrite He. run_checks.
  apply (Emit.emits_inv (Emits := emits_readdir_ok None (zeros 8) kept eof)) in He as [_ ->].
  cbn [Encoder.output Encoder.new app Encoder.into_bytes] in *. unfold Encoder.len in Hs. cbn [Encoder.output] in Hs.
  unfold check_readdir_reply. set (reply := readdir_header_bytes None (zeros 8) ++ _) in *.
  rewrite (proj2 (Z.leb_le _ _) Hs). run_checks.
  assert (zlen reply <= isize_max) as Hr by (unfold saturating_sub, isize_max in *; lia).
  destruct (start_reading reply Hr) as [W R]. unfold reply in R at 2. unfold readdir_header_bytes in R. cbn [option_bytes NfsStatus.code] in R. rewrite <- !app_assoc in R.
  next_read Decoder.read_u32 0; [by split|]. next_read Decoder.read_bool false; [done|].
  next_read (Decoder.read_fixed 8) (zeros 8); [by split|]. rewrite bool_decide_eq_true_2 by done. run_checks.
  edestruct (check_entries_ok plus (fuzz_handle hmac handles data) kept (S (length reply))) as (d' & -> & W' & R');
    [done|by rewrite zlen_fuzz_handle| |eassumption|eassumption|].
  { unfold reply. rewrite !length_app. pose proof (entries_bytes_long kept). lia. }
  run_checks. to_end. next_read Decoder.read_bool eof; [done|]. by rewrite finish_empty.
Qed.

(** C40: the fuzzing assertions of the NFS codecs. For every input the targets
    [nfs_write] and [nfs_readdir] (both procedures) run to the end: no [unwrap]
    fails and every assertion on the reply holds, in particular that a truncated
    listing fits the client's limit and reads back, entry by entry, with the handle
    the server issued. Each of the requests they build decodes to the arguments it
    was built from, so that every input reaches the code behind the decoder. *)
Theorem fuzz_targets_pass data :
  nfs_write hmac handles data = Some () /\ (forall plus, nfs_readdir hmac handles plus data = Some ()) /\
  (exists request, write_request hmac handles data = Some request /\
    NfsProcedures.decode 7 request MAX_WRITE = Ok (NfsArguments.Write (write_arguments data))) /\
  (forall plus, exists request, readdir_request hmac handles plus data = Some request /\
    NfsProcedures.decode (if plus then 17 else 16) request 4096 = Ok (readdir_arguments plus data)).
Proof.
  split_and!; [apply nfs_write_passes|intros; apply nfs_readdir_passes|apply write_request_decodes|intros; apply readdir_request_decodes].
Qed.
End Passing.

Definition sample_hmac (k m : list byte) : list byte := zeros 32.
Definition sample_codec : HandleCodec := mkHandleCodec (zeros 8) [].

Lemma fuzz_targets_pass_witness : nfs_write sample_hmac sample_codec [Byte.x03; Byte.x01] = Some ().
Proof.
  destruct (fuzz_targets_pass sample_hmac ltac:(intros; vm_compute; reflexivity) sample_codec ltac:(vm_compute; reflexivity) [Byte.x03; Byte.x01]) as [H _].
  exact H.
Defined.
