(* ===== verification/FuzzReplay.v ===== *)
(** * [fuzz/fuzz_targets/replay.rs]: the replay cache under fuzzed schedules

    The target drives a cache through completion, cancellation, closed receivers
    and immediate expiry, then through a schedule read from the input. [None] is an
    [await] that never returns. The theorem: no input makes the target hang, and
    when all leases are gone every waiter has its answer. Each lock section reads
    one instant of a clock that does not go backwards. *)
From S2P Require Import Prelude Replay VfsTypes Reply.
From stdpp Require Import list gmap sorting.
#[local] Open Scope Z_scope.

Section Target.
Context (now : nat -> Z) (with_capacity : Z -> Z).

(** The cache, the messages sent so far, the next channel and the next instant. *)
Record driver : Type := mkDriver { cached : CacheInner; mail : deliveries; next_waiter : waiter; instants : nat }.

Definition fresh_driver : driver := mkDriver new [] 0%nat 0%nat.

(** No receiver is dropped while its request is in flight and another call for it
    arrives. *)
Definition open_channel (w : waiter) : bool := false.

Definition begin_call (cache : ReplayCache) (key : ReplayKey) (fp : RequestFingerprint) (s : driver)
    : result ReplayError ReplayDecision * driver :=
  let '(d, i) := begin cache (cached s) (now (instants s)) open_channel (next_waiter s) key fp in
  (d, mkDriver i (mail s) (S (next_waiter s)) (S (instants s))).

(** [lease.complete(Bytes)]: nothing runs between its two lock sections. *)
Definition complete_call (cache : ReplayCache) (lease : ReplayEntryKey) (reply : list byte) (s : driver) : driver :=
  let reply := from_bytes reply in
  let prepared := prepare_storage with_capacity cache (cached s) lease reply in
  let '(i, out) := complete cache (cached s) lease reply prepared (now (instants s)) in
  mkDriver i (mail s ++ out) (next_waiter s) (S (instants s)).

(** Dropping a lease. *)
Definition drop_lease (lease : ReplayEntryKey) (s : driver) : driver :=
  let '(i, out) := Replay.cancel (cached s) lease in mkDriver i (mail s ++ out) (next_waiter s) (instants s).

(** A decision that is not used is dropped. *)
Definition drop_decision (d : result ReplayError ReplayDecision) (s : driver) : driver :=
  match d with Ok (Execute lease) => drop_lease lease s | _ => s end.

Definition answered (s : driver) (w : waiter) : bool := bool_decide (w ∈ (mail s).*1).

(** [waiter.await] *)
Definition await (w : waiter) (s : driver) : option driver := if answered s w then Some s else None.

Definition replay_key (xid : Z) : ReplayKey := mkReplayKey (mkSocketAddr (V4 2130706433) 0) 1 xid.

(** ** The transitions of every iteration *)

Definition transitions : ReplayCache := mkReplayCache 2 4096 0.

(** A leader, a second call for the same request, which waits; then the leader
    ends and the waiter is awaited. *)
Definition probe (xid : Z) (finish : ReplayEntryKey -> driver -> driver) (fp : RequestFingerprint) (s : driver) : option driver :=
  match begin_call transitions (replay_key xid) fp s with
  | (Ok (Execute leader), s) =>
      match begin_call transitions (replay_key xid) fp s with
      | (Ok (Wait w), s) => await w (finish leader s)
      | (d, s) => Some (drop_lease leader (drop_decision d s))
      end
  | (_, s) => Some s
  end.

Definition probe_complete (fp : RequestFingerprint) (reply : list byte) (s : driver) : option driver :=
  probe 100 (fun leader => complete_call transitions leader reply) fp s.
Definition probe_cancel (fp : RequestFingerprint) (s : driver) : option driver := probe 101 drop_lease fp s.

Definition probe_closed (fp : RequestFingerprint) (s : driver) : driver :=
  match begin_call transitions (replay_key 102) fp s with
  | (Ok (Execute leader), s) =>
      let '(d, s) := begin_call transitions (replay_key 102) fp s in
      drop_lease leader (drop_decision d s)
  | (_, s) => s
  end.

(** ** The fuzzed schedule *)

Record schedule : Type := mkSchedule { drv : driver; held : list ReplayEntryKey; waiting : list waiter }.

(** [leases.pop()] *)
Definition pop_lease (s : schedule) : schedule :=
  match last (held s) with
  | Some lease => mkSchedule (drop_lease lease (drv s)) (take (length (held s) - 1) (held s)) (waiting s)
  | None => s
  end.

Definition byte_of_chunk (chunk : list byte) (i : nat) : byte := default Byte.x00 (chunk !! i).

Definition turn (cache : ReplayCache) (chunk : list byte) (s : schedule) : schedule :=
  let xid := byte_val (byte_of_chunk chunk 0) mod 8 in
  let marker := byte_of_chunk chunk 1 in
  let action := byte_val (byte_of_chunk chunk 2) in
  let '(decision, d) := begin_call cache (replay_key xid) (replicate 32 marker) (drv s) in
  let s' :=
    match decision with
    | Ok (Execute lease) =>
        if Z.land action 1 =? 0 then mkSchedule (complete_call cache lease chunk d) (held s) (waiting s)
        else mkSchedule d (held s ++ [lease]) (waiting s)
    | Ok (Wait w) => mkSchedule d (held s) (waiting s ++ [w])
    | Ok (Replay _) | Err _ => mkSchedule d (held s) (waiting s)
    end in
  if Z.land action 2 =? 0 then s' else pop_lease s'.

(** [data.chunks(3)] *)
Fixpoint chunks3 (fuel : nat) (data : list byte) : list (list byte) :=
  match fuel, data with
  | S fuel', _ :: _ => take 3 data :: chunks3 fuel' (drop 3 data)
  | _, _ => []
  end.

Definition fuzz_capacity (data : list byte) : Z := from_option byte_val 1 (data !! 0%nat) mod 16 + 1.
Definition fuzz_cache (data : list byte) : ReplayCache := mkReplayCache (fuzz_capacity data) 4096 10.

(** The loop, then [drop(leases)]. *)
Definition run_schedule (data : list byte) (n : nat) : schedule :=
  let s := fold_left (fun s chunk => turn (fuzz_cache data) chunk s) (take 64 (chunks3 (length data) (drop 1 data)))
    (mkSchedule (mkDriver new [] 0%nat n) [] []) in
  mkSchedule (fold_left (fun d lease => drop_lease lease d) (held s) (drv s)) [] (waiting s).

(** The whole target; the two caches are separate. *)
Definition replay_target (data : list byte) : option schedule :=
  let fp := replicate 32 (byte_of_chunk data 0) in
  s ← probe_complete fp (take (Nat.min (length data) 32) data) fresh_driver;
  s ← probe_cancel fp s;
  let s := probe_closed fp s in
  Some (run_schedule data (instants s)).
End Target.

(** ** Waiters *)

(** A message has been sent to [w], or its request is in flight. *)
Definition heard (s : driver) (w : waiter) : Prop :=
  answered s w = true \/ exists k ws, entries (cached s) !! k = Some (InFlight ws) /\ w ∈ ws.

Section Settling.
Context (now : nat -> Z) (now_mono : forall n, now n <= now (S n)).
Context (with_capacity : Z -> Z) (with_capacity_ge : forall n, n <= with_capacity n).
Context (cache : ReplayCache) (capacity_nonneg : 0 <= capacity cache) (bytes_bound : 0 <= max_completed_bytes cache < usize_max).

(** The driver's state is one the cache reaches with exactly the leases [l]. *)
Record driven (s : driver) (l : list ReplayEntryKey) : Prop := {
  dr_system : exists m clk, system_inv cache (mkSystem (cached s) m clk) /\ clk <= now (instants s) /\
    (forall k, is_Some (m !! k) <-> k ∈ l) /\ (forall k st, m !! k = Some st -> st = Holding);
  dr_nodup : base.NoDup l;
  dr_generation : 0 <= next_generation (cached s) <= Z.of_nat (instants s)
}.

Lemma driven_fresh n : driven (mkDriver new [] 0%nat n) [].
Proof.
  split; [|constructor|cbn; lia]. exists ∅, (now n). split_and!; [by apply (initial_inv cache)|done| |].
  - intros k. rewrite lookup_empty. split; [by intros [? ?]|]. by intros ?%not_elem_of_nil.
  - intros k st. by rewrite lookup_empty.
Qed.

(** Without leases nothing is in flight, so every waiter has its answer. *)
Lemma driven_answered s w : driven s [] -> heard s w -> answered s w = true.
Proof.
  intros [(m & clk & Hs & _ & Hm & _) _ _] [?|(k & ws & Hk & _)]; [done|]. exfalso.
  assert (is_Some (m !! k)) as Hi by (apply (sys_leases _ _ Hs), in_flight_iff; by exists ws). by apply Hm, not_elem_of_nil in Hi.
Qed.

(** A call keeps every waiter, and adds the one it returns. *)
Lemma begin_waiters clk i t receive key fp d i' :
  cache_inv cache clk None i -> 0 <= next_generation i < u64_max -> begin cache i t open_channel receive key fp = (d, i') ->
  (forall k ws w, entries i !! k = Some (InFlight ws) -> w ∈ ws -> exists ws', entries i' !! k = Some (InFlight ws') /\ w ∈ ws') /\
  (forall w, d = Ok (Wait w) -> exists k ws, entries i' !! k = Some (InFlight ws) /\ w ∈ ws) /\
  (forall k, d = Ok (Execute k) -> entries i !! k = None).
Proof.
  intros Hi Hn Hb. pose proof (begin_inv cache clk i t open_channel receive key fp Hi Hn) as H. rewrite Hb in H. destruct H as [_ Ho].
  destruct (expire_inv cache clk None i t Hi) as (H1 & S1 & _). set (i1 := expire i t (ttl cache)) in *.
  assert (forall i2, sheds i1 i2 -> entries i2 !! mkEntryKey key fp (next_generation i2) = None) as Hfr.
  { intros i2 S2. destruct (entries i2 !! _) eqn:E; [|done]. apply S2 in E. rewrite (sheds_next _ _ S2) in E.
    by rewrite (fresh_entry cache clk) in E. }
  assert (forall k ws w, entries i !! k = Some (InFlight ws) -> w ∈ ws -> forall i2, sheds i1 i2 ->
    entries i2 !! k = Some (InFlight ws) /\ w ∈ ws) as Hkeep by (intros k ws w Hk Hw i2 S2; split; [by apply S2, S1|done]).
  assert (admission_outcome cache i1 key fp d i' -> (forall k ws w, entries i !! k = Some (InFlight ws) -> w ∈ ws ->
    exists ws', entries i' !! k = Some (InFlight ws') /\ w ∈ ws') /\
    (forall w, d = Ok (Wait w) -> exists k ws, entries i' !! k = Some (InFlight ws) /\ w ∈ ws) /\
    (forall k, d = Ok (Execute k) -> entries i !! k = None)) as Hadm.
  { intros [(-> & S2 & _)|(i2 & S2 & -> & ->)].
    - split_and!; [|done|done]. intros k ws w Hk Hw. exists ws. by eapply Hkeep.
    - split_and!; [|done|].
      + intros k ws w Hk Hw. destruct (Hkeep k ws w Hk Hw i2 S2) as [Hk2 _]. exists ws. split; [|done]. cbn.
        rewrite lookup_insert_ne; [done|]. intros <-. by rewrite Hfr in Hk2.
      + intros k [= <-]. rewrite (sheds_next _ _ S1). by apply (fresh_entry cache clk). }
  unfold begin_outcome in Ho. destruct (view i1 key) as [[lt st]|] eqn:Ev; [|by apply Hadm]. case_bool_decide; [|by apply Hadm].
  assert (entries i1 !! latest_key key lt = Some st) as El.
  { unfold view in Ev. destruct (latest i1 !! key) as [l'|]; [|done]. destruct (entries i1 !! latest_key key l') eqn:E; [|done]. cbn in Ev. by injection Ev as -> ->. }
  destruct st as [ws0|rep c t0]; destruct Ho as [-> ->]; [|split_and!; [|done|done]; intros k ws w Hk Hw; exists ws; split; [by apply S1|done]].
  split_and!; cbn [entries with_entries]; [| |done].
  - intros k ws w Hk Hw. apply S1 in Hk. destruct (decide (k = latest_key key lt)) as [->|Hne].
    + rewrite lookup_insert_eq. eexists. split; [done|]. apply elem_of_app. left. apply list_elem_of_filter. split; [done|]. congruence.
    + rewrite lookup_insert_ne by done. by exists ws.
  - intros w [= <-]. exists (latest_key key lt). rewrite lookup_insert_eq. eexists. split; [done|]. apply elem_of_app. right. by apply list_elem_of_singleton.
Qed.

Lemma begin_driven s l key fp d s' :
  driven s l -> Z.of_nat (instants s) < u64_max -> begin_call now cache key fp s = (d, s') ->
  driven s' (match d with Ok (Execute k) => l ++ [k] | _ => l end) /\ instants s' = S (instants s) /\
  (forall w, heard s w -> heard s' w) /\ (forall w, d = Ok (Wait w) -> heard s' w).
Proof.
  intros [(m & clk & Hs & Hclk & Hm & Hh) Hn Hg] Hi Hb. unfold begin_call in Hb.
  destruct (begin cache (cached s) (now (instants s)) open_channel (next_waiter s) key fp) as [d' i'] eqn:E. injection Hb as <- <-.
  destruct (begin_step_inv cache bytes_bound (mkSystem (cached s) m clk) _ _ _ _ _ _ _ Hs ltac:(cbn; lia) E) as [Hs' Hg'].
  destruct (begin_waiters clk _ _ _ _ _ _ _ (sys_cache _ _ Hs) ltac:(cbn in *; lia) E) as (Hw1 & Hw2 & Hw3).
  cbn [leases clock_now inner] in *. split_and!; [|done| |].
  - split; cbn [cached instants].
    + exists (granted d' m), clk. split_and!; [done|pose proof (now_mono (instants s)); lia| |].
      * intros k. destruct d' as [[k'|?|?]|?]; cbn [granted]; try apply Hm. rewrite elem_of_app, list_elem_of_singleton.
        destruct (decide (k = k')) as [->|Hne]; [rewrite lookup_insert_eq; naive_solver|rewrite lookup_insert_ne by done; rewrite Hm; naive_solver].
      * intros k st Hk. destruct d' as [[k'|?|?]|?]; cbn [granted] in Hk; try (by eapply Hh). apply lookup_insert_Some in Hk as [[_ <-]|[_ Hk]]; [done|by eapply Hh].
    + destruct d' as [[k|?|?]|?]; try done. apply NoDup_app. split_and!; [done| |apply NoDup_singleton].
      intros x Hx Hx'. apply list_elem_of_singleton in Hx' as ->.
      assert (is_in_flight (cached s) k = true) as Hf by (by apply (sys_leases _ _ Hs), Hm).
      unfold is_in_flight in Hf. by rewrite (Hw3 k eq_refl) in Hf.
    + lia.
  - intros w [?|(k & ws & Hk & Hw)]; [by left|]. destruct (Hw1 k ws w Hk Hw) as (ws' & ? & ?). right. by exists k, ws'.
  - intros w Hd. right. by apply Hw2.
Qed.

(** A lease that ends answers its waiters and leaves the others. *)
Lemma ended_heard s s' k ws w :
  entries (cached s) !! k = Some (InFlight ws) -> keeps_leases k (cached s) (cached s') -> (mail s').*1 = (mail s).*1 ++ ws ->
  heard s w -> heard s' w.
Proof.
  intros Hk Hkl Hmail. unfold heard, answered. rewrite !bool_decide_eq_true, Hmail, elem_of_app. intros [?|(k' & ws' & Hk' & Hw)]; [by left; left|].
  destruct (decide (k' = k)) as [->|Hne]; [left; right; congruence|]. right. exists k', ws'. split; [|done]. by apply (keeps_in_flight _ _ _ Hkl).
Qed.

Lemma ended_leases (l1 l2 : list ReplayEntryKey) k (m m' : gmap ReplayEntryKey lease_state) :
  base.NoDup (l1 ++ k :: l2) -> (forall j, is_Some (m !! j) <-> j ∈ l1 ++ k :: l2) -> (forall j, j <> k -> m' !! j = m !! j) -> m' !! k = None ->
  (forall j, is_Some (m' !! j) <-> j ∈ l1 ++ l2) /\ base.NoDup (l1 ++ l2).
Proof.
  intros Hn Hm Hne Hk. apply NoDup_app in Hn as (Hn1 & Hn2 & Hn3). apply NoDup_cons in Hn3 as [Hn3 Hn4]. split.
  - intros j. destruct (decide (j = k)) as [->|Hj].
    + rewrite Hk, elem_of_app. split; [by intros [? ?]|]. intros [Hin|?]; [|done]. destruct (Hn2 k Hin). by apply elem_of_cons; left.
    + rewrite (Hne j Hj), Hm, !elem_of_app, elem_of_cons. naive_solver.
  - apply NoDup_app. split_and!; [done| |done]. intros x Hx Hx'. apply (Hn2 x Hx). by apply elem_of_cons; right.
Qed.

Lemma driven_in_flight s l k : driven s l -> k ∈ l -> exists ws, entries (cached s) !! k = Some (InFlight ws).
Proof. intros [(m & clk & Hs & _ & Hm & _) _ _] Hk. apply in_flight_iff. apply (sys_leases _ _ Hs). by apply Hm. Qed.

Lemma map_fst_tag {B} (ws : list waiter) (b : B) : (map (fun w => (w, b)) ws).*1 = ws.
Proof. induction ws as [|w ws IH]; [done|]. cbn. by rewrite IH. Qed.

(** A step that is not a call keeps the generation. *)
Lemma quiet_step s e s' :
  system_inv cache s -> step with_capacity cache s e s' -> match e with Began _ _ _ => True | _ => 
    system_inv cache s' /\ next_generation (inner s') = next_generation (inner s) end.
Proof.
  intros Hs St. destruct e; [done|..]; (edestruct (step_inv with_capacity cache bytes_bound with_capacity_ge s) as [Hs' Hg]; [done| |exact St|]; [by right; intros []|]; split; [done|];
    destruct (decide _) as [[]|] in Hg; lia).
Qed.

Lemma drop_driven s l1 k l2 :
  driven s (l1 ++ k :: l2) ->
  driven (drop_lease k s) (l1 ++ l2) /\ instants (drop_lease k s) = instants s /\ forall w, heard s w -> heard (drop_lease k s) w.
Proof.
  intros Hd. destruct (driven_in_flight s _ k Hd) as [ws Hws]; [by apply elem_of_app; right; apply elem_of_cons; left|].
  destruct Hd as [(m & clk & Hs & Hclk & Hm & Hh) Hn Hg]. unfold drop_lease.
  pose proof (cancel_inv cache clk (cached s) k ws (sys_cache _ _ Hs) Hws) as Hc.
  destruct (Replay.cancel (cached s) k) as [i' out] eqn:E. destruct Hc as (_ & -> & _ & Hkl). cbn [instants].
  assert (exists st, m !! k = Some st) as [st Hst] by (apply Hm; by apply elem_of_app; right; apply elem_of_cons; left).
  pose proof (Hh k st Hst) as ->.
  destruct (quiet_step _ _ _ Hs (step_cancel with_capacity cache (mkSystem (cached s) m clk) k i' _ Hst E)) as [Hs' Hg'].
  destruct (ended_leases l1 l2 k m (delete k m) Hn Hm) as [Hm' Hn']; [intros; by apply lookup_delete_ne|apply lookup_delete_eq|].
  split_and!; [|done|].
  - split; cbn [cached instants]; [|done|cbn in Hg'; lia]. exists (delete k m), clk. split_and!; [done|done|done|].
    intros j x Hx. apply lookup_delete_Some in Hx as [_ Hx]. by eapply Hh.
  - intros w. apply (ended_heard s _ k ws); [done|done|]. cbn [mail]. by rewrite fmap_app, map_fst_tag.
Qed.

Lemma complete_driven s l k reply :
  driven s (l ++ [k]) ->
  let s' := complete_call now with_capacity cache k reply s in
  driven s' l /\ instants s' = S (instants s) /\ forall w, heard s w -> heard s' w.
Proof.
  intros Hd. destruct (driven_in_flight s _ k Hd) as [ws Hws]; [by apply elem_of_app; right; apply elem_of_cons; left|].
  destruct Hd as [(m & clk & Hs & Hclk & Hm & Hh) Hn Hg]. unfold complete_call. cbv zeta.
  assert (exists st, m !! k = Some st) as [st Hst] by (apply Hm; by apply elem_of_app; right; apply elem_of_cons; left).
  pose proof (Hh k st Hst) as ->. assert (reply_wf (from_bytes reply)) as Hwf by done. set (rep := from_bytes reply) in *.
  set (prepared := prepare_storage with_capacity cache (cached s) k rep).
  pose proof (complete_inv cache clk (cached s) k ws rep prepared (now (instants s)) (sys_cache _ _ Hs) Hws Hclk
    (prepare_storage_ok with_capacity cache with_capacity_ge _ _ _ Hwf) ltac:(lia)) as Hc.
  destruct (complete cache (cached s) k rep prepared (now (instants s))) as [i' out] eqn:E. destruct Hc as (_ & -> & _ & Hkl). cbn [instants].
  destruct (quiet_step _ _ _ Hs (step_prepare with_capacity cache (mkSystem (cached s) m clk) k rep Hst Hwf)) as [Hs1 Hg1].
  destruct (quiet_step _ _ _ Hs1
    (step_complete with_capacity cache (mkSystem (cached s) (<[k := Completing rep prepared]> m) clk) k rep prepared (now (instants s)) i' _ (lookup_insert_eq _ _ _) Hclk E)) as [Hs2 Hg2].
  destruct (ended_leases l [] k m (delete k (<[k := Completing rep prepared]> m)) Hn Hm) as [Hm' Hn'];
    [intros; by rewrite lookup_delete_ne, lookup_insert_ne|apply lookup_delete_eq|]. rewrite app_nil_r in Hm', Hn'.
  split_and!; [|done|].
  - split; cbn [cached instants]; [|done|cbn in Hg1, Hg2; lia]. eexists _, _. split_and!; [exact Hs2|apply now_mono|exact Hm'|].
    intros j x Hx. apply lookup_delete_Some in Hx as [Hj Hx]. cbn [leases] in Hx. rewrite lookup_insert_ne in Hx by done. by eapply Hh.
  - intros w. apply (ended_heard s _ k ws); [done|done|]. cbn [mail]. by rewrite fmap_app, map_fst_tag.
Qed.

(** A turn of the loop. *)
Definition settled (s : schedule) : Prop := driven (drv s) (held s) /\ forall w, w ∈ waiting s -> heard (drv s) w.

Lemma pop_settled s : settled s -> settled (pop_lease s) /\ instants (drv (pop_lease s)) = instants (drv s).
Proof.
  intros [Hd Hw]. unfold pop_lease. destruct (last (held s)) as [k|] eqn:El; [|done]. apply last_Some in El as [l El]. rewrite El in Hd |- *.
  rewrite length_app, Nat.add_sub, take_app_length. destruct (drop_driven _ _ _ _ Hd) as (Hd' & Hi & Hh). rewrite app_nil_r in Hd'.
  cbn [drv held waiting]. split; [|done]. split; cbn [drv held waiting]; auto.
Qed.

Lemma turn_settled chunk s :
  settled s -> Z.of_nat (instants (drv s)) < u64_max ->
  settled (turn now with_capacity cache chunk s) /\ (instants (drv (turn now with_capacity cache chunk s)) <= instants (drv s) + 2)%nat.
Proof.
  intros [Hd Hw] Hi. unfold turn. destruct (begin_call _ _ _ _ _) as [d s1] eqn:Eb.
  destruct (begin_driven _ _ _ _ _ _ Hd Hi Eb) as (Hd1 & Hi1 & Hh1 & Hw1). set (s' := match d with Ok _ => _ | Err _ => _ end).
  assert (settled s' /\ (instants (drv s') <= instants (drv s) + 2)%nat) as [Hs' Hi'].
  { unfold s'. destruct d as [[k|r|w]|e].
    - destruct (_ =? 0).
      + destruct (complete_driven _ _ _ chunk Hd1) as (Hd2 & Hi2 & Hh2). cbn [drv]. split; [|lia]. split; cbn [drv held waiting]; auto.
      + cbn [drv]. split; [|lia]. split; cbn [drv held waiting]; auto.
    - cbn [drv]. split; [|lia]. split; cbn [drv held waiting]; auto.
    - cbn [drv]. split; [|lia]. split; cbn [drv held waiting]; [done|]. intros x [Hx|Hx]%elem_of_app; [by auto|]. apply list_elem_of_singleton in Hx as ->. auto.
    - cbn [drv]. split; [|lia]. split; cbn [drv held waiting]; auto. }
  clearbody s'. destruct (_ =? 0); [by split|]. destruct (pop_settled s' Hs') as [Hp Hpi]. split; [done|lia].
Qed.

Lemma turns_settled cs s :
  settled s -> Z.of_nat (instants (drv s)) + 2 * Z.of_nat (length cs) < u64_max ->
  settled (fold_left (fun s chunk => turn now with_capacity cache chunk s) cs s).
Proof.
  revert s. induction cs as [|c cs IH]; intros s Hs Hi; [done|]. cbn [fold_left length] in *.
  destruct (turn_settled c s Hs ltac:(lia)) as [Hs' Hi']. apply IH; [done|lia].
Qed.

Lemma drop_all_driven l d :
  driven d l -> driven (fold_left (fun d lease => drop_lease lease d) l d) [] /\
    forall w, heard d w -> heard (fold_left (fun d lease => drop_lease lease d) l d) w.
Proof.
  revert d. induction l as [|k l IH]; intros d Hd; [done|]. cbn [fold_left]. destruct (drop_driven d [] k l Hd) as (Hd' & _ & Hh).
  destruct (IH _ Hd') as [Hd2 Hh2]. split; [done|]. auto.
Qed.
End Settling.

(** ** The target *)

Section Passing.
Context (now : nat -> Z) (now_mono : forall n, now n <= now (S n)).
Context (with_capacity : Z -> Z) (with_capacity_ge : forall n, n <= with_capacity n).

(** The calls of a probe: a leader, then a second call for the same request. *)
Lemma probe_steps key fp s :
  driven now transitions s [] -> (instants s < 10)%nat ->
  match begin_call now transitions key fp s with
  | (Ok (Execute k), s1) =>
      driven now transitions s1 [k] /\ instants s1 = S (instants s) /\
      match begin_call now transitions key fp s1 with
      | (Ok (Execute k2), s2) => driven now transitions s2 [k; k2] /\ instants s2 = S (S (instants s))
      | (Ok (Wait w), s2) => driven now transitions s2 [k] /\ instants s2 = S (S (instants s)) /\ heard s2 w
      | (_, s2) => driven now transitions s2 [k] /\ instants s2 = S (S (instants s))
      end
  | (_, s1) => driven now transitions s1 [] /\ instants s1 = S (instants s)
  end.
Proof.
  intros Hd Hi. destruct (begin_call now transitions key fp s) as [d s1] eqn:E1.
  destruct (begin_driven now now_mono transitions ltac:(done) s [] key fp d s1 Hd ltac:(unfold u64_max; lia) E1) as (Hd1 & Hi1 & _ & _).
  destruct d as [[k|?|?]|?]; try done. split_and!; [done|done|]. destruct (begin_call now transitions key fp s1) as [d s2] eqn:E2.
  destruct (begin_driven now now_mono transitions ltac:(done) s1 [k] key fp d s2 Hd1 ltac:(unfold u64_max; lia) E2) as (Hd2 & Hi2 & _ & Hw2).
  rewrite Hi1 in Hi2. destruct d as [[k2|?|w]|?]; try done. by split_and!; [..|apply Hw2].
Qed.

Lemma probe_fallback d k s :
  driven now transitions s (match d with Ok (Execute k2) => [k; k2] | _ => [k] end) ->
  driven now transitions (drop_lease k (drop_decision d s)) [] /\ instants (drop_lease k (drop_decision d s)) = instants s.
Proof.
  intros Hd. assert (driven now transitions (drop_decision d s) [k] /\ instants (drop_decision d s) = instants s) as [Hd1 Hi1].
  { destruct d as [[k2|?|?]|?]; try done. destruct (drop_driven now with_capacity with_capacity_ge transitions ltac:(done) s [k] k2 [] Hd) as (H1 & H2 & _). done. }
  destruct (drop_driven now with_capacity with_capacity_ge transitions ltac:(done) _ [] k [] Hd1) as (H1 & H2 & _). split; [done|congruence].
Qed.

(** A waiter whose leader is the only lease has its answer once the leader ends. *)
Lemma probe_returns xid finish fp s :
  (forall s k, driven now transitions s [k] ->
    driven now transitions (finish k s) [] /\ (instants (finish k s) <= S (instants s))%nat /\ forall w, heard s w -> heard (finish k s) w) ->
  driven now transitions s [] -> (instants s < 10)%nat ->
  exists s', probe now xid finish fp s = Some s' /\ driven now transitions s' [] /\ (instants s' <= instants s + 3)%nat.
Proof.
  intros Hfin Hd Hi. pose proof (probe_steps (replay_key xid) fp s Hd Hi) as H. unfold probe.
  destruct (begin_call _ _ _ _ s) as [[[k|?|?]|?] s1]; try (destruct H; eexists; split_and!; [done|done|lia]).
  destruct H as (Hd1 & Hi1 & H). destruct (begin_call _ _ _ _ s1) as [[[k2|r|w]|e] s2].
  - destruct H as [Hd2 Hi2]. destruct (probe_fallback (Ok (Execute k2)) k s2 Hd2) as [Hd3 Hi3]. eexists. split_and!; [done|done|lia].
  - destruct H as [Hd2 Hi2]. destruct (probe_fallback (Ok (Replay r)) k s2 Hd2) as [Hd3 Hi3]. eexists. split_and!; [done|done|lia].
  - destruct H as (Hd2 & Hi2 & Hw). destruct (Hfin s2 k Hd2) as (Hd3 & Hi3 & Hh). exists (finish k s2). split_and!; [|done|lia].
    unfold await. by rewrite (driven_answered now transitions _ w Hd3 (Hh w Hw)).
  - destruct H as [Hd2 Hi2]. destruct (probe_fallback (Err e) k s2 Hd2) as [Hd3 Hi3]. eexists. split_and!; [done|done|lia].
Qed.

Lemma probe_closed_instants fp s :
  driven now transitions s [] -> (instants s < 10)%nat -> (instants (probe_closed now fp s) <= instants s + 2)%nat.
Proof.
  intros Hd Hi. pose proof (probe_steps (replay_key 102) fp s Hd Hi) as H. unfold probe_closed.
  destruct (begin_call _ _ _ _ s) as [[[k|?|?]|?] s1]; try (destruct H; lia). destruct H as (_ & _ & H).
  destruct (begin_call _ _ _ _ s1) as [d s2].
  assert (forall k s, instants (drop_lease k s) = instants s) as Hk by (intros ? ?; unfold drop_lease; by destruct (Replay.cancel _ _)).
  rewrite Hk. assert (instants (drop_decision d s2) = instants s2) as -> by (destruct d as [[?|?|?]|?]; cbn; auto).
  destruct d as [[?|?|?]|?]; destruct_and!; lia.
Qed.

(** The replay cache under fuzzed schedules. For every input and every clock
    that does not go backwards the target returns: the awaited waiters of a leader
    that completes and of one that is dropped are answered. After the schedule, when
    the leases still held are dropped, every waiter it collected has been answered,
    no request is in flight, and the cache holds at most its capacity. *)
Lemma fuzz_replay_settles data :
  exists s, replay_target now with_capacity data = Some s /\
    (forall w, w ∈ waiting s -> answered (drv s) w = true) /\
    (forall k, is_in_flight (cached (drv s)) k = false) /\
    cache_len (cached (drv s)) <= fuzz_capacity data.
Proof.
  unfold replay_target. set (fp := replicate 32 _).
  destruct (probe_returns 100 (fun leader => complete_call now with_capacity transitions leader (take (Nat.min (length data) 32) data)) fp fresh_driver)
    as (s1 & E1 & Hd1 & Hi1).
  { intros s k Hd. destruct (complete_driven now now_mono with_capacity with_capacity_ge transitions ltac:(done) s [] k
      (take (Nat.min (length data) 32) data) Hd) as (H1 & H2 & H3). split_and!; [done|lia|done]. }
  { by apply driven_fresh. } { cbn. lia. }
  unfold probe_complete. rewrite E1. cbn [mbind option_bind]. cbn in Hi1.
  destruct (probe_returns 101 drop_lease fp s1) as (s2 & E2 & Hd2 & Hi2); [|done|lia|].
  { intros s k Hd. destruct (drop_driven now with_capacity with_capacity_ge transitions ltac:(done) s [] k [] Hd) as (H1 & H2 & H3). split_and!; [done|lia|done]. }
  unfold probe_cancel. rewrite E2. cbn [mbind option_bind]. eexists. split; [done|].
  set (n := instants (probe_closed now fp s2)). assert (n < 100)%nat as Hn.
  { pose proof (probe_closed_instants fp s2 Hd2 ltac:(lia)). unfold n. lia. }
  clearbody n. clear -n Hn now_mono with_capacity_ge. unfold run_schedule.
  assert (0 <= capacity (fuzz_cache data)) as Hc.
  { cbn. unfold fuzz_capacity. pose proof (Z.mod_pos_bound (from_option byte_val 1 (data !! 0%nat)) 16). lia. }
  assert (0 <= max_completed_bytes (fuzz_cache data) < usize_max) as Hb by done.
  set (cs := take 64 _). assert (length cs <= 64)%nat as Hl by (unfold cs; rewrite length_take; lia).
  destruct (turns_settled now now_mono with_capacity with_capacity_ge (fuzz_cache data) Hb cs (mkSchedule (mkDriver new [] 0%nat n) [] [])) as [Hd Hw].
  { split; [by apply driven_fresh|]. cbn. by intros w ?%not_elem_of_nil. }
  { cbn [drv instants]. unfold u64_max. lia. }
  set (s := fold_left _ cs _) in *. clearbody s. destruct (drop_all_driven now with_capacity with_capacity_ge (fuzz_cache data) Hb (held s) (drv s) Hd) as [Hd' Hh].
  cbn [drv waiting]. split_and!.
  - intros w Hin. apply (driven_answered now (fuzz_cache data)); auto.
  - intros k. destruct (is_in_flight _ k) eqn:Ek; [|done]. destruct Hd' as [(m & clk & Hs & _ & Hm & _) _ _]. exfalso.
    apply (sys_leases _ _ Hs) in Ek. by apply Hm, not_elem_of_nil in Ek.
  - destruct Hd' as [(m & clk & Hs & _ & _ & _) _ _]. pose proof (inv_size _ _ _ _ (sys_cache _ _ Hs)) as Hz. cbn in Hz. unfold cache_len. lia.
Qed.
End Passing.

Definition sample_clock (n : nat) : Z := Z.of_nat n.

(** Two calls for one request, the first kept: the second waits and, when the lease
    is dropped, is told. *)
Example sample_schedule :
  (fun s => (waiting s, map (answered (drv s)) (waiting s))) <$>
    replay_target sample_clock (fun n => n) [Byte.x02; Byte.x01; Byte.x07; Byte.x01; Byte.x01; Byte.x07; Byte.x00] = Some ([1%nat], [true]).
Proof. by vm_compute. Qed.
