(* ===== verification/Certification.v ===== *)
(** * [examples/certification_server.rs]: the server under certification

    The harness serves one of several file systems until a file tells it to stop.
    In its lost-reply profile clients reach the server through proxies that
    discard the reply to one WRITE. [proxy_step] is one step of
    [proxy_connection], [harness_step] one of [serve_with_lost_write_reply];
    [main_step] is the serving loop of [main]. Which step comes next, and what the
    peers, the listener and the file system answer, is free. *)
From S2P Require Import Prelude RpcCodec RpcRecord Connection Execute Calls.
From stdpp Require Import list option strings.
#[local] Open Scope Z_scope.
Import Format.

(** ** Recognising a WRITE *)

(** [decoder.read_u32() == Ok(v)] *)
Definition expect (v : Z) (d : Decoder.decoder) : option Decoder.decoder :=
  match Decoder.read_u32 d with Ok (x, d') => if x =? v then Some d' else None | Err _ => None end.

Definition is_nfs_write (record : list byte) : bool :=
  match Decoder.read_u32 (Decoder.new record) with
  | Ok (_, d) =>
      bool_decide (is_Some (d ← expect 0 d; d ← expect 2 d; d ← expect NFS_PROGRAM d; d ← expect NFS_VERSION d; expect 7 d))
  | Err _ => false
  end.

(** ** The proxy of one client *)

Definition limits : RecordLimits := mkRecordLimits (2 * 1024 * 1024) (1024 * 1024) 16.

Inductive proxy_end : Type := LostReply | Failed | Cancelled.
Inductive proxy_phase : Type :=
| Connecting
| AwaitRequest
| SendRequest (is_write : bool) (rest : list byte)
| AwaitReply (is_write : bool)
| SendReply (reply rest : list byte)
| Ended (how : proxy_end).

(** What arrived from each side and is not read yet, whether that side has closed,
    and the bytes sent to each side. [client_sent], [server_sent], [requests],
    [replies] and [passed] are histories: all bytes that arrived, the records read,
    and the replies written to the client in full. *)
Record proxy : Type := mkProxy {
  phase : proxy_phase;
  from_client : list byte;
  client_closed : bool;
  from_server : list byte;
  server_closed : bool;
  to_client : list byte;
  to_server : list byte;
  client_sent : list byte;
  server_sent : list byte;
  requests : list (list byte);
  replies : list (list byte);
  passed : list (list byte)
}.

Definition set_phase (ph : proxy_phase) (p : proxy) : proxy :=
  mkProxy ph (from_client p) (client_closed p) (from_server p) (server_closed p) (to_client p) (to_server p)
    (client_sent p) (server_sent p) (requests p) (replies p) (passed p).

Definition fresh_proxy : proxy := mkProxy Connecting [] false [] false [] [] [] [] [] [] [].

(** What [write_record_limited] puts on a connection that takes everything. *)
Definition wire (record : list byte) : option (list byte) :=
  match write_record_limited record limits (mkSink [] false []) with
  | (Ok _, k) => Some (written k)
  | (Err _, _) => None
  end.

Section Proxy.
Context (alloc : Z -> option Z).

(** [read_record] on what has arrived: a record and the bytes after it, an error,
    or nothing yet. *)
Inductive received : Type := Whole (record rest : list byte) | BadRecord | Waits.

Definition receive (arrived : list byte) (closed : bool) : received :=
  match read_record alloc limits (mkStream arrived OtherIo) with
  | Ok (record, s) => Whole record (s_bytes s)
  | Err (RpcRecord.Io OtherIo) => if closed then BadRecord else Waits
  | Err _ => BadRecord
  end.

Inductive proxy_action : Type :=
(* the peers *)
| ClientSends (bs : list byte)
| ClientCloses
| ServerSends (bs : list byte)
| ServerCloses
(* [proxy_connection] *)
| Connect
| TakeRequest
| TakeReply
| Sent (n : Z)
| IoFails.

(** One step, with the shared flag [lose_reply]. *)
Definition proxy_step (a : proxy_action) (lose_reply : bool) (p : proxy) : option (bool * proxy) :=
  match a with
  | ClientSends bs =>
      if client_closed p then None
      else Some (lose_reply, mkProxy (phase p) (from_client p ++ bs) false (from_server p) (server_closed p) (to_client p) (to_server p)
        (client_sent p ++ bs) (server_sent p) (requests p) (replies p) (passed p))
  | ClientCloses =>
      Some (lose_reply, mkProxy (phase p) (from_client p) true (from_server p) (server_closed p) (to_client p) (to_server p)
        (client_sent p) (server_sent p) (requests p) (replies p) (passed p))
  | ServerSends bs =>
      if server_closed p then None
      else Some (lose_reply, mkProxy (phase p) (from_client p) (client_closed p) (from_server p ++ bs) false (to_client p) (to_server p)
        (client_sent p) (server_sent p ++ bs) (requests p) (replies p) (passed p))
  | ServerCloses =>
      Some (lose_reply, mkProxy (phase p) (from_client p) (client_closed p) (from_server p) true (to_client p) (to_server p)
        (client_sent p) (server_sent p) (requests p) (replies p) (passed p))
  | Connect => match phase p with Connecting => Some (lose_reply, set_phase AwaitRequest p) | _ => None end
  | IoFails => match phase p with Ended _ => None | _ => Some (lose_reply, set_phase (Ended Failed) p) end
  | TakeRequest =>
      match phase p with
      | AwaitRequest =>
          match receive (from_client p) (client_closed p) with
          | Whole request rest =>
              let ph := match wire request with Some bs => SendRequest (is_nfs_write request) bs | None => Ended Failed end in
              Some (lose_reply, mkProxy ph rest (client_closed p) (from_server p) (server_closed p) (to_client p) (to_server p)
                (client_sent p) (server_sent p) (requests p ++ [request]) (replies p) (passed p))
          | BadRecord => Some (lose_reply, set_phase (Ended Failed) p)
          | Waits => None
          end
      | _ => None
      end
  | TakeReply =>
      match phase p with
      | AwaitReply is_write =>
          match receive (from_server p) (server_closed p) with
          | Whole reply rest =>
              if is_write && lose_reply then
                Some (false, mkProxy (Ended LostReply) (from_client p) (client_closed p) rest (server_closed p) (to_client p) (to_server p)
                  (client_sent p) (server_sent p) (requests p) (replies p ++ [reply]) (passed p))
              else
                let ph := match wire reply with Some bs => SendReply reply bs | None => Ended Failed end in
                Some (lose_reply, mkProxy ph (from_client p) (client_closed p) rest (server_closed p) (to_client p) (to_server p)
                  (client_sent p) (server_sent p) (requests p) (replies p ++ [reply]) (passed p))
          | BadRecord => Some (lose_reply, set_phase (Ended Failed) p)
          | Waits => None
          end
      | _ => None
      end
  | Sent n =>
      match phase p with
      | SendRequest w rest =>
          if (1 <=? n) && (n <=? zlen rest) then
            let ph := match drop (Z.to_nat n) rest with [] => AwaitReply w | rest' => SendRequest w rest' end in
            Some (lose_reply, mkProxy ph (from_client p) (client_closed p) (from_server p) (server_closed p) (to_client p)
              (to_server p ++ take (Z.to_nat n) rest) (client_sent p) (server_sent p) (requests p) (replies p) (passed p))
          else None
      | SendReply reply rest =>
          if (1 <=? n) && (n <=? zlen rest) then
            let (ph, passed) := match drop (Z.to_nat n) rest with
              | [] => (AwaitRequest, passed p ++ [reply])
              | rest' => (SendReply reply rest', passed p)
              end in
            Some (lose_reply, mkProxy ph (from_client p) (client_closed p) (from_server p) (server_closed p)
              (to_client p ++ take (Z.to_nat n) rest) (to_server p) (client_sent p) (server_sent p) (requests p) (replies p) passed)
          else None
      | _ => None
      end
  end.

(** ** [serve_with_lost_write_reply] *)

Inductive harness_phase : Type := Accepting | Joining | Stopping | Waiting | Returned (ok : bool).
Record harness : Type := mkHarness { serving : harness_phase; lose_reply : bool; proxies : list proxy }.

Inductive harness_label : Type :=
| AcceptClient
| AcceptFails
| SawShutdown
| Abort (i : nat)
| AllJoined
| ServerShutdown (ok : bool)
| ServerWait (ok : bool)
| On (i : nat) (a : proxy_action).

Definition ended (p : proxy) : bool := match phase p with Ended _ => true | _ => false end.

(** Leaving the loop with an error drops the set of proxies, which aborts them too;
    an aborted task ends when it next waits. *)
Definition harness_step (l : harness_label) (h : harness) : option harness :=
  match l with
  | AcceptClient =>
      match serving h with Accepting => Some (mkHarness Accepting (lose_reply h) (proxies h ++ [fresh_proxy])) | _ => None end
  | AcceptFails => match serving h with Accepting => Some (mkHarness (Returned false) (lose_reply h) (proxies h)) | _ => None end
  | SawShutdown => match serving h with Accepting => Some (mkHarness Joining (lose_reply h) (proxies h)) | _ => None end
  | Abort i =>
      match serving h, proxies h !! i with
      | (Joining | Returned _), Some p =>
          if ended p then None else Some (mkHarness (serving h) (lose_reply h) (<[i := set_phase (Ended Cancelled) p]> (proxies h)))
      | _, _ => None
      end
  | AllJoined =>
      match serving h with
      | Joining => if forallb ended (proxies h) then Some (mkHarness Stopping (lose_reply h) (proxies h)) else None
      | _ => None
      end
  | ServerShutdown ok =>
      match serving h with
      | Stopping => Some (mkHarness (if (ok : bool) then Waiting else Returned false) (lose_reply h) (proxies h))
      | _ => None
      end
  | ServerWait ok =>
      match serving h with Waiting => Some (mkHarness (Returned ok) (lose_reply h) (proxies h)) | _ => None end
  | On i a =>
      match proxies h !! i with
      | Some p =>
          match proxy_step a (lose_reply h) p with
          | Some (flag, p') => Some (mkHarness (serving h) flag (<[i := p']> (proxies h)))
          | None => None
          end
      | None => None
      end
  end.

Definition harness_start : harness := mkHarness Accepting true [].

Fixpoint harness_run (ls : list harness_label) (h : harness) : option harness :=
  match ls with
  | [] => Some h
  | l :: ls' => harness_step l h ≫= harness_run ls'
  end.
End Proxy.

(** ** What is taken for a WRITE *)

Definition u32s (l : list Z) : list byte := concat (map (be_bytes 4) l).

Lemma expect_iff v d d' :
  wf d -> u32_range v -> expect v d = Some d' <-> exists tail, rest d = be_bytes 4 v ++ tail /\ d' = advance (zlen (be_bytes 4 v)) d.
Proof.
  intros Hd Hv. unfold expect. split.
  - destruct (Decoder.read_u32 d) as [[x d1]|] eqn:E; [|done]. destruct (Z.eqb_spec x v) as [->|]; [|done]. intros [= <-].
    apply (implements_sound _ _ _ Hd) in E as (bs & tail & Hr & [_ ->] & ->). eauto.
  - intros (tail & Hr & ->). rewrite (implements_complete _ v _ tail Hd Hr) by done. by rewrite Z.eqb_refl.
Qed.

(** A chain of expected numbers. *)
Fixpoint expects (l : list Z) (d : Decoder.decoder) : option Decoder.decoder :=
  match l with [] => Some d | v :: l' => d' ← expect v d; expects l' d' end.

Lemma expects_iff l d :
  wf d -> Forall u32_range l -> is_Some (expects l d) <-> exists tail, rest d = u32s l ++ tail.
Proof.
  intros Hd Hl. revert d Hd. induction Hl as [|v l Hv _ IH]; intros d Hd; [cbn; split; eauto|].
  cbn [expects]. unfold u32s. cbn [map concat]. change (concat (map (be_bytes 4) l)) with (u32s l).
  destruct (expect v d) as [d'|] eqn:E; cbn [mbind option_bind].
  - apply expect_iff in E as (tail & Hr & ->); [|done|done].
    rewrite (IH _ (advance_wf _ _ _ Hd Hr)), (rest_advance _ _ _ Hd Hr), Hr. split; intros [t Ht]; exists t.
    + by rewrite Ht, app_assoc.
    + rewrite <- app_assoc in Ht. by apply app_inv_head in Ht.
  - split; [by intros [? ?]|]. intros [t Ht]. rewrite <- app_assoc in Ht.
    assert (expect v d = Some (advance (zlen (be_bytes 4 v)) d)) as E2; [|congruence]. apply expect_iff; eauto.
Qed.

Definition write_call : list Z := [0; 2; NFS_PROGRAM; NFS_VERSION; 7].

Lemma is_nfs_write_expects record :
  is_nfs_write record =
  match Decoder.read_u32 (Decoder.new record) with Ok (_, d) => bool_decide (is_Some (expects write_call d)) | Err _ => false end.
Proof.
  unfold is_nfs_write. destruct (Decoder.read_u32 _) as [[x d]|]; [|done]. apply bool_decide_ext. unfold write_call. cbn [expects].
  do 4 (destruct (expect _ _) as [?|]; cbn [mbind option_bind]; [|done]). by destruct (expect 7 _).
Qed.

(** Exactly the records that start like a version 3 WRITE call. *)
Lemma is_nfs_write_iff record :
  zlen record <= isize_max ->
  is_nfs_write record = true <-> exists xid tail, u32_range xid /\ record = be_bytes 4 xid ++ u32s write_call ++ tail.
Proof.
  intros Hl. pose proof (wf_new record Hl) as Hwf. rewrite is_nfs_write_expects. split.
  - destruct (Decoder.read_u32 (Decoder.new record)) as [[xid d]|] eqn:E; [|done]. intros Hb%bool_decide_eq_true.
    apply (implements_sound _ _ _ Hwf) in E as (bs & tail & Hr & [Hx ->] & ->). rewrite rest_new in Hr. exists xid.
    destruct (proj1 (expects_iff write_call _ (advance_wf _ _ _ Hwf Hr) ltac:(by repeat constructor))) as [t Ht].
    { exact Hb. }
    rewrite (rest_advance _ _ _ Hwf Hr) in Ht. exists t. by rewrite Hr, Ht.
  - intros (xid & tail & Hx & E).
    rewrite (implements_complete _ xid (be_bytes 4 xid) (u32s write_call ++ tail) Hwf) by (by rewrite ?rest_new).
    apply bool_decide_eq_true.
    apply (proj2 (expects_iff write_call _ (advance_wf _ _ _ Hwf E) ltac:(by repeat constructor))).
    rewrite (rest_advance _ _ (u32s write_call ++ tail) Hwf E). by eexists.
Qed.

Lemma u32s_inj l1 l2 t1 t2 :
  Forall u32_range l1 -> Forall u32_range l2 -> length l1 = length l2 -> u32s l1 ++ t1 = u32s l2 ++ t2 -> l1 = l2.
Proof.
  intros H1. revert l2. induction H1 as [|v l1 Hv _ IH]; intros [|w l2] H2 Hn E; try done.
  apply Forall_cons in H2 as [Hw H2]. unfold u32s in E. cbn [map concat] in E. rewrite <- !app_assoc in E.
  apply app_inj_1 in E as [Ew E]; [|by rewrite !length_be_bytes]. f_equal; [|by eapply IH; eauto].
  by rewrite <- (be_value_be4 v Hv), <- (be_value_be4 w Hw), Ew.
Qed.

(** Of the calls the server admits, exactly the WRITEs. *)
Lemma is_nfs_write_header h args :
  header_wf h -> zlen (header_bytes h ++ args) <= isize_max ->
  is_nfs_write (header_bytes h ++ args) = true <->
  ch_rpc_version h = 2 /\ ch_program h = NFS_PROGRAM /\ ch_version h = NFS_VERSION /\ ch_procedure h = 7.
Proof.
  intros Hh Hl. rewrite is_nfs_write_iff by done. pose proof Hh as Hh'. unfold header_wf in Hh'. destruct_and! Hh'.
  set (own := [ch_xid h; RPC_CALL; ch_rpc_version h; ch_program h; ch_version h; ch_procedure h]).
  assert (exists rest, header_bytes h ++ args = u32s own ++ rest) as [rest E].
  { eexists. unfold header_bytes, u32s, own. cbn [map concat]. rewrite <- !app_assoc. reflexivity. }
  rewrite E. split.
  - intros (xid & tail & Hx & E2). change (be_bytes 4 xid ++ u32s write_call ++ tail) with (be_bytes 4 xid ++ (u32s write_call ++ tail)) in E2.
    rewrite app_assoc in E2. change (be_bytes 4 xid ++ u32s write_call) with (u32s (xid :: write_call)) in E2.
    apply u32s_inj in E2; [|repeat (apply Forall_cons_2; [done|]); apply Forall_nil_2..|done]. unfold own, write_call in E2. by simplify_eq.
  - intros (Hv & Hp & Hn & Hr). exists (ch_xid h), rest. split; [done|].
    rewrite app_assoc. f_equal. unfold own. by rewrite Hv, Hp, Hn, Hr.
Qed.

(** ** What the proxies do *)

Definition framing (records : list (list byte)) : list byte := concat (map (framed (max_fragment_size limits)) records).

(** [records] are what was read of the bytes [sent], up to [unread]. *)
Definition read_from (sent unread : list byte) (records : list (list byte)) : Prop :=
  exists css, records = map (@concat byte) css /\ Forall (fragments_ok limits) css /\ sent = concat (map frames css) ++ unread.

(** [sent] is a prefix of the framing of [records]; unless the proxy has ended,
    [unsent] is the rest. *)
Definition written_to (sent : list byte) (records : list (list byte)) (over : bool) (unsent : list byte) : Prop :=
  exists tail, framing records = sent ++ tail /\ (over = false -> tail = unsent).

Definition lost (p : proxy) : bool := match phase p with Ended LostReply => true | _ => false end.
Definition unsent_request (p : proxy) : list byte := match phase p with SendRequest _ rest => rest | _ => [] end.

(** The reply after the [passed] ones is on its way: [part] of its framing has been
    written, and not the [rest]. *)
Definition partly (p : proxy) (reply part rest : list byte) : Prop :=
  replies p = passed p ++ [reply] /\ framed (max_fragment_size limits) reply = part ++ rest /\ rest <> [] /\
  to_client p = framing (passed p) ++ part.
Definition settled (p : proxy) : Prop := replies p = passed p /\ to_client p = framing (passed p).

(** What was written to the client. *)
Definition handing (p : proxy) : Prop :=
  match phase p with
  | SendReply reply rest => exists part, partly p reply part rest
  | Ended LostReply => exists reply, partly p reply [] (framed (max_fragment_size limits) reply)
  | Ended _ => settled p \/ exists reply part rest, partly p reply part rest
  | _ => settled p
  end.

(** Whose turn it is: at most one request has no reply yet. *)
Definition turn (p : proxy) : Prop :=
  match phase p with
  | Connecting => requests p = [] /\ replies p = []
  | AwaitRequest | SendReply _ _ => length (requests p) = length (replies p)
  | SendRequest w _ | AwaitReply w =>
      exists earlier q, requests p = earlier ++ [q] /\ length earlier = length (replies p) /\ w = is_nfs_write q
  | Ended LostReply =>
      exists earlier q, requests p = earlier ++ [q] /\ S (length earlier) = length (replies p) /\ is_nfs_write q = true
  | Ended _ => (length (replies p) <= length (requests p) <= S (length (replies p)))%nat
  end.

Record proxy_ok (flag : bool) (p : proxy) : Prop := {
  p_requests : read_from (client_sent p) (from_client p) (requests p);
  p_replies : read_from (server_sent p) (from_server p) (replies p);
  p_to_server : written_to (to_server p) (requests p) (ended p) (unsent_request p);
  p_turn : turn p;
  p_passed : handing p;
  p_first : flag = true -> Forall (fun q => is_nfs_write q = false) (take (length (replies p)) (requests p))
}.

Section Proxies.
Context (alloc : Z -> option Z) (memory : alloc_grants alloc (max_record_size limits)).

Lemma receive_whole bs closed record rest :
  receive alloc bs closed = Whole record rest -> exists cs, fragments_ok limits cs /\ record = concat cs /\ bs = frames cs ++ rest.
Proof.
  unfold receive. destruct (read_record _ _ _) as [[r s]|[[]| | | | |]] eqn:E; [intros [= <- <-]|by destruct closed..].
  apply read_record_spec in E as (cs & Hok & -> & Hb & _); [|done|done|done]. by exists cs.
Qed.

(** Whatever was read can be sent on. *)
Lemma wire_read cs : fragments_ok limits cs -> wire (concat cs) = Some (framed (max_fragment_size limits) (concat cs)).
Proof.
  intros (_ & _ & _ & _ & Hl). unfold wire.
  assert (validate_record (concat cs) limits = Ok ()) as Hv.
  { unfold validate_record, validate_record_length. rewrite (proj2 (Z.ltb_ge _ _)) by done. cbn [limits max_record_size max_fragment_size max_fragments] in *.
    destruct (Z.eqb_spec (zlen (concat cs)) 0); [done|]. change (1024 * 1024 =? 0) with false.
    rewrite (proj2 (Z.ltb_ge _ _)); [done|]. apply div_ceil_le; pose proof (zlen_nonneg (concat cs)); lia. }
  destruct (sends_write_record_limited (concat cs) limits) as [He Hs]; [by vm_compute|done|].
  destruct (Hs (mkSink [] false [])) as (k & Hk & _); [constructor|]. rewrite Hk. by destruct (He _ _ Hk) as [-> _].
Qed.

Lemma framed_nonempty n record : framed n record <> [].
Proof.
  unfold framed. destruct (Z.eqb_spec (zlen record) 0) as [|Hr]; [done|]. unfold chunks. destruct record as [|b record]; [done|].
  cbn [length chunks_fuel]. by rewrite (proj2 (Z.eqb_neq _ _) Hr).
Qed.

Lemma framing_snoc l r : framing (l ++ [r]) = framing l ++ framed (max_fragment_size limits) r.
Proof. unfold framing. rewrite map_app, concat_app. cbn. by rewrite app_nil_r. Qed.

Lemma read_more sent unread records bs : read_from sent unread records -> read_from (sent ++ bs) (unread ++ bs) records.
Proof. intros (css & -> & Hok & ->). exists css. by rewrite <- app_assoc. Qed.

Lemma read_next sent cs rest records :
  read_from sent (frames cs ++ rest) records -> fragments_ok limits cs -> read_from sent rest (records ++ [concat cs]).
Proof.
  intros (css & -> & Hok & ->) Hcs. exists (css ++ [cs]). rewrite !map_app, concat_app. cbn. rewrite app_nil_r, <- app_assoc.
  split_and!; [done|by apply Forall_app_2, Forall_singleton|done].
Qed.

(** A record is handed to the writer. *)
Lemma write_next sent records r (over : bool) unsent :
  written_to sent records false [] -> (over = false -> unsent = framed (max_fragment_size limits) r) ->
  written_to sent (records ++ [r]) over unsent.
Proof.
  intros (tail & E & Ht) Hu. specialize (Ht eq_refl) as ->. rewrite app_nil_r in E. exists (framed (max_fragment_size limits) r).
  rewrite framing_snoc, E. split; [done|]. intros Ho. by rewrite Hu.
Qed.

(** Some bytes are sent. *)
Lemma write_some sent records rest n :
  written_to sent records false rest -> written_to (sent ++ take n rest) records false (drop n rest).
Proof. intros (tail & E & Ht). specialize (Ht eq_refl) as ->. exists (drop n rest). by rewrite <- app_assoc, take_drop. Qed.

Lemma write_over sent records (over : bool) unsent unsent' : written_to sent records over unsent -> written_to sent records true unsent'.
Proof. intros (tail & E & _). by exists tail. Qed.

Lemma proxy_ok_flag (f f' : bool) p : (f' = true -> f = true) -> proxy_ok f p -> proxy_ok f' p.
Proof. intros Hf []. split; auto. Qed.

(** A proxy that ends leaves at most one reply partly written. *)
Lemma handing_ends p how : handing p -> ended p = false -> how <> LostReply -> handing (set_phase (Ended how) p).
Proof.
  unfold handing, ended. intros P He Hh. cbn. destruct how; [done| |]; destruct (phase p); try done; try (by left);
    destruct P as [part P]; right; eauto.
Qed.

Lemma fresh_ok f : proxy_ok f fresh_proxy.
Proof. split; try done; try (by exists []). Qed.

Lemma end_ok f p how : proxy_ok f p -> ended p = false -> how <> LostReply -> proxy_ok f (set_phase (Ended how) p).
Proof.
  intros [R1 R2 W1 T P F] He Hh. split; try done; cbn.
  - by eapply write_over.
  - unfold turn, ended in *. cbn. destruct how; [done| |]; (destruct (phase p); [destruct T as [-> ->]; cbn; lia|lia|..|done];
      [destruct T as (e & q & -> & E & _); rewrite length_app; cbn; lia..|lia]).
  - by apply handing_ends.
Qed.

(** A step that leaves the flag alone, or the one that clears it. *)
Definition flag_step (f : bool) (p : proxy) (f' : bool) (p' : proxy) : Prop :=
  (f' = f /\ lost p' = lost p) \/ (f = true /\ f' = false /\ lost p = false /\ lost p' = true).

Lemma take_request_ok f p f' p' :
  proxy_ok f p -> proxy_step alloc TakeRequest f p = Some (f', p') -> proxy_ok f' p' /\ flag_step f p f' p'.
Proof.
  intros Hp H. cbn [proxy_step] in H. destruct (phase p) eqn:Ep; try done.
  destruct (receive _ _ _) as [request rest| |] eqn:Er; simplify_eq.
  - destruct Hp as [R1 R2 W1 T P F]. apply receive_whole in Er as (cs & Hcs & -> & Hb). rewrite Hb in R1.
    rewrite (wire_read cs Hcs). unfold turn, ended, lost, unsent_request, handing in *. rewrite Ep in *.
    split; [|left; unfold lost; by rewrite Ep]. split; cbn; try done.
    + by apply read_next.
    + by apply write_next.
    + by exists (requests p), (concat cs).
    + intros Hf. specialize (F Hf). rewrite take_app_le by lia. done.
  - split; [apply end_ok; [done|unfold ended; by rewrite Ep|done]|]. left. unfold lost. cbn. by rewrite Ep.
Qed.

Lemma take_reply_ok f p f' p' :
  proxy_ok f p -> proxy_step alloc TakeReply f p = Some (f', p') -> proxy_ok f' p' /\ flag_step f p f' p'.
Proof.
  intros Hp H. cbn [proxy_step] in H. destruct (phase p) as [| | |w| |] eqn:Ep; try done.
  destruct (receive _ _ _) as [reply rest| |] eqn:Er; simplify_eq.
  - destruct Hp as [R1 R2 W1 T P F]. apply receive_whole in Er as (cs & Hcs & -> & Hb). rewrite Hb in R2.
    rewrite (wire_read cs Hcs) in H. unfold turn, ended, lost, unsent_request, handing in *. rewrite Ep in *.
    destruct T as (earlier & q & Eq & El & ->). pose proof (read_next _ _ _ _ R2 Hcs) as R2'.
    destruct (is_nfs_write q && f) eqn:Ew; simplify_eq.
    + apply andb_true_iff in Ew as [Eq' ->]. split; [|right; unfold lost; cbn; by rewrite Ep]. split; cbn; try done.
      * by eapply write_over.
      * exists earlier, q. rewrite length_app. cbn. split_and!; [done|lia|done].
      * destruct P as [P1 P2]. exists (concat cs). unfold partly. cbn. rewrite P1, P2, app_nil_r. split_and!; try done. apply framed_nonempty.
    + split; [|left; unfold lost; cbn; by rewrite Ep]. split; cbn; try done.
      * unfold turn. cbn. rewrite Eq, !length_app. cbn. lia.
      * destruct P as [P1 P2]. exists []. unfold partly. cbn. rewrite P1, P2, app_nil_r. split_and!; try done. apply framed_nonempty.
      * intros ->. rewrite andb_true_r in Ew. specialize (F eq_refl). rewrite Eq, length_app in *. cbn.
        rewrite take_ge by (rewrite length_app; cbn; lia). rewrite take_app_length' in F by done.
        by apply Forall_app_2, Forall_singleton.
  - split; [apply end_ok; [done|unfold ended; by rewrite Ep|done]|]. left. unfold lost. cbn. by rewrite Ep.
Qed.

Lemma sent_ok n f p f' p' :
  proxy_ok f p -> proxy_step alloc (Sent n) f p = Some (f', p') -> proxy_ok f' p' /\ flag_step f p f' p'.
Proof.
  intros [R1 R2 W1 T P F] H. cbn [proxy_step] in H.
  destruct (phase p) as [| |w rest| |reply rest|] eqn:Ep; try done; (destruct (_ && _); [|done]); simplify_eq.
  all: unfold turn, ended, lost, unsent_request, handing in *; rewrite Ep in *.
  - pose proof (write_some _ _ _ (Z.to_nat n) W1) as W. unfold flag_step, lost. rewrite Ep.
    destruct (drop (Z.to_nat n) rest) as [|b rest'] eqn:Ed; (split; [|by left]); by split.
  - destruct P as (part & P1 & P2 & _ & P3). unfold flag_step, lost. rewrite Ep.
    assert (framed (max_fragment_size limits) reply = (part ++ take (Z.to_nat n) rest) ++ drop (Z.to_nat n) rest) as P2'
      by (by rewrite <- app_assoc, take_drop).
    destruct (drop (Z.to_nat n) rest) as [|b rest'] eqn:Ed; simplify_eq; (split; [|by left]); split; try done; cbn.
    + unfold handing, settled. cbn [phase replies passed to_client]. rewrite framing_snoc, P3, P2', app_nil_r, app_assoc. by split.
    + exists (part ++ take (Z.to_nat n) rest). unfold partly. cbn. rewrite P3, app_assoc. by split_and!.
Qed.

(** One step of a proxy; a reply is lost exactly when the flag is cleared. *)
Lemma proxy_step_ok a f p f' p' :
  proxy_ok f p -> proxy_step alloc a f p = Some (f', p') -> proxy_ok f' p' /\ flag_step f p f' p'.
Proof.
  intros Hp H. destruct a; [..| |by apply take_request_ok|by apply take_reply_ok|by eapply sent_ok|]; cbn [proxy_step] in H.
  - destruct (client_closed p); simplify_eq. destruct Hp. split; [split; try done; by apply read_more|by left].
  - simplify_eq. destruct Hp. split; [by split|by left].
  - destruct (server_closed p); simplify_eq. destruct Hp. split; [split; try done; by apply read_more|by left].
  - simplify_eq. destruct Hp. split; [by split|by left].
  - destruct Hp as [R1 R2 W1 T P F]. unfold flag_step, turn, ended, lost, unsent_request, handing in *. destruct (phase p); simplify_eq.
    split; [|by left]. split; try done. unfold turn. cbn. by destruct T as [-> ->].
  - assert (ended p = false /\ lost p = false) as [He Hl] by (unfold ended, lost; by destruct (phase p)).
    assert ((f', p') = (f, set_phase (Ended Failed) p)) as [= -> ->] by (destruct (phase p); by simplify_eq).
    split; [by apply end_ok|]. left. by rewrite Hl.
Qed.

(** ** All proxies *)

Definition lost_count (l : list proxy) : nat := sum_list_with (fun p => Nat.b2n (lost p)) l.

Lemma lost_count_insert l i p p' :
  l !! i = Some p -> (lost_count (<[i := p']> l) + Nat.b2n (lost p) = lost_count l + Nat.b2n (lost p'))%nat.
Proof.
  revert i. induction l as [|x l IH]; intros [|i] H; simplify_eq/=; [lia|]. specialize (IH i H). unfold lost_count in *. lia.
Qed.

Record harness_ok (h : harness) : Prop := {
  h_proxies : Forall (proxy_ok (lose_reply h)) (proxies h);
  h_lost : lost_count (proxies h) = Nat.b2n (negb (lose_reply h));
  h_joined : match serving h with Stopping | Waiting | Returned true => Forall (fun p => ended p = true) (proxies h) | _ => True end
}.

Lemma proxy_step_ended a f p f' p' : ended p = true -> proxy_step alloc a f p = Some (f', p') -> ended p' = true.
Proof.
  unfold ended. intros He H. destruct (phase p) eqn:Ep; try done. destruct a; cbn in H; rewrite ?Ep in H; try done;
    repeat match type of H with context [if ?b then _ else _] => destruct b end; simplify_eq; cbn; by rewrite ?Ep.
Qed.

Lemma update_joined (ph : harness_phase) l i p' :
  (match ph with Stopping | Waiting | Returned true => Forall (fun p => ended p = true) l | _ => True end) ->
  (forall p, l !! i = Some p -> ended p = true -> ended p' = true) ->
  match ph with Stopping | Waiting | Returned true => Forall (fun p => ended p = true) (<[i := p']> l) | _ => True end.
Proof.
  intros Hj Hp. assert (forall (H : Forall (fun p => ended p = true) l), Forall (fun p => ended p = true) (<[i := p']> l)) as Hi.
  { intros H. destruct (l !! i) as [p|] eqn:E; [|by rewrite list_insert_ge by (by apply lookup_ge_None)].
    apply Forall_insert; [done|]. eapply Hp; [done|]. by eapply Forall_lookup_1 in H. }
  destruct ph as [| | | |[]]; auto.
Qed.

Lemma on_ok h i a p f' p' :
  harness_ok h -> proxies h !! i = Some p -> proxy_step alloc a (lose_reply h) p = Some (f', p') ->
  harness_ok (mkHarness (serving h) f' (<[i := p']> (proxies h))).
Proof.
  intros [Hp Hl Hj] Hi Hs. pose proof (Forall_lookup_1 _ _ _ _ Hp Hi) as Hpi.
  destruct (proxy_step_ok _ _ _ _ _ Hpi Hs) as [Hp' Hf]. pose proof (lost_count_insert _ _ _ p' Hi) as Hc. split; cbn [proxies lose_reply serving].
  - apply Forall_insert; [|done]. eapply Forall_impl; [exact Hp|]. intros q. apply proxy_ok_flag.
    destruct Hf as [[-> _]|(-> & -> & _)]; done.
  - destruct Hf as [[-> E]|(E1 & -> & E2 & E3)]; [rewrite E in Hc; lia|]. rewrite E1 in Hl. rewrite E2, E3 in Hc.
    cbn [negb Nat.b2n] in *. lia.
  - apply update_joined; [done|]. intros q Hq. rewrite Hi in Hq. simplify_eq. intros He. by eapply proxy_step_ended.
Qed.

Lemma harness_step_ok l h h' : harness_ok h -> harness_step alloc l h = Some h' -> harness_ok h'.
Proof.
  intros Hok H. pose proof Hok as [Hp Hl Hj]. destruct l; cbn [harness_step] in H.
  - destruct (serving h); simplify_eq. split; cbn; [by apply Forall_app_2, Forall_singleton, fresh_ok| |done].
    unfold lost_count in *. rewrite sum_list_with_app. cbn. lia.
  - destruct (serving h); simplify_eq. by split.
  - destruct (serving h); simplify_eq. by split.
  - assert (exists p, proxies h !! i = Some p /\ ended p = false /\
      h' = mkHarness (serving h) (lose_reply h) (<[i := set_phase (Ended Cancelled) p]> (proxies h))) as (p & Hi & He & ->).
    { destruct (serving h), (proxies h !! i) as [p|]; try done; destruct (ended p) eqn:E; simplify_eq; eauto. }
    pose proof (lost_count_insert _ _ _ (set_phase (Ended Cancelled) p) Hi) as Hc.
    assert (lost p = false) as El by (unfold lost, ended in *; by destruct (phase p)). rewrite El in Hc. cbn in Hc.
    split; cbn [proxies lose_reply serving]; [|lia|by apply update_joined].
    apply Forall_insert; [done|]. apply end_ok; [by eapply Forall_lookup_1 in Hp|done|done].
  - destruct (serving h); try done. destruct (forallb _ _) eqn:E; simplify_eq. split; cbn; [done|done|].
    apply Forall_forall. intros p Hin. rewrite forallb_forall in E. apply E. by apply list_elem_of_In.
  - destruct (serving h); simplify_eq. by destruct ok; split.
  - destruct (serving h); simplify_eq. by destruct ok; split.
  - destruct (proxies h !! i) as [p|] eqn:Hi; [|done]. destruct (proxy_step _ _ _ _) as [[f' p']|] eqn:Hs; simplify_eq. by eapply on_ok.
Qed.

Lemma harness_run_ok ls h h' : harness_ok h -> harness_run alloc ls h = Some h' -> harness_ok h'.
Proof.
  revert h. induction ls as [|l ls IH]; intros h Hok H; cbn in H; [by simplify_eq|].
  apply bind_Some in H as (h1 & H1 & H). eapply IH; [|exact H]. by eapply harness_step_ok.
Qed.

Lemma written_prefix sent records over unsent : written_to sent records over unsent -> sent `prefix_of` framing records.
Proof. intros (tail & E & _). by exists tail. Qed.

Lemma turn_lengths p : turn p -> (length (replies p) <= length (requests p) <= S (length (replies p)))%nat.
Proof.
  unfold turn. destruct (phase p) as [| | | | |[]]; intros T; try lia; [by destruct T as [-> ->]; cbn; lia|..];
    destruct T as (e & q & -> & E & _); rewrite length_app; cbn; lia.
Qed.

Lemma handing_kept p :
  handing p -> lost p = false ->
  settled p \/ exists reply part rest, partly p reply part rest /\ (phase p = SendReply reply rest \/ ended p = true).
Proof.
  unfold handing, lost, ended. intros P Hl. destruct (phase p) as [| | | |reply rest|[]]; try done; try (by left);
    [destruct P as [part P]; right; eauto 8|destruct P as [P|(reply & part & rest & P)]; [by left|right; eauto 8]..].
Qed.

(** A request is no larger than the limit. *)
Lemma read_from_sizes sent unread records q : read_from sent unread records -> q ∈ records -> zlen q <= isize_max.
Proof.
  intros (css & -> & Hok & _) (cs & -> & Hin)%list_elem_of_fmap. rewrite Forall_forall in Hok.
  destruct (Hok cs Hin) as (_ & _ & _ & _ & Hl). cbn in Hl. unfold isize_max. lia.
Qed.

(** C39: the lost-reply profile loses exactly one reply. However the clients, the
    server and the tasks interleave, each proxy takes requests in order from what
    its client sent and replies from what the server sent, at most one request
    being unanswered, and sends on the framing of exactly these records. Only one
    proxy ever keeps a reply back: then it ends, nothing of the reply was sent, it
    answered the last request, and that was a version 3 WRITE call; the flag says
    whether it has happened, and before it no WRITE was answered. Of every other
    proxy all replies have reached the client's socket in full but for one that is
    being written, or was when the proxy ended. A proxy that waits for a request
    has sent on everything, and the harness returns without error only after all
    proxies ended. *)
Theorem one_write_reply_lost ls h :
  harness_run alloc ls harness_start = Some h ->
  lost_count (proxies h) = Nat.b2n (negb (lose_reply h)) /\
  (serving h = Returned true -> Forall (fun p => ended p = true) (proxies h)) /\
  forall i p, proxies h !! i = Some p ->
    read_from (client_sent p) (from_client p) (requests p) /\
    read_from (server_sent p) (from_server p) (replies p) /\
    to_server p `prefix_of` framing (requests p) /\
    (length (replies p) <= length (requests p) <= S (length (replies p)))%nat /\
    (phase p = AwaitRequest -> to_server p = framing (requests p) /\ to_client p = framing (replies p)) /\
    (lost p = false -> settled p \/ exists reply part rest, partly p reply part rest /\
      (phase p = SendReply reply rest \/ ended p = true)) /\
    (lost p = true -> exists earlier reply xid tail,
      requests p = earlier ++ [be_bytes 4 xid ++ u32s write_call ++ tail] /\ replies p = passed p ++ [reply] /\
      length (requests p) = length (replies p) /\ u32_range xid /\ to_client p = framing (passed p)) /\
    (lose_reply h = true -> Forall (fun q => is_nfs_write q = false) (take (length (replies p)) (requests p))).
Proof.
  intros H. assert (harness_ok h) as [Hp Hl Hj].
  { eapply harness_run_ok; [|exact H]. split; [constructor|done|done]. }
  split_and!; [done|by intros E; rewrite E in Hj|]. intros i p Hi. pose proof (Forall_lookup_1 _ _ _ _ Hp Hi) as [R1 R2 W1 T P F].
  split_and!; [done|done|by eapply written_prefix|by apply turn_lengths..| | | |done].
  - intros Ep. unfold ended, unsent_request, handing in *. rewrite Ep in *. destruct P as [-> ->].
    destruct W1 as (t1 & -> & H1). by rewrite H1, app_nil_r.
  - intros E. by apply handing_kept.
  - intros E. unfold turn, lost, handing in *. destruct (phase p) as [| | | | |[]]; try done.
    destruct P as (reply & P1 & _ & _ & P2). rewrite app_nil_r in P2.
    destruct T as (earlier & q & Eq & El & Hw). apply is_nfs_write_iff in Hw as (xid & tail & Hx & ->).
    + exists earlier, reply, xid, tail. split_and!; [done|done| |done|done]. rewrite Eq, length_app. cbn. lia.
    + eapply read_from_sizes; [exact R1|]. rewrite Eq. apply elem_of_app. right. by apply list_elem_of_singleton.
Qed.
End Proxies.

(** A client writes, the server answers, the reply is lost; a second client's
    retransmission is answered. *)
Definition toy_write : list byte := be_bytes 4 77 ++ u32s write_call ++ zeros 40.
Definition toy_run : list harness_label :=
  let exchange i := [AcceptClient; On i Connect; On i (ClientSends (framed (1024 * 1024) toy_write)); On i TakeRequest; On i (Sent 68);
    On i (ServerSends (framed (1024 * 1024) (zeros 24))); On i TakeReply] in
  exchange 0%nat ++ exchange 1%nat ++ [On 1%nat (Sent 28); SawShutdown; Abort 1%nat; AllJoined; ServerShutdown true; ServerWait true].

Lemma one_write_reply_lost_witness :
  exists h, harness_run Some toy_run harness_start = Some h /\ map lost (proxies h) = [true; false] /\
    map passed (proxies h) = [[]; [zeros 24]] /\ lost_count (proxies h) = 1%nat.
Proof.
  destruct (harness_run Some toy_run harness_start) as [h|] eqn:E; [|by vm_compute in E].
  destruct (one_write_reply_lost Some ltac:(intros n _; by eexists) toy_run h E) as (Hc & _).
  exists h. vm_compute in E. simplify_eq. by split_and!.
Defined.

(** ** [main] *)

Inductive backend : Type := ReadWrite | ReadOnly | CaseInsensitive | Mirror (root : string).

Record arguments : Type := mkArguments {
  listen : string;
  ready_file : string;
  shutdown_file : string;
  profile : string;
  restart_file : option string;
  portmapper_listen : option string;
  backend_root : option string
}.

Definition parse_arguments (l : list string) : result string arguments :=
  match l !! 1%nat, l !! 2%nat with
  | None, _ => Err "missing ready-file argument"%string
  | _, None => Err "missing shutdown-file argument"%string
  | Some ready, Some shutdown =>
      Ok (mkArguments (default "127.0.0.1:0"%string (l !! 0%nat)) ready shutdown (default "read-write"%string (l !! 3%nat))
        (l !! 4%nat) (l !! 5%nat) (l !! 6%nat))
  end.

(** The file system to serve, and whether a reply is to be lost. *)
Definition select_profile (profile : string) (backend_root : option string) : result string (backend * bool) :=
  if bool_decide (profile = "read-write"%string) then Ok (ReadWrite, false)
  else if bool_decide (profile = "lost-reply"%string) then Ok (ReadWrite, true)
  else if bool_decide (profile = "read-only"%string) then Ok (ReadOnly, false)
  else if bool_decide (profile = "case-insensitive"%string) then Ok (CaseInsensitive, false)
  else if bool_decide (profile = "mirror"%string) then
    match backend_root with Some root => Ok (Mirror root, false) | None => Err "mirror profile requires a backend root"%string end
  else Err "unknown certification profile"%string.

Inductive main_phase : Type :=
| Binding
| BindingPortmapper
| Starting
| Announcing
| Polling
| ShuttingDown
| AwaitingServer
| Deciding
| Removing
| Exited (ok : bool).

(** [running] is the server whose handle [main] holds; [bound] (the addresses asked
    for), [started] and [finished] are histories. *)
Record main_state : Type := mkMain {
  at_ : main_phase;
  bind_address : string;
  running : bool;
  bound : list string;
  reported : list string;
  started : nat;
  finished : nat
}.

(** What the listener, the server and the file system answer. *)
Inductive main_event : Type :=
| Bound (address : option string)
| PortmapperBound (ok : bool)
| Started (ok : bool)
| Announced (ok : bool)
| Polled (shutdown restart : bool)
| ShutDown (ok : bool)
| Waited (ok : bool)
| Seen (shutdown : bool)
| Removed.

Definition goto (ph : main_phase) (s : main_state) : main_state :=
  mkMain ph (bind_address s) (running s) (bound s) (reported s) (started s) (finished s).

(** The loop of [main] for the profiles that lose no reply. An error drops the
    handle with everything else. *)
Definition main_step (args : arguments) (e : main_event) (s : main_state) : option main_state :=
  match at_ s, e with
  | Binding, Bound None =>
      Some (mkMain (Exited false) (bind_address s) (running s) (bound s ++ [bind_address s]) (reported s) (started s) (finished s))
  | Binding, Bound (Some address) =>
      Some (mkMain (if portmapper_listen args is Some _ then BindingPortmapper else Starting) address (running s) (bound s ++ [bind_address s])
        (reported s ++ [address]) (started s) (finished s))
  | BindingPortmapper, PortmapperBound ok => Some (goto (if (ok : bool) then Starting else Exited false) s)
  | Starting, Started false => Some (goto (Exited false) s)
  | Starting, Started true =>
      Some (mkMain Announcing (bind_address s) true (bound s) (reported s) (S (started s)) (finished s))
  | Announcing, Announced ok => Some (goto (if (ok : bool) then Polling else Exited false) s)
  | Polling, Polled shutdown restart =>
      Some (if negb shutdown && negb (if restart_file args is Some _ then restart else false) then s else goto ShuttingDown s)
  | ShuttingDown, ShutDown ok => Some (goto (if (ok : bool) then AwaitingServer else Exited false) s)
  | AwaitingServer, Waited false => Some (goto (Exited false) s)
  | AwaitingServer, Waited true =>
      Some (mkMain Deciding (bind_address s) false (bound s) (reported s) (started s) (S (finished s)))
  | Deciding, Seen shutdown =>
      Some (goto (if (shutdown || (if restart_file args is Some _ then false else true) : bool) then Exited true else Removing) s)
  | Removing, Removed => Some (goto Binding s)
  | _, _ => None
  end.

Definition main_start (args : arguments) : main_state := mkMain Binding (listen args) false [] [] 0 0.

Fixpoint main_run (args : arguments) (es : list main_event) (s : main_state) : option main_state :=
  match es with
  | [] => Some s
  | e :: es' => main_step args e s ≫= main_run args es'
  end.

(** Servers are run one at a time, on the address first obtained. *)
Record main_ok (args : arguments) (s : main_state) : Prop := {
  m_servers : started s = (finished s + Nat.b2n (running s))%nat;
  m_running : match at_ s with
    | Announcing | Polling | ShuttingDown | AwaitingServer => running s = true
    | Exited false => True
    | _ => running s = false
    end;
  m_single : restart_file args = None -> (length (bound s) <= 1)%nat /\ (at_ s = Binding -> bound s = []) /\ at_ s <> Removing;
  m_addresses : bound s ++ [bind_address s] = listen args :: reported s \/ at_ s = Exited false /\ bound s = listen args :: reported s
}.

Lemma main_step_ok args e s s' : main_ok args s -> main_step args e s = Some s' -> main_ok args s'.
Proof.
  intros [H1 H2 H3 H4] H. unfold main_step in H. destruct (at_ s) eqn:Ea, e; try done;
    repeat match type of H with context [match ?x with _ => _ end] => destruct x eqn:? end; simplify_eq; cbn in *.
  all: (destruct H4 as [H4|[? H4]]; [|done]).
  all: split; cbn; rewrite ?Ea; try done; try (rewrite ?H2 in *; cbn in *; lia); try (by left).
  all: try (by intros Hr; destruct (H3 Hr) as (L1 & L2 & L3); split_and!).
  all: try (by intros ?; congruence).
  all: try (intros Hr; destruct (H3 Hr) as (L1 & L2 & L3); rewrite (L2 eq_refl); cbn; split_and!; [lia|done|done]).
  all: try (left; by rewrite H4).
  all: try (by right).
  intros Hr. rewrite Hr, orb_true_r in Heqb. done.
Qed.

Lemma main_run_ok args es s s' : main_ok args s -> main_run args es s = Some s' -> main_ok args s'.
Proof.
  revert s. induction es as [|e es IH]; intros s Hok H; cbn in H; [by simplify_eq|].
  apply bind_Some in H as (s1 & H1 & H). eapply IH; [|exact H]. by eapply main_step_ok.
Qed.

(** Servers run one at a time: when the loop returns without error, every server
    started has been shut down and waited for; each bind after the first asks for
    the address the last listener reported, so clients find the restarted server
    where it was; and without a restart file there is at most one server. *)
Lemma main_restarts args es s :
  main_run args es (main_start args) = Some s ->
  (finished s <= started s <= S (finished s))%nat /\ (at_ s = Exited true -> started s = finished s) /\
  (at_ s = Binding -> running s = false) /\ bound s `prefix_of` listen args :: reported s /\
  (restart_file args = None -> (length (bound s) <= 1)%nat).
Proof.
  intros H. assert (main_ok args s) as [H1 H2 H3 H4].
  { eapply main_run_ok; [|exact H]. split; cbn; try done; [by intros _; split_and!; [lia|done|done]|by left]. }
  split_and!.
  - rewrite H1. lia.
  - rewrite H1. destruct (running s); cbn; lia.
  - intros E. rewrite E in H2. rewrite H1, H2. cbn. lia.
  - intros E. by rewrite E in H2.
  - destruct H4 as [<-|[_ ->]]; [by eexists|done].
  - intros Hr. by destruct (H3 Hr).
Qed.
