(* ===== verification/MirrorWindows.v ===== *)
(** * [examples/mirrorfs.rs], Windows build: names, paths and the rename buffer

    On Windows a name from a client must be a component no Windows API reads as
    anything else: not a separator, a drive, a stream, a dot name, a device or a
    name whose end is trimmed. This file has the functions of the Windows build;
    what they get from the system ([CompareStringOrdinal], [LCMapStringEx], the
    last error) is a parameter. Strings of the host are their WTF-8 bytes. *)
From S2P Require Import Prelude VfsTypes LegacyRpc MirrorMap MirrorFs.
From stdpp Require Import list strings.
#[local] Open Scope Z_scope.

(** ** Components *)

Definition dot : byte := Byte.x2e.
Definition space : byte := Byte.x20.
Definition backslash : byte := Byte.x5c.
Definition colon : byte := Byte.x3a.

(** Less and greater than, colon, quotation mark, the two slashes, bar, question
    mark and asterisk; all are ASCII, one byte each. *)
Definition forbidden : list byte :=
  [Byte.x3c; Byte.x3e; colon; Byte.x22; NfsName.slash; backslash; Byte.x7c; Byte.x3f; Byte.x2a].

(** [value.split('.').next()] *)
Fixpoint first_part (value : list byte) : list byte :=
  match value with
  | [] => []
  | b :: rest => if bool_decide (b = dot) then [] else b :: first_part rest
  end.

Definition to_ascii_uppercase (b : byte) : byte :=
  if (0x61 <=? byte_val b) && (byte_val b <=? 0x7a) then byte_of (byte_val b - 32) else b.

Definition CON : list byte := [Byte.x43; Byte.x4f; Byte.x4e].
Definition PRN : list byte := [Byte.x50; Byte.x52; Byte.x4e].
Definition AUX : list byte := [Byte.x41; Byte.x55; Byte.x58].
Definition NUL : list byte := [Byte.x4e; Byte.x55; Byte.x4c].
Definition COM : list byte := [Byte.x43; Byte.x4f; Byte.x4d].
Definition LPT : list byte := [Byte.x4c; Byte.x50; Byte.x54].

(** The digits 1 to 9, and superscript one, two and three. *)
Definition ports : list (list byte) :=
  [[Byte.x31]; [Byte.x32]; [Byte.x33]; [Byte.x34]; [Byte.x35]; [Byte.x36]; [Byte.x37]; [Byte.x38]; [Byte.x39];
   [Byte.xc2; Byte.xb9]; [Byte.xc2; Byte.xb2]; [Byte.xc2; Byte.xb3]].

Definition device_port (prefix stem : list byte) : bool :=
  match LegacyRpc.strip_prefix prefix stem with Some rest => bool_decide (rest ∈ ports) | None => false end.

Definition valid_windows_component (value : list byte) : bool :=
  if bool_decide (value = []) || bool_decide (value ∈ [[dot]; [dot; dot]])
    || match last value with Some b => bool_decide (b = space) || bool_decide (b = dot) | None => false end
    || existsb (fun b => (byte_val b <=? 0x1f) || bool_decide (b ∈ forbidden)) value
  then false
  else
    let stem := map to_ascii_uppercase (first_part value) in
    negb (bool_decide (stem ∈ [CON; PRN; AUX; NUL])) && negb (device_port COM stem) && negb (device_port LPT stem).

Definition nfs_name_to_os_string (name : NfsName.t) : result NfsError.t OsString :=
  let value := NfsName.as_bytes name in
  if negb (utf8 value) then Err NfsError.Invalid
  else if negb (valid_windows_component value) then Err NfsError.Invalid
  else Ok value.

Definition os_component_to_nfs_bytes (value : OsString) : result NfsError.t (list byte) :=
  if negb (utf8 value) then Err NfsError.Invalid
  else if negb (valid_windows_component value) then Err NfsError.Invalid
  else Ok value.

Definition os_path_to_nfs_bytes (value : OsString) : result NfsError.t (list byte) :=
  if utf8 value then Ok value else Err NfsError.Invalid.

(** ** Paths *)

Definition is_separator (b : byte) : bool := bool_decide (b = NfsName.slash) || bool_decide (b = backslash).
Definition is_letter (b : byte) : bool :=
  let u := byte_val (to_ascii_uppercase b) in (0x41 <=? u) && (u <=? 0x5a).

(** A component that starts with a root or a drive does not extend a path. *)
Definition rooted (c : list byte) : bool :=
  match c with
  | [] => false
  | b :: rest => is_separator b || match rest with b2 :: _ => is_letter b && bool_decide (b2 = colon) | [] => false end
  end.

(** No separator is put after one, after nothing, or after a bare drive. *)
Definition needs_separator (path : list byte) : bool :=
  match last path with
  | None => false
  | Some b => negb (is_separator b) && negb (match path with [d; b2] => is_letter d && bool_decide (b2 = colon) | _ => false end)
  end.

(** [PathBuf::push]; [None]: the component replaces (part of) the path. *)
Definition push (path c : list byte) : option (list byte) :=
  if rooted c then None else Some (path ++ (if needs_separator path then [backslash] else []) ++ c).

Fixpoint extend (path : list byte) (r : Relative) : option (list byte) :=
  match r with
  | [] => Some path
  | c :: r' => p ← push path c; extend p r'
  end.

(** The components of a path, as the system splits it. *)
Fixpoint components (path : list byte) : list (list byte) :=
  match path with
  | [] => [[]]
  | b :: rest =>
      if is_separator b then [] :: components rest
      else match components rest with c :: cs => (b :: c) :: cs | [] => [[b]] end
  end.

(** ** Comparing and indexing *)

(** [encode_wide] of well-formed WTF-8 *)
Fixpoint encode_wide (l : list byte) : list Z :=
  match l with
  | [] => []
  | b0 :: t0 =>
      if byte_val b0 <? 0x80 then byte_val b0 :: encode_wide t0
      else match t0 with
      | [] => []
      | b1 :: t1 =>
          if byte_val b0 <? 0xe0 then ((byte_val b0 - 0xc0) * 64 + (byte_val b1 - 0x80)) :: encode_wide t1
          else match t1 with
          | [] => []
          | b2 :: t2 =>
              if byte_val b0 <? 0xf0 then
                ((byte_val b0 - 0xe0) * 4096 + (byte_val b1 - 0x80) * 64 + (byte_val b2 - 0x80)) :: encode_wide t2
              else match t2 with
              | [] => []
              | b3 :: t3 =>
                  let c := (byte_val b0 - 0xf0) * 262144 + (byte_val b1 - 0x80) * 4096 + (byte_val b2 - 0x80) * 64
                    + (byte_val b3 - 0x80) - 0x10000 in
                  (0xd800 + Z.shiftr c 10) :: (0xdc00 + Z.land c 0x3ff) :: encode_wide t3
              end
          end
      end
  end.

Definition i32_max : Z := 2147483647.

Definition map_raw_os_error (error : Z) : option NfsError.t :=
  match error with
  | 3 => Some NfsError.NotFound
  | 5 => Some NfsError.Access
  | 17 => Some NfsError.CrossDevice
  | 87 => Some NfsError.Invalid
  | 112 => Some NfsError.NoSpace
  | 145 => Some NfsError.NotEmpty
  | 206 => Some NfsError.NameTooLong
  | _ => None
  end.

Definition map_io_error (error : io_error) : NfsError.t :=
  match kind error with
  | ErrorKind.NotFound => NfsError.NotFound
  | ErrorKind.PermissionDenied => NfsError.Access
  | ErrorKind.AlreadyExists => NfsError.Exists
  | ErrorKind.InvalidInput | ErrorKind.InvalidData => NfsError.Invalid
  | ErrorKind.StorageFull => NfsError.NoSpace
  | ErrorKind.Other => default NfsError.Io (raw_os_error error ≫= map_raw_os_error)
  end.

Section Comparing.
(** [ordinal_equal a b]: [CompareStringOrdinal(a, b, ignoring case) == CSTR_EQUAL].
    [uppercase v n]: what [LCMapStringEx] returns for a buffer of [n] units, and
    the buffer. *)
Context (ordinal_equal : list Z -> list Z -> bool) (uppercase : list Z -> Z -> Z * list Z) (last_os_error : io_error).

Definition windows_component_eq (left right : OsString) : bool :=
  let left := encode_wide left in
  let right := encode_wide right in
  if (zlen left <=? i32_max) && (zlen right <=? i32_max) then ordinal_equal left right else false.

Definition windows_component_key (value : OsString) : result NfsError.t (list Z) :=
  let value := encode_wide value in
  if i32_max <? zlen value then Err NfsError.NameTooLong
  else
    let key_len := (uppercase value 0).1 in
    if key_len =? 0 then Err (map_io_error last_os_error)
    else
      let '(written, key) := uppercase value key_len in
      if negb (written =? key_len) then Err (map_io_error last_os_error) else Ok key.

Definition relative_eq (left right : Relative) : bool :=
  (length left =? length right)%nat && forallb (fun '(l, r) => windows_component_eq l r) (zip left right).

Definition relative_starts_with (relative prefix : Relative) : bool :=
  (length prefix <=? length relative)%nat && forallb (fun '(c, p) => windows_component_eq c p) (zip relative prefix).

Fixpoint relative_key (relative : Relative) : result NfsError.t (list (list Z)) :=
  match relative with
  | [] => Ok []
  | c :: relative' => k ← windows_component_key c; ks ← relative_key relative'; Ok (k :: ks)
  end.
End Comparing.

(** ** Renaming to another spelling *)

Definition checked_mul (a b : Z) : option Z := if a * b <=? usize_max then Some (a * b) else None.

(** The layout of [FILE_RENAME_INFO] and of a word. *)
Record layout : Type := mkLayout { file_name_offset : Z; info_size : Z; word_bytes : Z }.

(** [name_bytes], [total_bytes] and the number of words of [storage]. *)
Definition rename_buffer (l : layout) (destination : list Z) : result NfsError.t (Z * Z * Z) :=
  name_bytes ← ok_or (checked_mul (zlen destination) 2) NfsError.NameTooLong;
  name_bytes ← ok_or (u32_try_from name_bytes) NfsError.NameTooLong;
  total_bytes ← ok_or (size ← checked_add (file_name_offset l) name_bytes; checked_add size 2) NfsError.NameTooLong;
  Ok (name_bytes, total_bytes, div_ceil total_bytes (word_bytes l)).

(** Whether the special call is used. *)
Definition renames_by_handle (from to : list byte) (case_only : bool) : bool :=
  negb (negb case_only || bool_decide (from = to)).

(** ** Metadata *)

(** [SystemTime] in nanoseconds since 1970. *)
Record WindowsMetadata : Type := mkWindowsMetadata {
  w_is_dir : bool; w_is_symlink : bool; w_readonly : bool; w_len : Z;
  w_accessed : option Z; w_modified : option Z; w_created : option Z
}.

Definition metadata_time (time : Z) : NfsTime :=
  let duration := Z.max 0 time in mkNfsTime (duration / 1000000000) (duration mod 1000000000).

Definition metadata_file_type (m : WindowsMetadata) : FileType.t :=
  if w_is_dir m then FileType.Directory else if w_is_symlink m then FileType.Symlink else FileType.Regular.

Definition metadata_platform_attributes (m : WindowsMetadata) : Z * Z * Z * Z * Z * Z * NfsTime * NfsTime * NfsTime :=
  let base_mode := if w_is_dir m then 0x16d else 0x124 in
  let mode := if w_readonly m then base_mode else Z.lor base_mode 0x92 in
  let access_time := metadata_time (default 0 (w_accessed m)) in
  let modify_time := metadata_time (default 0 (w_modified m)) in
  let change_time := metadata_time (default 0 (match w_modified m with Some t => Some t | None => w_created m end)) in
  (mode, if w_is_dir m then 2 else 1, 0, 0, w_len m, 0, access_time, modify_time, change_time).

Definition directory_verifier (m : WindowsMetadata) : list byte :=
  let t := metadata_time (default 0 (w_modified m)) in
  be_bytes 8 (Z.lxor (Z.lxor (rotate_left (as_u64 (seconds t)) 17) (nanoseconds t)) (w_len m)).

(** ** Accepted components *)

(** A device name, alone or before a dot, in any case. *)
Definition device (c : list byte) : Prop :=
  exists base rest, c = base ++ rest /\ (dot ∉ base) /\ (rest = [] \/ exists rest', rest = dot :: rest') /\
    let stem := map to_ascii_uppercase base in
    stem ∈ [CON; PRN; AUX; NUL] \/ exists port, port ∈ ports /\ (stem = COM ++ port \/ stem = LPT ++ port).

Record safe (c : list byte) : Prop := {
  safe_nonempty : c <> [];
  safe_end : last c <> Some dot /\ last c <> Some space;
  safe_bytes : Forall (fun b => 0x1f < byte_val b /\ b ∉ forbidden) c;
  safe_device : ~ device c
}.

Lemma first_part_spec c : exists rest, c = first_part c ++ rest /\ (dot ∉ first_part c) /\ (rest = [] \/ exists rest', rest = dot :: rest').
Proof.
  induction c as [|b c (rest & E & Hd & Hr)]; [exists []; split_and!; [done|apply not_elem_of_nil|by left]|].
  cbn [first_part]. case_bool_decide as Eb; [exists (b :: c); subst; split_and!; [done|apply not_elem_of_nil|right; eauto]|].
  exists rest. split_and!; [cbn; by rewrite <- E|by apply not_elem_of_cons|done].
Qed.

Lemma first_part_unique base rest : dot ∉ base -> (rest = [] \/ exists rest', rest = dot :: rest') -> first_part (base ++ rest) = base.
Proof.
  induction base as [|b base IH]; cbn; intros Hd Hr.
  - destruct Hr as [->|[rest' ->]]; [done|]. cbn. by rewrite bool_decide_true.
  - apply not_elem_of_cons in Hd as [Hb Hd]. rewrite bool_decide_false by done. by rewrite IH.
Qed.

Lemma strip_prefix_Some p l rest : LegacyRpc.strip_prefix p l = Some rest <-> l = p ++ rest.
Proof.
  revert l. induction p as [|b p IH]; intros l; cbn; [split; congruence|]. destruct l as [|c l]; [done|].
  case_bool_decide as E; [subst; rewrite IH; split; congruence|]. split; [done|]. congruence.
Qed.

Lemma device_port_iff prefix stem : device_port prefix stem = true <-> exists port, port ∈ ports /\ stem = prefix ++ port.
Proof.
  unfold device_port. destruct (LegacyRpc.strip_prefix prefix stem) as [rest|] eqn:E.
  - apply strip_prefix_Some in E as ->. rewrite bool_decide_eq_true. split; [eauto|]. intros (port & Hp & ->%app_inv_head). done.
  - split; [done|]. intros (port & _ & ->). by rewrite (proj2 (strip_prefix_Some _ _ _) eq_refl) in E.
Qed.

Lemma device_iff c :
  device c <-> let stem := map to_ascii_uppercase (first_part c) in
    stem ∈ [CON; PRN; AUX; NUL] \/ device_port COM stem = true \/ device_port LPT stem = true.
Proof.
  cbn zeta. rewrite !device_port_iff. split.
  - intros (base & rest & -> & Hd & Hr & H). rewrite (first_part_unique _ _ Hd Hr). destruct H as [H|(port & Hp & [H|H])]; eauto.
  - intros H. destruct (first_part_spec c) as (rest & E & Hd & Hr). exists (first_part c), rest. split_and!; [done..|].
    destruct H as [H|[(port & Hp & H)|(port & Hp & H)]]; eauto.
Qed.

(** The check accepts exactly the safe components. *)
Lemma valid_windows_component_iff c : valid_windows_component c = true <-> safe c.
Proof.
  unfold valid_windows_component. split.
  - destruct (_ || _) eqn:E; [done|]. rewrite !orb_false_iff in E. destruct E as [[[E1 E2] E3] E4]. intros H.
    rewrite !andb_true_iff, !negb_true_iff in H. destruct H as [[H1 H2] H3]. apply bool_decide_eq_false in E1, H1. split.
    + done.
    + destruct (last c); [|done]. apply orb_false_iff in E3 as [?%bool_decide_eq_false ?%bool_decide_eq_false]. split; congruence.
    + apply Forall_forall. intros b Hb. assert ((byte_val b <=? 31) || bool_decide (b ∈ forbidden) = false) as Ef.
      { apply not_true_is_false. intros Ht. apply not_true_iff_false in E4. apply E4. apply existsb_exists. exists b. split; [by apply list_elem_of_In|done]. }
      apply orb_false_iff in Ef as [?%Z.leb_gt ?%bool_decide_eq_false]. split; [lia|done].
    + rewrite device_iff. cbn zeta. rewrite H2, H3. by intros [?|[?|?]].
  - intros [H1 [H2 H3] H4 H5]. rewrite device_iff in H5. cbn zeta in H5. set (stem := map _ _) in *.
    rewrite (bool_decide_false (c = [])) by done. rewrite (bool_decide_false (c ∈ _)).
    2:{ intros Hin. rewrite !elem_of_cons, elem_of_nil in Hin. destruct Hin as [->|[->|[]]]; by apply H2. }
    assert (existsb (fun b => (byte_val b <=? 31) || bool_decide (b ∈ forbidden)) c = false) as ->.
    { apply not_true_is_false. intros (b & Hb%list_elem_of_In & Hf)%existsb_exists. rewrite Forall_forall in H4. destruct (H4 b Hb) as [Hv Hn].
      apply orb_true_iff in Hf as [?%Z.leb_le|?%bool_decide_eq_true]; [lia|done]. }
    destruct (last c) as [b|]; cbn [orb].
    + rewrite (bool_decide_false (b = space)), (bool_decide_false (b = dot)) by congruence. cbn [orb].
      rewrite (bool_decide_false (stem ∈ _)) by tauto.
      destruct (device_port COM stem); [tauto|]. destruct (device_port LPT stem); [tauto|done].
    + rewrite (bool_decide_false (stem ∈ _)) by tauto.
      destruct (device_port COM stem); [tauto|]. destruct (device_port LPT stem); [tauto|done].
Qed.

Lemma accepted_name n c : nfs_name_to_os_string n = Ok c -> c = NfsName.as_bytes n /\ safe c.
Proof.
  unfold nfs_name_to_os_string. destruct (utf8 _); [|done]. destruct (valid_windows_component _) eqn:E; [|done].
  intros [= <-]. by apply valid_windows_component_iff in E.
Qed.

(** ** Paths stay below the root *)

Lemma safe_no_separator c b : safe c -> b ∈ c -> is_separator b = false /\ b <> colon.
Proof.
  intros [_ _ H _] Hb. rewrite Forall_forall in H. destruct (H b Hb) as [_ Hf]. unfold forbidden in Hf.
  rewrite !not_elem_of_cons in Hf. unfold is_separator. rewrite !bool_decide_false by tauto. tauto.
Qed.

Lemma safe_not_rooted c : safe c -> rooted c = false.
Proof.
  intros H. destruct c as [|b [|b2 c]]; [done|..]; cbn; destruct (safe_no_separator _ b H) as [-> _]; try (by left); [done|].
  destruct (safe_no_separator _ b2 H) as [_ Hc]; [by right; left|]. rewrite bool_decide_false by done. by rewrite andb_false_r.
Qed.

Lemma needs_after path c : safe c -> needs_separator (path ++ backslash :: c) = true.
Proof.
  intros Hc. destruct c as [|b c _] using rev_ind; [by destruct (safe_nonempty _ Hc)|]. unfold needs_separator.
  rewrite app_comm_cons, app_assoc, last_snoc. destruct (safe_no_separator _ b Hc) as [-> _]; [apply elem_of_app; right; by left|].
  rewrite <- !app_assoc. cbn. destruct path as [|x [|y path]]; cbn; [by destruct c as [|? []]|by destruct c|by destruct path].
Qed.

Lemma push_safe path c : needs_separator path = true -> safe c -> push path c = Some (path ++ backslash :: c).
Proof. intros Hp Hc. unfold push. by rewrite safe_not_rooted, Hp. Qed.

Lemma extend_safe path r :
  needs_separator path = true -> Forall safe r -> extend path r = Some (path ++ concat (map (cons backslash) r)).
Proof.
  intros Hp Hr. revert path Hp. induction Hr as [|c r Hc _ IH]; intros path Hp; cbn; [by rewrite app_nil_r|].
  rewrite push_safe by done. cbn. rewrite IH by (by apply needs_after). by rewrite <- app_assoc.
Qed.

Lemma components_nonempty p : components p <> [].
Proof. destruct p as [|b p]; cbn; [done|]. destruct (is_separator b); [done|]. by destruct (components p). Qed.

Lemma components_split a b : components (a ++ backslash :: b) = components a ++ components b.
Proof.
  induction a as [|x a IH]; [done|]. cbn. destruct (is_separator x); [by rewrite IH|]. rewrite IH.
  pose proof (components_nonempty a). by destruct (components a).
Qed.

Lemma components_safe c : safe c -> components c = [c].
Proof.
  intros H. assert (forall b, b ∈ c -> is_separator b = false) as Hs by (intros b Hb; by apply (safe_no_separator c b)).
  clear H. induction c as [|b c IH]; [done|]. cbn. rewrite (Hs b) by (by left). rewrite IH; [done|]. intros b' Hb'. apply Hs. by right.
Qed.

Lemma components_joined path r : Forall safe r -> components (path ++ concat (map (cons backslash) r)) = components path ++ r.
Proof.
  intros Hr. revert path. induction Hr as [|c r Hc _ IH]; intros path; cbn; [by rewrite !app_nil_r|].
  change (path ++ backslash :: c ++ concat (map (cons backslash) r)) with (path ++ (backslash :: c) ++ concat (map (cons backslash) r)).
  rewrite app_assoc, IH, components_split, (components_safe c Hc). by rewrite <- app_assoc.
Qed.

(** C35: on Windows a client cannot name anything outside the mirrored directory. A
    name is accepted only if it is, byte for byte, a component that is not a dot
    name, has no separator, drive or stream mark, wildcard or control character, no
    end the system would trim and no device's name (and every such UTF-8 name is).
    Joining accepted names to the root, given with or without a final separator,
    therefore appends exactly these components; and a listed name that is passed
    back is accepted as the same string. *)
Theorem windows_names_confined base root names r :
  root = base /\ needs_separator base = true \/ root = base ++ [backslash] ->
  Forall2 (fun n c => nfs_name_to_os_string n = Ok c) names r -> r <> [] ->
  r = map NfsName.as_bytes names /\ Forall safe r /\
  (exists p, extend root r = Some p /\ components p = components base ++ r) /\
  (forall n, utf8 (NfsName.as_bytes n) = true -> safe (NfsName.as_bytes n) -> nfs_name_to_os_string n = Ok (NfsName.as_bytes n)) /\
  (forall v bytes n, os_component_to_nfs_bytes v = Ok bytes -> NfsName.new bytes = Ok n -> nfs_name_to_os_string n = Ok v).
Proof.
  intros Hroot Hn Hne.
  assert (r = map NfsName.as_bytes names /\ Forall safe r) as [Er Hs].
  { clear Hne. induction Hn as [|n c names r Hc _ [-> Hr]]; [by split; [|constructor]|]. apply accepted_name in Hc as [-> Hc]. split; [done|by constructor]. }
  split_and!; [done|done| | |].
  - destruct Hroot as [[-> Hb]| ->].
    + eexists. split; [by apply extend_safe|]. by apply components_joined.
    + destruct r as [|c r]; [done|]. apply Forall_cons in Hs as [Hc Hr]. exists (base ++ concat (map (cons backslash) (c :: r))).
      split; [|apply components_joined; by constructor]. cbn. unfold push. rewrite safe_not_rooted by done.
      assert (needs_separator (base ++ [backslash]) = false) as -> by (unfold needs_separator; by rewrite last_snoc). cbn.
      rewrite <- app_assoc. cbn. rewrite extend_safe by (done || by apply needs_after). by rewrite <- app_assoc.
  - intros n Hu Hs'. unfold nfs_name_to_os_string. rewrite Hu. by rewrite (proj2 (valid_windows_component_iff _) Hs').
  - intros v bytes n Hv Hb. unfold os_component_to_nfs_bytes in Hv. destruct (utf8 v) eqn:Eu; [|done].
    destruct (valid_windows_component v) eqn:Ev; [|done]. simplify_eq/=. unfold NfsName.new in Hb.
    destruct (_ <? _); [done|]. destruct (_ || _); [done|]. simplify_eq. unfold nfs_name_to_os_string. cbn. by rewrite Eu, Ev.
Qed.

Definition a_name : NfsName.t := NfsName.mk [Byte.x61].
Lemma windows_names_confined_witness :
  extend [Byte.x43; colon; backslash] [[Byte.x61]; [Byte.x61]] = Some [Byte.x43; colon; backslash; Byte.x61; backslash; Byte.x61] /\
  components [Byte.x43; colon; backslash; Byte.x61; backslash; Byte.x61] = components [Byte.x43; colon] ++ [[Byte.x61]; [Byte.x61]].
Proof.
  destruct (windows_names_confined [Byte.x43; colon] [Byte.x43; colon; backslash] [a_name; a_name] [[Byte.x61]; [Byte.x61]])
    as (_ & _ & (p & Hp & Hc) & _); [by right|by repeat constructor|done|].
  vm_compute in Hp. simplify_eq. split; [done|exact Hc].
Defined.

(** The names of the test of [valid_windows_component]. *)
Definition text (s : string) : list byte := String.list_byte_of_string s.
Example windows_components :
  map (fun s => valid_windows_component (text s)) ["file.txt"; "COM10"; "folder-name"]%string = [true; true; true] /\
  map (fun s => valid_windows_component (text s))
    ["."; ".."; "CON"; "con.txt"; "LPT1.log"; "bad\name"; "bad:name"; "trail."; "trail "]%string = replicate 9 false /\
  valid_windows_component (COM ++ [Byte.xc2; Byte.xb9] ++ text ".txt") = false.
Proof. by vm_compute. Qed.

(** ** Prefixes *)

Section Prefixes.
Context (ordinal_equal : list Z -> list Z -> bool).

(** A path is below another exactly when it continues a path equal to it. *)
Lemma relative_starts_with_iff r prefix :
  relative_starts_with ordinal_equal r prefix = true <-> exists q s, r = q ++ s /\ relative_eq ordinal_equal q prefix = true.
Proof.
  unfold relative_starts_with, relative_eq. split.
  - intros [Hl%Nat.leb_le Hf]%andb_true_iff. exists (take (length prefix) r), (drop (length prefix) r).
    split; [by rewrite take_drop|]. apply andb_true_iff. split; [apply Nat.eqb_eq; rewrite length_take; lia|].
    revert r Hl Hf. induction prefix as [|p prefix IH]; intros [|c r] Hl Hf; cbn in *; try done; try lia.
    apply andb_true_iff in Hf as [-> Hf]. apply IH; [lia|done].
  - intros (q & s & -> & [Hl%Nat.eqb_eq Hf]%andb_true_iff). apply andb_true_iff. rewrite length_app.
    split; [apply Nat.leb_le; lia|]. revert prefix Hl Hf. induction q as [|c q IH]; intros [|p prefix] Hl Hf; cbn in *; try done.
    + by destruct s.
    + apply andb_true_iff in Hf as [-> Hf]. apply IH; [lia|done].
Qed.
End Prefixes.

(** ** The buffer of a rename *)

(** A C structure is padded to its alignment, that of a pointer; a word is one. *)
Definition layout_wf (l : layout) : Prop :=
  0 <= file_name_offset l /\ 0 < word_bytes l /\ info_size l = word_bytes l * div_ceil (file_name_offset l + 2) (word_bytes l).

(** The structure, the name copied into it and the final NUL all lie inside the
    storage, and no whole word is left over. *)
Lemma rename_buffer_sound l destination name_bytes total_bytes words :
  layout_wf l -> rename_buffer l destination = Ok (name_bytes, total_bytes, words) ->
  name_bytes = 2 * zlen destination /\ total_bytes = file_name_offset l + name_bytes + 2 /\
  total_bytes <= words * word_bytes l < total_bytes + word_bytes l /\ info_size l <= words * word_bytes l.
Proof.
  intros (H0 & Hw & Hi) H. unfold rename_buffer in H. pose proof (zlen_nonneg destination) as Hz.
  apply bind_ok in H as (n1 & H1 & H). apply bind_ok in H as (n2 & H2 & H). apply bind_ok in H as (n3 & H3 & H).
  assert (n1 = zlen destination * 2) as -> by (unfold checked_mul in H1; by destruct (_ <=? _); simplify_eq/=).
  assert (n2 = zlen destination * 2) as -> by (unfold u32_try_from in H2; by destruct (_ <=? _); simplify_eq/=).
  assert (n3 = file_name_offset l + zlen destination * 2 + 2) as ->.
  { unfold checked_add in H3. destruct (_ <=? _); cbn in H3; [|done]. by destruct (_ <=? _); simplify_eq/=. }
  simplify_eq.
  set (n := file_name_offset l + zlen destination * 2 + 2).
  pose proof (proj1 (div_ceil_le n (word_bytes l) (div_ceil n (word_bytes l)) Hw ltac:(lia)) ltac:(lia)) as Hup.
  assert (div_ceil (file_name_offset l + 2) (word_bytes l) <= div_ceil n (word_bytes l)) as Hle.
  { apply div_ceil_le; [done|lia|]. lia. }
  split_and!; [lia|lia|lia| |rewrite Hi; nia].
  unfold div_ceil. pose proof (Z.div_mod n (word_bytes l) ltac:(lia)). pose proof (Z.mod_pos_bound n (word_bytes l) Hw).
  destruct (Z.ltb_spec 0 (n mod word_bytes l)); nia.
Qed.

Example rename_buffer_64bit : rename_buffer (mkLayout 20 24 8) [0x43; 0x3a; 0x5c; 0x61] = Ok (8, 30, 4).
Proof. done. Qed.

(** ** Attributes *)

Lemma metadata_time_range t : 0 <= nanoseconds (metadata_time t) < 1000000000 /\ 0 <= seconds (metadata_time t).
Proof. cbn. split; [by apply Z.mod_pos_bound|]. apply Z.div_pos; lia. Qed.

